(* ===== verification/_CoqProject ===== *)
-Q . S2P
Prelude.v
Text.v
Async.v
Spawner.v
Concurrent.v
Owned.v
Extern.v
ChannelCapacity.v
Packet.v
Codecs.v
EventRegistry.v
Extensions.v
ServerConfig.v
ServerState.v
Connection.v
Broadcast.v
Namespace.v
ServerRuntime.v
RunServer.v
RefServer.v
Lifecycle.v
ServerTasks.v
ServerSafety.v
Frames.v
Trust.v
Approval.v
Races.v
Handshake.v
Rooms.v
Registration.v
Request.v
Tower.v
Streams.v
Closing.v
Fanout.v
Shutdown.v
ClientConfig.v
ClientState.v
Session.v
ClientRuntime.v
RefClient.v
RunClient.v
SessionRun.v
ClientRun.v
ClientTasks.v
ClientGuarantee.v
ClientLifecycle.v
ClientRaces.v
ClientCalls.v
EndToEnd.v
EventFlow.v
Agreement.v
