(* ===== verification/Prelude.v ===== *)
(** * ws.io-rs: a verification development

    ws.io is a protocol for events over WebSockets.  A server has namespaces, a
    namespace has connections and rooms; a client holds one session with one
    namespace and connects again when it is lost.  The two sides exchange
    packets (init, ready, event, disconnect) in one of five encodings.  This
    development models the crates [wsio-core], [wsio-server] and [wsio-client]
    under [src/crates/] and proves what their operations do.

    ** Asynchronous code

    An [async fn] is a value of [Async.prog]: atomic operations on a shared
    state ([Atom]), waits on the outside ([Await]: a user's handler, a timer,
    the network), [Fail] for [Err(e)?] and [Panic].  An atomic operation is one
    access to an atomic, one section under one lock or one operation on a
    concurrent map, so two look-ups of the source are two operations here.  A
    lock that is held or a full channel is an operation without a result: the
    task waits.  The same programs are used in three ways:
    - [run] and [goes] execute one program alone, the answers of its waits
      given: the functional theorems, on every branch;
    - [sys_step] interleaves a pool of tasks at every atomic operation, with any
      answers and any task left alone from any moment on: the safety theorems,
      by guarantees of the single program ([guar]), by rely/guarantee ([safe],
      which also says what panics may happen) and with what a task owns, a lock
      or a session ([Owned.osafe]).  A program whose every operation is of one
      kind is [routine], and so safe;
    - [play] and [obeyed] follow an explicit schedule: what the code does not
      exclude.
    Which tasks may start is a predicate of the program ([reaches]: the server,
    whose operations may be called at any time, [Lifecycle.server_task]) or of
    the state too ([reaches_in]: a client or a server starts the calls of its
    application and what its table of tasks holds, [ClientTasks.client_starts],
    [ServerTasks.server_starts]; the latter runs are among the former).
    [Concurrent.par] polls futures of one task in any order ([join_all],
    [for_each_concurrent]).  [Spawner.until] is the [select!] of a spawned task
    and its cancellation token.

    ** The files

    Shared: [Prelude] (results, wrap-around, record updates, maps), [Text] (the
    string functions of Rust that are used), [Async], [Spawner]
    ([traits/task/spawner.rs]), [Concurrent], [Owned], [Extern] (the crates that
    are called, as classes with their documented behaviour, each with a concrete
    instance).

    [wsio-core]: [ChannelCapacity] ([lib.rs]), [Packet] ([packet/mod.rs]),
    [Codecs] ([packet/codecs/]), [EventRegistry] ([event/registry.rs]).

    [wsio-server]: [Extensions] ([connection/extensions.rs]), [ServerConfig]
    ([config.rs], [builder.rs], [namespace/config.rs], [namespace/builder.rs]),
    [ServerState] (the structs, and the operations on rooms and tables),
    [Connection] ([connection/mod.rs]), [Broadcast] ([operators/broadcast.rs]),
    [Namespace] ([namespace/mod.rs]), [ServerRuntime] ([runtime.rs], [lib.rs]),
    [Request] ([request.rs]), [Tower] ([request_adapters/tower]), [ServerTasks]
    (the program of each spawned task, and the calls of an application).

    [wsio-client]: [ClientConfig] ([config.rs], [builder.rs]), [ClientState],
    [Session] ([session.rs]), [ClientRuntime] ([runtime.rs], [lib.rs]),
    [ClientTasks] (the program of each spawned task, and the calls of [lib.rs]).

    [RunServer] and [RunClient] have the lemmas and tactics that walk down a
    program; [RefServer] and [RefClient] are concrete worlds, on which
    witnesses and schedules are evaluated.

    State corresponds to the structs field by field.  An [Arc] of the server is
    an address in [connection_heap] or [namespace_heap]; sessions, tokens and
    tasks of the client are addresses too.  A [Mutex] around a value is a flag
    where a task can wait for it, and otherwise part of the operation.  A
    handler of the user is a name: a call is a wait labelled with the name and
    the decoded payload, and its answer (a result, or the time limit) is an
    input.

    ** What is proved

    - [Lifecycle]: under every interleaving connections move along their state
      machine only, and what began to stop never runs again.  [Approval], with
      [Frames] (the operations that send, list and dispatch nothing) and [Trust]
      (what every task guarantees about approvals, frames and tasks): a
      connection that is ready, whose client has been told so, that broadcasts
      can find, or whose events are handled, was approved by every handler, in
      order.
    - [ServerSafety]: under every interleaving the references of a server stay
      sound, so that no task finds a connection or a namespace gone, and what
      panics are left.
    - [ClientLifecycle], by the guarantees of [ClientGuarantee]: the same of the
      client under every interleaving of its tasks; what a session has read and
      answered before it is ready and before its events are handled; when the
      unreachable branches are reached.
      [Agreement]: a client and a server side by side, a ready session has a
      connection that got ready.
    - [Spawner]: a task under a token ends with its future, or at a wait once the
      token is cancelled.  [Tower]: the service hands requests only to an
      instance of the inner service that was polled ready.
    - [Handshake], [SessionRun], [EndToEnd]: the handshake on both sides, every
      branch, errors included, and the two sides together; frames and payloads
      are read back; the heartbeat; the namespace a URL leads to.  [EventFlow]: an
      event that one side emits leads to one call of every handler of the other
      side, with the payload that was emitted, in both directions.
    - [EventRegistry]: the registry refines a table from events to handlers, a
      dispatch calls each handler once, and removals in two looks lose none.
    - [Rooms], [Fanout]: rooms stay consistent; a broadcast reaches exactly its
      targets, once each, in every order of the sends, and never gets stuck.
    - [Streams]: the writer sends its queue in order up to a close frame, and the
      reader and the writer return.
    - [Closing], [Shutdown], [Registration], [ClientRun]: the ends of
      connections, sessions and namespaces give up everything they hold.
    - [ClientCalls], [ClientConfig], [Request]: connecting, disconnecting,
      emitting and delivering; the builder; which requests are upgraded.
    - [Extensions], [ChannelCapacity]: the typed store, and the bounds of the
      capacity for every configuration.
    - [Races], [ClientRaces], [EndToEnd.query_not_encoded]: behaviours that are
      hardly meant, by schedules and evaluation: the second of two stops panics,
      two registrations of one path both succeed, a shutdown misses a
      connection in its handshake, a close handler waits for itself, a closed
      connection joins a room, a graceful disconnect panics in the connection
      loop and leaves the session uncleaned, a sender misses its wake-up, a
      connect after a dropped disconnect panics, query pairs are joined
      unencoded.

    ** Bounds

    The loops over frames, heartbeats, attempts to connect and events run for
    as long as the outside goes on; [fuel] is the number of turns.  The safety
    theorems hold for every number; the functional ones hold for every number
    of turns that is large enough for the frames or messages given, with a
    result that does not depend on it, or state one turn.  Nothing else has
    fuel.  Connection ids are 64-bit and handler ids 32-bit, with their
    wrap-around.

    ** Approximations

    - The limit of [for_each_concurrent] is left out: all sends of a broadcast
      may be interleaved, which includes every limit.
    - Emptying a queue with [try_recv] in [disconnect] is one operation.
    - [abort] takes the task out of the table at once, and the receiver of an
      aborted writer is dropped with it.  A task that the pool runs already
      goes on, as it does up to its next wait; in the interleavings it may go on
      for longer, and a task of the table may be started more than once, which
      only adds behaviour.
    - That a future is dropped by its caller is an answer of the wait of
      [disconnect] for its loop.  Elsewhere a dropped future is a task that is
      left alone: a lock it holds then stays locked, as does one of a task that
      panics.
    - A token is seen at a wait that is not over: a lock that is free and a
      channel with room are not waits.
    - A [JoinHandle] whose output has been taken panics when awaited again, as
      tokio's does.
    - Memory orderings are not modelled: atomics are sequentially consistent.

    ** Not modelled

    HTTP, TLS, WebSocket framing, timers and the scheduler of tokio; the serde
    crates, [url], [http] and hyper (parameters); [Debug] output of structs;
    accessors that hand on a field; the inner service of the tower adapter (a
    parameter); futures that an application hands to [spawn_task] of a client;
    the crate [wsio-adapter], which is empty; tests, benches and scripts. *)

From stdpp Require Export base tactics strings list gmap fin_maps numbers.
From Stdlib Require Export ZArith Lia.

#[global] Set Default Goal Selector "!".

(** ** Errors and results

    [anyhow::Error] carries either a message built by [bail!] / [ensure] or an
    error converted by [?] from another type; the second kind is kept apart by
    where it comes from. *)

Inductive error : Type :=
| EMsg (msg : string)
| EElapsed
| ETransition
| ESend
| ECodec
| EHandler
| EUrl.

#[export] Instance error_eq_dec : EqDecision error.
Proof. solve_decision. Defined.

Inductive result (A : Type) : Type :=
| Ok (a : A)
| Err (e : error).
Arguments Ok {A} a.
Arguments Err {A} e.

Definition is_ok {A} (r : result A) : bool :=
  match r with Ok _ => true | Err _ => false end.

Definition result_bind {A B} (r : result A) (k : A → result B) : result B :=
  match r with Ok a => k a | Err e => Err e end.

Definition result_map {A B} (f : A → B) (r : result A) : result B :=
  match r with Ok a => Ok (f a) | Err e => Err e end.

(** [Option<Result<A>>::transpose]. *)
Definition transpose {A} (o : option (result A)) : result (option A) :=
  match o with
  | None => Ok None
  | Some (Ok a) => Ok (Some a)
  | Some (Err e) => Err e
  end.

Declare Scope wsio_scope.
Delimit Scope wsio_scope with wsio.
Open Scope wsio_scope.

Notation "x <-? r ;; k" := (result_bind r (λ x, k))
  (at level 100, r at next level, right associativity) : wsio_scope.

(** ** Machine integers *)

Definition wrap32 (n : Z) : Z := (n `mod` 2 ^ 32)%Z.
Definition wrap64 (n : Z) : Z := (n `mod` 2 ^ 64)%Z.

Lemma wrap32_small n : (0 ≤ n < 2 ^ 32)%Z → wrap32 n = n.
Proof. intros. unfold wrap32. by rewrite Z.mod_small. Qed.

Lemma wrap64_small n : (0 ≤ n < 2 ^ 64)%Z → wrap64 n = n.
Proof. intros. unfold wrap64. by rewrite Z.mod_small. Qed.

Lemma wrap32_range n : (0 ≤ wrap32 n < 2 ^ 32)%Z.
Proof. unfold wrap32. by apply Z.mod_pos_bound. Qed.

(** [std::time::Duration], in nanoseconds. *)
Definition Duration : Type := Z.
Definition from_secs (n : Z) : Duration := (n * 10 ^ 9)%Z.

(** ** Bytes *)

Abbreviation byte := Byte.byte.
Abbreviation bytes := (list Byte.byte).

#[export] Instance byte_eq_dec : EqDecision byte := Byte.byte_eq_dec.

(** ** Maps *)

Lemma alter_some {K A} `{Countable K} (f : A → A) (m : gmap K A) i x :
  m !! i = Some x → alter f i m = <[i := f x]> m.
Proof.
  intros Hx. apply map_eq. intros j. rewrite lookup_alter, lookup_insert.
  case_decide; subst; by rewrite ?Hx.
Qed.

Lemma alter_insert_same {K A} `{Countable K} (f : A → A) (m : gmap K A) i x :
  alter f i (<[i := x]> m) = <[i := f x]> m.
Proof. rewrite (alter_some f _ i x); [apply insert_insert_eq | apply lookup_insert_eq]. Qed.

Lemma alter_alter {K A} `{Countable K} (f g : A → A) (m : gmap K A) i :
  alter f i (alter g i m) = alter (λ x, f (g x)) i m.
Proof.
  apply map_eq. intros j. destruct (decide (i = j)) as [->|].
  - rewrite !lookup_alter_eq. by destruct (m !! j).
  - by rewrite !lookup_alter_ne.
Qed.

(** ** Record update

    [r .[ p := v ]] replaces the field [p] of [r]; the setter is derived from
    the record's eta expansion, registered once per record as an [Eta]
    instance. *)

Class Eta (R : Type) := eta : R → R.

Class Setter {R T : Type} (p : R → T) := update : (T → T) → R → R.
Arguments update {R T} p {_} f r.

Ltac derive_setter :=
  match goal with
  | |- @Setter ?R ?T ?p =>
      let i := constr:(_ : Eta R) in
      let b := eval cbv in i in
      let b := match goal with _ => eval unfold eta in i end in
      let b := eval hnf in b in
      let q := eval pattern p in b in
      match q with
      | ?h _ =>
          let s := eval cbv beta in (λ (f : T → T) (r : R), h (λ x, f (p x)) r) in
          exact s
      end
  end.

#[export] Hint Extern 1 (Setter _) => derive_setter : typeclass_instances.

Notation "r .[ p := v ]" := (update p (λ _, v) r)
  (at level 1, p at level 200, v at level 200, left associativity) : wsio_scope.

(** ** Reachability under a step relation *)

Section star.
Context {S : Type} (R : S → S → Prop).

Inductive star : S → S → Prop :=
| star_refl s : star s s
| star_step s1 s2 s3 : R s1 s2 → star s2 s3 → star s1 s3.

Lemma star_once s1 s2 : R s1 s2 → star s1 s2.
Proof. intros. eapply star_step; [done | apply star_refl]. Qed.

Lemma star_app s1 s2 s3 : star s1 s2 → star s2 s3 → star s1 s3.
Proof. induction 1; [done | intros; eapply star_step; eauto]. Qed.

(** An assertion kept by every step holds in every state reached. *)
Lemma star_invariant (P : S → Prop) s1 s2 :
  (∀ a b, P a → R a b → P b) → P s1 → star s1 s2 → P s2.
Proof. intros HP H1 Hs. induction Hs; eauto. Qed.

(** A preorder that contains the step relation contains its closure. *)
Lemma star_preorder (Q : S → S → Prop) s1 s2 :
  Reflexive Q → Transitive Q → (∀ a b, R a b → Q a b) → star s1 s2 → Q s1 s2.
Proof. intros ? ? HQ Hs. induction Hs; [done | etrans; eauto]. Qed.
End star.

(** ** Automation shared by the files *)

Create HintDb wsio.
Create Rewrite HintDb wsio.
#[export] Hint Resolve star_refl star_once : wsio.

(** Split on the scrutinee of the innermost [match] of the goal. *)
Ltac split_match :=
  match goal with
  | |- context [match ?x with _ => _ end] =>
      lazymatch x with context [match _ with _ => _ end] => fail | _ => destruct x eqn:? end
  end.

(** A field of what a lookup finds, by evaluation. *)
Lemma field_of {A B} (f : A → B) (o : option A) x v : o = Some x → f <$> o = Some v → f x = v.
Proof. intros ->. by intros [= <-]. Qed.
