(* ===== verification/Text.v ===== *)
(** * Text

    The functions on strings of Rust's library that the program uses, and what
    holds of them: splitting and joining, trimming, ASCII case. *)

From S2P Require Import Prelude.
From Stdlib Require Import Ascii.

(** ** Splitting and joining *)

(** [str::split(c)] *)
Fixpoint split_on (c : ascii) (s : string) : list string :=
  match s with
  | EmptyString => [EmptyString]
  | String a s =>
      if Ascii.eqb a c then EmptyString :: split_on c s
      else match split_on c s with
           | t :: ts => String a t :: ts
           | [] => [String a EmptyString]
           end
  end.

(** [[T]::join] *)
Fixpoint join_with (sep : string) (ts : list string) : string :=
  match ts with
  | [] => EmptyString
  | [t] => t
  | t :: ts => (t ++ sep ++ join_with sep ts)%string
  end.

(** No [c] in [s]. *)
Fixpoint free_of (c : ascii) (s : string) : bool :=
  match s with EmptyString => true | String a s => negb (Ascii.eqb a c) && free_of c s end.

Lemma string_app_cons a s t : (String a s ++ t)%string = String a (s ++ t).
Proof. done. Qed.

Lemma split_free c s : free_of c s = true → split_on c s = [s].
Proof.
  induction s as [|a s IH]; simpl; [done|]. intros [Ha Hs]%andb_true_iff.
  destruct (Ascii.eqb a c); [done|]. by rewrite IH.
Qed.

Lemma split_app c s t : free_of c s = true → split_on c (s ++ String c t) = s :: split_on c t.
Proof.
  induction s as [|a s IH].
  - intros _. change (split_on c (String c t) = EmptyString :: split_on c t). simpl.
    by rewrite Ascii.eqb_refl.
  - rewrite string_app_cons. simpl. intros [Ha Hs]%andb_true_iff. destruct (Ascii.eqb a c); [done|]. by rewrite IH.
Qed.

Lemma split_join c ts :
  ts ≠ [] → Forall (λ t, free_of c t = true) ts → split_on c (join_with (String c EmptyString) ts) = ts.
Proof.
  intros Hts Hf. induction Hf as [|t ts Ht Hf IH]; [done|].
  destruct ts as [|u ts]; [by apply split_free|].
  change (join_with (String c EmptyString) (t :: u :: ts)) with (t ++ String c (join_with (String c EmptyString) (u :: ts)))%string.
  rewrite split_app by done. f_equal. by apply IH.
Qed.

Lemma split_parts_free c s : Forall (λ t, free_of c t = true) (split_on c s).
Proof.
  induction s as [|a s IH]; simpl; [by repeat constructor|].
  destruct (Ascii.eqb a c) eqn:E; [by constructor|].
  destruct (split_on c s) as [|t ts]; constructor; simpl; rewrite ?E; try done; by inversion IH.
Qed.

Lemma join_push sep a t ts : join_with sep (String a t :: ts) = String a (join_with sep (t :: ts)).
Proof. by destruct ts. Qed.

Lemma split_not_nil c s : split_on c s ≠ [].
Proof. destruct s as [|b s]; simpl; [done|]. destruct (Ascii.eqb b c); [done|]. by destruct (split_on c s). Qed.

Lemma join_split c s : join_with (String c EmptyString) (split_on c s) = s.
Proof.
  induction s as [|a s IH]; [done|]. simpl. pose proof (split_not_nil c s) as Hne.
  destruct (Ascii.eqb a c) eqn:E.
  - apply Ascii.eqb_eq in E as ->. destruct (split_on c s) as [|t ts]; [done|]. by rewrite <-IH.
  - destruct (split_on c s) as [|t ts]; [done|]. by rewrite join_push, IH.
Qed.

(** ** Trimming *)

(** The ASCII characters [str::trim] removes. *)
Definition is_whitespace (a : ascii) : bool :=
  let n := nat_of_ascii a in (n =? 32) || ((9 <=? n) && (n <=? 13)).

Fixpoint trim_start (s : string) : string :=
  match s with
  | String a s' => if is_whitespace a then trim_start s' else s
  | EmptyString => EmptyString
  end.

Definition rev_string (s : string) : string :=
  String.string_of_list_ascii (rev (String.list_ascii_of_string s)).

Definition trim (s : string) : string := rev_string (trim_start (rev_string (trim_start s))).

(** ** ASCII case *)
Definition to_ascii_lowercase (a : ascii) : ascii :=
  let n := nat_of_ascii a in
  if (65 <=? n) && (n <=? 90) then ascii_of_nat (n + 32) else a.

Fixpoint lowercase (s : string) : string :=
  match s with EmptyString => EmptyString | String a s => String (to_ascii_lowercase a) (lowercase s) end.

(** [str::eq_ignore_ascii_case], and the one of byte slices. *)
Definition eq_ignore_ascii_case (s t : string) : bool := bool_decide (lowercase s = lowercase t).

(** ** Characters that no encoding of a URL touches *)
Definition plain_char (a : ascii) : bool :=
  let n := nat_of_ascii a in
  ((48 <=? n) && (n <=? 57)) || ((65 <=? n) && (n <=? 90)) || ((97 <=? n) && (n <=? 122)) ||
  (n =? 45) || (n =? 46) || (n =? 47) || (n =? 95) || (n =? 126).

Fixpoint all_chars (f : ascii → bool) (s : string) : bool :=
  match s with EmptyString => true | String a s => f a && all_chars f s end.

Definition plain : string → bool := all_chars plain_char.

Lemma all_chars_app f s t : all_chars f (s ++ t) = all_chars f s && all_chars f t.
Proof. induction s as [|a s IH]; [done|]. rewrite string_app_cons. simpl. by rewrite IH, andb_assoc. Qed.

Lemma all_chars_mono f g s :
  (∀ a, f a = true → g a = true) → all_chars f s = true → all_chars g s = true.
Proof. intros Hfg. induction s; simpl; [done|]. rewrite !andb_true_iff. naive_solver. Qed.

Lemma all_free f c s : f c = false → all_chars f s = true → free_of c s = true.
Proof.
  intros Hc. induction s as [|a s IH]; simpl; [done|]. intros [Ha Hs]%andb_true_iff.
  destruct (Ascii.eqb a c) eqn:E; [|by apply IH]. apply Ascii.eqb_eq in E. congruence.
Qed.

Lemma all_chars_join f sep ts :
  all_chars f sep = true → Forall (λ t, all_chars f t = true) ts → all_chars f (join_with sep ts) = true.
Proof.
  intros Hsep. induction 1 as [|t ts Ht Hts IH]; [done|].
  destruct ts; [done|]. change (join_with sep (t :: s :: ts)) with (t ++ sep ++ join_with sep (s :: ts))%string.
  by rewrite !all_chars_app, Ht, Hsep, IH.
Qed.

Lemma all_chars_split f c s : all_chars f s = true → Forall (λ t, all_chars f t = true) (split_on c s).
Proof.
  induction s as [|a s IH]; simpl; [by repeat constructor|]. intros [Ha Hs]%andb_true_iff.
  specialize (IH Hs). destruct (Ascii.eqb a c); [by constructor|].
  destruct (split_on c s); constructor; simpl; rewrite ?Ha; try done; by inversion IH.
Qed.
