(* ===== verification/Async.v ===== *)
(** * Asynchronous code

    An [async fn] of the program is a value of [prog]: a finite tree of atomic
    operations on the shared state and of waits on the outside (a user's
    handler, a timer, the network).  Between two of them any other task may
    run.  [run] executes one program alone; [sys_step] interleaves a pool of
    them. *)

From S2P Require Import Prelude.

Section prog.
Context {W L R : Type}.

(** [Atom f k]: one atomic operation.  [f] gives the state after it, or
    [None] while the operation has to wait; [k] continues from the state
    the operation saw.  [Await l k]: the future named [l] is awaited and
    answers.  [Fail e]: [Err(e)] is returned. *)
Inductive prog (A : Type) : Type :=
| Ret (a : A)
| Fail (e : error)
| Panic (msg : string)
| Atom (f : W → option W) (k : W → prog A)
| Await (l : L) (k : R → prog A).
#[global] Arguments Ret {A} a.
#[global] Arguments Fail {A} e.
#[global] Arguments Panic {A} msg.
#[global] Arguments Atom {A} f k.
#[global] Arguments Await {A} l k.

(** Sequencing; an [Err] propagates, as [?] does. *)
Fixpoint bind {A B} (p : prog A) (k : A → prog B) : prog B :=
  match p with
  | Ret a => k a
  | Fail e => Fail e
  | Panic m => Panic m
  | Atom f c => Atom f (λ w, bind (c w) k)
  | Await l c => Await l (λ r, bind (c r) k)
  end.

(** The [Result] a program returns, as a value: [Err] is caught. *)
Fixpoint attempt {A} (p : prog A) : prog (result A) :=
  match p with
  | Ret a => Ret (Ok a)
  | Fail e => Ret (Err e)
  | Panic m => Panic m
  | Atom f c => Atom f (λ w, attempt (c w))
  | Await l c => Await l (λ r, attempt (c r))
  end.

(** [let _ = p.await;] *)
Definition ignore {A} (p : prog A) : prog unit := bind (attempt p) (λ _, Ret tt).

Definition of_result {A} (r : result A) : prog A :=
  match r with Ok a => Ret a | Err e => Fail e end.

Definition gets {A} (f : W → A) : prog A := Atom Some (λ w, Ret (f w)).
Definition modify (f : W → W) : prog unit := Atom (λ w, Some (f w)) (λ _, Ret tt).

(** Wait until [f] is possible, then do it. *)
Definition block (f : W → option W) : prog unit := Atom f (λ _, Ret tt).

Fixpoint seq_all {A} (f : A → prog unit) (l : list A) : prog unit :=
  match l with
  | [] => Ret tt
  | a :: l => bind (f a) (λ _, seq_all f l)
  end.

(** ** A program running alone

    The answers to its waits are given in advance, in order.  The labels of
    the waits it went through are returned with the outcome. *)
Inductive outcome (A : Type) : Type :=
| Done (r : result A) (w : W)
| Panicked (msg : string) (w : W)
| Stuck (w : W)
| Pending (l : L) (w : W).
#[global] Arguments Done {A} r w.
#[global] Arguments Panicked {A} msg w.
#[global] Arguments Stuck {A} w.
#[global] Arguments Pending {A} l w.

Fixpoint run {A} (rs : list R) (p : prog A) (w : W) : list L * outcome A :=
  match p with
  | Ret a => ([], Done (Ok a) w)
  | Fail e => ([], Done (Err e) w)
  | Panic m => ([], Panicked m w)
  | Atom f k =>
      match f w with
      | Some w' => run rs (k w) w'
      | None => ([], Stuck w)
      end
  | Await l k =>
      match rs with
      | [] => ([], Pending l w)
      | r :: rs => let '(ls, o) := run rs (k r) w in (l :: ls, o)
      end
  end.

(** [goes p w tr r w']: alone from [w], [p] awaits the futures of [tr], gets
    its answers, and returns [r] in the state [w']. *)
Definition goes {A} (p : prog A) (w : W) (tr : list (L * R)) (r : result A) (w' : W) : Prop :=
  run tr.*2 p w = (tr.*1, Done r w').

(** The shared state when the run ends. *)
Definition final {A} (o : outcome A) : W :=
  match o with Done _ w | Panicked _ w | Stuck w | Pending _ w => w end.

(** ** Interleaved tasks *)
Record sys : Type := Sys {
  shared : W;
  pool : gmap nat (prog unit);
  answers : list (L * R); (* every wait answered so far, the latest first *)
}.

(** [starts w p]: the task [p] may be started in the state [w]. *)
Inductive sys_step_in (starts : W → prog unit → Prop) : sys → sys → Prop :=
| step_start s i p :
    starts (shared s) p → pool s !! i = None →
    sys_step_in starts s (Sys (shared s) (<[i := p]> (pool s)) (answers s))
| step_atom s i f k w' :
    pool s !! i = Some (Atom f k) → f (shared s) = Some w' →
    sys_step_in starts s (Sys w' (<[i := k (shared s)]> (pool s)) (answers s))
| step_await s i l k r :
    pool s !! i = Some (Await l k) →
    sys_step_in starts s (Sys (shared s) (<[i := k r]> (pool s)) ((l, r) :: answers s))
| step_drop s i :
    (** the task is done, or its future is dropped *)
    sys_step_in starts s (Sys (shared s) (delete i (pool s)) (answers s)).

Definition reaches_in (starts : W → prog unit → Prop) : sys → sys → Prop :=
  star (sys_step_in starts).

(** The surrounding application may start tasks at any time. *)
Definition sys_step (starts : prog unit → Prop) : sys → sys → Prop := sys_step_in (λ _, starts).

Definition reaches (starts : prog unit → Prop) : sys → sys → Prop :=
  star (sys_step starts).

(** An explicit schedule, which can be evaluated. *)
Inductive move : Type :=
| MStart (i : nat) (p : prog unit)
| MStep (i : nat)
| MReply (i : nat) (r : R)
| MDrop (i : nat).

Definition play1 (m : move) (s : sys) : option sys :=
  match m with
  | MStart i p =>
      match pool s !! i with
      | None => Some (Sys (shared s) (<[i := p]> (pool s)) (answers s))
      | Some _ => None
      end
  | MStep i =>
      match pool s !! i with
      | Some (Atom f k) =>
          w' ← f (shared s); Some (Sys w' (<[i := k (shared s)]> (pool s)) (answers s))
      | _ => None
      end
  | MReply i r =>
      match pool s !! i with
      | Some (Await l k) => Some (Sys (shared s) (<[i := k r]> (pool s)) ((l, r) :: answers s))
      | _ => None
      end
  | MDrop i => Some (Sys (shared s) (delete i (pool s)) (answers s))
  end.

Fixpoint play (ms : list move) (s : sys) : option sys :=
  match ms with
  | [] => Some s
  | m :: ms => s' ← play1 m s; play ms s'
  end.

Definition move_ok (starts : prog unit → Prop) (m : move) : Prop :=
  match m with MStart _ p => starts p | _ => True end.

Lemma play1_step (starts : W → prog unit → Prop) m s s' :
  move_ok (starts (shared s)) m → play1 m s = Some s' → sys_step_in starts s s'.
Proof.
  destruct m as [i p|i|i r|i]; simpl; intros Hm Hp.
  - destruct (pool s !! i) eqn:?; simplify_eq. by apply step_start.
  - destruct (pool s !! i) as [[]|] eqn:Hi; simplify_eq.
    apply bind_Some in Hp as (w' & Hf & [= <-]). by eapply step_atom.
  - destruct (pool s !! i) as [[]|] eqn:Hi; simplify_eq. by eapply step_await.
  - simplify_eq. apply step_drop.
Qed.

Lemma play_reaches starts ms s s' :
  Forall (move_ok starts) ms → play ms s = Some s' → reaches starts s s'.
Proof.
  intros Hms. revert s. induction Hms as [|m ms Hm _ IH]; simpl; intros s Hp.
  - injection Hp as ->. apply star_refl.
  - apply bind_Some in Hp as (s1 & H1 & H2). eapply star_step; [by eapply play1_step | by apply IH].
Qed.

(** The state a schedule leads to. *)
Definition played (ms : list move) (s : sys) : sys := default s (play ms s).

Lemma played_reaches starts ms s :
  Forall (move_ok starts) ms → bool_decide (is_Some (play ms s)) = true →
  reaches starts s (played ms s).
Proof.
  intros Hms Hp%bool_decide_eq_true. destruct Hp as [s' Hp]. unfold played. rewrite Hp.
  by eapply play_reaches.
Qed.

(** Schedules of a system that starts its own tasks: [code c w] is the task that
    the call [c] starts in the state [w], if there is one. *)
Section calls.
Context {C : Type} (code : C → W → option (prog unit)).

Definition may_start (w : W) (p : prog unit) : Prop := ∃ c, code c w = Some p.

Inductive order : Type := Start (i : nat) (c : C) | Go (m : move).

Definition order_move (o : order) (w : W) : option move :=
  match o with
  | Start i c => MStart i <$> code c w
  | Go (MStart _ _) => None
  | Go m => Some m
  end.

Fixpoint obey (os : list order) (s : sys) : option sys :=
  match os with
  | [] => Some s
  | o :: os => m ← order_move o (shared s); s' ← play1 m s; obey os s'
  end.

Definition obeyed (os : list order) (s : sys) : sys := default s (obey os s).

Lemma order_ok o w m : order_move o w = Some m → move_ok (may_start w) m.
Proof.
  destruct o as [i c|[]]; simpl; intros Hm; try done; simplify_eq; try done.
  apply fmap_Some in Hm as (p & Hp & ->). by exists c.
Qed.

Lemma obeyed_reaches os s :
  bool_decide (is_Some (obey os s)) = true → reaches_in may_start s (obeyed os s).
Proof.
  intros Hp%bool_decide_eq_true. destruct Hp as [s' Hp]. unfold obeyed. rewrite Hp. simpl.
  revert s Hp. induction os as [|o os IH]; simpl; intros s Hp.
  - injection Hp as ->. apply star_refl.
  - apply bind_Some in Hp as (m & Hm & (s1 & H1 & H2)%bind_Some).
    eapply star_step; [|by apply IH]. eapply play1_step; [by eapply order_ok | done].
Qed.

Lemma orders_reach os (P : sys → Prop) w :
  bool_decide (is_Some (obey os (Sys w ∅ []))) = true → P (obeyed os (Sys w ∅ [])) →
  ∃ s, reaches_in may_start (Sys w ∅ []) s ∧ P s.
Proof. intros Hp HP. exists (obeyed os (Sys w ∅ [])). split; [by apply obeyed_reaches | done]. Qed.
End calls.

Definition steps (i k : nat) : list move := replicate k (MStep i).
Definition idle (w : W) : sys := Sys w ∅ [].

(** The task [i] has returned, has panicked, or waits for a lock or a condition. *)
Definition returned (i : nat) (s : sys) : bool :=
  match pool s !! i with Some (Ret _) => true | _ => false end.
Definition panicked (i : nat) (s : sys) : bool :=
  match pool s !! i with Some (Panic _) => true | _ => false end.
Definition panic_of (i : nat) (s : sys) : option string :=
  match pool s !! i with Some (Panic m) => Some m | _ => None end.

Lemma panic_of_pool i s m : panic_of i s = Some m → pool s !! i = Some (Panic m).
Proof. unfold panic_of. destruct (pool s !! i) as [[]|]; try done. by intros [= ->]. Qed.

Definition waits (i : nat) (s : sys) : bool :=
  match pool s !! i with
  | Some (Atom f _) => match f (shared s) with None => true | Some _ => false end
  | _ => false
  end.

(** A schedule leads to a state with a given property. *)
Lemma schedule_reaches starts (ms : list move) (P : sys → Prop) w :
  Forall (move_ok starts) ms →
  bool_decide (is_Some (play ms (idle w))) = true → P (played ms (idle w)) →
  ∃ s, reaches starts (idle w) s ∧ P s.
Proof.
  intros Hms Hp HP. exists (played ms (idle w)).
  split; [by apply played_reaches | done].
Qed.

(** ** What one program guarantees to the others

    Every atomic operation it may ever perform keeps [G]. *)
Fixpoint guar (G : W → W → Prop) {A} (p : prog A) : Prop :=
  match p with
  | Ret _ | Fail _ | Panic _ => True
  | Atom f k => (∀ w w', f w = Some w' → G w w') ∧ ∀ w, guar G (k w)
  | Await _ k => ∀ r, guar G (k r)
  end.

Section guar.
Context (G : W → W → Prop) {RG : Reflexive G}.

Lemma guar_bind {A B} (p : prog A) (k : A → prog B) :
  guar G p → (∀ a, guar G (k a)) → guar G (bind p k).
Proof. induction p; simpl; naive_solver. Qed.

Lemma guar_attempt {A} (p : prog A) : guar G p → guar G (attempt p).
Proof. induction p; simpl; naive_solver. Qed.

Lemma guar_ignore {A} (p : prog A) : guar G p → guar G (ignore p).
Proof. intros. apply guar_bind; [by apply guar_attempt | done]. Qed.

Lemma guar_await {A} l (k : R → prog A) : (∀ r, guar G (k r)) → guar G (Await l k).
Proof. done. Qed.

Lemma guar_atom {A} f (k : W → prog A) :
  (∀ w w', f w = Some w' → G w w') → (∀ w, guar G (k w)) → guar G (Atom f k).
Proof. done. Qed.

Lemma guar_of_result {A} (r : result A) : guar G (of_result r).
Proof. by destruct r. Qed.

Lemma guar_gets {A} (f : W → A) : guar G (gets f).
Proof. simpl. split; [by intros ? ? [= ->] | done]. Qed.

Lemma guar_modify f : (∀ w, G w (f w)) → guar G (modify f).
Proof. simpl. split; [by intros ? ? [= <-] | done]. Qed.

Lemma guar_block f : (∀ w w', f w = Some w' → G w w') → guar G (block f).
Proof. simpl. done. Qed.

Lemma guar_seq_all {A} (f : A → prog unit) l :
  (∀ a, guar G (f a)) → guar G (seq_all f l).
Proof. intros. induction l; simpl; [done | apply guar_bind; auto]. Qed.
End guar.

(** Two guarantees of one program hold together. *)
Lemma guar_and (G H : W → W → Prop) {A} (p : prog A) :
  guar G p → guar H p → guar (λ w w', G w w' ∧ H w w') p.
Proof. induction p; simpl; naive_solver. Qed.

Lemma guar_mono (G H : W → W → Prop) {A} (p : prog A) :
  (∀ w w', G w w' → H w w') → guar G p → guar H p.
Proof. induction p; simpl; naive_solver. Qed.

(** A run of a program that guarantees a preorder stays in it. *)
Lemma run_guar (G : W → W → Prop) `{!PreOrder G} {A} (p : prog A) rs w :
  guar G p → G w (final (run rs p w).2).
Proof.
  revert rs w. induction p as [a|e|m|f k IH|l k IH]; intros rs w HG; simpl; try done.
  - destruct (f w) as [w'|] eqn:E; [|done]. destruct HG as [H1 H2].
    etrans; [by apply H1 | by apply IH].
  - destruct rs as [|r rs]; [done|]. specialize (IH r rs w (HG r)).
    by destruct (run rs (k r) w).
Qed.

(** Tasks that all guarantee a preorder keep it together, however they are
    interleaved. *)
Definition pool_guar (G : W → W → Prop) (s : sys) : Prop :=
  ∀ i p, pool s !! i = Some p → guar G p.

Lemma sys_step_guar (G : W → W → Prop) `{!Reflexive G} (starts : prog unit → Prop) s s' :
  (∀ p, starts p → guar G p) → pool_guar G s → sys_step starts s s' →
  pool_guar G s' ∧ G (shared s) (shared s').
Proof.
  intros HS HP Hst.
  assert (Hins : ∀ w i p h, guar G p → pool_guar G (Sys w (<[i:=p]> (pool s)) h)).
  { intros w i p h Hp j q. simpl. rewrite lookup_insert. case_decide; naive_solver. }
  destruct Hst as [s i p Hp _|s i f k w' Hi Hf|s i l k r Hi|s i]; simpl.
  - split; [by apply Hins, HS | done].
  - apply HP in Hi as [H1 H2]. split; [by apply Hins | by apply H1].
  - apply HP in Hi. split; [by apply Hins | done].
  - split; [|done]. intros j q. simpl. rewrite lookup_delete_Some. naive_solver.
Qed.

Lemma reaches_guar (G : W → W → Prop) `{!PreOrder G} (starts : prog unit → Prop) s s' :
  (∀ p, starts p → guar G p) → pool_guar G s → reaches starts s s' →
  G (shared s) (shared s').
Proof.
  intros HS HP Hr. revert HP. induction Hr as [s|s1 s2 s3 H12 H23 IH]; intros HP; [done|].
  destruct (sys_step_guar G starts s1 s2 HS HP H12) as [HP2 H]. etrans; [done | auto].
Qed.

(** ** How [goes] composes *)
Lemma goes_ret_inv {A} (a : A) w tr r w' :
  goes (Ret a) w tr r w' → tr = [] ∧ r = Ok a ∧ w' = w.
Proof. unfold goes. by destruct tr; intros; simplify_eq/=. Qed.

Lemma goes_fail_inv {A} e w tr (r : result A) w' :
  goes (Fail e) w tr r w' → tr = [] ∧ r = Err e ∧ w' = w.
Proof. unfold goes. by destruct tr; intros; simplify_eq/=. Qed.

Lemma goes_atom_inv {A} f (k : W → prog A) w tr r w' :
  goes (Atom f k) w tr r w' → ∃ w1, f w = Some w1 ∧ goes (k w) w1 tr r w'.
Proof. unfold goes. simpl. destruct (f w) as [w1|]; [by exists w1 | done]. Qed.

Lemma goes_await_inv {A} l (k : R → prog A) w tr r w' :
  goes (Await l k) w tr r w' → ∃ a tr', tr = (l, a) :: tr' ∧ goes (k a) w tr' r w'.
Proof.
  unfold goes. destruct tr as [|[l' a] tr]; [done|]. simpl.
  change (list_fmap (L * R)%type R snd tr) with (tr.*2).
  destruct (run tr.*2 (k a) w) as [ls o] eqn:E. intros [= -> -> ->]. by exists a, tr.
Qed.

Lemma goes_atom {A} f (k : W → prog A) w w1 tr r w' :
  f w = Some w1 → goes (k w) w1 tr r w' → goes (Atom f k) w tr r w'.
Proof. unfold goes. simpl. by intros ->. Qed.

Lemma goes_await {A} l a (k : R → prog A) w tr r w' :
  goes (k a) w tr r w' → goes (Await l k) w ((l, a) :: tr) r w'.
Proof.
  unfold goes. simpl. change (list_fmap (L * R)%type R snd tr) with (tr.*2). by intros ->.
Qed.

Lemma goes_fun {A} (p : prog A) w tr r1 w1 r2 w2 :
  goes p w tr r1 w1 → goes p w tr r2 w2 → r1 = r2 ∧ w1 = w2.
Proof. unfold goes. intros ->. by intros [= -> ->]. Qed.

Lemma goes_ret {A} (a : A) w : goes (Ret a) w [] (Ok a) w.
Proof. done. Qed.

Lemma goes_fail {A} e w : goes (A := A) (Fail e) w [] (Err e) w.
Proof. done. Qed.

Lemma goes_bind {A B} (p : prog A) (k : A → prog B) w t1 a w1 t2 r w2 :
  goes p w t1 (Ok a) w1 → goes (k a) w1 t2 r w2 → goes (bind p k) w (t1 ++ t2) r w2.
Proof.
  intros Hp Hk. revert t1 w Hp.
  induction p as [b|e|m|f c IH|l c IH]; intros tr w Hr; simpl.
  - apply goes_ret_inv in Hr as (-> & [= ->] & ->). done.
  - by apply goes_fail_inv in Hr as (_ & ? & _).
  - done.
  - apply goes_atom_inv in Hr as (w2' & Hf & Hr). eapply goes_atom; [done | by apply IH].
  - apply goes_await_inv in Hr as (x & tr' & -> & Hr). apply goes_await. by apply IH.
Qed.

Lemma goes_bind_inv {A B} (p : prog A) (k : A → prog B) w tr r w' :
  goes (bind p k) w tr r w' →
  (∃ e, goes p w tr (Err e) w' ∧ r = Err e) ∨
  (∃ a t1 t2 w1, goes p w t1 (Ok a) w1 ∧ goes (k a) w1 t2 r w' ∧ tr = t1 ++ t2).
Proof.
  revert tr w. induction p as [b|e|m|f c IH|l c IH]; intros tr w Hg; cbn [bind] in Hg.
  - right. by exists b, [], tr, w.
  - left. exists e. by apply goes_fail_inv in Hg as (-> & -> & ->).
  - done.
  - apply goes_atom_inv in Hg as (w1 & Hf & Hg).
    destruct (IH _ _ _ Hg) as [(e & H1 & H2)|(a & t1 & t2 & w2 & H1 & H2 & H3)]; [left|right].
    + exists e. split; [by eapply goes_atom | done].
    + exists a, t1, t2, w2. split_and!; [by eapply goes_atom | done..].
  - apply goes_await_inv in Hg as (x & t & -> & Hg).
    destruct (IH _ _ _ Hg) as [(e & H1 & H2)|(a & t1 & t2 & w2 & H1 & H2 & H3)]; [left|right].
    + exists e. split; [by apply goes_await | done].
    + exists a, ((l, x) :: t1), t2, w2. split_and!; [by apply goes_await | done | by rewrite H3].
Qed.

Lemma goes_attempt_inv {A} (p : prog A) w tr r w' :
  goes (attempt p) w tr r w' → ∃ r', r = Ok r' ∧ goes p w tr r' w'.
Proof.
  revert tr w. induction p as [b|e|m|f c IH|l c IH]; intros tr w Hg; cbn [attempt] in Hg.
  - apply goes_ret_inv in Hg as (-> & -> & ->). by exists (Ok b).
  - apply goes_ret_inv in Hg as (-> & -> & ->). by exists (Err e).
  - done.
  - apply goes_atom_inv in Hg as (w1 & Hf & Hg). destruct (IH _ _ _ Hg) as (r' & -> & H).
    exists r'. split; [done | by eapply goes_atom].
  - apply goes_await_inv in Hg as (x & t & -> & Hg). destruct (IH _ _ _ Hg) as (r' & -> & H).
    exists r'. split; [done | by apply goes_await].
Qed.

Lemma goes_ignore_inv {A} (p : prog A) w tr r w' :
  goes (ignore p) w tr r w' → r = Ok tt ∧ ∃ r', goes p w tr r' w'.
Proof.
  intros [(e & H & ->)|(a & t1 & t2 & w1 & H1 & H2 & ->)]%goes_bind_inv.
  - by apply goes_attempt_inv in H as (? & ? & _).
  - apply goes_attempt_inv in H1 as (r' & [= ->] & H1).
    apply goes_ret_inv in H2 as (-> & -> & ->). rewrite app_nil_r. split; [done | by exists r'].
Qed.

(** The common case: the first part awaits nothing. *)
Lemma goes_then {A B} (p : prog A) (k : A → prog B) w a w1 tr r w2 :
  goes p w [] (Ok a) w1 → goes (k a) w1 tr r w2 → goes (bind p k) w tr r w2.
Proof. apply goes_bind. Qed.

Lemma goes_then_inv {A B} (p : prog A) (k : A → prog B) w a w1 tr r w2 :
  goes p w [] (Ok a) w1 → goes (bind p k) w tr r w2 → goes (k a) w1 tr r w2.
Proof.
  revert w. induction p as [b|e|m|f c IH|l c IH]; intros w Hp Hg; cbn [bind] in Hg.
  - by apply goes_ret_inv in Hp as (_ & [= ->] & ->).
  - by apply goes_fail_inv in Hp as (_ & ? & _).
  - done.
  - apply goes_atom_inv in Hp as (v & Hf & Hp), Hg as (v' & Hf' & Hg). simplify_eq. by eapply IH.
  - by apply goes_await_inv in Hp as (? & ? & ? & _).
Qed.

(** A run without awaits is the only one. *)
Lemma goes_silent {A} (p : prog A) w r1 w1 tr r2 w2 :
  goes p w [] r1 w1 → goes p w tr r2 w2 → tr = [] ∧ r1 = r2 ∧ w1 = w2.
Proof.
  revert w. induction p as [b|e|m|f c IH|l c IH]; intros w Hp Hg.
  - apply goes_ret_inv in Hp as (_ & -> & ->), Hg as (-> & -> & ->). done.
  - apply goes_fail_inv in Hp as (_ & -> & ->), Hg as (-> & -> & ->). done.
  - done.
  - apply goes_atom_inv in Hp as (v & Hf & Hp), Hg as (v' & Hf' & Hg). simplify_eq. by eapply IH.
  - by apply goes_await_inv in Hp as (? & ? & ? & _).
Qed.

Lemma goes_bind_err {A B} (p : prog A) (k : A → prog B) w tr e w' :
  goes p w tr (Err e) w' → goes (bind p k) w tr (Err e) w'.
Proof.
  revert tr w. induction p as [b|e'|m|f c IH|l c IH]; intros tr w Hr; simpl.
  - by apply goes_ret_inv in Hr as (_ & ? & _).
  - apply goes_fail_inv in Hr as (-> & [= ->] & ->). done.
  - done.
  - apply goes_atom_inv in Hr as (w2 & Hf & Hr). eapply goes_atom; [done | by apply IH].
  - apply goes_await_inv in Hr as (x & tr' & -> & Hr). apply goes_await. by apply IH.
Qed.

Lemma goes_attempt {A} (p : prog A) w tr r w' :
  goes p w tr r w' → goes (attempt p) w tr (Ok r) w'.
Proof.
  revert tr w. induction p as [b|e'|m|f c IH|l c IH]; intros tr w Hr; simpl.
  - apply goes_ret_inv in Hr as (-> & -> & ->). done.
  - apply goes_fail_inv in Hr as (-> & -> & ->). done.
  - done.
  - apply goes_atom_inv in Hr as (w2 & Hf & Hr). eapply goes_atom; [done | by apply IH].
  - apply goes_await_inv in Hr as (x & tr' & -> & Hr). apply goes_await. by apply IH.
Qed.

Lemma goes_ignore {A} (p : prog A) w tr r w' :
  goes p w tr r w' → goes (ignore p) w tr (Ok tt) w'.
Proof.
  intros Hp. rewrite <-(app_nil_r tr). eapply goes_bind; [by apply goes_attempt | done].
Qed.

Lemma goes_of_result {A} (r : result A) w : goes (of_result r) w [] r w.
Proof. by destruct r. Qed.

Lemma goes_gets {A} (f : W → A) w : goes (gets f) w [] (Ok (f w)) w.
Proof. done. Qed.

Lemma goes_modify f w : goes (modify f) w [] (Ok tt) (f w).
Proof. done. Qed.

Lemma goes_block f w w' : f w = Some w' → goes (block f) w [] (Ok tt) w'.
Proof. intros. by eapply goes_atom. Qed.

(** A loop that awaits nothing: a fold over the list. *)
Lemma goes_seq_all {A} (f : A → prog unit) (g : A → W → W) (P : W → Prop) l w :
  P w → (∀ a w, a ∈ l → P w → goes (f a) w [] (Ok tt) (g a w) ∧ P (g a w)) →
  goes (seq_all f l) w [] (Ok tt) (foldl (λ w a, g a w) w l) ∧
  P (foldl (λ w a, g a w) w l).
Proof.
  revert w. induction l as [|a l IH]; intros w Hw Hf; simpl; [done|].
  destruct (Hf a w) as [Ha Pa]; [set_solver|done|].
  destruct (IH (g a w)) as [Hl Pl]; [done | set_solver |].
  split; [|done]. by eapply goes_then.
Qed.
End prog.

(** Evaluates a schedule and checks the state it leads to. *)
Ltac by_schedule ms :=
  apply (schedule_reaches _ ms); [|by vm_compute|repeat split; by vm_compute];
  repeat constructor; first [left; constructor | right; constructor].

Ltac by_orders os :=
  apply (orders_reach _ os); [by vm_compute | repeat split; by vm_compute].

Arguments prog : clear implicits.
Arguments outcome : clear implicits.
Arguments sys : clear implicits.

Notation "x <- p ;; q" := (bind p (λ x, q))
  (at level 100, p at next level, right associativity) : wsio_scope.
Notation "p ;; q" := (bind p (λ _, q))
  (at level 100, q at level 200, right associativity) : wsio_scope.

#[export] Hint Resolve guar_bind guar_attempt guar_ignore guar_of_result guar_gets
  guar_modify guar_block guar_seq_all : wsio.
