(* ===== verification/Spawner.v ===== *)
(** * Tasks under a cancellation token ([wsio-core/src/traits/task/spawner.rs])

    [spawn_task] runs a future in a [select!] with the token that was current
    when it was spawned: the task ends when the future does, whatever it
    returns, or at a wait, once the token is cancelled. *)

From S2P Require Import Prelude Async.

Section until.
Context {W L R : Type}.
(** The token, and the answer to a wait that says it was seen cancelled. *)
Context (cancelled : W → bool) (stop : R → bool).

(** The task ends here, which takes a token that is cancelled. *)
Definition stopped : prog W L R unit := block (λ w, if cancelled w then Some w else None).

(** [select! { _ = cancel_token.cancelled() => {}, _ = future => {} }] *)
Fixpoint until (p : prog W L R unit) : prog W L R unit :=
  match p with
  | Ret _ | Fail _ => Ret tt
  | Panic m => Panic m
  | Atom f k =>
      Atom (λ w, match f w with Some w' => Some w' | None => if cancelled w then Some w else None end)
        (λ w, match f w with Some _ => until (k w) | None => Ret tt end)
  | Await l k => Await l (λ r, if stop r then stopped else until (k r))
  end.

Lemma guar_until (G : W → W → Prop) `{!Reflexive G} p : guar G p → guar G (until p).
Proof.
  induction p as [a|e|m|f k IH|l k IH]; simpl; [done..| |].
  - intros [Hf Hk]. split.
    + intros w w'. destruct (f w) eqn:E; [intros [= <-]; by apply Hf|]. destruct (cancelled w); [|done].
      by intros [= <-].
    + intros w. destruct (f w); [by apply IH | done].
  - intros Hk r. destruct (stop r); [|by apply IH]. apply guar_block. intros w w'.
    destruct (cancelled w); [|done]. by intros [= <-].
Qed.

(** How a run of a spawned task ends: as the future's, or at a wait of the future
    with the token cancelled. *)
Inductive ends_early : prog W L R unit → W → list (L * R) → W → Prop :=
| early_blocked f k w : f w = None → cancelled w = true → ends_early (Atom f k) w [] w
| early_waiting l k w r : stop r = true → cancelled w = true → ends_early (Await l k) w [(l, r)] w
| early_atom f k w w1 tr w' : f w = Some w1 → ends_early (k w) w1 tr w' → ends_early (Atom f k) w tr w'
| early_await l k w r tr w' : stop r = false → ends_early (k r) w tr w' →
    ends_early (Await l k) w ((l, r) :: tr) w'.

Lemma until_runs p w tr r w' :
  Forall (λ a, stop a.2 = false) tr → goes p w tr r w' → goes (until p) w tr (Ok tt) w'.
Proof.
  revert w tr. induction p as [a|e|m|f k IH|l k IH]; intros w tr Htr Hg; simpl.
  - apply goes_ret_inv in Hg as (-> & -> & ->). apply goes_ret.
  - apply goes_fail_inv in Hg as (-> & -> & ->). apply goes_ret.
  - done.
  - apply goes_atom_inv in Hg as (w1 & Hf & Hg). eapply goes_atom; [by rewrite Hf|]. rewrite Hf. by apply IH.
  - apply goes_await_inv in Hg as (x & tr' & -> & Hg). inversion Htr as [|? ? Hx Htr']; subst; simpl in *.
    apply goes_await. rewrite Hx. by apply IH.
Qed.

Lemma until_ends p w tr r w' :
  goes (until p) w tr r w' → r = Ok tt ∧ ((∃ r', goes p w tr r' w') ∨ ends_early p w tr w').
Proof.
  revert w tr. induction p as [a|e|m|f k IH|l k IH]; intros w tr Hg; simpl in Hg.
  - apply goes_ret_inv in Hg as (-> & -> & ->). split; [done|]. left. exists (Ok a). apply goes_ret.
  - apply goes_ret_inv in Hg as (-> & -> & ->). split; [done|]. left. exists (Err e). apply goes_fail.
  - done.
  - apply goes_atom_inv in Hg as (w1 & Hf & Hg). destruct (f w) as [w2|] eqn:E.
    + injection Hf as <-. destruct (IH _ _ _ Hg) as [Hr [[r' Hp]|He]]; (split; [done|]).
      * left. exists r'. by eapply goes_atom.
      * right. by eapply early_atom.
    + destruct (cancelled w) eqn:C; [|done]. injection Hf as <-.
      apply goes_ret_inv in Hg as (-> & -> & ->). split; [done|]. right. by apply early_blocked.
  - apply goes_await_inv in Hg as (x & tr' & -> & Hg). destruct (stop x) eqn:S.
    + apply goes_atom_inv in Hg as (w1 & Hf & Hg). destruct (cancelled w) eqn:C; [|done].
      injection Hf as <-. apply goes_ret_inv in Hg as (-> & -> & ->). split; [done|]. right. by apply early_waiting.
    + destruct (IH _ _ _ Hg) as [Hr [[r' Hp]|He]]; (split; [done|]).
      * left. exists r'. by apply goes_await.
      * right. by apply early_await.
Qed.

(** Some run of the future panics. *)
Fixpoint panic_free (p : prog W L R unit) : Prop :=
  match p with
  | Panic _ => False
  | Atom f k => ∀ w, is_Some (f w) → panic_free (k w)
  | Await _ k => ∀ r, panic_free (k r)
  | _ => True
  end.

(** The token stays cancelled. *)
Definition keeps_cancelled (w w' : W) : Prop := cancelled w = true → cancelled w' = true.

Lemma until_cancelled p w r0 :
  stop r0 = true → cancelled w = true → guar keeps_cancelled p → panic_free p →
  ∃ tr w', goes (until p) w tr (Ok tt) w' ∧ length tr ≤ 1 ∧ cancelled w' = true.
Proof.
  intros Hr. revert w. induction p as [a|e|m|f k IH|l k IH]; intros w Hw Hg Hp; simpl.
  - exists [], w. split; [apply goes_ret|]. split; [simpl; lia | done].
  - exists [], w. split; [apply goes_ret|]. split; [simpl; lia | done].
  - done.
  - destruct (f w) as [w1|] eqn:E.
    + destruct Hg as [Hf Hk]. destruct (IH w w1) as (tr & w' & Ht & Hl & Hc);
        [by apply (Hf w w1) | by apply Hk | by apply Hp |].
      exists tr, w'. split; [|done]. eapply goes_atom; [by rewrite E | by rewrite E].
    + exists [], w. split; [|split; [simpl; lia | done]].
      eapply goes_atom; [by rewrite E, Hw|]. rewrite E. apply goes_ret.
  - exists [(l, r0)], w. split; [|split; [simpl; lia | done]].
    apply goes_await. rewrite Hr. apply goes_block. by rewrite Hw.
Qed.
End until.


