(* ===== verification/Concurrent.v ===== *)
(** * Concurrency inside one task, and reasoning about interleaved tasks

    [par] polls two futures of one task in any order ([join_all] and
    [for_each_concurrent] are folds of it).  [independent] gives the conditions
    under which the order does not matter.  [safe] is a rely/guarantee
    judgement: what one task may assume after other tasks have run. *)

From S2P Require Import Prelude Async Spawner.

Section par.
Context {W L R : Type}.
(** The future polled next is an answer of the scheduler. *)
Context (poll : L) (first : R → bool).

(** Perform the next operation of [p], then [c]. *)
Definition step (p : prog W L R unit) (c : prog W L R unit → prog W L R unit) :
    prog W L R unit :=
  match p with
  | Atom f k => Atom f (λ w, c (k w))
  | Await l k => Await l (λ r, c (k r))
  | _ => c p
  end.

Fixpoint par (p : prog W L R unit) : prog W L R unit → prog W L R unit :=
  fix par_right (q : prog W L R unit) : prog W L R unit :=
    match p with
    | Ret _ => q
    | Fail e => Fail e
    | Panic m => Panic m
    | _ =>
        match q with
        | Ret _ => p
        | Fail e => Fail e
        | Panic m => Panic m
        | _ => Await poll (λ r, if first r then match p with
                                               | Atom f k => Atom f (λ w, par (k w) q)
                                               | Await l k => Await l (λ r, par (k r) q)
                                               | _ => p
                                               end
                                else match q with
                                     | Atom f k => Atom f (λ w, par_right (k w))
                                     | Await l k => Await l (λ r, par_right (k r))
                                     | _ => q
                                     end)
        end
    end.

Definition unfinished (p : prog W L R unit) : bool :=
  match p with Atom _ _ | Await _ _ => true | _ => false end.

Lemma par_unfold p q :
  unfinished p = true → unfinished q = true →
  par p q = Await poll (λ r, if first r then step p (λ p', par p' q)
                             else step q (par p)).
Proof. by destruct p, q. Qed.

Lemma par_finished_left p q : unfinished p = false → par p q = match p with Ret _ => q | _ => p end.
Proof. by destruct p, q. Qed.

Lemma par_ret_right p : par p (Ret tt) = match p with Ret _ => Ret tt | _ => p end.
Proof. by destruct p. Qed.

(** [join_all] of futures that return nothing. *)
Definition par_all (ps : list (prog W L R unit)) : prog W L R unit := foldr par (Ret tt) ps.

(** [p'] is what may be left of [p] after its next operation. *)
Inductive child : prog W L R unit → prog W L R unit → Prop :=
| child_atom f k w : child (k w) (Atom f k)
| child_await l k r : child (k r) (Await l k).

Lemma par_ind (P : prog W L R unit → prog W L R unit → Prop) :
  (∀ p q, (∀ p', child p' p → P p' q) → (∀ q', child q' q → P p q') → P p q) →
  ∀ p q, P p q.
Proof.
  intros HP p. induction p as [a|e|m|f k IHp|l k IHp];
    intros q; (induction q as [b|e'|m'|g j IHq|l' j IHq]; apply HP);
    intros ? Hc; inversion Hc; subst; eauto.
Qed.

Lemma guar_step G p c : guar G p → (∀ p', child p' p → guar G (c p')) → unfinished p = true →
  guar G (step p c).
Proof.
  destruct p; intros Hp Hc Hu; try done.
  - split; [apply Hp|]. intros w. apply Hc. constructor.
  - intros r. apply Hc. constructor.
Qed.

Lemma guar_child G p p' : child p' p → guar G p → guar G p'.
Proof. destruct 1; intros H; apply H. Qed.

Lemma guar_par G p q : guar G p → guar G q → guar G (par p q).
Proof.
  revert p q. apply (par_ind (λ p q, guar G p → guar G q → guar G (par p q))).
  intros p q IHp IHq Hp Hq.
  destruct (unfinished p) eqn:Up; [|rewrite par_finished_left by done; by destruct p].
  destruct (unfinished q) eqn:Uq; [|by destruct q as [[]| | | |], p].
  rewrite par_unfold by done. intros r. destruct (first r); (apply guar_step; [done| |done]).
  - intros p' Hc. apply IHp; [done | by eapply guar_child | done].
  - intros q' Hc. apply IHq; [done | done | by eapply guar_child].
Qed.

Lemma guar_par_all G ps : Forall (guar G) ps → guar G (par_all ps).
Proof. induction 1; [done | by apply guar_par]. Qed.

(** ** Independence

    The programs run in states that satisfy [J].  [local E p]: [p] depends on
    the state only up to [E] and acts on it accordingly.  [keeps E p]: whatever
    [p] does stays within [E]. *)
Section independence.
Context (J : W → Prop).

Fixpoint local (E : W → W → Prop) {A} (p : prog W L R A) : Prop :=
  match p with
  | Ret _ | Fail _ | Panic _ => True
  | Atom f k =>
      (∀ w1 w2, J w1 → J w2 → E w1 w2 → k w1 = k w2 ∧ option_Forall2 E (f w1) (f w2)) ∧
      ∀ w, J w → local E (k w)
  | Await _ k => ∀ r, local E (k r)
  end.

Fixpoint keeps (E : W → W → Prop) {A} (p : prog W L R A) : Prop :=
  match p with
  | Ret _ | Fail _ | Panic _ => True
  | Atom f k =>
      (∀ w w', J w → f w = Some w' → J w' ∧ E w w') ∧ ∀ w, J w → keeps E (k w)
  | Await _ k => ∀ r, keeps E (k r)
  end.

Lemma local_bind E {A B} (p : prog W L R A) (k : A → prog W L R B) :
  local E p → (∀ a, local E (k a)) → local E (bind p k).
Proof.
  intros Hp Hk. induction p as [b|e|m|f c IH|l c IH]; simpl in *; auto.
  destruct Hp as [Hf Hc]. split; [|auto].
  intros w1 w2 J1 J2 HE. destruct (Hf w1 w2 J1 J2 HE) as [-> ?]. done.
Qed.

Lemma local_attempt E {A} (p : prog W L R A) : local E p → local E (attempt p).
Proof.
  intros Hp. induction p as [b|e|m|f c IH|l c IH]; simpl in *; auto.
  destruct Hp as [Hf Hc]. split; [|auto].
  intros w1 w2 J1 J2 HE. destruct (Hf w1 w2 J1 J2 HE) as [-> ?]. done.
Qed.

Lemma local_ignore E {A} (p : prog W L R A) : local E p → local E (ignore p).
Proof. intros. apply local_bind; [by apply local_attempt | done]. Qed.

Lemma local_of_result E {A} (r : result A) : local E (of_result r).
Proof. by destruct r. Qed.

Lemma keeps_bind E {A B} (p : prog W L R A) (k : A → prog W L R B) :
  keeps E p → (∀ a, keeps E (k a)) → keeps E (bind p k).
Proof. clear poll first. intros Hp Hk. induction p; simpl in *; naive_solver. Qed.

Lemma keeps_attempt E {A} (p : prog W L R A) : keeps E p → keeps E (attempt p).
Proof. clear poll first. intros Hp. induction p; simpl in *; naive_solver. Qed.

Lemma keeps_ignore E {A} (p : prog W L R A) : keeps E p → keeps E (ignore p).
Proof. intros. apply keeps_bind; [by apply keeps_attempt | done]. Qed.

Lemma keeps_of_result E {A} (r : result A) : keeps E (of_result r).
Proof. by destruct r. Qed.

Lemma keeps_mono (E1 E2 : W → W → Prop) {A} (p : prog W L R A) :
  (∀ w w', E1 w w' → E2 w w') → keeps E1 p → keeps E2 p.
Proof. clear poll first. intros HE. induction p; simpl; naive_solver. Qed.

(** What [p] keeps can be added to what it depends on. *)
Lemma local_keeps Ep Eq `{!Equivalence Eq} {A} (p : prog W L R A) :
  local Ep p → keeps Eq p → local (λ w w', Ep w w' ∧ Eq w w') p.
Proof.
  intros Hl Hg. induction p as [b|e|m|f c IH|l c IH]; simpl in *; auto.
  destruct Hl as [Hf Hc], Hg as [Hg Hgc]. split; [|auto].
  intros w1 w2 J1 J2 [H1 H2]. destruct (Hf w1 w2 J1 J2 H1) as [-> Hw]. split; [done|].
  destruct (f w1) as [v1|] eqn:E1, (f w2) as [v2|] eqn:E2; inversion Hw; subst; constructor.
  split; [done|]. destruct (Hg w1 v1 J1 E1) as [_ Hv1], (Hg w2 v2 J2 E2) as [_ Hv2].
  etrans; [symmetry; exact Hv1|]. etrans; [exact H2 | exact Hv2].
Qed.

Lemma local_mono (E1 E2 : W → W → Prop) {B} (p : prog W L R B) :
  (∀ w w', E1 w w' ↔ E2 w w') → local E1 p → local E2 p.
Proof.
  intros HE. induction p as [b|e|m|g c IH|l' c IH]; simpl; intros Hp; auto.
  destruct Hp as [Hf Hc]. split; [|auto]. intros w1 w2 J1 J2 H12%HE.
  destruct (Hf w1 w2 J1 J2 H12) as [-> Hw]. split; [done|].
  destruct Hw; constructor; by apply HE.
Qed.

(** The same program from equivalent states. *)
Lemma goes_local E E' {A} (p : prog W L R A) tr r w1 w1' w2 :
  local E p → keeps E' p → J w1 → J w2 → E w1 w2 → goes p w1 tr r w1' →
  ∃ w2', goes p w2 tr r w2' ∧ E w1' w2'.
Proof.
  revert tr w1 w2. induction p as [b|e|m|f c IH|l c IH]; intros tr w1 w2 Hl Hk J1 J2 HE Hg.
  - apply goes_ret_inv in Hg as (-> & -> & ->). by exists w2.
  - apply goes_fail_inv in Hg as (-> & -> & ->). by exists w2.
  - done.
  - destruct Hl as [Hf Hc], Hk as [Hk Hkc].
    apply goes_atom_inv in Hg as (w1'' & Hf1 & Hg). destruct (Hf w1 w2 J1 J2 HE) as [Heq Hw].
    rewrite Hf1 in Hw. destruct (f w2) as [w2''|] eqn:Hf2; [|by inversion Hw].
    destruct (IH w1 tr w1'' w2'') as (w2' & Hg2 & HE2);
      [by apply Hc | by apply Hkc | apply (Hk w1 w1'' J1 Hf1) | apply (Hk w2 w2'' J2 Hf2)
      | by inversion Hw | done|].
    exists w2'. split; [|done]. eapply goes_atom; [done | by rewrite <-Heq].
  - apply goes_await_inv in Hg as (a & t & -> & Hg).
    destruct (IH a t w1 w2) as (w2' & Hg2 & HE2); [apply Hl | apply Hk | done..|].
    exists w2'. split; [by apply goes_await | done].
Qed.

Lemma goes_keeps (E : W → W → Prop) `{!PreOrder E} {A} (p : prog W L R A) w tr r w' :
  keeps E p → J w → goes p w tr r w' → J w' ∧ E w w'.
Proof.
  revert tr w. induction p as [b|e|m|f c IH|l c IH]; intros tr w Hk Jw Hg.
  - by apply goes_ret_inv in Hg as (-> & -> & ->).
  - by apply goes_fail_inv in Hg as (-> & -> & ->).
  - done.
  - destruct Hk as [Hk Hkc]. apply goes_atom_inv in Hg as (w1 & Hf & Hg).
    destruct (Hk w w1 Jw Hf) as [J1 H1]. destruct (IH w tr w1) as [? ?]; [by apply Hkc | done..|].
    split; [done | by etrans].
  - apply goes_await_inv in Hg as (a & t & -> & Hg). apply (IH a t w); [apply Hk | done..].
Qed.

(** ** Never stuck, never panicking, never failing, whatever is answered *)
Fixpoint sound {A} (p : prog W L R A) (w : W) : Prop :=
  match p with
  | Ret _ => True
  | Fail _ | Panic _ => False
  | Atom f k => ∃ w', f w = Some w' ∧ sound (k w) w'
  | Await _ k => ∀ r, sound (k r) w
  end.

Definition good {A} (o : outcome W L A) : Prop :=
  match o with Done (Ok _) _ | Pending _ _ => True | _ => False end.

Lemma sound_run {A} (p : prog W L R A) rs w : sound p w → good (run rs p w).2.
Proof.
  revert rs w. induction p as [b|e|m|f c IH|l c IH]; intros rs w Hs; simpl in *; try done.
  - destruct Hs as (w' & -> & Hs). by apply IH.
  - destruct rs as [|r rs]; [done|]. specialize (IH r rs w (Hs r)).
    by destruct (run rs (c r) w).
Qed.

Lemma sound_local E E' {A} (p : prog W L R A) w1 w2 :
  local E p → keeps E' p → J w1 → J w2 → E w1 w2 → sound p w1 → sound p w2.
Proof.
  revert w1 w2. induction p as [b|e|m|f c IH|l c IH]; intros w1 w2 Hp Hk J1 J2 HE Hs; simpl in *; try done.
  - destruct Hp as [Hf Hc], Hk as [Hk Hkc], Hs as (w1' & Hw1 & Hs).
    destruct (Hf w1 w2 J1 J2 HE) as [Heq Hw].
    rewrite Hw1 in Hw. destruct (f w2) as [w2'|] eqn:Hw2; [|by inversion Hw].
    exists w2'. split; [done|]. rewrite <-Heq.
    apply (IH w1 w1'); [by apply Hc | by apply Hkc | apply (Hk w1 w1' J1 Hw1) | apply (Hk w2 w2' J2 Hw2)
      | by inversion Hw | done].
  - intros r. apply (IH r w1 w2); [apply Hp | apply Hk | done.. | apply Hs].
Qed.

(** A program that awaits nothing and ends well is sound. *)
Lemma goes_sound {A} (p : prog W L R A) w a w' : goes p w [] (Ok a) w' → sound p w.
Proof.
  revert w. induction p as [b|e|m|f c IH|l c IH]; intros w Hg; simpl.
  - done.
  - by apply goes_fail_inv in Hg as (_ & ? & _).
  - done.
  - apply goes_atom_inv in Hg as (w1 & Hf & Hg). exists w1. eauto.
  - by apply goes_await_inv in Hg as (r & tr & ? & _).
Qed.

Lemma sound_bind {A B} (p : prog W L R A) (k : A → prog W L R B) w :
  sound p w → (∀ tr a w1, goes p w tr (Ok a) w1 → sound (k a) w1) → sound (bind p k) w.
Proof.
  revert w. induction p as [b|e|m|f c IH|l c IH]; intros w Hp Hk; simpl in *; try done.
  - by apply (Hk []).
  - destruct Hp as (w' & Hf & Hp). exists w'. split; [done|]. apply IH; [done|].
    intros tr a w1 Hg. apply (Hk tr). by eapply goes_atom.
  - intros r. apply IH; [done|]. intros tr a w1 Hg. apply (Hk ((l, r) :: tr)). by apply goes_await.
Qed.

Lemma sound_then {A B} (p : prog W L R A) (k : A → prog W L R B) w a w1 :
  goes p w [] (Ok a) w1 → sound (k a) w1 → sound (bind p k) w.
Proof.
  intros Hp Hk. revert w Hp. induction p as [b|e|m|f c IH|l c IH]; intros w Hg; simpl.
  - by apply goes_ret_inv in Hg as (_ & [= ->] & ->).
  - by apply goes_fail_inv in Hg as (_ & ? & _).
  - done.
  - apply goes_atom_inv in Hg as (w2 & Hf & Hg). exists w2. eauto.
  - by apply goes_await_inv in Hg as (r & tr & ? & _).
Qed.

(** ** Running two independent programs together

    [p] does not touch what [q] sees, nor [q] what [p] sees. *)
Record independent (Ep Eq : W → W → Prop) (p q : prog W L R unit) : Prop := {
  ind_local_left : local Ep p;
  ind_local_right : local Eq q;
  ind_keeps_left : keeps Eq p;
  ind_keeps_right : keeps Ep q;
}.

Lemma local_atom E f k w : J w → local E (Atom f k : prog W L R unit) → local E (k w).
Proof. intros Jw [_ Hk]. by apply Hk. Qed.

Lemma keeps_atom E f k w : J w → keeps E (Atom f k : prog W L R unit) → keeps E (k w).
Proof. intros Jw [_ Hk]. by apply Hk. Qed.

(** One operation of [p]: the rest is as independent as [p]. *)
Lemma goes_step_inv p c w tr r w' :
  unfinished p = true → J w → goes (step p c) w tr r w' →
  ∃ p' w1 t1, child p' p ∧ (∀ t2 r2 w2, goes p' w1 t2 r2 w2 → ∃ t, goes p w t r2 w2) ∧
    (∀ E, Reflexive E → keeps E p → J w1 ∧ E w w1 ∧ keeps E p') ∧
    (∀ E, local E p → local E p') ∧ goes (c p') w1 t1 r w'.
Proof.
  destruct p as [| | |f k|l k]; intros Hu Jw Hg; try done.
  - apply goes_atom_inv in Hg as (w1 & Hf & Hg). exists (k w), w1, tr. split_and!; [constructor| | | |done].
    + intros t2 r2 w2 H2. exists t2. by eapply goes_atom.
    + intros E _ [HE Hk]. destruct (HE w w1 Jw Hf). split_and!; [done..|by apply Hk].
    + intros E. by apply local_atom.
  - apply goes_await_inv in Hg as (a & t1 & -> & Hg). exists (k a), w, t1. split_and!; [constructor| | | |done].
    + intros t2 r2 w2 H2. exists ((l, a) :: t2). by apply goes_await.
    + intros E HR Hk. split_and!; [done | reflexivity | by apply Hk].
    + intros E Hl. apply Hl.
Qed.

Definition ends_within (E : W → W → Prop) (p : prog W L R unit) (w w' : W) : Prop :=
  ∃ t w1, goes p w t (Ok tt) w1 ∧ E w1 w'.

Lemma ends_within_local (E E' : W → W → Prop) `{!Equivalence E} p w1 w2 w' :
  local E p → keeps E' p → J w1 → J w2 → E w1 w2 → ends_within E p w1 w' → ends_within E p w2 w'.
Proof.
  intros Hp Hk J1 J2 HE (t & w1' & Hg & HE').
  destruct (goes_local E E' p _ _ _ _ _ Hp Hk J1 J2 HE Hg) as (w2' & Hg2 & H2).
  exists t, w2'. split; [done|]. by etrans; [symmetry|].
Qed.

(** However they are interleaved, each ends as it does alone, as far as it
    can see. *)
Lemma par_goes Ep Eq `{!Equivalence Ep, !Equivalence Eq} p q w tr w' :
  independent Ep Eq p q → J w → goes (par p q) w tr (Ok tt) w' →
  ends_within Ep p w w' ∧ ends_within Eq q w w'.
Proof.
  revert w tr w'. revert p q. apply (par_ind (λ p q, ∀ w tr w', independent Ep Eq p q → J w →
    goes (par p q) w tr (Ok tt) w' → ends_within Ep p w w' ∧ ends_within Eq q w w')).
  assert (PreOrder Ep) by (split; apply _). assert (PreOrder Eq) by (split; apply _).
  intros p q IHp IHq w tr w' [Lp Lq Kp Kq] Jw Hg.
  destruct (unfinished p) eqn:Up.
  - destruct (unfinished q) eqn:Uq.
    + rewrite par_unfold in Hg by done. apply goes_await_inv in Hg as (r & t1 & _ & Hg).
      destruct (first r).
      * apply goes_step_inv in Hg as (p' & w1 & t2 & Hc & Hstep & Hk & Hl & Hg); [|done..].
        destruct (Hk Eq) as (J1 & HE & Kp'); [apply _ | done|].
        destruct (IHp p' Hc w1 t2 w') as [(t3 & w3 & Hg3 & HE3) Hq]; [split; auto | done..|].
        destruct (Hstep _ _ _ Hg3) as [t4 Hg4]. split; [by exists t4, w3|].
        by eapply (ends_within_local Eq Ep _ w1).
      * apply goes_step_inv in Hg as (q' & w1 & t2 & Hc & Hstep & Hk & Hl & Hg); [|done..].
        destruct (Hk Ep) as (J1 & HE & Kq'); [apply _ | done|].
        destruct (IHq q' Hc w1 t2 w') as [Hp (t3 & w3 & Hg3 & HE3)]; [split; auto | done..|].
        destruct (Hstep _ _ _ Hg3) as [t4 Hg4]. split; [|by exists t4, w3].
        by eapply (ends_within_local Ep Eq _ w1).
    + assert (∃ a, q = Ret a) as [[] ->].
      { destruct p, q; try done; try (by eexists); by apply goes_fail_inv in Hg as (_ & ? & _). }
      rewrite par_ret_right in Hg. destruct p; try done;
        (split; [by exists tr, w'; split|]; exists [], w; split; [done|]);
        exact (proj2 (goes_keeps Eq _ _ _ _ _ Kp Jw Hg)).
  - rewrite par_finished_left in Hg by done. destruct p as [[]|e|m| |]; try done.
    split; [exists [], w; split; [done|] | by exists tr, w'; split].
    exact (proj2 (goes_keeps Ep _ _ _ _ _ Kq Jw Hg)).
Qed.

Lemma par_sound Ep Eq `{!Equivalence Ep, !Equivalence Eq} p q w :
  independent Ep Eq p q → J w → sound p w → sound q w → sound (par p q) w.
Proof.
  revert w. revert p q. apply (par_ind (λ p q, ∀ w, independent Ep Eq p q → J w →
    sound p w → sound q w → sound (par p q) w)).
  intros p q IHp IHq w [Lp Lq Kp Kq] Jw Hp Hq.
  destruct (unfinished p) eqn:Up; [|rewrite par_finished_left by done; by destruct p].
  destruct (unfinished q) eqn:Uq; [|by destruct q as [[]| | | |], p].
  rewrite par_unfold by done. intros r. destruct (first r).
  - destruct p as [| | |f k|l k]; try done; simpl.
    + destruct Hp as (w1 & Hf & Hp). exists w1. split; [done|].
      destruct Lp as [Lf Lk], Kp as [Kf Kk]. destruct (Kf w w1 Jw Hf) as [J1 HE].
      apply IHp; [constructor | split; auto | done | done|]. by eapply (sound_local Eq Ep _ w).
    + intros a. apply IHp; [constructor | split; auto | done | apply Hp | done].
  - destruct q as [| | |f k|l k]; try done; simpl.
    + destruct Hq as (w1 & Hf & Hq). exists w1. split; [done|].
      destruct Lq as [Lf Lk], Kq as [Kf Kk]. destruct (Kf w w1 Jw Hf) as [J1 HE].
      apply IHq; [constructor | split; auto | done | | done]. by eapply (sound_local Ep Eq _ w).
    + intros a. apply IHq; [constructor | split; auto | done | done | apply Hq].
Qed.

Lemma local_par E p q : local E p → local E q → local E (par p q).
Proof.
  revert p q. apply (par_ind (λ p q, local E p → local E q → local E (par p q))).
  intros p q IHp IHq Hp Hq.
  destruct (unfinished p) eqn:Up; [|rewrite par_finished_left by done; by destruct p].
  destruct (unfinished q) eqn:Uq; [|by destruct q as [[]| | | |], p].
  rewrite par_unfold by done. intros r. destruct (first r).
  - destruct p as [| | |f k|l k]; try done; simpl.
    + destruct Hp as [Hf Hk]. split; [|intros w Jw; apply IHp; [constructor | by apply Hk | done]].
      intros w1 w2 J1 J2 HE. by destruct (Hf w1 w2 J1 J2 HE) as [-> ?].
    + intros a. by apply IHp; [constructor| |].
  - destruct q as [| | |f k|l k]; try done; simpl.
    + destruct Hq as [Hf Hk]. split; [|intros w Jw; apply IHq; [constructor | done | by apply Hk]].
      intros w1 w2 J1 J2 HE. by destruct (Hf w1 w2 J1 J2 HE) as [-> ?].
    + intros a. by apply IHq; [constructor| |].
Qed.

Lemma keeps_par E p q : keeps E p → keeps E q → keeps E (par p q).
Proof.
  revert p q. apply (par_ind (λ p q, keeps E p → keeps E q → keeps E (par p q))).
  intros p q IHp IHq Hp Hq.
  destruct (unfinished p) eqn:Up; [|rewrite par_finished_left by done; by destruct p].
  destruct (unfinished q) eqn:Uq; [|by destruct q as [[]| | | |], p].
  rewrite par_unfold by done. intros r. destruct (first r).
  - destruct p as [| | |f k|l k]; try done; simpl.
    + destruct Hp as [Hf Hk]. split; [done|]. intros w Jw.
      apply IHp; [constructor | by apply Hk | done].
    + intros a. by apply IHp; [constructor| |].
  - destruct q as [| | |f k|l k]; try done; simpl.
    + destruct Hq as [Hf Hk]. split; [done|]. intros w Jw.
      apply IHq; [constructor | done | by apply Hk].
    + intros a. by apply IHq; [constructor| |].
Qed.

(** ** Any number of programs, pairwise independent *)
Section all.
Context {A : Type} (E : A → W → W → Prop) `{!∀ a, Equivalence (E a)}.
Context (f : A → prog W L R unit) (l : list A).
Context (f_local : ∀ a, a ∈ l → local (E a) (f a)).
Context (f_keeps : ∀ a b, a ∈ l → b ∈ l → a ≠ b → keeps (E b) (f a)).
(** what every one of them keeps *)
Context (f_frame : ∀ a, a ∈ l → keeps (λ _ _, True) (f a)).

Definition E_all (m : list A) (w w' : W) : Prop := ∀ b, b ∈ m → E b w w'.

#[global] Instance E_all_equiv m : Equivalence (E_all m).
Proof.
  split.
  - intros w b _. reflexivity.
  - intros w w' HE b Hb. symmetry. by apply HE.
  - intros w1 w2 w3 H12 H23 b Hb. etrans; [by apply H12 | by apply H23].
Qed.

Lemma keeps_E_all (a : A) m :
  a ∈ l → a ∉ m → (∀ b, b ∈ m → b ∈ l) → keeps (E_all m) (f a).
Proof.
  intros Ha Hm Hin. assert (∀ b, b ∈ m → keeps (E b) (f a)) as HG.
  { intros b Hb. apply f_keeps; [done | auto | by intros ->]. }
  specialize (f_frame a Ha). revert HG f_frame. generalize (f a) as p. clear Ha. intros p.
  induction p as [b|e|s|g c IH|l' c IH]; simpl; intros HG HF; auto.
  - split.
    + intros w w' Jw Hw. split; [by apply (proj1 HF w)|]. intros b Hb. by apply (HG b Hb).
    + intros w Jw. apply IH; [|by apply HF]. intros b Hb. by apply HG.
Qed.

Lemma in_cons (a : A) m : (∀ b, b ∈ a :: m → b ∈ l) → a ∈ l ∧ ∀ b, b ∈ m → b ∈ l.
Proof. intros Hin. split; [apply Hin; by left | intros b Hb; apply Hin; by right]. Qed.

Lemma E_all_cons a m w w' : E_all (a :: m) w w' ↔ E a w w' ∧ E_all m w w'.
Proof.
  unfold E_all. split.
  - intros HE. split; [apply HE; by left | intros b Hb; apply HE; by right].
  - intros [Ha Hm] b [->|Hb]%elem_of_cons; auto.
Qed.

Lemma keeps_par_all E' m :
  (∀ b, b ∈ m → keeps E' (f b)) → keeps E' (par_all (f <$> m)).
Proof.
  induction m as [|a m IH]; intros Hm; [done|]. simpl. apply keeps_par.
  - apply Hm. by left.
  - apply IH. intros b Hb. apply Hm. by right.
Qed.

Lemma local_E_all m : NoDup m → (∀ b, b ∈ m → b ∈ l) → local (E_all m) (par_all (f <$> m)).
Proof.
  induction 1 as [|a m Ha Hm IH]; intros Hin; [done|]. simpl.
  destruct (in_cons _ _ Hin) as [Hal Hml].
  apply (local_mono (λ w w', E a w w' ∧ E_all m w w')).
  { intros w w'. symmetry. apply E_all_cons. }
  apply local_par.
  - apply local_keeps; [apply _| |]; [by apply f_local|]. by apply keeps_E_all.
  - apply (local_mono (λ w w', E_all m w w' ∧ E a w w')); [tauto|].
    apply local_keeps; [apply _| |]; [by apply IH|].
    apply keeps_par_all. intros b Hb. apply f_keeps; [by apply Hml | done | by intros ->].
Qed.

Lemma independent_cons a m :
  NoDup (a :: m) → (∀ b, b ∈ a :: m → b ∈ l) →
  independent (E a) (E_all m) (f a) (par_all (f <$> m)).
Proof.
  inversion 1 as [|? ? Ha Hm]; subst. intros Hin. destruct (in_cons _ _ Hin) as [Hal Hml]. split.
  - by apply f_local.
  - by apply local_E_all.
  - by apply keeps_E_all.
  - apply keeps_par_all. intros b Hb. apply f_keeps; [by apply Hml | done | by intros ->].
Qed.

Lemma par_all_goes m w tr w' :
  NoDup m → (∀ b, b ∈ m → b ∈ l) → J w → goes (par_all (f <$> m)) w tr (Ok tt) w' →
  ∀ a, a ∈ m → ends_within (E a) (f a) w w'.
Proof.
  intros Hm. revert w tr w'. induction Hm as [|a m Ha Hm IH]; intros w tr w' Hin Jw Hg b Hb.
  { by apply not_elem_of_nil in Hb. }
  simpl in Hg. apply (par_goes (E a) (E_all m)) in Hg as [Hp (t & w1 & Hq & HE)];
    [|apply independent_cons; [by constructor | done] | done].
  apply elem_of_cons in Hb as [->|Hb]; [done|].
  destruct (IH w t w1) with (a := b) as (t2 & w2 & H2 & HE2); [by apply (in_cons a) | done..|].
  exists t2, w2. split; [done|]. etrans; [done | by apply HE].
Qed.

Lemma par_all_sound m w :
  NoDup m → (∀ b, b ∈ m → b ∈ l) → J w → (∀ a, a ∈ m → sound (f a) w) →
  sound (par_all (f <$> m)) w.
Proof.
  induction 1 as [|a m Ha Hm IH]; intros Hin Jw Hs; [done|]. simpl.
  apply (par_sound (E a) (E_all m)); [apply independent_cons; [by constructor | done] | done | |].
  - apply Hs. by left.
  - apply IH; [by apply (in_cons a) | done|]. intros b Hb. apply Hs. by right.
Qed.
End all.
End independence.
End par.

(** ** Rely and guarantee

    An assertion is about the shared state together with the answers given so
    far.  [G] is what every task guarantees to the others. *)
Section rely.
Context {W L R : Type}.
Definition seen : Type := W * list (L * R).
Context (G : seen → seen → Prop) `{!PreOrder G}.
(** The panics that may happen. *)
Context (bad : string → seen → Prop) `{HB : !∀ m, Proper (G ==> impl) (bad m)}.

(** From [s] on, whatever the others do, [p] guarantees [G], and if it
    returns [a] then [Q a] holds at that moment; it panics only as [bad] says. *)
Fixpoint safe {A} (p : prog W L R A) (Q : A → seen → Prop) (s : seen) : Prop :=
  match p with
  | Ret a => Q a s
  | Fail _ => True
  | Panic m => bad m s
  | Atom f k =>
      ∀ s1, G s s1 → ∀ w2, f s1.1 = Some w2 →
      G s1 (w2, s1.2) ∧ safe (k s1.1) Q (w2, s1.2)
  | Await l k =>
      ∀ s1, G s s1 → ∀ r,
      G s1 (s1.1, (l, r) :: s1.2) ∧ safe (k r) Q (s1.1, (l, r) :: s1.2)
  end.

Lemma safe_rely {A} (p : prog W L R A) Q s s' :
  (∀ a s s', Q a s → G s s' → Q a s') → G s s' → safe p Q s → safe p Q s'.
Proof.
  intros HQ Hs. destruct p as [a|e|m|f k|l k]; simpl; [by eauto|done| | |].
  - by apply HB.
  - intros Hp s1 H1. apply Hp. by etrans.
  - intros Hp s1 H1. apply Hp. by etrans.
Qed.

(** A postcondition may use that the state has moved along [G]. *)
Lemma safe_mono {A} (p : prog W L R A) (Q Q' : A → seen → Prop) s :
  (∀ a s', G s s' → Q a s' → Q' a s') → safe p Q s → safe p Q' s.
Proof.
  revert s. induction p as [a|e|m|f k IH|l k IH]; simpl; intros s HQ Hp; auto.
  - by apply HQ.
  - intros s1 H1 w2 Hf. destruct (Hp s1 H1 w2 Hf) as [H2 Hk]. split; [done|].
    apply IH; [|done]. intros a s' H3. apply HQ. by repeat (etrans; [done|]).
  - intros s1 H1 r. destruct (Hp s1 H1 r) as [H2 Hk]. split; [done|].
    apply IH; [|done]. intros a s' H3. apply HQ. by repeat (etrans; [done|]).
Qed.

Lemma safe_bind {A B} (p : prog W L R A) (k : A → prog W L R B) Q s :
  safe p (λ a, safe (k a) Q) s → safe (bind p k) Q s.
Proof.
  revert s. induction p as [a|e|m|f c IH|l c IH]; simpl; intros s Hp; auto.
  - intros s1 H1 w2 Hf. destruct (Hp s1 H1 w2 Hf). auto.
  - intros s1 H1 r. destruct (Hp s1 H1 r). auto.
Qed.

Lemma safe_attempt {A} (p : prog W L R A) Q s :
  (∀ e s', G s s' → Q (Err e) s') → safe p (λ a, Q (Ok a)) s → safe (attempt p) Q s.
Proof.
  revert s. induction p as [a|e|m|f c IH|l c IH]; simpl; intros s HQ Hp; auto.
  - by apply HQ.
  - intros s1 H1 w2 Hf. destruct (Hp s1 H1 w2 Hf) as [H2 Hk]. split; [done|].
    apply IH; [|done]. intros e s' H3. apply HQ. by repeat (etrans; [done|]).
  - intros s1 H1 r. destruct (Hp s1 H1 r) as [H2 Hk]. split; [done|].
    apply IH; [|done]. intros e s' H3. apply HQ. by repeat (etrans; [done|]).
Qed.

(** A task that stops when its token is cancelled. *)
Lemma safe_until (cancelled : W → bool) (stop : R → bool) (p : prog W L R unit) s :
  safe p (λ _ _, True) s → safe (until cancelled stop p) (λ _ _, True) s.
Proof.
  revert s. induction p as [a|e|m|f c IH|l c IH]; simpl; intros s Hp; try done.
  - intros [w1 h1] H1 w2 Hf. simpl in *. destruct (f w1) as [w'|] eqn:E.
    + injection Hf as <-. destruct (Hp (w1, h1) H1 w' E) as [H2 Hk]. split; [done | by apply IH].
    + destruct (cancelled w1); [|done]. by injection Hf as <-.
  - intros [w1 h1] H1 r. destruct (Hp (w1, h1) H1 r) as [H2 Hk]. split; [done|].
    destruct (stop r); [|by apply IH]. intros [w2 h2] H3 w3 Hf. simpl in *.
    destruct (cancelled w2); [|done]. by injection Hf as <-.
Qed.

(** Programs whose every operation is a [Step] wherever [P] holds, and whose panics
    are [fine]. *)
Section routine.
Context (Step : W → W → Prop) (fine : string → Prop).

Fixpoint routine (P : W → Prop) {A} (p : prog W L R A) : Prop :=
  match p with
  | Ret _ | Fail _ => True
  | Panic m => fine m
  | Atom f k => (∀ w w', P w → f w = Some w' → Step w w') ∧ ∀ w, P w → routine P (k w)
  | Await _ k => ∀ r, routine P (k r)
  end.

Lemma routine_bind P {A B} (p : prog W L R A) (k : A → prog W L R B) :
  routine P p → (∀ a, routine P (k a)) → routine P (bind p k).
Proof. clear. induction p; simpl; naive_solver. Qed.

Lemma routine_attempt P {A} (p : prog W L R A) : routine P p → routine P (attempt p).
Proof. clear. induction p; simpl; naive_solver. Qed.

Lemma routine_ignore P {A} (p : prog W L R A) : routine P p → routine P (ignore p).
Proof. intros. by apply routine_bind; [apply routine_attempt|]. Qed.

Lemma routine_mono (P Q : W → Prop) {A} (p : prog W L R A) :
  (∀ w, Q w → P w) → routine P p → routine Q p.
Proof. clear. induction p; simpl; naive_solver. Qed.

Lemma routine_of_result P {A} (r : result A) : routine P (of_result r).
Proof. by destruct r. Qed.

Lemma routine_seq_all_in P {A} (f : A → prog W L R unit) l :
  (∀ a, a ∈ l → routine P (f a)) → routine P (seq_all f l).
Proof.
  induction l as [|a l IH]; simpl; intros Hf; [done|]. apply routine_bind; [by apply Hf; left|].
  intros _. apply IH. intros b Hb. apply Hf. by right.
Qed.

Lemma routine_seq_all P {A} (f : A → prog W L R unit) l :
  (∀ a, routine P (f a)) → routine P (seq_all f l).
Proof. intros Hf. apply routine_seq_all_in. by intros a _. Qed.

Lemma routine_until P (cancelled : W → bool) (stop : R → bool) (p : prog W L R unit) :
  (∀ w, Step w w) → routine P p → routine P (until cancelled stop p).
Proof.
  clear. intros Hr. induction p as [a|e|m|f k IH|l k IH]; simpl; try done.
  - intros [Hf Hk]. split.
    + intros w w' Hw. destruct (f w) eqn:E; [intros [= <-]; by eapply Hf|].
      destruct (cancelled w); [|done]. by intros [= <-].
    + intros w Hw. destruct (f w); [by apply IH, Hk | done].
  - intros Hk r. destruct (stop r); [|by apply IH]. split; [|done].
    intros w w' Hw. destruct (cancelled w); [|done]. by intros [= <-].
Qed.

(** Such a program is safe where [P] holds, and keeps holding. *)
Lemma safe_routine (P : W → Prop) {A} (p : prog W L R A) s :
  (∀ w w' h, P w → Step w w' → G (w, h) (w', h)) → (∀ w h l r, G (w, h) (w, (l, r) :: h)) →
  (∀ s s', P s.1 → G s s' → P s'.1) → (∀ m s, fine m → bad m s) →
  routine P p → P s.1 → safe p (λ _ s', G s s') s.
Proof.
  intros HG HA HP Hfine. revert s. induction p as [a|e|m|f c IH|l c IH]; simpl; intros s Hp Hs; auto.
  - done.
  - intros s1 H1 w2 Hf. destruct s1 as [w1 h1]. assert (P w1) as Hs1 by by apply (HP s (w1, h1)).
    destruct Hp as [Hfp Hk]. assert (G (w1, h1) (w2, h1)) as H2 by (by apply HG; [|apply Hfp]).
    split; [done|]. eapply safe_mono; [|apply IH; [by apply Hk | by apply (HP (w1, h1) (w2, h1))]].
    intros a s' _ H3. by repeat (etrans; [done|]).
  - intros s1 H1 r. destruct s1 as [w1 h1]. assert (G (w1, h1) (w1, (l, r) :: h1)) as H2 by apply HA.
    split; [done|]. eapply safe_mono; [|apply IH; [apply Hp | by apply (HP s (w1, h1))]].
    intros a s' _ H3. by repeat (etrans; [done|]).
Qed.
End routine.

(** Two futures of one task: each is safe whatever the other does. *)
Section par.
Context (poll : L) (first : R → bool).
Context (poll_ok : ∀ w h r, G (w, h) (w, (poll, r) :: h)).

Abbreviation harmless p s := (safe p (λ _ _, True) s).

Lemma safe_step (p : prog W L R unit) c s :
  harmless p s → unfinished p = true →
  (∀ p' s', child p' p → G s s' → harmless p' s' → harmless (c p') s') → harmless (step p c) s.
Proof.
  destruct p as [a|e|m|f k|l k]; intros Hp Hu Hc; try done.
  - intros s1 H1 w2 Hf. destruct (Hp s1 H1 w2 Hf) as [H2 Hk]. split; [done|].
    apply Hc; [constructor | by etrans | done].
  - intros s1 H1 r. destruct (Hp s1 H1 r) as [H2 Hk]. split; [done|].
    apply Hc; [constructor | by etrans | done].
Qed.

Lemma safe_par p q s : harmless p s → harmless q s → harmless (par poll first p q) s.
Proof.
  revert s. revert p q. apply (par_ind (λ p q, ∀ s, harmless p s → harmless q s → harmless (par poll first p q) s)).
  intros p q IHp IHq s Hp Hq.
  destruct (unfinished p) eqn:Up; [|rewrite par_finished_left by done; by destruct p].
  destruct (unfinished q) eqn:Uq; [|by destruct q as [[]| | | |], p].
  rewrite par_unfold by done. intros s1 H1 r.
  assert (G s1 (s1.1, (poll, r) :: s1.2)) as H2 by by destruct s1.
  split; [done|]. assert (G s (s1.1, (poll, r) :: s1.2)) as H3 by by etrans.
  destruct (first r).
  - apply safe_step; [by eapply safe_rely | done|]. intros p' s' Hc Hs' Hp'.
    apply IHp; [done | done|]. eapply safe_rely; [done| |exact Hq]. by etrans.
  - apply safe_step; [by eapply safe_rely | done|]. intros q' s' Hc Hs' Hq'.
    apply IHq; [done | | done]. eapply safe_rely; [done| |exact Hp]. by etrans.
Qed.

Lemma safe_par_all ps s : Forall (λ p, harmless p s) ps → harmless (par_all poll first ps) s.
Proof. induction 1; [done | by apply safe_par]. Qed.
End par.

(** *** The pool *)
Definition sys_view (s : sys W L R) : seen := (shared s, answers s).

Definition pool_safe (s : sys W L R) : Prop :=
  ∀ i p, pool s !! i = Some p → safe p (λ _ _, True) (sys_view s).

Lemma pool_safe_step (w w' : W) h h' ps i p :
  pool_safe (Sys w ps h) → G (w, h) (w', h') → safe p (λ _ _, True) (w', h') →
  pool_safe (Sys w' (<[i := p]> ps) h').
Proof.
  intros Hp HG Hi j q. simpl. rewrite lookup_insert. case_decide.
  - by intros [= <-].
  - intros Hq. eapply safe_rely; [done..|]. by apply (Hp j).
Qed.

(** If every task is safe where it is started, all that happens is allowed by [G], and
    every panic by [bad]. *)
Lemma reaches_in_safe (I : seen → Prop) (starts : W → prog W L R unit → Prop) s s' :
  (∀ s s', I s → G s s' → I s') →
  (∀ p s, starts s.1 p → I s → safe p (λ _ _, True) s) →
  I (sys_view s) → pool_safe s → reaches_in starts s s' →
  G (sys_view s) (sys_view s') ∧ I (sys_view s') ∧ pool_safe s'.
Proof.
  intros HI HS Hi Hp Hr. revert Hi Hp. induction Hr as [s|s1 s2 s3 H12 H23 IH]; intros Hi Hp; [done|].
  assert (G (sys_view s1) (sys_view s2) ∧ pool_safe s2) as [HG Hp2].
  { destruct H12 as [s i p Hst _|s i f k w' Hl Hf|s i l k r Hl|s i]; destruct s as [w ps h]; simpl in *.
    - split; [done|]. eapply pool_safe_step; [done|done|]. by apply HS.
    - destruct (Hp i _ Hl (w, h)) with (w2 := w') as [HG Hk]; [done|done|].
      split; [done|]. by eapply pool_safe_step.
    - destruct (Hp i _ Hl (w, h)) with (r := r) as [HG Hk]; [done|].
      split; [done|]. by eapply pool_safe_step.
    - split; [done|]. intros j q. simpl. rewrite lookup_delete_Some. intros [_ Hq]. by apply (Hp j). }
  destruct (IH (HI _ _ Hi HG) Hp2) as (HG' & ? & ?). split; [by etrans | done].
Qed.

Lemma pool_safe_idle w : pool_safe (idle w).
Proof. intros i p. simpl. by rewrite lookup_empty. Qed.

Lemma safe_panic s i m : pool_safe s → pool s !! i = Some (Panic m) → bad m (sys_view s).
Proof. intros Hp Hi. exact (Hp i _ Hi). Qed.

End rely.

(** Where panics do not matter. *)
Definition any_panic {W L R : Type} : string → seen (W := W) (L := L) (R := R) → Prop := λ _ _, True.

#[export] Instance any_panic_proper {W L R} (G : seen (W := W) (L := L) (R := R) → seen → Prop) m :
  Proper (G ==> impl) (any_panic m).
Proof. by intros s s' _ _. Qed.

(** ** What a program does and awaits

    Like [guar], and it awaits only what [Lab] allows. *)
Section does.
Context {W L R : Type}.
Context (Step : W → W → Prop) (Lab : L → Prop).

Fixpoint does {A} (p : prog W L R A) : Prop :=
  match p with
  | Ret _ | Fail _ | Panic _ => True
  | Atom f k => (∀ w w', f w = Some w' → Step w w') ∧ ∀ w, does (k w)
  | Await l k => Lab l ∧ ∀ r, does (k r)
  end.

Lemma does_bind {A B} (p : prog W L R A) (k : A → prog W L R B) :
  does p → (∀ a, does (k a)) → does (bind p k).
Proof. induction p; simpl; naive_solver. Qed.

Lemma does_attempt {A} (p : prog W L R A) : does p → does (attempt p).
Proof. induction p; simpl; naive_solver. Qed.

Lemma does_ignore {A} (p : prog W L R A) : does p → does (ignore p).
Proof. intros. by apply does_bind; [apply does_attempt|]. Qed.

Lemma does_of_result {A} (r : result A) : does (of_result r).
Proof. by destruct r. Qed.

Lemma does_seq_all {A} (f : A → prog W L R unit) l : (∀ a, does (f a)) → does (seq_all f l).
Proof. intros Hf. induction l; simpl; [done|]. by apply does_bind. Qed.

Lemma does_until (cancelled : W → bool) (stop : R → bool) (p : prog W L R unit) :
  (∀ w, Step w w) → does p → does (until cancelled stop p).
Proof.
  intros Hr. induction p as [a|e|m|f k IH|l k IH]; simpl; try done.
  - intros [Hf Hk]. split.
    + intros w w'. destruct (f w) eqn:E; [intros [= <-]; by apply Hf|].
      destruct (cancelled w); [|done]. by intros [= <-].
    + intros w. destruct (f w); [by apply IH, Hk | done].
  - intros [Hl Hk]. split; [done|]. intros r. destruct (stop r); [|by apply IH]. split; [|done].
    intros w w'. destruct (cancelled w); [|done]. by intros [= <-].
Qed.

Section par.
Context (poll : L) (first : R → bool) (poll_ok : Lab poll).

Lemma does_child p p' : child p' p → does p → does p'.
Proof. destruct 1; intros Hp; apply Hp. Qed.

Lemma does_step p c : does p → (∀ p', child p' p → does (c p')) → unfinished p = true → does (step p c).
Proof.
  destruct p; intros Hp Hc Hu; try done.
  - split; [apply Hp|]. intros w. apply Hc. constructor.
  - split; [apply Hp|]. intros r. apply Hc. constructor.
Qed.

Lemma does_par p q : does p → does q → does (par poll first p q).
Proof.
  revert p q. apply (par_ind (λ p q, does p → does q → does (par poll first p q))).
  intros p q IHp IHq Hp Hq.
  destruct (unfinished p) eqn:Up; [|rewrite par_finished_left by done; by destruct p].
  destruct (unfinished q) eqn:Uq; [|by destruct q as [[]| | | |], p].
  rewrite par_unfold by done. split; [done|]. intros r. destruct (first r); (apply does_step; [done| |done]).
  - intros p' Hc. apply IHp; [done | by eapply does_child | done].
  - intros q' Hc. apply IHq; [done | done | by eapply does_child].
Qed.

Lemma does_par_all ps : Forall does ps → does (par_all poll first ps).
Proof. induction 1; [done | by apply does_par]. Qed.
End par.

(** With what the program guarantees. *)
Lemma safe_does (G : seen (W := W) (L := L) (R := R) → seen → Prop) `{!PreOrder G} (Gw : W → W → Prop)
    {A} (p : prog W L R A) s :
  (∀ w w' h, Gw w w' → Step w w' → G (w, h) (w', h)) → (∀ w h l r, Lab l → G (w, h) (w, (l, r) :: h)) →
  guar Gw p → does p → safe G any_panic p (λ _ s', G s s') s.
Proof.
  intros HG HA. revert s. induction p as [a|e|m|f c IH|l c IH]; simpl; intros s Hg Hp; auto.
  - done.
  - intros s1 H1 w2 Hf. assert (G s1 (w2, s1.2)) as H2.
    { destruct s1 as [w1 h]. apply HG; [by apply Hg | by apply Hp]. }
    split; [done|]. eapply safe_mono; [done| |apply IH; [by apply Hg | by apply Hp]].
    intros a s' _ H3. by repeat (etrans; [done|]).
  - intros s1 H1 r. assert (G s1 (s1.1, (l, r) :: s1.2)) as H2 by (destruct s1; by apply HA, Hp).
    split; [done|]. eapply safe_mono; [done| |apply IH; [apply Hg | apply Hp]].
    intros a s' _ H3. by repeat (etrans; [done|]).
Qed.
End does.
