(* ===== verification/Owned.v ===== *)
(** * Private parts of a shared state

    A rely/guarantee judgement like [safe], for tasks that claim parts of the
    state for themselves: an object they have just allocated, or what a lock
    protects.  While a part is [held], only the task that claimed it changes
    it; everybody else leaves it as it is ([same]).  A part can be claimed by
    the operation that makes it held, and is given up by one that releases it. *)

From S2P Require Import Prelude Async Concurrent Spawner.

Section owned.
Context {W L R : Type} {K : Type} `{EK : !EqDecision K, CK : !Countable K}.
Abbreviation view := (seen (W := W) (L := L) (R := R)).
(** What every step of every task keeps to. *)
Context (G : view → view → Prop) `{!PreOrder G}.
Context (held : K → W → Prop) (same : K → W → W → Prop) `{!∀ k, PreOrder (same k)}.
Context (same_held : ∀ k w w', same k w w' → held k w → held k w').
(** The panics that may happen. *)
Context (bad : string → view → Prop) (bad_stable : ∀ m s s', bad m s → G s s' → bad m s').

(** What the other tasks do, and what a task with the parts [own] may do. *)
Definition others (own : gset K) (s s' : view) : Prop :=
  G s s' ∧ ∀ k, k ∈ own → same k s.1 s'.1.
Definition allowed (own : gset K) (s s' : view) : Prop :=
  G s s' ∧ ∀ k, k ∉ own → held k s.1 → same k s.1 s'.1.
Definition claimed (own own' : gset K) (w w' : W) : Prop :=
  ∀ k, k ∈ own' → held k w' ∧ (k ∈ own ∨ ¬ held k w).

#[global] Instance others_preorder own : PreOrder (others own).
Proof.
  split.
  - intros s. by split.
  - intros s1 s2 s3 [G1 S1] [G2 S2]. split; [by etrans|]. intros k Hk. etrans; [by apply S1 | by apply S2].
Qed.

Definition holds (own : gset K) (w : W) : Prop := ∀ k, k ∈ own → held k w.

Lemma others_holds own s s' : holds own s.1 → others own s s' → holds own s'.1.
Proof. intros Hh [_ Hs] k Hk. eapply same_held; [by apply Hs | by apply Hh]. Qed.

(** [osafe own p Q s]: with the parts [own], from [s] on and whatever the others
    do, [p] does only what it may, panics only as allowed, and ends with [Q]. *)
Fixpoint osafe {A} (own : gset K) (p : prog W L R A) (Q : gset K → result A → view → Prop)
    (s : view) : Prop :=
  match p with
  | Ret a => Q own (Ok a) s
  | Fail e => Q own (Err e) s
  | Panic m => bad m s
  | Atom f k =>
      ∀ s1, others own s s1 → holds own s1.1 → ∀ w2, f s1.1 = Some w2 →
      ∃ own', claimed own own' s1.1 w2 ∧ allowed own s1 (w2, s1.2) ∧ osafe own' (k s1.1) Q (w2, s1.2)
  | Await l k =>
      ∀ s1, others own s s1 → holds own s1.1 → ∀ r,
      allowed own s1 (s1.1, (l, r) :: s1.2) ∧ osafe own (k r) Q (s1.1, (l, r) :: s1.2)
  end.

Lemma osafe_others {A} own (p : prog W L R A) Q s s' :
  (∀ own r s s', Q own r s → others own s s' → Q own r s') → others own s s' →
  osafe own p Q s → osafe own p Q s'.
Proof.
  intros HQ Hs. destruct p as [a|e|m|f k|l k]; simpl; [by eauto | by eauto | | |].
  - intros Hb. eapply bad_stable; [done | apply Hs].
  - intros Hp s1 H1. apply Hp. by etrans.
  - intros Hp s1 H1. apply Hp. by etrans.
Qed.

Lemma osafe_mono {A} own (p : prog W L R A) (Q Q' : gset K → result A → view → Prop) s :
  (∀ own r s', G s s' → Q own r s' → Q' own r s') → osafe own p Q s → osafe own p Q' s.
Proof.
  revert own s. induction p as [a|e|m|f k IH|l k IH]; simpl; intros own s HQ Hp; auto.
  - by apply HQ.
  - by apply HQ.
  - intros s1 H1 Hh w2 Hf. destruct (Hp s1 H1 Hh w2 Hf) as (own' & Hc & Ha & Hk).
    exists own'. split_and!; [done..|]. eapply IH; [|done]. intros o r s' H2.
    apply HQ. etrans; [apply H1|]. by etrans; [apply Ha|].
  - intros s1 H1 Hh r. destruct (Hp s1 H1 Hh r) as [Ha Hk]. split; [done|].
    eapply IH; [|done]. intros o r' s' H2. apply HQ. etrans; [apply H1|]. by etrans; [apply Ha|].
Qed.

Lemma osafe_bind {A B} own (p : prog W L R A) (k : A → prog W L R B) Q s :
  osafe own p (λ own r s, match r with Ok a => osafe own (k a) Q s | Err e => Q own (Err e) s end) s →
  osafe own (bind p k) Q s.
Proof.
  revert own s. induction p as [a|e|m|f c IH|l c IH]; simpl; intros own s Hp; auto.
  - intros s1 H1 Hh w2 Hf. destruct (Hp s1 H1 Hh w2 Hf) as (own' & Hc & Ha & Hk). exists own'. auto.
  - intros s1 H1 Hh r. destruct (Hp s1 H1 Hh r). auto.
Qed.

Lemma osafe_attempt {A} own (p : prog W L R A) Q s :
  osafe own p (λ own r, Q own (Ok r)) s → osafe own (attempt p) Q s.
Proof.
  revert own s. induction p as [a|e|m|f c IH|l c IH]; simpl; intros own s Hp; auto.
  - intros s1 H1 Hh w2 Hf. destruct (Hp s1 H1 Hh w2 Hf) as (own' & Hc & Ha & Hk). exists own'. auto.
  - intros s1 H1 Hh r. destruct (Hp s1 H1 Hh r). auto.
Qed.

Lemma osafe_ignore {A} own (p : prog W L R A) Q s :
  osafe own p (λ own _, Q own (Ok tt)) s → osafe own (ignore p) Q s.
Proof. intros Hp. by apply osafe_bind, osafe_attempt. Qed.

(** The common cases: something is known after [p], errors are passed on. *)
Lemma osafe_then {A B} own (p : prog W L R A) (k : A → prog W L R B) (P : gset K → A → view → Prop)
    (E : view → Prop) Q s :
  osafe own p (λ own r s, match r with Ok a => P own a s | Err _ => own = ∅ ∧ E s end) s →
  (∀ own a s', P own a s' → osafe own (k a) Q s') → (∀ e s', E s' → Q ∅ (Err e) s') →
  osafe own (bind p k) Q s.
Proof.
  intros Hp Hk HE. apply osafe_bind. eapply osafe_mono; [|done].
  intros o [a|e] s' _; [auto|]. intros [-> Hs]. auto.
Qed.

(** A task that stops when its token is cancelled. *)
Lemma osafe_until (cancelled : W → bool) (stop : R → bool) own (p : prog W L R unit) s :
  osafe own p (λ _ _ _, True) s → osafe own (until cancelled stop p) (λ _ _ _, True) s.
Proof.
  assert (∀ own w h, holds own w → claimed own own w w ∧ allowed own (w, h) (w, h)) as Hstay.
  { intros o w h Hh. split; [by intros k Hk; split; [apply Hh | left]|]. split; [done | by intros k _ _]. }
  revert own s. induction p as [a|e|m|f c IH|l c IH]; simpl; intros own s Hp; try done.
  - intros [w1 h1] H1 Hh w2 Hf. simpl in *. destruct (f w1) as [w'|] eqn:E.
    + injection Hf as <-. destruct (Hp (w1, h1) H1 Hh w' E) as (own' & Hc & Ha & Hk).
      exists own'. split_and!; [done..|]. by apply IH.
    + destruct (cancelled w1); [|done]. injection Hf as <-. exists own. split_and!; [by apply (Hstay own w1 h1)..|done].
  - intros [w1 h1] H1 Hh r. destruct (Hp (w1, h1) H1 Hh r) as [Ha Hk]. split; [done|].
    destruct (stop r); [|by apply IH]. intros [w2 h2] H2 Hh2 w3 Hf. simpl in *.
    destruct (cancelled w2); [|done]. injection Hf as <-. exists own. split_and!; [by apply (Hstay own w2 h2)..|done].
Qed.

(** *** Routine programs

    They claim nothing, and do only what anybody may do wherever [P] holds. *)
Section routine.
Context (Step : W → W → Prop) (fine : string → Prop).
Context (Step_G : ∀ w w' h, Step w w' → G (w, h) (w', h)) (G_answer : ∀ w h l r, G (w, h) (w, (l, r) :: h)).
Context (Step_same : ∀ k w w', Step w w' → held k w → same k w w').
Context (fine_bad : ∀ m s, fine m → bad m s).

Lemma osafe_routine (P : W → Prop) {A} (p : prog W L R A) own s :
  (∀ s s', P s.1 → others own s s' → P s'.1) → routine Step fine P p → P s.1 →
  osafe own p (λ own' _ s', own' = own ∧ others own s s') s.
Proof.
  intros HP. revert s. induction p as [a|e|m|f k IH|l k IH]; simpl; intros s Hp Hs; auto.
  - done.
  - done.
  - intros s1 H1 Hh w2 Hf. assert (P s1.1) as Hs1 by by apply (HP s).
    destruct s1 as [w1 h1]. destruct Hp as [Hfp Hk]. specialize (Hfp _ _ Hs1 Hf). simpl in *.
    assert (others own (w1, h1) (w2, h1)) as H2.
    { split; [by apply Step_G|]. intros q Hq. by apply Step_same, Hh. }
    exists own. split_and!.
    + intros q Hq. split; [|by left]. eapply same_held; [by apply H2 | by apply Hh].
    + split; [by apply Step_G|]. intros q _ Hq. by apply (Step_same q w1 w2).
    + eapply osafe_mono; [|apply IH; [by apply Hk | by apply (HP (w1, h1))]].
      intros o r s' _ [-> H3]. split; [done|]. etrans; [exact H1|]. by etrans.
  - intros s1 H1 Hh r. destruct s1 as [w1 h1]. simpl in *.
    assert (others own (w1, h1) (w1, (l, r) :: h1)) as H2 by (split; [apply G_answer | reflexivity]).
    split; [split; [apply H2 | reflexivity]|].
    eapply osafe_mono; [|apply IH; [apply Hp | apply (HP s); [done|]; by etrans; [apply H1|]]].
    intros o r' s' _ [-> H3]. split; [done|]. etrans; [exact H1|]. by etrans.
Qed.
End routine.

(** *** The pool *)
Definition tasks_safe (owns : nat → gset K) (s : sys W L R) : Prop :=
  ∀ i p, pool s !! i = Some p → osafe (owns i) p (λ _ _ _, True) (sys_view s).

Record pool_owned (owns : nat → gset K) (s : sys W L R) : Prop := {
  owned_once i j k : k ∈ owns i → k ∈ owns j → i = j;
  owned_held i k : k ∈ owns i → held k (shared s);
  owned_safe : tasks_safe owns s;
}.

(** One task has moved, the others are as before. *)
Lemma pool_owned_step owns (w w' : W) h h' ps i p own :
  pool_owned owns (Sys w ps h) → allowed (owns i) (w, h) (w', h') → claimed (owns i) own w w' →
  osafe own p (λ _ _ _, True) (w', h') →
  ∃ owns', pool_owned owns' (Sys w' (<[i := p]> ps) h').
Proof.
  intros [O1 O2 O3] [HG HS] Hc Hp. simpl in *.
  set (owns' j := if decide (j = i) then own else owns j). exists owns'.
  assert (Hother : ∀ j k, j ≠ i → k ∈ owns j → same k w w').
  { intros j k Hj Hk. apply HS; [|by eapply O2]. intros Hi. by destruct Hj; eapply O1. }
  assert (Hkeep : ∀ j k, j ≠ i → k ∈ owns j → k ∈ own → False).
  { intros j k Hj Hk Ho. destruct (Hc k Ho) as [_ [Hi|Hn]]; [by destruct Hj; eapply O1|].
    by apply Hn; eapply O2. }
  split; simpl.
  - intros j1 j2 k. unfold owns'. repeat case_decide; subst; try done; [| |by apply O1].
    + intros Ho Hk. by destruct (Hkeep j2 k).
    + intros Hk Ho. by destruct (Hkeep j1 k).
  - intros j k. unfold owns'. case_decide; subst; [by intros Hk; apply Hc|].
    intros Hk. eapply same_held; [by eapply Hother | by eapply O2].
  - intros j q. simpl. rewrite lookup_insert. unfold owns'. repeat case_decide; subst; try done.
    + by intros [= <-].
    + intros Hq. eapply (osafe_others _ _ _ (w, h)); [done| |by apply (O3 j)].
      split; [done|]. intros k Hk. by eapply (Hother j).
Qed.

(** If every task is safe where it is started, all that happens is allowed, and
    every panic is one that may happen. *)
Lemma reaches_owned (I : view → Prop) (starts : W → prog W L R unit → Prop) s s' :
  (∀ s s', I s → G s s' → I s') →
  (∀ p s, starts s.1 p → I s → osafe ∅ p (λ _ _ _, True) s) →
  I (sys_view s) → (∃ owns, pool_owned owns s) → reaches_in starts s s' →
  G (sys_view s) (sys_view s') ∧ I (sys_view s') ∧ ∃ owns, pool_owned owns s'.
Proof.
  intros HI HS Hi Hp Hr. revert Hi Hp. induction Hr as [s|s1 s2 s3 H12 H23 IH]; intros Hi [owns Hp].
  { split; [done|]. split; [done | by exists owns]. }
  assert (G (sys_view s1) (sys_view s2) ∧ ∃ owns, pool_owned owns s2) as [HG Hp2].
  { assert (Hrefl : ∀ own v, allowed own v v) by (intros own v; split; [done | intros k _ _; reflexivity]).
    destruct H12 as [s i p Hst Hno|s i f k w' Hl Hf|s i l k r Hl|s i]; destruct s as [w ps h]; simpl in *.
    - split; [done|]. eapply (pool_owned_step owns w w h h ps i p ∅); [done | apply Hrefl | by intros k ?%not_elem_of_empty | by apply HS].
    - destruct (owned_safe _ _ Hp i _ Hl (w, h)) with (w2 := w') as (own & Hc & Ha & Hk); [done | |done|].
      { intros k' Hk'. by eapply (owned_held _ _ Hp). }
      split; [apply Ha|]. by eapply pool_owned_step.
    - destruct (owned_safe _ _ Hp i _ Hl (w, h)) with (r := r) as [Ha Hk]; [done | |].
      { intros k' Hk'. by eapply (owned_held _ _ Hp). }
      split; [apply Ha|]. eapply (pool_owned_step owns w w h _ ps i); [done | done | |done].
      intros k' Hk'. split; [by eapply (owned_held _ _ Hp) | by left].
    - split; [done|]. exists owns. destruct Hp as [O1 O2 O3]. split; [done..|].
      intros j q. simpl. rewrite lookup_delete_Some. intros [_ Hq]. by apply (O3 j). }
  destruct (IH (HI _ _ Hi HG) Hp2) as (HG' & ? & ?). split; [by etrans | done].
Qed.

Lemma owned_panic owns s i m : pool_owned owns s → pool s !! i = Some (Panic m) → bad m (sys_view s).
Proof. intros Hp Hi. exact (owned_safe _ _ Hp i _ Hi). Qed.
End owned.
