(* ===== verification/Extern.v ===== *)
(** * The libraries the program calls

    Crates that are not part of the repository are parameters of the model.
    Each class below is one of them: its operations with the documented
    behaviour the program relies on.  Every class has a concrete instance (the
    [ref_] definitions), so that the behaviour assumed is possible and the
    model can be evaluated.

    - [AtomicEnumCell]: [kikiutils::atomic::enum_cell::AtomicEnumCell];
    - [Mpsc]: the bounded channel of [tokio::sync::mpsc];
    - [Notify]: [tokio::sync::Notify], as far as [notify_waiters] goes;
    - [Types]: the payload types a client of the library registers
      ([TypeId::of], [Arc<dyn Any>] and [downcast] of the standard library). *)

From S2P Require Import Prelude Text.
From Stdlib Require Import Ascii.

(** ** [AtomicEnumCell] *)
Class AtomicEnumCell := {
  cell : Type → Type;
  cell_new {S} : S → cell S;
  cell_get {S} : cell S → S;
  cell_store {S} : cell S → S → cell S;
  cell_is {S} `{EqDecision S} : cell S → S → bool;
  cell_ensure {S} `{EqDecision S} : cell S → S → (S → string) → result unit;
  cell_try_transition {S} `{EqDecision S} : cell S → S → S → cell S * result unit;

  cell_get_new {S} (s : S) : cell_get (cell_new s) = s;
  cell_get_store {S} (c : cell S) s : cell_get (cell_store c s) = s;
  cell_is_spec {S} `{EqDecision S} (c : cell S) s :
    cell_is c s = bool_decide (cell_get c = s);
  cell_ensure_spec {S} `{EqDecision S} (c : cell S) s msg :
    cell_ensure c s msg =
      if decide (cell_get c = s) then Ok tt else Err (EMsg (msg (cell_get c)));
  (** compare and exchange: the value changes only when it was the expected one *)
  cell_try_transition_spec {S} `{EqDecision S} (c : cell S) s t :
    cell_get (cell_try_transition c s t).1 = (if decide (cell_get c = s) then t else cell_get c) ∧
    (cell_try_transition c s t).2 = (if decide (cell_get c = s) then Ok tt else Err ETransition);
}.

#[export] Hint Rewrite @cell_get_new @cell_get_store @cell_is_spec @cell_ensure_spec : wsio.

Section cell.
Context `{AtomicEnumCell} {S : Type} `{EqDecision S}.

Lemma cell_try_transition_hit (c : cell S) s t :
  cell_get c = s →
  cell_get (cell_try_transition c s t).1 = t ∧ (cell_try_transition c s t).2 = Ok tt.
Proof. intros <-. destruct (cell_try_transition_spec c (cell_get c) t) as [-> ->]. by case_decide. Qed.

Lemma cell_try_transition_miss (c : cell S) s t :
  cell_get c ≠ s →
  cell_get (cell_try_transition c s t).1 = cell_get c ∧
  (cell_try_transition c s t).2 = Err ETransition.
Proof. intros ?. destruct (cell_try_transition_spec c s t) as [-> ->]. by case_decide. Qed.
End cell.

Definition ref_cell : AtomicEnumCell.
Proof.
  refine {|
    cell := λ S, S;
    cell_new := λ _ s, s;
    cell_get := λ _ c, c;
    cell_store := λ _ _ s, s;
    cell_is := λ _ _ c s, bool_decide (c = s);
    cell_ensure := λ _ _ c s msg, if decide (c = s) then Ok tt else Err (EMsg (msg c));
    cell_try_transition := λ _ _ c s t,
      if decide (c = s) then (t, Ok tt) else (c, Err ETransition);
  |}; try done.
  intros. by case_decide.
Defined.

(** ** Bounded channels *)
Class Mpsc := {
  chan : Type → Type;
  channel {A} : nat → chan A;
  (** the messages sent and not yet received, oldest first *)
  chan_items {A} : chan A → list A;
  chan_cap {A} : chan A → nat;
  (** the receiver is gone *)
  chan_closed {A} : chan A → bool;
  chan_try_send {A} : chan A → A → chan A * result unit;
  (** [send]: [None] while it waits for a free slot *)
  chan_send {A} : chan A → A → option (chan A * result unit);
  (** [try_recv] *)
  chan_try_recv {A} : chan A → chan A * option A;
  (** the [Receiver] is dropped *)
  chan_close {A} : chan A → chan A;

  channel_spec {A} n : chan_items (@channel A n) = [] ∧ chan_cap (@channel A n) = n ∧
    chan_closed (@channel A n) = false;
  chan_try_send_spec {A} (c : chan A) a :
    let full := bool_decide (chan_cap c ≤ length (chan_items c)) in
    let '(c', r) := chan_try_send c a in
    chan_cap c' = chan_cap c ∧ chan_closed c' = chan_closed c ∧
    chan_items c' = (if chan_closed c || full then chan_items c else chan_items c ++ [a]) ∧
    r = (if chan_closed c || full then Err ESend else Ok tt);
  chan_send_spec {A} (c : chan A) a :
    match chan_send c a with
    | None => chan_closed c = false ∧ chan_cap c ≤ length (chan_items c)
    | Some (c', r) =>
        chan_cap c' = chan_cap c ∧ chan_closed c' = chan_closed c ∧
        if chan_closed c then chan_items c' = chan_items c ∧ r = Err ESend
        else length (chan_items c) < chan_cap c ∧
             chan_items c' = chan_items c ++ [a] ∧ r = Ok tt
    end;
  chan_try_recv_spec {A} (c : chan A) :
    let '(c', o) := chan_try_recv c in
    chan_cap c' = chan_cap c ∧ chan_closed c' = chan_closed c ∧
    o = head (chan_items c) ∧ chan_items c' = tail (chan_items c);
  chan_close_spec {A} (c : chan A) :
    chan_closed (chan_close c) = true ∧ chan_cap (chan_close c) = chan_cap c ∧
    ∀ a, a ∈ chan_items (chan_close c) → a ∈ chan_items c;
}.

Record ref_chan (A : Type) := RefChan
  { rc_items : list A; rc_cap : nat; rc_closed : bool }.
Arguments RefChan {A}.
Arguments rc_items {A}.
Arguments rc_cap {A}.
Arguments rc_closed {A}.

Definition ref_push {A} (c : ref_chan A) (a : A) : ref_chan A :=
  RefChan (rc_items c ++ [a]) (rc_cap c) (rc_closed c).

Definition ref_full {A} (c : ref_chan A) : bool := rc_cap c <=? length (rc_items c).

Definition ref_mpsc : Mpsc.
Proof.
  refine {|
    chan := ref_chan;
    channel := λ _ n, RefChan [] n false;
    chan_items := @rc_items;
    chan_cap := @rc_cap;
    chan_closed := @rc_closed;
    chan_try_send := λ _ c a,
      if rc_closed c || ref_full c then (c, Err ESend) else (ref_push c a, Ok tt);
    chan_send := λ _ c a,
      if rc_closed c then Some (c, Err ESend)
      else if ref_full c then None else Some (ref_push c a, Ok tt);
    chan_try_recv := λ _ c,
      (RefChan (tail (rc_items c)) (rc_cap c) (rc_closed c), head (rc_items c));
    chan_close := λ _ c, RefChan (rc_items c) (rc_cap c) true;
  |}; try done.
  - intros A c a full. assert (full = ref_full c) as ->.
    { subst full. unfold ref_full. case_bool_decide; symmetry;
        [by apply Nat.leb_le | by apply Nat.leb_gt; lia]. }
    by destruct (rc_closed c || ref_full c) eqn:E; rewrite ?E.
  - intros A c a. destruct (rc_closed c) eqn:E; [by rewrite E|].
    destruct (ref_full c) eqn:F; unfold ref_full in F.
    + apply Nat.leb_le in F. done.
    + apply Nat.leb_gt in F. by simpl; rewrite E.
Defined.

(** ** [Notify]

    [notified] is what [Notify::notified] registers; [woken n t] says that the
    future [t] is ready.  A future created before a call of [notify_waiters]
    is woken by it, one created after is not. *)
Class Notify := {
  notify : Type;
  ticket : Type;
  notify_new : notify;
  notified : notify → ticket;
  notify_waiters : notify → notify;
  woken : notify → ticket → bool;
  woken_fresh n : woken n (notified n) = false;
  woken_notify n : woken (notify_waiters n) (notified n) = true;
  woken_mono n t : woken n t = true → woken (notify_waiters n) t = true;
}.

Definition ref_notify : Notify.
Proof.
  refine {|
    notify := nat; ticket := nat; notify_new := 0; notified := λ n, n;
    notify_waiters := S; woken := λ n t, t <? n;
  |}.
  - intros. apply Nat.ltb_irrefl.
  - intros. apply Nat.ltb_lt. lia.
  - intros n t. rewrite !Nat.ltb_lt. lia.
Defined.

(** ** Payload types *)
Class Types := {
  ty : Type;
  ty_eq_dec :: EqDecision ty;
  ty_countable :: Countable ty;
  denote : ty → Type;
  ty_unit : ty;
  unit_val : denote ty_unit;
}.

(** [Arc<dyn Any + Send + Sync>]: a value with its [TypeId]. *)
Record any `{Types} := Any { type_id : ty; value : denote type_id }.
Arguments Any {_} type_id value.

Section any.
Context `{Types}.

(** [Arc::downcast::<D>()] *)
Definition downcast (t : ty) (a : any) : option (denote t) :=
  match decide (type_id a = t) with
  | left e => Some (eq_rect _ denote (value a) _ e)
  | right _ => None
  end.

Lemma downcast_same t (v : denote t) : downcast t (Any t v) = Some v.
Proof.
  unfold downcast. simpl. destruct (decide (t = t)) as [e|]; [|done].
  by rewrite (Eqdep_dec.UIP_dec (λ a b, decide (a = b)) e eq_refl).
Qed.

Lemma downcast_other t a : type_id a ≠ t → downcast t a = None.
Proof. intros. unfold downcast. by destruct (decide (type_id a = t)). Qed.
End any.

Definition ref_types : Types := {|
  ty := bool;
  ty_countable := bool_countable;
  denote := λ b, if b then unit else string;
  ty_unit := true;
  unit_val := tt;
|}.

(** ** HTTP

    [http], [form_urlencoded] and the key derivation of the WebSocket
    handshake. *)
Class Http := {
  to_str : bytes → option string; (* [HeaderValue::to_str] *)
  from_str : string → option bytes; (* [HeaderValue::from_str] *)
  parse : string → list (string * string); (* [form_urlencoded::parse] *)
  derive_accept_key : string → string;
}.

(** The [key=value] pairs of a query, joined. *)
Definition query_of (pairs : list (string * string)) : string :=
  join_with "&" ((λ p, p.1 ++ "=" ++ p.2)%string <$> pairs).

Definition plain_pair (p : string * string) : Prop := plain p.1 = true ∧ plain p.2 = true.

(** The characters of a path or a query that [url] leaves alone. *)
Definition query_char (a : ascii) : bool := plain_char a || Ascii.eqb a "&" || Ascii.eqb a "=".

(** ** URLs *)
Class Urls `{Http} := {
  url : Type;
  scheme : url → string;
  url_path : url → string;
  raw_query : url → option string;
  set_query : string → url → url;
  set_path : string → url → url;
  into_client_request : url → result unit; (* whether a request can be made of it *)
  scheme_set_query q u : scheme (set_query q u) = scheme u;
  scheme_set_path p u : scheme (set_path p u) = scheme u;
  path_set_query q u : url_path (set_query q u) = url_path u;
  query_set_path p u : raw_query (set_path p u) = raw_query u;
  query_set_query q u : all_chars query_char q = true → raw_query (set_query q u) = Some q;
  path_set_path p u : plain p = true → String.prefix "/" p = true → url_path (set_path p u) = p;
  path_set_relative p u : plain p = true → String.prefix "/" p = false → url_path (set_path p u) = ("/" ++ p)%string;
  parse_query_of pairs : Forall plain_pair pairs → parse (query_of pairs) = pairs;
}.

(** [Url::query_pairs] *)
Definition query_pairs `{Urls} (u : url) : list (string * string) :=
  parse (default EmptyString (raw_query u)).

(** [form_urlencoded]: [+] is a space, [%XX] a byte. *)
Definition hex_digit (a : ascii) : option nat :=
  let n := nat_of_ascii a in
  if (48 <=? n) && (n <=? 57) then Some (n - 48)
  else if (65 <=? n) && (n <=? 70) then Some (n - 55)
  else if (97 <=? n) && (n <=? 102) then Some (n - 87)
  else None.

Fixpoint ref_decode (s : string) : string :=
  match s with
  | EmptyString => EmptyString
  | String a s1 =>
      if Ascii.eqb a "+" then String " " (ref_decode s1)
      else if Ascii.eqb a "%" then
        match s1 with
        | String h (String l s2) =>
            match hex_digit h, hex_digit l with
            | Some h, Some l => String (ascii_of_nat (16 * h + l)) (ref_decode s2)
            | _, _ => String a (ref_decode s1)
            end
        | _ => String a (ref_decode s1)
        end
      else String a (ref_decode s1)
  end.

Fixpoint split_once (c : ascii) (s : string) : string * string :=
  match s with
  | EmptyString => (EmptyString, EmptyString)
  | String a s => if Ascii.eqb a c then (EmptyString, s) else let '(k, v) := split_once c s in (String a k, v)
  end.

Definition ref_parse (q : string) : list (string * string) :=
  (λ t, let '(k, v) := split_once "=" t in (ref_decode k, ref_decode v)) <$>
    filter (λ t, t ≠ EmptyString) (split_on "&" q).

(** Header values are read as they are, the key is echoed. *)
Definition ref_http : Http := {|
  to_str b := Some (String.string_of_list_byte b);
  from_str s := Some (String.list_byte_of_string s);
  parse := ref_parse;
  derive_accept_key k := k;
|}.

Lemma ref_decode_plain s : plain s = true → ref_decode s = s.
Proof.
  induction s as [|a s IH]; [done|]. intros [Ha Hs]%andb_true_iff. cbn [ref_decode].
  destruct (Ascii.eqb a "+") eqn:E1; [by apply Ascii.eqb_eq in E1 as ->|].
  destruct (Ascii.eqb a "%") eqn:E2; [by apply Ascii.eqb_eq in E2 as ->|]. by rewrite IH.
Qed.

Lemma split_once_plain c k v :
  free_of c k = true → split_once c (k ++ String c v) = (k, v).
Proof.
  induction k as [|a k IH]; intros Hk.
  - change (split_once c (String c v) = (EmptyString, v)). simpl. by rewrite Ascii.eqb_refl.
  - rewrite string_app_cons. simpl in *. apply andb_true_iff in Hk as [Ha Hk].
    destruct (Ascii.eqb a c); [done|]. by rewrite IH.
Qed.

Lemma ref_parse_query_of pairs : Forall plain_pair pairs → ref_parse (query_of pairs) = pairs.
Proof.
  intros Hp. destruct pairs as [|p0 pairs0] eqn:Hpairs; [done|]. rewrite <-Hpairs in *.
  unfold ref_parse, query_of. rewrite split_join.
  - clear Hpairs. induction Hp as [|[k v] pairs [Hk Hv] Hp IH]; [done|]. cbn [fmap list_fmap fst snd].
    rewrite filter_cons_True by by destruct k. cbn [fmap list_fmap].
    change ("=" ++ v)%string with (String "=" v). simpl in *.
    rewrite split_once_plain by by eapply (all_free plain_char).
    rewrite !ref_decode_plain by done. f_equal. exact IH.
  - by rewrite Hpairs.
  - apply Forall_fmap. eapply Forall_impl; [|exact Hp]. intros [k v] [Hk Hv]. simpl in *.
    apply (all_free (λ a, plain_char a || Ascii.eqb a "=")); [done|].
    rewrite !all_chars_app. simpl. rewrite andb_true_iff.
    split; eapply (all_chars_mono plain_char); [|done| |done]; by intros a ->.
Qed.

Record ref_url := RefUrl { ru_scheme : string; ru_path : string; ru_query : option string }.

Definition ref_urls : @Urls ref_http.
Proof.
  refine (@Build_Urls ref_http ref_url ru_scheme ru_path ru_query
    (λ q u, RefUrl (ru_scheme u) (ru_path u) (Some q))
    (λ p u, RefUrl (ru_scheme u) (if String.prefix "/" p then p else ("/" ++ p)%string) (ru_query u))
    (λ _, Ok tt)
    _ _ _ _ _ _ _ _); try done.
  - by intros p u _ ->.
  - by intros p u _ ->.
  - apply ref_parse_query_of.
Defined.
