(* ===== verification/ChannelCapacity.v ===== *)
(** * Channel capacity ([wsio-core/src/lib.rs])

    [channel_capacity_from_websocket_config] derives the size of the internal
    channels from two buffer sizes by floating-point arithmetic.  Floats are
    the standard library's [spec_float] at the precision of [f64] (53, 1024):
    conversion from and to [usize], division, [max] and multiplication are
    written out, and [f64::log2], whose last bits the platform chooses, is a
    parameter. *)

From S2P Require Import Prelude.
From Stdlib Require Import SpecFloat.

(** The part of [tungstenite]'s configuration the program reads or sets. *)
Record WebSocketConfig := {
  max_frame_size : option Z;
  max_message_size : option Z;
  max_write_buffer_size : Z;
  read_buffer_size : Z;
  write_buffer_size : Z;
}.

(** ** [f64] *)
Definition f64 : Type := spec_float.

(** [n as f64] *)
Definition f64_of_Z (n : Z) : f64 := binary_normalize 53 1024 n 0 false.
Definition f64_div : f64 → f64 → f64 := SFdiv 53 1024.
Definition f64_mul : f64 → f64 → f64 := SFmul 53 1024.

(** [f64::max]: the other operand when one is NaN. *)
Definition f64_max (a b : f64) : f64 :=
  match SFcompare a b with
  | Some Lt => b
  | Some _ => a
  | None => match a with S754_nan => b | _ => a end
  end.

(** [f64::round]: to the nearest integer, halves away from zero. *)
Definition f64_round (a : f64) : f64 :=
  match a with
  | S754_finite s m e =>
      if (0 <=? e)%Z then a
      else
        let n := ((Z.pos m + 2 ^ (- e - 1)) / 2 ^ (- e))%Z in
        binary_normalize 53 1024 (if s then - n else n) 0 s
  | _ => a
  end.

Definition usize_max : Z := (2 ^ 64 - 1)%Z.

(** [a as usize]: towards zero, saturating; NaN is 0. *)
Definition f64_as_usize (a : f64) : Z :=
  match a with
  | S754_finite false m e =>
      Z.min usize_max (if (0 <=? e)%Z then Z.pos m * 2 ^ e else Z.pos m / 2 ^ (- e))%Z
  | S754_infinity false => usize_max
  | _ => 0%Z
  end.

(** [Ord::clamp] *)
Definition clamp (n lo hi : Z) : Z :=
  if (n <? lo)%Z then lo else if (hi <? n)%Z then hi else n.

Section capacity.
Context (log2 : f64 → f64).

Definition channel_capacity_from_websocket_config (websocket_config : WebSocketConfig) : Z :=
  let ratio :=
    f64_max (f64_div (f64_of_Z (max_write_buffer_size websocket_config))
               (f64_of_Z (write_buffer_size websocket_config))) (f64_of_Z 1) in
  let capacity := f64_as_usize (f64_round (f64_mul (log2 ratio) (f64_of_Z 256))) in
  clamp capacity 64 16384.

Lemma clamp_bounds n lo hi : (lo ≤ hi)%Z → (lo ≤ clamp n lo hi ≤ hi)%Z.
Proof. intros. unfold clamp. destruct (n <? lo)%Z eqn:?, (hi <? n)%Z eqn:?; lia. Qed.


(** ** Exact ratios *)
Definition pow2_exact : Prop :=
  ∀ k : nat, k ≤ 64 → log2 (f64_of_Z (2 ^ Z.of_nat k)) = f64_of_Z (Z.of_nat k).

Definition spec_float_eqb (a b : f64) : bool :=
  match a, b with
  | S754_zero s, S754_zero t | S754_infinity s, S754_infinity t => Bool.eqb s t
  | S754_nan, S754_nan => true
  | S754_finite s m e, S754_finite t n f => Bool.eqb s t && Pos.eqb m n && Z.eqb e f
  | _, _ => false
  end.

Lemma spec_float_eqb_eq a b : spec_float_eqb a b = true → a = b.
Proof.
  destruct a as [s|s| |s m e], b as [t|t| |t n f]; simpl; try done;
    rewrite ?andb_true_iff, ?Bool.eqb_true_iff, ?Pos.eqb_eq, ?Z.eqb_eq; naive_solver.
Qed.

Definition ratio_check (a b : nat) : bool :=
  spec_float_eqb
    (f64_max (f64_div (f64_of_Z (2 ^ Z.of_nat b)) (f64_of_Z (2 ^ Z.of_nat a))) (f64_of_Z 1))
    (f64_of_Z (2 ^ Z.of_nat (b - a))).

Definition scale_check (k : nat) : bool :=
  (clamp (f64_as_usize (f64_round (f64_mul (f64_of_Z (Z.of_nat k)) (f64_of_Z 256)))) 64 16384
   =? clamp (256 * Z.of_nat k) 64 16384)%Z.

Lemma forallb_seq (P : nat → bool) n k :
  forallb P (seq 0 (S n)) = true → k ≤ n → P k = true.
Proof. rewrite forallb_forall. intros HP ?. apply HP, in_seq. lia. Qed.

Lemma ratio_check_all a b : a ≤ 64 → b ≤ 64 → ratio_check a b = true.
Proof.
  intros Ha Hb.
  apply (forallb_seq (λ a, forallb (ratio_check a) (seq 0 65)) 64 a) in Ha;
    [by apply (forallb_seq _ 64) | by vm_compute].
Qed.

Lemma scale_check_all k : k ≤ 64 → scale_check k = true.
Proof. apply (forallb_seq scale_check 64). by vm_compute. Qed.

(** For buffer sizes that are powers of two the capacity is 256 slots per
    doubling between them, clamped; a maximum below the write buffer size
    counts as no doubling.  [log2] is assumed exact on powers of two. *)
Theorem capacity_of_pow2 (Hlog : pow2_exact) websocket_config (a b : nat) :
  a ≤ 64 → b ≤ 64 →
  write_buffer_size websocket_config = (2 ^ Z.of_nat a)%Z →
  max_write_buffer_size websocket_config = (2 ^ Z.of_nat b)%Z →
  channel_capacity_from_websocket_config websocket_config =
    clamp (256 * Z.of_nat (b - a)) 64 16384.
Proof.
  intros Ha Hb Hw Hm. unfold channel_capacity_from_websocket_config. rewrite Hw, Hm.
  rewrite (spec_float_eqb_eq _ _ (ratio_check_all a b Ha Hb)).
  rewrite Hlog by lia. apply Z.eqb_eq, (scale_check_all (b - a)). lia.
Qed.
End capacity.

(** A [log2] that is exact on powers of two. *)
Definition ref_log2 (a : f64) : f64 :=
  match a with
  | S754_finite false m e => f64_of_Z (Z.log2 (Z.pos m) + e)
  | S754_infinity false => S754_infinity false
  | S754_zero _ => S754_infinity true
  | _ => S754_nan
  end.

Lemma ref_log2_pow2 : pow2_exact ref_log2.
Proof.
  intros k Hk. apply spec_float_eqb_eq.
  apply (forallb_seq (λ k, spec_float_eqb (ref_log2 (f64_of_Z (2 ^ Z.of_nat k)))
    (f64_of_Z (Z.of_nat k))) 64); [by vm_compute | done].
Qed.

Definition sizes (write_buffer max_write_buffer : Z) : WebSocketConfig := {|
  max_frame_size := None; max_message_size := None;
  max_write_buffer_size := max_write_buffer; read_buffer_size := 8192;
  write_buffer_size := write_buffer |}.

(** The cases of the unit test of [lib.rs]. *)
Example capacity_tests :
  map (λ '(w, m), channel_capacity_from_websocket_config ref_log2 (sizes w m))
    [(1024, 1024 * 16); (1024, 512); (1024, 2 ^ 30); (1, 2 ^ 40); (1, usize_max)]%Z =
  [1024; 64; 5120; 10240; 16384]%Z.
Proof. vm_compute. reflexivity. Qed.

(** Division by a zero write buffer: infinite and undefined ratios. *)
Example capacity_zero_write_buffer :
  map (λ m, channel_capacity_from_websocket_config ref_log2 (sizes 0 m)) [0; 1]%Z = [64; 16384]%Z.
Proof. vm_compute. reflexivity. Qed.

Lemma capacity_of_pow2_witness :
  channel_capacity_from_websocket_config ref_log2 (sizes 8192 (2 * 1024 * 1024)) = 2048%Z.
Proof.
  exact (capacity_of_pow2 ref_log2 ref_log2_pow2 (sizes 8192 (2 * 1024 * 1024)) 13 21
    ltac:(lia) ltac:(lia) eq_refl eq_refl).
Defined.
