(* ===== verification/Packet.v ===== *)
(** * Packets ([wsio-core/src/packet/mod.rs]) *)

From S2P Require Import Prelude.

(** [#[repr(u8)]]: the discriminants go over the wire. *)
Inductive WsIoPacketType : Set := Disconnect | Event | Init | Ready.

#[export] Instance packet_type_eq_dec : EqDecision WsIoPacketType.
Proof. solve_decision. Defined.

(** [Serialize_repr] *)
Definition packet_type_repr (t : WsIoPacketType) : Z :=
  match t with Disconnect => 0 | Event => 1 | Init => 2 | Ready => 3 end.

(** [Deserialize_repr]: any other number is an error. *)
Definition packet_type_of_repr (n : Z) : result WsIoPacketType :=
  match n with
  | 0 => Ok Disconnect
  | 1 => Ok Event
  | 2 => Ok Init
  | 3 => Ok Ready
  | _ => Err ECodec
  end%Z.

(** [InnerPacket] and [InnerPacketRef] are tuple structs: the three parts in
    the order type, key, data.  The type is represented by its number. *)
Definition InnerPacket : Type := Z * option string * option bytes.

Record WsIoPacket := {
  data : option bytes;
  key : option string;
  type : WsIoPacketType;
}.

#[export] Instance packet_eq_dec : EqDecision WsIoPacket.
Proof. solve_decision. Defined.

Definition new (type : WsIoPacketType) (key : option string) (data : option bytes) : WsIoPacket :=
  {| data := data; key := key; type := type |}.

Definition from_inner (inner : InnerPacket) : result WsIoPacket :=
  let '(t, k, d) := inner in
  t <-? packet_type_of_repr t ;; Ok {| data := d; key := k; type := t |}.

Definition to_inner_ref (p : WsIoPacket) : InnerPacket :=
  (packet_type_repr (type p), key p, data p).

Definition new_disconnect : WsIoPacket := new Disconnect None None.
Definition new_event (event : string) (data : option bytes) : WsIoPacket :=
  new Event (Some event) data.
Definition new_init (data : option bytes) : WsIoPacket := new Init None data.
Definition new_ready : WsIoPacket := new Ready None None.

Lemma packet_type_of_repr_inv n t : packet_type_of_repr n = Ok t ↔ n = packet_type_repr t.
Proof.
  split; [|by intros ->; destruct t].
  unfold packet_type_of_repr. intros H. by repeat (case_match; try done); simplify_eq.
Qed.

Lemma packet_type_repr_u8 t : (0 ≤ packet_type_repr t < 256)%Z.
Proof. by destruct t. Qed.

Lemma from_to_inner p : from_inner (to_inner_ref p) = Ok p.
Proof. by destruct p as [d k []]. Qed.

Lemma from_inner_ok t k d p :
  from_inner (t, k, d) = Ok p ↔ to_inner_ref p = (t, k, d).
Proof.
  unfold from_inner, to_inner_ref. split.
  - destruct (packet_type_of_repr t) as [t'|] eqn:E; [|done].
    apply packet_type_of_repr_inv in E. simpl. intros [= <-]. simpl. by rewrite E.
  - intros [= <- <- <-]. by destruct p as [d' k' []].
Qed.
