(* ===== verification/Codecs.v ===== *)
(** * Packet codecs ([wsio-core/src/packet/codecs/])

    The five serialisation crates are parameters: [SerdeBackend] is what
    [to_vec] and [from_slice] (or their namesakes) do to the packet tuple and
    to a payload of a registered type.  What the repository adds, and what is
    modelled, is the conversion between packets and tuples, the choice of the
    crate by the codec and the choice between text and binary frames. *)

From S2P Require Import Prelude Extern Packet.

Class SerdeBackend `{Types} := {
  to_vec : InnerPacket → result bytes;
  from_slice : bytes → result InnerPacket;
  to_vec_data (t : ty) : denote t → result bytes;
  from_slice_data (t : ty) : bytes → result (denote t);
  (** what was written is read back; the number is a [u8] *)
  from_to_vec n k d b :
    (0 ≤ n < 256)%Z → to_vec (n, k, d) = Ok b → from_slice b = Ok (n, k, d);
  from_to_vec_data t v b : to_vec_data t v = Ok b → from_slice_data t b = Ok v;
}.

(** The features [packet-codec-*] are all enabled. *)
Class SerdeCrates `{Types} := {
  ciborium : SerdeBackend;
  rmp_serde : SerdeBackend;
  postcard : SerdeBackend;
  serde_json : SerdeBackend;
  sonic_rs : SerdeBackend;
}.

Section codecs.
Context `{T : Types}.

Record PacketCodec := {
  IS_TEXT : bool;
  codec_decode : bytes → result WsIoPacket;
  codec_decode_data : ∀ t : ty, bytes → result (denote t);
  codec_encode : WsIoPacket → result bytes;
  codec_encode_data : ∀ t : ty, denote t → result bytes;
}.

Context `{C : !SerdeCrates}.

Definition WsIoPacketCborCodec : PacketCodec := {|
  IS_TEXT := false;
  codec_decode bytes := inner <-? @from_slice _ ciborium bytes ;; from_inner inner;
  codec_decode_data := @from_slice_data _ ciborium;
  codec_encode packet := @to_vec _ ciborium (to_inner_ref packet);
  codec_encode_data := @to_vec_data _ ciborium;
|}.

Definition WsIoPacketMsgpackCodec : PacketCodec := {|
  IS_TEXT := false;
  codec_decode bytes := inner <-? @from_slice _ rmp_serde bytes ;; from_inner inner;
  codec_decode_data := @from_slice_data _ rmp_serde;
  codec_encode packet := @to_vec _ rmp_serde (to_inner_ref packet);
  codec_encode_data := @to_vec_data _ rmp_serde;
|}.

Definition WsIoPacketPostcardCodec : PacketCodec := {|
  IS_TEXT := false;
  codec_decode bytes := inner <-? @from_slice _ postcard bytes ;; from_inner inner;
  codec_decode_data := @from_slice_data _ postcard;
  codec_encode packet := @to_vec _ postcard (to_inner_ref packet);
  codec_encode_data := @to_vec_data _ postcard;
|}.

Definition WsIoPacketSerdeJsonCodec : PacketCodec := {|
  IS_TEXT := true;
  codec_decode bytes := inner <-? @from_slice _ serde_json bytes ;; from_inner inner;
  codec_decode_data := @from_slice_data _ serde_json;
  codec_encode packet := @to_vec _ serde_json (to_inner_ref packet);
  codec_encode_data := @to_vec_data _ serde_json;
|}.

Definition WsIoPacketSonicRsCodec : PacketCodec := {|
  IS_TEXT := true;
  codec_decode bytes := inner <-? @from_slice _ sonic_rs bytes ;; from_inner inner;
  codec_decode_data := @from_slice_data _ sonic_rs;
  codec_encode packet := @to_vec _ sonic_rs (to_inner_ref packet);
  codec_encode_data := @to_vec_data _ sonic_rs;
|}.
End codecs.

Inductive WsIoPacketCodec : Set := Cbor | Msgpack | Postcard | SerdeJson | SonicRs.

#[export] Instance codec_eq_dec : EqDecision WsIoPacketCodec.
Proof. solve_decision. Defined.

(** [tungstenite::Message]; the close reason is not used. *)
Inductive Message : Set :=
| Text (payload : bytes)
| Binary (payload : bytes)
| Ping (payload : bytes)
| Pong (payload : bytes)
| Close
| Frame (payload : bytes).

#[export] Instance message_eq_dec : EqDecision Message.
Proof. solve_decision. Defined.

Definition payload (m : Message) : bytes :=
  match m with
  | Text b | Binary b | Ping b | Pong b | Frame b => b
  | Close => []
  end.

Section dispatch.
Context `{T : Types} `{C : !SerdeCrates}.

Definition decode (self : WsIoPacketCodec) (bytes : bytes) : result WsIoPacket :=
  match self with
  | Cbor => codec_decode WsIoPacketCborCodec bytes
  | Msgpack => codec_decode WsIoPacketMsgpackCodec bytes
  | Postcard => codec_decode WsIoPacketPostcardCodec bytes
  | SerdeJson => codec_decode WsIoPacketSerdeJsonCodec bytes
  | SonicRs => codec_decode WsIoPacketSonicRsCodec bytes
  end.

Definition decode_data (self : WsIoPacketCodec) (t : ty) (bytes : bytes) : result (denote t) :=
  match self with
  | Cbor => codec_decode_data WsIoPacketCborCodec t bytes
  | Msgpack => codec_decode_data WsIoPacketMsgpackCodec t bytes
  | Postcard => codec_decode_data WsIoPacketPostcardCodec t bytes
  | SerdeJson => codec_decode_data WsIoPacketSerdeJsonCodec t bytes
  | SonicRs => codec_decode_data WsIoPacketSonicRsCodec t bytes
  end.

Definition encode (self : WsIoPacketCodec) (packet : WsIoPacket) : result bytes :=
  match self with
  | Cbor => codec_encode WsIoPacketCborCodec packet
  | Msgpack => codec_encode WsIoPacketMsgpackCodec packet
  | Postcard => codec_encode WsIoPacketPostcardCodec packet
  | SerdeJson => codec_encode WsIoPacketSerdeJsonCodec packet
  | SonicRs => codec_encode WsIoPacketSonicRsCodec packet
  end.

Definition encode_data (self : WsIoPacketCodec) (t : ty) (data : denote t) : result bytes :=
  match self with
  | Cbor => codec_encode_data WsIoPacketCborCodec t data
  | Msgpack => codec_encode_data WsIoPacketMsgpackCodec t data
  | Postcard => codec_encode_data WsIoPacketPostcardCodec t data
  | SerdeJson => codec_encode_data WsIoPacketSerdeJsonCodec t data
  | SonicRs => codec_encode_data WsIoPacketSonicRsCodec t data
  end.

Definition is_text (self : WsIoPacketCodec) : bool :=
  match self with
  | Cbor => IS_TEXT WsIoPacketCborCodec
  | Msgpack => IS_TEXT WsIoPacketMsgpackCodec
  | Postcard => IS_TEXT WsIoPacketPostcardCodec
  | SerdeJson => IS_TEXT WsIoPacketSerdeJsonCodec
  | SonicRs => IS_TEXT WsIoPacketSonicRsCodec
  end.

(** One crate: the repository's conversions invert each other. *)
Lemma backend_roundtrip (B : SerdeBackend) p b :
  to_vec (to_inner_ref p) = Ok b →
  (inner <-? from_slice b ;; from_inner inner) = Ok p.
Proof.
  intros E. unfold to_inner_ref in E.
  rewrite (from_to_vec _ _ _ _ (packet_type_repr_u8 _) E). apply from_to_inner.
Qed.

Lemma decode_encode_ok self p b : encode self p = Ok b → decode self b = Ok p.
Proof. destruct self; apply backend_roundtrip. Qed.

(** The frame of an encoded packet. *)
Definition message_of (codec : WsIoPacketCodec) (b : bytes) : Message :=
  if is_text codec then Text b else Binary b.

(** A frame that is read as the packet [p]. *)
Definition carries (self : WsIoPacketCodec) (m : Message) (p : WsIoPacket) : Prop :=
  ∃ b, (m = Binary b ∨ m = Text b) ∧ decode self b = Ok p.

Lemma message_carries self p q b :
  encode self p = Ok b → carries self (message_of self b) q → q = p.
Proof.
  intros Hb%decode_encode_ok (b' & Hm & Hq). unfold message_of in Hm.
  destruct (is_text self), Hm; simplify_eq; by rewrite Hb in Hq; simplify_eq.
Qed.

Lemma decode_encode_data_ok self t v b :
  encode_data self t v = Ok b → decode_data self t b = Ok v.
Proof. destruct self; apply from_to_vec_data. Qed.

(** The tuple behind a decoded packet carries the discriminant of its type. *)
Lemma backend_decode_repr (B : SerdeBackend) b p :
  (inner <-? from_slice b ;; from_inner inner) = Ok p →
  from_slice b = Ok (packet_type_repr (type p), key p, data p).
Proof.
  destruct (from_slice b) as [[[t k] d]|]; simpl; [|done].
  intros Hp. apply from_inner_ok in Hp as [= <- <- <-]. done.
Qed.
End dispatch.

(** ** A concrete crate

    Byte strings behind their length in unary; enough to evaluate the model. *)
Definition put_bytes (l : bytes) : bytes :=
  replicate (length l) Byte.x01 ++ Byte.x00 :: l.

Fixpoint get_len (l : bytes) : option (nat * bytes) :=
  match l with
  | [] => None
  | Byte.x00 :: l => Some (0, l)
  | _ :: l => '(n, l) ← get_len l; Some (S n, l)
  end.

Definition get_bytes (l : bytes) : option (bytes * bytes) :=
  '(n, l) ← get_len l; Some (take n l, drop n l).

Definition put_opt (o : option bytes) : bytes :=
  match o with None => [Byte.x00] | Some l => Byte.x01 :: put_bytes l end.

Definition get_opt (l : bytes) : option (option bytes * bytes) :=
  match l with
  | Byte.x00 :: l => Some (None, l)
  | _ :: l => '(b, l) ← get_bytes l; Some (Some b, l)
  | [] => None
  end.

Lemma get_put_bytes l r : get_bytes (put_bytes l ++ r) = Some (l, r).
Proof.
  unfold get_bytes, put_bytes. rewrite <-app_assoc. simpl.
  assert (∀ n, get_len (replicate n Byte.x01 ++ Byte.x00 :: l ++ r) = Some (n, l ++ r)) as ->.
  { induction n as [|n IH]; simpl; [done | by rewrite IH]. }
  simpl. by rewrite take_app_length, drop_app_length.
Qed.

Lemma get_put_opt o r : get_opt (put_opt o ++ r) = Some (o, r).
Proof. destruct o as [l|]; simpl; [by rewrite get_put_bytes | done]. Qed.

Definition ref_to_vec (p : InnerPacket) : result bytes :=
  let '(n, k, d) := p in
  match Byte.of_N (Z.to_N n) with
  | Some b => Ok (b :: put_opt (String.list_byte_of_string <$> k) ++ put_opt d)
  | None => Err ECodec
  end.

Definition ref_from_slice (l : bytes) : result InnerPacket :=
  match l with
  | [] => Err ECodec
  | b :: l =>
      match get_opt l with
      | None => Err ECodec
      | Some (k, l) =>
          match get_opt l with
          | Some (d, []) => Ok (Z.of_N (Byte.to_N b), String.string_of_list_byte <$> k, d)
          | _ => Err ECodec
          end
      end
  end.

Lemma ref_from_to_vec n k d b :
  (0 ≤ n < 256)%Z → ref_to_vec (n, k, d) = Ok b → ref_from_slice b = Ok (n, k, d).
Proof.
  intros Hn. unfold ref_to_vec. destruct (Byte.of_N (Z.to_N n)) as [c|] eqn:E; [|done].
  intros [= <-]. simpl. rewrite get_put_opt. rewrite <-(app_nil_r (put_opt d)), get_put_opt.
  apply Byte.to_of_N in E. rewrite E, Z2N.id by lia. do 3 f_equal.
  destruct k as [k|]; simpl; [by rewrite String.string_of_list_byte_of_string | done].
Qed.

Definition ref_backend : @SerdeBackend ref_types.
Proof.
  refine (@Build_SerdeBackend ref_types ref_to_vec ref_from_slice
    (λ t, match t return @denote ref_types t → result bytes with
          | true => λ _, Ok [] | false => λ s, Ok (String.list_byte_of_string s) end)
    (λ t, match t return bytes → result (@denote ref_types t) with
          | true => λ b, if decide (b = []) then Ok tt else Err ECodec
          | false => λ b, Ok (String.string_of_list_byte b) end)
    ref_from_to_vec _).
  intros [] v b; simpl; intros [= <-].
  - by destruct v.
  - by rewrite String.string_of_list_byte_of_string.
Defined.

Definition ref_crates : @SerdeCrates ref_types :=
  Build_SerdeCrates ref_types ref_backend ref_backend ref_backend ref_backend ref_backend.
