(* ===== verification/EventRegistry.v ===== *)
(** * Event registry ([wsio-core/src/event/registry.rs])

    A registry maps event names to entries; an entry is shared ([Arc]), so a
    dispatch that has found one keeps it while the name is unregistered or
    registered again.  Entries live in a heap and the map holds addresses.

    Lock granularity: a section that holds the lock of [event_entries] is one
    atomic operation.  [off_by_handler_id] takes that lock twice, so it is two
    operations, and a dispatch is two: the lookup, and the spawned task. *)

From S2P Require Import Prelude Async Extern Packet Codecs.

Section registry.
Context `{T : Types} `{C : !SerdeCrates}.
(** the connection or session given to handlers, and the futures they return *)
Context {Ctx Fut : Type}.

(** The closure [on] builds: the type it was registered with and the user's
    function. *)
Record Handler := {
  handler_type_id : ty;
  handler_fn : Ctx → denote handler_type_id → Fut;
}.

Record EventEntry := {
  data_decoder : ty; (* [decode_data_as_any_arc::<D>], by its [D] *)
  data_type_id : ty;
  handlers : gmap Z Handler;
}.
#[global] Instance eta_entry : Eta EventEntry :=
  λ e, Build_EventEntry (data_decoder e) (data_type_id e) (handlers e).

Record WsIoEventRegistry := {
  event_entries : gmap string nat;
  entry_heap : gmap nat EventEntry;
  next_handler_id : Z; (* [AtomicU32] *)
}.
#[global] Instance eta_registry : Eta WsIoEventRegistry :=
  λ r, Build_WsIoEventRegistry (event_entries r) (entry_heap r) (next_handler_id r).

Definition registry_new : WsIoEventRegistry :=
  {| event_entries := ∅; entry_heap := ∅; next_handler_id := 0 |}.

(** ** [on] *)

Inductive on_result : Type :=
| Registered (r : WsIoEventRegistry) (handler_id : Z)
| TypeMismatch. (* the [assert_eq!] fails; nothing has been changed *)

Definition add_handler (p : nat) (h : Handler) (r : WsIoEventRegistry) : on_result :=
  let handler_id := next_handler_id r in
  Registered
    (r .[ next_handler_id := wrap32 (handler_id + 1) ]
       .[ entry_heap := alter (λ e, e .[ handlers := <[handler_id := h]> (handlers e) ]) p
            (entry_heap r) ])
    handler_id.

Definition on (event : string) (h : Handler) (r : WsIoEventRegistry) : on_result :=
  match event_entries r !! event ≫= λ p, (p,.) <$> entry_heap r !! p with
  | Some (p, e) =>
      if decide (data_type_id e = handler_type_id h) then add_handler p h r
      else TypeMismatch
  | None =>
      let p := fresh (dom (entry_heap r)) in
      let e := {| data_decoder := handler_type_id h;
                  data_type_id := handler_type_id h; handlers := ∅ |} in
      add_handler p h
        (r .[ event_entries := <[event := p]> (event_entries r) ]
           .[ entry_heap := <[p := e]> (entry_heap r) ])
  end.

(** ** [off], [off_by_handler_id] *)

Definition off (event : string) (r : WsIoEventRegistry) : WsIoEventRegistry :=
  r .[ event_entries := delete event (event_entries r) ].

Definition entry_of (event : string) (r : WsIoEventRegistry) : option EventEntry :=
  event_entries r !! event ≫= λ p, entry_heap r !! p.

(** Under the read lock: remove the handler and look whether others remain. *)
Definition off_handler (event : string) (handler_id : Z) (r : WsIoEventRegistry) :
    WsIoEventRegistry * bool :=
  match event_entries r !! event with
  | Some p =>
      let r' := r .[ entry_heap :=
        alter (λ e, e .[ handlers := delete handler_id (handlers e) ]) p (entry_heap r) ] in
      (r', match entry_heap r' !! p with
           | Some e => negb (bool_decide (handlers e = ∅))
           | None => false
           end)
  | None => (r, false)
  end.

(** Under the write lock: remove the entry if it is (still) empty. *)
Definition off_if_empty (event : string) (r : WsIoEventRegistry) : WsIoEventRegistry :=
  match entry_of event r with
  | Some e =>
      if bool_decide (handlers e = ∅)
      then r .[ event_entries := delete event (event_entries r) ] else r
  | None => r
  end.

Definition off_by_handler_id (event : string) (handler_id : Z) :
    prog WsIoEventRegistry Empty_set Empty_set unit :=
  Atom (λ r, Some (off_handler event handler_id r).1) (λ r,
    if (off_handler event handler_id r).2 then Ret tt
    else modify (off_if_empty event)).

(** ** Dispatch *)

Definition decode_data_as_any_arc (D : ty) (bytes : bytes) (packet_codec : WsIoPacketCodec) :
    result any :=
  v <-? decode_data packet_codec D bytes ;; Ok (Any D v).

(** What a call of a registered closure comes to. *)
Inductive handler_call : Type :=
| Call (fut : Fut)
| Skip
| ExpectFailed.

Definition call_handler (h : Handler) (ctx : Ctx) (data : any) : handler_call :=
  if bool_decide (type_id data ≠ handler_type_id h) then Skip
  else match downcast (handler_type_id h) data with
       | Some v => Call (handler_fn h ctx v)
       | None => ExpectFailed
       end.

(** The task spawned once the entry [p] was found. *)
Definition dispatch_task (p : nat) (ctx : Ctx) (packet_codec : WsIoPacketCodec)
    (packet_data : option bytes) (r : WsIoEventRegistry) : list handler_call :=
  match entry_heap r !! p with
  | None => []
  | Some e =>
      match (match packet_data with
             | Some bytes => decode_data_as_any_arc (data_decoder e) bytes packet_codec
             | None => Ok (Any ty_unit unit_val)
             end) with
      | Ok data => (λ '(_, h), call_handler h ctx data) <$> map_to_list (handlers e)
      | Err _ => []
      end
  end.

(** The type of a payload is compared before it is downcast. *)
Lemma call_handler_expect h ctx d : call_handler h ctx d ≠ ExpectFailed.
Proof.
  unfold call_handler. destruct h as [D f], d as [D' v]. case_bool_decide as Ht; [done|].
  simpl in *. subst D'. by rewrite downcast_same.
Qed.

Lemma dispatch_expect p ctx codec d r : ExpectFailed ∉ dispatch_task p ctx codec d r.
Proof.
  unfold dispatch_task. destruct (entry_heap r !! p) as [e|]; [|by intros ?%not_elem_of_nil].
  destruct (match d with Some _ => _ | None => _ end) as [v|]; [|by intros ?%not_elem_of_nil].
  intros ([i h] & Hh & _)%list_elem_of_fmap. by destruct (call_handler_expect h ctx v).
Qed.

Definition dispatch_event_packet (ctx : Ctx) (event : string) (packet_codec : WsIoPacketCodec)
    (packet_data : option bytes) : prog WsIoEventRegistry Empty_set Empty_set (list handler_call) :=
  entry <- gets (λ r, event_entries r !! event) ;;
  match entry with
  | None => Ret []
  | Some p => gets (dispatch_task p ctx packet_codec packet_data)
  end.

(** ** Sequences of complete operations *)
Inductive reg_op : Type :=
| OpOn (event : string) (h : Handler)
| OpOff (event : string)
| OpOffId (event : string) (handler_id : Z).

Definition exec (o : reg_op) (r : WsIoEventRegistry) : WsIoEventRegistry :=
  match o with
  | OpOn event h => match on event h r with Registered r' _ => r' | TypeMismatch => r end
  | OpOff event => off event r
  | OpOffId event i => final (run [] (off_by_handler_id event i) r).2
  end.

Definition exec_all (os : list reg_op) : WsIoEventRegistry := foldr exec registry_new os.

(** ** The abstract registry: names to typed handler tables, nothing shared *)
Abbreviation spec := (gmap string (ty * gmap Z Handler)).

Definition spec_exec (o : reg_op) (s : spec * Z) : spec * Z :=
  let '(m, next) := s in
  match o with
  | OpOn event h =>
      match m !! event with
      | Some (t, hs) =>
          if decide (t = handler_type_id h)
          then (<[event := (t, <[next := h]> hs)]> m, wrap32 (next + 1)) else (m, next)
      | None => (<[event := (handler_type_id h, {[next := h]})]> m, wrap32 (next + 1))
      end
  | OpOff event => (delete event m, next)
  | OpOffId event i =>
      (match m !! event with
       | Some (t, hs) =>
           if decide (delete i hs = ∅) then delete event m
           else <[event := (t, delete i hs)]> m
       | None => m
       end, next)
  end.

Definition view_entry (e : EventEntry) : ty * gmap Z Handler := (data_type_id e, handlers e).

Definition view (r : WsIoEventRegistry) : spec :=
  omap (λ p, view_entry <$> entry_heap r !! p) (event_entries r).

Lemma view_lookup r event : view r !! event = view_entry <$> entry_of event r.
Proof.
  unfold view, entry_of. rewrite lookup_omap.
  destruct (event_entries r !! event); simpl; [|done]. by destruct (entry_heap r !! _).
Qed.

(** ** Well-formed registries *)
Record registry_ok (r : WsIoEventRegistry) : Prop := {
  ok_live event p : event_entries r !! event = Some p → is_Some (entry_heap r !! p);
  ok_inj e1 e2 p :
    event_entries r !! e1 = Some p → event_entries r !! e2 = Some p → e1 = e2;
  ok_decoder p e : entry_heap r !! p = Some e → data_decoder e = data_type_id e;
  ok_types p e i h : entry_heap r !! p = Some e → handlers e !! i = Some h →
    handler_type_id h = data_type_id e;
}.

(** An entry that is registered has a handler. *)
Definition no_empty (r : WsIoEventRegistry) : Prop :=
  ∀ event e, entry_of event r = Some e → handlers e ≠ ∅.

Lemma registry_new_ok : registry_ok registry_new ∧ no_empty registry_new.
Proof. split; [split; simpl; intros *; by rewrite ?lookup_empty|]. by intros ev e. Qed.

Lemma entry_of_Some event r e :
  entry_of event r = Some e ↔
  ∃ p, event_entries r !! event = Some p ∧ entry_heap r !! p = Some e.
Proof. unfold entry_of. rewrite bind_Some. done. Qed.

(** Changing the entry one name points to changes that name's entry only. *)
Lemma entry_of_alter r f event p ev n :
  registry_ok r → event_entries r !! event = Some p →
  entry_of ev (Build_WsIoEventRegistry (event_entries r) (alter f p (entry_heap r)) n) =
    if decide (ev = event) then f <$> entry_of ev r else entry_of ev r.
Proof.
  intros Hok Hp. unfold entry_of. simpl. case_decide as Hev.
  - subst. rewrite Hp. simpl. by rewrite lookup_alter_eq.
  - destruct (event_entries r !! ev) as [q|] eqn:Hq; simpl; [|done].
    rewrite lookup_alter_ne; [done|]. intros ->. by eapply Hev, ok_inj.
Qed.

(** Any change of one live entry's handlers that keeps their types keeps the
    registry well-formed. *)
Lemma alter_entry_ok r p n (f : gmap Z Handler → gmap Z Handler) :
  registry_ok r →
  (∀ e i h, entry_heap r !! p = Some e → f (handlers e) !! i = Some h →
     handler_type_id h = data_type_id e) →
  registry_ok (Build_WsIoEventRegistry (event_entries r)
    (alter (λ e, e .[ handlers := f (handlers e) ]) p (entry_heap r)) n).
Proof.
  intros Hok Hf. split; simpl.
  - intros ev q Hq. apply (ok_live r Hok) in Hq. rewrite lookup_alter.
    case_decide; [subst; by apply fmap_is_Some | done].
  - intros e1 e2 q. by apply ok_inj.
  - intros q e. rewrite lookup_alter. case_decide; [|by apply ok_decoder].
    subst. intros (e0 & He0 & ->)%fmap_Some. simpl. by eapply ok_decoder.
  - intros q e i h. rewrite lookup_alter. case_decide; [|by apply ok_types].
    subst. intros (e0 & He0 & ->)%fmap_Some. simpl. by apply Hf.
Qed.

Lemma delete_entry_ok r event :
  registry_ok r →
  registry_ok (Build_WsIoEventRegistry (delete event (event_entries r)) (entry_heap r)
    (next_handler_id r)).
Proof.
  intros Hok. split; simpl.
  - intros ev q [_ Hq]%lookup_delete_Some. by eapply ok_live.
  - intros e1 e2 q [_ H1]%lookup_delete_Some [_ H2]%lookup_delete_Some. by eapply ok_inj.
  - by apply ok_decoder.
  - by apply ok_types.
Qed.

Lemma insert_entry_ok r event p e :
  registry_ok r → entry_heap r !! p = None → data_decoder e = data_type_id e →
  handlers e = ∅ →
  registry_ok (Build_WsIoEventRegistry (<[event := p]> (event_entries r))
    (<[p := e]> (entry_heap r)) (next_handler_id r)).
Proof.
  intros Hok Hp Hd He.
  assert (Hne : ∀ ev q, event_entries r !! ev = Some q → q ≠ p).
  { intros ev q Hq ->. apply (ok_live r Hok) in Hq as [? Hq]. congruence. }
  split; simpl.
  - intros ev q. rewrite lookup_insert. case_decide.
    + intros [= <-]. rewrite lookup_insert_eq. eauto.
    + intros Hq. rewrite lookup_insert_ne by naive_solver. by eapply ok_live.
  - intros e1 e2 q. rewrite !lookup_insert. repeat case_decide; subst; try congruence.
    + intros [= <-] Hq. by apply Hne in Hq.
    + intros Hq [= <-]. by apply Hne in Hq.
    + by apply ok_inj.
  - intros q e0. rewrite lookup_insert. case_decide; [by intros [= <-] | by eapply ok_decoder].
  - intros q e0 i h. rewrite lookup_insert. case_decide; [|by apply ok_types].
    intros [= <-]. by rewrite He, lookup_empty.
Qed.

Lemma add_handler_spec p h r event e :
  registry_ok r → event_entries r !! event = Some p → entry_heap r !! p = Some e →
  data_type_id e = handler_type_id h →
  ∃ r', add_handler p h r = Registered r' (next_handler_id r) ∧ registry_ok r' ∧
    next_handler_id r' = wrap32 (next_handler_id r + 1) ∧
    ∀ ev, entry_of ev r' =
      if decide (ev = event)
      then Some (e .[ handlers := <[next_handler_id r := h]> (handlers e) ])
      else entry_of ev r.
Proof.
  intros Hok Hev He Ht. eexists. split; [done|]. split_and!; [|done|].
  - refine (alter_entry_ok r p _ (<[next_handler_id r := h]>) Hok _).
    intros e0 i h0 He0. simplify_eq. rewrite lookup_insert. case_decide; [by intros [= <-] | by eapply ok_types].
  - intros ev. unfold update. simpl.
    etrans; [by apply (entry_of_alter r _ event)|]. case_decide; [|done].
    subst. unfold entry_of. rewrite Hev. simpl. by rewrite He.
Qed.

(** What [on] does, on each branch. *)
Lemma on_spec event h r :
  registry_ok r →
  match on event h r with
  | Registered r' i =>
      i = next_handler_id r ∧ registry_ok r' ∧
      next_handler_id r' = wrap32 (next_handler_id r + 1) ∧
      ∃ hs, hs = default ∅ (handlers <$> entry_of event r) ∧
        (∀ e, entry_of event r = Some e → data_type_id e = handler_type_id h) ∧
        ∀ ev, view_entry <$> entry_of ev r' =
          if decide (ev = event) then Some (handler_type_id h, <[i := h]> hs)
          else view_entry <$> entry_of ev r
  | TypeMismatch => ∃ e, entry_of event r = Some e ∧ data_type_id e ≠ handler_type_id h
  end.
Proof.
  intros Hok. unfold on.
  destruct (event_entries r !! event) as [p|] eqn:Hp; cbn [mbind option_bind].
  - destruct (ok_live r Hok _ _ Hp) as [e He]. rewrite He. cbn [fmap option_fmap option_map].
    assert (entry_of event r = Some e) as Hent by (apply entry_of_Some; eauto).
    case_decide as Ht; [|eauto].
    destruct (add_handler_spec p h r event e) as (r' & -> & Hok' & Hn & Hv); try done.
    split_and!; try done. exists (handlers e). split_and!.
    + by rewrite Hent.
    + intros e'. by rewrite Hent; intros [= <-].
    + intros ev. rewrite Hv. case_decide; [|done]. by unfold view_entry; simpl; rewrite Ht.
  - set (q := fresh (dom (entry_heap r))).
    assert (entry_heap r !! q = None) as Hq by apply not_elem_of_dom, is_fresh.
    assert (entry_of event r = None) as Hent by (unfold entry_of; by rewrite Hp).
    set (e := {| data_decoder := handler_type_id h; data_type_id := handler_type_id h;
                 handlers := ∅ |}).
    set (r0 := r .[ event_entries := <[event := q]> (event_entries r) ]
                 .[ entry_heap := <[q := e]> (entry_heap r) ]).
    assert (registry_ok r0) as Hok0 by (by apply (insert_entry_ok r event q e)).
    destruct (add_handler_spec q h r0 event e) as (r' & -> & Hok' & Hn & Hv); try done.
    { subst r0. simpl. by rewrite lookup_insert_eq. }
    { subst r0. simpl. by rewrite lookup_insert_eq. }
    split_and!; try done. exists ∅. rewrite Hent. split_and!; try done.
    intros ev. rewrite Hv. case_decide as Hev; [done|].
    unfold entry_of, r0. simpl. rewrite lookup_insert_ne by congruence.
    destruct (event_entries r !! ev) as [p|] eqn:Hp'; simpl; [|done].
    rewrite lookup_insert_ne; [done|]. intros <-.
    apply (ok_live r Hok) in Hp' as [? ?]. congruence.
Qed.

Lemma entry_of_delete r event ev n :
  entry_of ev (Build_WsIoEventRegistry (delete event (event_entries r)) (entry_heap r) n) =
    if decide (ev = event) then None else entry_of ev r.
Proof.
  unfold entry_of. simpl. case_decide.
  - subst. by rewrite lookup_delete_eq.
  - by rewrite lookup_delete_ne.
Qed.

(** The effect of the section under the read lock. *)
Lemma off_handler_spec event i r :
  registry_ok r →
  let '(r', more) := off_handler event i r in
  registry_ok r' ∧ next_handler_id r' = next_handler_id r ∧
  more = match entry_of event r with
         | Some e => negb (bool_decide (delete i (handlers e) = ∅))
         | None => false
         end ∧
  ∀ ev, entry_of ev r' =
    if decide (ev = event)
    then (λ e, e .[ handlers := delete i (handlers e) ]) <$> entry_of ev r
    else entry_of ev r.
Proof.
  intros Hok. unfold off_handler.
  destruct (event_entries r !! event) as [p|] eqn:Hp.
  - destruct (ok_live r Hok _ _ Hp) as [e He].
    assert (entry_of event r = Some e) as -> by (apply entry_of_Some; eauto).
    split_and!; [|done| |].
    + refine (alter_entry_ok r p _ (delete i) Hok _).
      intros e0 j h He0 [_ Hj]%lookup_delete_Some. by eapply ok_types.
    + simpl. rewrite lookup_alter_eq, He. done.
    + intros ev. by apply (entry_of_alter r _ event).
  - assert (entry_of event r = None) as Hn by (unfold entry_of; by rewrite Hp).
    rewrite Hn. split_and!; try done. intros ev. case_decide; [|done].
    subst. by rewrite Hn.
Qed.

Lemma off_if_empty_ok event r : registry_ok r → registry_ok (off_if_empty event r).
Proof.
  intros Hok. unfold off_if_empty. destruct (entry_of event r); [|done].
  case_bool_decide; [by apply delete_entry_ok | done].
Qed.

Lemma exec_off_id event i r :
  exec (OpOffId event i) r =
    if (off_handler event i r).2 then (off_handler event i r).1
    else off_if_empty event (off_handler event i r).1.
Proof. simpl. by destruct (off_handler event i r).2. Qed.

Lemma off_id_spec event i r :
  registry_ok r →
  registry_ok (exec (OpOffId event i) r) ∧
  next_handler_id (exec (OpOffId event i) r) = next_handler_id r ∧
  ∀ ev, view_entry <$> entry_of ev (exec (OpOffId event i) r) =
    if decide (ev = event)
    then e ← entry_of event r;
         if decide (delete i (handlers e) = ∅) then None
         else Some (data_type_id e, delete i (handlers e))
    else view_entry <$> entry_of ev r.
Proof.
  intros Hok. rewrite exec_off_id. pose proof (off_handler_spec event i r Hok) as Hs.
  destruct (off_handler event i r) as [r1 more]. simpl.
  destruct Hs as (Hok1 & Hn & Hmore & Hv).
  assert (He := Hv event). rewrite decide_True in He by done.
  destruct (entry_of event r) as [e|] eqn:Hev; simpl in *; subst more.
  - case_bool_decide as Hd; simpl.
    + unfold off_if_empty. rewrite He, bool_decide_eq_true_2 by done.
      split_and!; [by apply delete_entry_ok | done|]. intros ev. unfold update. cbn.
      rewrite entry_of_delete, Hv. by repeat case_decide.
    + split_and!; [done..|]. intros ev. rewrite Hv.
      repeat case_decide; subst; rewrite ?Hev; try done.
  - unfold off_if_empty. rewrite He. split_and!; [done..|]. intros ev. rewrite Hv.
    case_decide; [|done]. subst. by rewrite Hev.
Qed.

(** ** Refinement *)
Lemma exec_ok o r :
  registry_ok r → no_empty r → registry_ok (exec o r) ∧ no_empty (exec o r).
Proof.
  intros Hok Hne. destruct o as [ev h|ev|ev i].
  - simpl. pose proof (on_spec ev h r Hok) as Hs. destruct (on ev h r) as [r' i|]; [|done].
    destruct Hs as (-> & Hok' & _ & hs & _ & _ & Hv). split; [done|].
    intros ev' e He. specialize (Hv ev'). rewrite He in Hv. case_decide; simpl in *.
    + injection Hv as _ ->. apply insert_non_empty.
    + destruct (entry_of ev' r) as [e'|] eqn:E; [|done]. injection Hv as _ ->. by eapply Hne.
  - split; [by apply delete_entry_ok|]. intros ev' e. unfold exec, off, update. cbn.
    rewrite entry_of_delete. case_decide; [done | by apply Hne].
  - destruct (off_id_spec ev i r Hok) as (Hok' & _ & Hv). split; [done|].
    intros ev' e He. specialize (Hv ev'). rewrite He in Hv. case_decide; simpl in *.
    + destruct (entry_of ev r) as [e'|]; simpl in *; [|done].
      case_decide; [done|]. by injection Hv as _ ->.
    + destruct (entry_of ev' r) as [e'|] eqn:E; [|done]. injection Hv as _ ->. by eapply Hne.
Qed.

Lemma exec_all_ok os : registry_ok (exec_all os) ∧ no_empty (exec_all os).
Proof.
  induction os as [|o os [Hok Hne]]; [apply registry_new_ok | by apply exec_ok].
Qed.

Lemma exec_refines o r :
  registry_ok r → no_empty r →
  (view (exec o r), next_handler_id (exec o r)) = spec_exec o (view r, next_handler_id r).
Proof.
  intros Hok Hne. destruct o as [ev h|ev|ev i]; cbn [spec_exec].
  - simpl. pose proof (on_spec ev h r Hok) as Hs. rewrite view_lookup.
    destruct (on ev h r) as [r' i|].
    + destruct Hs as (-> & Hok' & Hn & hs & Hhs & Ht & Hv).
      rewrite Hn. destruct (entry_of ev r) as [e|] eqn:He; simpl in *.
      * rewrite decide_True by (by apply Ht). f_equal. apply map_eq. intros ev'.
        rewrite view_lookup, Hv, lookup_insert. unfold view_entry. subst hs.
        repeat case_decide; subst; try done; [by rewrite (Ht e) | by rewrite view_lookup].
      * f_equal. apply map_eq. intros ev'. rewrite view_lookup, Hv, lookup_insert. subst hs.
        repeat case_decide; subst; try done. by rewrite view_lookup.
    + destruct Hs as (e & He & Ht). rewrite He. simpl. by rewrite decide_False.
  - f_equal. apply map_eq. intros ev'. rewrite view_lookup, lookup_delete, view_lookup.
    unfold exec, off, update. cbn. rewrite entry_of_delete.
    repeat case_decide; try congruence; done.
  - destruct (off_id_spec ev i r Hok) as (Hok' & Hn & Hv). rewrite Hn. f_equal.
    apply map_eq. intros ev'. rewrite view_lookup, Hv, view_lookup.
    destruct (entry_of ev r) as [e|] eqn:He; simpl.
    + destruct (decide (delete i (handlers e) = ∅)).
      * rewrite lookup_delete, view_lookup. repeat case_decide; congruence.
      * rewrite lookup_insert, view_lookup. repeat case_decide; congruence.
    + rewrite view_lookup. case_decide; [|done]. subst. by rewrite He.
Qed.

(** C12: after any sequence of [on], [off] and [off_by_handler_id], with
    panicking [on] calls (a second payload type) included, the heap of shared
    entries represents exactly the table of the abstract registry. *)
Theorem registry_refines_spec os :
  (view (exec_all os), next_handler_id (exec_all os)) = foldr spec_exec (∅, 0%Z) os.
Proof.
  induction os as [|o os IH]; [done|]. simpl. rewrite <-IH.
  apply exec_refines; apply exec_all_ok.
Qed.

(** ** Dispatch *)

(** The answer of a handler that accepts the payload [data]. *)
Definition delivers (ctx : Ctx) (data : any) (h : Handler) (c : handler_call) : Prop :=
  ∃ v, downcast (handler_type_id h) data = Some v ∧ c = Call (handler_fn h ctx v).

Lemma call_handler_fits ctx t v h :
  handler_type_id h = t → delivers ctx (Any t v) h (call_handler h ctx (Any t v)).
Proof.
  intros <-. unfold call_handler, delivers. rewrite bool_decide_eq_false_2 by (simpl; tauto).
  rewrite downcast_same. eauto.
Qed.

Lemma call_handler_skips ctx t v h :
  handler_type_id h ≠ t → call_handler h ctx (Any t v) = Skip.
Proof. intros. unfold call_handler. by rewrite bool_decide_eq_true_2. Qed.

(** The calls one dispatch makes, given what the table holds for the event. *)
Definition calls_spec (ctx : Ctx) (codec : WsIoPacketCodec) (packet_data : option bytes)
    (entry : option (ty * gmap Z Handler)) (calls : list handler_call) : Prop :=
  match entry with
  | None => calls = []
  | Some (t, hs) =>
      let all_called data :=
        length calls = size hs ∧
        (∀ i h, hs !! i = Some h → ∃ c, c ∈ calls ∧ delivers ctx data h c) ∧
        (∀ c, c ∈ calls → ∃ i h, hs !! i = Some h ∧ delivers ctx data h c) in
      match packet_data with
      | Some b =>
          match decode_data codec t b with
          | Ok v => all_called (Any t v)
          | Err _ => calls = []
          end
      | None =>
          if decide (t = ty_unit) then all_called (Any ty_unit unit_val)
          else ∀ c, c ∈ calls → c = Skip
      end
  end.

Lemma dispatch_all_called ctx t v (hs : gmap Z Handler) :
  (∀ i h, hs !! i = Some h → handler_type_id h = t) →
  let calls := (λ '(_, h), call_handler h ctx (Any t v)) <$> map_to_list hs in
  length calls = size hs ∧
  (∀ i h, hs !! i = Some h → ∃ c, c ∈ calls ∧ delivers ctx (Any t v) h c) ∧
  (∀ c, c ∈ calls → ∃ i h, hs !! i = Some h ∧ delivers ctx (Any t v) h c).
Proof.
  intros Ht calls. split_and!.
  - unfold calls. by rewrite length_fmap, length_map_to_list.
  - intros i h Hi. eexists. split; [|by eapply call_handler_fits, Ht].
    apply list_elem_of_fmap. exists (i, h). by rewrite elem_of_map_to_list.
  - intros c ([i h] & -> & Hi%elem_of_map_to_list)%list_elem_of_fmap.
    exists i, h. split; [done|]. by eapply call_handler_fits, Ht.
Qed.

Lemma dispatch_task_spec ctx codec d r p e :
  registry_ok r → entry_heap r !! p = Some e →
  calls_spec ctx codec d (Some (view_entry e)) (dispatch_task p ctx codec d r).
Proof.
  intros Hok He. unfold dispatch_task. rewrite He. simpl.
  pose proof (ok_decoder r Hok p e He) as Hd.
  assert (∀ i h, handlers e !! i = Some h → handler_type_id h = data_type_id e) as Ht
    by (intros; by eapply ok_types).
  destruct d as [b|]; simpl.
  - unfold decode_data_as_any_arc. rewrite Hd.
    destruct (decode_data codec (data_type_id e) b) as [v|]; [|done].
    by apply dispatch_all_called.
  - case_decide as Hu.
    + apply dispatch_all_called. by rewrite <-Hu.
    + intros c ([i h] & -> & Hi%elem_of_map_to_list)%list_elem_of_fmap.
      apply call_handler_skips. rewrite (Ht i h Hi). done.
Qed.

(** C13: in any registry the program can build, an event packet leads to
    exactly one call of every handler of its event, with the payload decoded
    at the registered type; to no call when the payload does not decode or
    nothing is registered; and, without payload, to calls with [()] when that
    is the registered type and to none otherwise.  The [expect] on [downcast]
    never fails. *)
Theorem dispatch_delivers os ctx event codec d :
  ∃ calls,
    run [] (dispatch_event_packet ctx event codec d) (exec_all os) =
      ([], Done (Ok calls) (exec_all os)) ∧
    calls_spec ctx codec d (view (exec_all os) !! event) calls ∧
    ExpectFailed ∉ calls.
Proof.
  destruct (exec_all_ok os) as [Hok Hne]. unfold dispatch_event_packet. simpl.
  rewrite view_lookup. unfold entry_of.
  destruct (event_entries (exec_all os) !! event) as [p|] eqn:Hp; simpl.
  - destruct (ok_live _ Hok _ _ Hp) as [e He]. rewrite He. eexists.
    split; [done|]. pose proof (dispatch_task_spec ctx codec d _ p e Hok He) as Hs.
    split; [done|]. revert Hs. unfold calls_spec, delivers. simpl.
    set (calls := dispatch_task _ _ _ _ _).
    destruct d as [b|]; [destruct (decode_data _ _ b)|case_decide];
      [|intros ->; set_solver| |]; try (intros (_ & _ & Hc) (? & ? & ? & ? & ? & ?)%Hc; done).
    intros Hc Hin. by apply Hc in Hin.
  - exists []. split; [done|]. split; [done | set_solver].
Qed.

(** A dispatch that has found the entry of its event keeps it.  [off] does
    not stop it, and a registration made after that [off], even with another
    payload type, does not reach it; [off_by_handler_id] does stop the handler
    it names. *)
Theorem in_flight_dispatch r event p (Hok : registry_ok r)
    (Hp : event_entries r !! event = Some p) :
  (∀ ctx codec d, dispatch_task p ctx codec d (off event r) = dispatch_task p ctx codec d r) ∧
  (∀ h, ∃ r' i, on event h (off event r) = Registered r' i ∧
     event_entries r' !! event ≠ Some p ∧
     ∀ ctx codec d, dispatch_task p ctx codec d r' = dispatch_task p ctx codec d r) ∧
  (∀ i ctx codec d,
     let r' := exec (OpOffId event i) r in
     ∃ e, entry_heap r !! p = Some e ∧
     calls_spec ctx codec d (Some (data_type_id e, delete i (handlers e)))
       (dispatch_task p ctx codec d r')).
Proof.
  destruct (ok_live r Hok _ _ Hp) as [e He]. split_and!; [done| |].
  - intros h. unfold on. unfold off at 1. simpl. rewrite lookup_delete_eq. simpl.
    set (q := fresh (dom (entry_heap r))).
    assert (q ≠ p) as Hq.
    { intros <-. apply elem_of_dom_2 in He. by apply (is_fresh (dom (entry_heap r))) in He. }
    do 2 eexists. split; [done|]. split.
    + simpl. rewrite lookup_insert_eq. congruence.
    + intros ctx codec d. unfold dispatch_task, off. simpl.
      by rewrite lookup_alter_ne, lookup_insert_ne by done.
  - intros i ctx codec d r'. exists e. split; [done|].
    assert (registry_ok r') as Hok' by (by apply off_id_spec).
    assert (entry_heap r' !! p = Some (e .[ handlers := delete i (handlers e) ])) as He'.
    { unfold r'. rewrite exec_off_id. unfold off_if_empty, off_handler. rewrite Hp. simpl.
      repeat case_match; simpl; by rewrite lookup_alter_eq, He. }
    by apply (dispatch_task_spec ctx codec d _ _ _ Hok' He').
Qed.

(** ** Interleaved registrations *)

Definition on_task (event : string) (h : Handler) : prog WsIoEventRegistry Empty_set Empty_set unit :=
  modify (exec (OpOn event h)).
Definition off_task (event : string) : prog WsIoEventRegistry Empty_set Empty_set unit :=
  modify (off event).

Definition has (r : WsIoEventRegistry) (event : string) (i : Z) (h : Handler) : Prop :=
  ∃ e, entry_of event r = Some e ∧ handlers e !! i = Some h.

(** What the tasks that do not unregister [(event, i)] keep of it, as long as
    the 32-bit counter does not wrap around. *)
Definition keeps_handler (event : string) (i : Z) (r r' : WsIoEventRegistry) : Prop :=
  registry_ok r → registry_ok r' ∧
    ((next_handler_id r ≤ next_handler_id r')%Z →
     ∀ h, has r event i h → (i < next_handler_id r)%Z → has r' event i h).

Inductive foreign_task (event : string) (i : Z) :
    prog WsIoEventRegistry Empty_set Empty_set unit → Prop :=
| foreign_on ev h : foreign_task event i (on_task ev h)
| foreign_off ev : ev ≠ event → foreign_task event i (off_task ev)
| foreign_off_id ev j : (ev, j) ≠ (event, i) → foreign_task event i (off_by_handler_id ev j)
| foreign_dispatch ctx ev codec d :
    foreign_task event i (ignore (dispatch_event_packet ctx ev codec d)).

#[local] Instance keeps_handler_refl event i : Reflexive (keeps_handler event i).
Proof. intros r Hok. done. Qed.

Lemma has_view r event i h :
  has r event i h ↔ ∃ t hs, view_entry <$> entry_of event r = Some (t, hs) ∧ hs !! i = Some h.
Proof.
  unfold has, view_entry. destruct (entry_of event r) as [e|]; simpl.
  - split; [intros (? & [= <-] & ?); eauto | intros (? & ? & [= <- <-] & ?); eauto].
  - split; [by intros (? & ? & ?) | by intros (? & ? & ? & ?)].
Qed.

Lemma has_lookup r event i h :
  (entry_of event r ≫= λ e, handlers e !! i) = Some h → has r event i h.
Proof. intros (e & ? & ?)%bind_Some. by exists e. Qed.

Lemma on_keeps event i ev h r : keeps_handler event i r (exec (OpOn ev h) r).
Proof.
  intros Hok. simpl. pose proof (on_spec ev h r Hok) as Hs.
  destruct (on ev h r) as [r' j|]; [|done].
  destruct Hs as (-> & Hok' & _ & hs & Hhs & _ & Hv). split; [done|].
  intros _ h0 (e & He & Hi) Hlt. apply has_view. rewrite Hv. case_decide.
  - subst. rewrite He. do 2 eexists. split; [done|]. simpl.
    rewrite lookup_insert_ne by lia. done.
  - rewrite He. eexists _, _. split; [done|]. done.
Qed.

Lemma off_keeps event i ev r : ev ≠ event → keeps_handler event i r (off ev r).
Proof.
  intros Hne Hok. split; [by apply delete_entry_ok|].
  intros _ h (e & He & Hi) _. exists e. split; [|done].
  unfold off, update. cbn. rewrite entry_of_delete. by rewrite decide_False by done.
Qed.

Lemma off_handler_keeps event i ev j r :
  (ev, j) ≠ (event, i) → keeps_handler event i r (off_handler ev j r).1.
Proof.
  intros Hne Hok. pose proof (off_handler_spec ev j r Hok) as Hs.
  destruct (off_handler ev j r) as [r' more]. simpl in *.
  destruct Hs as (Hok' & _ & _ & Hv). split; [done|].
  intros _ h (e & He & Hi) _. unfold has. rewrite Hv. case_decide; [|eauto].
  subst. rewrite He. eexists. split; [done|]. simpl.
  rewrite lookup_delete_ne; [done | congruence].
Qed.

Lemma off_if_empty_keeps event i ev r : keeps_handler event i r (off_if_empty ev r).
Proof.
  intros Hok. split; [by apply off_if_empty_ok|].
  intros _ h (e & He & Hi) _. unfold off_if_empty.
  destruct (entry_of ev r) as [e'|] eqn:Hev; [|by exists e].
  case_bool_decide as Hemp; [|by exists e]. exists e. split; [|done].
  unfold update. cbn. rewrite entry_of_delete. case_decide; [|done].
  subst. assert (e' = e) as -> by congruence. by rewrite Hemp, lookup_empty in Hi.
Qed.

Lemma foreign_task_keeps event i p : foreign_task event i p → guar (keeps_handler event i) p.
Proof.
  intros [ev h|ev ?|ev j ?|ctx ev codec d].
  - apply guar_modify. intros. apply on_keeps.
  - apply guar_modify. intros. by apply off_keeps.
  - simpl. split; [intros w w' [= <-]; by apply off_handler_keeps|].
    intros r. destruct (off_handler ev j r).2; [done|].
    apply guar_modify. intros. apply off_if_empty_keeps.
  - apply guar_ignore, guar_bind; [by apply guar_gets, _|].
    intros [p0|]; [by apply guar_gets, _ | done].
Qed.

(** A step of the task pool during which the counter does not wrap. *)
Definition step_no_wrap (starts : prog WsIoEventRegistry Empty_set Empty_set unit → Prop)
    (s s' : sys WsIoEventRegistry Empty_set Empty_set) : Prop :=
  sys_step starts s s' ∧ (next_handler_id (shared s) ≤ next_handler_id (shared s'))%Z.

(** C36: a registered handler stays registered while any number of other tasks
    register, unregister and dispatch, interleaved at every lock, as long as
    none of them unregisters it: the second, locked look of
    [off_by_handler_id] never throws away an entry that got a handler since
    the first. *)
Theorem handler_survives event i h s s'
    (Hok : registry_ok (shared s)) (Hp : pool s = ∅)
    (Hh : has (shared s) event i h) (Hi : (i < next_handler_id (shared s))%Z)
    (Hr : star (step_no_wrap (foreign_task event i)) s s') :
  has (shared s') event i h.
Proof.
  assert (Hg : pool_guar (keeps_handler event i) s) by (intros j q; by rewrite Hp, lookup_empty).
  clear Hp. revert Hok Hg Hh Hi.
  induction Hr as [s|s1 s2 s3 [H12 Hle] _ IH]; intros Hok Hg Hh Hi; [done|].
  destruct (sys_step_guar (keeps_handler event i) _ _ _ (foreign_task_keeps event i) Hg H12)
    as [Hg2 Hk].
  destruct (Hk Hok) as [Hok2 Hkeep]. apply IH; [done|done| |lia]. by apply Hkeep.
Qed.
End registry.
Arguments Handler {T} Ctx Fut.
Arguments EventEntry {T} Ctx Fut.
Arguments WsIoEventRegistry {T} Ctx Fut.
Arguments handler_call : clear implicits.

(** ** Concrete registries *)
Section witnesses.
#[local] Existing Instances ref_types ref_crates.

Definition unit_handler (name : string) : Handler unit string :=
  {| handler_type_id := true; handler_fn := λ _ _, name |}.
Definition string_handler (name : string) : Handler unit string :=
  {| handler_type_id := false; handler_fn := λ _ (s : string), (name ++ s)%string |}.

Definition two_handlers : WsIoEventRegistry unit string :=
  exec_all [OpOn "chat" (string_handler "b:"); OpOn "chat" (string_handler "a:")].

(** The dispatch test of [registry.rs]: both handlers run. *)
Example dispatch_example :
  run [] (dispatch_event_packet tt "chat" SerdeJson (Some (String.list_byte_of_string "hello")))
    two_handlers = ([], Done (Ok [Call "b:hello"; Call "a:hello"]) two_handlers).
Proof. vm_compute. reflexivity. Qed.

(** The on/off test of [registry.rs]. *)
Example on_off_example :
  dom (event_entries (exec_all [OpOffId "chat" 0; OpOn "chat" (string_handler "a:")])) = ∅ ∧
  dom (event_entries (exec (OpOff "chat") two_handlers)) = ∅ ∧
  exec (OpOn "chat" (unit_handler "c")) two_handlers = two_handlers.
Proof. vm_compute. done. Qed.

Lemma in_flight_dispatch_witness :
  dispatch_task 0 tt SerdeJson None (off "chat" two_handlers) =
    dispatch_task 0 tt SerdeJson None two_handlers.
Proof.
  exact ((proj1 (in_flight_dispatch two_handlers "chat" 0 (proj1 (exec_all_ok _)) eq_refl))
    tt SerdeJson None).
Defined.

Lemma handler_survives_witness :
  has (exec (OpOn "chat" (string_handler "c:")) two_handlers) "chat" 0 (string_handler "a:").
Proof.
  set (p := on_task "chat" (string_handler "c:")).
  refine (handler_survives "chat" 0 (string_handler "a:") (Sys two_handlers ∅ [])
    (Sys (exec (OpOn "chat" (string_handler "c:")) two_handlers)
      (<[ 0 := Ret tt ]> (<[ 0 := p ]> ∅)) [])
    (proj1 (exec_all_ok _)) eq_refl _ _ _).
  - apply has_lookup. reflexivity.
  - reflexivity.
  - apply (star_step _ _ (Sys two_handlers (<[ 0 := p ]> ∅) [])); [|apply star_once].
    + split; [|apply Z.le_refl]. by apply (play1_step _ (MStart 0 p)); [apply foreign_on|].
    + split; [|vm_compute; discriminate]. by apply (play1_step _ (MStep 0)).
Defined.
End witnesses.
