(* ===== verification/Extensions.v ===== *)
(** * Connection extensions ([wsio-server/src/connection/extensions.rs])

    A store with at most one value per type, behind [Arc<dyn Any>]. *)

From S2P Require Import Prelude Extern.

Section extensions.
Context `{T : Types}.

Record ConnectionExtensions := { inner : gmap ty any }.

Definition new : ConnectionExtensions := {| inner := ∅ |}.

Definition clear (t : ty) (self : ConnectionExtensions) : ConnectionExtensions :=
  {| inner := delete t (inner self) |}.

Definition contains (t : ty) (self : ConnectionExtensions) : bool :=
  bool_decide (is_Some (inner self !! t)).

Definition get (t : ty) (self : ConnectionExtensions) : option (denote t) :=
  inner self !! t ≫= downcast t.

Definition insert (t : ty) (value : denote t) (self : ConnectionExtensions) :
    ConnectionExtensions :=
  {| inner := <[t := Any t value]> (inner self) |}.

Definition remove (t : ty) (self : ConnectionExtensions) :
    ConnectionExtensions * option (denote t) :=
  ({| inner := delete t (inner self) |}, inner self !! t ≫= downcast t).

(** The stores the public operations build. *)
Inductive built : ConnectionExtensions → Prop :=
| built_new : built new
| built_insert t v e : built e → built (insert t v e)
| built_remove t e : built e → built (remove t e).1
| built_clear t e : built e → built (clear t e).

Lemma built_typed e t a : built e → inner e !! t = Some a → type_id a = t.
Proof.
  intros Hb. revert t a. induction Hb as [|t v e _ IH|t e _ IH|t e _ IH]; intros t' a.
  - simpl. by rewrite lookup_empty.
  - simpl. rewrite lookup_insert. case_decide; [by intros [= <-] | by apply IH].
  - simpl. rewrite lookup_delete_Some. intros [_ ?]. by apply IH.
  - simpl. rewrite lookup_delete_Some. intros [_ ?]. by apply IH.
Qed.

Lemma get_clear t t' (e : ConnectionExtensions) :
  get t' (clear t e) = if decide (t = t') then None else get t' e.
Proof.
  unfold get. simpl. case_decide; subst; [by rewrite lookup_delete_eq | by rewrite lookup_delete_ne].
Qed.

(** C37: the store is a partial map from types to values of those types: a
    stored value is read back at its own type, the [downcast] never loses one,
    [insert] replaces only the value of its type, [remove] returns the value it
    removes, and [contains] says whether [get] finds something. *)
Theorem extensions_typed_store e (Hb : built e) t (v : denote t) :
  get t (insert t v e) = Some v ∧
  (∀ t', t' ≠ t → get t' (insert t v e) = get t' e) ∧
  (remove t e).2 = get t e ∧
  (∀ t', get t' (remove t e).1 = if decide (t = t') then None else get t' e) ∧
  (∀ t', get t' (clear t e) = if decide (t = t') then None else get t' e) ∧
  (∀ t', contains t' e = true ↔ is_Some (get t' e)).
Proof.
  split_and!; try done.
  - unfold get. simpl. rewrite lookup_insert_eq. apply downcast_same.
  - intros t' Hne. unfold get. simpl. by rewrite lookup_insert_ne by done.
  - intros t'. apply get_clear.
  - intros t'. apply get_clear.
  - intros t'. unfold contains, get. rewrite bool_decide_eq_true.
    destruct (inner e !! t') as [[t0 a]|] eqn:E; simpl.
    + apply built_typed in E; [|done]. simpl in E. subst.
      by rewrite downcast_same; split; eauto.
    + done.
Qed.
End extensions.

Section witnesses.
#[local] Existing Instance ref_types.

Lemma extensions_typed_store_witness :
  get false (insert false ("token" : denote false) new) = Some "token"%string.
Proof. exact (proj1 (extensions_typed_store new built_new false "token"%string)). Defined.
End witnesses.
