(* ===== verification/ServerConfig.v ===== *)
(** * Server configuration and builders

    [wsio-server/src/config.rs], [builder.rs], [namespace/config.rs] and
    [namespace/builder.rs].  Handlers a user registers are opaque code: the
    configuration records their presence, a name for traces and, for the two
    init handlers, the payload type.  What the closures of the builder do
    around them (decoding, encoding) is in [Connection]. *)

From S2P Require Import Prelude ChannelCapacity Packet Codecs Extern.

(** ** Server level *)
Record WsIoServerConfig := {
  broadcast_concurrency_limit : nat;
  http_request_upgrade_timeout : Duration;
  init_request_handler_timeout : Duration;
  init_response_handler_timeout : Duration;
  init_response_timeout : Duration;
  middleware_execution_timeout : Duration;
  on_close_handler_timeout : Duration;
  on_connect_handler_timeout : Duration;
  packet_codec : WsIoPacketCodec;
  request_path : string;
  websocket_config : WebSocketConfig;
}.
#[export] Instance eta_server_config : Eta WsIoServerConfig := λ c,
  Build_WsIoServerConfig (broadcast_concurrency_limit c) (http_request_upgrade_timeout c)
    (init_request_handler_timeout c) (init_response_handler_timeout c) (init_response_timeout c)
    (middleware_execution_timeout c) (on_close_handler_timeout c) (on_connect_handler_timeout c)
    (packet_codec c) (request_path c) (websocket_config c).

(** [WebSocketConfig::default()] with the five settings of the builders; they
    are all the fields the program uses. *)
Definition default_websocket_config : WebSocketConfig := {|
  max_frame_size := Some (8 * 1024 * 1024)%Z;
  max_message_size := Some (16 * 1024 * 1024)%Z;
  max_write_buffer_size := (2 * 1024 * 1024)%Z;
  read_buffer_size := (8 * 1024)%Z;
  write_buffer_size := (8 * 1024)%Z;
|}.

Module ServerBuilder.
Record WsIoServerBuilder := { config : WsIoServerConfig }.

Definition new : WsIoServerBuilder := {| config := {|
  broadcast_concurrency_limit := 512;
  http_request_upgrade_timeout := from_secs 3;
  init_request_handler_timeout := from_secs 3;
  init_response_handler_timeout := from_secs 3;
  init_response_timeout := from_secs 5;
  middleware_execution_timeout := from_secs 2;
  on_close_handler_timeout := from_secs 2;
  on_connect_handler_timeout := from_secs 3;
  packet_codec := SerdeJson;
  request_path := "/ws.io";
  websocket_config := default_websocket_config;
|} |}.

(** One setting of the builder: the method called and its argument. *)
Inductive setting : Type :=
| SetBroadcastConcurrencyLimit (n : nat)
| SetHttpRequestUpgradeTimeout (d : Duration)
| SetInitRequestHandlerTimeout (d : Duration)
| SetInitResponseHandlerTimeout (d : Duration)
| SetInitResponseTimeout (d : Duration)
| SetMiddlewareExecutionTimeout (d : Duration)
| SetOnCloseHandlerTimeout (d : Duration)
| SetOnConnectHandlerTimeout (d : Duration)
| SetPacketCodec (c : WsIoPacketCodec)
| SetRequestPath (p : string)
| SetWebsocketConfig (w : WebSocketConfig)
| WebsocketConfigMut (f : WebSocketConfig → WebSocketConfig).

Definition set (s : setting) (b : WsIoServerBuilder) : WsIoServerBuilder :=
  let c := config b in
  {| config := match s with
     | SetBroadcastConcurrencyLimit n => c .[ broadcast_concurrency_limit := n ]
     | SetHttpRequestUpgradeTimeout d => c .[ http_request_upgrade_timeout := d ]
     | SetInitRequestHandlerTimeout d => c .[ init_request_handler_timeout := d ]
     | SetInitResponseHandlerTimeout d => c .[ init_response_handler_timeout := d ]
     | SetInitResponseTimeout d => c .[ init_response_timeout := d ]
     | SetMiddlewareExecutionTimeout d => c .[ middleware_execution_timeout := d ]
     | SetOnCloseHandlerTimeout d => c .[ on_close_handler_timeout := d ]
     | SetOnConnectHandlerTimeout d => c .[ on_connect_handler_timeout := d ]
     | SetPacketCodec k => c .[ packet_codec := k ]
     | SetRequestPath p => c .[ request_path := p ]
     | SetWebsocketConfig w => c .[ websocket_config := w ]
     | WebsocketConfigMut f => c .[ websocket_config := f (websocket_config c) ]
     end |}.

Definition build (ss : list setting) : WsIoServerConfig :=
  config (foldl (λ b s, set s b) new ss).
End ServerBuilder.

(** ** Namespace level *)
Section namespace.
Context `{T : Types}.

Record WsIoServerNamespaceConfig := {
  ns_broadcast_concurrency_limit : nat;
  ns_http_request_upgrade_timeout : Duration;
  init_request_handler : option (ty * string);
  ns_init_request_handler_timeout : Duration;
  init_response_handler : option (ty * string);
  ns_init_response_handler_timeout : Duration;
  ns_init_response_timeout : Duration;
  middleware : option string;
  ns_middleware_execution_timeout : Duration;
  ns_on_close_handler_timeout : Duration;
  on_connect_handler : option string;
  ns_on_connect_handler_timeout : Duration;
  on_ready_handler : option string;
  ns_packet_codec : WsIoPacketCodec;
  path : string;
  ns_websocket_config : WebSocketConfig;
}.
#[global] Instance eta_namespace_config : Eta WsIoServerNamespaceConfig := λ c,
  Build_WsIoServerNamespaceConfig (ns_broadcast_concurrency_limit c)
    (ns_http_request_upgrade_timeout c) (init_request_handler c)
    (ns_init_request_handler_timeout c) (init_response_handler c)
    (ns_init_response_handler_timeout c) (ns_init_response_timeout c) (middleware c)
    (ns_middleware_execution_timeout c) (ns_on_close_handler_timeout c)
    (on_connect_handler c) (ns_on_connect_handler_timeout c) (on_ready_handler c)
    (ns_packet_codec c) (path c) (ns_websocket_config c).

(** [WsIoServerNamespaceBuilder::new] copies the defaults of the server. *)
Definition namespace_builder_new (p : string) (rc : WsIoServerConfig) :
    WsIoServerNamespaceConfig := {|
  ns_broadcast_concurrency_limit := broadcast_concurrency_limit rc;
  ns_http_request_upgrade_timeout := http_request_upgrade_timeout rc;
  init_request_handler := None;
  ns_init_request_handler_timeout := init_request_handler_timeout rc;
  init_response_handler := None;
  ns_init_response_handler_timeout := init_response_handler_timeout rc;
  ns_init_response_timeout := init_response_timeout rc;
  middleware := None;
  ns_middleware_execution_timeout := middleware_execution_timeout rc;
  on_connect_handler := None;
  ns_on_close_handler_timeout := on_close_handler_timeout rc;
  ns_on_connect_handler_timeout := on_connect_handler_timeout rc;
  on_ready_handler := None;
  ns_packet_codec := packet_codec rc;
  path := p;
  ns_websocket_config := websocket_config rc;
|}.

Inductive ns_setting : Type :=
| NsBroadcastConcurrencyLimit (n : nat)
| NsHttpRequestUpgradeTimeout (d : Duration)
| NsInitRequestHandlerTimeout (d : Duration)
| NsInitResponseHandlerTimeout (d : Duration)
| NsInitResponseTimeout (d : Duration)
| NsMiddlewareExecutionTimeout (d : Duration)
| NsOnCloseHandlerTimeout (d : Duration)
| NsOnConnect (h : string)
| NsOnConnectHandlerTimeout (d : Duration)
| NsOnReady (h : string)
| NsPacketCodec (c : WsIoPacketCodec)
| NsWebsocketConfig (w : WebSocketConfig)
| NsWebsocketConfigMut (f : WebSocketConfig → WebSocketConfig)
| NsWithMiddleware (h : string)
| NsWithInitRequest (D : ty) (h : string)
| NsWithInitResponse (D : ty) (h : string).

Definition namespace_set (s : ns_setting) (c : WsIoServerNamespaceConfig) : WsIoServerNamespaceConfig :=
  match s with
  | NsBroadcastConcurrencyLimit n => c .[ ns_broadcast_concurrency_limit := n ]
  | NsHttpRequestUpgradeTimeout d => c .[ ns_http_request_upgrade_timeout := d ]
  | NsInitRequestHandlerTimeout d => c .[ ns_init_request_handler_timeout := d ]
  | NsInitResponseHandlerTimeout d => c .[ ns_init_response_handler_timeout := d ]
  | NsInitResponseTimeout d => c .[ ns_init_response_timeout := d ]
  | NsMiddlewareExecutionTimeout d => c .[ ns_middleware_execution_timeout := d ]
  | NsOnCloseHandlerTimeout d => c .[ ns_on_close_handler_timeout := d ]
  | NsOnConnect h => c .[ on_connect_handler := Some h ]
  | NsOnConnectHandlerTimeout d => c .[ ns_on_connect_handler_timeout := d ]
  | NsOnReady h => c .[ on_ready_handler := Some h ]
  | NsPacketCodec k => c .[ ns_packet_codec := k ]
  | NsWebsocketConfig w => c .[ ns_websocket_config := w ]
  | NsWebsocketConfigMut f => c .[ ns_websocket_config := f (ns_websocket_config c) ]
  | NsWithMiddleware h => c .[ middleware := Some h ]
  | NsWithInitRequest D h => c .[ init_request_handler := Some (D, h) ]
  | NsWithInitResponse D h => c .[ init_response_handler := Some (D, h) ]
  end.

(** No method of the namespace builder changes the path. *)
Lemma namespace_set_path ss c : path (foldl (λ c s, namespace_set s c) c ss) = path c.
Proof. revert c. induction ss as [|s ss IH]; intros c; [done|]. simpl. rewrite IH. by destruct s. Qed.
End namespace.

Section defaults.
Context (log2 : f64 → f64) (Hlog : pow2_exact log2).

(** The builders' default buffers give channels of 2048 messages. *)
Lemma default_capacity :
  channel_capacity_from_websocket_config log2 default_websocket_config = 2048%Z.
Proof.
  unfold channel_capacity_from_websocket_config.
  change (max_write_buffer_size default_websocket_config) with (2 ^ Z.of_nat 21)%Z.
  change (write_buffer_size default_websocket_config) with (2 ^ Z.of_nat 13)%Z.
  rewrite (spec_float_eqb_eq _ _ (ratio_check_all 13 21 ltac:(lia) ltac:(lia))).
  rewrite Hlog by lia. by vm_compute.
Qed.
End defaults.
