(* ===== verification/ServerState.v ===== *)
(** * The server's shared state

    Every [Arc] of the server is an address in a heap: connections and
    namespaces live in [connection_heap] and [namespace_heap], and the one
    runtime beside them.  The fields are those of the structs of
    [wsio-server/src/connection/mod.rs], [namespace/mod.rs] and [runtime.rs].
    This file also has the atomic accesses and the operations on rooms and
    connection tables, which connections and namespaces share. *)

From S2P Require Import Prelude Async Concurrent Spawner Extern ChannelCapacity Packet Codecs.
From S2P Require Import EventRegistry Extensions ServerConfig.

Inductive ConnectionState : Set :=
| Activating | AwaitingInit | Closed | Closing | Created | Initiating | ConnReady.

#[export] Instance connection_state_eq_dec : EqDecision ConnectionState.
Proof. solve_decision. Defined.

(** [#[derive(Debug)]] *)
Definition show_connection_state (s : ConnectionState) : string :=
  match s with
  | Activating => "Activating" | AwaitingInit => "AwaitingInit" | Closed => "Closed"
  | Closing => "Closing" | Created => "Created" | Initiating => "Initiating"
  | ConnReady => "Ready"
  end.

Inductive NamespaceStatus : Set := NsRunning | NsStopped | NsStopping.

#[export] Instance namespace_status_eq_dec : EqDecision NamespaceStatus.
Proof. solve_decision. Defined.

Definition show_namespace_status (s : NamespaceStatus) : string :=
  match s with NsRunning => "Running" | NsStopped => "Stopped" | NsStopping => "Stopping" end.

Inductive WsIoServerRuntimeStatus : Set := RtRunning | RtStopped | RtStopping.

#[export] Instance runtime_status_eq_dec : EqDecision WsIoServerRuntimeStatus.
Proof. solve_decision. Defined.

Definition show_runtime_status (s : WsIoServerRuntimeStatus) : string :=
  match s with RtRunning => "Running" | RtStopped => "Stopped" | RtStopping => "Stopping" end.

Section state.
Context `{T : Types} `{Cells : AtomicEnumCell} `{Chans : Mpsc}.

Record WsIoServerConnection := {
  cancelled : bool; (* the state of [cancel_token] *)
  event_registry : WsIoEventRegistry nat string;
  extensions : ConnectionExtensions;
  headers : list (string * bytes);
  id : Z; (* [u64] *)
  init_timeout_task : option nat; (* the id of the task *)
  joined_rooms : gset string;
  message_tx : chan Message;
  namespace : nat;
  on_close_handler : option string;
  on_close_locked : bool; (* the [Mutex] around [on_close_handler] *)
  request_uri : string;
  state : cell ConnectionState;
}.
#[global] Instance eta_connection : Eta WsIoServerConnection := λ c,
  Build_WsIoServerConnection (cancelled c) (event_registry c) (extensions c) (headers c) (id c)
    (init_timeout_task c) (joined_rooms c) (message_tx c) (namespace c) (on_close_handler c)
    (on_close_locked c) (request_uri c) (state c).

Record WsIoServerNamespace := {
  config : WsIoServerNamespaceConfig;
  connection_ids : gset Z;
  connections : gmap Z nat;
  connection_task_set : gset nat;
  task_set_locked : bool; (* the [Mutex] around [connection_task_set] *)
  rooms : gmap string (gset Z);
  status : cell NamespaceStatus;
}.
#[global] Instance eta_namespace : Eta WsIoServerNamespace := λ n,
  Build_WsIoServerNamespace (config n) (connection_ids n) (connections n)
    (connection_task_set n) (task_set_locked n) (rooms n) (status n).

Record WsIoServerRuntime := {
  rt_config : WsIoServerConfig;
  rt_connection_ids : gset Z;
  namespaces : gmap string nat;
  rt_status : cell WsIoServerRuntimeStatus;
}.
#[global] Instance eta_runtime : Eta WsIoServerRuntime := λ r,
  Build_WsIoServerRuntime (rt_config r) (rt_connection_ids r) (namespaces r) (rt_status r).

(** Tasks the server spawns. *)
Inductive task : Type :=
| InitWatchdog (c : nat)
| OnReady (c : nat) (handler : string)
| DispatchEvent (c : nat) (entry : nat) (codec : WsIoPacketCodec) (data : option bytes)
| RunHandler (c : nat) (fut : string)
| ReadWsStream (c : nat)
| WriteWsStream (c : nat)
| HandleUpgrade (n : nat) (headers : list (string * bytes)) (uri : string).

Record Server := {
  runtime : WsIoServerRuntime;
  namespace_heap : gmap nat WsIoServerNamespace;
  connection_heap : gmap nat WsIoServerConnection;
  next_connection_id : Z; (* [NEXT_CONNECTION_ID] *)
  tasks : gmap nat task; (* spawned and not aborted, by task id *)
}.
#[global] Instance eta_server : Eta Server := λ s,
  Build_Server (runtime s) (namespace_heap s) (connection_heap s) (next_connection_id s)
    (tasks s).

(** What is awaited: a user's handler, with the connection and the payload
    it is given, a timer, the network, the end of tasks, or the scheduler's
    choice among the futures of one task. *)
Inductive label : Type :=
| Handler (c : nat) (name : string) (arg : option any)
| Sleep (d : Duration)
| Upgrade
| WsNext (c : nat)
| WsSend (c : option nat) (m : Message)
| WsClose (c : option nat)
| AnyTask (ts : list nat)
| AllTasks (ts : list nat)
| Poll.

(** The answers: a handler's result, the time limit around it, a frame of the
    peer ([None]: end of the stream or an error), the task that has ended, the token
    of a [select!] seen cancelled. *)
Inductive reply : Type :=
| RUnit (r : result unit)
| RData (r : result (option any))
| RElapsed
| RFrame (m : option Message)
| REnded (t : nat)
| RPoll (first : bool)
| RCancelled.

Definition is_cancel (r : reply) : bool := match r with RCancelled => true | _ => false end.

Definition polls_first (r : reply) : bool := match r with RPoll b => b | _ => true end.

Definition srv : Type → Type := prog Server label reply.

(** [join_all], and [for_each_concurrent] over the futures of a list. *)
Definition join_all (ps : list (srv unit)) : srv unit := par_all Poll polls_first ps.

(** ** Access to the heaps *)
Definition conn_get {A} (c : nat) (f : WsIoServerConnection → A) : srv A :=
  Atom Some (λ w, match connection_heap w !! c with
                  | Some x => Ret (f x) | None => Panic "dangling connection" end).

Definition conn_set (c : nat) (f : WsIoServerConnection → WsIoServerConnection) (w : Server) :
    Server := w .[ connection_heap := alter f c (connection_heap w) ].

Definition conn_upd (c : nat) (f : WsIoServerConnection → WsIoServerConnection) : srv unit :=
  modify (conn_set c f).

Definition ns_get {A} (n : nat) (f : WsIoServerNamespace → A) : srv A :=
  Atom Some (λ w, match namespace_heap w !! n with
                  | Some x => Ret (f x) | None => Panic "dangling namespace" end).

Definition ns_set (n : nat) (f : WsIoServerNamespace → WsIoServerNamespace) (w : Server) :
    Server := w .[ namespace_heap := alter f n (namespace_heap w) ].

Definition ns_upd (n : nat) (f : WsIoServerNamespace → WsIoServerNamespace) : srv unit :=
  modify (ns_set n f).

Definition rt_set (f : WsIoServerRuntime → WsIoServerRuntime) (w : Server) : Server :=
  w .[ runtime := f (runtime w) ].

Definition rt_upd (f : WsIoServerRuntime → WsIoServerRuntime) : srv unit := modify (rt_set f).

(** [self.state.try_transition(from, to)?] *)
Definition try_transition (c : nat) (from to : ConnectionState) : srv unit :=
  Atom (λ w, Some (conn_set c (λ x, x .[ state := (cell_try_transition (state x) from to).1 ]) w))
    (λ w, match connection_heap w !! c with
          | Some x => of_result (cell_try_transition (state x) from to).2
          | None => Panic "dangling connection" end).

(** [self.state.ensure(expected, |state| ..)?] *)
Definition ensure (c : nat) (expected : ConnectionState) (msg : ConnectionState → string) : srv unit :=
  r <- conn_get c (λ x, cell_ensure (state x) expected msg) ;; of_result r.

(** [self.state.store(s)] *)
Definition state_store (c : nat) (s : ConnectionState) : srv unit :=
  conn_upd c (λ x, x .[ state := cell_store (state x) s ]).

(** [tokio::spawn] *)
Definition spawn (t : task) : srv nat :=
  Atom (λ w, Some (w .[ tasks := <[fresh (dom (tasks w)) := t]> (tasks w) ]))
    (λ w, Ret (fresh (dom (tasks w)))).

(** [JoinHandle::abort] *)
Definition abort (i : nat) : srv unit := modify (λ w, w .[ tasks := delete i (tasks w) ]).

(** [TaskSpawner::spawn_task] of a connection, whose token is never replaced;
    [under_token c p] is the body of the task. *)
Definition conn_cancelled (c : nat) (w : Server) : bool :=
  match connection_heap w !! c with Some x => cancelled x | None => false end.

Definition under_token (c : nat) (p : srv unit) : srv unit := until (conn_cancelled c) is_cancel p.

Definition spawn_task (t : task) : srv unit := _ <- spawn t ;; Ret tt.

(** [abort_locked_task(&self.init_timeout_task)] *)
Definition abort_locked_task (c : nat) : srv unit :=
  t <- Atom (λ w, Some (conn_set c (λ x, x .[ init_timeout_task := None ]) w))
         (λ w, Ret (connection_heap w !! c ≫= init_timeout_task)) ;;
  match t with Some i => abort i | None => Ret tt end.

(** ** Rooms and connection tables of a namespace *)
Definition add_connection_id_to_room (n : nat) (room_name : string) (connection_id : Z) : srv unit :=
  ns_upd n (λ x, x .[ rooms :=
    <[room_name := default ∅ (rooms x !! room_name) ∪ {[connection_id]}]> (rooms x) ]).

(** [get_mut] and [remove_if] lock the room one after the other. *)
Definition remove_connection_id_from_room (n : nat) (room_name : string) (connection_id : Z) :
    srv unit :=
  ns_upd n (λ x, x .[ rooms := alter (λ entry, entry ∖ {[connection_id]}) room_name (rooms x) ]) ;;
  ns_upd n (λ x, match rooms x !! room_name with
    | Some entry => if bool_decide (entry = ∅) then x .[ rooms := delete room_name (rooms x) ] else x
    | None => x
    end).

Definition insert_connection_id (i : Z) : srv unit :=
  rt_upd (λ r, r .[ rt_connection_ids := rt_connection_ids r ∪ {[i]} ]).

Definition remove_connection_id (i : Z) : srv unit :=
  rt_upd (λ r, r .[ rt_connection_ids := rt_connection_ids r ∖ {[i]} ]).

Definition insert_connection (n c : nat) : srv unit :=
  i <- conn_get c id ;;
  ns_upd n (λ x, x .[ connections := <[i := c]> (connections x) ]) ;;
  insert_connection_id i ;;
  ns_upd n (λ x, x .[ connection_ids := connection_ids x ∪ {[i]} ]).

Definition remove_connection (n : nat) (i : Z) : srv unit :=
  ns_upd n (λ x, x .[ connections := delete i (connections x) ]) ;;
  remove_connection_id i ;;
  ns_upd n (λ x, x .[ connection_ids := connection_ids x ∖ {[i]} ]).

(** [WsIoServerNamespace::connection_count] and the runtime's. *)
Definition connection_count (x : WsIoServerNamespace) : nat := size (connections x).
Definition rt_connection_count (r : WsIoServerRuntime) : nat := size (rt_connection_ids r).

Section framing.
Context `{Crates : !SerdeCrates}.

Definition encode_packet_to_message (n : nat) (packet : WsIoPacket) : srv Message :=
  codec <- ns_get n (λ x, ns_packet_codec (config x)) ;;
  bytes <- of_result (encode codec packet) ;;
  Ret (if is_text codec then Text bytes else Binary bytes).
End framing.
End state.
