(* ===== verification/Connection.v ===== *)
(** * Server connections ([wsio-server/src/connection/mod.rs])

    One program per method.  [self] is the address [c] of the connection. *)

From S2P Require Import Prelude Async Concurrent Extern ChannelCapacity Packet Codecs.
From S2P Require Import EventRegistry Extensions ServerConfig ServerState.

Section connection.
Context `{T : Types} `{Cells : AtomicEnumCell} `{Chans : Mpsc} `{Crates : !SerdeCrates}.
Context (log2 : f64 → f64).

Definition connection_new (hs : list (string * bytes)) (n : nat) (uri : string) : srv nat :=
  cfg <- ns_get n (λ x, ns_websocket_config (config x)) ;;
  let channel_capacity := channel_capacity_from_websocket_config log2 cfg in
  let mk i := {|
    cancelled := false; event_registry := registry_new; extensions := Extensions.new;
    headers := hs; id := i; init_timeout_task := None; joined_rooms := ∅;
    message_tx := channel (Z.to_nat channel_capacity); namespace := n;
    on_close_handler := None; on_close_locked := false; request_uri := uri;
    state := cell_new Created |} in
  Atom (λ w, Some (w .[ next_connection_id := wrap64 (next_connection_id w + 1) ]
                     .[ connection_heap :=
                        <[fresh (dom (connection_heap w)) := mk (next_connection_id w)]>
                          (connection_heap w) ]))
       (λ w, Ret (fresh (dom (connection_heap w)))).

(** ** Handlers and the closures the namespace builder puts around them *)
Definition unit_reply (r : reply) : srv unit :=
  match r with
  | RUnit x => of_result x
  | RElapsed => Fail EElapsed
  | _ => Panic "not an answer of this handler"
  end.

Definition call_unit_handler (c : nat) (h : string) (arg : option any) : srv unit :=
  Await (Handler c h arg) unit_reply.

(** [with_init_request]: the answer is encoded. *)
Definition call_init_request_handler (c : nat) (h : ty * string) (codec : WsIoPacketCodec) :
    srv (option bytes) :=
  Await (Handler c h.2 None) (λ r,
    match r with
    | RData (Ok (Some a)) =>
        match downcast h.1 a with
        | Some v => bytes <- of_result (encode_data codec h.1 v) ;; Ret (Some bytes)
        | None => Panic "not an answer of this handler"
        end
    | RData (Ok None) => Ret None
    | RData (Err e) => Fail e
    | RElapsed => Fail EElapsed
    | _ => Panic "not an answer of this handler"
    end).

(** [with_init_response]: the bytes are decoded before the handler runs. *)
Definition call_init_response_handler (c : nat) (h : ty * string) (packet_data : option bytes)
    (codec : WsIoPacketCodec) : srv unit :=
  data <- of_result (transpose (decode_data codec h.1 <$> packet_data)) ;;
  call_unit_handler c h.2 (Any h.1 <$> data).

(** ** Messages *)
Definition send_message (c : nat) (message : Message) : srv unit :=
  Atom (λ w, match connection_heap w !! c with
             | Some x =>
                 match chan_send (message_tx x) message with
                 | Some (ch, _) => Some (conn_set c (λ x, x .[ message_tx := ch ]) w)
                 | None => None
                 end
             | None => Some w
             end)
       (λ w, match connection_heap w !! c with
             | Some x =>
                 match chan_send (message_tx x) message with
                 | Some (_, r) => of_result r | None => Ret tt
                 end
             | None => Panic "dangling connection"
             end).

Definition send_packet (c : nat) (packet : WsIoPacket) : srv unit :=
  n <- conn_get c namespace ;;
  message <- encode_packet_to_message n packet ;;
  send_message c message.

Definition try_send_close (c : nat) : srv unit :=
  conn_upd c (λ x, x .[ message_tx := (chan_try_send (message_tx x) Close).1 ]).

Definition close (c : nat) : srv unit :=
  s <- conn_get c (λ x, cell_get (state x)) ;;
  match s with
  | Closed | Closing => Ret tt
  | _ => state_store c Closing ;; try_send_close c
  end.

Definition disconnect (c : nat) : srv unit :=
  ignore (send_packet c new_disconnect) ;; close c.

Definition emit_event_message (c : nat) (message : Message) : srv unit :=
  ensure c ConnReady (λ s, "Cannot emit in invalid state: " ++ show_connection_state s)%string ;;
  send_message c message.

(** The payload is [Some (t, v)] for [Some(&v)] with [v : denote t]. *)
Definition encode_payload (codec : WsIoPacketCodec) (data : option any) : result (option bytes) :=
  transpose ((λ a, encode_data codec (type_id a) (value a)) <$> data).

Definition emit (c : nat) (event : string) (data : option any) : srv unit :=
  n <- conn_get c namespace ;;
  codec <- ns_get n (λ x, ns_packet_codec (config x)) ;;
  bytes <- of_result (encode_payload codec data) ;;
  message <- encode_packet_to_message n (new_event event bytes) ;;
  emit_event_message c message.

Definition is_ready (c : nat) : srv bool := conn_get c (λ x, cell_is (state x) ConnReady).

(** ** Rooms *)
Definition join (c : nat) (room_names : list string) : srv unit :=
  seq_all (λ room_name,
    n <- conn_get c namespace ;; i <- conn_get c id ;;
    add_connection_id_to_room n room_name i ;;
    conn_upd c (λ x, x .[ joined_rooms := joined_rooms x ∪ {[room_name]} ])) room_names.

Definition leave (c : nat) (room_names : list string) : srv unit :=
  seq_all (λ room_name,
    n <- conn_get c namespace ;; i <- conn_get c id ;;
    remove_connection_id_from_room n room_name i ;;
    conn_upd c (λ x, x .[ joined_rooms := joined_rooms x ∖ {[room_name]} ])) room_names.

(** ** Events *)
Definition reg_upd (c : nat)
    (f : WsIoEventRegistry nat string → WsIoEventRegistry nat string) : srv unit :=
  conn_upd c (λ x, x .[ event_registry := f (event_registry x) ]).

Definition off (c : nat) (event : string) : srv unit := reg_upd c (EventRegistry.off event).

Definition off_by_handler_id (c : nat) (event : string) (handler_id : Z) : srv unit :=
  more <- Atom
    (λ w, Some (conn_set c (λ x, x .[ event_registry :=
            (off_handler event handler_id (event_registry x)).1 ]) w))
    (λ w, match connection_heap w !! c with
          | Some x => Ret (off_handler event handler_id (event_registry x)).2
          | None => Panic "dangling connection" end) ;;
  if (more : bool) then Ret tt else reg_upd c (off_if_empty event).

Definition on (c : nat) (event : string) (h : EventRegistry.Handler nat string) : srv Z :=
  Atom (λ w, Some (conn_set c (λ x,
          match EventRegistry.on event h (event_registry x) with
          | Registered r _ => x .[ event_registry := r ] | TypeMismatch => x end) w))
       (λ w, match connection_heap w !! c with
             | Some x =>
                 match EventRegistry.on event h (event_registry x) with
                 | Registered _ i => Ret i
                 | TypeMismatch => Panic "already registered with a different data type"
                 end
             | None => Panic "dangling connection"
             end).

(** [on_close] waits for the lock of the handler. *)
Definition lock_on_close (c : nat) : srv unit :=
  block (λ w, match connection_heap w !! c with
              | Some x => if on_close_locked x then None
                          else Some (conn_set c (λ x, x .[ on_close_locked := true ]) w)
              | None => Some w
              end).

Definition unlock_on_close (c : nat) : srv unit :=
  conn_upd c (λ x, x .[ on_close_locked := false ]).

Definition on_close (c : nat) (h : string) : srv unit :=
  lock_on_close c ;;
  conn_upd c (λ x, x .[ on_close_handler := Some h ]) ;;
  unlock_on_close c.

(** The lookup is immediate, the rest is a spawned task. *)
Definition handle_event_packet (c : nat) (event : string) (packet_data : option bytes) : srv unit :=
  n <- conn_get c namespace ;;
  codec <- ns_get n (λ x, ns_packet_codec (config x)) ;;
  entry <- conn_get c (λ x, event_entries (event_registry x) !! event) ;;
  match entry with
  | None => Ret tt
  | Some p => spawn_task (DispatchEvent c p codec packet_data)
  end.

(** ** The handshake *)
Definition init (c : nat) : srv unit :=
  ensure c Created
    (λ s, "Cannot init connection in invalid state: " ++ show_connection_state s)%string ;;
  n <- conn_get c namespace ;;
  cfg <- ns_get n config ;;
  init_request_data <- match init_request_handler cfg with
                       | Some h => call_init_request_handler c h (ns_packet_codec cfg)
                       | None => Ret None
                       end ;;
  try_transition c Created AwaitingInit ;;
  watchdog <- spawn (InitWatchdog c) ;;
  conn_upd c (λ x, x .[ init_timeout_task := Some watchdog ]) ;;
  send_packet c (new_init init_request_data).

Definition init_watchdog (c : nat) : srv unit :=
  n <- conn_get c namespace ;;
  d <- ns_get n (λ x, ns_init_response_timeout (config x)) ;;
  Await (Sleep d) (λ _,
    waiting <- conn_get c (λ x, cell_is (state x) AwaitingInit) ;;
    if (waiting : bool) then close c else Ret tt).

(** The part of [handle_init_packet] after the state check. *)
Definition handshake (c : nat) (packet_data : option bytes) : srv unit :=
  abort_locked_task c ;;
  n <- conn_get c namespace ;;
  cfg <- ns_get n config ;;
  match init_response_handler cfg with
  | Some h => call_init_response_handler c h packet_data (ns_packet_codec cfg)
  | None => Ret tt
  end ;;
  try_transition c Initiating Activating ;;
  match middleware cfg with
  | Some h =>
      call_unit_handler c h None ;;
      ensure c Activating
        (λ s, "Cannot activate connection in invalid state: " ++ show_connection_state s)%string
  | None => Ret tt
  end ;;
  match on_connect_handler cfg with
  | Some h => call_unit_handler c h None
  | None => Ret tt
  end ;;
  try_transition c Activating ConnReady ;;
  insert_connection n c ;;
  send_packet c new_ready ;;
  match on_ready_handler cfg with
  | Some h => spawn_task (OnReady c h)
  | None => Ret tt
  end.

Definition handle_init_packet (c : nat) (packet_data : option bytes) : srv unit :=
  s <- conn_get c (λ x, cell_get (state x)) ;;
  match s with
  | AwaitingInit => try_transition c s Initiating ;; handshake c packet_data
  | _ => Fail (EMsg ("Received init packet in invalid state: " ++ show_connection_state s)%string)
  end.

(** The part of [handle_incoming_packet] after the decoding. *)
Definition handle_packet (c : nat) (packet : WsIoPacket) : srv unit :=
  match type packet with
  | Event =>
      ready <- is_ready c ;;
      if (ready : bool) then
        match key packet with
        | Some event => handle_event_packet c event (data packet)
        | None => Fail (EMsg "Event packet missing key")
        end
      else Ret tt
  | Init => handle_init_packet c (data packet)
  | _ => Ret tt
  end.

Definition handle_incoming_packet (c : nat) (encoded_packet : bytes) : srv unit :=
  n <- conn_get c namespace ;;
  codec <- ns_get n (λ x, ns_packet_codec (config x)) ;;
  packet <- of_result (decode codec encoded_packet) ;;
  handle_packet c packet.

Definition cleanup (c : nat) : srv unit :=
  state_store c Closing ;;
  n <- conn_get c namespace ;;
  i <- conn_get c id ;;
  remove_connection n i ;;
  joined <- conn_get c joined_rooms ;;
  seq_all (λ room_name, remove_connection_id_from_room n room_name i) (elements joined) ;;
  conn_upd c (λ x, x .[ joined_rooms := ∅ ]) ;;
  abort_locked_task c ;;
  conn_upd c (λ x, x .[ cancelled := true ]) ;;
  lock_on_close c ;;
  h <- Atom (λ w, Some (conn_set c (λ x, x .[ on_close_handler := None ]) w))
         (λ w, Ret (connection_heap w !! c ≫= on_close_handler)) ;;
  match h with
  | Some h => ignore (call_unit_handler c h None)  (* the guard is held meanwhile *)
  | None => Ret tt
  end ;;
  unlock_on_close c ;;
  state_store c Closed.

(** ** Bodies of the tasks a connection spawns *)
Definition run_dispatch (c p : nat) (codec : WsIoPacketCodec) (packet_data : option bytes) :
    srv unit :=
  calls <- conn_get c (λ x, dispatch_task p c codec packet_data (event_registry x)) ;;
  seq_all (λ call, match call with
    | Call fut => spawn_task (RunHandler c fut)
    | Skip => Ret tt
    | ExpectFailed => Panic "data type id matched handler registration but Arc::downcast failed"
    end) calls.
End connection.
