(* ===== verification/Broadcast.v ===== *)
(** * Broadcast operators ([wsio-server/src/namespace/operators/broadcast.rs])

    [for_each_concurrent] drives the sends of up to [broadcast_concurrency_limit]
    targets at once.  The model lets all of them be interleaved in any way,
    which includes what a limit allows. *)

From S2P Require Import Prelude Async Concurrent Extern ChannelCapacity Packet Codecs.
From S2P Require Import EventRegistry Extensions ServerConfig ServerState Connection.

Record WsIoServerNamespaceBroadcastOperator := {
  exclude_connection_ids : gset Z;
  exclude_rooms : gset string;
  include_rooms : gset string;
  op_namespace : nat;
}.
#[export] Instance eta_operator : Eta WsIoServerNamespaceBroadcastOperator := λ o,
  Build_WsIoServerNamespaceBroadcastOperator (exclude_connection_ids o) (exclude_rooms o)
    (include_rooms o) (op_namespace o).

Definition new (n : nat) : WsIoServerNamespaceBroadcastOperator := {|
  exclude_connection_ids := ∅; exclude_rooms := ∅; include_rooms := ∅; op_namespace := n |}.

Definition except (room_names : list string) (self : WsIoServerNamespaceBroadcastOperator) :
    WsIoServerNamespaceBroadcastOperator :=
  self .[ exclude_rooms := exclude_rooms self ∪ list_to_set room_names ].

Definition except_connection_ids (ids : list Z) (self : WsIoServerNamespaceBroadcastOperator) :
    WsIoServerNamespaceBroadcastOperator :=
  self .[ exclude_connection_ids := exclude_connection_ids self ∪ list_to_set ids ].

Definition to (room_names : list string) (self : WsIoServerNamespaceBroadcastOperator) :
    WsIoServerNamespaceBroadcastOperator :=
  self .[ include_rooms := include_rooms self ∪ list_to_set room_names ].

Section broadcast.
Context `{T : Types} `{Cells : AtomicEnumCell} `{Chans : Mpsc} `{Crates : !SerdeCrates}.

(** [for room_name in &self.include_rooms { .. connection_ids |= room }] *)
Fixpoint include_loop (n : nat) (room_names : list string) (ids : gset Z) : srv (gset Z) :=
  match room_names with
  | [] => Ret ids
  | room_name :: room_names =>
      room <- ns_get n (λ x, rooms x !! room_name) ;;
      include_loop n room_names (match room with Some room => ids ∪ room | None => ids end)
  end.

(** The loop over [exclude_rooms], which stops when nothing is left. *)
Fixpoint exclude_loop (n : nat) (room_names : list string) (ids : gset Z) : srv (gset Z) :=
  match room_names with
  | [] => Ret ids
  | room_name :: room_names =>
      room <- ns_get n (λ x, rooms x !! room_name) ;;
      match room with
      | Some room =>
          let ids := ids ∖ room in
          if bool_decide (ids = ∅) then Ret ids else exclude_loop n room_names ids
      | None => exclude_loop n room_names ids
      end
  end.

Definition target_connection_ids (self : WsIoServerNamespaceBroadcastOperator) : srv (gset Z) :=
  let n := op_namespace self in
  ids <- (if bool_decide (include_rooms self = ∅) then ns_get n connection_ids
          else include_loop n (elements (include_rooms self)) ∅) ;;
  ids <- exclude_loop n (elements (exclude_rooms self)) ids ;;
  Ret (foldl (λ ids i, ids ∖ {[i]}) ids (elements (exclude_connection_ids self))).

(** One target: looked up when its turn comes, errors ignored. *)
Definition visit (n : nat) (f : nat → srv unit) (i : Z) : srv unit :=
  c <- ns_get n (λ x, connections x !! i) ;;
  match c with Some c => ignore (f c) | None => Ret tt end.

Definition for_each_target_connections (self : WsIoServerNamespaceBroadcastOperator)
    (f : nat → srv unit) : srv unit :=
  ids <- target_connection_ids self ;;
  if bool_decide (ids = ∅) then Ret tt
  else join_all (visit (op_namespace self) f <$> elements ids).

Definition close (self : WsIoServerNamespaceBroadcastOperator) : srv unit :=
  for_each_target_connections self Connection.close.

Definition disconnect (self : WsIoServerNamespaceBroadcastOperator) : srv unit :=
  message <- encode_packet_to_message (op_namespace self) new_disconnect ;;
  for_each_target_connections self (λ c, send_message c message).

Definition emit (self : WsIoServerNamespaceBroadcastOperator) (event : string)
    (data : option any) : srv unit :=
  r <- ns_get (op_namespace self) (λ x, cell_ensure (status x) NsRunning
    (λ s, "Cannot emit in invalid status: " ++ show_namespace_status s)%string) ;;
  _ <- of_result r ;;
  codec <- ns_get (op_namespace self) (λ x, ns_packet_codec (config x)) ;;
  bytes <- of_result (encode_payload codec data) ;;
  message <- encode_packet_to_message (op_namespace self) (new_event event bytes) ;;
  for_each_target_connections self (λ c, emit_event_message c message).

(** [WsIoServerConnection::to] and [except]: never to the connection itself. *)
Definition connection_to (c : nat) (room_names : list string) :
    srv WsIoServerNamespaceBroadcastOperator :=
  n <- conn_get c namespace ;; i <- conn_get c id ;;
  Ret (except_connection_ids [i] (to room_names (new n))).

Definition connection_except (c : nat) (room_names : list string) :
    srv WsIoServerNamespaceBroadcastOperator :=
  n <- conn_get c namespace ;; i <- conn_get c id ;;
  Ret (except_connection_ids [i] (except room_names (new n))).
End broadcast.
