(* ===== verification/Namespace.v ===== *)
(** * Namespaces ([wsio-server/src/namespace/mod.rs])

    Upgrades, the life of a connection from the upgrade to its cleanup, and
    shutdown. *)

From S2P Require Import Prelude Async Concurrent Extern ChannelCapacity Packet Codecs.
From S2P Require Import EventRegistry Extensions ServerConfig ServerState Connection Broadcast.

Section namespace.
Context `{T : Types} `{Cells : AtomicEnumCell} `{Chans : Mpsc} `{Crates : !SerdeCrates}.
Context (log2 : f64 → f64).

Definition namespace_new (cfg : WsIoServerNamespaceConfig) : WsIoServerNamespace := {|
  config := cfg; connection_ids := ∅; connections := ∅; connection_task_set := ∅;
  task_set_locked := false; rooms := ∅; status := cell_new NsRunning |}.

(** ** The reader and the writer of a connection *)

(** One turn of the read loop; [false] leaves it. *)
Definition read_turn (c : nat) (message : option Message) : srv bool :=
  let result_of p := r <- attempt p ;; Ret (is_ok r) in
  match message with
  | Some (Binary bytes) =>
      if (length bytes =? 1) then Ret true (* heartbeat *)
      else result_of (handle_incoming_packet c bytes)
  | Some Close | None => Ret false
  | Some (Text text) => result_of (handle_incoming_packet c text)
  | Some _ => Ret true
  end.

(** The loops run as long as frames arrive; [fuel] bounds how many. *)
Fixpoint read_ws_stream_task (fuel : nat) (c : nat) : srv unit :=
  match fuel with
  | 0 => Ret tt
  | S fuel =>
      Await (WsNext c) (λ r,
        match r with
        | RFrame message =>
            continue <- read_turn c message ;;
            if (continue : bool) then read_ws_stream_task fuel c else Ret tt
        | _ => Panic "not an answer of the stream"
        end)
  end.

(** [message_rx.recv()]: waits for a message; the sender lives in the
    connection, so the channel does not end. *)
Definition recv (c : nat) : srv (option Message) :=
  Atom (λ w, match connection_heap w !! c with
             | Some x =>
                 match (chan_try_recv (message_tx x)).2 with
                 | Some _ => Some (conn_set c
                     (λ x, x .[ message_tx := (chan_try_recv (message_tx x)).1 ]) w)
                 | None => None
                 end
             | None => None
             end)
       (λ w, Ret (connection_heap w !! c ≫= λ x, (chan_try_recv (message_tx x)).2)).

(** [message_rx] is dropped with the writer, whether it ends or is aborted. *)
Definition drop_receiver (c : nat) : srv unit :=
  conn_upd c (λ x, x .[ message_tx := chan_close (message_tx x) ]).

Fixpoint write_ws_stream_task (fuel : nat) (c : nat) : srv unit :=
  match fuel with
  | 0 => Ret tt
  | S fuel =>
      m <- recv c ;;
      match m with
      | None => drop_receiver c
      | Some message =>
          Await (WsSend (Some c) message) (λ r,
            match r with
            | RUnit (Ok _) =>
                if decide (message = Close)
                then Await (WsClose (Some c)) (λ _, drop_receiver c)
                else write_ws_stream_task fuel c
            | _ => drop_receiver c
            end)
      end
  end.

(** ** An upgraded request *)
Definition handle_upgraded_request (n : nat) (hs : list (string * bytes)) (uri : string) :
    srv unit :=
  rt <- gets (λ w, cell_is (rt_status (runtime w)) RtRunning) ;;
  ns <- ns_get n (λ x, cell_is (status x) NsRunning) ;;
  if negb rt || negb ns then
    message <- encode_packet_to_message n new_disconnect ;;
    Await (WsSend None message) unit_reply ;;
    Await (WsClose None) (λ _, Ret tt)
  else
    c <- connection_new log2 hs n uri ;;
    reader <- spawn (ReadWsStream c) ;;
    writer <- spawn (WriteWsStream c) ;;
    r <- attempt (init c) ;;
    match r with
    | Ok _ =>
        Await (AnyTask [reader; writer]) (λ r,
          match r with
          | REnded t => if decide (t = reader) then abort writer ;; drop_receiver c else abort reader
          | _ => Panic "not an answer of select"
          end)
    | Err _ =>
        abort reader ;;
        Connection.close c ;;
        Await (AllTasks [reader; writer]) (λ _, Ret tt)
    end ;;
    cleanup c.

Definition lock_task_set (n : nat) : srv unit :=
  block (λ w, match namespace_heap w !! n with
              | Some x => if task_set_locked x then None
                          else Some (ns_set n (λ x, x .[ task_set_locked := true ]) w)
              | None => Some w
              end).

Definition unlock_task_set (n : nat) : srv unit :=
  ns_upd n (λ x, x .[ task_set_locked := false ]).

(** The body of the task spawned for one request; its last act is to leave
    the set of connection tasks.  (The [JoinSet] keeps finished tasks until
    [shutdown] joins them; the set of the model has those not finished, which is what
    [shutdown] waits for.) *)
Definition upgrade_task (n t : nat) (hs : list (string * bytes)) (uri : string) : srv unit :=
  Await Upgrade (λ r,
    match r with
    | RUnit (Ok _) => ignore (handle_upgraded_request n hs uri)
    | _ => Ret tt (* the upgrade failed or took too long *)
    end) ;;
  ns_upd n (λ x, x .[ connection_task_set := connection_task_set x ∖ {[t]} ]).

Definition handle_on_upgrade_request (n : nat) (hs : list (string * bytes)) (uri : string) :
    srv unit :=
  lock_task_set n ;;
  t <- spawn (HandleUpgrade n hs uri) ;;
  ns_upd n (λ x, x .[ connection_task_set := connection_task_set x ∪ {[t]} ]) ;;
  unlock_task_set n.

(** ** Whole-namespace operations *)
Definition close_all (n : nat) : srv unit := Broadcast.close (Broadcast.new n).
Definition disconnect_all (n : nat) : srv unit := Broadcast.disconnect (Broadcast.new n).
Definition emit (n : nat) (event : string) (data : option any) : srv unit :=
  Broadcast.emit (Broadcast.new n) event data.
Definition except (n : nat) (room_names : list string) := Broadcast.except room_names (Broadcast.new n).
Definition to (n : nat) (room_names : list string) := Broadcast.to room_names (Broadcast.new n).

Definition shutdown (n : nat) : srv unit :=
  s <- ns_get n (λ x, cell_get (status x)) ;;
  match s with
  | NsStopped => Ret tt
  | NsRunning =>
      ns_upd n (λ x, x .[ status := cell_store (status x) NsStopping ]) ;;
      close_all n ;;
      lock_task_set n ;;
      (* while connection_task_set.join_next().await.is_some() {} *)
      block (λ w, match namespace_heap w !! n with
                  | Some x => if bool_decide (connection_task_set x = ∅) then Some w else None
                  | None => Some w
                  end) ;;
      ns_upd n (λ x, x .[ status := cell_store (status x) NsStopped ]) ;;
      unlock_task_set n
  | NsStopping => Panic "internal error: entered unreachable code"
  end.
End namespace.
