(* ===== verification/ServerRuntime.v ===== *)
(** * The server runtime ([wsio-server/src/runtime.rs], [lib.rs]) *)

From S2P Require Import Prelude Async Concurrent Extern ChannelCapacity Packet Codecs.
From S2P Require Import EventRegistry Extensions ServerConfig ServerState Connection Broadcast.
From S2P Require Import Namespace.

Section runtime.
Context `{T : Types} `{Cells : AtomicEnumCell} `{Chans : Mpsc} `{Crates : !SerdeCrates}.

Definition runtime_new (cfg : WsIoServerConfig) : WsIoServerRuntime := {|
  rt_config := cfg; rt_connection_ids := ∅; namespaces := ∅; rt_status := cell_new RtRunning |}.

Definition server_new (cfg : WsIoServerConfig) : Server := {|
  runtime := runtime_new cfg; namespace_heap := ∅; connection_heap := ∅;
  next_connection_id := 0; tasks := ∅ |}.

Definition clone_namespaces : srv (list nat) :=
  gets (λ w, (map_to_list (namespaces (runtime w))).*2).

Definition get_namespace (p : string) : srv (option nat) :=
  gets (λ w, namespaces (runtime w) !! p).

Definition namespace_count (w : Server) : nat := size (namespaces (runtime w)).

(** The check and the insertion take the lock separately. *)
Definition insert_namespace (n : nat) : srv unit :=
  p <- ns_get n (λ x, path (config x)) ;;
  taken <- gets (λ w, bool_decide (is_Some (namespaces (runtime w) !! p))) ;;
  if (taken : bool) then Fail (EMsg ("Namespace " ++ p ++ " already exists")%string)
  else rt_upd (λ r, r .[ namespaces := <[p := n]> (namespaces r) ]).

(** [WsIoServerNamespace::new] *)
Definition alloc_namespace (cfg : WsIoServerNamespaceConfig) : srv nat :=
  Atom (λ w, Some (w .[ namespace_heap :=
          <[fresh (dom (namespace_heap w)) := namespace_new cfg]> (namespace_heap w) ]))
    (λ w, Ret (fresh (dom (namespace_heap w)))).

(** [WsIoServerNamespaceBuilder::register] *)
Definition register (cfg : WsIoServerNamespaceConfig) : srv nat :=
  n <- alloc_namespace cfg ;;
  insert_namespace n ;;
  Ret n.

Definition new_namespace_builder (p : string) : srv WsIoServerNamespaceConfig :=
  gets (λ w, namespace_builder_new p (rt_config (runtime w))).

Definition close_all : srv unit :=
  ns <- clone_namespaces ;; join_all (Namespace.close_all <$> ns).

Definition disconnect_all : srv unit :=
  ns <- clone_namespaces ;; join_all ((λ n, ignore (Namespace.disconnect_all n)) <$> ns).

Definition emit (event : string) (data : option any) : srv unit :=
  r <- gets (λ w, cell_ensure (rt_status (runtime w)) RtRunning
    (λ s, "Cannot emit in invalid status: " ++ show_runtime_status s)%string) ;;
  _ <- of_result r ;;
  ns <- clone_namespaces ;;
  join_all ((λ n, ignore (Namespace.emit n event data)) <$> ns).

Definition remove_namespace (p : string) : srv unit :=
  n <- Atom (λ w, Some (rt_set (λ r, r .[ namespaces := delete p (namespaces r) ]) w))
         (λ w, Ret (namespaces (runtime w) !! p)) ;;
  match n with
  | None => Ret tt
  | Some n => Namespace.shutdown n
  end.

Definition shutdown : srv unit :=
  s <- gets (λ w, cell_get (rt_status (runtime w))) ;;
  match s with
  | RtStopped => Ret tt
  | RtRunning =>
      rt_upd (λ r, r .[ rt_status := cell_store (rt_status r) RtStopping ]) ;;
      ns <- clone_namespaces ;;
      join_all (Namespace.shutdown <$> ns) ;;
      rt_upd (λ r, r .[ rt_status := cell_store (rt_status r) RtStopped ])
  | RtStopping => Panic "internal error: entered unreachable code"
  end.
End runtime.
