(* ===== verification/RunServer.v ===== *)
(** * Running the server's operations

    What the primitive operations do when they are run, the tactic [step_run]
    that walks down a program, and lookups after updates. *)

From S2P Require Import Prelude Async Concurrent Extern ChannelCapacity Packet Codecs.
From S2P Require Import EventRegistry Extensions ServerConfig ServerState Connection Broadcast.
From S2P Require Import Namespace ServerRuntime.

Section run.
Context `{T : Types} `{Cells : AtomicEnumCell} `{Chans : Mpsc} `{Crates : !SerdeCrates}.

(** ** Lookups *)
Lemma conn_set_same c f w x :
  connection_heap w !! c = Some x → connection_heap (conn_set c f w) !! c = Some (f x).
Proof. intros Hx. simpl. by rewrite lookup_alter_eq, Hx. Qed.

Lemma conn_set_other c d f w x :
  c ≠ d → connection_heap w !! d = Some x → connection_heap (conn_set c f w) !! d = Some x.
Proof. intros Hcd Hx. simpl. by rewrite lookup_alter_ne. Qed.

Lemma conn_set_ns c f w n y :
  namespace_heap w !! n = Some y → namespace_heap (conn_set c f w) !! n = Some y.
Proof. done. Qed.

Lemma ns_set_same n f w y :
  namespace_heap w !! n = Some y → namespace_heap (ns_set n f w) !! n = Some (f y).
Proof. intros Hy. simpl. by rewrite lookup_alter_eq, Hy. Qed.

Lemma ns_set_conn n f w c x :
  connection_heap w !! c = Some x → connection_heap (ns_set n f w) !! c = Some x.
Proof. done. Qed.

Lemma rt_set_conn f w c x :
  connection_heap w !! c = Some x → connection_heap (rt_set f w) !! c = Some x.
Proof. done. Qed.

Lemma rt_set_ns f w n y :
  namespace_heap w !! n = Some y → namespace_heap (rt_set f w) !! n = Some y.
Proof. done. Qed.

Lemma tasks_conn t w c x :
  connection_heap w !! c = Some x → connection_heap (w .[ tasks := t ]) !! c = Some x.
Proof. done. Qed.

Lemma tasks_ns t w n y :
  namespace_heap w !! n = Some y → namespace_heap (w .[ tasks := t ]) !! n = Some y.
Proof. done. Qed.

(** ** Primitive operations, followed by the rest of the program *)
Section then_.
Context {B : Type}.
Implicit Types (r : result B) (tr : list (label * reply)).

Lemma goes_conn_get {A} c (f : WsIoServerConnection → A) (k : A → srv B) w x tr r w' :
  connection_heap w !! c = Some x → goes (k (f x)) w tr r w' → goes (bind (conn_get c f) k) w tr r w'.
Proof. intros Hx Hk. eapply goes_then; [|done]. eapply goes_atom; [done|]. by rewrite Hx. Qed.

Lemma goes_ns_get {A} n (f : WsIoServerNamespace → A) (k : A → srv B) w y tr r w' :
  namespace_heap w !! n = Some y → goes (k (f y)) w tr r w' → goes (bind (ns_get n f) k) w tr r w'.
Proof. intros Hx Hk. eapply goes_then; [|done]. eapply goes_atom; [done|]. by rewrite Hx. Qed.

Lemma goes_conn_upd c f (k : unit → srv B) w tr r w' :
  goes (k tt) (conn_set c f w) tr r w' → goes (bind (conn_upd c f) k) w tr r w'.
Proof. intros Hk. by eapply goes_then. Qed.

Lemma goes_ns_upd n f (k : unit → srv B) w tr r w' :
  goes (k tt) (ns_set n f w) tr r w' → goes (bind (ns_upd n f) k) w tr r w'.
Proof. intros Hk. by eapply goes_then. Qed.

Lemma goes_rt_upd f (k : unit → srv B) w tr r w' :
  goes (k tt) (rt_set f w) tr r w' → goes (bind (rt_upd f) k) w tr r w'.
Proof. intros Hk. by eapply goes_then. Qed.

Lemma goes_get {A} (f : Server → A) (k : A → srv B) w tr r w' :
  goes (k (f w)) w tr r w' → goes (bind (gets f) k) w tr r w'.
Proof. intros Hk. by eapply goes_then. Qed.

Lemma goes_ok {A} (a : A) (k : A → srv B) w tr r w' :
  goes (k a) w tr r w' → goes (bind (of_result (Ok a)) k) w tr r w'.
Proof. done. Qed.

Lemma goes_state_store c s (k : unit → srv B) w tr r w' :
  goes (k tt) (conn_set c (λ x, x .[ state := cell_store (state x) s ]) w) tr r w' →
  goes (bind (state_store c s) k) w tr r w'.
Proof. apply goes_conn_upd. Qed.

Lemma goes_try_transition c s t (k : unit → srv B) w x tr r w' :
  connection_heap w !! c = Some x → cell_get (state x) = s →
  goes (k tt) (conn_set c (λ x, x .[ state := (cell_try_transition (state x) s t).1 ]) w) tr r w' →
  goes (bind (try_transition c s t) k) w tr r w'.
Proof.
  intros Hx Hs Hk. eapply goes_then; [|done]. eapply goes_atom; [done|].
  rewrite Hx. by destruct (cell_try_transition_hit (state x) s t Hs) as [_ ->].
Qed.

Lemma goes_try_transition_err c s t (k : unit → srv B) w x :
  connection_heap w !! c = Some x → cell_get (state x) ≠ s →
  goes (bind (try_transition c s t) k) w [] (Err ETransition)
    (conn_set c (λ x, x .[ state := (cell_try_transition (state x) s t).1 ]) w).
Proof.
  intros Hx Hs. apply goes_bind_err. eapply goes_atom; [done|].
  rewrite Hx. by destruct (cell_try_transition_miss (state x) s t Hs) as [_ ->].
Qed.

Lemma goes_spawn t (k : nat → srv B) w tr r w' :
  goes (k (fresh (dom (tasks w)))) (w .[ tasks := <[fresh (dom (tasks w)) := t]> (tasks w) ]) tr r w' →
  goes (bind (spawn t) k) w tr r w'.
Proof. intros Hk. by eapply goes_then. Qed.

(** A handler that is configured, or not. *)
Lemma goes_optional {A} (o : option A) (f : A → srv unit) t (k : unit → srv B) w tr r w' :
  (∀ a, o = Some a → goes (f a) w (t a) (Ok tt) w) → goes (k tt) w tr r w' →
  goes (bind (match o with Some a => f a | None => Ret tt end) k) w
    (match o with Some a => t a | None => [] end ++ tr) r w'.
Proof. intros Hf Hk. destruct o; [|done]. eapply goes_bind; [by apply Hf | done]. Qed.
End then_.

Lemma goes_ensured c s msg w x :
  connection_heap w !! c = Some x → cell_get (state x) = s → goes (ensure c s msg) w [] (Ok tt) w.
Proof.
  intros Hx Hs. unfold ensure. eapply goes_conn_get; [done|].
  rewrite cell_ensure_spec. by rewrite decide_True.
Qed.

Lemma goes_ensure {B} c s msg (k : unit → srv B) w x tr (r : result B) w' :
  connection_heap w !! c = Some x → cell_get (state x) = s →
  goes (k tt) w tr r w' → goes (bind (ensure c s msg) k) w tr r w'.
Proof. intros. eapply goes_then; [by eapply goes_ensured | done]. Qed.

Lemma goes_ensure_err {B} c s msg (k : unit → srv B) w x :
  connection_heap w !! c = Some x → cell_get (state x) ≠ s →
  goes (bind (ensure c s msg) k) w [] (Err (EMsg (msg (cell_get (state x))))) w.
Proof.
  intros Hx Hs. apply goes_bind_err. unfold ensure. eapply goes_conn_get; [done|].
  rewrite cell_ensure_spec. by rewrite decide_False.
Qed.

End run.

(** Look a connection or a namespace up after updates. *)
Ltac look :=
  lazymatch goal with
  | |- connection_heap (conn_set _ _ _) !! _ = Some _ =>
      first [ apply conn_set_same; look | apply conn_set_other; [by auto|]; look ]
  | |- connection_heap (ns_set _ _ _) !! _ = Some _ => apply ns_set_conn; look
  | |- connection_heap (rt_set _ _) !! _ = Some _ => apply rt_set_conn; look
  | |- connection_heap (_ .[ tasks := _ ]) !! _ = Some _ => apply tasks_conn; look
  | |- namespace_heap (conn_set _ _ _) !! _ = Some _ => apply conn_set_ns; look
  | |- namespace_heap (ns_set _ _ _) !! _ = Some _ => apply ns_set_same; look
  | |- namespace_heap (rt_set _ _) !! _ = Some _ => apply rt_set_ns; look
  | |- namespace_heap (_ .[ tasks := _ ]) !! _ = Some _ => apply tasks_ns; look
  | |- _ => eassumption
  end.

(** One step of a program that is a sequence of primitive operations. *)
Ltac step_run :=
  lazymatch goal with
  | |- goes (bind (conn_get _ _) _) _ _ _ _ => eapply goes_conn_get; [look|]; simpl
  | |- goes (bind (ns_get _ _) _) _ _ _ _ => eapply goes_ns_get; [look|]; simpl
  | |- goes (bind (conn_upd _ _) _) _ _ _ _ => apply goes_conn_upd
  | |- goes (bind (ns_upd _ _) _) _ _ _ _ => apply goes_ns_upd
  | |- goes (bind (rt_upd _) _) _ _ _ _ => apply goes_rt_upd
  | |- goes (bind (gets _) _) _ _ _ _ => apply goes_get
  | |- goes (bind (spawn _) _) _ _ _ _ => apply goes_spawn
  | |- goes (bind (state_store _ _) _) _ _ _ _ => apply goes_state_store
  | |- goes (conn_upd _ _) _ _ _ _ => apply goes_modify
  | |- goes (ns_upd _ _) _ _ _ _ => apply goes_modify
  | |- goes (rt_upd _) _ _ _ _ => apply goes_modify
  | |- goes (Ret _) _ _ _ _ => apply goes_ret
  | |- goes (Fail _) _ _ _ _ => apply goes_fail
  end.

Section tables.
Context `{T : Types} `{Cells : AtomicEnumCell} `{Chans : Mpsc} `{Crates : !SerdeCrates}.

(** ** Operations on the tables *)
Definition abort_watchdog (c : nat) (w : Server) : Server :=
  let w1 := conn_set c (λ x, x .[ init_timeout_task := None ]) w in
  match connection_heap w !! c ≫= init_timeout_task with
  | Some i => w1 .[ tasks := delete i (tasks w1) ]
  | None => w1
  end.

Lemma goes_abort_locked_task c w :
  goes (abort_locked_task c) w [] (Ok tt) (abort_watchdog c w).
Proof.
  eapply goes_then; [by eapply goes_atom|]. simpl. unfold abort_watchdog.
  by destruct (connection_heap w !! c ≫= init_timeout_task).
Qed.

Lemma abort_watchdog_spec c w x :
  connection_heap w !! c = Some x →
  connection_heap (abort_watchdog c w) = <[c := x .[ init_timeout_task := None ]]> (connection_heap w) ∧
  namespace_heap (abort_watchdog c w) = namespace_heap w ∧
  runtime (abort_watchdog c w) = runtime w ∧
  next_connection_id (abort_watchdog c w) = next_connection_id w ∧
  tasks (abort_watchdog c w) =
    match init_timeout_task x with Some i => delete i (tasks w) | None => tasks w end.
Proof.
  intros Hx. unfold abort_watchdog. rewrite Hx. simpl.
  destruct (init_timeout_task x); simpl; by rewrite (alter_some _ _ _ _ Hx).
Qed.

(** Successive updates of one connection, or of one namespace. *)
Lemma conn_set_insert c f w h x :
  connection_heap w = <[c := x]> h → connection_heap (conn_set c f w) = <[c := f x]> h.
Proof. intros Hx. simpl. by rewrite Hx, alter_insert_same. Qed.

Lemma ns_set_insert n f w h y :
  namespace_heap w = <[n := y]> h → namespace_heap (ns_set n f w) = <[n := f y]> h.
Proof. intros Hy. simpl. by rewrite Hy, alter_insert_same. Qed.

Lemma conn_set_first c f w x :
  connection_heap w !! c = Some x → connection_heap (conn_set c f w) = <[c := f x]> (connection_heap w).
Proof. intros Hx. simpl. by apply alter_some. Qed.

Lemma ns_set_first n f w y :
  namespace_heap w !! n = Some y → namespace_heap (ns_set n f w) = <[n := f y]> (namespace_heap w).
Proof. intros Hy. simpl. by apply alter_some. Qed.

Definition table_insert (n c : nat) (i : Z) (w : Server) : Server :=
  ns_set n (λ y, y .[ connection_ids := connection_ids y ∪ {[i]} ])
    (rt_set (λ r, r .[ rt_connection_ids := rt_connection_ids r ∪ {[i]} ])
      (ns_set n (λ y, y .[ connections := <[i := c]> (connections y) ]) w)).

Lemma goes_insert_connection n c w x :
  connection_heap w !! c = Some x →
  goes (insert_connection n c) w [] (Ok tt) (table_insert n c (id x) w).
Proof. intros Hx. unfold insert_connection, insert_connection_id. by repeat step_run. Qed.

Lemma table_insert_same n c i w y :
  namespace_heap w !! n = Some y →
  namespace_heap (table_insert n c i w) !! n =
    Some (y .[ connections := <[i := c]> (connections y) ] .[ connection_ids := connection_ids y ∪ {[i]} ]).
Proof. intros Hy. simpl. by rewrite (alter_some _ _ _ _ Hy), alter_insert_same, lookup_insert_eq. Qed.

Definition table_remove (n : nat) (i : Z) (w : Server) : Server :=
  ns_set n (λ y, y .[ connection_ids := connection_ids y ∖ {[i]} ])
    (rt_set (λ r, r .[ rt_connection_ids := rt_connection_ids r ∖ {[i]} ])
      (ns_set n (λ y, y .[ connections := delete i (connections y) ]) w)).

Lemma goes_remove_connection n i w :
  goes (remove_connection n i) w [] (Ok tt) (table_remove n i w).
Proof. unfold remove_connection, remove_connection_id. by repeat step_run. Qed.

(** ** Messages *)
Lemma goes_send_message c m w x :
  connection_heap w !! c = Some x → chan_closed (message_tx x) = false →
  length (chan_items (message_tx x)) < chan_cap (message_tx x) →
  ∃ ch, chan_items ch = chan_items (message_tx x) ++ [m] ∧ chan_cap ch = chan_cap (message_tx x) ∧
    chan_closed ch = false ∧
    goes (send_message c m) w [] (Ok tt) (conn_set c (λ x, x .[ message_tx := ch ]) w).
Proof.
  intros Hx Hopen Hroom. pose proof (chan_send_spec (message_tx x) m) as Hs.
  destruct (chan_send (message_tx x) m) as [[ch res]|] eqn:E; [|lia].
  rewrite Hopen in Hs. destruct Hs as (Hcap & Hcl & _ & Hit & ->).
  exists ch. split_and!; [done | done | done |].
  eapply goes_atom; [by rewrite Hx, E|]. simpl. by rewrite Hx, E.
Qed.

Lemma goes_unit_handler c h arg x w :
  goes (call_unit_handler c h arg) w [(Handler c h arg, RUnit x)] x w.
Proof. apply goes_await. by destruct x. Qed.

Lemma goes_unit_handler_elapsed c h arg w :
  goes (call_unit_handler c h arg) w [(Handler c h arg, RElapsed)] (Err EElapsed) w.
Proof. by apply goes_await. Qed.

Lemma goes_encode n p w y b :
  namespace_heap w !! n = Some y → encode (ns_packet_codec (config y)) p = Ok b →
  goes (encode_packet_to_message n p) w [] (Ok (message_of (ns_packet_codec (config y)) b)) w.
Proof.
  intros Hy Hb. unfold encode_packet_to_message. eapply goes_ns_get; [done|].
  rewrite Hb. by eapply goes_then.
Qed.

Lemma goes_encode_err n p w y e :
  namespace_heap w !! n = Some y → encode (ns_packet_codec (config y)) p = Err e →
  goes (encode_packet_to_message n p) w [] (Err e) w.
Proof.
  intros Hy Hb. unfold encode_packet_to_message. eapply goes_ns_get; [done|].
  rewrite Hb. by apply goes_bind_err.
Qed.

Lemma goes_send_packet c p w x y b :
  connection_heap w !! c = Some x → namespace_heap w !! namespace x = Some y →
  encode (ns_packet_codec (config y)) p = Ok b → chan_closed (message_tx x) = false →
  length (chan_items (message_tx x)) < chan_cap (message_tx x) →
  ∃ ch, chan_items ch =
      chan_items (message_tx x) ++ [message_of (ns_packet_codec (config y)) b] ∧
    chan_cap ch = chan_cap (message_tx x) ∧ chan_closed ch = false ∧
    goes (send_packet c p) w [] (Ok tt) (conn_set c (λ x, x .[ message_tx := ch ]) w).
Proof.
  intros Hx Hy Hb Hopen Hroom.
  destruct (goes_send_message c (message_of (ns_packet_codec (config y)) b) w x)
    as (ch & Hit & Hcap & Hcl & Hgo); [done..|].
  exists ch. split_and!; [done..|]. unfold send_packet. eapply goes_conn_get; [done|].
  eapply goes_then; [by apply goes_encode | done].
Qed.
End tables.

