(* ===== verification/RefServer.v ===== *)
(** * A concrete server

    The reference instances of [Extern], put together: a server with one
    namespace and two connections.  Examples and witnesses are evaluated on
    it. *)

From S2P Require Import Prelude Async Concurrent Extern ChannelCapacity Packet Codecs.
From S2P Require Import EventRegistry Extensions ServerConfig ServerState Connection Broadcast.
From S2P Require Import Namespace ServerRuntime.

#[local] Existing Instances ref_types ref_cell ref_mpsc ref_crates.

Definition after {A} (rs : list reply) (p : srv A) (w : Server) : Server := final (run rs p w).2.

(** A namespace with every handler of the handshake. *)
Definition chat_config : WsIoServerNamespaceConfig :=
  foldl (λ c s, namespace_set s c)
    (namespace_builder_new "/chat" (ServerBuilder.build []))
    [NsWithInitRequest false "greet"; NsWithInitResponse false "login";
     NsWithMiddleware "auth"; NsOnConnect "connected"; NsOnReady "ready"].

Definition new_server : Server := server_new (ServerBuilder.build []).

Definition chat_server : Server := after [] (register chat_config) new_server.

Definition with_connections (k : nat) : Server :=
  Nat.iter k (after [] (connection_new ref_log2 [] 0 "/ws.io?namespace=/chat")) chat_server.

Definition state_of (c : nat) (w : Server) : option ConnectionState :=
  (λ x, cell_get (state x)) <$> connection_heap w !! c.

Definition queue_of (c : nat) (w : Server) : option (list Message) :=
  (λ x, chan_items (message_tx x)) <$> connection_heap w !! c.

(** The handshake of one connection: the server asks, the client answers. *)
Definition greeting : reply := RData (Ok (Some (@Any ref_types false "hello"%string))).

Definition awaiting : Server := after [greeting] (init 0) (with_connections 2).

Definition ok_unit : reply := RUnit (Ok tt).

Definition login_data : bytes := String.list_byte_of_string "secret".

Definition ready_server : Server :=
  after [ok_unit; ok_unit; ok_unit] (handle_init_packet 0 (Some login_data)) awaiting.

Example chat_handshake :
  state_of 0 (with_connections 2) = Some Created ∧
  state_of 0 awaiting = Some AwaitingInit ∧
  state_of 0 ready_server = Some ConnReady ∧ state_of 1 ready_server = Some Created.
Proof. by vm_compute. Qed.
