(* ===== verification/Lifecycle.v ===== *)
(** * The life of a connection, whatever is interleaved

    [server_task] lists every operation of the server a task can be running.
    All of them, on any connection, in any order and interleaved at every
    atomic operation, move a connection's state only along [edge]. *)

From S2P Require Import Prelude Async Concurrent Spawner Extern ChannelCapacity Packet Codecs.
From S2P Require Import EventRegistry Extensions ServerConfig ServerState Connection Broadcast.
From S2P Require Import Namespace ServerRuntime RefServer.

(** The state machine of a connection. *)
Inductive edge : ConnectionState → ConnectionState → Prop :=
| edge_init : edge Created AwaitingInit
| edge_packet : edge AwaitingInit Initiating
| edge_activate : edge Initiating Activating
| edge_ready : edge Activating ConnReady
| edge_closing s : edge s Closing
| edge_closed s : edge s Closed.

(** How far a connection has got; closing and closed are the end. *)
Definition rank (s : ConnectionState) : nat :=
  match s with
  | Created => 0 | AwaitingInit => 1 | Initiating => 2 | Activating => 3 | ConnReady => 4
  | Closing | Closed => 5
  end.

Lemma edge_rank s t : edge s t → rank s ≤ rank t.
Proof. intros [| | | |u|u]; simpl; try lia; destruct u; simpl; lia. Qed.

Lemma edges_rank s t : rtc edge s t → rank s ≤ rank t.
Proof. induction 1 as [|s t u H _ IH]; [done|]. apply edge_rank in H. lia. Qed.

#[export] Hint Constructors edge : wsio.

Section lifecycle.
Context `{T : Types} `{Cells : AtomicEnumCell} `{Chans : Mpsc} `{Crates : !SerdeCrates}.
Context (log2 : f64 → f64).

(** The operations that take a connection through the handshake or run its events, and
    all the others. *)
Inductive handshake_task : srv unit → Prop :=
| ht_init c : handshake_task (init c)
| ht_packet c b : handshake_task (handle_incoming_packet c b)
| ht_read fuel c : handshake_task (read_ws_stream_task fuel c)
| ht_upgrade n t hs uri : handshake_task (upgrade_task log2 n t hs uri)
| ht_dispatch c p codec d : handshake_task (under_token c (run_dispatch c p codec d)).

Inductive other_task : srv unit → Prop :=
| st_close c : other_task (Connection.close c)
| st_cleanup c : other_task (cleanup c)
| st_disconnect c : other_task (Connection.disconnect c)
| st_emit c event d : other_task (Connection.emit c event d)
| st_join c rs : other_task (join c rs)
| st_leave c rs : other_task (leave c rs)
| st_on c event h : other_task (on c event h ;; Ret tt)
| st_off c event : other_task (off c event)
| st_off_id c event i : other_task (off_by_handler_id c event i)
| st_on_close c h : other_task (on_close c h)
| st_watchdog c : other_task (init_watchdog c)
| st_handler c h arg : other_task (under_token c (call_unit_handler c h arg))
| st_write fuel c : other_task (write_ws_stream_task fuel c)
| st_request n hs uri : other_task (handle_on_upgrade_request n hs uri)
| st_bc_close o : other_task (Broadcast.close o)
| st_bc_disconnect o : other_task (Broadcast.disconnect o)
| st_bc_emit o event d : other_task (Broadcast.emit o event d)
| st_ns_shutdown n : other_task (Namespace.shutdown n)
| st_register cfg : other_task (register cfg ;; Ret tt)
| st_remove p : other_task (remove_namespace p)
| st_close_all : other_task ServerRuntime.close_all
| st_disconnect_all : other_task ServerRuntime.disconnect_all
| st_rt_emit event d : other_task (ServerRuntime.emit event d)
| st_shutdown : other_task ServerRuntime.shutdown.

Definition server_task (p : srv unit) : Prop := handshake_task p ∨ other_task p.

Section guarantee.
(** [may]: whether the task at hand may take a connection to [AwaitingInit] or
    [Ready], the states that say what handlers have answered. *)
Context (may : Prop).

Definition gated (s : ConnectionState) : Prop := s = AwaitingInit ∨ s = ConnReady.

(** What every task guarantees about every connection, .. *)
Definition conn_ok (x y : WsIoServerConnection) : Prop :=
  rtc edge (cell_get (state x)) (cell_get (state y)) ∧
  id y = id x ∧ namespace y = namespace x ∧
  (cancelled x = true → cancelled y = true) ∧
  (¬ may → gated (cell_get (state y)) → cell_get (state x) = cell_get (state y)).

(** .. every namespace, .. *)
Definition ns_ok (x y : WsIoServerNamespace) : Prop :=
  config y = config x ∧
  (cell_get (status x) ≠ NsRunning → cell_get (status y) ≠ NsRunning).

(** .. and the runtime. *)
Definition rt_ok (x y : WsIoServerRuntime) : Prop :=
  rt_config y = rt_config x ∧
  (cell_get (rt_status x) ≠ RtRunning → cell_get (rt_status y) ≠ RtRunning).

Record world_ok (w w' : Server) : Prop := {
  world_conns c x : connection_heap w !! c = Some x →
    ∃ y, connection_heap w' !! c = Some y ∧ conn_ok x y;
  world_nss n x : namespace_heap w !! n = Some x →
    ∃ y, namespace_heap w' !! n = Some y ∧ ns_ok x y;
  world_rt : rt_ok (runtime w) (runtime w');
  world_ready c y : ¬ may → connection_heap w' !! c = Some y →
    gated (cell_get (state y)) →
    ∃ x, connection_heap w !! c = Some x ∧ cell_get (state x) = cell_get (state y);
}.

#[local] Instance conn_ok_preorder : PreOrder conn_ok.
Proof.
  split.
  - intros x. by repeat split.
  - intros x y z (? & ? & ? & ? & Hxy) (? & ? & ? & ? & ?).
    repeat split; [by etrans | congruence | congruence | auto |].
    intros Hm Hg. assert (cell_get (state y) = cell_get (state z)) as E by auto.
    rewrite <-E. apply Hxy; [done | by rewrite E].
Qed.

#[local] Instance ns_ok_preorder : PreOrder ns_ok.
Proof.
  split; [intros x; by repeat split|]. intros x y z [? ?] [? ?]. split; [congruence | auto].
Qed.

#[local] Instance rt_ok_preorder : PreOrder rt_ok.
Proof.
  split; [intros x; by repeat split|]. intros x y z [? ?] [? ?]. split; [congruence | auto].
Qed.

#[global] Instance world_ok_preorder : PreOrder world_ok.
Proof.
  split.
  - intros w. split; try done.
    + intros c x Hx. by exists x.
    + intros n x Hx. by exists x.
    + intros c x _ Hx Hr. by exists x.
  - intros w1 w2 w3 [C1 N1 R1 Y1] [C2 N2 R2 Y2]. split.
    + intros c x Hx. destruct (C1 c x Hx) as (y & Hy & ?), (C2 c y Hy) as (z & Hz & ?).
      exists z. split; [done | by etrans].
    + intros n x Hx. destruct (N1 n x Hx) as (y & Hy & ?), (N2 n y Hy) as (z & Hz & ?).
      exists z. split; [done | by etrans].
    + by etrans.
    + intros c z Hm Hz Hr. destruct (Y2 c z Hm Hz Hr) as (y & Hy & Hry). rewrite <-Hry in Hr |- *. by apply (Y1 c y).
Qed.

Lemma conn_set_ok c f w : (∀ x, conn_ok x (f x)) → world_ok w (conn_set c f w).
Proof.
  intros Hf. split; simpl; [| |done|].
  - intros d x Hx. rewrite lookup_alter. case_decide; [|by exists x].
    subst. rewrite Hx. simpl. by exists (f x).
  - intros n x Hx. by exists x.
  - intros d y Hm. rewrite lookup_alter. case_decide; [|by exists y].
    subst. intros (x & -> & Hx)%fmap_Some Hr. exists x. split; [done|].
    subst. by apply (Hf x).
Qed.

Lemma ns_set_ok n f w : (∀ x, ns_ok x (f x)) → world_ok w (ns_set n f w).
Proof.
  intros Hf. split; simpl; [|  |done|].
  - intros c x Hx. by exists x.
  - intros m x Hx. rewrite lookup_alter. case_decide; [|by exists x].
    subst. rewrite Hx. simpl. by exists (f x).
  - intros c x _ Hx Hr. by exists x.
Qed.

Lemma rt_set_ok f w : (∀ r, rt_ok r (f r)) → world_ok w (rt_set f w).
Proof.
  intros Hf. split; simpl; [| |apply Hf|].
  - intros c x Hx. by exists x.
  - intros n x Hx. by exists x.
  - intros c x _ Hx Hr. by exists x.
Qed.

(** A change of the tasks only. *)
Lemma tasks_ok t w : world_ok w (w .[ tasks := t ]).
Proof.
  split; simpl; [| |done|].
  - intros c x Hx. by exists x.
  - intros n x Hx. by exists x.
  - intros c x _ Hx Hr. by exists x.
Qed.

(** ** The primitive operations *)
Lemma ok_conn_get {A} c (f : WsIoServerConnection → A) : guar world_ok (conn_get c f).
Proof.
  simpl. split; [by intros ? ? [= ->]|]. intros w. by destruct (connection_heap w !! c).
Qed.

Lemma ok_ns_get {A} n (f : WsIoServerNamespace → A) : guar world_ok (ns_get n f).
Proof.
  simpl. split; [by intros ? ? [= ->]|]. intros w. by destruct (namespace_heap w !! n).
Qed.

Lemma ok_conn_upd c f : (∀ x, conn_ok x (f x)) → guar world_ok (conn_upd c f).
Proof. intros. apply guar_modify. intros. by apply conn_set_ok. Qed.

Lemma ok_ns_upd n f : (∀ x, ns_ok x (f x)) → guar world_ok (ns_upd n f).
Proof. intros. apply guar_modify. intros. by apply ns_set_ok. Qed.

Lemma ok_rt_upd f : (∀ r, rt_ok r (f r)) → guar world_ok (rt_upd f).
Proof. intros. apply guar_modify. intros. by apply rt_set_ok. Qed.

Lemma ok_gets {A} (f : Server → A) : guar world_ok (gets f : srv A).
Proof. apply guar_gets, _. Qed.

Lemma ok_of_result {A} (r : result A) : guar world_ok (of_result r : srv A).
Proof. apply guar_of_result. Qed.

Lemma ok_ensure c s msg : guar world_ok (ensure c s msg).
Proof. apply guar_bind; [apply ok_conn_get | intros; apply ok_of_result]. Qed.

Lemma ok_state_store c s : s = Closing ∨ s = Closed → guar world_ok (state_store c s).
Proof.
  intros Hs. apply ok_conn_upd. intros x. repeat split; try done; simpl; rewrite cell_get_store.
  - apply rtc_once. destruct Hs as [-> | ->]; constructor.
  - destruct Hs as [-> | ->]; by intros _ [].
Qed.

Lemma ok_try_transition c s t :
  edge s t → (gated t → may) → guar world_ok (try_transition c s t).
Proof.
  intros He Ht. simpl. split.
  - intros w w' [= <-]. apply conn_set_ok. intros x.
    repeat split; try done; simpl; destruct (cell_try_transition_spec (state x) s t) as [-> _];
      (case_decide; [|done]); subst; [by apply rtc_once|]. intros Hm Hg. by destruct (Hm (Ht Hg)).
  - intros w. destruct (connection_heap w !! c); [apply ok_of_result | done].
Qed.

Lemma ok_spawn t : guar world_ok (spawn t).
Proof. simpl. split; [|done]. intros w w' [= <-]. apply tasks_ok. Qed.

Lemma ok_abort i : guar world_ok (abort i).
Proof. apply guar_modify. intros. apply tasks_ok. Qed.

(** A wait for a lock held in a connection or a namespace. *)
Lemma ok_block_conn c (b : WsIoServerConnection → bool) f :
  (∀ x, conn_ok x (f x)) →
  guar world_ok (block (λ w, match connection_heap w !! c with
    | Some x => if b x then None else Some (conn_set c f w) | None => Some w end) : srv unit).
Proof.
  intros Hf. apply guar_block. intros w w'. destruct (connection_heap w !! c) as [x|].
  - destruct (b x); [done|]. intros [= <-]. by apply conn_set_ok.
  - by intros [= <-].
Qed.

Lemma ok_block_ns n (f : WsIoServerNamespace → Server → option Server) :
  (∀ x w w', f x w = Some w' → world_ok w w') →
  guar world_ok (block (λ w, match namespace_heap w !! n with
    | Some x => f x w | None => Some w end) : srv unit).
Proof.
  intros Hf. apply guar_block. intros w w'. destruct (namespace_heap w !! n) as [x|].
  - apply Hf.
  - by intros [= <-].
Qed.

Lemma ok_join_all {A} (f : A → srv unit) l :
  (∀ a, guar world_ok (f a)) → guar world_ok (join_all (f <$> l)).
Proof. intros. apply guar_par_all, Forall_fmap, Forall_true. done. Qed.

Create HintDb ok.
#[local] Hint Resolve ok_conn_get ok_ns_get ok_gets ok_of_result ok_ensure
  ok_spawn ok_abort : ok.
#[local] Hint Extern 1 (guar _ (conn_upd _ _)) =>
  apply ok_conn_upd; intros; repeat split; done : ok.
#[local] Hint Extern 1 (guar _ (ns_upd _ _)) =>
  apply ok_ns_upd; intros; repeat split; done : ok.
#[local] Hint Extern 1 (guar _ (rt_upd _)) =>
  apply ok_rt_upd; intros; repeat split; done : ok.
#[local] Hint Extern 1 (guar _ (try_transition _ _ _)) =>
  apply ok_try_transition; [constructor | first [by intros [] | intros; assumption]] : ok.
#[local] Hint Extern 1 (guar _ (state_store _ _)) => apply ok_state_store; tauto : ok.

(** Walk down a program; [ok] has the operations already proved. *)
Ltac solve_ok :=
  repeat first
    [ solve [auto 2 with ok]
    | lazymatch goal with
      | |- guar _ (bind _ _) => apply guar_bind
      | |- guar _ (ignore _) => apply guar_ignore
      | |- guar _ (under_token _ _) => apply guar_until; [apply _|]
      | |- guar _ (attempt _) => apply guar_attempt
      | |- guar _ (seq_all _ _) => apply guar_seq_all
      | |- guar _ (join_all (_ <$> _)) => apply ok_join_all
      | |- guar _ (Await _ _) => apply guar_await
      | |- guar _ (Ret _) => exact I
      | |- guar _ (Fail _) => exact I
      | |- guar _ (Panic _) => exact I
      | |- guar _ (match ?x with _ => _ end) => destruct x
      | |- ∀ _, _ => intro
      end ].

(** ** The operations *)
Lemma ok_spawn_task t : guar world_ok (spawn_task t).
Proof. unfold spawn_task. solve_ok. Qed.

Lemma ok_abort_locked_task c : guar world_ok (abort_locked_task c).
Proof.
  apply guar_bind; [|solve_ok]. apply guar_atom; [|done].
  intros w w' [= <-]. apply conn_set_ok. by repeat split.
Qed.

Lemma ok_send_message c m : guar world_ok (send_message c m).
Proof.
  apply guar_atom.
  - intros w w'. destruct (connection_heap w !! c) as [x|] eqn:Hx; [|by intros [= <-]].
    destruct (chan_send (message_tx x) m) as [[ch r]|]; [|done].
    intros [= <-]. apply conn_set_ok. by repeat split.
  - intros w. destruct (connection_heap w !! c); [|done]. by destruct (chan_send _ _) as [[? []]|].
Qed.
#[local] Hint Resolve ok_spawn_task ok_abort_locked_task ok_send_message : ok.

Lemma ok_add_room n r i : guar world_ok (add_connection_id_to_room n r i).
Proof. unfold add_connection_id_to_room. solve_ok. Qed.
Lemma ok_remove_room n r i : guar world_ok (remove_connection_id_from_room n r i).
Proof.
  unfold remove_connection_id_from_room. solve_ok. apply ok_ns_upd. intros x.
  destruct (rooms x !! r) as [entry|]; [|done]. by case_bool_decide.
Qed.
Lemma ok_insert_connection n c : guar world_ok (insert_connection n c).
Proof. unfold insert_connection, insert_connection_id. solve_ok. Qed.
Lemma ok_remove_connection n i : guar world_ok (remove_connection n i).
Proof. unfold remove_connection, remove_connection_id. solve_ok. Qed.
Lemma ok_encode n p : guar world_ok (encode_packet_to_message n p).
Proof. unfold encode_packet_to_message. solve_ok. Qed.
#[local] Hint Resolve ok_add_room ok_remove_room ok_insert_connection ok_remove_connection
  ok_encode : ok.

Lemma ok_send_packet c p : guar world_ok (send_packet c p).
Proof. unfold send_packet. solve_ok. Qed.
Lemma ok_unit_reply r : guar world_ok (unit_reply r).
Proof. unfold unit_reply. solve_ok. Qed.
#[local] Hint Resolve ok_send_packet ok_unit_reply : ok.
Lemma ok_unit_handler c h arg : guar world_ok (call_unit_handler c h arg).
Proof. unfold call_unit_handler. solve_ok. Qed.
#[local] Hint Resolve ok_unit_handler : ok.
Lemma ok_init_request c h codec : guar world_ok (call_init_request_handler c h codec).
Proof. unfold call_init_request_handler. solve_ok. Qed.
Lemma ok_init_response c h d codec : guar world_ok (call_init_response_handler c h d codec).
Proof. unfold call_init_response_handler. solve_ok. Qed.
Lemma ok_close c : guar world_ok (Connection.close c).
Proof. unfold Connection.close, try_send_close. solve_ok. Qed.
#[local] Hint Resolve ok_init_request ok_init_response ok_close : ok.
Lemma ok_disconnect c : guar world_ok (Connection.disconnect c).
Proof. unfold Connection.disconnect. solve_ok. Qed.
Lemma ok_emit_message c m : guar world_ok (emit_event_message c m).
Proof. unfold emit_event_message. solve_ok. Qed.
#[local] Hint Resolve ok_disconnect ok_emit_message : ok.
Lemma ok_emit c event d : guar world_ok (Connection.emit c event d).
Proof. unfold Connection.emit. solve_ok. Qed.
Lemma ok_join c rs : guar world_ok (join c rs).
Proof. unfold join. solve_ok. Qed.
Lemma ok_leave c rs : guar world_ok (leave c rs).
Proof. unfold leave. solve_ok. Qed.
Lemma ok_reg_upd c f : guar world_ok (reg_upd c f).
Proof. unfold reg_upd. solve_ok. Qed.
#[local] Hint Resolve ok_emit ok_join ok_leave ok_reg_upd : ok.
Lemma ok_off_id c event i : guar world_ok (off_by_handler_id c event i).
Proof.
  apply guar_bind; [apply guar_atom|solve_ok].
  - intros w w' [= <-]. apply conn_set_ok. by repeat split.
  - intros w. by destruct (connection_heap w !! c).
Qed.
Lemma ok_on c event h : guar world_ok (on c event h).
Proof.
  apply guar_atom.
  - intros w w' [= <-]. apply conn_set_ok. intros x.
    by destruct (EventRegistry.on event h (event_registry x)); repeat split.
  - intros w. destruct (connection_heap w !! c); [|done]. by destruct (EventRegistry.on _ _ _).
Qed.
Lemma ok_lock_on_close c : guar world_ok (lock_on_close c).
Proof. apply (ok_block_conn c on_close_locked). by repeat split. Qed.
#[local] Hint Resolve ok_off_id ok_on ok_lock_on_close : ok.
Lemma ok_on_close c h : guar world_ok (on_close c h).
Proof. unfold on_close, unlock_on_close. solve_ok. Qed.
Lemma ok_handle_event c event d : guar world_ok (handle_event_packet c event d).
Proof. unfold handle_event_packet. solve_ok. Qed.
Lemma ok_init c : may → guar world_ok (init c).
Proof. intros. unfold init. solve_ok. Qed.
Lemma ok_init_watchdog c : guar world_ok (init_watchdog c).
Proof. unfold init_watchdog. solve_ok. Qed.
Lemma ok_handshake c d : may → guar world_ok (handshake c d).
Proof. intros. unfold handshake. solve_ok. Qed.
#[local] Hint Resolve ok_on_close ok_handle_event ok_init ok_init_watchdog ok_handshake : ok.
Lemma ok_handle_init c d : may → guar world_ok (handle_init_packet c d).
Proof. intros. unfold handle_init_packet. solve_ok. Qed.
#[local] Hint Resolve ok_handle_init : ok.
Lemma ok_is_ready c : guar world_ok (is_ready c).
Proof. unfold is_ready. solve_ok. Qed.
#[local] Hint Resolve ok_is_ready : ok.
Lemma ok_handle_packet c b : may → guar world_ok (handle_incoming_packet c b).
Proof. intros. unfold handle_incoming_packet, handle_packet. solve_ok. Qed.
Lemma ok_cleanup c : guar world_ok (cleanup c).
Proof.
  unfold cleanup, unlock_on_close. solve_ok. apply guar_atom; [|done].
  intros w w' [= <-]. apply conn_set_ok. by repeat split.
Qed.
Lemma ok_run_dispatch c p codec d : guar world_ok (run_dispatch c p codec d).
Proof. unfold run_dispatch. solve_ok. Qed.
#[local] Hint Resolve ok_handle_packet ok_cleanup ok_run_dispatch : ok.

(** ** Broadcasts, namespaces, the runtime *)
Lemma ok_include_loop n rs ids : guar world_ok (include_loop n rs ids).
Proof. revert ids. induction rs; intros; cbn [include_loop]; solve_ok. Qed.

Lemma ok_exclude_loop n rs ids : guar world_ok (exclude_loop n rs ids).
Proof. revert ids. induction rs; intros; cbn [exclude_loop]; cbv zeta; solve_ok. Qed.
#[local] Hint Resolve ok_include_loop ok_exclude_loop : ok.

Lemma ok_for_each o f :
  (∀ c, guar world_ok (f c)) → guar world_ok (for_each_target_connections o f).
Proof.
  intros Hf. unfold for_each_target_connections, target_connection_ids, visit. solve_ok.
Qed.
#[local] Hint Resolve ok_for_each : ok.

Lemma ok_bc_close o : guar world_ok (Broadcast.close o).
Proof. apply ok_for_each. solve_ok. Qed.
Lemma ok_bc_disconnect o : guar world_ok (Broadcast.disconnect o).
Proof. unfold Broadcast.disconnect. solve_ok. Qed.
Lemma ok_bc_emit o event d : guar world_ok (Broadcast.emit o event d).
Proof. unfold Broadcast.emit. solve_ok. Qed.
#[local] Hint Resolve ok_bc_close ok_bc_disconnect ok_bc_emit : ok.

Lemma ok_connection_new hs n uri : guar world_ok (connection_new log2 hs n uri).
Proof.
  apply guar_bind; [solve_ok|]. intros cfg. apply guar_atom; [|done].
  intros w w' [= <-]. split; simpl; [| |done|].
  - intros c x Hx. exists x. split; [|done].
    rewrite lookup_insert_ne; [done|]. intros <-. apply elem_of_dom_2 in Hx.
    by apply (is_fresh (dom (connection_heap w))) in Hx.
  - intros m x Hx. by exists x.
  - intros c y _. rewrite lookup_insert. case_decide; [|by exists y].
    intros [= <-]. simpl. rewrite cell_get_new. by intros [].
Qed.
#[local] Hint Resolve ok_connection_new : ok.

Lemma ok_drop_receiver c : guar world_ok (drop_receiver c).
Proof. unfold drop_receiver. solve_ok. Qed.
#[local] Hint Resolve ok_drop_receiver : ok.

Lemma ok_lock_task_set n : guar world_ok (lock_task_set n).
Proof.
  apply ok_block_ns. intros x w w'. destruct (task_set_locked x); [done|]. intros [= <-]. by apply ns_set_ok.
Qed.
#[local] Hint Resolve ok_lock_task_set : ok.

Lemma ok_upgraded n hs uri : may → guar world_ok (handle_upgraded_request log2 n hs uri).
Proof. intros. unfold handle_upgraded_request. solve_ok. Qed.
#[local] Hint Resolve ok_upgraded : ok.

Lemma ok_upgrade_task n t hs uri : may → guar world_ok (upgrade_task log2 n t hs uri).
Proof. intros. unfold upgrade_task. solve_ok. Qed.
Lemma ok_request n hs uri : guar world_ok (handle_on_upgrade_request n hs uri).
Proof. unfold handle_on_upgrade_request, unlock_task_set. solve_ok. Qed.
Lemma ok_ns_shutdown n : guar world_ok (Namespace.shutdown n).
Proof.
  unfold Namespace.shutdown, unlock_task_set, Namespace.close_all. solve_ok.
  all: first [ apply ok_block_ns; intros x w w'; by case_bool_decide; [intros [= <-]|]
             | apply ok_ns_upd; intros x; split; [done|]; intros _; simpl;
               by rewrite cell_get_store ].
Qed.
#[local] Hint Resolve ok_ns_shutdown : ok.

Lemma ok_read_task fuel c : may → guar world_ok (read_ws_stream_task fuel c).
Proof. intros. induction fuel; cbn [read_ws_stream_task]; [done|]. unfold read_turn. solve_ok. Qed.

Lemma ok_recv c : guar world_ok (recv c).
Proof.
  apply guar_atom; [|done]. intros w w'.
  destruct (connection_heap w !! c) as [x|]; [|done].
  destruct (chan_try_recv (message_tx x)).2; [|done].
  intros [= <-]. apply conn_set_ok. by repeat split.
Qed.
#[local] Hint Resolve ok_recv : ok.

Lemma ok_write_task fuel c : guar world_ok (write_ws_stream_task fuel c).
Proof. induction fuel; cbn [write_ws_stream_task]; [done|]. solve_ok. Qed.
#[local] Hint Resolve ok_read_task ok_write_task ok_upgrade_task ok_request : ok.

Lemma ok_new_namespace cfg : guar world_ok (alloc_namespace cfg).
Proof.
  apply guar_atom; [|done]. intros w w' [= <-]. split; simpl; [| |done|].
  - intros c x Hx. by exists x.
  - intros n x Hx. exists x. split; [|done]. rewrite lookup_insert_ne; [done|].
    intros <-. apply elem_of_dom_2 in Hx. by apply (is_fresh (dom (namespace_heap w))) in Hx.
  - intros c x _ Hx Hr. by exists x.
Qed.
#[local] Hint Resolve ok_new_namespace : ok.

Lemma ok_register cfg : guar world_ok (register cfg).
Proof. unfold register, insert_namespace. solve_ok. Qed.
Lemma ok_remove_namespace p : guar world_ok (remove_namespace p).
Proof.
  apply guar_bind; [|solve_ok]. apply guar_atom; [|done].
  intros w w' [= <-]. by apply rt_set_ok.
Qed.
#[local] Hint Resolve ok_register ok_remove_namespace : ok.

(** Every operation of the server keeps to the state machine. *)
Lemma ok_dispatch_task c p codec d : guar world_ok (under_token c (run_dispatch c p codec d)).
Proof. solve_ok. Qed.

Lemma other_task_ok p : other_task p → guar world_ok p.
Proof.
  intros []; solve_ok.
  - unfold Connection.off. solve_ok.
  - unfold ServerRuntime.close_all, clone_namespaces, Namespace.close_all. solve_ok.
  - unfold ServerRuntime.disconnect_all, clone_namespaces, Namespace.disconnect_all. solve_ok.
  - unfold ServerRuntime.emit, clone_namespaces, Namespace.emit. solve_ok.
  - unfold ServerRuntime.shutdown, clone_namespaces. solve_ok;
      (apply ok_rt_upd; intros x; split; [done|]; intros _; simpl; by rewrite cell_get_store).
Qed.
End guarantee.

Lemma server_task_ok p : server_task p → guar (world_ok True) p.
Proof.
  intros [[]|].
  - by apply ok_init.
  - by apply ok_handle_packet.
  - by apply ok_read_task.
  - by apply ok_upgrade_task.
  - by apply ok_dispatch_task.
  - by apply other_task_ok.
Qed.

Abbreviation server_sys := (sys Server label reply).

Lemma server_reaches_ok (s s' : server_sys) :
  pool s = ∅ → reaches server_task s s' → world_ok True (shared s) (shared s').
Proof.
  intros Hp Hr. eapply reaches_guar; [apply _|apply server_task_ok| |done].
  intros i p. by rewrite Hp, lookup_empty.
Qed.

(** C1: start from any server state with no task running and let any number of
    tasks run any operations of the server, interleaved at every atomic step,
    with any answers of handlers, timers and the network.  A connection's
    state has then moved along the edges Created, AwaitingInit, Initiating,
    Activating, Ready, Closing, Closed of the state machine only; its id and
    namespace are the same; a cancelled token is still cancelled; and once it
    was closing or closed it is neither ready nor in the handshake again. *)
Theorem connection_lifecycle (s s' : server_sys) (Hp : pool s = ∅)
    (Hr : reaches server_task s s') c x (Hx : connection_heap (shared s) !! c = Some x) :
  ∃ y, connection_heap (shared s') !! c = Some y ∧
    rtc edge (cell_get (state x)) (cell_get (state y)) ∧
    id y = id x ∧ namespace y = namespace x ∧
    (cancelled x = true → cancelled y = true) ∧
    (cell_get (state x) = Closing ∨ cell_get (state x) = Closed →
     cell_get (state y) = Closing ∨ cell_get (state y) = Closed).
Proof.
  destruct (world_conns _ _ _ (server_reaches_ok s s' Hp Hr) c x Hx)
    as (y & Hy & Hedges & Hid & Hns & Hc & _).
  exists y. split_and!; try done. intros Hend. apply edges_rank in Hedges.
  destruct Hend as [E|E]; rewrite E in Hedges; destruct (cell_get (state y)); simpl in *; auto; lia.
Qed.

(** C28: under the same interleavings a runtime or a namespace that has begun to stop
    never runs again, whichever calls of [shutdown] race, and no configuration
    changes. *)
Theorem stopping_is_final (s s' : server_sys) (Hp : pool s = ∅) (Hr : reaches server_task s s') :
  (cell_get (rt_status (runtime (shared s))) ≠ RtRunning →
   cell_get (rt_status (runtime (shared s'))) ≠ RtRunning) ∧
  ∀ n x, namespace_heap (shared s) !! n = Some x →
    ∃ y, namespace_heap (shared s') !! n = Some y ∧ config y = config x ∧
      (cell_get (status x) ≠ NsRunning → cell_get (status y) ≠ NsRunning).
Proof.
  destruct (server_reaches_ok s s' Hp Hr) as [_ Hn Hrt _].
  split; [apply Hrt|]. intros n x Hx. destruct (Hn n x Hx) as (y & ? & ? & ?). by exists y.
Qed.
End lifecycle.

(** ** Witnesses *)
#[local] Existing Instances ref_types ref_cell ref_mpsc ref_crates.

(** One task closes a connection that is ready, another shuts the server down. *)
Definition closing_moves : list (move (W := Server) (L := label) (R := reply)) :=
  [MStart 0 (Connection.close 0); MStart 1 ServerRuntime.shutdown; MStep 0; MStep 1; MStep 1; MStep 0;
   MStep 0].

Definition before_closing : sys Server label reply := Sys ready_server ∅ [].

Lemma closing_reaches : reaches (server_task ref_log2) before_closing (played closing_moves before_closing).
Proof.
  apply played_reaches; [|by vm_compute].
  repeat constructor; right; constructor.
Qed.

Lemma connection_lifecycle_witness :
  ∃ x y, connection_heap (shared before_closing) !! 0 = Some x ∧ cell_get (state x) = ConnReady ∧
    connection_heap (shared (played closing_moves before_closing)) !! 0 = Some y ∧
    cell_get (state y) = Closing ∧ rtc edge (cell_get (state x)) (cell_get (state y)) ∧ id y = id x.
Proof.
  destruct (connection_heap (shared before_closing) !! 0) as [x|] eqn:Hx; [|by vm_compute in Hx].
  destruct (connection_lifecycle ref_log2 before_closing _ eq_refl closing_reaches 0 x Hx)
    as (y & Hy & He & Hid & _).
  exists x, y. split; [reflexivity|]. split; [|split; [exact Hy|]; split; [|by split]].
  - apply (f_equal (fmap (λ x, cell_get (state x)))) in Hx. vm_compute in Hx. by injection Hx.
  - apply (f_equal (fmap (λ x, cell_get (state x)))) in Hy. vm_compute in Hy. by injection Hy.
Defined.

Lemma stopping_is_final_witness :
  ∃ x, namespace_heap (shared before_closing) !! 0 = Some x ∧
  ∃ y, namespace_heap (shared (played closing_moves before_closing)) !! 0 = Some y ∧
    config y = config x ∧
    cell_get (rt_status (runtime (shared (played closing_moves before_closing)))) = RtStopping.
Proof.
  destruct (namespace_heap (shared before_closing) !! 0) as [x|] eqn:Hx; [|by vm_compute in Hx].
  destruct (proj2 (stopping_is_final ref_log2 before_closing _ eq_refl closing_reaches) 0 x Hx)
    as (y & Hy & Hc & _).
  exists x. split; [reflexivity|]. exists y.
  split; [exact Hy|]. split; [exact Hc | by vm_compute].
Defined.
