(* ===== verification/ServerTasks.v ===== *)
(** * The tasks of a server

    What a server runs: the calls of the application, the upgrades of its clients,
    and the tasks it has spawned itself.  A task is started only from the table of
    spawned tasks.  All of it is within [Lifecycle.server_task], so what is proved
    for any tasks holds of these runs. *)

From S2P Require Import Prelude Async Spawner Concurrent Extern ChannelCapacity Packet Codecs.
From S2P Require Import EventRegistry Extensions ServerConfig ServerState Connection Broadcast.
From S2P Require Import Namespace ServerRuntime RefServer Lifecycle.

Section tasks.
Context `{T : Types} `{Cells : AtomicEnumCell} `{Chans : Mpsc} `{Crates : !SerdeCrates}.
Context (log2 : f64 → f64).

(** The program of the spawned task [i]; [fuel] bounds its loop. *)
Definition server_body (fuel i : nat) (t : task) : srv unit :=
  match t with
  | InitWatchdog c => init_watchdog c
  | OnReady c h => under_token c (call_unit_handler c h None)
  | DispatchEvent c p codec d => under_token c (run_dispatch c p codec d)
  | RunHandler c fut => under_token c (call_unit_handler c fut None)
  | ReadWsStream c => read_ws_stream_task fuel c
  | WriteWsStream c => write_ws_stream_task fuel c
  | HandleUpgrade n hs uri => upgrade_task log2 n i hs uri
  end.

(** What an application does with a connection .. *)
Inductive connection_call : Type :=
| ConnDisconnect
| ConnEmit (event : string) (d : option any)
| ConnJoin (room_names : list string)
| ConnLeave (room_names : list string)
| ConnOn (event : string) (h : EventRegistry.Handler nat string)
| ConnOff (event : string)
| ConnOffById (event : string) (i : Z)
| ConnOnClose (h : string).

Definition connection_code (c : nat) (call : connection_call) : srv unit :=
  match call with
  | ConnDisconnect => Connection.disconnect c
  | ConnEmit event d => Connection.emit c event d
  | ConnJoin rs => join c rs
  | ConnLeave rs => leave c rs
  | ConnOn event h => _ <- Connection.on c event h ;; Ret tt
  | ConnOff event => Connection.off c event
  | ConnOffById event i => Connection.off_by_handler_id c event i
  | ConnOnClose h => on_close c h
  end.

(** .. and with an operator; the calls of a namespace are those of its operator
    without rooms. *)
Inductive operator_call : Type :=
| OpClose
| OpDisconnect
| OpEmit (event : string) (d : option any).

Definition operator_code (o : WsIoServerNamespaceBroadcastOperator) (call : operator_call) : srv unit :=
  match call with
  | OpClose => Broadcast.close o
  | OpDisconnect => Broadcast.disconnect o
  | OpEmit event d => Broadcast.emit o event d
  end.

(** [CallUpgrade p ..]: a request for the namespace at [p] that has passed the
    checks.  [Spawned i fuel]: the task [i] of the table gets to run. *)
Inductive server_call : Type :=
| CallCloseAll
| CallDisconnectAll
| CallEmit (event : string) (d : option any)
| CallRegister (cfg : WsIoServerNamespaceConfig)
| CallRemoveNamespace (p : string)
| CallShutdown
| CallShutdownNamespace (n : nat)
| CallOperator (o : WsIoServerNamespaceBroadcastOperator) (call : operator_call)
| CallConnection (c : nat) (call : connection_call)
| CallUpgrade (p : string) (hs : list (string * bytes)) (uri : string)
| Spawned (i fuel : nat).

(** A namespace and a connection can be used once they exist. *)
Definition server_code (call : server_call) (w : Server) : option (srv unit) :=
  match call with
  | CallCloseAll => Some ServerRuntime.close_all
  | CallDisconnectAll => Some ServerRuntime.disconnect_all
  | CallEmit event d => Some (ServerRuntime.emit event d)
  | CallRegister cfg => Some (_ <- register cfg ;; Ret tt)
  | CallRemoveNamespace p => Some (remove_namespace p)
  | CallShutdown => Some ServerRuntime.shutdown
  | CallShutdownNamespace n => _ ← namespace_heap w !! n; Some (Namespace.shutdown n)
  | CallOperator o call => _ ← namespace_heap w !! op_namespace o; Some (operator_code o call)
  | CallConnection c call => _ ← connection_heap w !! c; Some (connection_code c call)
  | CallUpgrade p hs uri => n ← namespaces (runtime w) !! p; Some (handle_on_upgrade_request n hs uri)
  | Spawned i fuel => server_body fuel i <$> tasks w !! i
  end.

Definition server_starts : Server → srv unit → Prop := may_start server_code.

Lemma server_starts_task w p : server_starts w p → server_task log2 p.
Proof.
  intros [call Hc]. destruct call as [| |event d|cfg|q| |n|o call|c call|q hs uri|i fuel]; simpl in Hc.
  1-6: injection Hc as <-; right; constructor.
  - apply bind_Some in Hc as (y & _ & [= <-]). right. constructor.
  - apply bind_Some in Hc as (y & _ & [= <-]). right. destruct call; constructor.
  - apply bind_Some in Hc as (x & _ & [= <-]). right. destruct call; constructor.
  - apply bind_Some in Hc as (n & _ & [= <-]). right. constructor.
  - apply fmap_Some in Hc as (t & _ & ->). destruct t; first [left; constructor | right; constructor].
Qed.

(** Such a run is one of any tasks. *)
Lemma server_starts_reaches s s' :
  reaches_in server_starts s s' → reaches (server_task log2) s s'.
Proof.
  induction 1 as [s|s1 s2 s3 Hs _ IH]; [constructor|]. econstructor; [|exact IH].
  destruct Hs; [apply step_start; [by eapply server_starts_task | done] | by econstructor..].
Qed.
End tasks.

(** ** Schedules of the concrete server *)
#[local] Existing Instances ref_types ref_cell ref_mpsc ref_crates.

Abbreviation server_schedule := (list (order (W := Server) (L := label) (R := reply) (C := server_call))).

(** [k] steps of the task [i], and an answer to it. *)
Definition srv_go (i k : nat) : server_schedule := Go <$> steps i k.
Definition srv_replied (i : nat) (r : reply) : server_schedule := [Go (MReply i r)].

Definition srv_registers : server_schedule := [Start 0 (CallRegister chat_config)] ++ srv_go 0 4.

(** A client asks for the upgrade; its task runs up to the wait for the reader and the
    writer, tasks 1 and 2 of the table. *)
Definition srv_upgrades : server_schedule :=
  srv_registers ++ [Start 1 (CallUpgrade "/chat" [] "/ws.io?namespace=/chat")] ++ srv_go 1 4 ++
  [Start 2 (Spawned 0 0)] ++ srv_replied 2 ok_unit ++ srv_go 2 9 ++ srv_replied 2 greeting ++ srv_go 2 6.

(** The reader handles the init packet of the client, which every handler accepts, up to
    the transition to Ready. *)
Definition login_frame : Message := Text (Byte.x02 :: Byte.x00 :: put_opt (Some login_data)).
Definition srv_accepts : server_schedule :=
  [Start 3 (Spawned 1 2)] ++ srv_replied 3 (RFrame (Some login_frame)) ++ srv_go 3 8 ++
  srv_replied 3 ok_unit ++ srv_go 3 1 ++ srv_replied 3 ok_unit ++ srv_go 3 1 ++ srv_replied 3 ok_unit.
Definition srv_readies : server_schedule := srv_upgrades ++ srv_accepts ++ srv_go 3 9.

(** The writer ends, and the upgrade task cleans up. *)
Definition srv_ends (k : nat) : server_schedule := srv_replied 2 (REnded 2) ++ srv_go 2 k.

(** Two ways to stop a namespace at once: the runtime, and its removal. *)
Definition two_stops_moves : server_schedule :=
  srv_readies ++ [Start 5 CallShutdown; Start 6 (CallRemoveNamespace "/chat")] ++ srv_go 5 5 ++ srv_go 6 2.

Example server_schedules :
  state_of 0 (shared (obeyed (server_code ref_log2) srv_readies (idle new_server))) = Some ConnReady ∧
  state_of 0 (shared (obeyed (server_code ref_log2) (srv_readies ++ srv_ends 16) (idle new_server))) = Some Closed.
Proof. by vm_compute. Qed.
