(* ===== verification/ServerSafety.v ===== *)
(** * What cannot go wrong on a server

    The references of a server are sound ([sane]): every connection has its
    namespace, every table and every spawned task names what exists, and every
    event registry is well-formed.  All tasks keep this, whatever is interleaved,
    so that no task ever finds its connection or namespace gone. *)

From S2P Require Import Prelude Async Spawner Concurrent Extern ChannelCapacity Packet Codecs.
From S2P Require Import EventRegistry Extensions ServerConfig ServerState Connection Broadcast.
From S2P Require Import Namespace ServerRuntime RefServer ServerTasks.

Section safety.
Context `{T : Types} `{Cells : AtomicEnumCell} `{Chans : Mpsc} `{Crates : !SerdeCrates}.
Context (log2 : f64 → f64).

Abbreviation view := (seen (W := Server) (L := label) (R := reply)).

(** ** What refers to what *)
Definition at_home (n c : nat) (w : Server) : Prop :=
  ∃ x, connection_heap w !! c = Some x ∧ namespace x = n.

Definition task_ok (t : task) (w : Server) : Prop :=
  match t with
  | HandleUpgrade n _ _ => is_Some (namespace_heap w !! n)
  | InitWatchdog c | OnReady c _ | DispatchEvent c _ _ _ | RunHandler c _ | ReadWsStream c | WriteWsStream c =>
      is_Some (connection_heap w !! c)
  end.

Record sane (w : Server) : Prop := {
  sane_conns c x : connection_heap w !! c = Some x →
    is_Some (namespace_heap w !! namespace x) ∧ registry_ok (event_registry x);
  sane_tables n y i c : namespace_heap w !! n = Some y → connections y !! i = Some c → at_home n c w;
  sane_paths p n : namespaces (runtime w) !! p = Some n → is_Some (namespace_heap w !! n);
  sane_tasks i t : tasks w !! i = Some t → task_ok t w;
}.

(** The server, or one of its namespaces, has begun to stop. *)
Definition begun (w : Server) : Prop :=
  cell_get (rt_status (runtime w)) ≠ RtRunning ∨
  ∃ n y, namespace_heap w !! n = Some y ∧ cell_get (status y) ≠ NsRunning.

(** Nothing goes away, and what has begun to stop never runs again. *)
Record grow (w w' : Server) : Prop := {
  grow_conns c x : connection_heap w !! c = Some x →
    ∃ y, connection_heap w' !! c = Some y ∧ namespace y = namespace x;
  grow_nss n x : namespace_heap w !! n = Some x →
    ∃ y, namespace_heap w' !! n = Some y ∧
      (cell_get (status x) ≠ NsRunning → cell_get (status y) ≠ NsRunning);
  grow_rt : cell_get (rt_status (runtime w)) ≠ RtRunning → cell_get (rt_status (runtime w')) ≠ RtRunning;
}.

Definition plain (w w' : Server) : Prop := grow w w' ∧ (sane w → sane w').
Definition steady (s s' : view) : Prop := plain s.1 s'.1.

#[export] Instance grow_preorder : PreOrder grow.
Proof.
  split.
  - intros w. split; [by intros c x ?; exists x | by intros n x ?; exists x | done].
  - intros w1 w2 w3 [C1 N1 R1] [C2 N2 R2]. split.
    + intros c x Hx. destruct (C1 c x Hx) as (y & Hy & <-). by apply C2.
    + intros n x Hx. destruct (N1 n x Hx) as (y & Hy & Hs). destruct (N2 n y Hy) as (z & Hz & Hs').
      exists z. split; [done | by auto].
    + auto.
Qed.

#[export] Instance plain_preorder : PreOrder plain.
Proof.
  split; [by intros w|]. intros w1 w2 w3 [G1 S1] [G2 S2]. split; [by etrans | by auto].
Qed.

#[export] Instance steady_preorder : PreOrder steady.
Proof. split; [by intros s | intros s1 s2 s3 H1 H2; by eapply (PreOrder_Transitive (R := plain))]. Qed.

Lemma home_grow n c w w' : at_home n c w → grow w w' → at_home n c w'.
Proof.
  intros (x & Hx & <-) Hg. destruct (grow_conns _ _ Hg c x Hx) as (y & Hy & Hn). by exists y.
Qed.

Lemma conn_grow c w w' : is_Some (connection_heap w !! c) → grow w w' → is_Some (connection_heap w' !! c).
Proof. intros [x Hx] Hg. destruct (grow_conns _ _ Hg c x Hx) as (y & Hy & _). by exists y. Qed.

Lemma ns_grow n w w' : is_Some (namespace_heap w !! n) → grow w w' → is_Some (namespace_heap w' !! n).
Proof. intros [x Hx] Hg. destruct (grow_nss _ _ Hg n x Hx) as (y & Hy & _). by exists y. Qed.

Lemma task_grow t w w' : task_ok t w → grow w w' → task_ok t w'.
Proof. destruct t; [by apply conn_grow..| by apply ns_grow]. Qed.

Lemma begun_grow w w' : begun w → grow w w' → begun w'.
Proof.
  intros [Hr|(n & x & Hx & Hs)] Hg; [left; by eapply grow_rt|].
  destruct (grow_nss _ _ Hg n x Hx) as (y & Hy & Hst). right. exists n, y. auto.
Qed.

(** ** The panics that may happen *)
Definition fine (m : string) : Prop :=
  m ≠ "dangling connection"%string ∧ m ≠ "dangling namespace"%string ∧
  m ≠ "data type id matched handler registration but Arc::downcast failed"%string ∧
  m ≠ "internal error: entered unreachable code"%string.

Definition bad (m : string) (s : view) : Prop :=
  m ≠ "dangling connection"%string ∧ m ≠ "dangling namespace"%string ∧
  m ≠ "data type id matched handler registration but Arc::downcast failed"%string ∧
  (m = "internal error: entered unreachable code"%string → begun s.1).

#[export] Instance bad_proper m : Proper (steady ==> impl) (bad m).
Proof.
  intros s s' [Hg _] (H1 & H2 & H3 & H4). split_and!; [done..|]. intros Hm. eapply begun_grow; [by apply H4 | done].
Qed.

Lemma fine_may m s : fine m → bad m s.
Proof. intros (H1 & H2 & H3 & H4). by split_and!. Qed.
(** ** Steps *)
Lemma sane_step w w' :
  grow w w' → sane w →
  (∀ c x, connection_heap w' !! c = Some x →
    (∃ x0, connection_heap w !! c = Some x0 ∧ namespace x = namespace x0 ∧
      (registry_ok (event_registry x0) → registry_ok (event_registry x))) ∨
    is_Some (namespace_heap w' !! namespace x) ∧ registry_ok (event_registry x)) →
  (∀ n y i c, namespace_heap w' !! n = Some y → connections y !! i = Some c →
    (∃ y0, namespace_heap w !! n = Some y0 ∧ connections y0 !! i = Some c) ∨ at_home n c w') →
  (∀ p n, namespaces (runtime w') !! p = Some n →
    namespaces (runtime w) !! p = Some n ∨ is_Some (namespace_heap w' !! n)) →
  (∀ i t, tasks w' !! i = Some t → tasks w !! i = Some t ∨ task_ok t w') → sane w'.
Proof.
  intros Hg [HC HT HP HK] H1 H2 H3 H4. split.
  - intros c x Hx. destruct (H1 c x Hx) as [(x0 & Hx0 & -> & Hr)|]; [|done].
    destruct (HC c x0 Hx0) as [Hn Ho]. split; [by eapply ns_grow | by apply Hr].
  - intros n y i c Hy Hc. destruct (H2 n y i c Hy Hc) as [(y0 & Hy0 & Hc0)|]; [|done].
    eapply home_grow; [by eapply HT | done].
  - intros p n Hp. destruct (H3 p n Hp) as [Hp0|]; [|done]. eapply ns_grow; [by eapply HP | done].
  - intros i t Ht. destruct (H4 i t Ht) as [Ht0|]; [|done]. eapply task_grow; [by eapply HK | done].
Qed.

Definition conn_kept (x x' : WsIoServerConnection) : Prop :=
  namespace x' = namespace x ∧ (registry_ok (event_registry x) → registry_ok (event_registry x')).

Lemma plain_conn_set c f w : (∀ x, conn_kept x (f x)) → plain w (conn_set c f w).
Proof.
  intros Hf. assert (grow w (conn_set c f w)) as Hg.
  { split; simpl; [| by intros n y ?; exists y | done]. intros d x Hx. rewrite lookup_alter.
    case_decide; [subst; rewrite Hx; exists (f x); split; [done | apply Hf] | by exists x]. }
  split; [done|]. intros Hs. apply (sane_step w); [done..| | | |]; simpl; [|by eauto..].
  intros d x. rewrite lookup_alter. case_decide; [subst|intros Hx; left; by exists x].
  intros (x0 & Hx0 & ->)%fmap_Some. left. exists x0. split; [done | apply Hf].
Qed.

Lemma plain_ns_set n f w :
  (∀ y, namespace_heap w !! n = Some y →
     (∀ i c, connections (f y) !! i = Some c → connections y !! i = Some c ∨ at_home n c w) ∧
     (cell_get (status y) ≠ NsRunning → cell_get (status (f y)) ≠ NsRunning)) →
  plain w (ns_set n f w).
Proof.
  intros Hf. assert (grow w (ns_set n f w)) as Hg.
  { split; simpl; [by intros c x ?; exists x | | done]. intros m y Hy. rewrite lookup_alter.
    case_decide; [subst; rewrite Hy; exists (f y); split; [done | by apply Hf] | by exists y]. }
  split; [done|]. intros Hs. apply (sane_step w); [done..| | | |]; simpl; [| |by eauto..].
  - intros c x Hx. left. by exists x.
  - intros m y i c. rewrite lookup_alter. case_decide; [subst|intros Hy Hc; left; by exists y].
    intros (y0 & Hy0 & ->)%fmap_Some Hc. destruct (proj1 (Hf y0 Hy0) i c Hc) as [Hc0|Hh].
    + left. by exists y0.
    + right. by eapply home_grow.
Qed.

Lemma plain_runtime_set f w :
  (∀ p n, namespaces (f (runtime w)) !! p = Some n →
     namespaces (runtime w) !! p = Some n ∨ is_Some (namespace_heap w !! n)) →
  (cell_get (rt_status (runtime w)) ≠ RtRunning → cell_get (rt_status (f (runtime w))) ≠ RtRunning) →
  plain w (rt_set f w).
Proof.
  intros Hn Hs. assert (grow w (rt_set f w)) as Hg
    by (split; simpl; [by intros c x ?; exists x | by intros n y ?; exists y | done]).
  split; [done|]. intros Hw. apply (sane_step w); [done..| | | |]; simpl; eauto.
Qed.

Lemma plain_tasks ts w :
  (∀ i t, ts !! i = Some t → tasks w !! i = Some t ∨ task_ok t w) → plain w (w .[ tasks := ts ]).
Proof.
  intros Ht. assert (grow w (w .[ tasks := ts ])) as Hg
    by (split; simpl; [by intros c x ?; exists x | by intros n y ?; exists y | done]).
  split; [done|]. intros Hw. apply (sane_step w); [done..| | | |]; simpl; [|by eauto..|].
  - intros c x Hx. left. by exists x.
  - intros i t Hi. destruct (Ht i t Hi) as [|Hk]; [by left|]. right. by eapply task_grow.
Qed.

(** ** Routine programs

    [here n c]: the connection exists and is of the namespace; [there n]: the
    namespace exists. *)
Definition here (n c : nat) (w : Server) : Prop := sane w ∧ at_home n c w.
Definition there (n : nat) (w : Server) : Prop := sane w ∧ is_Some (namespace_heap w !! n).

Lemma here_there n c w : here n c w → there n w.
Proof. intros [Hs (x & Hx & <-)]. split; [done|]. by apply (sane_conns _ Hs c x). Qed.

Lemma here_stable n c w w' : here n c w → plain w w' → here n c w'.
Proof. intros [Hs Hh] [Hg Hk]. split; [by apply Hk | by eapply home_grow]. Qed.

Lemma there_stable n w w' : there n w → plain w w' → there n w'.
Proof. intros [Hs Hh] [Hg Hk]. split; [by apply Hk | by eapply ns_grow]. Qed.

Abbreviation calm P p := (routine plain fine P p).

Lemma calm_there n c {A} (p : srv A) : calm (there n) p → calm (here n c) p.
Proof. apply routine_mono. intros w. apply here_there. Qed.

Lemma calm_conn_get n c {A} (f : WsIoServerConnection → A) : calm (here n c) (conn_get c f).
Proof.
  split; [by intros w w' _ [= <-]|]. by intros w (_ & x & -> & _).
Qed.

(** The namespace of the connection is known. *)
Lemma calm_find n c {B} (k : nat → srv B) : calm (here n c) (k n) → calm (here n c) (bind (conn_get c namespace) k).
Proof.
  intros Hk. split; [by intros w w' _ [= <-]|]. by intros w (_ & x & -> & <-).
Qed.

Lemma calm_ns_get n {A} (f : WsIoServerNamespace → A) : calm (there n) (ns_get n f).
Proof. split; [by intros w w' _ [= <-]|]. by intros w (_ & y & ->). Qed.

Lemma calm_gets P {A} (f : Server → A) : calm P (gets f : srv A).
Proof. by split; [intros w w' _ [= <-]|]. Qed.

Lemma calm_modify P f : (∀ w, P w → plain w (f w)) → calm P (modify f : srv unit).
Proof. intros Hf. split; [|done]. intros w w' Hw [= <-]. by apply Hf. Qed.

Lemma calm_block P f : (∀ w w', P w → f w = Some w' → plain w w') → calm P (block f : srv unit).
Proof. intros Hf. by split. Qed.

Lemma calm_conn_upd P c f : (∀ x, conn_kept x (f x)) → calm P (conn_upd c f).
Proof. intros Hf. apply calm_modify. intros w _. by apply plain_conn_set. Qed.

Lemma calm_ns_upd P n f :
  (∀ y, (∀ i c, connections (f y) !! i = Some c → connections y !! i = Some c) ∧ status (f y) = status y) →
  calm P (ns_upd n f).
Proof.
  intros Hf. apply calm_modify. intros w _. apply plain_ns_set. intros y _. destruct (Hf y) as [Hc ->].
  split; [|done]. intros i c Hi. left. by apply Hc.
Qed.

Lemma calm_rt_upd P f :
  (∀ r, namespaces (f r) = namespaces r ∧ rt_status (f r) = rt_status r) → calm P (rt_upd f).
Proof.
  intros Hf. apply calm_modify. intros w _. destruct (Hf (runtime w)) as [H1 H2]. apply plain_runtime_set.
  - rewrite H1. by left.
  - by rewrite H2.
Qed.

Lemma calm_conn_take n c f {A} (g : Server → srv A) :
  (∀ x, conn_kept x (f x)) → (∀ w, here n c w → calm (here n c) (g w)) →
  calm (here n c) (Atom (λ w, Some (conn_set c f w)) g : srv A).
Proof. intros Hf Hg. split; [|done]. intros w w' _ [= <-]. by apply plain_conn_set. Qed.

Lemma calm_spawn P t : (∀ w, P w → task_ok t w) → calm P (spawn t).
Proof.
  intros Ht. split; [|done]. intros w w' Hw [= <-]. apply plain_tasks. intros i t'.
  rewrite lookup_insert. case_decide; [intros [= <-]; right; by apply Ht | by left].
Qed.

Lemma calm_abort P i : calm P (abort i).
Proof.
  apply calm_modify. intros w _. apply plain_tasks. intros j t. rewrite lookup_delete_Some. by intros [_ ?]; left.
Qed.

Lemma calm_try_transition n c a b : calm (here n c) (try_transition c a b).
Proof.
  apply calm_conn_take; [by split|]. intros w (_ & x & -> & _). apply routine_of_result.
Qed.

(** ** The programs of a connection *)
Create HintDb calm.

Lemma calm_ns_here n c {A} (f : WsIoServerNamespace → A) : calm (here n c) (ns_get n f).
Proof. apply calm_there, calm_ns_get. Qed.

Lemma calm_spawn_on n c t :
  match t with HandleUpgrade _ _ _ => False
  | InitWatchdog d | OnReady d _ | DispatchEvent d _ _ _ | RunHandler d _ | ReadWsStream d | WriteWsStream d => d = c
  end → calm (here n c) (spawn t).
Proof.
  intros Ht. apply calm_spawn. intros w (_ & x & Hx & _). destruct t; (by subst; exists x) || done.
Qed.

#[local] Hint Resolve calm_conn_get calm_ns_get calm_ns_here calm_gets calm_abort calm_try_transition
  routine_of_result : calm.
#[local] Hint Extern 1 (routine _ _ _ (conn_upd _ _)) => apply calm_conn_upd; by split : calm.
#[local] Hint Extern 1 (routine _ _ _ (state_store _ _)) => apply calm_conn_upd; by split : calm.
#[local] Hint Extern 1 (routine _ _ _ (ns_upd _ _)) => apply calm_ns_upd; by split; [auto|] : calm.
#[local] Hint Extern 1 (routine _ _ _ (rt_upd _)) => apply calm_rt_upd; by split : calm.
#[local] Hint Extern 1 (routine _ _ _ (Atom _ (λ _, Ret _))) => apply calm_conn_take; by split : calm.
#[local] Hint Extern 1 (routine _ _ _ (spawn _)) => by apply calm_spawn_on : calm.
#[local] Hint Extern 1 (routine _ _ _ (Panic _)) => by split : calm.

(** Walk down a program; [calm] has the operations already proved. *)
Ltac solve_calm :=
  repeat first
    [ solve [auto 2 with calm]
    | lazymatch goal with
      | |- routine _ _ _ (bind (conn_get _ namespace) _) => apply calm_find
      | |- routine _ _ _ (bind _ _) => apply routine_bind
      | |- routine _ _ _ (ignore _) => apply routine_ignore
      | |- routine _ _ _ (attempt _) => apply routine_attempt
      | |- routine _ _ _ (seq_all _ _) => apply routine_seq_all
      | |- routine _ _ _ (Await _ _) => intro
      | |- routine _ _ _ (Ret _) => exact I
      | |- routine _ _ _ (Fail _) => exact I
      | |- routine _ _ _ (match ?x with _ => _ end) => destruct x
      | |- ∀ _, _ => intro
      end ].

Lemma calm_ensure n c st msg : calm (here n c) (ensure c st msg).
Proof. unfold ensure. solve_calm. Qed.
Lemma calm_handler P c h arg : calm P (call_unit_handler c h arg).
Proof. unfold call_unit_handler, unit_reply. solve_calm. Qed.
Lemma calm_init_request P c h codec : calm P (call_init_request_handler c h codec).
Proof. unfold call_init_request_handler. solve_calm. Qed.
#[local] Hint Resolve calm_ensure calm_handler calm_init_request : calm.
Lemma calm_init_response P c h d codec : calm P (call_init_response_handler c h d codec).
Proof. unfold call_init_response_handler. solve_calm. Qed.
Lemma calm_encode n c p : calm (here n c) (encode_packet_to_message n p).
Proof. unfold encode_packet_to_message. solve_calm. Qed.
Lemma calm_encode_there n p : calm (there n) (encode_packet_to_message n p).
Proof. unfold encode_packet_to_message. solve_calm. Qed.

Lemma calm_send n c m : calm (here n c) (send_message c m).
Proof.
  split.
  - intros w w' (_ & x & -> & _). destruct (chan_send _ _) as [[ch r]|]; [|done]. intros [= <-].
    by apply plain_conn_set.
  - intros w (_ & x & -> & _). destruct (chan_send _ _) as [[ch r]|]; [apply routine_of_result | done].
Qed.
#[local] Hint Resolve calm_init_response calm_encode calm_encode_there calm_send : calm.

Lemma calm_send_packet n c p : calm (here n c) (send_packet c p).
Proof. unfold send_packet. solve_calm. Qed.
Lemma calm_close n c : calm (here n c) (Connection.close c).
Proof. unfold Connection.close, try_send_close. solve_calm. Qed.
#[local] Hint Resolve calm_send_packet calm_close : calm.
Lemma calm_disconnect n c : calm (here n c) (Connection.disconnect c).
Proof. unfold Connection.disconnect. solve_calm. Qed.
Lemma calm_emit_message n c m : calm (here n c) (emit_event_message c m).
Proof. unfold emit_event_message. solve_calm. Qed.
#[local] Hint Resolve calm_disconnect calm_emit_message : calm.
Lemma calm_emit n c event d : calm (here n c) (Connection.emit c event d).
Proof. unfold Connection.emit. solve_calm. Qed.
Lemma calm_add_room P n r i : calm P (add_connection_id_to_room n r i).
Proof. unfold add_connection_id_to_room. solve_calm. Qed.

Lemma calm_remove_room P n r i : calm P (remove_connection_id_from_room n r i).
Proof.
  unfold remove_connection_id_from_room. apply routine_bind; [solve_calm|]. intros _. apply calm_ns_upd.
  intros y. destruct (rooms y !! r); [|done]. by case_bool_decide.
Qed.
#[local] Hint Resolve calm_emit calm_add_room calm_remove_room : calm.
Lemma calm_join n c rs : calm (here n c) (join c rs).
Proof. unfold join. solve_calm. Qed.
Lemma calm_leave n c rs : calm (here n c) (leave c rs).
Proof. unfold leave. solve_calm. Qed.

Lemma calm_lock_on_close n c : calm (here n c) (lock_on_close c).
Proof.
  apply calm_block. intros w w' (_ & x & -> & _). destruct (on_close_locked x); [done|]. intros [= <-].
  by apply plain_conn_set.
Qed.
#[local] Hint Resolve calm_join calm_leave calm_lock_on_close : calm.
Lemma calm_on_close n c h : calm (here n c) (on_close c h).
Proof. unfold on_close, unlock_on_close. solve_calm. Qed.
#[local] Hint Resolve calm_on_close : calm.

(** Registries stay well-formed. *)
Lemma calm_reg_upd P c f : (∀ r, registry_ok r → registry_ok (f r)) → calm P (reg_upd c f).
Proof. intros Hf. apply calm_conn_upd. intros x. split; [done | apply Hf]. Qed.

Lemma calm_off P c event : calm P (Connection.off c event).
Proof. apply calm_reg_upd. intros r. apply delete_entry_ok. Qed.

Lemma calm_off_by_id n c event i : calm (here n c) (Connection.off_by_handler_id c event i).
Proof.
  apply routine_bind.
  - apply calm_conn_take.
    + intros x. split; [done|]. intros Hx. pose proof (off_handler_spec event i _ Hx) as Hs. simpl.
      destruct (off_handler event i (event_registry x)) as [r more]. apply Hs.
    + by intros w (_ & x & -> & _).
  - intros [|]; [done|]. apply calm_reg_upd. intros r. apply off_if_empty_ok.
Qed.

Lemma calm_on n c event h : calm (here n c) (Connection.on c event h).
Proof.
  apply calm_conn_take.
  - intros x. pose proof (on_spec event h (event_registry x)) as Hs.
    destruct (EventRegistry.on event h (event_registry x)) as [r i|]; [|done].
    split; [done|]. intros Hx. apply (Hs Hx).
  - intros w (_ & x & -> & _). destruct (EventRegistry.on _ _ _); [done | by split].
Qed.
#[local] Hint Resolve calm_off calm_off_by_id calm_on : calm.

Lemma calm_abort_locked n c : calm (here n c) (abort_locked_task c).
Proof. unfold abort_locked_task. solve_calm. Qed.
Lemma calm_init n c : calm (here n c) (init c).
Proof. unfold init. solve_calm. Qed.
Lemma calm_watchdog n c : calm (here n c) (init_watchdog c).
Proof. unfold init_watchdog. solve_calm. Qed.

Lemma calm_insert_connection n c : calm (here n c) (insert_connection n c).
Proof.
  unfold insert_connection, insert_connection_id. apply routine_bind; [solve_calm|]. intros i.
  apply routine_bind; [|intros _; solve_calm].
  apply calm_modify. intros w [_ Hc]. apply plain_ns_set. intros y _. split; [|done].
  intros j d. simpl. rewrite lookup_insert. case_decide; [intros [= <-]; by right | by left].
Qed.

Lemma calm_remove_connection P n i : calm P (remove_connection n i).
Proof.
  unfold remove_connection, remove_connection_id. apply routine_bind; [|intros _; solve_calm].
  apply calm_ns_upd. intros y. split; [|done]. intros j d. simpl. rewrite lookup_delete_Some. by intros [_ ?].
Qed.
#[local] Hint Resolve calm_abort_locked calm_init calm_watchdog calm_insert_connection calm_remove_connection : calm.

Lemma calm_handshake n c d : calm (here n c) (handshake c d).
Proof. unfold handshake, spawn_task. solve_calm. Qed.
Lemma calm_handle_event n c event d : calm (here n c) (handle_event_packet c event d).
Proof. unfold handle_event_packet, spawn_task. solve_calm. Qed.
#[local] Hint Resolve calm_handshake calm_handle_event : calm.
Lemma calm_handle_init n c d : calm (here n c) (handle_init_packet c d).
Proof. unfold handle_init_packet. solve_calm. Qed.
#[local] Hint Resolve calm_handle_init : calm.
Lemma calm_handle_packet n c p : calm (here n c) (handle_packet c p).
Proof. unfold handle_packet, is_ready. solve_calm. Qed.
#[local] Hint Resolve calm_handle_packet : calm.
Lemma calm_incoming n c b : calm (here n c) (handle_incoming_packet c b).
Proof. unfold handle_incoming_packet. solve_calm. Qed.
#[local] Hint Resolve calm_incoming : calm.

Lemma calm_cleanup n c : calm (here n c) (cleanup c).
Proof. unfold cleanup, unlock_on_close. solve_calm. Qed.

Lemma calm_dispatch n c p codec d : calm (here n c) (run_dispatch c p codec d).
Proof.
  split; [by intros w w' _ [= <-]|]. intros w (_ & x & -> & _). simpl.
  pose proof (dispatch_expect p c codec d (event_registry x)) as He.
  apply routine_seq_all_in. intros call Hc. destruct call; [unfold spawn_task; solve_calm | done | done].
Qed.
#[local] Hint Resolve calm_cleanup calm_dispatch : calm.

(** The reader and the writer. *)
Lemma calm_read_turn n c m : calm (here n c) (read_turn c m).
Proof. unfold read_turn. solve_calm. Qed.
#[local] Hint Resolve calm_read_turn : calm.
Lemma calm_read fuel n c : calm (here n c) (read_ws_stream_task fuel c).
Proof. induction fuel; cbn [read_ws_stream_task]; [done|]. solve_calm. Qed.

Lemma calm_recv n c : calm (here n c) (recv c).
Proof.
  split; [|done]. intros w w' (_ & x & -> & _). destruct (chan_try_recv _).2; [|done]. intros [= <-].
  by apply plain_conn_set.
Qed.
Lemma calm_drop_receiver P c : calm P (drop_receiver c).
Proof. unfold drop_receiver. solve_calm. Qed.
#[local] Hint Resolve calm_recv calm_drop_receiver : calm.
Lemma calm_write fuel n c : calm (here n c) (write_ws_stream_task fuel c).
Proof. induction fuel; cbn [write_ws_stream_task]; [done|]. solve_calm. Qed.
#[local] Hint Resolve calm_read calm_write : calm.

(** The requests of a namespace. *)
Lemma calm_lock_task_set P n : calm P (lock_task_set n).
Proof.
  apply calm_block. intros w w' _. destruct (namespace_heap w !! n) as [y|] eqn:Hy; [|by intros [= <-]].
  destruct (task_set_locked y); [done|]. intros [= <-]. apply plain_ns_set. intros y' _. split; [by left | done].
Qed.
Lemma calm_unlock_task_set P n : calm P (unlock_task_set n).
Proof. unfold unlock_task_set. solve_calm. Qed.
#[local] Hint Resolve calm_lock_task_set calm_unlock_task_set : calm.

Lemma calm_request n hs uri : calm (there n) (handle_on_upgrade_request n hs uri).
Proof.
  unfold handle_on_upgrade_request. apply routine_bind; [solve_calm|]. intros _. apply routine_bind.
  - apply calm_spawn. by intros w [_ Hn].
  - intros t. solve_calm.
Qed.

(** ** Safety of the others *)
Abbreviation ok p Q s := (safe steady bad p Q s).
Abbreviation harmless p s := (ok p (λ _ _, True) s).

Definition stable (P : Server → Prop) : Prop := ∀ w w', P w → plain w w' → P w'.

Lemma here_kept n c : stable (here n c).
Proof. intros w w'. apply here_stable. Qed.
Lemma there_kept n : stable (there n).
Proof. intros w w'. apply there_stable. Qed.
Lemma sane_kept : stable sane.
Proof. intros w w' Hw Hp. by apply Hp. Qed.

Lemma steady_answer w h l r : steady (w, h) (w, (l, r) :: h).
Proof. by split. Qed.

Lemma calm_ok P {A} (p : srv A) s : stable P → calm P p → P s.1 → ok p (λ _ s', steady s s') s.
Proof.
  intros HP. apply (safe_routine steady bad plain fine P).
  - by intros w w' h _ ?.
  - apply steady_answer.
  - intros s1 s2 H1 H2. by apply (HP s1.1).
  - apply fine_may.
Qed.

Lemma calm_harmless P {A} (p : srv A) s : stable P → calm P p → P s.1 → harmless p s.
Proof. intros HP Hp Hs. eapply (safe_mono steady bad p (λ _ s', steady s s')); [|by eapply calm_ok]. done. Qed.

Lemma calm_then P {A B} (p : srv A) (k : A → srv B) Q s :
  stable P → calm P p → P s.1 → (∀ a s', P s'.1 → ok (k a) Q s') → ok (bind p k) Q s.
Proof.
  intros HP Hp Hs Hk. apply safe_bind. eapply (safe_mono steady bad p (λ _ s', steady s s')); [|by eapply calm_ok].
  intros a s' _ Hs'. apply Hk. by apply (HP s.1).
Qed.

Lemma harmless_ignore {A} (p : srv A) s : harmless p s → harmless (ignore p) s.
Proof. intros Hp. apply safe_bind. by apply (safe_attempt steady bad). Qed.

Lemma harmless_join_all ps s : Forall (λ p, harmless p s) ps → harmless (join_all ps) s.
Proof. apply safe_par_all; [apply _.. |]. intros w h r. apply steady_answer. Qed.

(** What is new refers to what exists. *)
Lemma plain_new_conn c x w :
  connection_heap w !! c = None → is_Some (namespace_heap w !! namespace x) → registry_ok (event_registry x) →
  ∀ i, plain w (w .[ next_connection_id := i ] .[ connection_heap := <[c := x]> (connection_heap w) ]).
Proof.
  intros Hc Hn Hr i. assert (grow w (w .[ next_connection_id := i ] .[ connection_heap := <[c := x]> (connection_heap w) ])) as Hg.
  { split; simpl; [|by intros n y ?; exists y | done]. intros d y Hd. exists y.
    split; [|done]. rewrite lookup_insert_ne; [done|]. by intros ->; simplify_eq. }
  split; [done|]. intros Hs. apply (sane_step w); [done..| | | |]; simpl; [|by eauto..].
  intros d y. rewrite lookup_insert. case_decide; [intros [= <-]; by right | intros Hd; left; by exists y].
Qed.

Lemma plain_new_ns n cfg w :
  namespace_heap w !! n = None →
  plain w (w .[ namespace_heap := <[n := namespace_new cfg]> (namespace_heap w) ]).
Proof.
  intros Hn. assert (grow w (w .[ namespace_heap := <[n := namespace_new cfg]> (namespace_heap w) ])) as Hg.
  { split; simpl; [by intros c x ?; exists x | | done]. intros m y Hm. exists y.
    split; [|done]. rewrite lookup_insert_ne; [done|]. by intros ->; simplify_eq. }
  split; [done|]. intros Hs. apply (sane_step w); [done..| | | |]; simpl; [| |by eauto..].
  - intros c x Hx. left. by exists x.
  - intros m y i c. rewrite lookup_insert. case_decide; [intros [= <-]; simpl; by rewrite lookup_empty|].
    intros Hm Hc. left. by exists y.
Qed.

Lemma harmless_connection_new n hs uri s :
  there n s.1 → ok (connection_new log2 hs n uri) (λ c s', here n c s'.1) s.
Proof.
  intros Hn. eapply (calm_then (there n)); [apply there_kept | solve_calm | done|].
  clear s Hn. intros cfg s Hn s1 H1 w2 [= <-]. assert (there n s1.1) as [Hs Hex] by by eapply there_kept.
  destruct s1 as [w1 h1]. simpl in *. set (c := fresh _). set (x := Build_WsIoServerConnection _ _ _ _ _ _ _ _ _ _ _ _ _).
  assert (plain w1 (w1 .[ next_connection_id := wrap64 (next_connection_id w1 + 1) ]
    .[ connection_heap := <[c := x]> (connection_heap w1) ])) as Hp.
  { apply plain_new_conn; [apply not_elem_of_dom, is_fresh | done | apply registry_new_ok]. }
  split; [done|]. split; [by apply Hp|]. exists x. simpl. by rewrite lookup_insert_eq.
Qed.

Lemma harmless_alloc_namespace cfg s : sane s.1 → ok (alloc_namespace cfg) (λ n s', there n s'.1) s.
Proof.
  intros Hs [w1 h1] H1 w2 [= <-]. assert (sane w1) as Hs1 by by apply (sane_kept s.1).
  assert (plain w1 (w1 .[ namespace_heap := <[fresh (dom (namespace_heap w1)) := namespace_new cfg]> (namespace_heap w1) ])) as Hp.
  { apply plain_new_ns, not_elem_of_dom, is_fresh. }
  split; [done|]. split; [by apply Hp|]. simpl. by rewrite lookup_insert_eq.
Qed.

(** An upgraded request. *)
Lemma harmless_upgraded n hs uri s : there n s.1 → harmless (handle_upgraded_request log2 n hs uri) s.
Proof.
  intros Hn. unfold handle_upgraded_request.
  do 2 (eapply (calm_then (there n)); [apply there_kept | solve_calm | done|]; clear s Hn; intros ? s Hn).
  destruct (negb a || negb a0).
  { eapply (calm_harmless (there n)); [apply there_kept | | done]. unfold unit_reply. solve_calm. }
  apply safe_bind. eapply (safe_mono steady bad _ (λ c s', here n c s'.1)); [|by apply harmless_connection_new].
  intros c s' _ Hc. eapply (calm_harmless (here n c)); [apply here_kept | solve_calm | done].
Qed.

(** After a program of which only its safety is known. *)
Lemma harmless_seq P {A} (p : srv A) (k : A → srv unit) s :
  stable P → P s.1 → harmless p s → (∀ a s', P s'.1 → harmless (k a) s') → harmless (bind p k) s.
Proof.
  intros HP Hs Hp Hk. apply safe_bind. eapply (safe_mono steady bad p (λ _ _, True)); [|done].
  intros a s' Hs' _. apply Hk. by apply (HP s.1).
Qed.

Lemma harmless_upgrade_task n t hs uri s : there n s.1 → harmless (upgrade_task log2 n t hs uri) s.
Proof.
  intros Hn [w1 h1] H1 r. split; [apply steady_answer|]. simpl.
  assert (there n w1) as Hn1 by by eapply there_kept.
  apply (harmless_seq (there n)); [apply there_kept | done | |].
  - destruct r as [[u|e]| | | | | |]; try done. by apply harmless_ignore, harmless_upgraded.
  - intros _ s' Hs'. eapply (calm_harmless (there n)); [apply there_kept | solve_calm | done].
Qed.

(** Reading a namespace. *)
Lemma harmless_ns_get n {A B} (f : WsIoServerNamespace → A) (k : A → srv B) Q s :
  there n s.1 → (∀ y s', sane s'.1 → namespace_heap s'.1 !! n = Some y → ok (k (f y)) Q s') →
  ok (bind (ns_get n f) k) Q s.
Proof.
  intros Hn Hk [w1 h1] H1 w2 [= <-]. split; [done|].
  assert (there n w1) as [Hs [y Hy]] by by eapply there_kept. specialize (Hk y (w1, h1) Hs Hy).
  simpl. by rewrite Hy.
Qed.

Lemma harmless_gets {A B} (f : Server → A) (k : A → srv B) Q s :
  sane s.1 → (∀ s', sane s'.1 → ok (k (f s'.1)) Q s') → ok (bind (gets f) k) Q s.
Proof.
  intros Hs Hk [w1 h1] H1 w2 [= <-]. split; [done|]. apply (Hk (w1, h1)). by apply (sane_kept s.1).
Qed.

(** *** Broadcasts *)
Lemma calm_targets o : calm (there (op_namespace o)) (target_connection_ids o).
Proof.
  assert (∀ n rs ids, calm (there n) (include_loop n rs ids)) as Hi.
  { intros n rs. induction rs; intros ids; cbn [include_loop]; [done|]. solve_calm. }
  assert (∀ n rs ids, calm (there n) (exclude_loop n rs ids)) as He.
  { intros n rs. induction rs; intros ids; cbn [exclude_loop]; [done|]. solve_calm. }
  unfold target_connection_ids. apply routine_bind; [case_bool_decide; solve_calm|]. intros ids.
  by apply routine_bind.
Qed.

Lemma harmless_visit n f i s :
  (∀ c, calm (here n c) (f c)) → there n s.1 → harmless (visit n f i) s.
Proof.
  intros Hf Hn. apply harmless_ns_get; [done|]. clear s Hn. intros y s Hs Hy.
  destruct (connections y !! i) as [c|] eqn:Hc; [|done].
  apply harmless_ignore, (calm_harmless (here n c)); [apply here_kept | done|].
  split; [done|]. by eapply sane_tables.
Qed.

Lemma harmless_targets o f s :
  (∀ c, calm (here (op_namespace o) c) (f c)) → there (op_namespace o) s.1 →
  harmless (for_each_target_connections o f) s.
Proof.
  intros Hf Hn. eapply (calm_then (there _)); [apply there_kept | apply calm_targets | done|].
  intros ids s' Hn'. case_bool_decide; [done|]. apply harmless_join_all, Forall_fmap, Forall_true. intros i.
  by apply harmless_visit.
Qed.

Lemma harmless_broadcast_close o s : there (op_namespace o) s.1 → harmless (Broadcast.close o) s.
Proof. intros Hn. apply harmless_targets; [|done]. intros c. solve_calm. Qed.

Lemma harmless_broadcast_disconnect o s : there (op_namespace o) s.1 → harmless (Broadcast.disconnect o) s.
Proof.
  intros Hn. eapply (calm_then (there _)); [apply there_kept | solve_calm | done|].
  intros m s' Hn'. apply harmless_targets; [|done]. intros c. solve_calm.
Qed.

Lemma harmless_broadcast_emit o event d s : there (op_namespace o) s.1 → harmless (Broadcast.emit o event d) s.
Proof.
  intros Hn. unfold Broadcast.emit.
  do 5 (eapply (calm_then (there _)); [apply there_kept | solve_calm | eassumption|]; clear s Hn; intros ? s Hn).
  apply harmless_targets; [|done]. intros c. solve_calm.
Qed.

(** *** Shutdown *)

(** [shutdown] reaches its unreachable branch only when it has begun before. *)
Lemma harmless_ns_shutdown n s : there n s.1 → harmless (Namespace.shutdown n) s.
Proof.
  intros Hn. apply harmless_ns_get; [done|]. clear s Hn. intros y s Hs Hy.
  destruct (cell_get (status y)) eqn:Hst; [|done|].
  - eapply (calm_then (there n)); [apply there_kept | | by split; [|eexists] |].
    { apply calm_modify. intros w _. apply plain_ns_set. intros y' _. split; [by left|].
      simpl. by rewrite cell_get_store. }
    intros _ s' Hn'. apply (harmless_seq (there n)); [apply there_kept | done | by apply harmless_broadcast_close |].
    clear s' Hn'. intros _ s' Hn'. eapply (calm_harmless (there n)); [apply there_kept | | done].
    apply routine_bind; [solve_calm|]. intros _. apply routine_bind.
    { apply calm_block. intros w w' _. destruct (namespace_heap w !! n); [|by intros [= <-]].
      case_bool_decide; [|done]. by intros [= <-]. }
    intros _. apply routine_bind; [|intros _; solve_calm]. apply calm_modify. intros w _.
    apply plain_ns_set. intros y' _. split; [by left|]. simpl. by rewrite cell_get_store.
  - split_and!; try done. intros _. right. exists n, y. by rewrite Hst.
Qed.

(** *** The runtime *)
Lemma harmless_clone {B} (k : list nat → srv B) Q s :
  sane s.1 → (∀ ns s', sane s'.1 → Forall (λ n, there n s'.1) ns → ok (k ns) Q s') →
  ok (bind clone_namespaces k) Q s.
Proof.
  intros Hs Hk. apply harmless_gets; [done|]. clear s Hs. intros s Hs. apply Hk; [done|].
  apply Forall_forall. intros n ([p m] & -> & Hp%elem_of_map_to_list)%list_elem_of_In%list_elem_of_fmap.
  split; [done|]. by eapply sane_paths.
Qed.

Lemma harmless_all (f : nat → srv unit) ns s :
  (∀ n s, there n s.1 → harmless (f n) s) → Forall (λ n, there n s.1) ns → harmless (join_all (f <$> ns)) s.
Proof. intros Hf Hns. apply harmless_join_all, Forall_fmap. eapply Forall_impl; [|done]. intros n. apply Hf. Qed.

Lemma harmless_rt_close_all s : sane s.1 → harmless ServerRuntime.close_all s.
Proof.
  intros Hs. apply harmless_clone; [done|]. intros ns s' _ Hns. apply harmless_all; [|done].
  intros n s'' Hn. by apply harmless_broadcast_close.
Qed.

Lemma harmless_rt_disconnect_all s : sane s.1 → harmless ServerRuntime.disconnect_all s.
Proof.
  intros Hs. apply harmless_clone; [done|]. intros ns s' _ Hns. apply harmless_all; [|done].
  intros n s'' Hn. by apply harmless_ignore, harmless_broadcast_disconnect.
Qed.

Lemma harmless_rt_emit event d s : sane s.1 → harmless (ServerRuntime.emit event d) s.
Proof.
  intros Hs. apply harmless_gets; [done|]. clear s Hs. intros s Hs.
  eapply (calm_then sane); [apply sane_kept | apply routine_of_result | done|].
  clear s Hs. intros _ s Hs. apply harmless_clone; [done|]. intros ns s' _ Hns. apply harmless_all; [|done].
  intros n s'' Hn. by apply harmless_ignore, harmless_broadcast_emit.
Qed.

Lemma harmless_remove_namespace p s : sane s.1 → harmless (remove_namespace p) s.
Proof.
  intros Hs [w1 h1] H1 w2 [= <-]. assert (sane w1) as Hs1 by by apply (sane_kept s.1).
  assert (plain w1 (rt_set (λ r, r .[ namespaces := delete p (namespaces r) ]) w1)) as Hp.
  { apply plain_runtime_set; [|done]. intros q n. simpl. rewrite lookup_delete_Some. intros [_ ?]. by left. }
  split; [done|]. cbn [bind fst]. destruct (namespaces (runtime w1) !! p) as [n|] eqn:Hn; [|done].
  apply harmless_ns_shutdown. apply (there_kept n w1); [|done]. split; [done|]. by eapply sane_paths.
Qed.

Lemma harmless_rt_shutdown s : sane s.1 → harmless ServerRuntime.shutdown s.
Proof.
  intros Hs. apply harmless_gets; [done|]. clear s Hs. intros s Hs.
  assert (∀ st, st ≠ RtRunning → calm sane (rt_upd (λ r, r .[ rt_status := cell_store (rt_status r) st ]))) as Hst.
  { intros st Hne. apply calm_modify. intros w _. apply plain_runtime_set; [by left|]. simpl. by rewrite cell_get_store. }
  destruct (cell_get (rt_status (runtime s.1))) eqn:E; [|done|].
  - eapply (calm_then sane); [apply sane_kept | by apply Hst | done|]. clear s Hs E. intros _ s Hs.
    apply harmless_clone; [done|]. clear s Hs. intros ns s Hs Hns.
    apply (harmless_seq sane); [apply sane_kept | done | apply harmless_all; [by apply harmless_ns_shutdown | done] |].
    intros _ s' Hs'. eapply (calm_harmless sane); [apply sane_kept | by apply Hst | done].
  - split_and!; try done. intros _. left. by rewrite E.
Qed.

Lemma harmless_register cfg s : sane s.1 → harmless (_ <- register cfg ;; Ret tt) s.
Proof.
  intros Hs. apply safe_bind, safe_bind.
  eapply (safe_mono steady bad _ (λ n s', there n s'.1)); [|by apply harmless_alloc_namespace]. intros n s' _ Ht.
  eapply (calm_then (there n)); [apply there_kept | | done | done].
  unfold insert_namespace. apply routine_bind; [solve_calm|]. intros p. apply routine_bind; [solve_calm|].
  intros []; [done|]. apply calm_modify. intros w [_ Hw]. apply plain_runtime_set; [|done].
  intros q m. simpl. rewrite lookup_insert. case_decide; [intros [= <-]; by right | by left].
Qed.

(** *** Every task of a server is safe where it starts *)
Lemma harmless_body fuel i t s : sane s.1 → task_ok t s.1 → harmless (server_body log2 fuel i t) s.
Proof.
  intros Hs. assert (∀ c, is_Some (connection_heap s.1 !! c) → ∃ n, here n c s.1) as Hc.
  { intros c [x Hx]. exists (namespace x). split; [done|]. by exists x. }
  assert (∀ c (p : srv unit), (∀ n, calm (here n c) p) → is_Some (connection_heap s.1 !! c) → harmless p s) as Hr.
  { intros c p Hp [n Hn]%Hc. by eapply (calm_harmless (here n c)); [apply here_kept | apply Hp |]. }
  assert (∀ c p, (∀ n, calm (here n c) p) → is_Some (connection_heap s.1 !! c) → harmless (under_token c p) s) as Hu.
  { intros c p Hp. apply Hr. intros n. by apply routine_until. }
  destruct t as [c|c h|c p codec d|c fut|c|c|n hs uri]; cbn [server_body task_ok].
  - apply Hr. intros n. solve_calm.
  - apply Hu. intros n. solve_calm.
  - apply Hu. intros n. solve_calm.
  - apply Hu. intros n. solve_calm.
  - apply Hr. intros n. solve_calm.
  - apply Hr. intros n. solve_calm.
  - intros Hn. by apply harmless_upgrade_task.
Qed.

Lemma harmless_start p s : server_starts log2 s.1 p → sane s.1 → harmless p s.
Proof.
  intros [call Hc] Hs. destruct call as [| |event d|cfg|q| |n|o call|c call|q hs uri|i fuel]; simpl in Hc.
  - injection Hc as <-. by apply harmless_rt_close_all.
  - injection Hc as <-. by apply harmless_rt_disconnect_all.
  - injection Hc as <-. by apply harmless_rt_emit.
  - injection Hc as <-. by apply harmless_register.
  - injection Hc as <-. by apply harmless_remove_namespace.
  - injection Hc as <-. by apply harmless_rt_shutdown.
  - apply bind_Some in Hc as (y & Hy & [= <-]). by apply harmless_ns_shutdown.
  - apply bind_Some in Hc as (y & Hy & [= <-]). assert (there (op_namespace o) s.1) by done.
    destruct call; [by apply harmless_broadcast_close | by apply harmless_broadcast_disconnect | by apply harmless_broadcast_emit].
  - apply bind_Some in Hc as (x & Hx & [= <-]).
    eapply (calm_harmless (here (namespace x) c)); [apply here_kept | | split; [done | by exists x]].
    destruct call; cbn [connection_code]; solve_calm.
  - apply bind_Some in Hc as (n & Hn & [= <-]).
    eapply (calm_harmless (there n)); [apply there_kept | apply calm_request | split; [done | by eapply sane_paths]].
  - apply fmap_Some in Hc as (t & Ht & ->). apply harmless_body; [done | by eapply sane_tasks].
Qed.

Lemma server_new_sane cfg : sane (server_new cfg).
Proof. by split; simpl; intros *; rewrite lookup_empty. Qed.

End safety.

(** ** Witness *)
#[local] Existing Instances ref_types ref_cell ref_mpsc ref_crates.

Definition stopping_twice : sys Server label reply :=
  obeyed (server_code ref_log2) two_stops_moves (idle new_server).

Lemma stopping_twice_reached : reaches_in (server_starts ref_log2) (idle new_server) stopping_twice.
Proof. apply obeyed_reaches. by vm_compute. Qed.

