(* ===== verification/Frames.v ===== *)
(** * Operations of the server that send no packet

    [quiet] operations put nothing into the channel of a connection but a close
    frame, and nothing into the table of a namespace; their tasks do not write to
    a stream.  What is left are the operations that send. *)

From S2P Require Import Prelude Async Spawner Concurrent Extern ChannelCapacity Packet Codecs.
From S2P Require Import EventRegistry Extensions ServerConfig ServerState Connection Broadcast.
From S2P Require Import Namespace ServerRuntime Lifecycle.

(** Whether the tasks of the table are accounted for as well: they are, where tasks
    are started from that table only. *)
Class Strictness : Type := strict : Prop.

(** The connection a task of the table serves once it is ready. *)
Definition event_task `{T : Types} (t : task) : option nat :=
  match t with
  | OnReady c _ | DispatchEvent c _ _ _ | RunHandler c _ => Some c
  | InitWatchdog _ | ReadWsStream _ | WriteWsStream _ | HandleUpgrade _ _ _ => None
  end.

Section frames.
Context {Strict : Strictness}.
Context `{T : Types} `{Cells : AtomicEnumCell} `{Chans : Mpsc} `{Crates : !SerdeCrates}.
Context (log2 : f64 → f64).

Abbreviation items x := (chan_items (message_tx x)).

(** The messages of [y] were in [x], but for a close frame. *)
Definition hushed (x y : WsIoServerConnection) : Prop := ∀ m, m ∈ items y → m ∈ items x ∨ m = Close.

Record quiet (w w' : Server) : Prop := {
  quiet_conns c y : connection_heap w' !! c = Some y →
    match connection_heap w !! c with Some x => hushed x y | None => items y = [] end;
  quiet_tables n y i c : namespace_heap w' !! n = Some y → connections y !! i = Some c →
    ∃ z, namespace_heap w !! n = Some z ∧ connections z !! i = Some c;
  quiet_tasks i t : tasks w' !! i = Some t → tasks w !! i = Some t ∨ (strict → event_task t = None);
}.

(** A task that does not write to the stream of a connection. *)
Definition unwritten (l : label) : Prop := match l with WsSend (Some _) _ => False | _ => True end.

Abbreviation silent p := (does quiet unwritten p).

Lemma hushed_refl x : hushed x x.
Proof. intros m. by left. Qed.

Lemma hushed_same x y : message_tx y = message_tx x → hushed x y.
Proof. intros E m. rewrite E. by left. Qed.

#[local] Instance quiet_refl : Reflexive quiet.
Proof. intros w. split; [intros c y ->; apply hushed_refl | eauto..]. Qed.

Lemma quiet_conn_set c f w : (∀ x, hushed x (f x)) → quiet w (conn_set c f w).
Proof.
  intros Hf. split; simpl; [|by eauto..]. intros d y. rewrite lookup_alter. case_decide.
  - subst. intros (x & -> & ->)%fmap_Some. apply Hf.
  - intros ->. apply hushed_refl.
Qed.

Lemma quiet_ns_set n f w :
  (∀ x i c, connections (f x) !! i = Some c → connections x !! i = Some c) → quiet w (ns_set n f w).
Proof.
  intros Hf. split; simpl; [intros c y ->; apply hushed_refl| |by eauto].
  intros m y i c. rewrite lookup_alter. case_decide; [subst|by eauto].
  intros (x & Hx & ->)%fmap_Some Hc. exists x. auto.
Qed.

Lemma quiet_same w w' :
  connection_heap w' = connection_heap w → namespace_heap w' = namespace_heap w →
  (∀ i t, tasks w' !! i = Some t → tasks w !! i = Some t ∨ (strict → event_task t = None)) → quiet w w'.
Proof. intros Hc Hn Ht. split; rewrite ?Hc, ?Hn; [intros c y ->; apply hushed_refl | eauto..]. Qed.

(** ** The primitive operations *)
Lemma silent_conn_get {A} c (f : WsIoServerConnection → A) : silent (conn_get c f).
Proof. split; [by intros ? ? [= ->]|]. intros w. by destruct (connection_heap w !! c). Qed.

Lemma silent_ns_get {A} n (f : WsIoServerNamespace → A) : silent (ns_get n f).
Proof. split; [by intros ? ? [= ->]|]. intros w. by destruct (namespace_heap w !! n). Qed.

Lemma silent_gets {A} (f : Server → A) : silent (gets f : srv A).
Proof. by split; [intros ? ? [= ->]|]. Qed.

Lemma silent_modify f : (∀ w, quiet w (f w)) → silent (modify f : srv unit).
Proof. intros Hf. split; [by intros w w' [= <-] | done]. Qed.

Lemma silent_block f : (∀ w w', f w = Some w' → quiet w w') → silent (block f : srv unit).
Proof. intros Hf. by split. Qed.

Lemma silent_conn_upd c f : (∀ x, hushed x (f x)) → silent (conn_upd c f).
Proof. intros. apply silent_modify. intros. by apply quiet_conn_set. Qed.

Lemma silent_ns_upd n f :
  (∀ x i c, connections (f x) !! i = Some c → connections x !! i = Some c) → silent (ns_upd n f).
Proof. intros. apply silent_modify. intros. by apply quiet_ns_set. Qed.

Lemma silent_rt_upd f : silent (rt_upd f).
Proof. apply silent_modify. intros. apply quiet_same; auto. Qed.

Lemma silent_try_transition c a b : silent (try_transition c a b).
Proof.
  split.
  - intros w w' [= <-]. apply quiet_conn_set. intros x. by apply hushed_same.
  - intros w. destruct (connection_heap w !! c); [apply does_of_result | done].
Qed.

(** Take a value out of a connection. *)
Lemma silent_conn_take {A} c f (g : Server → srv A) :
  (∀ x, hushed x (f x)) → (∀ w, silent (g w)) → silent (Atom (λ w, Some (conn_set c f w)) g : srv A).
Proof. intros Hf Hg. split; [|done]. intros w w' [= <-]. by apply quiet_conn_set. Qed.

Lemma silent_spawn t : (strict → event_task t = None) → silent (spawn t).
Proof.
  intros Ht. split; [|done]. intros w w' [= <-]. apply quiet_same; [done..|]. intros i t'. simpl.
  rewrite lookup_insert. case_decide; [intros [= <-]; by right | by left].
Qed.

Lemma silent_abort i : silent (abort i).
Proof.
  apply silent_modify. intros w. apply quiet_same; [done..|]. intros j t. simpl.
  rewrite lookup_delete_Some. intros [_ ?]. by left.
Qed.

Lemma silent_join_all {A} (f : A → srv unit) l : (∀ a, silent (f a)) → silent (join_all (f <$> l)).
Proof. intros. by apply does_par_all, Forall_fmap, Forall_true. Qed.

Create HintDb silent.
#[local] Hint Resolve silent_conn_get silent_ns_get silent_gets silent_rt_upd silent_try_transition
  silent_abort does_of_result hushed_refl : silent.
#[local] Hint Extern 1 (does _ _ (spawn _)) => by apply silent_spawn : silent.
#[local] Hint Extern 1 (does _ _ (conn_upd _ _)) => apply silent_conn_upd; intros; by apply hushed_same : silent.
#[local] Hint Extern 1 (does _ _ (state_store _ _)) => apply silent_conn_upd; intros; by apply hushed_same : silent.
#[local] Hint Extern 1 (does _ _ (ns_upd _ _)) => apply silent_ns_upd; intros; assumption : silent.

(** Walk down a program; [silent] has the operations already proved. *)
Ltac solve_silent :=
  repeat first
    [ solve [auto 2 with silent]
    | lazymatch goal with
      | |- does _ _ (bind _ _) => apply does_bind
      | |- does _ _ (ignore _) => apply does_ignore
      | |- does _ _ (under_token _ _) => apply does_until; [apply _|]
      | |- does _ _ (attempt _) => apply does_attempt
      | |- does _ _ (seq_all _ _) => apply does_seq_all
      | |- does _ _ (join_all (_ <$> _)) => apply silent_join_all
      | |- does _ _ (Await _ _) => split; [exact I|]
      | |- does _ _ (Ret _) => exact I
      | |- does _ _ (Fail _) => exact I
      | |- does _ _ (Panic _) => exact I
      | |- does _ _ (match ?x with _ => _ end) => destruct x
      | |- ∀ _, _ => intro
      end ].

(** ** The operations *)
Lemma silent_abort_locked_task c : silent (abort_locked_task c).
Proof. apply does_bind; [|solve_silent]. apply silent_conn_take; [|done]. intros x. by apply hushed_same. Qed.
#[local] Hint Resolve silent_abort_locked_task : silent.

Lemma silent_add_room n r i : silent (add_connection_id_to_room n r i).
Proof. unfold add_connection_id_to_room. solve_silent. Qed.
Lemma silent_remove_room n r i : silent (remove_connection_id_from_room n r i).
Proof.
  unfold remove_connection_id_from_room. solve_silent. apply silent_ns_upd. intros x j c.
  destruct (rooms x !! r); [|done]. by case_bool_decide.
Qed.
Lemma silent_remove_connection n i : silent (remove_connection n i).
Proof.
  unfold remove_connection, remove_connection_id. solve_silent. apply silent_ns_upd. intros x j c. simpl.
  rewrite lookup_delete_Some. by intros [_ ?].
Qed.
Lemma silent_encode n p : silent (encode_packet_to_message n p).
Proof. unfold encode_packet_to_message. solve_silent. Qed.
Lemma silent_ensure c st msg : silent (ensure c st msg).
Proof. unfold ensure. solve_silent. Qed.
Lemma silent_unit_reply r : silent (unit_reply r).
Proof. unfold unit_reply. solve_silent. Qed.
#[local] Hint Resolve silent_add_room silent_remove_room silent_remove_connection silent_encode
  silent_ensure silent_unit_reply : silent.

Lemma silent_unit_handler c h arg : silent (call_unit_handler c h arg).
Proof. unfold call_unit_handler. solve_silent. Qed.
#[local] Hint Resolve silent_unit_handler : silent.

Lemma silent_close c : silent (Connection.close c).
Proof.
  unfold Connection.close, try_send_close. solve_silent; apply silent_conn_upd; intros x m; simpl;
    pose proof (chan_try_send_spec (message_tx x) Close) as Hs;
    destruct (chan_try_send (message_tx x) Close) as [ch r]; destruct Hs as (_ & _ & Hit & _);
    simpl; rewrite Hit; (destruct (_ || _); [by left|]); rewrite elem_of_app, list_elem_of_singleton; naive_solver.
Qed.
Lemma silent_is_ready c : silent (is_ready c).
Proof. unfold is_ready. solve_silent. Qed.
#[local] Hint Resolve silent_close silent_is_ready : silent.

Lemma silent_join c rs : silent (join c rs).
Proof. unfold join. solve_silent. Qed.
Lemma silent_leave c rs : silent (leave c rs).
Proof. unfold leave. solve_silent. Qed.
Lemma silent_off c event : silent (off c event).
Proof. unfold off, reg_upd. solve_silent. Qed.
Lemma silent_off_id c event i : silent (off_by_handler_id c event i).
Proof.
  apply does_bind; [apply silent_conn_take|unfold reg_upd; solve_silent].
  - intros x. by apply hushed_same.
  - intros w. by destruct (connection_heap w !! c).
Qed.
Lemma silent_on c event h : silent (on c event h).
Proof.
  apply silent_conn_take.
  - intros x. by destruct (EventRegistry.on event h (event_registry x)); apply hushed_same.
  - intros w. destruct (connection_heap w !! c); [|done]. by destruct (EventRegistry.on _ _ _).
Qed.
Lemma silent_lock_on_close c : silent (lock_on_close c).
Proof.
  apply silent_block. intros w w'. destruct (connection_heap w !! c) as [x|]; [|by intros [= <-]].
  destruct (on_close_locked x); [done|]. intros [= <-]. apply quiet_conn_set. intros y. by apply hushed_same.
Qed.
#[local] Hint Resolve silent_lock_on_close : silent.
Lemma silent_on_close c h : silent (on_close c h).
Proof. unfold on_close, unlock_on_close. solve_silent. Qed.
Lemma silent_init_watchdog c : silent (init_watchdog c).
Proof. unfold init_watchdog. solve_silent. Qed.
Lemma silent_cleanup c : silent (cleanup c).
Proof.
  unfold cleanup, unlock_on_close. solve_silent. apply silent_conn_take; [|done].
  intros x. by apply hushed_same.
Qed.
#[local] Hint Resolve silent_cleanup : silent.

Lemma silent_drop_receiver c : silent (drop_receiver c).
Proof.
  apply silent_conn_upd. intros x m Hm. left.
  destruct (chan_close_spec (message_tx x)) as (_ & _ & Hc). by apply Hc.
Qed.

(** What is received was in the channel, and the rest stays. *)
Lemma silent_recv c : silent (recv c).
Proof.
  split; [|done]. intros w w'. destruct (connection_heap w !! c) as [x|]; [|done].
  destruct (chan_try_recv (message_tx x)).2 as [m0|]; [|done]. intros [= <-]. apply quiet_conn_set. intros y m Hm.
  left. pose proof (chan_try_recv_spec (message_tx y)) as Hs. simpl in Hm.
  destruct (chan_try_recv (message_tx y)) as [ch o]. destruct Hs as (_ & _ & _ & Hit). simpl in Hm.
  rewrite Hit in Hm. destruct (items y); [done|]. by right.
Qed.

(** Broadcasts, namespaces, the runtime. *)
Lemma silent_targets o : silent (target_connection_ids o).
Proof.
  assert (∀ n rs ids, silent (include_loop n rs ids)) as Hi.
  { intros n rs. induction rs; intros ids; cbn [include_loop]; solve_silent. }
  assert (∀ n rs ids, silent (exclude_loop n rs ids)) as He.
  { intros n rs. induction rs; intros ids; cbn [exclude_loop]; cbv zeta; solve_silent. }
  unfold target_connection_ids. solve_silent; auto.
Qed.
#[local] Hint Resolve silent_targets silent_drop_receiver : silent.

Lemma silent_for_each o f : (∀ c, silent (f c)) → silent (for_each_target_connections o f).
Proof. intros Hf. unfold for_each_target_connections, visit. solve_silent. Qed.

Lemma silent_bc_close o : silent (Broadcast.close o).
Proof. apply silent_for_each. intros c. apply silent_close. Qed.

Lemma silent_lock_task_set n : silent (lock_task_set n).
Proof.
  apply silent_block. intros w w'. destruct (namespace_heap w !! n) as [x|]; [|by intros [= <-]].
  destruct (task_set_locked x); [done|]. intros [= <-]. by apply quiet_ns_set.
Qed.
#[local] Hint Resolve silent_bc_close silent_lock_task_set : silent.

Lemma silent_request n hs uri : silent (handle_on_upgrade_request n hs uri).
Proof. unfold handle_on_upgrade_request, unlock_task_set. solve_silent. Qed.
Lemma silent_ns_shutdown n : silent (Namespace.shutdown n).
Proof.
  unfold Namespace.shutdown, unlock_task_set, Namespace.close_all. solve_silent.
  apply silent_block. intros w w'. destruct (namespace_heap w !! n); [case_bool_decide|]; by intros; simplify_eq.
Qed.
#[local] Hint Resolve silent_ns_shutdown : silent.

Lemma silent_alloc cfg : silent (alloc_namespace cfg).
Proof.
  split; [|done]. intros w w' [= <-]. split; simpl; [intros c y ->; apply hushed_refl| |by eauto].
  intros n y i c. rewrite lookup_insert. case_decide; [|by eauto]. intros [= <-]. simpl. by rewrite lookup_empty.
Qed.
#[local] Hint Resolve silent_alloc : silent.
Lemma silent_register cfg : silent (register cfg).
Proof. unfold register, insert_namespace. solve_silent. Qed.
Lemma silent_remove_namespace p : silent (remove_namespace p).
Proof.
  apply does_bind; [|solve_silent]. split; [|done]. intros w w' [= <-]. apply quiet_same; auto.
Qed.

Lemma silent_rt_close_all : silent ServerRuntime.close_all.
Proof. unfold ServerRuntime.close_all, clone_namespaces, Namespace.close_all. solve_silent. Qed.
Lemma silent_rt_shutdown : silent ServerRuntime.shutdown.
Proof. unfold ServerRuntime.shutdown, clone_namespaces. solve_silent. Qed.

Lemma silent_connection_new hs n uri : silent (connection_new log2 hs n uri).
Proof.
  apply does_bind; [solve_silent|]. intros cfg. split; [|done]. intros w w' [= <-].
  split; simpl; [|by eauto..]. intros c y. rewrite lookup_insert. case_decide as Hc.
  - intros [= <-]. subst. assert (connection_heap w !! fresh (dom (connection_heap w)) = None) as ->.
    { apply not_elem_of_dom, is_fresh. }
    simpl. apply channel_spec.
  - intros ->. apply hushed_refl.
Qed.
End frames.
