(* ===== verification/Trust.v ===== *)
(** * What the tasks of the server guarantee each other

    [vouch] is what every step keeps to.  It carries two invariants along: what the
    state of a connection says of the answers its handlers have given ([vetted]),
    and what is done only for connections that have been approved ([honest]): a
    frame the client reads as a ready packet is put into their channels and sent, the
    tables list them, and, where tasks are started from the table only ([strict]),
    events are dispatched to their handlers. *)

From S2P Require Import Prelude Async Concurrent Extern ChannelCapacity Packet Codecs.
From S2P Require Import EventRegistry Extensions ServerConfig ServerState Connection Broadcast.
From S2P Require Import Namespace ServerRuntime Lifecycle Frames.

Section trust.
Context {Strict : Strictness}.
Context `{T : Types} `{Cells : AtomicEnumCell} `{Chans : Mpsc} `{Crates : !SerdeCrates}.

Abbreviation view := (seen (W := Server) (L := label) (R := reply)).

(** ** The answers the handshake asks for, the latest first *)
Definition asked (c : nat) (cfg : WsIoServerNamespaceConfig) (greeting : option any) :
    list (label * reply) :=
  match init_request_handler cfg with
  | Some h => [(Handler c h.2 None, RData (Ok greeting))]
  | None => []
  end.

Definition granted (c : nat) (h : option string) (arg : option any) : list (label * reply) :=
  match h with Some h => [(Handler c h arg, RUnit (Ok tt))] | None => [] end.

Definition approved (c : nat) (cfg : WsIoServerNamespaceConfig) (greeting arg : option any) :
    list (label * reply) :=
  granted c (on_connect_handler cfg) None ++ granted c (middleware cfg) None ++
  granted c (snd <$> init_response_handler cfg) arg ++ asked c cfg greeting.

(** What the state of a connection says of the answers so far. *)
Definition evidence (c : nat) (cfg : WsIoServerNamespaceConfig) (s : ConnectionState)
    (h : list (label * reply)) : Prop :=
  match s with
  | AwaitingInit => ∃ greeting, asked c cfg greeting `sublist_of` h
  | ConnReady => ∃ greeting arg, approved c cfg greeting arg `sublist_of` h
  | _ => True
  end.

Definition vetted (s : view) : Prop :=
  ∀ c x, connection_heap s.1 !! c = Some x → gated (cell_get (state x)) →
  ∃ y, namespace_heap s.1 !! namespace x = Some y ∧ evidence c (config y) (cell_get (state x)) s.2.

(** ** What the frames of a connection say *)

(** A client with this codec reads the frame as a ready packet. *)
Definition reads_ready (codec : WsIoPacketCodec) (m : Message) : Prop :=
  ∃ p, carries codec m p ∧ type p = Ready.

(** Every handler has approved the connection, and it is ready, or past that. *)
Definition cleared (c : nat) (s : view) : Prop :=
  ∃ x y greeting arg, connection_heap s.1 !! c = Some x ∧ namespace_heap s.1 !! namespace x = Some y ∧
    rank ConnReady ≤ rank (cell_get (state x)) ∧ approved c (config y) greeting arg `sublist_of` s.2.

(** The message may go to the client. *)
Definition may_carry (c : nat) (m : Message) (s : view) : Prop :=
  m = Close ∨ ∃ x y, connection_heap s.1 !! c = Some x ∧ namespace_heap s.1 !! namespace x = Some y ∧
    (reads_ready (ns_packet_codec (config y)) m → cleared c s).

Definition home (n c : nat) (s : view) : Prop :=
  ∃ x, connection_heap s.1 !! c = Some x ∧ namespace x = n.

(** The connection may be in the table of the namespace [n], under the id [i]. *)
Definition listed (n : nat) (i : Z) (c : nat) (s : view) : Prop :=
  (∃ x, connection_heap s.1 !! c = Some x ∧ namespace x = n ∧ id x = i) ∧ cleared c s.

Record honest (s : view) : Prop := {
  honest_queue c x m : connection_heap s.1 !! c = Some x → m ∈ chan_items (message_tx x) → may_carry c m s;
  honest_sent c m r : (WsSend (Some c) m, r) ∈ s.2 → may_carry c m s;
  honest_tables n y i c : namespace_heap s.1 !! n = Some y → connections y !! i = Some c → listed n i c s;
  honest_tasks i t c : strict → tasks s.1 !! i = Some t → event_task t = Some c → cleared c s;
}.

Definition trusted (s : view) : Prop := vetted s ∧ honest s.

(** ** Rely and guarantee *)
Definition vouch (s s' : view) : Prop :=
  world_ok True s.1 s'.1 ∧ (∃ h, s'.2 = h ++ s.2) ∧ (trusted s → trusted s').

#[export] Instance vouch_preorder : PreOrder vouch.
Proof.
  split.
  - intros s. split; [done|]. split; [by exists [] | done].
  - intros s1 s2 s3 (W1 & (h1 & H1) & V1) (W2 & (h2 & H2) & V2).
    split; [by etrans|]. split; [|by auto]. exists (h2 ++ h1). by rewrite H2, H1, app_assoc.
Qed.

Lemma evidence_more c cfg st h h' : evidence c cfg st h → evidence c cfg st (h' ++ h).
Proof.
  destruct st; simpl; try done.
  - intros [g Hg]. exists g. by apply sublist_inserts_l.
  - intros (g & a & Hg). exists g, a. by apply sublist_inserts_l.
Qed.

(** The parts of a step that do not depend on the invariants. *)
Definition moves (s s' : view) : Prop :=
  world_ok True s.1 s'.1 ∧ ∃ h, s'.2 = h ++ s.2.

Lemma vouch_moves s s' : vouch s s' → moves s s'.
Proof. by intros (? & ? & _). Qed.

Lemma home_moves n c s s' : home n c s → moves s s' → home n c s'.
Proof.
  intros (x & Hx & Hn) [HW _]. destruct (world_conns _ _ _ HW c x Hx) as (x' & Hx' & _ & _ & Hns & _).
  exists x'. by rewrite Hns.
Qed.

Lemma cleared_moves c s s' : cleared c s → moves s s' → cleared c s'.
Proof.
  intros (x & y & g & a & Hx & Hy & Hr & Ha) [[C N _ _] (h & Hh)].
  destruct (C c x Hx) as (x' & Hx' & He & _ & Hns & _), (N _ _ Hy) as (y' & Hy' & Hcfg & _).
  exists x', y', g, a. rewrite Hns, Hcfg, Hh. split_and!; [done | done | | by apply sublist_inserts_l].
  etrans; [exact Hr | by apply edges_rank].
Qed.

Lemma listed_moves n i c s s' : listed n i c s → moves s s' → listed n i c s'.
Proof.
  intros [(x & Hx & Hn & Hi) Hc] Hm. split; [|by eapply cleared_moves].
  destruct (world_conns _ _ _ (proj1 Hm) c x Hx) as (x' & Hx' & _ & Hid & Hns & _).
  exists x'. by rewrite Hid, Hns.
Qed.

Lemma listed_home n i c s : listed n i c s → home n c s.
Proof. intros [(x & Hx & Hn & _) _]. by exists x. Qed.

Lemma may_carry_moves c m s s' : may_carry c m s → moves s s' → may_carry c m s'.
Proof.
  intros [->|(x & y & Hx & Hy & Hm)] Hmv; [by left|]. right. pose proof Hmv as [[C N _ _] _].
  destruct (C c x Hx) as (x' & Hx' & _ & _ & Hns & _), (N _ _ Hy) as (y' & Hy' & Hcfg & _).
  exists x', y'. rewrite Hns, Hcfg. split_and!; [done..|]. intros Hr. by eapply cleared_moves; [apply Hm|].
Qed.

Lemma world_ok_any w w' : world_ok False w w' → world_ok True w w'.
Proof.
  intros [C N R Y]. split; try done.
  intros c x Hx. destruct (C c x Hx) as (y & Hy & ? & ? & ? & ? & ?).
  exists y. split; [done|]. by split_and!.
Qed.

(** Operations that do not pass a gate .. *)
Lemma vetted_other w w' h : world_ok False w w' → vetted (w, h) → vetted (w', h).
Proof.
  intros [C N R Y] V c y Hy Hg. simpl in *.
  destruct (Y c y) as (x & Hx & Hst); [by intros []|done|done|].
  destruct (C c x Hx) as (y' & Hy' & _ & _ & Hns & _). simplify_eq.
  rewrite <-Hst in Hg. destruct (V c x Hx Hg) as (z & Hz & He).
  destruct (N _ _ Hz) as (z' & Hz' & Hcfg & _). simpl in *.
  exists z'. rewrite Hns, Hcfg, <-Hst. by split.
Qed.

(** .. and put nothing into a channel or a table that may not be there. *)
Lemma honest_step w w' h :
  world_ok True w w' → honest (w, h) →
  (∀ c y m, connection_heap w' !! c = Some y → m ∈ chan_items (message_tx y) →
    (∃ x, connection_heap w !! c = Some x ∧ m ∈ chan_items (message_tx x)) ∨ may_carry c m (w', h)) →
  (∀ n y i c, namespace_heap w' !! n = Some y → connections y !! i = Some c →
    (∃ z, namespace_heap w !! n = Some z ∧ connections z !! i = Some c) ∨ listed n i c (w, h)) →
  (∀ i t, tasks w' !! i = Some t →
    tasks w !! i = Some t ∨ (strict → ∀ c, event_task t = Some c → cleared c (w, h))) →
  honest (w', h).
Proof.
  intros HW [HQ HS HT HK] Hch Htb Htk. assert (moves (w, h) (w', h)) as Hm by (split; [done | by exists []]).
  split; simpl in *.
  - intros c y m Hy Hin. destruct (Hch c y m Hy Hin) as [(x & Hx & Hix)|Hc]; [|done].
    eapply may_carry_moves; [by eapply HQ | done].
  - intros c m r Hin. eapply may_carry_moves; [by eapply HS | done].
  - intros n y i c Hy Hc. eapply listed_moves; [|done].
    destruct (Htb n y i c Hy Hc) as [(z & Hz & Hcz)|Hh]; [by eapply HT | done].
  - intros i t c Hs Ht Hc. eapply cleared_moves; [|done].
    destruct (Htk i t Ht) as [Hi|Hi]; [by eapply HK | by apply Hi].
Qed.

Lemma vouch_quiet w w' h : world_ok False w w' → quiet w w' → vouch (w, h) (w', h).
Proof.
  intros Hw Hq. pose proof (world_ok_any _ _ Hw) as HW. split; [done|]. split; [by exists []|].
  intros [V Hh]. split; [by eapply vetted_other|]. eapply honest_step; [done..| | |].
  - intros c y m Hy Hin. pose proof (quiet_conns _ _ Hq c y Hy) as Hc.
    destruct (connection_heap w !! c) as [x|]; [|by rewrite Hc in Hin; apply not_elem_of_nil in Hin].
    destruct (Hc m Hin) as [?| ->]; [left; by exists x | right; by left].
  - intros n y i c Hy Hc. left. by eapply quiet_tables.
  - intros i t Ht. destruct (quiet_tasks _ _ Hq i t Ht) as [|Hf]; [by left|]. right.
    intros Hs c. by rewrite Hf.
Qed.

Lemma trusted_answer w h l r :
  trusted (w, h) → (∀ c m, l = WsSend (Some c) m → may_carry c m (w, h)) → trusted (w, (l, r) :: h).
Proof.
  intros [V [HQ HS HT HK]] Hl.
  assert (moves (w, h) (w, (l, r) :: h)) as Hm by (split; [done | by exists [(l, r)]]).
  split; [|split].
  - intros c x Hx Hg. destruct (V c x Hx Hg) as (y & Hy & He). exists y. split; [done|].
    by apply (evidence_more _ _ _ _ [_]).
  - intros c x m Hx Hin. eapply may_carry_moves; [by eapply HQ | done].
  - intros c m r' [Heq|Hin]%elem_of_cons.
    + injection Heq as <- <-. eapply may_carry_moves; [by apply Hl | done].
    + eapply may_carry_moves; [by eapply HS | done].
  - intros n y i c Hy Hc. eapply listed_moves; [by eapply HT | done].
  - intros i t c Hs Ht Hc. eapply cleared_moves; [by eapply HK | done].
Qed.

Lemma vouch_answer w h l r : unwritten l → vouch (w, h) (w, (l, r) :: h).
Proof.
  intros Hl. split; [done|]. split; [by exists [(l, r)]|]. intros Ht. apply trusted_answer; [done|].
  by intros c m ->.
Qed.

(** [known c n cfg l s]: what the task that handles [c] knows. *)
Record known (c n : nat) (cfg : WsIoServerNamespaceConfig) (l : list (label * reply))
    (s : view) : Prop := {
  known_conn : home n c s;
  known_ns : ∃ y, namespace_heap s.1 !! n = Some y ∧ config y = cfg;
  known_answers : l `sublist_of` s.2;
  known_trusted : trusted s;
}.

Lemma known_stable c n cfg l s s' : known c n cfg l s → vouch s s' → known c n cfg l s'.
Proof.
  intros [Hc (y & Hy & Hcfg) Hl V] Hv. pose proof (vouch_moves _ _ Hv) as Hm. pose proof Hm as [[C N _ _] (h & Hh)]. split.
  - by eapply home_moves.
  - destruct (N n y Hy) as (y' & Hy' & Hcfg' & _). exists y'. by rewrite Hcfg'.
  - rewrite Hh. by apply sublist_inserts_l.
  - by apply Hv.
Qed.

(** Operations of both kinds: [mute] programs. *)
Definition mute {A} (p : srv A) : Prop := guar (world_ok False) p ∧ does quiet unwritten p.

Lemma safe_mute {A} (p : srv A) s : mute p → safe vouch any_panic p (λ _ s', vouch s s') s.
Proof.
  intros [Hg Hp]. apply (safe_does quiet unwritten vouch (world_ok False));
    [apply vouch_quiet | intros; by apply vouch_answer | done..].
Qed.

Lemma mute_bind {A B} (p : srv A) (k : A → srv B) : mute p → (∀ a, mute (k a)) → mute (bind p k).
Proof. intros [? ?] Hk. by split; [apply guar_bind | apply does_bind]; try done; intros a; apply Hk. Qed.

Lemma mute_await {A} l (k : reply → srv A) : unwritten l → (∀ r, mute (k r)) → mute (Await l k).
Proof. intros Hl Hk. split; [|split; [done|]]; intros r; apply Hk. Qed.

Lemma mute_ret {A} (a : A) : mute (Ret a).
Proof. done. Qed.

(** They keep what is known. *)
Lemma safe_keep {A} (p : srv A) (P : view → Prop) s :
  (∀ s s', P s → vouch s s' → P s') → mute p → P s → safe vouch any_panic p (λ _ s', P s') s.
Proof.
  intros HP Hg Hs. eapply (safe_mono vouch any_panic p (λ _ s', vouch s s')); [|by apply safe_mute].
  intros a s' Hv _. exact (HP s s' Hs Hv).
Qed.

Lemma safe_other {A} (p : srv A) s : mute p → safe vouch any_panic p (λ _ _, True) s.
Proof. intros. by apply (safe_keep p (λ _, True)). Qed.

Lemma safe_then {A B} (p : srv A) (k : A → srv B) P Q s :
  safe vouch any_panic p P s → (∀ a s', P a s' → safe vouch any_panic (k a) Q s') → safe vouch any_panic (bind p k) Q s.
Proof. intros Hp Hk. apply safe_bind. eapply (safe_mono vouch any_panic p P); [|done]. auto. Qed.

(** What is known stays known. *)
Lemma safe_still {A} (p : srv A) (K : view → Prop) s :
  (∀ s s', K s → vouch s s' → K s') → K s → safe vouch any_panic p (λ _ _, True) s →
  safe vouch any_panic p (λ _ s', K s') s.
Proof.
  intros HK Hs Hp. eapply (safe_mono vouch any_panic p (λ _ _, True)); [|done].
  intros a s' Hv _. by eapply HK.
Qed.

Lemma safe_result {A} (r : result A) (Q : A → seen → Prop) s :
  (∀ a, r = Ok a → Q a s) → safe vouch any_panic (of_result r) Q s.
Proof. destruct r; simpl; auto. Qed.

(** ** Reading *)
Lemma safe_conn_get {A} c (f : WsIoServerConnection → A) Q s :
  (∀ s1 x, vouch s s1 → connection_heap s1.1 !! c = Some x → Q (f x) s1) →
  safe vouch any_panic (conn_get c f) Q s.
Proof.
  intros HQ s1 H1 w2 [= <-]. destruct s1 as [w h]. simpl in *.
  split; [done|]. destruct (connection_heap w !! c) eqn:Hx; [|done]. simpl. by apply (HQ (w, h)).
Qed.

Lemma safe_ns_get {A} n (f : WsIoServerNamespace → A) Q s :
  (∀ s1 x, vouch s s1 → namespace_heap s1.1 !! n = Some x → Q (f x) s1) →
  safe vouch any_panic (ns_get n f) Q s.
Proof.
  intros HQ s1 H1 w2 [= <-]. destruct s1 as [w h]. simpl in *.
  split; [done|]. destruct (namespace_heap w !! n) eqn:Hx; [|done]. simpl. by apply (HQ (w, h)).
Qed.

Lemma safe_config {B} c n cfg l (k : nat → WsIoServerNamespaceConfig → srv B) Q s :
  known c n cfg l s → (∀ s', known c n cfg l s' → safe vouch any_panic (k n cfg) Q s') →
  safe vouch any_panic (m <- conn_get c namespace ;; cf <- ns_get m config ;; k m cf) Q s.
Proof.
  intros Hs Hk. eapply safe_then with (P := λ m s', m = n ∧ known c n cfg l s').
  { apply safe_conn_get. intros s1 x H1 Hx. assert (Hs1 := known_stable _ _ _ _ _ _ Hs H1).
    destruct (known_conn _ _ _ _ _ Hs1) as (x' & ? & <-). by simplify_eq. }
  intros m s1 [-> H1]. eapply safe_then with (P := λ cf s', cf = cfg ∧ known c n cfg l s').
  { apply safe_ns_get. intros s2 y H2 Hy. assert (Hs2 := known_stable _ _ _ _ _ _ H1 H2).
    destruct (known_ns _ _ _ _ _ Hs2) as (y' & ? & <-). by simplify_eq. }
  intros cf s2 [-> H2]. by apply Hk.
Qed.

(** ** Handlers *)
Lemma known_answer c n cfg l w h lab r :
  unwritten lab → known c n cfg l (w, h) → known c n cfg ((lab, r) :: l) (w, (lab, r) :: h).
Proof.
  intros Hlab [Hc Hn Hl V]. split; try done; simpl.
  - by apply sublist_skip.
  - by apply (vouch_answer w h lab r).
Qed.

Lemma safe_handler c n cfg l d h arg s :
  known c n cfg l s →
  safe vouch any_panic (call_unit_handler d h arg) (λ _, known c n cfg ((Handler d h arg, RUnit (Ok tt)) :: l)) s.
Proof.
  intros Hs s1 H1 r. destruct s1 as [w hist]. split; [by apply vouch_answer|].
  destruct r as [[[]|]| | | | | |]; simpl; try done.
  apply known_answer; [done|]. by eapply known_stable.
Qed.

(** A handler that is configured, or not. *)
Lemma safe_granted c n cfg l h s :
  known c n cfg l s →
  safe vouch any_panic (match h with Some h => call_unit_handler c h None | None => Ret tt end)
    (λ _, known c n cfg (granted c h None ++ l)) s.
Proof. intros Hs. destruct h; [by apply safe_handler | done]. Qed.

(** ** Through a gate *)
Definition reached (c : nat) (st : ConnectionState) (s : view) : Prop :=
  ∃ x, connection_heap s.1 !! c = Some x ∧ rank st ≤ rank (cell_get (state x)).

Lemma reached_stable c st s s' : reached c st s → vouch s s' → reached c st s'.
Proof.
  intros (x & Hx & Hr) [HW _]. destruct (world_conns _ _ _ HW c x Hx) as (x' & Hx' & He & _).
  exists x'. split; [done|]. etrans; [exact Hr | by apply edges_rank].
Qed.

(** A change of the state of a connection only. *)
Lemma trusted_state c st w h :
  let w' := conn_set c (λ x, x .[ state := st x ]) w in
  world_ok True w w' → vetted (w', h) → trusted (w, h) → trusted (w', h).
Proof.
  intros w' HW V [_ Hh]. split; [done|]. eapply honest_step; [done..| | |by left].
  - intros d y m. unfold w'. simpl. rewrite lookup_alter. case_decide; [|by intros Hy; left; exists y].
    subst. intros (x & Hx & ->)%fmap_Some Hin. left. by exists x.
  - intros n y i d Hy Hc. left. by exists y.
Qed.

Lemma safe_try_transition c n cfg l a b s :
  edge a b → known c n cfg l s →
  (gated b → ∀ h, l `sublist_of` h → evidence c cfg b h) →
  safe vouch any_panic (try_transition c a b) (λ _ s', known c n cfg l s' ∧ reached c b s') s.
Proof.
  intros He Hs Hb s1 H1 w2 [= <-]. apply (known_stable _ _ _ _ _ s1) in Hs; [|done]. clear s H1.
  destruct s1 as [w h]. simpl.
  assert (vouch (w, h) (conn_set c (λ x, x .[ state := (cell_try_transition (state x) a b).1 ]) w, h)) as HV.
  { assert (world_ok True w (conn_set c (λ x, x .[ state := (cell_try_transition (state x) a b).1 ]) w)) as HW.
    { apply (ok_try_transition True c a b He (λ _, I) : guar _ _). done. }
    split; [done|]. split; [by exists []|].
    intros Ht. apply trusted_state; [done| |done]. destruct Ht as [V _]. intros d x Hx.
    change (alter (λ x, x .[ state := (cell_try_transition (state x) a b).1 ]) c
      (connection_heap w) !! d = Some x) in Hx.
    rewrite lookup_alter in Hx. case_decide as Hd; [subst d|by apply V].
    apply fmap_Some in Hx as (x0 & Hx0 & ->).
    change (gated (cell_get (cell_try_transition (state x0) a b).1) →
      ∃ y, namespace_heap w !! namespace x0 = Some y ∧
        evidence c (config y) (cell_get (cell_try_transition (state x0) a b).1) h).
    destruct (cell_try_transition_spec (state x0) a b) as [-> _].
    case_decide as Ha; [|by apply V]. intros Hg. destruct Hs as [(x1 & Hx1 & <-) (y & Hy & <-) Hl _].
    simpl in *. simplify_eq. exists y. split; [done|]. by apply Hb. }
  split; [done|]. destruct (connection_heap w !! c) as [x|] eqn:Hx; [|done].
  apply safe_result. intros [] Hr. split; [by eapply known_stable|].
  exists (x .[ state := (cell_try_transition (state x) a b).1 ]).
  split; [simpl; by rewrite lookup_alter_eq, Hx|]. simpl.
  destruct (cell_try_transition_spec (state x) a b) as [-> Hr']. rewrite Hr in Hr'. by case_decide.
Qed.

(** ** Sending *)
Lemma safe_send c m s : may_carry c m s → safe vouch any_panic (send_message c m) (λ _ _, True) s.
Proof.
  intros Hm s1 H1 w2 Hf. destruct s1 as [w h].
  apply (may_carry_moves _ _ _ (w, h)) in Hm; [|by apply vouch_moves]. simpl in *.
  split; [|destruct (connection_heap w !! c) as [x|]; [|done];
    destruct (chan_send _ _) as [[ch r]|]; [by apply safe_result | done]].
  destruct (connection_heap w !! c) as [x|] eqn:Hx; [|by injection Hf as <-].
  pose proof (chan_send_spec (message_tx x) m) as Hs.
  destruct (chan_send (message_tx x) m) as [[ch r]|]; [|done]. injection Hf as <-.
  assert (Hit : ∀ m', m' ∈ chan_items ch → m' ∈ chan_items (message_tx x) ∨ m' = m).
  { destruct Hs as (_ & _ & Hs). intros m' Hin. destruct (chan_closed (message_tx x)).
    - destruct Hs as [Hs _]. rewrite Hs in Hin. by left.
    - destruct Hs as (_ & Hs & _). rewrite Hs in Hin. apply elem_of_app in Hin as [?|Hin]; [by left|].
      right. by apply list_elem_of_singleton in Hin. }
  set (w' := conn_set c (λ x, x .[ message_tx := ch ]) w).
  assert (world_ok False w w') as HW by (apply conn_set_ok; by repeat split).
  assert (moves (w, h) (w', h)) as Hmv by (split; [by apply world_ok_any | by exists []]).
  split; [by apply world_ok_any|]. split; [by exists []|]. intros [V Hh].
  split; [by eapply vetted_other|]. eapply honest_step; [by apply world_ok_any | done | | |by left].
  - intros d y m'. unfold w'. simpl. rewrite lookup_alter. case_decide as Hd; [|by intros Hy; left; exists y].
    subst d. rewrite Hx. intros [= <-] [Hin| ->]%Hit; [left; by exists x | right; by eapply may_carry_moves].
  - intros n y i d Hy Hc. left. by exists y.
Qed.

(** ** Spawning a task for a connection that is ready *)
Lemma safe_spawn t s :
  (strict → ∀ c, event_task t = Some c → cleared c s) → safe vouch any_panic (spawn_task t) (λ _ _, True) s.
Proof.
  intros Ht. eapply safe_then with (P := λ _ _, True); [|done].
  intros [w h] H1 w2 [= <-]. split; [|done].
  assert (world_ok False w (w .[ tasks := <[fresh (dom (tasks w)) := t]> (tasks w) ])) as HW
    by by apply (ok_spawn False t : guar _ _).
  split; [by apply world_ok_any|]. split; [by exists []|]. intros [V Hon].
  split; [by eapply vetted_other|]. eapply honest_step; [by apply world_ok_any | done | | |].
  - intros c y m Hy Hin. left. by exists y.
  - intros n y i c Hy Hc. left. by exists y.
  - intros i t'. simpl. rewrite lookup_insert. case_decide; [intros [= <-]; right | by left].
    intros Hs c Hc. eapply cleared_moves; [by apply Ht | by apply vouch_moves].
Qed.

(** A frame that the namespace [n] has encoded. *)
Definition encoded (n : nat) (p : WsIoPacket) (m : Message) (s : view) : Prop :=
  ∃ y b, namespace_heap s.1 !! n = Some y ∧ encode (ns_packet_codec (config y)) p = Ok b ∧
    m = message_of (ns_packet_codec (config y)) b.

Lemma encoded_stable n p m s s' : encoded n p m s → vouch s s' → encoded n p m s'.
Proof.
  intros (y & b & Hy & Hb & Hm) [HW _]. destruct (world_nss _ _ _ HW n y Hy) as (y' & Hy' & Hcfg & _).
  exists y', b. by rewrite Hcfg.
Qed.

Lemma home_stable n c s s' : home n c s → vouch s s' → home n c s'.
Proof. intros Hh Hv. eapply home_moves; [done | by apply vouch_moves]. Qed.

Lemma safe_encode n p s : safe vouch any_panic (encode_packet_to_message n p) (λ m s', encoded n p m s' ∧ vouch s s') s.
Proof.
  unfold encode_packet_to_message.
  eapply safe_then with (P := λ codec s', vouch s s' ∧
    ∃ y, namespace_heap s'.1 !! n = Some y ∧ ns_packet_codec (config y) = codec).
  { apply safe_ns_get. intros s1 y H1 Hy. split; [done | by exists y]. }
  intros codec s1 (H1 & y & Hy & <-).
  eapply safe_then with (P := λ b s', s' = s1 ∧ encode (ns_packet_codec (config y)) p = Ok b).
  { by apply safe_result. }
  intros b s2 [-> Hb]. split; [|done]. by exists y, b.
Qed.

(** A frame of another packet may go to any connection of the namespace, .. *)
Lemma encoded_may n p m c s : encoded n p m s → type p ≠ Ready → home n c s → may_carry c m s.
Proof.
  intros (y & b & Hy & Hb & ->) Hp (x & Hx & <-). right. exists x, y. split_and!; [done..|].
  intros (q & Hq & Hr). by rewrite (message_carries _ _ _ _ Hb Hq) in Hr.
Qed.

(** .. a ready packet to one that has got ready. *)
Lemma cleared_may n p m c s : encoded n p m s → home n c s → cleared c s → may_carry c m s.
Proof. intros (y & b & Hy & Hb & ->) (x & Hx & <-) Hc. right. by exists x, y. Qed.

Lemma safe_packet c p (K : view → Prop) s :
  (∀ s s', K s → vouch s s' → K s') → (∀ n m s, K s → encoded n p m s → home n c s → may_carry c m s) →
  K s → safe vouch any_panic (send_packet c p) (λ _ _, True) s.
Proof.
  intros HK Hm Hs. unfold send_packet.
  eapply safe_then with (P := λ n s', K s' ∧ home n c s').
  { apply safe_conn_get. intros s1 x H1 Hx. split; [by eapply HK | by exists x]. }
  intros n s1 [K1 H1]. eapply safe_then; [apply safe_encode|]. intros m s2 [E2 H2].
  apply safe_send. apply (Hm n); [by eapply HK | done | by eapply home_stable].
Qed.

Lemma safe_other_packet c p s : type p ≠ Ready → safe vouch any_panic (send_packet c p) (λ _ _, True) s.
Proof. intros Hp. apply (safe_packet c p (λ _, True)); [done | | done]. intros n m s' _ ? ?. by eapply encoded_may. Qed.

Lemma listed_stable n i c s s' : listed n i c s → vouch s s' → listed n i c s'.
Proof. intros Hh Hv. eapply listed_moves; [done | by apply vouch_moves]. Qed.

(** A connection that has got ready enters the table of its own namespace. *)
Lemma safe_insert c n (K : view → Prop) s :
  (∀ s s', K s → vouch s s' → K s') → K s → home n c s → cleared c s →
  safe vouch any_panic (insert_connection n c) (λ _ s', K s') s.
Proof.
  intros HK Hs Hh Hc. unfold insert_connection.
  eapply safe_then with (P := λ i s', K s' ∧ listed n i c s').
  { apply safe_conn_get. intros s1 x H1 Hx. split; [by eapply HK|].
    split; [|eapply cleared_moves; [done | by apply vouch_moves]].
    destruct (home_stable _ _ _ _ Hh H1) as (x' & Hx' & Hn). simplify_eq. by exists x. }
  intros i s1 [K1 H1]. eapply safe_then with (P := λ _ s', K s').
  { intros s2 H2 w3 [= <-]. destruct s2 as [w h].
    assert (Hv : vouch (w, h) (ns_set n (λ x, x .[ connections := <[i := c]> (connections x) ]) w, h)).
    { assert (world_ok False w (ns_set n (λ x, x .[ connections := <[i := c]> (connections x) ]) w)) as HW
        by (apply ns_set_ok; by repeat split).
      split; [by apply world_ok_any|]. split; [by exists []|]. intros [V Hon].
      split; [by eapply vetted_other|]. eapply honest_step; [by apply world_ok_any | done | | |by left].
      - intros d y m Hy Hin. left. by exists y.
      - intros m y j d. simpl. rewrite lookup_alter. case_decide as Hm; [|intros Hy Hd; left; by exists y].
        subst m. intros (z & Hz & ->)%fmap_Some. simpl. rewrite lookup_insert. case_decide as Hj.
        + intros [= <-]. right. subst j. by eapply listed_stable.
        + intros Hd. left. by exists z. }
    split; [done|]. apply (HK (w, h)); [|done]. by apply (HK s1). }
  intros _ s2 K2. apply (safe_keep _ K); [done | | done]. apply mute_bind.
  - split; [apply ok_rt_upd; by repeat split | apply silent_rt_upd].
  - intros _. split; [apply ok_ns_upd; by repeat split | by apply silent_ns_upd].
Qed.

(** A broadcast of a frame that is not a ready packet. *)
Lemma safe_for_each o p m f s :
  encoded (op_namespace o) p m s → trusted s →
  (∀ c s', encoded (op_namespace o) p m s' → home (op_namespace o) c s' → safe vouch any_panic (f c) (λ _ _, True) s') →
  safe vouch any_panic (for_each_target_connections o f) (λ _ _, True) s.
Proof.
  intros He Ht Hf. unfold for_each_target_connections.
  set (K s' := encoded (op_namespace o) p m s' ∧ trusted s').
  assert (HK : ∀ s s', K s → vouch s s' → K s').
  { intros s1 s2 [? ?] Hv. split; [by eapply encoded_stable | by apply Hv]. }
  eapply safe_then with (P := λ _, K).
  { apply (safe_keep _ K); [done | | by split]. split; [|apply silent_targets].
    unfold target_connection_ids. apply guar_bind; [case_bool_decide; [apply ok_ns_get | apply ok_include_loop]|].
    intros ids. apply guar_bind; [apply ok_exclude_loop | done]. }
  intros ids s1 K1. case_bool_decide; [done|].
  apply safe_par_all; [apply _ | intros ?; apply any_panic_proper | intros; by apply vouch_answer |]. apply Forall_fmap, Forall_forall.
  intros i _. cbv beta delta [compose visit].
  eapply safe_then with (P := λ (c : option nat) s', K s' ∧ ∀ c', c = Some c' → home (op_namespace o) c' s').
  { apply safe_ns_get. intros s2 y H2 Hy. assert (K s2) as K2 by by eapply HK. split; [done|].
    intros c' Hc. destruct K2 as [_ [_ Hon]]. by eapply listed_home, (honest_tables _ Hon). }
  intros [c|] s2 [[E2 T2] Hh]; [|done]. eapply safe_then with (P := λ _ _, True); [|done].
  apply (safe_attempt vouch any_panic _ (λ _ _, True)); [done|]. apply Hf; [done | by apply Hh].
Qed.

Lemma safe_encoded n p m c s :
  encoded n p m s → type p ≠ Ready → home n c s → safe vouch any_panic (send_message c m) (λ _ _, True) s.
Proof. intros. by apply safe_send, (encoded_may n p). Qed.

Lemma safe_emit_message n p m c s :
  encoded n p m s → type p ≠ Ready → home n c s → safe vouch any_panic (emit_event_message c m) (λ _ _, True) s.
Proof.
  intros He Hp Hh. unfold emit_event_message.
  eapply safe_then with (P := λ _ s', encoded n p m s' ∧ home n c s'); [|intros _ s1 [? ?]; by eapply safe_encoded].
  apply (safe_keep _ (λ s', encoded n p m s' ∧ home n c s')); [|by split; [apply ok_ensure | apply silent_ensure] | done].
  intros s1 s2 [? ?] ?. split; [by eapply encoded_stable | by eapply home_stable].
Qed.

(** ** The operations that send *)
Lemma safe_trusted {A B} (p : srv A) (k : A → srv B) Q s :
  trusted s → mute p → (∀ a s', trusted s' → safe vouch any_panic (k a) Q s') → safe vouch any_panic (bind p k) Q s.
Proof.
  intros Hs Hp Hk. eapply safe_then; [|exact Hk].
  apply (safe_keep p trusted); [by intros ? ? ? (_ & _ & ?); auto | done | done].
Qed.

Lemma safe_disconnect c s : safe vouch any_panic (Connection.disconnect c) (λ _ _, True) s.
Proof.
  unfold Connection.disconnect. eapply safe_then with (P := λ _ _, True).
  - eapply safe_then with (P := λ _ _, True); [|done].
    apply (safe_attempt vouch any_panic _ (λ _ _, True)); [done | by apply safe_other_packet].
  - intros _ s1 _. apply safe_other. by split; [apply ok_close | apply silent_close].
Qed.

Lemma safe_emit c event d s : safe vouch any_panic (Connection.emit c event d) (λ _ _, True) s.
Proof.
  unfold Connection.emit. eapply safe_then with (P := λ n s', home n c s').
  { apply safe_conn_get. intros s1 x _ Hx. by exists x. }
  intros n s1 H1. eapply safe_then with (P := λ _ s', home n c s').
  { apply safe_ns_get. intros s2 y H2 _. by eapply home_stable. }
  intros codec s2 H2. eapply safe_then with (P := λ _ s', home n c s'); [by apply safe_result|].
  intros b s3 H3. eapply safe_then; [apply safe_encode|]. intros m s4 [E4 H4].
  by eapply safe_emit_message; [done | | eapply home_stable].
Qed.

Lemma safe_bc_disconnect o s : trusted s → safe vouch any_panic (Broadcast.disconnect o) (λ _ _, True) s.
Proof.
  intros Ht. unfold Broadcast.disconnect. eapply safe_then; [apply safe_encode|]. intros m s1 [E1 H1].
  eapply safe_for_each; [done | by apply H1|]. intros c s2 E2 H2. by eapply safe_encoded.
Qed.

Lemma safe_bc_emit o event d s : trusted s → safe vouch any_panic (Broadcast.emit o event d) (λ _ _, True) s.
Proof.
  intros Ht. unfold Broadcast.emit.
  eapply safe_trusted; [done | by split; [apply ok_ns_get | apply silent_ns_get]|]. intros r s1 T1.
  eapply safe_trusted; [done | by split; [apply ok_of_result | apply does_of_result]|]. intros _ s2 T2.
  eapply safe_trusted; [done | by split; [apply ok_ns_get | apply silent_ns_get]|]. intros codec s3 T3.
  eapply safe_trusted; [done | by split; [apply ok_of_result | apply does_of_result]|]. intros b s4 T4.
  eapply safe_then; [apply safe_encode|]. intros m s5 [E5 H5].
  eapply safe_for_each; [done | by apply H5|]. intros c s6 E6 H6. by eapply safe_emit_message.
Qed.

(** Of every namespace. *)
Lemma safe_namespaces (f : nat → srv unit) s :
  trusted s → (∀ n s', trusted s' → safe vouch any_panic (f n) (λ _ _, True) s') →
  safe vouch any_panic (ns <- clone_namespaces ;; join_all ((λ n, ignore (f n)) <$> ns)) (λ _ _, True) s.
Proof.
  intros Ht Hf. unfold clone_namespaces.
  eapply safe_trusted; [done | by split; [apply ok_gets | apply silent_gets]|]. intros ns s1 T1.
  apply safe_par_all; [apply _ | intros ?; apply any_panic_proper | intros; by apply vouch_answer |]. apply Forall_fmap, Forall_forall.
  intros n _. cbv beta delta [compose]. eapply safe_then with (P := λ _ _, True); [|done].
  apply (safe_attempt vouch any_panic _ (λ _ _, True)); [done | by apply Hf].
Qed.

(** The writer sends what was in the channel. *)
Lemma safe_recv c s :
  trusted s → safe vouch any_panic (recv c) (λ m s', trusted s' ∧ ∀ m', m = Some m' → may_carry c m' s') s.
Proof.
  intros Ht s1 H1 w2 Hf. destruct s1 as [w h]. assert (trusted (w, h)) as T1 by by apply H1.
  assert (vouch (w, h) (w2, h)) as H2.
  { apply vouch_quiet; [by apply (ok_recv False c : guar _ _) | by apply (silent_recv c : does _ _ _)]. }
  split; [done|]. split; [by apply H2|]. intros m Hm. eapply may_carry_moves; [|by apply vouch_moves]. simpl in Hm.
  destruct (connection_heap w !! c) as [x|] eqn:Hx; [|done]. simpl in Hm. destruct T1 as [_ Hon].
  eapply (honest_queue _ Hon); [done|]. pose proof (chan_try_recv_spec (message_tx x)) as Hs.
  destruct (chan_try_recv (message_tx x)) as [ch o]. destruct Hs as (_ & _ & Ho & _). simpl in Hm.
  rewrite Ho in Hm. destruct (chan_items (message_tx x)); [done|]. injection Hm as ->. by left.
Qed.

Lemma safe_write fuel c s : trusted s → safe vouch any_panic (write_ws_stream_task fuel c) (λ _ _, True) s.
Proof.
  revert s. induction fuel as [|fuel IH]; intros s Ht; [done|]. cbn [write_ws_stream_task].
  assert (Hdrop : ∀ s', safe vouch any_panic (drop_receiver c) (λ _ _, True) s').
  { intros s'. apply safe_other. by split; [apply ok_drop_receiver | apply silent_drop_receiver]. }
  eapply safe_then; [by apply safe_recv|]. intros [m|] s1 [T1 Hm]; [|apply Hdrop].
  specialize (Hm m eq_refl). intros s2 H2 r. destruct s2 as [w h].
  assert (may_carry c m (w, h)) as Hm2 by by eapply may_carry_moves, vouch_moves.
  assert (vouch (w, h) (w, (WsSend (Some c) m, r) :: h)) as H3.
  { split; [done|]. split; [by eexists [_]|]. intros T2. apply trusted_answer; [done|]. by intros ? ? [= <- <-]. }
  assert (trusted (w, (WsSend (Some c) m, r) :: h)) as T3 by by apply H3, H2.
  split; [done|]. destruct r as [[]| | | | | |]; try apply Hdrop. case_decide; [|by apply IH].
  intros [w4 h4] H4 r'. split; [by apply vouch_answer | apply Hdrop].
Qed.
End trust.
