(* ===== verification/Approval.v ===== *)
(** * What a connection has passed before it is ready

    A connection becomes [Ready] only after every handler of its namespace that
    guards the handshake has answered [Ok] for it, in the order of the
    handshake, whatever tasks are interleaved; and no client is told that it is
    ready before. *)

From S2P Require Import Prelude Async Spawner Concurrent Extern ChannelCapacity Packet Codecs.
From S2P Require Import EventRegistry Extensions ServerConfig ServerState Connection Broadcast.
From S2P Require Import Namespace ServerRuntime RefServer Lifecycle ServerTasks Frames Trust.

Section approval.
Context {Strict : Strictness}.
Context `{T : Types} `{Cells : AtomicEnumCell} `{Chans : Mpsc} `{Crates : !SerdeCrates}.
Context (log2 : f64 → f64).

Abbreviation view := (seen (W := Server) (L := label) (R := reply)).

(** ** The handshake *)
Lemma safe_kept {A B} (p : srv A) (k : A → srv B) c n cfg l Q s :
  known c n cfg l s → mute p →
  (∀ a s', known c n cfg l s' → safe vouch any_panic (k a) Q s') → safe vouch any_panic (bind p k) Q s.
Proof.
  intros Hs Hp Hk. eapply safe_then; [|exact Hk].
  eapply (safe_keep p (known c n cfg l)); [apply known_stable | done | done].
Qed.

Lemma safe_known {A B} (p : srv A) (k : A → srv B) c n cfg l Q s :
  safe vouch any_panic p (λ _, known c n cfg l) s →
  (∀ a s', known c n cfg l s' → safe vouch any_panic (k a) Q s') → safe vouch any_panic (bind p k) Q s.
Proof. apply safe_then. Qed.

Lemma safe_init_response c n cfg l d s :
  known c n cfg l s →
  safe vouch any_panic (match init_response_handler cfg with
              | Some h => call_init_response_handler c h d (ns_packet_codec cfg)
              | None => Ret tt
              end)
    (λ _ s', ∃ arg, known c n cfg (granted c (snd <$> init_response_handler cfg) arg ++ l) s') s.
Proof.
  intros Hs. destruct (init_response_handler cfg) as [h|]; [|by exists None].
  unfold call_init_response_handler.
  eapply safe_then with (P := λ _, known c n cfg l); [by apply safe_result|]. intros v s1 H1.
  eapply (safe_mono vouch any_panic _ (λ _, known c n cfg _)); [|exact (safe_handler _ _ _ _ _ _ _ _ H1)].
  intros a s' _ H. by exists (Any h.1 <$> v).
Qed.

Lemma known_cleared c n cfg g arg s :
  known c n cfg (approved c cfg g arg) s → reached c ConnReady s → cleared c s.
Proof.
  intros [(x & Hc & <-) (y & Hy & <-) Ha _] (x' & Hx' & Hr). simplify_eq. by exists x, y, g, arg.
Qed.

(** The connection has got ready: it enters the table, and is told. *)
Lemma safe_admit c n cfg g arg s :
  known c n cfg (approved c cfg g arg) s → reached c ConnReady s →
  safe vouch any_panic (insert_connection n c ;; send_packet c new_ready ;;
    match on_ready_handler cfg with Some h => spawn_task (OnReady c h) | None => Ret tt end) (λ _ _, True) s.
Proof.
  intros Hs Hr. eapply safe_then with (P := λ _ s', known c n cfg (approved c cfg g arg) s' ∧ reached c ConnReady s').
  { apply safe_insert; [|done | by destruct Hs | by eapply known_cleared].
    intros s1 s2 [? ?] ?. split; [by eapply known_stable | by eapply reached_stable]. }
  intros _ s1 H1. eapply safe_then with (P := λ _ s', known c n cfg (approved c cfg g arg) s' ∧ reached c ConnReady s').
  { apply safe_still; [intros s2 s3 [? ?] ?; split; [by eapply known_stable | by eapply reached_stable] | done|].
    apply (safe_packet c new_ready (λ s', known c n cfg (approved c cfg g arg) s' ∧ reached c ConnReady s')); [| |done].
    - intros s2 s3 [? ?] ?. split; [by eapply known_stable | by eapply reached_stable].
    - intros m p s2 [Hk Hx] He Hh. eapply cleared_may; [done..|]. by eapply known_cleared. }
  intros _ s2 H2. destruct (on_ready_handler cfg); [|done]. apply safe_spawn.
  intros _ d [= <-]. destruct H2. by eapply known_cleared.
Qed.

Lemma safe_handshake c n cfg g d s :
  known c n cfg (asked c cfg g) s → safe vouch any_panic (handshake c d) (λ _ _, True) s.
Proof.
  intros Hs. unfold handshake.
  eapply safe_kept; [done | by split; [apply ok_abort_locked_task | apply silent_abort_locked_task]|]. intros _ s1 H1.
  apply (safe_config c n cfg _ _ _ _ H1). intros s2 H2.
  eapply safe_then; [by apply safe_init_response|]. intros _ s3 [arg H3].
  eapply safe_then; [eapply safe_try_transition; [constructor | exact H3 | by intros []]|].
  intros _ s4 [H4 _].
  eapply safe_then with (P := λ _, known c n cfg (granted c (middleware cfg) None ++
    granted c (snd <$> init_response_handler cfg) arg ++ asked c cfg g)).
  { destruct (middleware cfg) as [h|]; [|done]. eapply safe_known; [by apply safe_handler|].
    intros _ s5 H5. eapply (safe_keep (ensure _ _ _) (known c n cfg _));
      [apply known_stable | by split; [apply ok_ensure | apply silent_ensure] | exact H5]. }
  intros _ s5 H5. eapply safe_known; [by apply safe_granted|]. intros _ s6 H6.
  eapply safe_then; [eapply safe_try_transition; [constructor | exact H6 |]|].
  { intros _ h Hh. by exists g, arg. }
  intros _ s7 [H7 R7]. by eapply safe_admit.
Qed.

Lemma safe_handle_init c d s : trusted s → safe vouch any_panic (handle_init_packet c d) (λ _ _, True) s.
Proof.
  intros V. unfold handle_init_packet.
  eapply safe_then with (P := λ _, trusted).
  { apply safe_conn_get. intros s1 x (_ & _ & HV) _. by apply HV. }
  intros st s1 V1. destruct st; try done.
  eapply safe_then with (P := λ _ s', ∃ n cfg g, known c n cfg (asked c cfg g) s');
    [|intros _ s2 (n & cfg & g & H2); by apply (safe_handshake c n cfg g)].
  intros s2 (_ & _ & HV) w3 [= <-]. specialize (HV V1). destruct s2 as [w h]. simpl.
  assert (world_ok False w (conn_set c (λ x, x .[ state := (cell_try_transition (state x)
    AwaitingInit Initiating).1 ]) w)) as Hw.
  { assert (guar (world_ok False) (try_transition c AwaitingInit Initiating)) as [Hg _]
      by (apply ok_try_transition; [constructor | by intros []]). by apply Hg. }
  assert (quiet w (conn_set c (λ x, x .[ state := (cell_try_transition (state x)
    AwaitingInit Initiating).1 ]) w)) as Hq by (apply quiet_conn_set; intros y; by apply hushed_same).
  split; [by apply vouch_quiet|].
  destruct (connection_heap w !! c) as [x|] eqn:Hx; [|done].
  apply safe_result. intros [] Hr. destruct (cell_try_transition_spec (state x) AwaitingInit Initiating)
    as [_ Ht]. rewrite Ht in Hr. case_decide as Ha; [|done].
  destruct (proj1 HV c x Hx) as (y & Hy & He); [by left|]. rewrite Ha in He. destruct He as [g Hg].
  exists (namespace x), (config y), g. apply (known_stable _ _ _ _ (w, h)); [|by apply vouch_quiet].
  split; [by exists x | by exists y | done | done].
Qed.

(** ** Events

    A connection is looked at before the lookup of the event. *)
Lemma ready_cleared c w h x :
  trusted (w, h) → connection_heap w !! c = Some x → cell_get (state x) = ConnReady → cleared c (w, h).
Proof.
  intros [V _] Hx Hst. destruct (V c x Hx) as (y & Hy & He); [by right|]. rewrite Hst in He.
  destruct He as (g & a & He). exists x, y, g, a. by rewrite Hst.
Qed.

Lemma safe_is_ready c s :
  trusted s → safe vouch any_panic (is_ready c) (λ ready s', trusted s' ∧ (ready = true → cleared c s')) s.
Proof.
  intros V. apply safe_conn_get. intros [w h] x (_ & _ & HV) Hx. split; [by apply HV|].
  rewrite cell_is_spec, bool_decide_eq_true. intros Hst. eapply ready_cleared; [by apply HV | done..].
Qed.

Lemma safe_cleared {A B} (p : srv A) (k : A → srv B) c Q s :
  cleared c s → mute p → (∀ a s', cleared c s' → safe vouch any_panic (k a) Q s') → safe vouch any_panic (bind p k) Q s.
Proof.
  intros Hs Hp Hk. eapply safe_then; [|exact Hk].
  apply (safe_keep p (cleared c)); [|done..]. intros s1 s2 H1 H2. eapply cleared_moves; [done | by apply vouch_moves].
Qed.

Lemma safe_handle_event c event d s :
  cleared c s → safe vouch any_panic (handle_event_packet c event d) (λ _ _, True) s.
Proof.
  intros Hc. unfold handle_event_packet.
  eapply safe_cleared; [done | by split; [apply ok_conn_get | apply silent_conn_get]|]. intros n s1 H1.
  eapply safe_cleared; [done | by split; [apply ok_ns_get | apply silent_ns_get]|]. intros codec s2 H2.
  eapply safe_cleared; [done | by split; [apply ok_conn_get | apply silent_conn_get]|]. intros entry s3 H3.
  destruct entry; [|done]. apply safe_spawn. by intros _ d' [= <-].
Qed.

Lemma safe_dispatch c p codec d s :
  (strict → cleared c s) → safe vouch any_panic (run_dispatch c p codec d) (λ _ _, True) s.
Proof.
  intros Hc. unfold run_dispatch.
  assert (∀ s s', (strict → cleared c s) → vouch s s' → strict → cleared c s') as HK.
  { intros s1 s2 H1 H2 Hs. eapply cleared_moves; [by apply H1 | by apply vouch_moves]. }
  eapply safe_then with (P := λ _ s', strict → cleared c s').
  { apply (safe_keep _ (λ s', strict → cleared c s')); [done | | done].
    by split; [apply ok_conn_get | apply silent_conn_get]. }
  intros calls. clear Hc s. induction calls as [|call calls IH]; intros s Hc; [done|]. cbn [seq_all].
  eapply safe_then with (P := λ _ s', strict → cleared c s'); [|intros _; apply IH].
  apply (safe_still _ (λ s', strict → cleared c s')); [done..|]. destruct call; [|done..].
  apply safe_spawn. intros Hs d' [= <-]. by apply Hc.
Qed.

Lemma safe_incoming c b s : trusted s → safe vouch any_panic (handle_incoming_packet c b) (λ _ _, True) s.
Proof.
  intros V. unfold handle_incoming_packet.
  eapply safe_then with (P := λ _, trusted).
  { apply safe_conn_get. intros s1 x (_ & _ & HV) _. by apply HV. }
  intros n s1 V1. eapply safe_then with (P := λ _, trusted).
  { apply safe_ns_get. intros s2 x (_ & _ & HV) _. by apply HV. }
  intros codec s2 V2. eapply safe_then with (P := λ _, trusted); [by apply safe_result|].
  intros packet s3 V3. unfold handle_packet. destruct (type packet); try done.
  - eapply safe_then; [by apply safe_is_ready|]. intros [|] s4 [_ Hc]; [|done].
    destruct (key packet); [|done]. by apply safe_handle_event, Hc.
  - by apply safe_handle_init.
Qed.

Lemma safe_read fuel c s : trusted s → safe vouch any_panic (read_ws_stream_task fuel c) (λ _ _, True) s.
Proof.
  revert s. induction fuel as [|fuel IH]; intros s V; [done|]. cbn [read_ws_stream_task].
  intros s1 (HW & Hh & HV) r. destruct s1 as [w h]. specialize (HV V).
  split; [by apply vouch_answer|]. assert (trusted (w, (WsNext c, r) :: h)) as V1 by by apply vouch_answer.
  destruct r as [| | |message| | |]; try done. simpl.
  eapply safe_then with (P := λ _, trusted); [|intros [|] s2 V2; [by apply IH | done]].
  assert (∀ b, safe vouch any_panic (r <- attempt (handle_incoming_packet c b) ;; Ret (is_ok r))
    (λ _, trusted) (w, (WsNext c, RFrame message) :: h)) as Hin.
  { intros b. eapply safe_then with (P := λ _, trusted); [|done].
    eapply (safe_mono vouch any_panic _ (λ _ _, True)).
    - intros a s' (_ & _ & HV') _. by apply HV'.
    - apply (safe_attempt vouch any_panic _ (λ _ _, True)); [intros; exact I | exact (safe_incoming c b _ V1)]. }
  destruct message as [[]|]; simpl; try done; try apply Hin. case_match; [done | apply Hin].
Qed.

(** ** The start of the handshake *)
Lemma safe_find {B} c (k : nat → WsIoServerNamespaceConfig → srv B) Q s :
  trusted s → (∀ n cfg s', known c n cfg [] s' → safe vouch any_panic (k n cfg) Q s') →
  safe vouch any_panic (m <- conn_get c namespace ;; cf <- ns_get m config ;; k m cf) Q s.
Proof.
  intros V Hk. eapply safe_then with (P := λ m s', trusted s' ∧
    ∃ x, connection_heap s'.1 !! c = Some x ∧ namespace x = m).
  { apply safe_conn_get. intros s1 x (_ & _ & HV) Hx. split; [by apply HV | by exists x]. }
  intros m s1 [V1 (x & Hx & Hn)]. eapply safe_then with (P := λ cf s', known c m cf [] s'); [|auto].
  apply safe_ns_get. intros s2 y H12 Hy.
  destruct H12 as (HW & _ & HV). destruct (world_conns _ _ _ HW c x Hx) as (x' & Hx' & _ & _ & Hns & _).
  split; [exists x'; by rewrite Hns | by exists y | apply sublist_nil_l | by apply HV].
Qed.

Lemma safe_init_request c n cfg s :
  known c n cfg [] s →
  safe vouch any_panic (match init_request_handler cfg with
              | Some h => call_init_request_handler c h (ns_packet_codec cfg)
              | None => Ret None
              end) (λ _ s', ∃ g, known c n cfg (asked c cfg g) s') s.
Proof.
  intros Hs. unfold asked. destruct (init_request_handler cfg) as [h|]; [|by exists None].
  intros s1 H1 r. apply (known_stable _ _ _ _ _ s1) in Hs; [|done]. destruct s1 as [w hist].
  split; [by apply vouch_answer|]. destruct r as [|[[a|]|]| | | | |]; simpl; try done.
  - destruct (downcast h.1 a); [|done]. destruct (encode_data _ _ _); [|done].
    exists (Some a). by apply known_answer.
  - exists None. by apply known_answer.
Qed.

Lemma safe_init c s : trusted s → safe vouch any_panic (init c) (λ _ _, True) s.
Proof.
  intros V. unfold init. eapply safe_trusted; [done | by split; [apply ok_ensure | apply silent_ensure]|]. intros _ s1 V1.
  apply safe_find; [done|]. intros n cfg s2 H2.
  eapply safe_then; [by apply safe_init_request|]. intros d s3 [g H3].
  eapply safe_then; [eapply safe_try_transition; [constructor | exact H3 |]|].
  { intros _ h Hh. by exists g. }
  intros _ s4 _. eapply safe_then with (P := λ _ _, True).
  { apply safe_other. by split; [apply ok_spawn | apply silent_spawn]. }
  intros i s5 _. eapply safe_then with (P := λ _ _, True).
  { apply safe_other. split; [apply ok_conn_upd; by repeat split | apply silent_conn_upd; by left]. }
  intros _ s6 _. by apply safe_other_packet.
Qed.

Lemma safe_upgraded n hs uri s :
  trusted s → safe vouch any_panic (handle_upgraded_request log2 n hs uri) (λ _ _, True) s.
Proof.
  intros V. unfold handle_upgraded_request.
  eapply safe_trusted; [done | by split; [apply ok_gets | apply silent_gets]|]. intros rt s1 V1.
  eapply safe_trusted; [done | by split; [apply ok_ns_get | apply silent_ns_get]|]. intros ns s2 V2. case_match.
  - apply safe_other, mute_bind; [by split; [apply ok_encode | apply silent_encode]|]. intros m.
    apply mute_bind; [|intros _; by apply mute_await]. apply mute_await; [done|]. intros r.
    by split; [apply ok_unit_reply | apply silent_unit_reply].
  - eapply safe_trusted; [done | by split; [apply ok_connection_new | apply silent_connection_new]|]. intros c s3 V3.
    eapply safe_trusted; [done | by split; [apply ok_spawn | apply silent_spawn]|]. intros reader s4 V4.
    eapply safe_trusted; [done | by split; [apply ok_spawn | apply silent_spawn]|]. intros writer s5 V5.
    eapply safe_then with (P := λ _ _, True).
    { apply (safe_attempt vouch any_panic _ (λ _ _, True)); [intros; exact I | by apply safe_init]. }
    intros r s6 _. apply safe_other, mute_bind; [|intros _; by split; [apply ok_cleanup | apply silent_cleanup]].
    assert (∀ i, mute (abort i)) as Ha by (intros i; by split; [apply ok_abort | apply silent_abort]).
    destruct r.
    + apply mute_await; [done|]. intros []; try done. case_match; [|apply Ha].
      apply mute_bind; [apply Ha|]. intros _. by split; [apply ok_drop_receiver | apply silent_drop_receiver].
    + apply mute_bind; [apply Ha|]. intros _. apply mute_bind; [by split; [apply ok_close | apply silent_close]|].
      intros _. by apply mute_await.
Qed.

Lemma safe_upgrade n t hs uri s :
  trusted s → safe vouch any_panic (upgrade_task log2 n t hs uri) (λ _ _, True) s.
Proof.
  intros V. unfold upgrade_task.
  eapply safe_then with (P := λ _ _, True);
    [|intros; apply safe_other; split; [apply ok_ns_upd; by repeat split | by apply silent_ns_upd]].
  intros s1 (HW & Hh & HV) r. destruct s1 as [w h]. split; [by apply vouch_answer|].
  destruct r as [[|]| | | | | |]; try done.
  eapply safe_then with (P := λ _ _, True); [|done].
  apply (safe_attempt vouch any_panic _ (λ _ _, True)); [intros; exact I|]. apply safe_upgraded.
  by apply vouch_answer, HV.
Qed.

Lemma safe_other_task p s : other_task p → trusted s → safe vouch any_panic p (λ _ _, True) s.
Proof.
  intros Hp V. pose proof (other_task_ok False p Hp) as Hok.
  assert (does quiet unwritten p → safe vouch any_panic p (λ _ _, True) s) as Hs by (intros; by apply safe_other).
  destruct Hp.
  - apply Hs, silent_close.
  - apply Hs, silent_cleanup.
  - apply safe_disconnect.
  - apply safe_emit.
  - apply Hs, silent_join.
  - apply Hs, silent_leave.
  - apply Hs. by apply (does_bind _ _ (on c event h)); [apply silent_on|].
  - apply Hs, silent_off.
  - apply Hs, silent_off_id.
  - apply Hs, silent_on_close.
  - apply Hs, silent_init_watchdog.
  - apply Hs, does_until; [apply quiet_refl | apply silent_unit_handler].
  - by apply safe_write.
  - apply Hs, silent_request.
  - apply Hs, silent_bc_close.
  - by apply safe_bc_disconnect.
  - by apply safe_bc_emit.
  - apply Hs, silent_ns_shutdown.
  - apply Hs. by apply does_bind; [apply silent_register|].
  - apply Hs, silent_remove_namespace.
  - apply Hs, silent_rt_close_all.
  - apply safe_namespaces; [done|]. intros n s' V'. by apply safe_bc_disconnect.
  - unfold ServerRuntime.emit.
    eapply safe_trusted; [done | by split; [apply ok_gets | apply silent_gets]|]. intros r s1 V1.
    eapply safe_trusted; [done | by split; [apply ok_of_result | apply does_of_result]|]. intros _ s2 V2.
    apply safe_namespaces; [done|]. intros n s' V'. by apply safe_bc_emit.
  - apply Hs, silent_rt_shutdown.
Qed.

Lemma safe_task p s :
  (strict → False) → server_task log2 p → trusted s → safe vouch any_panic p (λ _ _, True) s.
Proof.
  intros Hstrict [[]|Hp] V.
  - by apply safe_init.
  - by apply safe_incoming.
  - by apply safe_read.
  - by apply safe_upgrade.
  - apply (safe_until vouch any_panic), safe_dispatch. by intros ?%Hstrict.
  - by apply safe_other_task.
Qed.

(** Where tasks are started from the table only, dispatches are those of connections that
    are ready. *)
Lemma safe_start p s : server_starts log2 s.1 p → trusted s → safe vouch any_panic p (λ _ _, True) s.
Proof.
  intros [call Hc] V. destruct call as [| |event d|cfg|q| |n|o call|c call|q hs uri|i fuel]; simpl in Hc.
  1-6: injection Hc as <-; apply safe_other_task; [constructor | done].
  - apply bind_Some in Hc as (y & _ & [= <-]). apply safe_other_task; [constructor | done].
  - apply bind_Some in Hc as (y & _ & [= <-]). apply safe_other_task; [destruct call; constructor | done].
  - apply bind_Some in Hc as (x & _ & [= <-]). apply safe_other_task; [destruct call; constructor | done].
  - apply bind_Some in Hc as (n & _ & [= <-]). apply safe_other_task; [constructor | done].
  - apply fmap_Some in Hc as (t & Ht & ->).
    destruct t as [c|c h|c p codec d|c fut|c|c|n hs uri]; cbn [server_body];
      first [by apply safe_other_task; [constructor|] | by apply safe_read | by apply safe_upgrade | idtac].
    apply (safe_until vouch any_panic), safe_dispatch. intros Hs. destruct V as [_ Hon]. by eapply (honest_tasks _ Hon).
Qed.

(** ** From a new server *)
Lemma trusted_new cfg : trusted (server_new cfg, []).
Proof.
  split; [intros c x; simpl; by rewrite lookup_empty|]. split; simpl.
  - intros c x m. by rewrite lookup_empty.
  - intros c m r Hin. by apply not_elem_of_nil in Hin.
  - intros n y i c. by rewrite lookup_empty.
  - intros i t c _. by rewrite lookup_empty.
Qed.

Lemma runs_trusted (starts : Server → srv unit → Prop) cfg s :
  (∀ p v, starts v.1 p → trusted v → safe vouch any_panic p (λ _ _, True) v) →
  reaches_in starts (idle (server_new cfg)) s → trusted (sys_view s).
Proof.
  intros HS Hr. apply (reaches_in_safe vouch any_panic trusted starts) in Hr as (_ & Ht & _); [done|..].
  - intros s1 s2 V1 (_ & _ & HV). by apply HV.
  - exact HS.
  - apply trusted_new.
  - apply pool_safe_idle.
Qed.
End approval.

Section theorems.
Context `{T : Types} `{Cells : AtomicEnumCell} `{Chans : Mpsc} `{Crates : !SerdeCrates}.
Context (log2 : f64 → f64).

Abbreviation runs := (reaches (server_task log2)).

Lemma server_runs cfg s : runs (idle (server_new cfg)) s → trusted (Strict := False) (sys_view s).
Proof. apply runs_trusted. intros p v. by apply safe_task. Qed.

Lemma server_starts_run cfg s :
  reaches_in (server_starts log2) (idle (server_new cfg)) s → trusted (Strict := True) (sys_view s).
Proof. apply runs_trusted. intros p v. apply safe_start. Qed.

(** C2: start with a new server and let any tasks be interleaved.  If a connection is
    ready, then the handlers that its namespace has for the handshake have all answered
    Ok for this connection, none has run into its time limit, and they did so in this
    order: the init-request handler, the init-response handler with the payload of the
    client, the middleware, the on-connect handler. *)
Theorem ready_means_approved cfg (s : sys Server label reply) (Hr : runs (idle (server_new cfg)) s) c x
    (Hx : connection_heap (shared s) !! c = Some x) (Hst : cell_get (state x) = ConnReady) :
  ∃ y greeting arg, namespace_heap (shared s) !! namespace x = Some y ∧
    approved c (config y) greeting arg `sublist_of` answers s.
Proof.
  destruct (server_runs _ _ Hr) as [V _]. destruct (V c x Hx) as (y & Hy & He); [by right|].
  rewrite Hst in He. destruct He as (g & a & He). by exists y, g, a.
Qed.

(** The connection is ready, or it is closing or closed by now, and every handler of the
    handshake has approved it. *)
Definition was_ready (c : nat) (s : sys Server label reply) : Prop :=
  ∃ x y greeting arg, connection_heap (shared s) !! c = Some x ∧
    namespace_heap (shared s) !! namespace x = Some y ∧
    cell_get (state x) ∈ [ConnReady; Closing; Closed] ∧
    approved c (config y) greeting arg `sublist_of` answers s.

Lemma cleared_ready c s : cleared c (sys_view s) → was_ready c s.
Proof.
  intros (x & y & g & a & Hx & Hy & Hr & Ha). exists x, y, g, a. split_and!; [done..| |done].
  destruct (cell_get (state x)); simpl in Hr; try lia; set_solver.
Qed.

(** C3: a client is told that it is ready only after it has been approved.  Start with a
    new server and let any tasks be interleaved: broadcasts, events, disconnects,
    handshakes of other connections.  A frame that was sent to a connection, or waits in
    its channel, and that its client, with the codec of the namespace, would read as a
    ready packet, implies that the connection is ready, or is closing or closed by now,
    and that the handlers of its namespace have all answered Ok for it, in the order of
    the handshake.  So no frame of another kind can be mistaken for a
    ready packet either. *)
Theorem told_ready_when_approved cfg (s : sys Server label reply) (Hr : runs (idle (server_new cfg)) s) c x y m
    (Hx : connection_heap (shared s) !! c = Some x) (Hy : namespace_heap (shared s) !! namespace x = Some y)
    (Hm : reads_ready (ns_packet_codec (config y)) m) :
  m ∈ chan_items (message_tx x) ∨ (∃ r, (WsSend (Some c) m, r) ∈ answers s) → was_ready c s.
Proof.
  intros Hin. destruct (server_runs _ _ Hr) as [_ Hon].
  assert (may_carry c m (sys_view s)) as Hc.
  { destruct Hin as [Hin|[r Hin]]; [by eapply (honest_queue _ Hon) | by eapply (honest_sent _ Hon)]. }
  apply cleared_ready. destruct Hc as [->|(x' & y' & Hx' & Hy' & Hc)].
  - by destruct Hm as (p & (b & [Hb|Hb] & _) & _).
  - simpl in *. simplify_eq. by apply Hc.
Qed.
(** C4: the tables that broadcasts go by.  Start with a new server and let any tasks be
    interleaved.  Whatever connection is in the table of a namespace is one of this
    namespace, under its own id; it is ready, or closing or closed by now, and every
    handler has approved it: where broadcasts look connections up there is none of
    another namespace and none in its handshake. *)
Theorem tables_approved cfg (s : sys Server label reply) (Hr : runs (idle (server_new cfg)) s) n y i c
    (Hy : namespace_heap (shared s) !! n = Some y) (Hc : connections y !! i = Some c) :
  (∃ x, connection_heap (shared s) !! c = Some x ∧ namespace x = n ∧ id x = i) ∧ was_ready c s.
Proof.
  destruct (server_runs _ _ Hr) as [_ Hon]. destruct (honest_tables _ Hon n y i c Hy Hc) as [Hx Hcl].
  split; [exact Hx | by apply cleared_ready].
Qed.

(** C5: no event of a client is handled before the client has been
    approved.  Start with a new server; whatever it is asked to do, and however its tasks
    are interleaved, a task that dispatches an event, runs a handler of an event, or
    runs the on-ready handler is one of a connection that every handler of the handshake
    has approved, and that is ready, or is closing or closed by now.  So a client that
    sends events instead of an init packet, or along with it, gets none of them handled. *)
Theorem events_approved cfg (s : sys Server label reply)
    (Hr : reaches_in (server_starts log2) (idle (server_new cfg)) s) i t c
    (Ht : tasks (shared s) !! i = Some t) (Hc : event_task t = Some c) : was_ready c s.
Proof.
  destruct (server_starts_run _ _ Hr) as [_ Hon]. apply cleared_ready. by eapply (honest_tasks _ Hon).
Qed.
End theorems.


(** ** Witnesses *)
#[local] Existing Instances ref_types ref_cell ref_mpsc ref_crates.

(** A namespace is registered, a request upgraded, the connection goes through the
    whole handshake, and its writer sends the two packets of the server. *)
Definition handshake_moves : list (move (W := Server) (L := label) (R := reply)) :=
  [MStart 0 (_ <- register chat_config ;; Ret tt)] ++ steps 0 4 ++
  [MStart 1 (upgrade_task ref_log2 0 9 [] "/"); MReply 1 ok_unit] ++ steps 1 9 ++
  [MReply 1 greeting] ++ steps 1 6 ++
  [MStart 2 (handle_incoming_packet 0 (Byte.x02 :: Byte.x00 :: put_opt (Some login_data)))] ++
  steps 2 8 ++ [MReply 2 ok_unit; MStep 2; MReply 2 ok_unit; MStep 2; MReply 2 ok_unit] ++ steps 2 9 ++
  [MStart 3 (write_ws_stream_task 2 0); MStep 3; MReply 3 ok_unit; MStep 3; MReply 3 ok_unit].

Definition shaken : sys Server label reply := played handshake_moves (idle new_server).

Lemma handshake_reaches : reaches (server_task ref_log2) (idle new_server) shaken.
Proof.
  apply played_reaches; [|by vm_compute].
  repeat constructor; first [by left; constructor | by right; constructor].
Qed.

(** The connection 0 and the namespace 0 at the end. *)
Lemma shaken_state :
  ∃ x y, connection_heap (shared shaken) !! 0 = Some x ∧ namespace_heap (shared shaken) !! 0 = Some y ∧
    cell_get (state x) = ConnReady ∧ namespace x = 0 ∧ config y = chat_config.
Proof.
  destruct (connection_heap (shared shaken) !! 0) as [x|] eqn:Hx; [|by vm_compute in Hx].
  destruct (namespace_heap (shared shaken) !! 0) as [y|] eqn:Hy; [|by vm_compute in Hy].
  exists x, y. split_and!; [done | done | | |].
  - apply (field_of (λ x, cell_get (state x)) _ x _ Hx); by vm_compute.
  - apply (field_of namespace _ x _ Hx); by vm_compute.
  - apply (field_of config _ y _ Hy); by vm_compute.
Qed.

Lemma ready_means_approved_witness :
  ∃ greeting arg, approved 0 chat_config greeting arg `sublist_of` answers shaken.
Proof.
  destruct shaken_state as (x & y & Hx & Hy & Hs & Hn & Hc).
  destruct (ready_means_approved ref_log2 _ shaken handshake_reaches 0 x Hx Hs) as (y' & g & a & Hy' & Ha).
  assert (y' = y) as -> by congruence. rewrite Hc in Ha. exists g, a. exact Ha.
Defined.

Definition told_frame : Message := Text [Byte.x03; Byte.x00; Byte.x00].

Lemma told_ready_when_approved_witness :
  reads_ready (ns_packet_codec chat_config) told_frame ∧
  (WsSend (Some 0) told_frame, ok_unit) ∈ answers shaken ∧ was_ready 0 shaken.
Proof.
  assert (reads_ready (ns_packet_codec chat_config) told_frame) as Hr.
  { exists new_ready. split; [|reflexivity]. exists [Byte.x03; Byte.x00; Byte.x00].
    split; [by right | by vm_compute]. }
  assert ((WsSend (Some 0) told_frame, ok_unit) ∈ answers shaken) as Hin.
  { assert (head (answers shaken) = Some (WsSend (Some 0) told_frame, ok_unit)) as Hh by by vm_compute.
    destruct (answers shaken) as [|a l]; [done|]. injection Hh as ->. by left. }
  split; [exact Hr|]. split; [exact Hin|].
  destruct shaken_state as (x & y & Hx & Hy & Hs & Hn & Hc).
  apply (told_ready_when_approved ref_log2 _ shaken handshake_reaches 0 x y told_frame Hx).
  - rewrite Hn. exact Hy.
  - rewrite Hc. exact Hr.
  - right. exists ok_unit. exact Hin.
Defined.

Lemma tables_approved_witness :
  ∃ y, namespace_heap (shared shaken) !! 0 = Some y ∧ connections y !! 0%Z = Some 0 ∧ was_ready 0 shaken.
Proof.
  destruct shaken_state as (x & y & Hx & Hy & Hs & Hn & Hc). exists y. split; [exact Hy|].
  assert (connections y !! 0%Z = Some 0) as Hi
    by (apply (field_of (λ y, connections y !! 0%Z) _ y _ Hy); by vm_compute).
  split; [exact Hi|]. apply (tables_approved ref_log2 _ shaken handshake_reaches 0 y 0%Z 0 Hy Hi).
Defined.

(** A connection has got ready, the application registers a handler, and an event of the
    client is dispatched to it. *)
Definition chat_handler : EventRegistry.Handler nat string :=
  {| handler_type_id := true; handler_fn := λ _ _, "chatted"%string |}.

Definition chat_frame : Message :=
  match encode (ns_packet_codec chat_config) (new_event "chat" None) with Ok b => Text b | Err _ => Close end.

Definition event_moves : server_schedule :=
  srv_readies ++ [Start 4 (CallConnection 0 (ConnOn "chat" chat_handler))] ++ srv_go 4 1 ++
  srv_replied 3 (RFrame (Some chat_frame)) ++ srv_go 3 7 ++ [Start 5 (Spawned 4 0)] ++ srv_go 5 2.

Definition chatting : sys Server label reply := obeyed (server_code ref_log2) event_moves (idle new_server).

Lemma events_approved_witness :
  tasks (shared chatting) !! 5 = Some (RunHandler 0 "chatted") ∧ was_ready 0 chatting.
Proof.
  assert (tasks (shared chatting) !! 5 = Some (RunHandler 0 "chatted")) as Ht by by vm_compute.
  split; [exact Ht|].
  refine (events_approved ref_log2 _ chatting _ 5 _ 0 Ht eq_refl). apply obeyed_reaches. by vm_compute.
Defined.
