(* ===== verification/Races.v ===== *)
(** * Interleavings that are possible

    Explicit schedules of a server, from its start, evaluated: what the code does
    not exclude. *)

From S2P Require Import Prelude Async Concurrent Extern ChannelCapacity Packet Codecs.
From S2P Require Import EventRegistry Extensions ServerConfig ServerState Connection Broadcast.
From S2P Require Import Namespace ServerRuntime RefServer ServerTasks.

#[local] Existing Instances ref_types ref_cell ref_mpsc ref_crates.

Abbreviation server_sys := (sys Server label reply).

Definition status_of (n : nat) (w : Server) : option NamespaceStatus :=
  (λ y, cell_get (status y)) <$> namespace_heap w !! n.

(** A state that a new server can come to. *)
Definition can_reach (P : server_sys → Prop) : Prop :=
  ∃ s, reaches_in (server_starts ref_log2) (idle new_server) s ∧ P s.

(** ** Two registrations of one path *)
Definition register_moves : server_schedule :=
  [Start 0 (CallRegister chat_config); Start 1 (CallRegister chat_config)] ++
  srv_go 0 3 ++ srv_go 1 3 ++ srv_go 0 1 ++ srv_go 1 1.

(** Both registrations have succeeded: the check and the insertion take the lock one
    after the other.  The table has the second namespace, and the first, which its
    builder got back, is in no table. *)
Definition registered_twice (s : server_sys) : Prop :=
  returned 0 s = true ∧ returned 1 s = true ∧ namespace_count (shared s) = 1 ∧
  size (namespace_heap (shared s)) = 2 ∧ namespaces (runtime (shared s)) !! "/chat" = Some 1.

Lemma register_race : can_reach registered_twice.
Proof. by_orders register_moves. Qed.

(** ** A shutdown while a connection is in its handshake *)
Definition handshake_shutdown_moves : server_schedule :=
  srv_upgrades ++ [Start 5 (CallShutdownNamespace 0)] ++ srv_go 5 4 ++ srv_accepts ++ srv_go 3 9.

(** The connection has become ready in a namespace that is stopping: it was not in the
    table when the shutdown closed what is there.  No close frame is queued for it, and
    the shutdown waits for its task. *)
Definition ready_while_stopping (s : server_sys) : Prop :=
  state_of 0 (shared s) = Some ConnReady ∧ status_of 0 (shared s) = Some NsStopping ∧
  (bool_decide (Close ∈ default [] (queue_of 0 (shared s))) = false) ∧ waits 5 s = true.

Lemma shutdown_misses_handshake : can_reach ready_while_stopping.
Proof. by_orders handshake_shutdown_moves. Qed.

(** ** A cleanup between the last transition and the insertion *)
Definition late_insert_moves : server_schedule :=
  srv_upgrades ++ srv_accepts ++ srv_go 3 1 ++ srv_ends 16 ++ srv_go 3 4.

(** The cleanup found nothing to remove; the closed connection was then inserted, and
    stays in the tables of the namespace and of the runtime. *)
Definition closed_but_listed (s : server_sys) : Prop :=
  state_of 0 (shared s) = Some Closed ∧ returned 2 s = true ∧
  (connection_count <$> namespace_heap (shared s) !! 0) = Some 1 ∧
  rt_connection_count (runtime (shared s)) = 1.

Lemma closed_connection_listed : can_reach closed_but_listed.
Proof. by_orders late_insert_moves. Qed.

(** ** Two ways to stop a namespace at once *)

(** Whichever calls the shutdown of the namespace second finds it stopping, and panics. *)
Definition stopped_twice (s : server_sys) : Prop :=
  panicked 6 s = true ∧ status_of 0 (shared s) = Some NsStopping.

Lemma two_stops_panic : can_reach stopped_twice.
Proof. by_orders two_stops_moves. Qed.

(** ** [close] around a cleanup *)
Definition late_close_moves : server_schedule :=
  srv_readies ++ [Start 5 (CallOperator (Broadcast.new 0) OpClose)] ++ srv_go 5 3 ++ srv_ends 16 ++ srv_go 5 2.

(** A [close] has looked at the state before a cleanup, and stored Closing after the
    cleanup had stored Closed. *)
Definition closing_again (s : server_sys) : Prop :=
  returned 5 s = true ∧ returned 2 s = true ∧ state_of 0 (shared s) = Some Closing.

Lemma closing_after_closed : can_reach closing_again.
Proof. by_orders late_close_moves. Qed.

(** ** [on_close] inside the close handler *)
Definition reentrant_moves : server_schedule :=
  srv_readies ++ [Start 5 (CallConnection 0 (ConnOnClose "bye"))] ++ srv_go 5 3 ++ srv_ends 13 ++
  [Start 6 (CallConnection 0 (ConnOnClose "again"))].

(** A close handler that calls [on_close] of its connection waits for the lock that the
    cleanup holds while the handler runs. *)
Definition handler_waits (s : server_sys) : Prop :=
  waits 6 s = true ∧ state_of 0 (shared s) = Some Closing.

Lemma on_close_in_close_handler : can_reach handler_waits.
Proof. by_orders reentrant_moves. Qed.

(** ** [join] after a cleanup *)
Definition late_join_moves : server_schedule :=
  srv_readies ++ srv_ends 16 ++ [Start 5 (CallConnection 0 (ConnJoin ["lobby"]))] ++ srv_go 5 4.

(** A connection that is closed, and in no table any more, has joined a room, which
    nothing will take it out of. *)
Definition joined_when_closed (s : server_sys) : Prop :=
  returned 5 s = true ∧ returned 2 s = true ∧ state_of 0 (shared s) = Some Closed ∧
  (connection_count <$> namespace_heap (shared s) !! 0) = Some 0 ∧
  (namespace_heap (shared s) !! 0 ≫= λ y, rooms y !! "lobby") = Some {[0%Z]}.

Lemma join_after_cleanup : can_reach joined_when_closed.
Proof. by_orders late_join_moves. Qed.

(** ** All of them *)

