(* ===== verification/Handshake.v ===== *)
(** * The handshake, functionally

    What [init], [handle_init_packet] and [handle_incoming_packet] do to a
    server in which nothing else runs: every branch, with the handlers called,
    their order, and the state afterwards. *)

From S2P Require Import Prelude Async Concurrent Extern ChannelCapacity Packet Codecs.
From S2P Require Import EventRegistry Extensions ServerConfig ServerState Connection Broadcast.
From S2P Require Import Namespace ServerRuntime RunServer RefServer.

Section handshake.
Context `{T : Types} `{Cells : AtomicEnumCell} `{Chans : Mpsc} `{Crates : !SerdeCrates}.

(** What the init-response handler is given. *)
Definition response_arg (cfg : WsIoServerNamespaceConfig) (t : ty) (d : option bytes) :
    result (option any) :=
  result_map (λ o, Any t <$> o) (transpose (decode_data (ns_packet_codec cfg) t <$> d)).

(** The init-response handler is absent, or is given the decoded payload and
    succeeds with the trace [tr]. *)
Inductive response_passes (c : nat) (cfg : WsIoServerNamespaceConfig) (d : option bytes) :
    list (label * reply) → Prop :=
| response_none : init_response_handler cfg = None → response_passes c cfg d []
| response_some t h arg :
    init_response_handler cfg = Some (t, h) → response_arg cfg t d = Ok arg →
    response_passes c cfg d [(Handler c h arg, RUnit (Ok tt))].

(** A handler without payload that is absent or succeeds. *)
Definition passes (c : nat) (o : option string) : list (label * reply) :=
  match o with Some h => [(Handler c h None, RUnit (Ok tt))] | None => [] end.

(** A handler's answer that is an error: its own, or the time limit. *)
Inductive refused : reply → error → Prop :=
| refused_err e : refused (RUnit (Err e)) e
| refused_late : refused RElapsed EElapsed.

(** How the handshake can fail: the calls made and answered, the error returned
    and the state the connection is left in. *)
Inductive handshake_failure (c : nat) (cfg : WsIoServerNamespaceConfig) (d : option bytes) :
    list (label * reply) → error → ConnectionState → Prop :=
| fail_decode t h e :
    init_response_handler cfg = Some (t, h) → response_arg cfg t d = Err e →
    handshake_failure c cfg d [] e Initiating
| fail_response t h arg r e :
    init_response_handler cfg = Some (t, h) → response_arg cfg t d = Ok arg → refused r e →
    handshake_failure c cfg d [(Handler c h arg, r)] e Initiating
| fail_middleware tr h r e :
    response_passes c cfg d tr → middleware cfg = Some h → refused r e →
    handshake_failure c cfg d (tr ++ [(Handler c h None, r)]) e Activating
| fail_on_connect tr h r e :
    response_passes c cfg d tr → on_connect_handler cfg = Some h → refused r e →
    handshake_failure c cfg d (tr ++ passes c (middleware cfg) ++ [(Handler c h None, r)]) e Activating.

Definition call_response (c : nat) (cfg : WsIoServerNamespaceConfig) (d : option bytes) : srv unit :=
  match init_response_handler cfg with
  | Some h => call_init_response_handler c h d (ns_packet_codec cfg)
  | None => Ret tt
  end.

Lemma goes_response c cfg d tr w :
  response_passes c cfg d tr → goes (call_response c cfg d) w tr (Ok tt) w.
Proof.
  intros [H | t h arg H Harg]; unfold call_response; rewrite H; [apply goes_ret|].
  unfold response_arg in Harg. simpl.
  unfold call_init_response_handler. simpl.
  destruct (transpose (decode_data (ns_packet_codec cfg) t <$> d)) as [v|e]; [|done].
  injection Harg as <-. eapply goes_then; [apply goes_ret|]. apply goes_unit_handler.
Qed.

Lemma goes_refused c h arg r e w :
  refused r e → goes (call_unit_handler c h arg) w [(Handler c h arg, r)] (Err e) w.
Proof. intros []; [apply goes_unit_handler | apply goes_unit_handler_elapsed]. Qed.

Lemma goes_response_err c cfg d tr e w t h :
  init_response_handler cfg = Some (t, h) →
  (response_arg cfg t d = Err e ∧ tr = []) ∨
  (∃ arg r, response_arg cfg t d = Ok arg ∧ refused r e ∧ tr = [(Handler c h arg, r)]) →
  goes (call_response c cfg d) w tr (Err e) w.
Proof.
  unfold call_response, response_arg. intros ->. unfold call_init_response_handler. simpl.
  destruct (transpose (decode_data (ns_packet_codec cfg) t <$> d)) as [v|e']; simpl.
  - intros [[? _]|(arg & r & [= <-] & Hr & ->)]; [done|]. by apply goes_refused.
  - intros [[[= ->] ->]|(arg & r & ? & _)]; done.
Qed.

(** The state between the two CAS of the first half. *)
Definition answered (c : nat) (w : Server) : Server :=
  abort_watchdog c
    (conn_set c (λ x, x .[ state := (cell_try_transition (state x) AwaitingInit Initiating).1 ]) w).

Definition activated (c : nat) (w : Server) : Server :=
  conn_set c (λ x, x .[ state := (cell_try_transition (state x) Initiating Activating).1 ])
    (answered c w).

Lemma answered_conn c w x :
  connection_heap w !! c = Some x → cell_get (state x) = AwaitingInit →
  ∃ s, cell_get s = Initiating ∧
    connection_heap (answered c w) =
      <[c := x .[ state := s ] .[ init_timeout_task := None ]]> (connection_heap w) ∧
    namespace_heap (answered c w) = namespace_heap w ∧ runtime (answered c w) = runtime w ∧
    next_connection_id (answered c w) = next_connection_id w ∧
    tasks (answered c w) =
      match init_timeout_task x with Some i => delete i (tasks w) | None => tasks w end.
Proof.
  intros Hx Hs. exists (cell_try_transition (state x) AwaitingInit Initiating).1.
  split; [by apply cell_try_transition_hit|].
  unfold answered, abort_watchdog. simpl. rewrite lookup_alter_eq, Hx. simpl.
  destruct (init_timeout_task x); simpl; (split_and!; [|done..]);
    by rewrite (alter_some _ _ _ _ Hx), alter_insert_same.
Qed.

Lemma activated_conn c w x :
  connection_heap w !! c = Some x → cell_get (state x) = AwaitingInit →
  ∃ s, cell_get s = Activating ∧
    connection_heap (activated c w) =
      <[c := x .[ state := s ] .[ init_timeout_task := None ]]> (connection_heap w) ∧
    namespace_heap (activated c w) = namespace_heap w ∧ runtime (activated c w) = runtime w ∧
    next_connection_id (activated c w) = next_connection_id w ∧
    tasks (activated c w) =
      match init_timeout_task x with Some i => delete i (tasks w) | None => tasks w end.
Proof.
  intros Hx Hs. destruct (answered_conn c w x Hx Hs) as (s & Hi & Hc & Hn & Hr & Hid & Ht).
  exists (cell_try_transition s Initiating Activating).1.
  split; [by apply cell_try_transition_hit|]. split; [|done].
  unfold activated. simpl. by rewrite Hc, alter_insert_same.
Qed.
(** [handle_init_packet], whose first half ends with the activation. *)
Definition second_half (c n : nat) (cfg : WsIoServerNamespaceConfig) : srv unit :=
  match middleware cfg with
  | Some h =>
      call_unit_handler c h None ;;
      ensure c Activating
        (λ s, "Cannot activate connection in invalid state: " ++ show_connection_state s)%string
  | None => Ret tt
  end ;;
  match on_connect_handler cfg with
  | Some h => call_unit_handler c h None
  | None => Ret tt
  end ;;
  try_transition c Activating ConnReady ;;
  insert_connection n c ;;
  send_packet c new_ready ;;
  match on_ready_handler cfg with
  | Some h => spawn_task (OnReady c h)
  | None => Ret tt
  end.

Lemma handle_init_packet_unfold c d : handle_init_packet c d =
  (s <- conn_get c (λ x, cell_get (state x)) ;;
   match s with
   | AwaitingInit =>
       try_transition c s Initiating ;;
       abort_locked_task c ;;
       n <- conn_get c namespace ;;
       cfg <- ns_get n config ;;
       call_response c cfg d ;;
       try_transition c Initiating Activating ;;
       second_half c n cfg
   | _ => Fail (EMsg ("Received init packet in invalid state: " ++ show_connection_state s)%string)
   end).
Proof. done. Qed.

Section one.
Context (c : nat) (d : option bytes) (w : Server) (x : WsIoServerConnection)
  (y : WsIoServerNamespace).
Context (Hx : connection_heap w !! c = Some x) (Hs : cell_get (state x) = AwaitingInit)
  (Hy : namespace_heap w !! namespace x = Some y).

Lemma answered_goes (k : nat → WsIoServerNamespaceConfig → srv unit) tr r w' :
  goes (k (namespace x) (config y)) (answered c w) tr r w' →
  goes (s <- conn_get c (λ x, cell_get (state x)) ;;
        match s with
        | AwaitingInit =>
            try_transition c s Initiating ;;
            abort_locked_task c ;;
            n <- conn_get c namespace ;;
            cfg <- ns_get n config ;;
            k n cfg
        | _ => Fail (EMsg ("Received init packet in invalid state: " ++ show_connection_state s)%string)
        end) w tr r w'.
Proof.
  intros Hk. destruct (answered_conn c w x Hx Hs) as (s & Hi & Hc & Hn & _).
  eapply goes_conn_get; [exact Hx|]. rewrite Hs.
  eapply goes_try_transition; [exact Hx | done|].
  eapply goes_then; [apply goes_abort_locked_task|]. fold (answered c w).
  eapply goes_conn_get; [rewrite Hc; apply lookup_insert_eq|].
  eapply goes_ns_get; [by rewrite Hn|]. done.
Qed.

Lemma activated_goes t tr r w' :
  response_passes c (config y) d t →
  goes (second_half c (namespace x) (config y)) (activated c w) tr r w' →
  goes (handle_init_packet c d) w (t ++ tr) r w'.
Proof.
  intros Ht Hk. destruct (answered_conn c w x Hx Hs) as (s & Hi & Hc & _).
  rewrite handle_init_packet_unfold. apply answered_goes.
  eapply goes_bind; [by apply goes_response|].
  eapply goes_try_transition; [rewrite Hc; apply lookup_insert_eq | done | done].
Qed.

Lemma response_failure tr e :
  goes (call_response c (config y) d) (answered c w) tr (Err e) (answered c w) →
  goes (handle_init_packet c d) w tr (Err e) (answered c w).
Proof.
  intros Hr. rewrite handle_init_packet_unfold. apply answered_goes. by apply goes_bind_err.
Qed.

(** The middleware and the check after it. *)
Lemma goes_middleware (k : srv unit) tr r w' :
  goes k (activated c w) tr r w' →
  goes (match middleware (config y) with
        | Some h =>
            call_unit_handler c h None ;;
            ensure c Activating
              (λ s, "Cannot activate connection in invalid state: " ++ show_connection_state s)%string
        | None => Ret tt
        end ;; k) (activated c w) (passes c (middleware (config y)) ++ tr) r w'.
Proof.
  intros Hk. destruct (activated_conn c w x Hx Hs) as (s & Hi & Hc & _).
  apply (goes_optional _ _ (λ h, [(Handler c h None, RUnit (Ok tt))])); [|done].
  intros h _. rewrite <-(app_nil_r [_]). eapply goes_bind; [apply goes_unit_handler|].
  eapply goes_ensured; [rewrite Hc; apply lookup_insert_eq | done].
Qed.

Lemma goes_on_connect (k : srv unit) w1 tr r w' :
  goes k w1 tr r w' →
  goes (match on_connect_handler (config y) with
        | Some h => call_unit_handler c h None
        | None => Ret tt
        end ;; k) w1 (passes c (on_connect_handler (config y)) ++ tr) r w'.
Proof.
  intros Hk. apply (goes_optional _ (λ h, call_unit_handler c h None)
    (λ h, [(Handler c h None, RUnit (Ok tt))]) (λ _, k)); [|done].
  intros h _. apply goes_unit_handler.
Qed.

(** What the rest of the program finds in a state reached from [w]. *)
Definition handshake_only (st : ConnectionState) (w' : Server) : Prop :=
  ∃ s, cell_get s = st ∧
    connection_heap w' =
      <[c := x .[ state := s ] .[ init_timeout_task := None ]]> (connection_heap w) ∧
    namespace_heap w' = namespace_heap w ∧ runtime w' = runtime w ∧
    next_connection_id w' = next_connection_id w ∧
    tasks w' = match init_timeout_task x with Some i => delete i (tasks w) | None => tasks w end.


Definition inserted (y : WsIoServerNamespace) (c : nat) (x : WsIoServerConnection) :
    WsIoServerNamespace :=
  y .[ connections := <[id x := c]> (connections y) ] .[ connection_ids := connection_ids y ∪ {[id x]} ].

(** The tasks after a handshake that succeeds. *)
Definition tasks_ready (ts : gmap nat task) : gmap nat task :=
  match on_ready_handler (config y) with
  | Some h => <[fresh (dom ts) := OnReady c h]> ts
  | None => ts
  end.

Lemma handshake_succeeds_run t b (Ht : response_passes c (config y) d t)
    (Hb : encode (ns_packet_codec (config y)) new_ready = Ok b)
    (Hopen : chan_closed (message_tx x) = false)
    (Hroom : length (chan_items (message_tx x)) < chan_cap (message_tx x)) :
  ∃ w' s ch,
    goes (handle_init_packet c d) w
      (t ++ passes c (middleware (config y)) ++ passes c (on_connect_handler (config y)))
      (Ok tt) w' ∧
    cell_get s = ConnReady ∧
    chan_items ch = chan_items (message_tx x) ++
      [message_of (ns_packet_codec (config y)) b] ∧
    connection_heap w' =
      <[c := x .[ state := s ] .[ init_timeout_task := None ] .[ message_tx := ch ]]> (connection_heap w) ∧
    namespace_heap w' =
      <[namespace x := y .[ connections := <[id x := c]> (connections y) ]
                         .[ connection_ids := connection_ids y ∪ {[id x]} ]]> (namespace_heap w) ∧
    runtime w' = (runtime w) .[ rt_connection_ids := rt_connection_ids (runtime w) ∪ {[id x]} ] ∧
    tasks w' = tasks_ready
      match init_timeout_task x with Some i => delete i (tasks w) | None => tasks w end.
Proof.
  destruct (activated_conn c w x Hx Hs) as (s & Hi & Hc & Hn & Hrt & _ & Hts).
  set (x1 := x .[ state := s ] .[ init_timeout_task := None ]) in *.
  remember (activated c w) as wa eqn:Hwa.
  set (w1 := conn_set c (λ x, x .[ state := (cell_try_transition (state x) Activating ConnReady).1 ])
    wa).
  set (w2 := table_insert (namespace x) c (id x) w1).
  set (s2 := (cell_try_transition s Activating ConnReady).1).
  assert (Hx1 : connection_heap wa !! c = Some x1) by (rewrite Hc; apply lookup_insert_eq).
  assert (Hx2 : connection_heap w1 !! c = Some (x1 .[ state := s2 ]))
    by exact (conn_set_same c _ _ _ Hx1).
  assert (Hy2 : namespace_heap w1 !! namespace x = Some y) by (unfold w1; simpl; by rewrite Hn).
  destruct (goes_send_packet c new_ready w2 (x1 .[ state := s2 ]) (inserted y c x) b)
    as (ch & Hit & Hcap & Hcl & Hgo);
    [exact Hx2 | by apply (table_insert_same _ _ _ _ _ Hy2) | done..|].
  set (w3 := conn_set c (λ x, x .[ message_tx := ch ]) w2) in *.
  exists (w3 .[ tasks := tasks_ready (tasks w3) ]), s2, ch. split_and!.
  - apply activated_goes; [done|]. apply goes_middleware.
    rewrite <-(app_nil_r (passes _ (on_connect_handler _))). apply goes_on_connect. rewrite <-Hwa.
    eapply goes_try_transition; [exact Hx1 | done|]. fold w1.
    eapply goes_then; [by eapply goes_insert_connection|].
    eapply goes_then; [exact Hgo|]. unfold tasks_ready.
    destruct (on_ready_handler (config y)) as [h|]; [|by destruct w3].
    by eapply goes_then.
  - by apply cell_try_transition_hit.
  - exact Hit.
  - simpl. rewrite Hc, !alter_insert_same. done.
  - simpl. rewrite Hn, (alter_some _ _ _ _ Hy), alter_insert_same. done.
  - simpl. by rewrite Hrt.
  - simpl. by rewrite Hts.
Qed.

(** C15: an init packet for a connection that waits for it, where every configured
    handler succeeds: the init-response handler is called first, with the decoded
    payload, then the middleware, then the on-connect handler; then the
    connection is [Ready], in the tables of its namespace and of the runtime, its
    watchdog is aborted, the Ready packet is the last message in its queue, and
    the on-ready handler is spawned.  Every other connection and namespace is as it was. *)
Theorem handshake_succeeds t b (Ht : response_passes c (config y) d t)
    (Hb : encode (ns_packet_codec (config y)) new_ready = Ok b)
    (Hopen : chan_closed (message_tx x) = false)
    (Hroom : length (chan_items (message_tx x)) < chan_cap (message_tx x)) :
  ∃ w' s ch,
    goes (handle_init_packet c d) w
      (t ++ passes c (middleware (config y)) ++ passes c (on_connect_handler (config y)))
      (Ok tt) w' ∧
    cell_get s = ConnReady ∧
    chan_items ch = chan_items (message_tx x) ++
      [message_of (ns_packet_codec (config y)) b] ∧
    connection_heap w' =
      <[c := x .[ state := s ] .[ init_timeout_task := None ] .[ message_tx := ch ]]> (connection_heap w) ∧
    namespace_heap w' =
      <[namespace x := y .[ connections := <[id x := c]> (connections y) ]
                         .[ connection_ids := connection_ids y ∪ {[id x]} ]]> (namespace_heap w) ∧
    runtime w' = (runtime w) .[ rt_connection_ids := rt_connection_ids (runtime w) ∪ {[id x]} ] ∧
    tasks w' = tasks_ready
      match init_timeout_task x with Some i => delete i (tasks w) | None => tasks w end.
Proof. by apply handshake_succeeds_run. Qed.
End one.

(** ** Packets of the peer *)

(** C33: what a frame of the peer leads to, in any state.  Bytes that do not decode are an
    error.  An event is ignored unless the connection is ready, is an error
    without a key, is ignored without handlers, and otherwise spawns one dispatch.
    An init packet is handled by [handle_init_packet], which refuses it, changing
    nothing, in every state but [AwaitingInit].  The rest is ignored. *)
Theorem incoming_packets c b w x y (Hx : connection_heap w !! c = Some x)
    (Hy : namespace_heap w !! namespace x = Some y) :
  let codec := ns_packet_codec (config y) in
  match decode codec b with
  | Err e => goes (handle_incoming_packet c b) w [] (Err e) w
  | Ok p =>
      match type p with
      | Event =>
          if decide (cell_get (state x) = ConnReady) then
            match key p with
            | None => goes (handle_incoming_packet c b) w [] (Err (EMsg "Event packet missing key")) w
            | Some event =>
                match event_entries (event_registry x) !! event with
                | None => goes (handle_incoming_packet c b) w [] (Ok tt) w
                | Some entry =>
                    goes (handle_incoming_packet c b) w [] (Ok tt)
                      (w .[ tasks := <[fresh (dom (tasks w)) := DispatchEvent c entry codec (data p)]>
                             (tasks w) ])
                end
            end
          else goes (handle_incoming_packet c b) w [] (Ok tt) w
      | Init =>
          (∀ rs, run rs (handle_incoming_packet c b) w = run rs (handle_init_packet c (data p)) w) ∧
          (cell_get (state x) ≠ AwaitingInit →
           goes (handle_incoming_packet c b) w []
             (Err (EMsg ("Received init packet in invalid state: " ++
                         show_connection_state (cell_get (state x))))) w)
      | Disconnect | Ready => goes (handle_incoming_packet c b) w [] (Ok tt) w
      end
  end.
Proof.
  cbv zeta. assert (Hpre : ∀ rs, run rs (handle_incoming_packet c b) w =
    run rs (packet <- of_result (decode (ns_packet_codec (config y)) b) ;; handle_packet c packet) w).
  { intros rs. simpl. rewrite Hx. simpl. by rewrite Hy. }
  assert (Hgoes : ∀ r w', goes (packet <- of_result (decode (ns_packet_codec (config y)) b) ;;
    handle_packet c packet) w [] r w' → goes (handle_incoming_packet c b) w [] r w').
  { intros r w'. unfold goes. by rewrite Hpre. }
  destruct (decode (ns_packet_codec (config y)) b) as [p|e]; [|by apply Hgoes].
  unfold handle_packet in *. destruct (type p) eqn:Ht.
  - apply Hgoes. simpl. by rewrite Ht.
  - assert (Hready : ∀ (k : bool → srv unit) r w', goes (k (bool_decide (cell_get (state x) = ConnReady))) w [] r w' →
      goes (ready <- is_ready c ;; k ready) w [] r w').
    { intros k r w' Hk. unfold is_ready. eapply goes_conn_get; [done|]. by rewrite cell_is_spec. }
    case_decide as Hr.
    + destruct (key p) as [event|] eqn:Hk.
      * destruct (event_entries (event_registry x) !! event) as [entry|] eqn:He;
          apply Hgoes; simpl of_result; cbn [bind]; rewrite Ht; apply Hready; rewrite bool_decide_true, Hk by done;
          unfold handle_event_packet; (eapply goes_conn_get; [done|]); (eapply goes_ns_get; [done|]);
          (eapply goes_conn_get; [done|]); rewrite He; [|done].
        unfold spawn_task. by eapply goes_then.
      * apply Hgoes. simpl of_result; cbn [bind]; rewrite Ht. apply Hready.
        by rewrite bool_decide_true, Hk by done.
    + apply Hgoes. simpl of_result; cbn [bind]; rewrite Ht. apply Hready. by rewrite bool_decide_false by done.
  - split; [intros rs; rewrite Hpre; simpl; by rewrite Ht|]. intros Hs. apply Hgoes. simpl. rewrite Ht.
    eapply goes_conn_get; [done|]. by destruct (cell_get (state x)).
  - apply Hgoes. simpl. by rewrite Ht.
Qed.

(** ** The server's init packet *)

(** The init-request handler is absent, or answers; [b] is the encoded answer. *)
Inductive request_passes (c : nat) (cfg : WsIoServerNamespaceConfig) :
    list (label * reply) → option bytes → Prop :=
| request_none : init_request_handler cfg = None → request_passes c cfg [] None
| request_empty t h :
    init_request_handler cfg = Some (t, h) →
    request_passes c cfg [(Handler c h None, RData (Ok None))] None
| request_data t h v b :
    init_request_handler cfg = Some (t, h) → encode_data (ns_packet_codec cfg) t v = Ok b →
    request_passes c cfg [(Handler c h None, RData (Ok (Some (Any t v))))] (Some b).

(** It fails, is too late, or its answer cannot be encoded. *)
Inductive request_refused (c : nat) (cfg : WsIoServerNamespaceConfig) :
    list (label * reply) → error → Prop :=
| request_err t h e :
    init_request_handler cfg = Some (t, h) →
    request_refused c cfg [(Handler c h None, RData (Err e))] e
| request_late t h :
    init_request_handler cfg = Some (t, h) →
    request_refused c cfg [(Handler c h None, RElapsed)] EElapsed
| request_unencodable t h v e :
    init_request_handler cfg = Some (t, h) → encode_data (ns_packet_codec cfg) t v = Err e →
    request_refused c cfg [(Handler c h None, RData (Ok (Some (Any t v))))] e.

Definition call_request (c : nat) (cfg : WsIoServerNamespaceConfig) : srv (option bytes) :=
  match init_request_handler cfg with
  | Some h => call_init_request_handler c h (ns_packet_codec cfg)
  | None => Ret None
  end.

Lemma goes_request c cfg tr b w :
  request_passes c cfg tr b → goes (call_request c cfg) w tr (Ok b) w.
Proof.
  unfold call_request. intros [-> | t h -> | t h v b' -> Hb]; [done | by apply goes_await|].
  apply goes_await. simpl. rewrite downcast_same, Hb. by eapply goes_then.
Qed.

Lemma goes_request_err c cfg tr e w :
  request_refused c cfg tr e → goes (call_request c cfg) w tr (Err e) w.
Proof.
  unfold call_request. intros [t h e' -> | t h -> | t h v e' -> Hb]; [by apply goes_await..|].
  apply goes_await. simpl. rewrite downcast_same, Hb. by apply goes_bind_err.
Qed.

Lemma init_unfold c : init c =
  (ensure c Created
     (λ s, "Cannot init connection in invalid state: " ++ show_connection_state s)%string ;;
   n <- conn_get c namespace ;;
   cfg <- ns_get n config ;;
   init_request_data <- call_request c cfg ;;
   try_transition c Created AwaitingInit ;;
   watchdog <- spawn (InitWatchdog c) ;;
   conn_upd c (λ x, x .[ init_timeout_task := Some watchdog ]) ;;
   send_packet c (new_init init_request_data)).
Proof. done. Qed.

(** [init] refuses a connection that is not [Created], and returns the error of the
    init-request handler or of encoding its answer; in every such case nothing
    has changed and nothing was sent. *)
Theorem init_errors c w x y (Hx : connection_heap w !! c = Some x)
    (Hy : namespace_heap w !! namespace x = Some y) :
  (cell_get (state x) ≠ Created →
   goes (init c) w []
     (Err (EMsg ("Cannot init connection in invalid state: " ++
                 show_connection_state (cell_get (state x))))) w) ∧
  (cell_get (state x) = Created → ∀ tr e, request_refused c (config y) tr e →
   goes (init c) w tr (Err e) w).
Proof.
  split.
  - intros Hs. rewrite init_unfold.
    by apply (goes_ensure_err c Created
      (λ s, "Cannot init connection in invalid state: " ++ show_connection_state s)%string).
  - intros Hs tr e Hr. rewrite init_unfold. eapply goes_ensure; [done..|].
    eapply goes_conn_get; [done|]. eapply goes_ns_get; [done|].
    by apply goes_bind_err, goes_request_err.
Qed.

Lemma init_succeeds_run c w x y tr d b (Hx : connection_heap w !! c = Some x)
    (Hy : namespace_heap w !! namespace x = Some y) (Hs : cell_get (state x) = Created)
    (Hd : request_passes c (config y) tr d)
    (Hb : encode (ns_packet_codec (config y)) (new_init d) = Ok b)
    (Hopen : chan_closed (message_tx x) = false)
    (Hroom : length (chan_items (message_tx x)) < chan_cap (message_tx x)) :
  ∃ w' s ch, goes (init c) w tr (Ok tt) w' ∧ cell_get s = AwaitingInit ∧
    chan_items ch = chan_items (message_tx x) ++ [message_of (ns_packet_codec (config y)) b] ∧
    chan_cap ch = chan_cap (message_tx x) ∧ chan_closed ch = false ∧
    decode (ns_packet_codec (config y)) b = Ok (new_init d) ∧
    let watchdog := fresh (dom (tasks w)) in
    w' = w .[ tasks := <[watchdog := InitWatchdog c]> (tasks w) ]
           .[ connection_heap :=
              <[c := x .[ state := s ] .[ init_timeout_task := Some watchdog ] .[ message_tx := ch ]]>
                (connection_heap w) ].
Proof.
  set (w1 := conn_set c (λ x, x .[ init_timeout_task := Some (fresh (dom (tasks w))) ])
    ((conn_set c (λ x, x .[ state := (cell_try_transition (state x) Created AwaitingInit).1 ]) w)
      .[ tasks := <[fresh (dom (tasks w)) := InitWatchdog c]> (tasks w) ])).
  set (s := (cell_try_transition (state x) Created AwaitingInit).1).
  destruct (goes_send_packet c (new_init d) w1
    (x .[ state := s ] .[ init_timeout_task := Some (fresh (dom (tasks w))) ]) y b)
    as (ch & Hit & Hcap & Hcl & Hgo); [| exact Hy | done..|].
  { exact (conn_set_same c _ _ _ (tasks_conn _ _ _ _ (conn_set_same c _ w x Hx))). }
  exists (conn_set c (λ x, x .[ message_tx := ch ]) w1), s, ch. split_and!.
  - rewrite init_unfold. eapply goes_ensure; [done..|].
    eapply goes_conn_get; [done|]. eapply goes_ns_get; [done|].
    rewrite <-(app_nil_r tr). eapply goes_bind; [by apply goes_request|].
    eapply goes_try_transition; [done..|]. apply goes_spawn. by apply goes_conn_upd.
  - by apply cell_try_transition_hit.
  - exact Hit.
  - exact Hcap.
  - exact Hcl.
  - by apply decode_encode_ok.
  - unfold w1. destruct w. unfold conn_set. simpl in *.
    by rewrite (alter_some _ _ _ _ Hx), !alter_insert_same.
Qed.

(** [init] of a [Created] connection asks the init-request handler, if there is one,
    waits for the client's answer with a watchdog, and queues exactly one message:
    the init packet, which decodes back to itself and carries the handler's answer. *)
Theorem init_succeeds c w x y tr d b (Hx : connection_heap w !! c = Some x)
    (Hy : namespace_heap w !! namespace x = Some y) (Hs : cell_get (state x) = Created)
    (Hd : request_passes c (config y) tr d)
    (Hb : encode (ns_packet_codec (config y)) (new_init d) = Ok b)
    (Hopen : chan_closed (message_tx x) = false)
    (Hroom : length (chan_items (message_tx x)) < chan_cap (message_tx x)) :
  ∃ w' s ch, goes (init c) w tr (Ok tt) w' ∧ cell_get s = AwaitingInit ∧
    chan_items ch = chan_items (message_tx x) ++ [message_of (ns_packet_codec (config y)) b] ∧
    chan_cap ch = chan_cap (message_tx x) ∧ chan_closed ch = false ∧
    decode (ns_packet_codec (config y)) b = Ok (new_init d) ∧
    let watchdog := fresh (dom (tasks w)) in
    w' = w .[ tasks := <[watchdog := InitWatchdog c]> (tasks w) ]
           .[ connection_heap :=
              <[c := x .[ state := s ] .[ init_timeout_task := Some watchdog ] .[ message_tx := ch ]]>
                (connection_heap w) ].
Proof. by apply init_succeeds_run. Qed.
End handshake.

(** ** Witnesses *)
#[local] Existing Instances ref_types ref_cell ref_mpsc ref_crates.
Definition secret : option any := Some (@Any ref_types false "secret"%string).

Lemma awaiting_facts :
  ∃ x y, connection_heap awaiting !! 0 = Some x ∧ cell_get (state x) = AwaitingInit ∧
    namespace_heap awaiting !! namespace x = Some y ∧ config y = chat_config ∧
    chan_closed (message_tx x) = false ∧ chan_cap (message_tx x) = Z.to_nat 2048 ∧
    length (chan_items (message_tx x)) = 1.
Proof.
  destruct (connection_heap awaiting !! 0) as [x|] eqn:Hx; [|by vm_compute in Hx].
  assert (namespace x = 0) as Hn by (apply (field_of namespace _ x _ Hx); by vm_compute).
  destruct (namespace_heap awaiting !! 0) as [y|] eqn:Hy; [|by vm_compute in Hy].
  exists x, y. rewrite Hn. split; [done|]. split; [|split; [done|]; split; [|split_and!]].
  - apply (field_of (λ x, cell_get (state x)) _ x _ Hx). by vm_compute.
  - apply (field_of config _ y _ Hy). by vm_compute.
  - apply (field_of (λ x, chan_closed (message_tx x)) _ x _ Hx). by vm_compute.
  - apply (field_of (λ x, chan_cap (message_tx x)) _ x _ Hx). by vm_compute.
  - apply (field_of (λ x, length (chan_items (message_tx x))) _ x _ Hx). by vm_compute.
Qed.

Lemma handshake_succeeds_witness :
  ∃ w', goes (handle_init_packet 0 (Some login_data)) awaiting
    [(Handler 0 "login" secret, ok_unit); (Handler 0 "auth" None, ok_unit);
     (Handler 0 "connected" None, ok_unit)] (Ok tt) w'.
Proof.
  destruct awaiting_facts as (x & y & Hx & Hs & Hy & Hcfg & Hopen & Hcap & Hlen).
  destruct (handshake_succeeds 0 (Some login_data) awaiting x y Hx Hs Hy
    [(Handler 0 "login" secret, ok_unit)] [Byte.x03; Byte.x00; Byte.x00]) as (w' & s & ch & Hgo & _).
  - rewrite Hcfg. by apply (response_some 0 chat_config _ (false : @ty ref_types) "login").
  - rewrite Hcfg. by vm_compute.
  - exact Hopen.
  - rewrite Hlen, Hcap. by apply Nat.ltb_lt.
  - exists w'. rewrite Hcfg in Hgo. exact Hgo.
Defined.


(** A ready connection gets an event packet without a key. *)
Lemma incoming_packets_witness :
  goes (handle_incoming_packet 0 [Byte.x01; Byte.x00; Byte.x00]) ready_server []
    (Err (EMsg "Event packet missing key")) ready_server.
Proof.
  destruct (connection_heap ready_server !! 0) as [x|] eqn:Hx; [|by vm_compute in Hx].
  assert (namespace x = 0) as Hn by (apply (field_of namespace _ x _ Hx); by vm_compute).
  destruct (namespace_heap ready_server !! 0) as [y|] eqn:Hy; [|by vm_compute in Hy].
  rewrite <-Hn in Hy.
  pose proof (incoming_packets 0 [Byte.x01; Byte.x00; Byte.x00] ready_server x y Hx Hy) as H.
  cbv zeta in H. rewrite Hn in Hy. assert (config y = chat_config) as Hc
    by (apply (field_of config _ y _ Hy); by vm_compute).
  rewrite Hc in H. replace (decode (ns_packet_codec chat_config) [Byte.x01; Byte.x00; Byte.x00])
    with (Ok (Packet.new Event None None)) in H by by vm_compute.
  simpl in H. rewrite decide_True in H; [exact H|].
  apply (field_of (λ x, cell_get (state x)) _ x _ Hx). by vm_compute.
Defined.

Lemma created_facts :
  ∃ x y, connection_heap (with_connections 2) !! 0 = Some x ∧ cell_get (state x) = Created ∧
    namespace_heap (with_connections 2) !! namespace x = Some y ∧ config y = chat_config ∧
    chan_closed (message_tx x) = false ∧ chan_cap (message_tx x) = Z.to_nat 2048 ∧
    length (chan_items (message_tx x)) = 0.
Proof.
  destruct (connection_heap (with_connections 2) !! 0) as [x|] eqn:Hx; [|by vm_compute in Hx].
  assert (namespace x = 0) as Hn by (apply (field_of namespace _ x _ Hx); by vm_compute).
  destruct (namespace_heap (with_connections 2) !! 0) as [y|] eqn:Hy; [|by vm_compute in Hy].
  exists x, y. rewrite Hn. split; [done|]. split; [|split; [done|]; split; [|split_and!]].
  - apply (field_of (λ x, cell_get (state x)) _ x _ Hx). by vm_compute.
  - apply (field_of config _ y _ Hy). by vm_compute.
  - apply (field_of (λ x, chan_closed (message_tx x)) _ x _ Hx). by vm_compute.
  - apply (field_of (λ x, chan_cap (message_tx x)) _ x _ Hx). by vm_compute.
  - apply (field_of (λ x, length (chan_items (message_tx x))) _ x _ Hx). by vm_compute.
Qed.

Lemma init_errors_witness :
  goes (init 0) (with_connections 2) [(Handler 0 "greet" None, RElapsed)] (Err EElapsed)
    (with_connections 2).
Proof.
  destruct created_facts as (x & y & Hx & Hs & Hy & Hcfg & _).
  apply (proj2 (init_errors 0 (with_connections 2) x y Hx Hy) Hs).
  apply (request_late _ _ (false : @ty ref_types)). by rewrite Hcfg.
Defined.

Lemma init_succeeds_witness :
  ∃ w', goes (init 0) (with_connections 2) [(Handler 0 "greet" None, greeting)] (Ok tt) w'.
Proof.
  destruct created_facts as (x & y & Hx & Hs & Hy & Hcfg & Hopen & Hcap & Hlen).
  destruct (init_succeeds 0 (with_connections 2) x y [(Handler 0 "greet" None, greeting)]
    (Some (String.list_byte_of_string "hello"))
    (Byte.x02 :: Byte.x00 :: put_opt (Some (String.list_byte_of_string "hello"))) Hx Hy Hs)
    as (w' & s & ch & Hgo & _).
  - apply (request_data _ _ (false : @ty ref_types)); rewrite Hcfg; by vm_compute.
  - rewrite Hcfg. by vm_compute.
  - exact Hopen.
  - rewrite Hlen, Hcap. by apply Nat.ltb_lt.
  - exists w'. exact Hgo.
Defined.
