(* ===== verification/Rooms.v ===== *)
(** * Rooms

    [rooms] of a namespace and [joined_rooms] of its connections are two views of
    one relation.  [join], [leave] and [cleanup], run to completion, keep them
    consistent, and no empty room is left behind. *)

From S2P Require Import Prelude Async Concurrent Extern ChannelCapacity Packet Codecs.
From S2P Require Import EventRegistry Extensions ServerConfig ServerState Connection Broadcast.
From S2P Require Import Namespace ServerRuntime RunServer RefServer.

Abbreviation room_map := (gmap string (gset Z)).

(** ** The table of rooms *)
Definition members (m : room_map) (r : string) : gset Z := default ∅ (m !! r).

Definition no_empty_room (m : room_map) : Prop := ∀ r ids, m !! r = Some ids → ids ≠ ∅.

Definition add_id (i : Z) (r : string) (m : room_map) : room_map := <[r := members m r ∪ {[i]}]> m.

Definition drop_id (i : Z) (r : string) (m : room_map) : room_map :=
  let m := alter (λ entry, entry ∖ {[i]}) r m in
  match m !! r with
  | Some entry => if bool_decide (entry = ∅) then delete r m else m
  | None => m
  end.

Lemma members_add i r m r' j :
  j ∈ members (add_id i r m) r' ↔ j ∈ members m r' ∨ (r' = r ∧ j = i).
Proof. unfold members, add_id. rewrite lookup_insert. case_decide; subst; simpl; set_solver. Qed.

Lemma lookup_drop i r m r' :
  drop_id i r m !! r' =
    if decide (r = r') then
      match m !! r with
      | Some ids => if bool_decide (ids ∖ {[i]} = ∅) then None else Some (ids ∖ {[i]})
      | None => None
      end
    else m !! r'.
Proof.
  unfold drop_id. cbv zeta. rewrite lookup_alter_eq.
  destruct (decide (r = r')) as [<-|Hne].
  - destruct (m !! r) as [ids|] eqn:Hr; simpl; [|by rewrite lookup_alter_eq, Hr].
    case_bool_decide; [by rewrite lookup_delete_eq | by rewrite lookup_alter_eq, Hr].
  - destruct (m !! r) as [ids|]; simpl; [|by rewrite lookup_alter_ne].
    case_bool_decide; [by rewrite lookup_delete_ne, lookup_alter_ne | by rewrite lookup_alter_ne].
Qed.

Lemma members_drop i r m r' j :
  j ∈ members (drop_id i r m) r' ↔ j ∈ members m r' ∧ ¬ (r' = r ∧ j = i).
Proof.
  unfold members. rewrite lookup_drop. case_decide as Hr; [subst r'|naive_solver].
  destruct (m !! r) as [ids|]; simpl; [|set_solver]. case_bool_decide; set_solver.
Qed.

Lemma no_empty_add i r m : no_empty_room m → no_empty_room (add_id i r m).
Proof.
  intros Hm r' ids. unfold add_id. rewrite lookup_insert. case_decide; [|by apply Hm].
  intros [= <-]. set_solver.
Qed.

Lemma no_empty_drop i r m : no_empty_room m → no_empty_room (drop_id i r m).
Proof.
  intros Hm r' ids. rewrite lookup_drop. case_decide; [|apply Hm].
  destruct (m !! r); [|done]. case_bool_decide; [done | by intros [= <-]].
Qed.

Lemma members_drop_all i l m r' j :
  j ∈ members (foldl (λ m r, drop_id i r m) m l) r' ↔ j ∈ members m r' ∧ ¬ (r' ∈ l ∧ j = i).
Proof.
  revert m. induction l as [|r l IH]; intros m; simpl; [set_solver|].
  rewrite IH, members_drop, elem_of_cons. naive_solver.
Qed.

Lemma no_empty_drop_all i l m :
  no_empty_room m → no_empty_room (foldl (λ m r, drop_id i r m) m l).
Proof. revert m. induction l; simpl; auto using no_empty_drop. Qed.

Section rooms.
Context `{T : Types} `{Cells : AtomicEnumCell} `{Chans : Mpsc} `{Crates : !SerdeCrates}.

(** Every id in a room belongs to a connection of the namespace that has
    joined it, and the other way round; rooms are not empty. *)
Record rooms_ok (w : Server) : Prop := {
  rooms_members n y r i : namespace_heap w !! n = Some y →
    (i ∈ members (rooms y) r ↔
     ∃ c x, connection_heap w !! c = Some x ∧ namespace x = n ∧ id x = i ∧ r ∈ joined_rooms x);
  rooms_no_empty n y : namespace_heap w !! n = Some y → no_empty_room (rooms y);
  (** ids are given out once *)
  rooms_ids c d x x' : connection_heap w !! c = Some x → connection_heap w !! d = Some x' →
    id x = id x' → c = d;
}.

Definition set_rooms (n : nat) (f : room_map → room_map) (w : Server) : Server :=
  ns_set n (λ y, y .[ rooms := f (rooms y) ]) w.

Lemma goes_add_room n r i w :
  goes (add_connection_id_to_room n r i) w [] (Ok tt) (set_rooms n (add_id i r) w).
Proof. apply goes_modify. Qed.

Lemma set_set_ns n f g w : ns_set n f (ns_set n g w) = ns_set n (λ y, f (g y)) w.
Proof. unfold ns_set. simpl. by rewrite alter_alter. Qed.

Lemma ns_set_ext n f g w : (∀ y, f y = g y) → ns_set n f w = ns_set n g w.
Proof. intros Hfg. unfold ns_set. by rewrite (alter_ext f g). Qed.

Lemma goes_remove_room n r i w :
  goes (remove_connection_id_from_room n r i) w [] (Ok tt) (set_rooms n (drop_id i r) w).
Proof.
  unfold remove_connection_id_from_room. eapply goes_then; [apply goes_modify|].
  eapply goes_atom; [|apply goes_ret]. f_equal. rewrite set_set_ns. apply ns_set_ext.
  intros y. unfold drop_id. simpl. destruct (alter _ r (rooms y) !! r); [|done]. by case_bool_decide.
Qed.

(** ** [join] and [leave] *)
Section one.
Context (c : nat) (w : Server) (x : WsIoServerConnection) (y : WsIoServerNamespace).
Context (Hx : connection_heap w !! c = Some x) (Hy : namespace_heap w !! namespace x = Some y).

(** [w] with other rooms joined and another table of rooms. *)
Definition with_rooms (J : gset string) (M : room_map) : Server :=
  w .[ connection_heap := <[c := x .[ joined_rooms := J ]]> (connection_heap w) ]
    .[ namespace_heap := <[namespace x := y .[ rooms := M ]]> (namespace_heap w) ].

Lemma with_rooms_same : with_rooms (joined_rooms x) (rooms y) = w.
Proof.
  unfold with_rooms, update. destruct w, x, y. simpl in *. by rewrite !insert_id.
Qed.

Lemma with_rooms_conn J M :
  connection_heap (with_rooms J M) !! c = Some (x .[ joined_rooms := J ]).
Proof. apply lookup_insert_eq. Qed.

Lemma join_one J M r :
  goes (n <- conn_get c namespace ;; i <- conn_get c id ;;
        add_connection_id_to_room n r i ;;
        conn_upd c (λ x, x .[ joined_rooms := joined_rooms x ∪ {[r]} ]))
    (with_rooms J M) [] (Ok tt) (with_rooms (J ∪ {[r]}) (add_id (id x) r M)).
Proof.
  eapply goes_conn_get; [apply with_rooms_conn|]. eapply goes_conn_get; [apply with_rooms_conn|].
  eapply goes_then; [apply goes_add_room|]. eapply goes_atom; [|apply goes_ret].
  f_equal. unfold with_rooms, set_rooms, ns_set, conn_set, update. simpl.
  by rewrite !alter_insert_same.
Qed.

Lemma leave_one J M r :
  goes (n <- conn_get c namespace ;; i <- conn_get c id ;;
        remove_connection_id_from_room n r i ;;
        conn_upd c (λ x, x .[ joined_rooms := joined_rooms x ∖ {[r]} ]))
    (with_rooms J M) [] (Ok tt) (with_rooms (J ∖ {[r]}) (drop_id (id x) r M)).
Proof.
  eapply goes_conn_get; [apply with_rooms_conn|]. eapply goes_conn_get; [apply with_rooms_conn|].
  eapply goes_then; [apply goes_remove_room|]. eapply goes_atom; [|apply goes_ret].
  f_equal. unfold with_rooms, set_rooms, ns_set, conn_set, update. simpl.
  by rewrite !alter_insert_same.
Qed.

Lemma goes_join J M rs :
  goes (join c rs) (with_rooms J M) [] (Ok tt)
    (with_rooms (J ∪ list_to_set rs) (foldl (λ m r, add_id (id x) r m) M rs)).
Proof.
  revert J M. induction rs as [|r rs IH]; intros J M; simpl.
  - replace (J ∪ ∅) with J by set_solver. apply goes_ret.
  - eapply goes_then; [apply join_one|].
    replace (J ∪ ({[r]} ∪ list_to_set rs)) with (J ∪ {[r]} ∪ list_to_set rs) by set_solver.
    apply IH.
Qed.

Lemma goes_leave J M rs :
  goes (leave c rs) (with_rooms J M) [] (Ok tt)
    (with_rooms (J ∖ list_to_set rs) (foldl (λ m r, drop_id (id x) r m) M rs)).
Proof.
  revert J M. induction rs as [|r rs IH]; intros J M; simpl.
  - replace (J ∖ ∅) with J by set_solver. apply goes_ret.
  - eapply goes_then; [apply leave_one|].
    replace (J ∖ ({[r]} ∪ list_to_set rs)) with (J ∖ {[r]} ∖ list_to_set rs) by set_solver.
    apply IH.
Qed.

(** A new set of rooms of [c] that the table agrees with. *)
Lemma rooms_ok_update J M w' x' y' :
  rooms_ok w →
  connection_heap w' = <[c := x']> (connection_heap w) →
  id x' = id x → namespace x' = namespace x → joined_rooms x' = J →
  namespace_heap w' = <[namespace x := y']> (namespace_heap w) → rooms y' = M →
  no_empty_room M →
  (∀ r i, i ∈ members M r ↔ if decide (i = id x) then r ∈ J else i ∈ members (rooms y) r) →
  rooms_ok w'.
Proof.
  intros [Hm He Hids] Hc Hid Hn HJ Hns HM Hne HMJ. split.
  - intros n z r i. rewrite Hns, Hc, lookup_insert. case_decide as Hc'.
    + subst n. intros [= <-]. rewrite HM, HMJ. case_decide as Hi; [subst i|].
      * split; [|].
        -- intros Hr. exists c, x'. rewrite lookup_insert_eq. by rewrite HJ.
        -- intros (d & z & Hd & Hnd & Hidd & Hr). rewrite lookup_insert in Hd.
           case_decide as Hcd; [injection Hd as <-; by rewrite <-HJ|].
           by destruct Hcd, (Hids c d x z).
      * rewrite (Hm _ _ _ _ Hy). split; intros (d & z & Hd & Hnd & Hidd & Hr); exists d, z.
        -- rewrite lookup_insert_ne; [done|]. intros <-. congruence.
        -- rewrite lookup_insert in Hd. case_decide as Hcd; [|done]. congruence.
    + intros Hz. rewrite (Hm _ _ _ _ Hz). split; intros (d & z' & Hd & Hnd & Hidd & Hr); exists d, z'.
      * rewrite lookup_insert_ne; [done|]. intros <-. congruence.
      * rewrite lookup_insert in Hd. case_decide as Hcd; [|done]. congruence.
  - intros n z. rewrite Hns, lookup_insert. case_decide; [intros [= <-]; by rewrite HM | apply He].
  - intros d1 d2 z1 z2. rewrite Hc, !lookup_insert_Some.
    intros [[<- <-]|[_ H1]] [[<- <-]|[_ H2]] H3; [done| | |].
    + apply (Hids c d2 x z2 Hx H2). congruence.
    + apply (Hids d1 c z1 x H1 Hx). congruence.
    + by apply (Hids d1 d2 z1 z2).
Qed.

Lemma with_rooms_ok J M :
  rooms_ok w → no_empty_room M →
  (∀ r i, i ∈ members M r ↔ if decide (i = id x) then r ∈ J else i ∈ members (rooms y) r) →
  rooms_ok (with_rooms J M).
Proof.
  intros Hok HM HMJ.
  by apply (rooms_ok_update J M _ (x .[ joined_rooms := J ]) (y .[ rooms := M ])).
Qed.

Lemma members_add_all i M rs r j :
  j ∈ members (foldl (λ m r, add_id i r m) M rs) r ↔ j ∈ members M r ∨ (r ∈ rs ∧ j = i).
Proof.
  revert M. induction rs as [|r' rs IH]; intros M; simpl; [set_solver|].
  rewrite IH, members_add, elem_of_cons. naive_solver.
Qed.

Lemma no_empty_add_all i M rs :
  no_empty_room M → no_empty_room (foldl (λ m r, add_id i r m) M rs).
Proof. revert M. induction rs; simpl; auto using no_empty_add. Qed.

Lemma own_room r : rooms_ok w → id x ∈ members (rooms y) r ↔ r ∈ joined_rooms x.
Proof.
  intros [Hm _ Hids]. rewrite (Hm _ _ _ _ Hy). split; [|intros Hr; by exists c, x].
  intros (d & z & Hd & _ & Hid & Hr). assert (c = d) as <- by (by apply (Hids c d x z)). congruence.
Qed.

(** C23: [join] adds exactly the given rooms to the connection, [leave] removes exactly
    those; both keep the rooms of the namespaces and the connections' own lists
    consistent, also when a room is given twice, was joined before or never, and
    neither leaves an empty room behind. *)
Theorem join_leave_rooms rs (Hok : rooms_ok w) :
  (∃ w', goes (join c rs) w [] (Ok tt) w' ∧ rooms_ok w' ∧
     connection_heap w' =
       <[c := x .[ joined_rooms := joined_rooms x ∪ list_to_set rs ]]> (connection_heap w)) ∧
  (∃ w', goes (leave c rs) w [] (Ok tt) w' ∧ rooms_ok w' ∧
     connection_heap w' =
       <[c := x .[ joined_rooms := joined_rooms x ∖ list_to_set rs ]]> (connection_heap w)).
Proof.
  pose proof (rooms_no_empty _ Hok _ _ Hy) as Hne.
  split.
  - exists (with_rooms (joined_rooms x ∪ list_to_set rs) (foldl (λ m r, add_id (id x) r m) (rooms y) rs)).
    split; [rewrite <-with_rooms_same at 1; apply goes_join|]. split; [|done].
    apply with_rooms_ok; [done | by apply no_empty_add_all|]. intros r i. rewrite members_add_all.
    case_decide as Hi; [subst i; rewrite own_room by done; set_solver | naive_solver].
  - exists (with_rooms (joined_rooms x ∖ list_to_set rs) (foldl (λ m r, drop_id (id x) r m) (rooms y) rs)).
    split; [rewrite <-with_rooms_same at 1; apply goes_leave|]. split; [|done].
    apply with_rooms_ok; [done | by apply no_empty_drop_all|]. intros r i. rewrite members_drop_all.
    case_decide as Hi; [subst i; rewrite own_room by done; set_solver | naive_solver].
Qed.
End one.

(** A server where nothing has been joined, by evaluation. *)
Lemma rooms_ok_no_rooms w :
  bool_decide (map_Forall (λ _ y, rooms y = ∅) (namespace_heap w)) = true →
  bool_decide (map_Forall (λ _ x, joined_rooms x = ∅) (connection_heap w)) = true →
  bool_decide (map_Forall (λ c x, map_Forall (λ d x', id x = id x' → c = d) (connection_heap w))
    (connection_heap w)) = true →
  rooms_ok w.
Proof.
  rewrite !bool_decide_eq_true. intros Hr Hj Hid. split.
  - intros n y r i Hy. rewrite (Hr n y Hy). unfold members. rewrite lookup_empty. simpl.
    split; [set_solver|]. intros (c & x & Hx & _ & _ & Hin). rewrite (Hj c x Hx) in Hin. set_solver.
  - intros n y Hy r ids. by rewrite (Hr n y Hy), lookup_empty.
  - intros c d x x' Hx Hx'. exact (Hid c x Hx d x' Hx').
Qed.
End rooms.

(** ** Witnesses *)
#[local] Existing Instances ref_types ref_cell ref_mpsc ref_crates.

Lemma ready_server_rooms : rooms_ok ready_server.
Proof. apply rooms_ok_no_rooms; by vm_compute. Qed.

Lemma join_leave_rooms_witness :
  ∃ w', goes (join 0 ["lobby"; "lobby"; "team"]) ready_server [] (Ok tt) w' ∧ rooms_ok w'.
Proof.
  destruct (connection_heap ready_server !! 0) as [x|] eqn:Hx; [|by vm_compute in Hx].
  assert (namespace x = 0) as Hn by (apply (field_of namespace _ x _ Hx); by vm_compute).
  destruct (namespace_heap ready_server !! 0) as [y|] eqn:Hy; [|by vm_compute in Hy].
  rewrite <-Hn in Hy.
  destruct (join_leave_rooms 0 ready_server x y Hx Hy ["lobby"; "lobby"; "team"] ready_server_rooms)
    as [(w' & Hgo & Hok & _) _].
  exists w'. split; [exact Hgo | exact Hok].
Defined.
