(* ===== verification/Registration.v ===== *)
(** * The table of namespaces

    Registration, lookup, removal and shutdown, run to their end. *)

From S2P Require Import Prelude Async Concurrent Extern ChannelCapacity Packet Codecs.
From S2P Require Import EventRegistry Extensions ServerConfig ServerState Connection Broadcast.
From S2P Require Import Namespace ServerRuntime RunServer RefServer.

Section registration.
Context `{T : Types} `{Cells : AtomicEnumCell} `{Chans : Mpsc} `{Crates : !SerdeCrates}.

Definition duplicate (p : string) : error := EMsg ("Namespace " ++ p ++ " already exists").

(** The heap with one more namespace; [register] leaves it behind when it fails. *)
Definition with_namespace (cfg : WsIoServerNamespaceConfig) (w : Server) : Server :=
  w .[ namespace_heap := <[fresh (dom (namespace_heap w)) := namespace_new cfg]> (namespace_heap w) ].

Lemma goes_insert_namespace n w y :
  namespace_heap w !! n = Some y →
  goes (insert_namespace n) w []
    (if decide (is_Some (namespaces (runtime w) !! path (config y)))
     then Err (duplicate (path (config y))) else Ok tt)
    (if decide (is_Some (namespaces (runtime w) !! path (config y))) then w
     else rt_set (λ r, r .[ namespaces := <[path (config y) := n]> (namespaces r) ]) w).
Proof.
  intros Hy. unfold insert_namespace. eapply goes_ns_get; [done|]. apply goes_get.
  case_bool_decide; (destruct (decide _); [|done]) || (rewrite decide_False by done); done.
Qed.

(** Registering a path that is taken is an error and leaves the table as it is.
    Otherwise the namespace is new, runs, has the configuration of the builder and
    no connection; it is what the path is then looked up to, every other path is
    looked up to what it was, and the count of namespaces is one more. *)
Theorem register_namespace cfg w :
  (is_Some (namespaces (runtime w) !! path cfg) →
   ∃ w', goes (register cfg) w [] (Err (duplicate (path cfg))) w' ∧ runtime w' = runtime w) ∧
  (namespaces (runtime w) !! path cfg = None →
   ∃ n w', goes (register cfg) w [] (Ok n) w' ∧
     namespace_heap w !! n = None ∧
     (∀ m y, namespace_heap w !! m = Some y → namespace_heap w' !! m = Some y) ∧
     (∃ y, namespace_heap w' !! n = Some y ∧ config y = cfg ∧ cell_get (status y) = NsRunning ∧
        connections y = ∅ ∧ connection_ids y = ∅ ∧ rooms y = ∅) ∧
     (∀ p, goes (get_namespace p) w' []
        (Ok (if decide (p = path cfg) then Some n else namespaces (runtime w) !! p)) w') ∧
     namespace_count w' = S (namespace_count w)).
Proof.
  assert (Hn : namespace_heap (with_namespace cfg w) !! fresh (dom (namespace_heap w)) = Some (namespace_new cfg))
    by apply lookup_insert_eq.
  assert (Hnew : goes (alloc_namespace cfg) w []
    (Ok (fresh (dom (namespace_heap w)))) (with_namespace cfg w)) by done.
  pose proof (goes_insert_namespace _ _ _ Hn) as Hi. simpl in Hi.
  split.
  - intros Hp. exists (with_namespace cfg w). split; [|done].
    rewrite !decide_True in Hi by done. eapply goes_then; [exact Hnew|]. by apply goes_bind_err.
  - intros Hp. rewrite !decide_False in Hi by (rewrite Hp; by intros []).
    exists (fresh (dom (namespace_heap w))), (rt_set (λ r, r .[ namespaces :=
      <[path cfg := fresh (dom (namespace_heap w))]> (namespaces r) ]) (with_namespace cfg w)).
    assert (namespace_heap w !! fresh (dom (namespace_heap w)) = None) as Hfresh
      by (apply not_elem_of_dom, is_fresh).
    split_and!.
    + eapply goes_then; [exact Hnew|]. eapply goes_then; [exact Hi | apply goes_ret].
    + done.
    + intros m y Hy. apply lookup_insert_Some. right. split; [|done]. intros <-. by simplify_eq.
    + exists (namespace_new cfg). split; [exact Hn|].
      simpl. by rewrite cell_get_new.
    + intros p. eapply eq_trans; [apply goes_gets|]. do 3 f_equal. simpl. rewrite lookup_insert.
      case_decide; [by subst; rewrite decide_True|]. by rewrite decide_False.
    + unfold namespace_count. simpl. by apply map_size_insert_None.
Qed.
End registration.
