(* ===== verification/Request.v ===== *)
(** * HTTP requests ([wsio-server/src/request.rs])

    Which requests are upgraded and what the others are answered.  The crates
    that read and write HTTP are parameters. *)

From S2P Require Import Prelude Text Async Concurrent Extern ChannelCapacity Packet Codecs.
From S2P Require Import EventRegistry Extensions ServerConfig ServerState Connection Broadcast.
From S2P Require Import Namespace ServerRuntime RunServer RefServer.
From Stdlib Require Import Ascii.

(** ** HTTP *)

Record Request := {
  method : string;
  uri : string;
  uri_path : string;
  query : option string;
  request_headers : list (string * bytes); (* names in lower case, in order *)
  on_upgrade : bool; (* the [OnUpgrade] extension of hyper is there *)
}.

Record Response := {
  status_code : nat;
  response_headers : list (string * bytes);
}.

Definition respond (code : nat) : Response := {| status_code := code; response_headers := [] |}.

Section request.
Context `{T : Types} `{Cells : AtomicEnumCell} `{Chans : Mpsc} `{Crates : !SerdeCrates} `{H : Http}.

(** [HeaderMap::get_all] and [get] *)
Definition get_all (name : string) (hs : list (string * bytes)) : list bytes :=
  snd <$> filter (λ p, p.1 = name) hs.
Definition get (name : string) (hs : list (string * bytes)) : option bytes := head (get_all name hs).

Definition check_header_token (request : Request) (name expected_token : string) : bool :=
  existsb (λ value,
    match to_str value with
    | Some value =>
        existsb (λ token, eq_ignore_ascii_case (trim token) expected_token) (split_on ","%char value)
    | None => false
    end) (get_all name (request_headers request)).

Definition check_header_value (request : Request) (name expected_value : string) : bool :=
  match get name (request_headers request) with
  | Some value => eq_ignore_ascii_case (String.string_of_list_byte value) expected_value
  | None => false
  end.

Definition namespace_path (request : Request) : option string :=
  q ← query request; snd <$> List.find (λ p, bool_decide (p.1 = "namespace"%string)) (parse q).

Definition dispatch_request (request : Request) : srv Response :=
  if negb (bool_decide (method request = "GET"%string)) then Ret (respond 405)
  else if negb (check_header_value request "upgrade" "websocket") ||
          negb (check_header_token request "connection" "upgrade") ||
          negb (check_header_value request "sec-websocket-version" "13") then Ret (respond 400)
  else match get "sec-websocket-key" (request_headers request) ≫= to_str with
  | None => Ret (respond 400)
  | Some ws_sec_key =>
  match namespace_path request with
  | None => Ret (respond 400)
  | Some p =>
  n <- get_namespace p ;;
  match n with
  | None => Ret (respond 404)
  | Some n =>
  let ws_accept_key := derive_accept_key ws_sec_key in
  if negb (on_upgrade request) then Ret (respond 500)
  else
    handle_on_upgrade_request n (request_headers request) (uri request) ;;
    match from_str ws_accept_key with
    | None => Ret (respond 500)
    | Some ws_accept_header => Ret {|
        status_code := 101;
        response_headers := [("connection"%string, String.list_byte_of_string "Upgrade");
          ("sec-websocket-accept"%string, ws_accept_header);
          ("upgrade"%string, String.list_byte_of_string "websocket")] |}
    end
  end end end.

(** ** What the checks mean *)
Definition named (name value : string) (request : Request) : Prop :=
  ∃ v, get name (request_headers request) = Some v ∧
    lowercase (String.string_of_list_byte v) = lowercase value.

Definition has_token (name token : string) (request : Request) : Prop :=
  ∃ v s t, (name, v) ∈ request_headers request ∧ to_str v = Some s ∧
    t ∈ split_on ","%char s ∧ lowercase (trim t) = lowercase token.

(** A request that asks for the upgrade to the namespace [p]; [k] is its key. *)
Record asks_upgrade (request : Request) (k p : string) : Prop := {
  asks_websocket : named "upgrade" "websocket" request;
  asks_connection : has_token "connection" "upgrade" request;
  asks_version : named "sec-websocket-version" "13" request;
  asks_key : get "sec-websocket-key" (request_headers request) ≫= to_str = Some k;
  asks_namespace : namespace_path request = Some p;
}.

Lemma check_value_spec request name value :
  check_header_value request name value = true ↔ named name value request.
Proof.
  unfold check_header_value, named. destruct (get name _) as [v|]; [|naive_solver].
  unfold eq_ignore_ascii_case. rewrite bool_decide_eq_true. naive_solver.
Qed.

Lemma existsb_elem {A} (f : A → bool) l : existsb f l = true ↔ ∃ a, a ∈ l ∧ f a = true.
Proof. rewrite existsb_exists. by setoid_rewrite list_elem_of_In. Qed.

Lemma check_token_spec request name token :
  check_header_token request name token = true ↔ has_token name token request.
Proof.
  unfold check_header_token, has_token, get_all. rewrite existsb_elem. split.
  - intros (v & Hv & Ht). apply list_elem_of_fmap in Hv as ([n v'] & -> & Hv). simpl in *.
    apply list_elem_of_filter in Hv as [Hn Hv]. simpl in Hn. subst n.
    destruct (to_str v') as [s|] eqn:Hs; [|done]. apply existsb_elem in Ht as (t & Hin & Ht%bool_decide_eq_true).
    by exists v', s, t.
  - intros (v & s & t & Hv & Hs & Hin & Ht). exists v. split.
    + apply list_elem_of_fmap. exists (name, v). split; [done|]. by apply list_elem_of_filter.
    + rewrite Hs. apply existsb_elem. exists t. split; [done|]. by apply bool_decide_eq_true.
Qed.

Lemma head_checks request :
  negb (check_header_value request "upgrade" "websocket") ||
  negb (check_header_token request "connection" "upgrade") ||
  negb (check_header_value request "sec-websocket-version" "13") = false ↔
  named "upgrade" "websocket" request ∧ has_token "connection" "upgrade" request ∧
  named "sec-websocket-version" "13" request.
Proof.
  rewrite <-!check_value_spec, <-check_token_spec.
  repeat destruct (check_header_value _ _ _); repeat destruct (check_header_token _ _ _); simpl; naive_solver.
Qed.

(** ** The task of an upgrade *)
Definition with_upgrade_task (n t : nat) (request : Request) (y : WsIoServerNamespace) (w w' : Server) : Prop :=
  tasks w !! t = None ∧
  tasks w' = <[t := HandleUpgrade n (request_headers request) (uri request)]> (tasks w) ∧
  namespace_heap w' = <[n := y .[ connection_task_set := connection_task_set y ∪ {[t]} ]]> (namespace_heap w) ∧
  connection_heap w' = connection_heap w ∧ runtime w' = runtime w ∧
  next_connection_id w' = next_connection_id w.

Lemma goes_upgrade n request w y :
  namespace_heap w !! n = Some y → task_set_locked y = false →
  ∃ t w', goes (handle_on_upgrade_request n (request_headers request) (uri request)) w [] (Ok tt) w' ∧
    with_upgrade_task n t request y w w'.
Proof.
  intros Hy Hl. exists (fresh (dom (tasks w))). eexists. split.
  - unfold handle_on_upgrade_request, lock_task_set. eapply goes_then.
    { apply goes_block. by rewrite Hy, Hl. }
    apply goes_spawn, goes_ns_upd. by apply goes_modify.
  - split; [apply not_elem_of_dom, is_fresh|].
    destruct w as [rt nh ch nid ts]. simpl in *. destruct y. simpl in *. subst.
    rewrite (alter_some _ _ _ _ Hy). by rewrite !alter_insert_same.
Qed.

(** C24: a GET request that asks for the upgrade, names a registered namespace and
    comes over a connection that can be upgraded is answered 101 with the three headers
    of the WebSocket handshake, the accept key derived from its key; one task for it is
    spawned and recorded in the namespace, and nothing else changes. *)
Theorem requests_upgraded request k p n w y a
    (Hget : method request = "GET"%string) (Hask : asks_upgrade request k p)
    (Hn : namespaces (runtime w) !! p = Some n) (Hy : namespace_heap w !! n = Some y)
    (Hup : on_upgrade request = true) (Hlock : task_set_locked y = false)
    (Ha : from_str (derive_accept_key k) = Some a) :
  ∃ t w', goes (dispatch_request request) w [] (Ok {| status_code := 101;
      response_headers := [("connection"%string, String.list_byte_of_string "Upgrade");
        ("sec-websocket-accept"%string, a);
        ("upgrade"%string, String.list_byte_of_string "websocket")] |}) w' ∧
    with_upgrade_task n t request y w w'.
Proof.
  destruct (goes_upgrade n request w y Hy Hlock) as (t & w' & Hg & Hw). exists t, w'. split; [|done].
  destruct Hask as [H1 H2 H3 H4 H5]. unfold dispatch_request.
  rewrite bool_decide_eq_true_2 by done. cbn [negb].
  rewrite (proj2 (head_checks request)) by done. rewrite H4, H5. apply goes_get. rewrite Hn, Hup. cbn [negb].
  eapply goes_then; [exact Hg|]. rewrite Ha. apply goes_ret.
Qed.

(** C25: every other request is answered without a task and without any change: 405 if
    the method is not GET; 400 if it does not ask for a WebSocket upgrade of version
    13, has no readable key, or names no namespace; 404 if the namespace is not
    registered; 500 if the HTTP connection cannot be upgraded. *)
Theorem requests_rejected request w :
  (method request ≠ "GET"%string → goes (dispatch_request request) w [] (Ok (respond 405)) w) ∧
  (method request = "GET"%string →
   ((∀ k p, ¬ asks_upgrade request k p) → goes (dispatch_request request) w [] (Ok (respond 400)) w) ∧
   ∀ k p, asks_upgrade request k p →
   (namespaces (runtime w) !! p = None → goes (dispatch_request request) w [] (Ok (respond 404)) w) ∧
   (is_Some (namespaces (runtime w) !! p) → on_upgrade request = false →
    goes (dispatch_request request) w [] (Ok (respond 500)) w)).
Proof.
  unfold dispatch_request. split.
  { intros Hm. by rewrite bool_decide_eq_false_2. }
  intros Hm. rewrite bool_decide_eq_true_2 by done. cbn [negb]. split.
  - intros Hno. case_match eqn:E; [apply goes_ret|]. apply head_checks in E as (H1 & H2 & H3).
    destruct (get _ _ ≫= to_str) as [k|] eqn:H4; [|apply goes_ret].
    destruct (namespace_path request) as [p|] eqn:H5; [|apply goes_ret].
    by destruct (Hno k p).
  - intros k p [H1 H2 H3 H4 H5]. rewrite (proj2 (head_checks request)) by done. rewrite H4, H5. split.
    + intros Hn. apply goes_get. rewrite Hn. apply goes_ret.
    + intros [n Hn] Hup. apply goes_get. rewrite Hn, Hup. apply goes_ret.
Qed.

End request.

(** ** Witnesses *)
#[local] Existing Instances ref_types ref_cell ref_mpsc ref_crates.

#[local] Existing Instance ref_http.

Definition upgrade_request : Request := {|
  method := "GET"; uri := "/ws.io?namespace=/chat"; uri_path := "/ws.io"; query := Some "namespace=/chat"%string;
  request_headers := [("upgrade", String.list_byte_of_string "WebSocket");
    ("connection", String.list_byte_of_string "keep-alive");
    ("connection", String.list_byte_of_string "x, Upgrade ");
    ("sec-websocket-version", String.list_byte_of_string "13");
    ("sec-websocket-key", String.list_byte_of_string "key")]%string;
  on_upgrade := true |}.

Lemma upgrade_request_asks : asks_upgrade upgrade_request "key" "/chat".
Proof.
  assert (H : negb (check_header_value upgrade_request "upgrade" "websocket") ||
    negb (check_header_token upgrade_request "connection" "upgrade") ||
    negb (check_header_value upgrade_request "sec-websocket-version" "13") = false) by by vm_compute.
  apply head_checks in H as (H1 & H2 & H3). split; [done..| |]; by vm_compute.
Qed.

Lemma requests_upgraded_witness :
  ∃ t w' r, goes (dispatch_request upgrade_request) ready_server [] (Ok r) w' ∧ status_code r = 101 ∧
    tasks ready_server !! t = None.
Proof.
  destruct (namespace_heap ready_server !! 0) as [y|] eqn:Hy; [|by vm_compute in Hy].
  destruct (requests_upgraded upgrade_request "key" "/chat" 0 ready_server y
    (String.list_byte_of_string "key")) as (t & w' & Hg & Ht & _).
  - reflexivity.
  - exact upgrade_request_asks.
  - by vm_compute.
  - exact Hy.
  - reflexivity.
  - apply (field_of task_set_locked _ y _ Hy). by vm_compute.
  - reflexivity.
  - exists t, w'. eexists. split; [exact Hg|]. split; [reflexivity | exact Ht].
Defined.

Lemma requests_rejected_witness :
  goes (dispatch_request upgrade_request) (server_new (ServerBuilder.build [])) []
    (Ok (respond 404)) (server_new (ServerBuilder.build [])).
Proof.
  destruct (proj2 (requests_rejected upgrade_request (server_new (ServerBuilder.build []))) eq_refl) as [_ H].
  apply (H "key"%string "/chat"%string upgrade_request_asks). by vm_compute.
Defined.
