(* ===== verification/Tower.v ===== *)
(** * The tower adapter ([wsio-server/src/request_adapters/tower])

    A layer that puts the server in front of another service.  A tower service
    may be called only after its [poll_ready] has answered that it is ready, and
    that answer holds for this instance, not for its clones; so [call] takes the
    instance that was polled and leaves a clone behind. *)

From S2P Require Import Prelude Text Async Concurrent Extern ChannelCapacity Packet Codecs.
From S2P Require Import EventRegistry Extensions ServerConfig ServerState Connection Broadcast.
From S2P Require Import Namespace ServerRuntime RefServer Request.

(** What [poll_ready] answers: [None] while it is pending. *)
Abbreviation readiness := (option (result unit)).

Section tower.
Context `{T : Types} `{Cells : AtomicEnumCell} `{Chans : Mpsc} `{Crates : !SerdeCrates} `{H : Http}.

(** The inner service, whose [call] is [serve] here. *)
Class Service := {
  service : Type;
  clone : service → service;
  poll : service → service * readiness;
  serve : service → Request → srv Response;
}.
Context `{Inner : Service}.

(** [runtime] is the server's; its configuration does not change. *)
Record WsIoServerService := { inner : service; service_runtime : WsIoServerRuntime }.

Record WsIoServerLayer := { layer_runtime : WsIoServerRuntime }.

Definition service_new (inner : service) (rt : WsIoServerRuntime) : WsIoServerService :=
  {| inner := inner; service_runtime := rt |}.

Definition layer_new (rt : WsIoServerRuntime) : WsIoServerLayer := {| layer_runtime := rt |}.

Definition layer (self : WsIoServerLayer) (inner : service) : WsIoServerService :=
  service_new inner (layer_runtime self).

Definition poll_ready (self : WsIoServerService) : WsIoServerService * readiness :=
  ({| inner := (poll (inner self)).1; service_runtime := service_runtime self |}, (poll (inner self)).2).

(** [replace(&mut self.inner, inner)] *)
Definition replace_inner (self : WsIoServerService) (i : service) : WsIoServerService * service :=
  ({| inner := i; service_runtime := service_runtime self |}, inner self).

(** The future that [call] returns: of the server, or of the service it is given. *)
Inductive answering : Type :=
| Dispatched (request : Request)
| Served (s : service) (request : Request).

Definition future (a : answering) : srv Response :=
  match a with
  | Dispatched request => dispatch_request request
  | Served s request => serve s request
  end.

Definition call (self : WsIoServerService) (request : Request) : WsIoServerService * answering :=
  if bool_decide (uri_path request = request_path (rt_config (service_runtime self)))
  then (self, Dispatched request)
  else let i := clone (inner self) in
       let '(self, i) := replace_inner self i in (self, Served i request).

(** ** What a caller does *)
Inductive turn : Type := PollReady | Call (request : Request).

Definition is_call (t : turn) : bool := match t with Call _ => true | PollReady => false end.

Definition is_ready (r : readiness) : bool := match r with Some (Ok _) => true | _ => false end.

(** The rule of tower: a call only when the last poll since the last call was ready. *)
Fixpoint respects (polled : bool) (ts : list turn) (self : WsIoServerService) : bool :=
  match ts with
  | [] => true
  | PollReady :: ts => respects (is_ready (poll_ready self).2) ts (poll_ready self).1
  | Call request :: ts => polled && respects false ts (call self request).1
  end.

(** The futures it is given. *)
Fixpoint futures (ts : list turn) (self : WsIoServerService) : list answering :=
  match ts with
  | [] => []
  | PollReady :: ts => futures ts (poll_ready self).1
  | Call request :: ts => (call self request).2 :: futures ts (call self request).1
  end.

(** [s] is what a poll has left that answered ready. *)
Definition polled_ready (s : service) : Prop := ∃ s0 r, poll s0 = (s, r) ∧ is_ready r = true.

(** The request path of the server is its own, and the others go to instances of
    the inner service that may be called. *)
Definition well_placed (path : string) (a : answering) : Prop :=
  match a with
  | Dispatched request => uri_path request = path
  | Served s request => uri_path request ≠ path ∧ polled_ready s
  end.

Lemma call_runtime self request : service_runtime (call self request).1 = service_runtime self.
Proof. unfold call. by case_bool_decide. Qed.

Lemma futures_placed ts polled self :
  (polled = true → polled_ready (inner self)) → respects polled ts self = true →
  Forall (well_placed (request_path (rt_config (service_runtime self)))) (futures ts self).
Proof.
  revert polled self. induction ts as [|[|request] ts IH]; intros polled self Hp Hr; simpl in *.
  - constructor.
  - apply (IH _ _) in Hr; [done|]. intros Hb. exists (inner self), (poll (inner self)).2.
    split; [by destruct (poll _) | done].
  - apply andb_true_iff in Hr as [-> Hr]. constructor.
    + unfold call. case_bool_decide; simpl; [done|]. split; [done | by apply Hp].
    + rewrite <-(call_runtime self request). by apply (IH false).
Qed.

(** C26: the service the layer makes, driven by any caller that keeps to the rule of tower, call
    only when ready.  Every request with the request path of the server is answered by
    the server; every other one by the inner service, and always by the very instance
    that the last poll has made ready, never by a clone of it.  As many futures are
    returned as there are calls. *)
Theorem tower_contract rt i ts (Hr : respects false ts (layer (layer_new rt) i) = true) :
  Forall (well_placed (request_path (rt_config rt))) (futures ts (layer (layer_new rt) i)) ∧
  length (futures ts (layer (layer_new rt) i)) = length (List.filter is_call ts).
Proof.
  split; [by apply (futures_placed ts false (layer (layer_new rt) i))|]. clear Hr.
  generalize (layer (layer_new rt) i) as self.
  induction ts as [|[|request] ts IH]; intros self; [done|..]; simpl; [apply IH | f_equal; apply IH].
Qed.
End tower.

(** ** Witness *)
#[local] Existing Instances ref_types ref_cell ref_mpsc ref_crates ref_http.

(** A service that may be called when it is [true]; its clones must be polled first. *)
Definition teapot : Service := {|
  service := bool; clone _ := false; poll s := (true, if s then Some (Ok tt) else None);
  serve _ _ := Ret (respond 418) |}.

Definition other_request : Request := {|
  method := "GET"; uri := "/tea"; uri_path := "/tea"; query := None; request_headers := []; on_upgrade := false |}.

Definition turns : list turn :=
  [PollReady; PollReady; Call other_request; PollReady; PollReady; Call upgrade_request].

#[local] Existing Instance teapot.

Definition instance (b : bool) : @service _ _ _ teapot := b.

Definition tea_server : WsIoServerService := layer (layer_new (runtime ready_server)) (instance false).

Lemma tower_contract_witness :
  Forall (well_placed "/ws.io") (futures turns tea_server) ∧ length (futures turns tea_server) = 2.
Proof. apply (tower_contract (runtime ready_server) (instance false) turns). by vm_compute. Defined.

Example tea_served :
  futures turns tea_server = [Served (instance true) other_request; Dispatched upgrade_request] ∧
  inner tea_server = (instance false) ∧ inner (call tea_server other_request).1 = (instance false).
Proof. by vm_compute. Qed.
