(* ===== verification/Streams.v ===== *)
(** * The reader and the writer of a connection

    How the loops over frames end: the writer sends what is queued, in order, up
    to a close frame or an error, and then drops its receiver; the reader
    handles frame after frame until one ends it. *)

From S2P Require Import Prelude Text Async Concurrent Extern ChannelCapacity Packet Codecs.
From S2P Require Import EventRegistry Extensions ServerConfig ServerState Connection Broadcast.
From S2P Require Import Namespace ServerRuntime RunServer RefServer.

Section server.
Context `{T : Types} `{Cells : AtomicEnumCell} `{Chans : Mpsc} `{Crates : !SerdeCrates}.
Implicit Types (w : Server) (x : WsIoServerConnection).

(** [w'] is [w] but for the channel of the connection [c]. *)
Definition rechannelled (c : nat) (x : WsIoServerConnection) (ch : chan Message) w w' : Prop :=
  w' = w .[ connection_heap := <[c := x .[ message_tx := ch ]]> (connection_heap w) ].

Lemma goes_recv c w x m ms :
  connection_heap w !! c = Some x → chan_items (message_tx x) = m :: ms →
  ∃ ch, chan_items ch = ms ∧
    goes (recv c) w [] (Ok (Some m)) (w .[ connection_heap := <[c := x .[ message_tx := ch ]]> (connection_heap w) ]).
Proof.
  intros Hx Hms. pose proof (chan_try_recv_spec (message_tx x)) as Hr.
  destruct (chan_try_recv (message_tx x)) as [ch o] eqn:E. destruct Hr as (_ & _ & Ho & Hit).
  rewrite Hms in Ho, Hit. simpl in Ho, Hit. subst o. exists ch. split; [done|].
  eapply goes_atom; [by rewrite Hx, E|]. rewrite Hx. simpl. rewrite E. unfold conn_set.
  replace (alter _ c (connection_heap w)) with (<[c := x .[ message_tx := ch ]]> (connection_heap w));
    [apply goes_ret|]. symmetry. rewrite (alter_some _ _ _ _ Hx). by rewrite E.
Qed.

Lemma goes_drop c w x :
  connection_heap w !! c = Some x →
  ∃ ch w', chan_closed ch = true ∧ rechannelled c x ch w w' ∧ goes (drop_receiver c) w [] (Ok tt) w'.
Proof.
  intros Hx. exists (chan_close (message_tx x)). eexists. split; [apply (chan_close_spec (message_tx x))|]. split; [done|].
  eapply goes_atom; [|apply goes_ret]. unfold conn_set. by rewrite (alter_some _ _ _ _ Hx).
Qed.

Lemma rechannelled_again c x ch1 ch2 w w' :
  rechannelled c (x .[ message_tx := ch1 ]) ch2
    (w .[ connection_heap := <[c := x .[ message_tx := ch1 ]]> (connection_heap w) ]) w' →
  rechannelled c x ch2 w w'.
Proof. intros ->. unfold rechannelled. destruct w. unfold update. simpl. by rewrite insert_insert_eq. Qed.

(** The sends of a list of messages that all succeed. *)
Definition sends (c : nat) (ms : list Message) : list (label * reply) :=
  (λ m, (WsSend (Some c) m, RUnit (Ok tt))) <$> ms.

(** An answer that a message was not sent. *)
Definition unsent (r : reply) : Prop := match r with RUnit (Ok _) => False | _ => True end.

Lemma writer_step c m ms w x fuel :
  connection_heap w !! c = Some x → chan_items (message_tx x) = m :: ms →
  ∃ ch, chan_items ch = ms ∧
    let w1 := w .[ connection_heap := <[c := x .[ message_tx := ch ]]> (connection_heap w) ] in
    (m ≠ Close → ∀ tr r w', goes (write_ws_stream_task fuel c) w1 tr r w' →
      goes (write_ws_stream_task (S fuel) c) w ((WsSend (Some c) m, RUnit (Ok tt)) :: tr) r w') ∧
    (∀ r tr r' w', unsent r → goes (drop_receiver c) w1 tr r' w' →
      goes (write_ws_stream_task (S fuel) c) w ((WsSend (Some c) m, r) :: tr) r' w') ∧
    (m = Close → ∀ r tr r' w', goes (drop_receiver c) w1 tr r' w' →
      goes (write_ws_stream_task (S fuel) c) w
        ((WsSend (Some c) m, RUnit (Ok tt)) :: (WsClose (Some c), r) :: tr) r' w').
Proof.
  intros Hx Hms. destruct (goes_recv c w x m ms Hx Hms) as (ch & Hit & Hg).
  exists ch. split; [done|]. split_and!.
  - intros Hm tr r w' Hw. eapply goes_then; [exact Hg|]. apply goes_await. by rewrite decide_False.
  - intros r tr r' w' Hr Hw. eapply goes_then; [exact Hg|]. apply goes_await. by destruct r as [[]| | | | | |].
  - intros Hm r tr r' w' Hw. eapply goes_then; [exact Hg|]. apply goes_await. rewrite decide_True by done.
    by apply goes_await.
Qed.

(** C29: the writer of a connection, given enough turns.  With a close frame in the queue it sends
    every message before it, in order, then the frame, closes the stream whatever that
    answers, sends nothing that was queued later, drops its receiver, and returns.  If a
    message cannot be sent it drops its receiver and returns at once.  Only the channel
    of the connection changes. *)
Theorem writer_drains c ms rest w x fuel (Hx : connection_heap w !! c = Some x)
    (Hno : Close ∉ ms) (Hfuel : length ms < fuel) :
  (chan_items (message_tx x) = ms ++ Close :: rest → ∀ r, ∃ ch w',
    goes (write_ws_stream_task fuel c) w (sends c (ms ++ [Close]) ++ [(WsClose (Some c), r)]) (Ok tt) w' ∧
    chan_closed ch = true ∧ rechannelled c x ch w w') ∧
  (∀ m r, chan_items (message_tx x) = ms ++ m :: rest → unsent r → ∃ ch w',
    goes (write_ws_stream_task fuel c) w (sends c ms ++ [(WsSend (Some c) m, r)]) (Ok tt) w' ∧
    chan_closed ch = true ∧ rechannelled c x ch w w').
Proof.
  revert w x fuel Hx Hfuel. induction ms as [|m' ms IH]; intros w x fuel Hx Hfuel;
    (destruct fuel as [|fuel]; [simpl in *; lia|]).
  - split.
    + intros Hit r. destruct (writer_step c Close rest w x fuel Hx Hit) as (ch & _ & _ & _ & Hend).
      destruct (goes_drop c (w .[ connection_heap := <[c := x .[ message_tx := ch ]]> (connection_heap w) ])
        (x .[ message_tx := ch ])) as (ch' & w' & Hcl & Hw & Hg); [apply lookup_insert_eq|].
      exists ch', w'. split; [by apply Hend|]. split; [done|]. by eapply rechannelled_again.
    + intros m r Hit Hr. destruct (writer_step c m rest w x fuel Hx Hit) as (ch & _ & _ & Herr & _).
      destruct (goes_drop c (w .[ connection_heap := <[c := x .[ message_tx := ch ]]> (connection_heap w) ])
        (x .[ message_tx := ch ])) as (ch' & w' & Hcl & Hw & Hg); [apply lookup_insert_eq|].
      exists ch', w'. split; [by apply Herr|]. split; [done|]. by eapply rechannelled_again.
  - apply not_elem_of_cons in Hno as [Hm Hno].
    assert (Hstep : ∀ l, chan_items (message_tx x) = m' :: ms ++ l → ∃ ch, chan_items ch = ms ++ l ∧
      ∀ tr r w', goes (write_ws_stream_task fuel c)
          (w .[ connection_heap := <[c := x .[ message_tx := ch ]]> (connection_heap w) ]) tr r w' →
        goes (write_ws_stream_task (S fuel) c) w ((WsSend (Some c) m', RUnit (Ok tt)) :: tr) r w').
    { intros l Hit. destruct (writer_step c m' (ms ++ l) w x fuel Hx Hit) as (ch & Hch & Hgo & _).
      exists ch. split; [done|]. by apply Hgo. }
    assert (Hrec : ∀ ch, let w1 := w .[ connection_heap := <[c := x .[ message_tx := ch ]]> (connection_heap w) ] in
      connection_heap w1 !! c = Some (x .[ message_tx := ch ])) by (intros ch; apply lookup_insert_eq).
    split.
    + intros Hit r. destruct (Hstep (Close :: rest)) as (ch & Hch & Hgo); [done|].
      destruct (IH Hno _ _ fuel (Hrec ch)) as [H1 _]; [simpl in *; lia|].
      destruct (H1 Hch r) as (ch' & w' & Hg & Hcl & Hw). exists ch', w'.
      split; [by apply Hgo|]. split; [done|]. by eapply rechannelled_again.
    + intros m r Hit Hr. destruct (Hstep (m :: rest)) as (ch & Hch & Hgo); [done|].
      destruct (IH Hno _ _ fuel (Hrec ch)) as [_ H2]; [simpl in *; lia|].
      destruct (H2 m r Hch Hr) as (ch' & w' & Hg & Hcl & Hw). exists ch', w'.
      split; [by apply Hgo|]. split; [done|]. by eapply rechannelled_again.
Qed.

(** The frames [fs] are read one after the other, and none ends the reader. *)
Inductive reading (c : nat) : list (option Message) → Server → list (label * reply) → Server → Prop :=
| reading_nil w : reading c [] w [] w
| reading_cons f fs w tr1 w1 tr2 w2 :
    goes (read_turn c f) w tr1 (Ok true) w1 → reading c fs w1 tr2 w2 →
    reading c (f :: fs) w ((WsNext c, RFrame f) :: tr1 ++ tr2) w2.

(** The frames that end a reader: the end of the stream or an error, a close frame,
    and a packet that is answered with an error. *)
Inductive ends_reader (c : nat) : option Message → Server → list (label * reply) → Server → Prop :=
| ends_none w : ends_reader c None w [] w
| ends_close w : ends_reader c (Some Close) w [] w
| ends_text b w tr e w' :
    goes (handle_incoming_packet c b) w tr (Err e) w' → ends_reader c (Some (Text b)) w tr w'
| ends_binary b w tr e w' : length b ≠ 1 →
    goes (handle_incoming_packet c b) w tr (Err e) w' → ends_reader c (Some (Binary b)) w tr w'.

Lemma turn_attempt c b w tr r w' :
  goes (handle_incoming_packet c b) w tr r w' →
  goes (r <- attempt (handle_incoming_packet c b) ;; Ret (is_ok r)) w tr (Ok (is_ok r)) w'.
Proof. intros Hg. rewrite <-(app_nil_r tr). eapply goes_bind; [by apply goes_attempt | apply goes_ret]. Qed.

Lemma turn_ends c f w tr w' : ends_reader c f w tr w' → goes (read_turn c f) w tr (Ok false) w'.
Proof.
  destruct 1 as [w|w|b w tr e w' Hg|b w tr e w' Hb%Nat.eqb_neq Hg]; [apply goes_ret | apply goes_ret | |].
  - exact (turn_attempt c b w tr (Err e) w' Hg).
  - unfold read_turn. rewrite Hb. exact (turn_attempt c b w tr (Err e) w' Hg).
Qed.

Lemma turn_failed c b w tr w' :
  goes (r <- attempt (handle_incoming_packet c b) ;; Ret (is_ok r)) w tr (Ok false) w' →
  ∃ e, goes (handle_incoming_packet c b) w tr (Err e) w'.
Proof.
  intros [(e & _ & ?)|(r & t1 & t2 & w1 & Ha & Hr & ->)]%goes_bind_inv; [done|].
  apply goes_ret_inv in Hr as (-> & Hr & ->). apply goes_attempt_inv in Ha as (r' & [= <-] & Ha).
  rewrite app_nil_r. destruct r as [|e]; [done | by exists e].
Qed.

Lemma turn_ends_inv c f w tr w' : goes (read_turn c f) w tr (Ok false) w' → ends_reader c f w tr w'.
Proof.
  unfold read_turn. intros Hg. destruct f as [[b|b|b|b| |b]|].
  - apply turn_failed in Hg as [e Hg]. by econstructor.
  - destruct (length b =? 1) eqn:Hb; [by apply goes_ret_inv in Hg as (_ & ? & _)|].
    apply turn_failed in Hg as [e Hg]. apply Nat.eqb_neq in Hb. by econstructor.
  - by apply goes_ret_inv in Hg as (_ & ? & _).
  - by apply goes_ret_inv in Hg as (_ & ? & _).
  - apply goes_ret_inv in Hg as (-> & _ & ->). constructor.
  - by apply goes_ret_inv in Hg as (_ & ? & _).
  - apply goes_ret_inv in Hg as (-> & _ & ->). constructor.
Qed.

(** C30: the reader of a connection, given more turns than frames that it survives, handles them
    one after the other and returns with the first frame that ends it: the end of the
    stream, a close frame, or a packet whose handling is an error.  No other frame ends
    it: a packet that is handled well, a heartbeat, a ping or a pong. *)
Theorem reader_ends c fs f w tr w1 trf w2 fuel
    (Hread : reading c fs w tr w1) (Hend : ends_reader c f w1 trf w2) (Hfuel : length fs < fuel) :
  goes (read_ws_stream_task fuel c) w (tr ++ (WsNext c, RFrame f) :: trf) (Ok tt) w2 ∧
  ∀ g w3 tr3 w4, goes (read_turn c g) w3 tr3 (Ok false) w4 → ends_reader c g w3 tr3 w4.
Proof.
  split.
  - revert fuel Hfuel. induction Hread as [w|g fs w tr1 w1 tr2 w2' Hg _ IH]; intros fuel Hfuel;
      (destruct fuel as [|fuel]; [simpl in *; lia|]); cbn [read_ws_stream_task].
    + apply goes_await. rewrite <-(app_nil_r trf). eapply goes_bind; [by apply turn_ends | apply goes_ret].
    + simpl. apply goes_await. rewrite <-app_assoc. eapply goes_bind; [exact Hg|].
      apply IH; [done | simpl in *; lia].
  - intros g w3 tr3 w4. apply turn_ends_inv.
Qed.
End server.

(** ** Witnesses *)
#[local] Existing Instances ref_types ref_cell ref_mpsc ref_crates.

(** The init packet has been queued; the connection is closed. *)
Definition closing_server : Server := after [] (Connection.close 0) awaiting.

Lemma writer_drains_witness :
  ∃ m w', goes (write_ws_stream_task 5 0) closing_server
    (sends 0 ([m] ++ [Close]) ++ [(WsClose (Some 0), ok_unit)]) (Ok tt) w'.
Proof.
  destruct (connection_heap closing_server !! 0) as [x|] eqn:Hx; [|by vm_compute in Hx].
  assert (chan_items (message_tx x) = [Text (Byte.x02 :: Byte.x00 :: put_opt (Some (String.list_byte_of_string "hello")))] ++ [Close]) as Hit
    by (apply (field_of (λ x, chan_items (message_tx x)) _ x _ Hx); by vm_compute).
  destruct (writer_drains 0 [Text (Byte.x02 :: Byte.x00 :: put_opt (Some (String.list_byte_of_string "hello")))] []
    closing_server x 5 Hx) as [H _].
  - intros Hc%list_elem_of_singleton. discriminate.
  - simpl. lia.
  - destruct (H Hit ok_unit) as (ch & w' & Hg & _). eexists. exists w'. exact Hg.
Defined.

Lemma reader_ends_witness :
  goes (read_ws_stream_task 3 0) ready_server
    [(WsNext 0, RFrame (Some (Binary [Byte.x01]))); (WsNext 0, RFrame None)] (Ok tt) ready_server.
Proof.
  apply (reader_ends 0 [Some (Binary [Byte.x01])] None ready_server
    [(WsNext 0, RFrame (Some (Binary [Byte.x01])))] ready_server [] ready_server 3).
  - exact (reading_cons 0 (Some (Binary [Byte.x01])) [] ready_server [] ready_server [] ready_server
      (goes_ret true ready_server) (reading_nil 0 ready_server)).
  - constructor.
  - simpl. lia.
Defined.
