(* ===== verification/Closing.v ===== *)
(** * Closing a connection

    [close], the watchdog of the handshake, and [cleanup], which releases
    everything a connection holds. *)

From S2P Require Import Prelude Async Concurrent Extern ChannelCapacity Packet Codecs.
From S2P Require Import EventRegistry Extensions ServerConfig ServerState Connection Broadcast.
From S2P Require Import Namespace ServerRuntime RunServer RefServer Rooms.

Section closing.
Context `{T : Types} `{Cells : AtomicEnumCell} `{Chans : Mpsc} `{Crates : !SerdeCrates}.

(** The connection after the last step of [cleanup]: the lock was free before. *)
Lemma unlock_conn (x : WsIoServerConnection) :
  on_close_locked x = false →
  x .[ state := cell_store (state x) Closing ] .[ joined_rooms := ∅ ] .[ init_timeout_task := None ]
    .[ cancelled := true ] .[ on_close_locked := true ] .[ on_close_handler := None ]
    .[ on_close_locked := false ]
    .[ state := cell_store (cell_store (state x) Closing) Closed ] =
  x .[ state := cell_store (cell_store (state x) Closing) Closed ] .[ joined_rooms := ∅ ]
    .[ init_timeout_task := None ] .[ cancelled := true ] .[ on_close_handler := None ].
Proof. destruct x. intros Hlock. cbn in Hlock. subst. reflexivity. Qed.

Section one.
Context (c : nat) (w : Server) (x : WsIoServerConnection).
Context (Hx : connection_heap w !! c = Some x).

(** What [close] does to a connection that is not closing yet. *)
Definition closed_by_close (x' : WsIoServerConnection) : Prop :=
  let full := bool_decide (chan_cap (message_tx x) ≤ length (chan_items (message_tx x))) in
  cell_get (state x') = Closing ∧
  chan_items (message_tx x') = chan_items (message_tx x) ++
    (if chan_closed (message_tx x) || full then [] else [Close]) ∧
  x' = x .[ state := state x' ] .[ message_tx := message_tx x' ].

Definition ending (s : ConnectionState) : bool :=
  match s with Closing | Closed => true | _ => false end.

Lemma goes_close :
  (ending (cell_get (state x)) = true ∧ goes (Connection.close c) w [] (Ok tt) w) ∨
  (ending (cell_get (state x)) = false ∧ ∃ x', closed_by_close x' ∧
    goes (Connection.close c) w [] (Ok tt)
      (w .[ connection_heap := <[c := x']> (connection_heap w) ])).
Proof.
  destruct (ending (cell_get (state x))) eqn:He; [left|right]; (split; [done|]).
  - eapply goes_conn_get; [done|]. by destruct (cell_get (state x)).
  - exists (x .[ state := cell_store (state x) Closing ]
              .[ message_tx := (chan_try_send (message_tx x) Close).1 ]).
    split.
    + pose proof (chan_try_send_spec (message_tx x) Close) as Hc. cbv zeta in Hc.
      destruct (chan_try_send (message_tx x) Close) as [ch r] eqn:E.
      destruct Hc as (_ & _ & Hit & _). split_and!; simpl; rewrite ?E; [apply cell_get_store | | done].
      rewrite Hit. simpl. destruct (chan_closed (message_tx x) || _); by rewrite ?app_nil_r.
    + eapply goes_conn_get; [done|].
      assert (goes (state_store c Closing ;; try_send_close c) w [] (Ok tt)
        (w .[ connection_heap := <[c := x .[ state := cell_store (state x) Closing ]
           .[ message_tx := (chan_try_send (message_tx x) Close).1 ]]> (connection_heap w) ])) as Hg.
      { apply goes_state_store. eapply goes_atom; [|apply goes_ret]. f_equal.
        unfold conn_set, update. simpl. by rewrite (alter_some _ _ _ _ Hx), alter_insert_same. }
      by destruct (cell_get (state x)).
Qed.

(** [close] takes a connection in any other state to [Closing] and puts one close frame
    at the end of its queue if there is room; a second [close], and one of a
    connection already closing or closed, does nothing. *)
Theorem close_once :
  ∃ w', goes (Connection.close c) w [] (Ok tt) w' ∧
    goes (Connection.close c) w' [] (Ok tt) w' ∧
    (ending (cell_get (state x)) = true → w' = w) ∧
    (ending (cell_get (state x)) = false → ∃ x', closed_by_close x' ∧
       w' = w .[ connection_heap := <[c := x']> (connection_heap w) ]).
Proof.
  destruct goes_close as [[He Hg]|(He & x' & Hx' & Hg)].
  - exists w. split_and!; [done..| |]; congruence.
  - eexists. split; [exact Hg|]. split; [|split; [congruence|by exists x']].
    eapply goes_conn_get; [apply lookup_insert_eq|]. by rewrite (proj1 Hx').
Qed.

(** When the time for the client's answer is over, the watchdog closes a connection
    that still waits for it, as [close] does, and leaves any other alone. *)
Theorem watchdog_closes y (Hy : namespace_heap w !! namespace x = Some y) :
  let timer := (Sleep (ns_init_response_timeout (config y)), RUnit (Ok tt)) in
  (cell_get (state x) ≠ AwaitingInit → goes (init_watchdog c) w [timer] (Ok tt) w) ∧
  (cell_get (state x) = AwaitingInit → ∃ x', closed_by_close x' ∧
     goes (init_watchdog c) w [timer] (Ok tt)
       (w .[ connection_heap := <[c := x']> (connection_heap w) ])).
Proof.
  cbv zeta. split; intros Hs.
  - eapply goes_conn_get; [done|]. eapply goes_ns_get; [done|]. apply goes_await.
    eapply goes_conn_get; [done|]. rewrite cell_is_spec. by rewrite bool_decide_false.
  - destruct goes_close as [[He Hg]|(He & x' & Hx' & Hg)]; [by rewrite Hs in He|].
    exists x'. split; [done|].
    eapply goes_conn_get; [done|]. eapply goes_ns_get; [done|]. apply goes_await.
    eapply goes_conn_get; [done|]. rewrite cell_is_spec. by rewrite bool_decide_true.
Qed.

(** ** [cleanup] *)

(** The connection and the namespace after [cleanup]. *)
Definition released_conn (s : cell ConnectionState) : WsIoServerConnection :=
  x .[ state := s ] .[ joined_rooms := ∅ ] .[ init_timeout_task := None ] .[ cancelled := true ]
    .[ on_close_handler := None ].

Definition released_ns (y : WsIoServerNamespace) : WsIoServerNamespace :=
  y .[ connections := delete (id x) (connections y) ]
    .[ connection_ids := connection_ids y ∖ {[id x]} ]
    .[ rooms := foldl (λ m r, drop_id (id x) r m) (rooms y) (elements (joined_rooms x)) ].

(** The close handler's call and its answer, an error and a time-out included. *)
Definition close_call (tr : list (label * reply)) : Prop :=
  match on_close_handler x with
  | None => tr = []
  | Some h => tr = [(Handler c h None, RElapsed)] ∨ ∃ r, tr = [(Handler c h None, RUnit r)]
  end.

Definition released (w' : Server) : Prop :=
  ∃ s, cell_get s = Closed ∧
    connection_heap w' = <[c := released_conn s]> (connection_heap w) ∧
    (∀ y, namespace_heap w !! namespace x = Some y →
       namespace_heap w' = <[namespace x := released_ns y]> (namespace_heap w)) ∧
    runtime w' = (runtime w) .[ rt_connection_ids := rt_connection_ids (runtime w) ∖ {[id x]} ] ∧
    tasks w' = match init_timeout_task x with Some i => delete i (tasks w) | None => tasks w end.

Lemma goes_drop_rooms n i l w1 :
  goes (seq_all (λ r, remove_connection_id_from_room n r i) l) w1 [] (Ok tt)
    (set_rooms n (λ m, foldl (λ m r, drop_id i r m) m l) w1).
Proof.
  revert w1. induction l as [|r l IH]; intros w1; cbn [seq_all foldl].
  - replace (set_rooms n (λ m, m) w1) with w1; [apply goes_ret|].
    unfold set_rooms, ns_set, update. destruct w1. simpl. rewrite alter_id; [done | by intros []].
  - eapply goes_then; [apply goes_remove_room|].
    replace (set_rooms n (λ m, foldl (λ m r, drop_id i r m) (drop_id i r m) l) w1) with
      (set_rooms n (λ m, foldl (λ m r, drop_id i r m) m l) (set_rooms n (drop_id i r) w1)); [apply IH|].
    unfold set_rooms. by rewrite set_set_ns.
Qed.

(** The steps of [cleanup] before the close handler, ... *)
Definition untabled : Server :=
  conn_set c (λ x, x .[ joined_rooms := ∅ ])
    (set_rooms (namespace x)
       (λ m, foldl (λ m r, drop_id (id x) r m) m (elements (joined_rooms x)))
       (table_remove (namespace x) (id x)
         (conn_set c (λ x, x .[ state := cell_store (state x) Closing ]) w))).

Definition before_handler : Server :=
  conn_set c (λ x, x .[ on_close_handler := None ])
    (conn_set c (λ x, x .[ on_close_locked := true ])
      (conn_set c (λ x, x .[ cancelled := true ]) (abort_watchdog c untabled))).

(** ... and all of them. *)
Definition after_handler : Server :=
  conn_set c (λ x, x .[ state := cell_store (state x) Closed ])
    (conn_set c (λ x, x .[ on_close_locked := false ]) before_handler).

Definition untabled_conn : WsIoServerConnection :=
  x .[ state := cell_store (state x) Closing ] .[ joined_rooms := ∅ ].

Lemma untabled_heap :
  connection_heap untabled = <[c := untabled_conn]> (connection_heap w).
Proof.
  apply conn_set_insert.
  exact (conn_set_first c (λ x, x .[ state := cell_store (state x) Closing ]) w x Hx).
Qed.

Lemma untabled_lookup : connection_heap untabled !! c = Some untabled_conn.
Proof. rewrite untabled_heap. apply lookup_insert_eq. Qed.

Lemma watchdog_heap :
  connection_heap (abort_watchdog c untabled) =
    <[c := untabled_conn .[ init_timeout_task := None ]]> (connection_heap w).
Proof.
  rewrite (proj1 (abort_watchdog_spec _ _ _ untabled_lookup)), untabled_heap.
  apply insert_insert_eq.
Qed.

Lemma goes_cleanup tr :
  on_close_locked x = false → close_call tr → goes (cleanup c) w tr (Ok tt) after_handler.
Proof.
  intros Hlock Htr. unfold cleanup. apply goes_state_store.
  pose proof (conn_set_same c (λ x, x .[ state := cell_store (state x) Closing ]) w x Hx) as H1.
  eapply goes_conn_get; [exact H1|]. eapply goes_conn_get; [exact H1|].
  eapply goes_then; [apply goes_remove_connection|].
  eapply goes_conn_get; [exact H1|].
  eapply goes_then; [apply goes_drop_rooms|]. apply goes_conn_upd.
  eapply goes_then; [apply goes_abort_locked_task|]. apply goes_conn_upd. fold untabled.
  pose proof (conn_set_insert c (λ x, x .[ cancelled := true ]) _ _ _ watchdog_heap) as H2.
  set (w1 := conn_set c (λ x, x .[ cancelled := true ]) _) in *.
  assert (H3 := H2). apply (f_equal (lookup c)) in H3. rewrite lookup_insert_eq in H3.
  eapply goes_then.
  { apply goes_block. rewrite H3. 
    match goal with |- (if ?b then _ else _) = _ => assert (b = false) as -> by exact Hlock end.
    reflexivity. }
  pose proof (conn_set_insert c (λ x, x .[ on_close_locked := true ]) _ _ _ H2) as H4.
  apply (f_equal (lookup c)) in H4. rewrite lookup_insert_eq in H4.
  eapply (goes_then _ _ _ (on_close_handler x)).
  { eapply goes_atom; [done|]. rewrite H4. apply goes_ret. }
  assert (goes (unlock_on_close c ;; state_store c Closed) before_handler [] (Ok tt) after_handler) as Hlast.
  { apply goes_conn_upd. apply goes_modify. }
  unfold close_call in Htr. destruct (on_close_handler x) as [h|]; [|subst; by eapply goes_then].
  rewrite <-(app_nil_r tr). eapply goes_bind; [|exact Hlast].
  destruct Htr as [->|[r ->]]; eapply goes_ignore;
    [apply goes_unit_handler_elapsed | apply goes_unit_handler].
Qed.

Lemma after_handler_released : on_close_locked x = false → released after_handler.
Proof.
  intros Hlock. exists (cell_store (cell_store (state x) Closing) Closed).
  destruct (abort_watchdog_spec _ _ _ untabled_lookup) as (_ & Hn & Hr & _ & Ht).
  assert (H5 : connection_heap before_handler = <[c := untabled_conn .[ init_timeout_task := None ]
    .[ cancelled := true ] .[ on_close_locked := true ] .[ on_close_handler := None ]]> (connection_heap w)).
  { do 3 (eapply (conn_set_insert c)). exact watchdog_heap. }
  split; [apply cell_get_store|]. split_and!.
  - unfold after_handler. rewrite (conn_set_insert _ _ _ _ _ (conn_set_insert _ _ _ _ _ H5)).
    f_equal. by apply unlock_conn.
  - intros y Hy. change (namespace_heap after_handler) with (namespace_heap (abort_watchdog c untabled)).
    rewrite Hn. change (namespace_heap untabled) with (namespace_heap (set_rooms (namespace x)
       (λ m, foldl (λ m r, drop_id (id x) r m) m (elements (joined_rooms x)))
       (table_remove (namespace x) (id x) w))).
    unfold set_rooms, table_remove. rewrite set_set_ns.
    refine (eq_trans (ns_set_insert _ _ _ _ _ (_ : namespace_heap (rt_set _ _) = _)) _).
    + apply (ns_set_first _ (λ y, y .[ connections := delete (id x) (connections y) ])). exact Hy.
    + reflexivity.
  - change (runtime after_handler) with (runtime (abort_watchdog c untabled)). by rewrite Hr.
  - change (tasks after_handler) with (tasks (abort_watchdog c untabled)). by rewrite Ht.
Qed.

(** C22: [cleanup] of a connection in any state: its close handler is taken out and
    called once, whatever it answers; the connection ends [Closed], with its
    watchdog aborted, its tasks cancelled and no room; its id is in no table of
    the namespace or the runtime and in no room; the rooms stay consistent; and
    everything else is as it was ([released] gives the exact state). *)
Theorem cleanup_releases y tr (Hy : namespace_heap w !! namespace x = Some y) (Hok : rooms_ok w)
    (Hlock : on_close_locked x = false) (Htr : close_call tr) :
  ∃ w' y', goes (cleanup c) w tr (Ok tt) w' ∧ released w' ∧ rooms_ok w' ∧
    namespace_heap w' !! namespace x = Some y' ∧ connections y' !! id x = None ∧
    id x ∉ connection_ids y' ∧ id x ∉ rt_connection_ids (runtime w') ∧
    ∀ r, id x ∉ members (rooms y') r.
Proof.
  destruct (after_handler_released Hlock) as (s & Hs & Hc & Hn & Hr & Ht).
  assert (Hno : ∀ r, id x ∉ members (rooms (released_ns y)) r).
  { intros r. simpl. rewrite members_drop_all, elem_of_elements.
    rewrite (own_room c w x y Hx Hy) by done. tauto. }
  exists after_handler, (released_ns y). split_and!; try done.
  - by apply goes_cleanup.
  - by exists s.
  - apply (rooms_ok_update c w x y Hx Hy ∅ (rooms (released_ns y)) _ (released_conn s) (released_ns y));
      try done; [by apply Hn | apply no_empty_drop_all; by apply (rooms_no_empty _ Hok _ _ Hy)|].
    intros r i. case_decide as Hi; [subst i; set_solver|].
    simpl. rewrite members_drop_all. naive_solver.
  - rewrite (Hn _ Hy). apply lookup_insert_eq.
  - apply lookup_delete_eq.
  - simpl. set_solver.
  - rewrite Hr. simpl. set_solver.
Qed.
End one.
End closing.

(** ** Witnesses *)
#[local] Existing Instances ref_types ref_cell ref_mpsc ref_crates.

Lemma close_once_witness :
  ∃ w', goes (Connection.close 0) ready_server [] (Ok tt) w' ∧
    goes (Connection.close 0) w' [] (Ok tt) w'.
Proof.
  destruct (connection_heap ready_server !! 0) as [x|] eqn:Hx; [|by vm_compute in Hx].
  destruct (close_once 0 ready_server x Hx) as (w' & H1 & H2 & _).
  exists w'. split; [exact H1 | exact H2].
Defined.

Lemma watchdog_closes_witness :
  ∃ w', goes (init_watchdog 0) awaiting [(Sleep (from_secs 5), RUnit (Ok tt))] (Ok tt) w'.
Proof.
  destruct (connection_heap awaiting !! 0) as [x|] eqn:Hx; [|by vm_compute in Hx].
  assert (namespace x = 0) as Hn by (apply (field_of namespace _ x _ Hx); by vm_compute).
  destruct (namespace_heap awaiting !! 0) as [y|] eqn:Hy; [|by vm_compute in Hy].
  rewrite <-Hn in Hy.
  destruct (proj2 (watchdog_closes 0 awaiting x Hx y Hy)) as (x' & _ & Hgo).
  - apply (field_of (λ x, cell_get (state x)) _ x _ Hx). by vm_compute.
  - eexists. rewrite Hn in Hy.
    assert (ns_init_response_timeout (config y) = from_secs 5) as E
      by (apply (field_of (λ y, ns_init_response_timeout (config y)) _ y _ Hy); by vm_compute).
    rewrite E in Hgo. exact Hgo.
Defined.

(** A ready connection with a close handler, which fails. *)
Definition with_close_handler : Server := after [] (on_close 0 "bye") ready_server.

Lemma cleanup_releases_witness :
  ∃ w', goes (cleanup 0) with_close_handler [(Handler 0 "bye" None, RUnit (Err EHandler))] (Ok tt) w' ∧
    rooms_ok w'.
Proof.
  destruct (connection_heap with_close_handler !! 0) as [x|] eqn:Hx; [|by vm_compute in Hx].
  assert (namespace x = 0) as Hn by (apply (field_of namespace _ x _ Hx); by vm_compute).
  destruct (namespace_heap with_close_handler !! 0) as [y|] eqn:Hy; [|by vm_compute in Hy].
  rewrite <-Hn in Hy.
  destruct (cleanup_releases 0 with_close_handler x Hx y
    [(Handler 0 "bye" None, RUnit (Err EHandler))] Hy) as (w' & y' & Hgo & _ & Hok & _).
  - apply rooms_ok_no_rooms; by vm_compute.
  - apply (field_of on_close_locked _ x _ Hx). by vm_compute.
  - unfold close_call.
    assert (on_close_handler x = Some "bye"%string) as ->
      by (apply (field_of on_close_handler _ x _ Hx); by vm_compute).
    right. by exists (Err EHandler).
  - exists w'. split; [exact Hgo | exact Hok].
Defined.
