(* ===== verification/Fanout.v ===== *)
(** * What a broadcast delivers

    The set of targets, and the effect of [emit], [disconnect] and [close] of an
    operator on every connection of the server, in whatever order the sends of
    the targets are interleaved. *)

From S2P Require Import Prelude Async Concurrent Extern ChannelCapacity Packet Codecs.
From S2P Require Import EventRegistry Extensions ServerConfig ServerState Connection Broadcast.
From S2P Require Import Namespace ServerRuntime RunServer RefServer Rooms Closing.

Section fanout.
Context `{T : Types} `{Cells : AtomicEnumCell} `{Chans : Mpsc} `{Crates : !SerdeCrates}.

(** ** The targets *)

(** The set a broadcast is meant for. *)
Definition target (o : WsIoServerNamespaceBroadcastOperator) (y : WsIoServerNamespace) (i : Z) : Prop :=
  (if decide (include_rooms o = ∅) then i ∈ connection_ids y
   else ∃ r, r ∈ include_rooms o ∧ i ∈ members (rooms y) r) ∧
  (∀ r, r ∈ exclude_rooms o → i ∉ members (rooms y) r) ∧
  i ∉ exclude_connection_ids o.

Section ids.
Context (o : WsIoServerNamespaceBroadcastOperator) (w : Server) (y : WsIoServerNamespace).
Context (Hy : namespace_heap w !! op_namespace o = Some y).

Lemma goes_include rs ids :
  ∃ ids', goes (include_loop (op_namespace o) rs ids) w [] (Ok ids') w ∧
    ∀ i, i ∈ ids' ↔ i ∈ ids ∨ ∃ r, r ∈ rs ∧ i ∈ members (rooms y) r.
Proof.
  revert ids. induction rs as [|r rs IH]; intros ids; cbn [include_loop].
  - exists ids. split; [apply goes_ret | set_solver].
  - destruct (IH (match rooms y !! r with Some room => ids ∪ room | None => ids end)) as (ids' & Hg & Hi).
    exists ids'. split; [by eapply goes_ns_get|]. intros i. rewrite Hi. setoid_rewrite elem_of_cons.
    unfold members. destruct (rooms y !! r) as [room|] eqn:Hr.
    + rewrite elem_of_union. split; [|].
      * intros [[?|?]|(r' & ? & ?)]; [by left | right; exists r; rewrite Hr; auto | right; exists r'; auto].
      * intros [?|(r' & [->|?] & Hm)]; [auto | rewrite Hr in Hm; auto | right; by exists r'].
    + split; [|].
      * intros [?|(r' & ? & ?)]; [by left | right; exists r'; auto].
      * intros [?|(r' & [->|?] & Hm)]; [auto | rewrite Hr in Hm; set_solver | right; by exists r'].
Qed.

Lemma goes_exclude rs ids :
  ∃ ids', goes (exclude_loop (op_namespace o) rs ids) w [] (Ok ids') w ∧
    ∀ i, i ∈ ids' ↔ i ∈ ids ∧ ∀ r, r ∈ rs → i ∉ members (rooms y) r.
Proof.
  revert ids. induction rs as [|r rs IH]; intros ids; cbn [exclude_loop].
  - exists ids. split; [apply goes_ret | set_solver].
  - setoid_rewrite elem_of_cons. unfold members in *. destruct (rooms y !! r) as [room|] eqn:Hr.
    + destruct (decide (ids ∖ room = ∅)) as [Hemp|Hne].
      * exists (ids ∖ room). split.
        -- eapply goes_ns_get; [done|]. rewrite Hr, bool_decide_true by done. apply goes_ret.
        -- intros i. split; [set_solver|]. intros [Hi Hall]. specialize (Hall r (or_introl eq_refl)).
           rewrite Hr in Hall. set_solver.
      * destruct (IH (ids ∖ room)) as (ids' & Hg & Hi). exists ids'. split.
        -- eapply goes_ns_get; [done|]. by rewrite Hr, bool_decide_false by done.
        -- intros i. rewrite Hi, elem_of_difference. split.
           ++ intros [[? ?] ?]. split; [done|]. intros r' [->|?]; [by rewrite Hr | auto].
           ++ intros [? Hall]. pose proof (Hall r (or_introl eq_refl)) as Hno. rewrite Hr in Hno. auto.
    + destruct (IH ids) as (ids' & Hg & Hi). exists ids'. split.
      * eapply goes_ns_get; [done|]. by rewrite Hr.
      * intros i. rewrite Hi. split; [|naive_solver].
        intros [? ?]. split; [done|]. intros r' [->|?]; [rewrite Hr; set_solver | auto].
Qed.

Lemma drop_excluded ids (l : list Z) i :
  i ∈ foldl (λ ids i, ids ∖ {[i]}) ids l ↔ i ∈ (ids : gset Z) ∧ i ∉ l.
Proof. revert ids. induction l as [|j l IH]; intros ids; simpl; [set_solver|]. rewrite IH. set_solver. Qed.

(** The loops, with their early exit, compute the set. *)
Lemma goes_targets :
  ∃ ids, goes (target_connection_ids o) w [] (Ok ids) w ∧ ∀ i, i ∈ ids ↔ target o y i.
Proof.
  assert (∃ ids, goes (if bool_decide (include_rooms o = ∅) then ns_get (op_namespace o) connection_ids
      else include_loop (op_namespace o) (elements (include_rooms o)) ∅) w [] (Ok ids) w ∧
    ∀ i, i ∈ ids ↔ if decide (include_rooms o = ∅) then i ∈ connection_ids y
      else ∃ r, r ∈ include_rooms o ∧ i ∈ members (rooms y) r) as (ids1 & H1 & Hi1).
  { destruct (decide (include_rooms o = ∅)) as [He|He].
    - exists (connection_ids y). rewrite bool_decide_true by done. split; [|done].
      eapply goes_atom; [done|]. by rewrite Hy.
    - rewrite bool_decide_false by done.
      destruct (goes_include (elements (include_rooms o)) ∅) as (ids & Hg & Hi).
      exists ids. split; [done|]. intros i. rewrite Hi. setoid_rewrite elem_of_elements. set_solver. }
  destruct (goes_exclude (elements (exclude_rooms o)) ids1) as (ids2 & H2 & Hi2).
  exists (foldl (λ ids i, ids ∖ {[i]}) ids2 (elements (exclude_connection_ids o))). split.
  - unfold target_connection_ids. eapply goes_then; [exact H1|]. by eapply goes_then.
  - intros i. rewrite drop_excluded, elem_of_elements, Hi2, Hi1. unfold target.
    setoid_rewrite elem_of_elements. tauto.
Qed.
End ids.

(** ** The effect on one connection *)

(** The views: what can be seen of one connection. *)
Definition same_conn (c : nat) (w w' : Server) : Prop := connection_heap w !! c = connection_heap w' !! c.

#[local] Instance same_conn_equiv c : Equivalence (same_conn c).
Proof.
  split; unfold same_conn.
  - by intros w.
  - by intros w w' ->.
  - by intros w1 w2 w3 -> ->.
Qed.

Section effect.
(** Of the server [w0], with the namespace [n], sends change connections only. *)
Context (w0 : Server) (n : nat) (y : WsIoServerNamespace).
Context (Hy0 : namespace_heap w0 !! n = Some y).

Definition at_ns (w : Server) : Prop :=
  namespace_heap w = namespace_heap w0 ∧ runtime w = runtime w0 ∧
  tasks w = tasks w0 ∧ next_connection_id w = next_connection_id w0.

Lemma at_ns_lookup w : at_ns w → namespace_heap w !! n = Some y.
Proof. by intros [-> _]. Qed.

(** An operation on the connection [c] alone. *)
Record touches (c : nat) {A} (p : srv A) : Prop := {
  touches_local : local at_ns (same_conn c) p;
  touches_keeps d : d ≠ c → keeps at_ns (same_conn d) p;
  touches_frame : keeps at_ns (λ _ _, True) p;
}.

Lemma touches_bind c {A B} (p : srv A) (k : A → srv B) :
  touches c p → (∀ a, touches c (k a)) → touches c (bind p k).
Proof.
  intros [Hl Hk Hf] Hrest. split.
  - apply local_bind; [done|]. intros a. apply (touches_local _ _ (Hrest a)).
  - intros d Hd. apply keeps_bind; [exact (Hk d Hd)|].
    intros a. exact (touches_keeps _ _ (Hrest a) d Hd).
  - apply keeps_bind; [done|]. intros a. apply (touches_frame _ _ (Hrest a)).
Qed.

Lemma touches_ret c {A} (a : A) : touches c (Ret a).
Proof. by split. Qed.

Lemma touches_of_result c {A} (r : result A) : touches c (of_result r).
Proof. by destruct r. Qed.

Lemma touches_get c {A} (f : WsIoServerConnection → A) : touches c (conn_get c f).
Proof.
  split.
  - split; [|intros w _; by destruct (connection_heap w !! c)].
    intros w1 w2 _ _ HE. split; [by rewrite HE | by constructor].
  - intros d Hd. split; [by intros w w' ? [= <-]|]. intros w _. by destruct (connection_heap w !! c).
  - split; [by intros w w' ? [= <-]|]. intros w _. by destruct (connection_heap w !! c).
Qed.

Lemma touches_upd c f : touches c (conn_upd c f).
Proof.
  split.
  - split; [|done]. intros w1 w2 _ _ HE. split; [done|]. constructor.
    unfold same_conn in *. simpl. by rewrite !lookup_alter_eq, HE.
  - intros d Hd. split; [|done]. intros w w' Jw [= <-]. split; [done|].
    unfold same_conn. simpl. by rewrite lookup_alter_ne.
  - split; [|done]. by intros w w' Jw [= <-].
Qed.

Lemma touches_send c m : touches c (send_message c m).
Proof.
  split.
  - split.
    + intros w1 w2 _ _ HE. unfold same_conn in HE. rewrite HE. split; [done|].
      destruct (connection_heap w2 !! c) as [x|] eqn:Hx; [|constructor; unfold same_conn; congruence].
      destruct (chan_send (message_tx x) m) as [[ch r]|]; constructor.
      unfold same_conn. simpl. by rewrite !lookup_alter_eq, HE, Hx.
    + intros w _. destruct (connection_heap w !! c); [|done].
      destruct (chan_send _ _) as [[? r]|]; [by apply local_of_result | done].
  - intros d Hd. split.
    + intros w w' Jw. destruct (connection_heap w !! c) as [x|]; [|by intros [= <-]].
      destruct (chan_send (message_tx x) m) as [[ch r]|]; [|done]. intros [= <-]. split; [done|].
      unfold same_conn. simpl. by rewrite lookup_alter_ne.
    + intros w _. destruct (connection_heap w !! c); [|done].
      destruct (chan_send _ _) as [[? r]|]; [by apply keeps_of_result | done].
  - split.
    + intros w w' Jw. destruct (connection_heap w !! c) as [x|]; [|by intros [= <-]].
      destruct (chan_send (message_tx x) m) as [[ch r]|]; [|done]. by intros [= <-].
    + intros w _. destruct (connection_heap w !! c); [|done].
      destruct (chan_send _ _) as [[? r]|]; [by apply keeps_of_result | done].
Qed.

Lemma touches_emit c m : touches c (emit_event_message c m).
Proof.
  apply touches_bind; [|intros; apply touches_send].
  apply touches_bind; [apply touches_get | intros; apply touches_of_result].
Qed.

Lemma touches_close c : touches c (Connection.close c).
Proof.
  apply touches_bind; [apply touches_get|]. intros s.
  assert (touches c (state_store c Closing ;; try_send_close c)) as H
    by (apply touches_bind; intros; apply touches_upd).
  destruct s; try exact H; apply touches_ret.
Qed.

(** ** One target, and all of them *)
Definition tables_ok (w : Server) : Prop :=
  ∀ i c, connections y !! i = Some c → ∃ x, connection_heap w !! c = Some x ∧ id x = i.

Definition same_target (i : Z) (w w' : Server) : Prop :=
  match connections y !! i with Some c => same_conn c w w' | None => True end.

#[local] Instance same_target_equiv i : Equivalence (same_target i).
Proof.
  unfold same_target. destruct (connections y !! i); [apply same_conn_equiv|]. by split.
Qed.

Section visits.
Context (f : nat → srv unit) (f_touches : ∀ c, touches c (f c)).

Lemma visit_keeps (E : Server → Server → Prop) `{!Reflexive E} i :
  (∀ c, connections y !! i = Some c → keeps at_ns E (f c)) → keeps at_ns E (visit n f i).
Proof.
  intros Hf. split; [by intros w w' Jw [= <-]|]. intros w Jw. rewrite (at_ns_lookup w Jw). cbn [bind].
  destruct (connections y !! i) as [c|]; [by apply keeps_ignore, Hf | done].
Qed.

Lemma visit_local i : local at_ns (same_target i) (visit n f i).
Proof.
  split; [|intros w Jw].
  - intros w1 w2 J1 J2 HE. rewrite (at_ns_lookup w1 J1), (at_ns_lookup w2 J2). split; [done|]. by constructor.
  - rewrite (at_ns_lookup w Jw). cbn [bind]. unfold same_target.
    destruct (connections y !! i) as [c|]; [|done].
    apply local_ignore, (touches_local _ _ (f_touches c)).
Qed.

Lemma visit_frame i : keeps at_ns (λ _ _, True) (visit n f i).
Proof. apply visit_keeps; [done|]. intros c _. apply (touches_frame _ _ (f_touches c)). Qed.

(** Distinct ids have distinct connections. *)
Lemma visit_others i j w :
  tables_ok w → i ≠ j → keeps at_ns (same_target j) (visit n f i).
Proof.
  intros Hok Hij. apply visit_keeps; [intros ?; reflexivity|]. intros c Hc. unfold same_target.
  destruct (connections y !! j) as [d|] eqn:Hd; [|apply (touches_frame _ _ (f_touches c))].
  apply (touches_keeps _ _ (f_touches c)). intros ->.
  destruct (Hok _ _ Hc) as (x & Hx & <-), (Hok _ _ Hd) as (x' & Hx' & <-). congruence.
Qed.

(** What one call of [f] does to its connection. *)
Context (R : WsIoServerConnection → WsIoServerConnection → Prop).
Context (f_post : ∀ c w x tr r w', connection_heap w !! c = Some x → goes (f c) w tr r w' →
  ∃ x', connection_heap w' !! c = Some x' ∧ R x x').

Lemma visit_post i c w x tr r w' :
  at_ns w → connections y !! i = Some c → connection_heap w !! c = Some x →
  goes (visit n f i) w tr r w' → ∃ x', connection_heap w' !! c = Some x' ∧ R x x'.
Proof.
  intros Jw Hc Hx Hg. apply goes_atom_inv in Hg as (w1 & [= <-] & Hg).
  rewrite (at_ns_lookup w Jw) in Hg. cbn [bind] in Hg. rewrite Hc in Hg.
  apply goes_ignore_inv in Hg as (_ & r' & Hg). by eapply f_post.
Qed.

Definition reached (o : WsIoServerNamespaceBroadcastOperator) (c : nat) : Prop :=
  ∃ i, target o y i ∧ connections y !! i = Some c.

Lemma for_each_effect o w tr w' :
  op_namespace o = n → at_ns w → tables_ok w →
  goes (for_each_target_connections o f) w tr (Ok tt) w' →
  at_ns w' ∧ ∀ c x, connection_heap w !! c = Some x →
    (reached o c → ∃ x', connection_heap w' !! c = Some x' ∧ R x x') ∧
    (¬ reached o c → connection_heap w' !! c = Some x).
Proof.
  intros Hn Jw Hok Hg.
  destruct (goes_targets o w y) as (ids & Hids & Hi); [rewrite Hn; by apply at_ns_lookup|].
  apply (goes_then_inv _ _ _ _ _ _ _ _ Hids) in Hg. rewrite Hn in Hg.
  assert (Hkeep : ∀ (E : Server → Server → Prop), PreOrder E →
    (∀ i, i ∈ ids → keeps at_ns E (visit n f i)) → at_ns w' ∧ E w w').
  { intros E HE Hv. case_bool_decide.
    - by apply goes_ret_inv in Hg as (_ & _ & ->).
    - eapply (goes_keeps at_ns E); [|exact Jw|exact Hg].
      apply keeps_par_all. intros i Hin. by apply Hv, elem_of_elements. }
  split; [apply (Hkeep (λ _ _, True)); [by split|]; intros; apply visit_frame|].
  intros c x Hx. split.
  - intros (i & Ht%Hi & Hc). case_bool_decide as Hemp; [set_solver|].
    destruct (par_all_goes Poll polls_first at_ns same_target (visit n f) (elements ids))
      with (m := elements ids) (w := w) (tr := tr) (w' := w') (a := i) as (t & w1 & Hv & HE);
      [intros; apply visit_local | | intros; apply visit_frame | apply NoDup_elements | done..
      | by apply elem_of_elements|].
    { intros a b _ _ Hab. by eapply visit_others. }
    destruct (visit_post i c w x t (Ok tt) w1) as (x' & Hx' & HR); [done..|].
    exists x'. split; [|done]. unfold same_target in HE. rewrite Hc in HE.
    unfold same_conn in HE. by rewrite <-HE.
  - intros Hno. destruct (Hkeep (same_conn c)) as [_ HE].
    + split; apply _.
    + intros i Hin. apply visit_keeps; [intros ?; reflexivity|]. intros d Hd.
      apply (touches_keeps _ _ (f_touches d)). intros ->. apply Hno. exists i.
      split; [by apply Hi | done].
    + unfold same_conn in HE. by rewrite <-HE.
Qed.

(** No order of the sends gets stuck if none does alone. *)
Lemma for_each_sound o w :
  op_namespace o = n → at_ns w → tables_ok w →
  (∀ c x, connection_heap w !! c = Some x → reached o c → sound (ignore (f c)) w) →
  sound (for_each_target_connections o f) w.
Proof.
  intros Hn Jw Hok Hs.
  destruct (goes_targets o w y) as (ids & Hids & Hi); [rewrite Hn; by apply at_ns_lookup|].
  apply (sound_then _ _ _ _ _ Hids). case_bool_decide; [done|]. rewrite Hn.
  apply (par_all_sound Poll polls_first at_ns same_target (visit n f) (elements ids));
    [intros; apply visit_local | | intros; apply visit_frame | apply NoDup_elements | done..|].
  - intros a b _ _ Hab. by eapply visit_others.
  - intros i Hin%elem_of_elements%Hi. exists w. split; [done|].
    rewrite (at_ns_lookup w Jw). cbn [bind]. destruct (connections y !! i) as [c|] eqn:Hc; [|done].
    destruct (Hok _ _ Hc) as (x & Hx & _). apply (Hs c x Hx). by exists i.
Qed.
End visits.
End effect.

(** ** [emit], [disconnect], [close] *)

(** [m] has been appended to the queue, if [b] and if the writer is still there. *)
Definition sent_if (b : bool) (m : Message) (x x' : WsIoServerConnection) : Prop :=
  x' = x .[ message_tx := message_tx x' ] ∧
  chan_items (message_tx x') =
    chan_items (message_tx x) ++ (if b && negb (chan_closed (message_tx x)) then [m] else []).

Definition is_ready_conn (x : WsIoServerConnection) : bool := bool_decide (cell_get (state x) = ConnReady).

Lemma sent_nothing b m x : b && negb (chan_closed (message_tx x)) = false → sent_if b m x x.
Proof. intros Hb. split; [by destruct x | by rewrite Hb, app_nil_r]. Qed.

Lemma send_message_post m c w x tr r w' :
  connection_heap w !! c = Some x → goes (send_message c m) w tr r w' →
  ∃ x', connection_heap w' !! c = Some x' ∧ sent_if true m x x'.
Proof.
  intros Hx (w1 & Hf & Hg)%goes_atom_inv. rewrite Hx in Hf, Hg.
  pose proof (chan_send_spec (message_tx x) m) as Hs.
  destruct (chan_send (message_tx x) m) as [[ch q]|] eqn:E; [|done]. injection Hf as <-.
  assert (w' = conn_set c (λ x, x .[ message_tx := ch ]) w) as ->.
  { destruct q; [by apply goes_ret_inv in Hg as (_ & _ & ->) | by apply goes_fail_inv in Hg as (_ & _ & ->)]. }
  exists (x .[ message_tx := ch ]). split; [exact (conn_set_same c _ _ _ Hx)|]. split; [done|]. simpl.
  destruct Hs as (_ & _ & Hs). destruct (chan_closed (message_tx x)); simpl.
  - destruct Hs as [-> _]. by rewrite app_nil_r.
  - by destruct Hs as (_ & -> & _).
Qed.

Lemma emit_message_post m c w x tr r w' :
  connection_heap w !! c = Some x → goes (emit_event_message c m) w tr r w' →
  ∃ x', connection_heap w' !! c = Some x' ∧ sent_if (is_ready_conn x) m x x'.
Proof.
  intros Hx Hg. unfold is_ready_conn. case_bool_decide as Hs.
  - assert (goes (ensure c ConnReady
      (λ s, "Cannot emit in invalid state: " ++ show_connection_state s)%string) w [] (Ok tt) w) as He
      by by eapply goes_ensured.
    apply (goes_then_inv _ _ _ _ _ _ _ _ He) in Hg. by eapply send_message_post.
  - assert (w' = w) as ->.
    { apply goes_atom_inv in Hg as (w1 & [= <-] & Hg). rewrite Hx in Hg. cbn [bind] in Hg.
      rewrite cell_ensure_spec, decide_False in Hg by done. by apply goes_fail_inv in Hg as (_ & _ & ->). }
    exists x. split; [done|]. by apply sent_nothing.
Qed.

Section ops.
Context (o : WsIoServerNamespaceBroadcastOperator) (w : Server) (y : WsIoServerNamespace).
Context (Hy : namespace_heap w !! op_namespace o = Some y) (Hok : tables_ok y w).

(** Nothing but connections has changed, and of those only the ones reached. *)
Definition effect_of (R : WsIoServerConnection → WsIoServerConnection → Prop) (w' : Server) : Prop :=
  namespace_heap w' = namespace_heap w ∧ runtime w' = runtime w ∧ tasks w' = tasks w ∧
  ∀ c x, connection_heap w !! c = Some x →
    (reached y o c → ∃ x', connection_heap w' !! c = Some x' ∧ R x x') ∧
    (¬ reached y o c → connection_heap w' !! c = Some x).

(** The queue of every target that is ready can take a message. *)
Definition queues_open (ready_only : bool) : Prop :=
  ∀ c x, connection_heap w !! c = Some x → reached y o c →
    (ready_only = true → cell_get (state x) = ConnReady) →
    chan_closed (message_tx x) = true ∨ length (chan_items (message_tx x)) < chan_cap (message_tx x).

Lemma sound_send c m x :
  connection_heap w !! c = Some x →
  chan_closed (message_tx x) = true ∨ length (chan_items (message_tx x)) < chan_cap (message_tx x) →
  ∃ r w', goes (send_message c m) w [] r w'.
Proof.
  intros Hx Hq. pose proof (chan_send_spec (message_tx x) m) as Hs.
  destruct (chan_send (message_tx x) m) as [[ch q]|] eqn:E.
  - exists q, (conn_set c (λ x, x .[ message_tx := ch ]) w).
    eapply goes_atom; [by rewrite Hx, E|]. simpl. rewrite Hx, E. apply goes_of_result.
  - destruct Hs as [Hc Hl]. destruct Hq; [congruence | lia].
Qed.

Lemma sound_ignore {A} (p : srv A) r w' : goes p w [] r w' → sound (ignore p) w.
Proof. intros Hg. eapply goes_sound. by apply (goes_ignore _ _ _ r w'). Qed.

(** C14: a broadcast in a running namespace whose payload can be encoded.  Whatever the
    order in which the sends are interleaved: every connection that is ready and
    is in the included rooms (in the namespace, when no room is given), in no excluded
    room and not excluded by id gets the message once, at the end of its queue;
    no other connection, and nothing else of the server, changes.  If no queue is
    full no order fails, panics or gets stuck. *)
Theorem emit_exact event data d b
    (Hstatus : cell_get (status y) = NsRunning)
    (Hd : encode_payload (ns_packet_codec (config y)) data = Ok d)
    (Hb : encode (ns_packet_codec (config y)) (new_event event d) = Ok b) :
  let m := message_of (ns_packet_codec (config y)) b in
  (∀ tr w', goes (Broadcast.emit o event data) w tr (Ok tt) w' →
     effect_of (λ x x', sent_if (is_ready_conn x) m x x') w') ∧
  (queues_open true → sound (Broadcast.emit o event data) w).
Proof.
  cbv zeta. set (m := message_of _ b).
  assert (Hst : goes (ns_get (op_namespace o) (λ x, cell_ensure (status x) NsRunning
      (λ s, "Cannot emit in invalid status: " ++ show_namespace_status s)%string)) w [] (Ok (Ok tt)) w).
  { eapply goes_atom; [done|]. rewrite Hy, cell_ensure_spec. by rewrite decide_True. }
  assert (Hc : goes (ns_get (op_namespace o) (λ x, ns_packet_codec (config x))) w []
    (Ok (ns_packet_codec (config y))) w) by (eapply goes_atom; [done|]; by rewrite Hy).
  assert (He := goes_encode (op_namespace o) (new_event event d) w y b Hy Hb).
  split.
  - intros tr w' Hg. unfold Broadcast.emit in Hg.
    apply (goes_then_inv _ _ _ _ _ _ _ _ Hst) in Hg. cbn [of_result bind] in Hg.
    apply (goes_then_inv _ _ _ _ _ _ _ _ Hc) in Hg. cbv beta in Hg. rewrite Hd in Hg. cbn [of_result bind] in Hg.
    apply (goes_then_inv _ _ _ _ _ _ _ _ He) in Hg. fold m in Hg.
    destruct (for_each_effect w (op_namespace o) y Hy (λ c, emit_event_message c m)
      (λ c, touches_emit w c m) (λ x x', sent_if (is_ready_conn x) m x x')
      (λ c w, emit_message_post m c w) o w tr w') as [(? & ? & ? & ?) ?]; try done.
  - intros Hq. unfold Broadcast.emit.
    apply (sound_then _ _ _ _ _ Hst). cbn [of_result bind].
    apply (sound_then _ _ _ _ _ Hc). cbv beta. rewrite Hd. cbn [of_result bind].
    apply (sound_then _ _ _ _ _ He). fold m.
    apply (for_each_sound w (op_namespace o) y Hy _ (λ c, touches_emit w c m)); try done.
    intros c x Hx Hr. destruct (decide (cell_get (state x) = ConnReady)) as [Hs|Hs].
    + destruct (sound_send c m x Hx) as (r & w1 & Hg); [by apply (Hq c x)|].
      apply (sound_ignore _ r w1). by eapply goes_ensure.
    + eapply sound_ignore, (goes_ensure_err c ConnReady
        (λ s, "Cannot emit in invalid state: " ++ show_connection_state s)%string _ w x); done.
Qed.

(** A broadcast in a namespace that is stopping or stopped, or with a payload or a
    packet that cannot be encoded, returns the error and sends nothing. *)
Theorem emit_refused event data :
  (cell_get (status y) ≠ NsRunning →
   goes (Broadcast.emit o event data) w [] (Err (EMsg
     ("Cannot emit in invalid status: " ++ show_namespace_status (cell_get (status y))))) w) ∧
  (cell_get (status y) = NsRunning → ∀ e,
   encode_payload (ns_packet_codec (config y)) data = Err e ∨
   (∃ d, encode_payload (ns_packet_codec (config y)) data = Ok d ∧
         encode (ns_packet_codec (config y)) (new_event event d) = Err e) →
   goes (Broadcast.emit o event data) w [] (Err e) w).
Proof.
  split.
  - intros Hs. unfold Broadcast.emit. eapply goes_ns_get; [done|].
    rewrite cell_ensure_spec, decide_False by done. apply goes_fail.
  - intros Hs e He. unfold Broadcast.emit. eapply goes_ns_get; [done|].
    rewrite cell_ensure_spec, decide_True by done. eapply goes_ns_get; [done|].
    destruct He as [->|(d & -> & He)]; [apply goes_fail|].
    cbn [of_result bind]. by eapply goes_bind_err, goes_encode_err.
Qed.

(** [disconnect] queues the disconnect packet for every connection of the set, ready
    or not, once, in whatever order, and changes nothing else. *)
Theorem disconnect_exact b (Hb : encode (ns_packet_codec (config y)) new_disconnect = Ok b) :
  (∀ tr w', goes (Broadcast.disconnect o) w tr (Ok tt) w' →
     effect_of (sent_if true (message_of (ns_packet_codec (config y)) b)) w') ∧
  (queues_open false → sound (Broadcast.disconnect o) w).
Proof.
  set (m := message_of _ b). assert (He := goes_encode _ new_disconnect w y b Hy Hb).
  split.
  - intros tr w' Hg. unfold Broadcast.disconnect in Hg.
    apply (goes_then_inv _ _ _ _ _ _ _ _ He) in Hg.
    destruct (for_each_effect w (op_namespace o) y Hy (λ c, send_message c m)
      (λ c, touches_send w c m) (sent_if true m) (λ c w, send_message_post m c w) o w tr w')
      as [(? & ? & ? & ?) ?]; try done.
  - intros Hq. apply (sound_then _ _ _ _ _ He).
    apply (for_each_sound w (op_namespace o) y Hy _ (λ c, touches_send w c m)); try done.
    intros c x Hx Hr. destruct (sound_send c m x Hx) as (r & w1 & Hg); [by apply (Hq c x)|].
    by apply (sound_ignore _ r w1).
Qed.

(** What [close] makes of a connection. *)
Definition closed_if_open (x x' : WsIoServerConnection) : Prop :=
  if ending (cell_get (state x)) then x' = x else closed_by_close x x'.

Lemma close_effect tr w' :
  goes (Broadcast.close o) w tr (Ok tt) w' → effect_of closed_if_open w'.
Proof.
  assert (Hpost : ∀ c w x tr r w', connection_heap w !! c = Some x →
    goes (Connection.close c) w tr r w' → ∃ x', connection_heap w' !! c = Some x' ∧ closed_if_open x x').
  { clear. intros c w x tr r w' Hx Hg. unfold closed_if_open.
    destruct (goes_close c w x Hx) as [[He Hc]|(He & x1 & Hx1 & Hc)]; rewrite He;
      apply (goes_silent _ _ _ _ _ _ _ Hc) in Hg as (-> & <- & <-).
    - by exists x.
    - exists x1. split; [apply lookup_insert_eq | done]. }
  intros Hg. destruct (for_each_effect w (op_namespace o) y Hy Connection.close
    (touches_close w) closed_if_open Hpost o w tr w') as [(? & ? & ? & ?) ?]; done.
Qed.

Lemma close_sound : sound (Broadcast.close o) w.
Proof.
  apply (for_each_sound w (op_namespace o) y Hy _ (touches_close w)); try done.
  intros c x Hx Hr. destruct (goes_close c w x Hx) as [[He Hc]|(He & x1 & Hx1 & Hc)];
    by eapply sound_ignore.
Qed.

(** [close] closes every connection of the set that is not closing already, in whatever
    order, never waits, and changes nothing else. *)
Theorem close_exact :
  (∀ tr w', goes (Broadcast.close o) w tr (Ok tt) w' → effect_of closed_if_open w') ∧
  sound (Broadcast.close o) w.
Proof. split; [exact close_effect | exact close_sound]. Qed.
End ops.

(** C35: [target_connection_ids], with the early exit of its loops, returns exactly the
    targets of the operator, and changes nothing.  [to] and [except] of a connection:
    the operator never targets the connection itself.  [to] reaches the members of the given rooms, and the whole namespace
    when no room is given; [except] reaches the namespace less the given rooms. *)
Theorem connection_operators c w x y rs (Hx : connection_heap w !! c = Some x) :
  (∀ o, namespace_heap w !! op_namespace o = Some y →
     ∃ ids, goes (target_connection_ids o) w [] (Ok ids) w ∧ ∀ i, i ∈ ids ↔ target o y i) ∧
  (∃ o, goes (connection_to c rs) w [] (Ok o) w ∧ op_namespace o = namespace x ∧
     ∀ i, target o y i ↔ i ≠ id x ∧
       (if decide (rs = []) then i ∈ connection_ids y else ∃ r, r ∈ rs ∧ i ∈ members (rooms y) r)) ∧
  (∃ o, goes (connection_except c rs) w [] (Ok o) w ∧ op_namespace o = namespace x ∧
     ∀ i, target o y i ↔ i ≠ id x ∧ i ∈ connection_ids y ∧ ∀ r, r ∈ rs → i ∉ members (rooms y) r).
Proof.
  split; [intros o Hy; by apply goes_targets|].
  split; (eexists; split; [by do 2 (eapply goes_conn_get; [done|])|]; split; [done|]);
    intros i; unfold target; simpl.
  - rewrite !union_empty_l_L. destruct (decide (rs = [])) as [->|Hrs].
    + simpl. set_solver.
    + rewrite decide_False; [set_solver|]. destruct rs; [done|]. simpl. set_solver.
  - rewrite decide_True by done. set_solver.
Qed.
End fanout.

(** ** Witnesses *)
#[local] Existing Instances ref_types ref_cell ref_mpsc ref_crates.

Definition everyone : WsIoServerNamespaceBroadcastOperator := Broadcast.new 0.

Lemma ready_namespace :
  ∃ y, namespace_heap ready_server !! op_namespace everyone = Some y ∧ config y = chat_config ∧
    cell_get (status y) = NsRunning ∧ tables_ok y ready_server.
Proof.
  destruct (namespace_heap ready_server !! 0) as [y|] eqn:Hy; [|by vm_compute in Hy].
  exists y. split_and!; [done | | |].
  - apply (field_of config _ y _ Hy). by vm_compute.
  - apply (field_of (λ y, cell_get (status y)) _ y _ Hy). by vm_compute.
  - assert (connections y = {[0%Z := 0]}) as E by (apply (field_of connections _ y _ Hy); by vm_compute).
    intros i c. rewrite E, lookup_singleton_Some. intros [<- <-].
    destruct (connection_heap ready_server !! 0) as [x|] eqn:Hx; [|by vm_compute in Hx].
    exists x. split; [done|]. apply (field_of id _ x _ Hx). by vm_compute.
Qed.

Lemma ready_queues b y : queues_open everyone ready_server y b.
Proof.
  intros c x Hx _ _. right.
  assert (map_Forall (λ _ x, length (chan_items (message_tx x)) < chan_cap (message_tx x))
    (connection_heap ready_server)) as H by (eapply bool_decide_eq_true_1; by vm_compute).
  exact (H c x Hx).
Qed.

Lemma emit_exact_witness : sound (Broadcast.emit everyone "chat" None) ready_server.
Proof.
  destruct ready_namespace as (y & Hy & Hcfg & Hst & Hok).
  apply (proj2 (emit_exact everyone ready_server y Hy Hok "chat" None None
    (Byte.x01 :: put_opt (Some (String.list_byte_of_string "chat")) ++ put_opt None) Hst
    ltac:(done) ltac:(rewrite Hcfg; by vm_compute))).
  apply ready_queues.
Defined.

Definition stopped_server : Server := after [] (Namespace.shutdown 0) chat_server.

Lemma emit_refused_witness :
  goes (Broadcast.emit everyone "chat" None) stopped_server []
    (Err (EMsg "Cannot emit in invalid status: Stopped")) stopped_server.
Proof.
  destruct (namespace_heap stopped_server !! 0) as [y|] eqn:Hy; [|by vm_compute in Hy].
  assert (cell_get (status y) = NsStopped) as Hs
    by (apply (field_of (λ y, cell_get (status y)) _ y _ Hy); by vm_compute).
  assert (connections y = ∅) as Hc by (apply (field_of connections _ y _ Hy); by vm_compute).
  pose proof (proj1 (emit_refused everyone stopped_server y Hy "chat" None)) as H.
  rewrite Hs in H. by apply H.
Defined.

Lemma disconnect_exact_witness : sound (Broadcast.disconnect everyone) ready_server.
Proof.
  destruct ready_namespace as (y & Hy & Hcfg & Hst & Hok).
  apply (proj2 (disconnect_exact everyone ready_server y Hy Hok [Byte.x00; Byte.x00; Byte.x00]
    ltac:(rewrite Hcfg; by vm_compute))).
  apply ready_queues.
Defined.

Lemma close_exact_witness : sound (Broadcast.close everyone) ready_server.
Proof.
  destruct ready_namespace as (y & Hy & Hcfg & Hst & Hok).
  exact (proj2 (close_exact everyone ready_server y Hy Hok)).
Defined.

Lemma connection_operators_witness :
  ∃ o, goes (connection_to 0 ["lobby"]) ready_server [] (Ok o) ready_server ∧ op_namespace o = 0.
Proof.
  destruct (connection_heap ready_server !! 0) as [x|] eqn:Hx; [|by vm_compute in Hx].
  assert (namespace x = 0) as Hn by (apply (field_of namespace _ x _ Hx); by vm_compute).
  destruct (proj1 (proj2 (connection_operators 0 ready_server x (namespace_new chat_config) ["lobby"] Hx)))
    as (o & Hg & Ho & _).
  exists o. split; [exact Hg | by rewrite Ho].
Defined.
