(* ===== verification/Shutdown.v ===== *)
(** * Shutting down a namespace

    [shutdown] and [remove_namespace], run to their end. *)

From S2P Require Import Prelude Async Concurrent Extern ChannelCapacity Packet Codecs.
From S2P Require Import EventRegistry Extensions ServerConfig ServerState Connection Broadcast.
From S2P Require Import Namespace ServerRuntime RunServer RefServer Closing Fanout.

Section shutdown.
Context `{T : Types} `{Cells : AtomicEnumCell} `{Chans : Mpsc} `{Crates : !SerdeCrates}.

(** The connection [c] is one the namespace holds. *)
Definition held (y : WsIoServerNamespace) (c : nat) : Prop :=
  ∃ i, i ∈ connection_ids y ∧ connections y !! i = Some c.

(** What the namespace and its connections are after a shutdown. *)
Definition shut (n : nat) (w w' : Server) (y : WsIoServerNamespace) : Prop :=
  (∃ y', namespace_heap w' !! n = Some y' ∧ cell_get (status y') = NsStopped ∧
     connection_task_set y' = ∅ ∧ task_set_locked y' = false ∧ config y' = config y) ∧
  (∀ m z, m ≠ n → namespace_heap w !! m = Some z → namespace_heap w' !! m = Some z) ∧
  runtime w' = runtime w ∧
  ∀ c x, connection_heap w !! c = Some x →
    (held y c → ∃ x', connection_heap w' !! c = Some x' ∧ closed_if_open x x') ∧
    (¬ held y c → connection_heap w' !! c = Some x).

Definition drained (y : WsIoServerNamespace) : Prop :=
  task_set_locked y = false ∧ connection_task_set y = ∅.

(** The part after the connections have been told to close. *)
Definition drain (n : nat) : srv unit :=
  lock_task_set n ;;
  block (λ w, match namespace_heap w !! n with
              | Some x => if bool_decide (connection_task_set x = ∅) then Some w else None
              | None => Some w
              end) ;;
  ns_upd n (λ x, x .[ status := cell_store (status x) NsStopped ]) ;;
  unlock_task_set n.

Lemma goes_drain n w y :
  namespace_heap w !! n = Some y → drained y →
  ∃ w', goes (drain n) w [] (Ok tt) w' ∧ connection_heap w' = connection_heap w ∧
    runtime w' = runtime w ∧ tasks w' = tasks w ∧
    namespace_heap w' = <[n := y .[ task_set_locked := false ]
      .[ status := cell_store (status y) NsStopped ]]> (namespace_heap w).
Proof.
  intros Hy [Hl Hs].
  set (w1 := ns_set n (λ x, x .[ task_set_locked := true ]) w).
  assert (H1 : namespace_heap w1 !! n = Some (y .[ task_set_locked := true ]))
    by exact (ns_set_same n _ _ _ Hy).
  eexists. split.
  - unfold drain. eapply goes_then.
    { apply goes_block. by rewrite Hy, Hl. }
    eapply goes_then.
    { apply goes_block. fold w1. rewrite H1. by rewrite bool_decide_eq_true_2. }
    apply goes_ns_upd. by apply goes_modify.
  - unfold w1. destruct w as [rt nh ch nid ts]. simpl in *. destruct y. simpl in *. subst.
    rewrite (alter_some _ _ _ _ Hy). by rewrite !alter_insert_same.
Qed.

Lemma drain_inv n w y tr w' :
  namespace_heap w !! n = Some y → goes (drain n) w tr (Ok tt) w' → drained y.
Proof.
  intros Hy Hg. unfold drain in Hg.
  apply goes_atom_inv in Hg as (w1 & Hf & Hg). rewrite Hy in Hf.
  destruct (task_set_locked y) eqn:Hl; [done|]. injection Hf as <-. cbn [bind] in Hg.
  apply goes_atom_inv in Hg as (w2 & Hf & Hg).
  rewrite (ns_set_same n _ _ _ Hy) in Hf. case_bool_decide as Hs; [|done]. by split.
Qed.

Lemma held_reached n y c : reached y (Broadcast.new n) c ↔ held y c.
Proof.
  assert (∀ i, target (Broadcast.new n) y i ↔ i ∈ connection_ids y) as Ht.
  { intros i. unfold target. simpl. rewrite decide_True by done. split; [by intros [? _]|].
    intros Hi. split; [done|]. split; set_solver. }
  split; intros (i & Hi & Hc); exists i; (split; [|exact Hc]).
  - exact (proj1 (Ht i) Hi).
  - exact (proj2 (Ht i) Hi).
Qed.

Section one.
Context (n : nat) (w : Server) (y : WsIoServerNamespace).
Context (Hy : namespace_heap w !! n = Some y) (Hok : tables_ok y w).

Definition stopping_ns : WsIoServerNamespace := y .[ status := cell_store (status y) NsStopping ].
Definition stopping_world : Server := ns_set n (λ x, x .[ status := cell_store (status x) NsStopping ]) w.

Lemma shutdown_unfold : cell_get (status y) = NsRunning →
  ∀ tr r w', goes (Namespace.shutdown n) w tr r w' ↔
    goes (Namespace.close_all n ;; drain n) stopping_world tr r w'.
Proof.
  intros Hs tr r w'. unfold Namespace.shutdown. split.
  - intros Hg. apply goes_atom_inv in Hg as (w1 & [= <-] & Hg). rewrite Hy in Hg. cbn [bind] in Hg.
    rewrite Hs in Hg. by apply goes_atom_inv in Hg as (w1 & [= <-] & Hg).
  - intros Hg. eapply goes_ns_get; [done|]. rewrite Hs. by apply goes_ns_upd.
Qed.

(** Closing the connections, which is what comes first. *)
Lemma close_all_effect tr w' :
  goes (Namespace.close_all n) stopping_world tr (Ok tt) w' →
  namespace_heap w' = <[n := stopping_ns]> (namespace_heap w) ∧ runtime w' = runtime w ∧
  ∀ c x, connection_heap w !! c = Some x →
    (held y c → ∃ x', connection_heap w' !! c = Some x' ∧ closed_if_open x x') ∧
    (¬ held y c → connection_heap w' !! c = Some x).
Proof.
  intros Hg. destruct (close_effect (Broadcast.new n) stopping_world stopping_ns
    (ns_set_same n _ w y Hy) Hok tr w' Hg) as (Hns & Hrt & _ & Hc).
  split; [rewrite Hns; exact (ns_set_first n _ w y Hy)|]. split; [by rewrite Hrt|].
  intros c x Hx. rewrite <-(held_reached n y c). exact (Hc c x Hx).
Qed.

Lemma shutdown_effect tr w' :
  cell_get (status y) = NsRunning → goes (Namespace.shutdown n) w tr (Ok tt) w' →
  drained y ∧ shut n w w' y.
Proof.
  intros Hs Hg. apply shutdown_unfold in Hg; [|done].
  apply goes_bind_inv in Hg as [(e & _ & ?)|([] & t1 & t2 & w1 & H1 & H2 & ->)]; [done|].
  apply close_all_effect in H1 as (Hn & Hr & Hc).
  assert (namespace_heap w1 !! n = Some stopping_ns) as Hy1 by (rewrite Hn; apply lookup_insert_eq).
  assert (drained stopping_ns) as Hd by exact (drain_inv _ _ _ _ _ Hy1 H2).
  split; [exact Hd|]. destruct (goes_drain _ _ _ Hy1 Hd) as (w2 & Hg & Hch & Hrt & _ & Hnh).
  apply (goes_silent _ _ _ _ _ _ _ Hg) in H2 as (_ & _ & <-).
  split; [|split; [|split]].
  - rewrite Hnh, lookup_insert_eq. eexists. split; [done|]. simpl. rewrite cell_get_store.
    by destruct Hd.
  - intros m z Hm Hz. rewrite Hnh, Hn. by rewrite !lookup_insert_ne.
  - by rewrite Hrt.
  - intros c x Hx. rewrite Hch. by apply Hc.
Qed.

Lemma shutdown_sound :
  cell_get (status y) = NsRunning → drained y → sound (Namespace.shutdown n) w.
Proof.
  intros Hs Hd. unfold Namespace.shutdown.
  assert (goes (ns_get n (λ x, cell_get (status x))) w [] (Ok NsRunning) w) as H1.
  { eapply goes_atom; [done|]. rewrite Hy, Hs. done. }
  apply (sound_then _ _ _ _ _ H1). clear H1.
  apply (sound_then _ _ w tt stopping_world); [done|].
  apply sound_bind.
  { exact (close_sound (Broadcast.new n) stopping_world stopping_ns (ns_set_same n _ w y Hy) Hok). }
  intros tr [] w1 (Hn & _ & _)%close_all_effect.
  assert (namespace_heap w1 !! n = Some stopping_ns) as Hy1 by (rewrite Hn; apply lookup_insert_eq).
  destruct (goes_drain n w1 stopping_ns Hy1 Hd) as (w2 & Hg & _).
  exact (goes_sound _ _ _ _ Hg).
Qed.
End one.


(** Removing a path that is not registered does nothing.  Removing one that
    is takes exactly this path out of the table, and when it returns the namespace
    that ran under it has been shut down and its connections closed. *)
Theorem remove_namespace_effect p w :
  match namespaces (runtime w) !! p with
  | None => goes (remove_namespace p) w [] (Ok tt) (rt_set (λ r, r .[ namespaces := delete p (namespaces r) ]) w) ∧
      delete p (namespaces (runtime w)) = namespaces (runtime w)
  | Some n => ∀ y, namespace_heap w !! n = Some y → cell_get (status y) = NsRunning → tables_ok y w →
      let w1 := rt_set (λ r, r .[ namespaces := delete p (namespaces r) ]) w in
      (∀ tr w', goes (remove_namespace p) w tr (Ok tt) w' →
         namespaces (runtime w') = delete p (namespaces (runtime w)) ∧ shut n w1 w' y) ∧
      (drained y → sound (remove_namespace p) w)
  end.
Proof.
  destruct (namespaces (runtime w) !! p) as [n|] eqn:Hp.
  - intros y Hy Hs Hok w1.
    assert (goes (Atom (λ w, Some (rt_set (λ r, r .[ namespaces := delete p (namespaces r) ]) w))
      (λ w, Ret (namespaces (runtime w) !! p)) : srv (option nat)) w [] (Ok (Some n)) w1) as H1.
    { eapply goes_atom; [done|]. by rewrite Hp. }
    split.
    + intros tr w' Hg. apply (goes_then_inv _ _ _ _ _ _ _ _ H1) in Hg.
      apply (shutdown_effect n w1 y Hy Hok) in Hg as [_ Hsh]; [|done].
      split; [|done]. destruct Hsh as (_ & _ & -> & _). done.
    + intros Hd. apply (sound_then _ _ _ _ _ H1). by apply (shutdown_sound n w1 y).
  - split; [|by apply delete_id]. unfold remove_namespace.
    eapply goes_atom; [done|]. rewrite Hp. apply goes_ret.
Qed.
End shutdown.

(** ** Witness *)
#[local] Existing Instances ref_types ref_cell ref_mpsc ref_crates.


Lemma remove_namespace_effect_witness : sound (remove_namespace "/chat") ready_server.
Proof.
  destruct ready_namespace as (y & Hy & Hcfg & Hst & Hok).
  pose proof (remove_namespace_effect "/chat" ready_server) as H.
  replace (namespaces (runtime ready_server) !! "/chat") with (Some 0) in H by by vm_compute.
  destruct (H y Hy Hst Hok) as [_ H2]. apply H2. split.
  - apply (field_of task_set_locked _ y _ Hy). by vm_compute.
  - apply (field_of connection_task_set _ y _ Hy). by vm_compute.
Defined.
