(* ===== verification/ClientConfig.v ===== *)
(** * Client configuration and builder

    [wsio-client/src/config.rs], [builder.rs] and [WsIoClient::builder] of
    [lib.rs].  Handlers are recorded by name, as on the server. *)

From S2P Require Import Prelude Text Extern ChannelCapacity Packet Codecs.
From Stdlib Require Import Ascii.

(** [normalize_url_path] *)
Definition segments (path : string) : list string :=
  filter (λ s, s ≠ EmptyString) (split_on "/" path).

Definition normalize_url_path (path : string) : string := ("/" ++ join_with "/" (segments path))%string.

Section client_config.
Context `{T : Types}.

Record WsIoClientConfig := {
  disconnect_timeout : Duration;
  init_handler : option (ty * ty * string); (* payload, answer, name *)
  init_handler_timeout : Duration;
  init_packet_timeout : Duration;
  on_session_close_handler : option string;
  on_session_close_handler_timeout : Duration;
  on_session_ready_handler : option string;
  packet_codec : WsIoPacketCodec;
  ping_interval : Duration;
  ready_packet_timeout : Duration;
  reconnect_delay : Duration;
  request_modifier : option string;
  websocket_config : WebSocketConfig;
}.
#[global] Instance eta_client_config : Eta WsIoClientConfig := λ c,
  Build_WsIoClientConfig (disconnect_timeout c) (init_handler c) (init_handler_timeout c)
    (init_packet_timeout c) (on_session_close_handler c) (on_session_close_handler_timeout c)
    (on_session_ready_handler c) (packet_codec c) (ping_interval c) (ready_packet_timeout c)
    (reconnect_delay c) (request_modifier c) (websocket_config c).

Context `{U : Urls}.

Record WsIoClientBuilder := {
  config : WsIoClientConfig;
  connect_url : url;
}.
#[global] Instance eta_client_builder : Eta WsIoClientBuilder := λ b,
  Build_WsIoClientBuilder (config b) (connect_url b).

Definition default_config : WsIoClientConfig := {|
  disconnect_timeout := from_secs 5;
  init_handler := None;
  init_handler_timeout := from_secs 3;
  init_packet_timeout := from_secs 5;
  on_session_close_handler := None;
  on_session_close_handler_timeout := from_secs 2;
  on_session_ready_handler := None;
  packet_codec := SerdeJson;
  ping_interval := from_secs 25;
  ready_packet_timeout := from_secs 5;
  reconnect_delay := from_secs 1;
  request_modifier := None;
  websocket_config := {|
    max_frame_size := Some (8 * 1024 * 1024)%Z;
    max_message_size := Some (16 * 1024 * 1024)%Z;
    max_write_buffer_size := (2 * 1024 * 1024)%Z;
    read_buffer_size := (8 * 1024)%Z;
    write_buffer_size := (8 * 1024)%Z |};
|}.

Definition client_builder_new (u : url) : result WsIoClientBuilder :=
  if negb (bool_decide (scheme u = "ws"%string) || bool_decide (scheme u = "wss"%string))
  then Err (EMsg ("Invalid URL scheme: " ++ scheme u))
  else
    let pairs := filter (λ p, p.1 ≠ "namespace"%string) (query_pairs u) ++
                 [("namespace"%string, normalize_url_path (url_path u))] in
    let query := join_with "&" ((λ p, p.1 ++ "=" ++ p.2)%string <$> pairs) in
    Ok {| config := default_config; connect_url := set_path "ws.io" (set_query query u) |}.

(** [WsIoClient::builder]: [tls] says whether a TLS feature is enabled. *)
Definition client_builder (tls : bool) (url : result url) : result WsIoClientBuilder :=
  match url with
  | Err _ => Err EUrl
  | Ok u =>
      if bool_decide (scheme u = "wss"%string) && negb tls
      then Err (EMsg "TLS is required for wss:// URLs, but no TLS feature is enabled")
      else client_builder_new u
  end.

(** One setting of the builder: the method called and its argument. *)
Inductive client_setting : Type :=
| DisconnectTimeout (d : Duration)
| InitHandlerTimeout (d : Duration)
| InitPacketTimeout (d : Duration)
| OnSessionClose (h : string)
| OnSessionCloseHandlerTimeout (d : Duration)
| OnSessionReady (h : string)
| PacketCodec (c : WsIoPacketCodec)
| PingInterval (d : Duration)
| ReadyPacketTimeout (d : Duration)
| ReconnectDelay (d : Duration)
| RequestModifier (h : string)
| RequestPath (p : string)
| WebsocketConfig (w : WebSocketConfig)
| WebsocketConfigMut (f : WebSocketConfig → WebSocketConfig)
| WithInitHandler (D R : ty) (h : string).

Definition client_set (s : client_setting) (b : WsIoClientBuilder) : WsIoClientBuilder :=
  let upd f := b .[ config := f (config b) ] in
  match s with
  | DisconnectTimeout d => upd (λ c, c .[ disconnect_timeout := d ])
  | InitHandlerTimeout d => upd (λ c, c .[ init_handler_timeout := d ])
  | InitPacketTimeout d => upd (λ c, c .[ init_packet_timeout := d ])
  | OnSessionClose h => upd (λ c, c .[ on_session_close_handler := Some h ])
  | OnSessionCloseHandlerTimeout d => upd (λ c, c .[ on_session_close_handler_timeout := d ])
  | OnSessionReady h => upd (λ c, c .[ on_session_ready_handler := Some h ])
  | PacketCodec k => upd (λ c, c .[ packet_codec := k ])
  | PingInterval d => upd (λ c, c .[ ping_interval := d ])
  | ReadyPacketTimeout d => upd (λ c, c .[ ready_packet_timeout := d ])
  | ReconnectDelay d => upd (λ c, c .[ reconnect_delay := d ])
  | RequestModifier h => upd (λ c, c .[ request_modifier := Some h ])
  | RequestPath p => b .[ connect_url := set_path (normalize_url_path p) (connect_url b) ]
  | WebsocketConfig w => upd (λ c, c .[ websocket_config := w ])
  | WebsocketConfigMut f => upd (λ c, c .[ websocket_config := f (websocket_config c) ])
  | WithInitHandler D R h => upd (λ c, c .[ init_handler := Some (D, R, h) ])
  end.

Definition client_configure (ss : list client_setting) (b : WsIoClientBuilder) : WsIoClientBuilder :=
  foldl (λ b s, client_set s b) b ss.
End client_config.

(** ** Paths *)
Lemma segments_free p : Forall (λ t, free_of "/" t = true) (segments p).
Proof.
  apply list.Forall_forall. intros t [_ Ht]%list_elem_of_filter. pose proof (split_parts_free "/" p) as Hf.
  rewrite list.Forall_forall in Hf. by apply Hf.
Qed.

Lemma prefix_slash s : String.prefix "/" ("/" ++ s) = true.
Proof. by destruct s. Qed.

Lemma split_normalized p :
  split_on "/" (normalize_url_path p) =
    EmptyString :: (if decide (segments p = []) then [EmptyString] else segments p).
Proof.
  change (normalize_url_path p) with (String "/" (join_with "/" (segments p))).
  simpl. f_equal. case_decide as Hp; [by rewrite Hp|]. by apply split_join, segments_free.
Qed.

Lemma segments_normalized p : segments (normalize_url_path p) = segments p.
Proof.
  unfold segments at 1. rewrite split_normalized.
  rewrite filter_cons_False by tauto. case_decide as Hp; [by rewrite Hp|].
  unfold segments. by rewrite list_filter_filter_l.
Qed.

Lemma normalize_twice p : normalize_url_path (normalize_url_path p) = normalize_url_path p.
Proof. unfold normalize_url_path at 1. by rewrite segments_normalized. Qed.

(** A normalised path begins with a slash and has the segments of the path it is
    made from, and none that is empty: two paths are normalised to the same one
    exactly if they have the same segments, and normalising twice changes nothing. *)
Theorem normalized_paths p q :
  String.prefix "/" (normalize_url_path p) = true ∧
  split_on "/" (normalize_url_path p) =
    EmptyString :: (if decide (segments p = []) then [EmptyString] else segments p) ∧
  segments (normalize_url_path p) = segments p ∧
  (normalize_url_path p = normalize_url_path q ↔ segments p = segments q) ∧
  normalize_url_path (normalize_url_path p) = normalize_url_path p.
Proof.
  split_and!; [apply prefix_slash | apply split_normalized | apply segments_normalized | |
    apply normalize_twice].
  split; [|unfold normalize_url_path; by intros ->].
  intros E. by rewrite <-(segments_normalized p), E, segments_normalized.
Qed.

Lemma plain_normalize p : plain p = true → plain (normalize_url_path p) = true.
Proof.
  intros Hp. unfold normalize_url_path, plain. rewrite all_chars_app.
  rewrite all_chars_join; [done | done |]. apply list.Forall_forall.
  intros t [_ Ht]%list_elem_of_filter. pose proof (all_chars_split plain_char "/" p Hp) as Hf.
  rewrite list.Forall_forall in Hf. by apply Hf.
Qed.

Lemma query_chars pairs : Forall plain_pair pairs → all_chars query_char (query_of pairs) = true.
Proof.
  intros Hp. apply all_chars_join; [done|]. apply Forall_fmap. eapply Forall_impl; [|exact Hp].
  intros [k v] [Hk Hv]. simpl in *. rewrite !all_chars_app. simpl. unfold plain in *.
  rewrite !(all_chars_mono plain_char query_char); try done; unfold query_char; by intros a ->.
Qed.

Section builder.
Context `{T : Types} `{U : Urls}.

(** The pairs of the URL the builder connects to. *)
Definition connect_pairs (u : url) : list (string * string) :=
  filter (λ p, p.1 ≠ "namespace"%string) (query_pairs u) ++
  [("namespace"%string, normalize_url_path (url_path u))].

Lemma connect_pairs_plain u :
  Forall plain_pair (query_pairs u) → plain (url_path u) = true → Forall plain_pair (connect_pairs u).
Proof.
  intros Hq Hp. apply Forall_app. split.
  - rewrite list.Forall_forall in Hq |- *. intros x [_ Hx]%list_elem_of_filter. by apply Hq.
  - repeat constructor. simpl. by apply plain_normalize.
Qed.

Lemma client_set_query s b :
  raw_query (connect_url (client_set s b)) = raw_query (connect_url b) ∧
  scheme (connect_url (client_set s b)) = scheme (connect_url b).
Proof. destruct s; simpl; rewrite ?query_set_path, ?scheme_set_path; done. Qed.

Lemma client_configure_query ss b :
  raw_query (connect_url (client_configure ss b)) = raw_query (connect_url b) ∧
  scheme (connect_url (client_configure ss b)) = scheme (connect_url b).
Proof.
  unfold client_configure. revert b. induction ss as [|s ss IH]; intros b; [done|]. cbn [foldl].
  destruct (IH (client_set s b)) as [-> ->]. apply client_set_query.
Qed.

(** What the builder makes of a URL it accepts. *)
Definition built (u : url) : WsIoClientBuilder := {|
  config := default_config; connect_url := set_path "ws.io" (set_query (query_of (connect_pairs u)) u) |}.

Definition accepted (tls : bool) (u : url) : Prop :=
  scheme u = "ws"%string ∨ (scheme u = "wss"%string ∧ tls = true).

Lemma client_builder_accepts tls u : accepted tls u → client_builder tls (Ok u) = Ok (built u).
Proof.
  intros Hs. unfold client_builder, client_builder_new.
  destruct Hs as [Hs | [Hs ->]]; rewrite !Hs; done.
Qed.

Lemma client_builder_built tls u b : client_builder tls (Ok u) = Ok b → b = built u.
Proof.
  unfold client_builder, client_builder_new.
  destruct (_ && _); [done|]. destruct (negb _); [done|]. by intros [= <-].
Qed.

Lemma built_query u :
  Forall plain_pair (query_pairs u) → plain (url_path u) = true →
  raw_query (connect_url (built u)) = Some (query_of (connect_pairs u)) ∧
  parse (query_of (connect_pairs u)) = connect_pairs u.
Proof.
  intros Hpairs Hpath. pose proof (connect_pairs_plain u Hpairs Hpath) as Hp. unfold built. simpl.
  rewrite query_set_path, query_set_query by by apply query_chars. split; [done | by apply parse_query_of].
Qed.

(** The builder refuses a text that is no URL, a [wss] URL without a TLS feature,
    and any scheme but [ws] and [wss].  Otherwise it has the documented defaults, keeps
    the scheme, requests the path [/ws.io], and for a URL of unreserved characters its
    query has the pairs of the given one, less those named [namespace], and one pair
    [namespace] with the normalised path at the end; no later setting changes them. *)
Theorem client_builder_checks tls u :
  client_builder (T := T) tls (Err EUrl) = Err EUrl ∧
  (scheme u = "wss"%string → tls = false → ∃ msg, client_builder tls (Ok u) = Err (EMsg msg)) ∧
  (scheme u ≠ "ws"%string → scheme u ≠ "wss"%string →
   client_builder tls (Ok u) = Err (EMsg ("Invalid URL scheme: " ++ scheme u))) ∧
  (scheme u = "ws"%string ∨ (scheme u = "wss"%string ∧ tls = true) →
   ∃ b, client_builder tls (Ok u) = Ok b ∧ config b = default_config ∧
     url_path (connect_url b) = "/ws.io"%string ∧
     ∀ ss, scheme (connect_url (client_configure ss b)) = scheme u ∧
       (Forall plain_pair (query_pairs u) → plain (url_path u) = true →
        query_pairs (connect_url (client_configure ss b)) = connect_pairs u)).
Proof.
  split_and!; [done | | |].
  - unfold client_builder. intros -> ->. by eexists.
  - intros H1 H2. unfold client_builder, client_builder_new. by rewrite !bool_decide_eq_false_2.
  - intros Hs. exists (built u). split; [by apply client_builder_accepts|]. split; [done|].
    split; [simpl; by rewrite path_set_relative|]. intros ss.
    destruct (client_configure_query ss (built u)) as [Hq Hsch]. split.
    + rewrite Hsch. simpl. by rewrite scheme_set_path, scheme_set_query.
    + intros Hpairs Hpath. destruct (built_query u Hpairs Hpath) as [Hr Hp].
      unfold query_pairs at 1. rewrite Hq, Hr. exact Hp.
Qed.
End builder.
