(* ===== verification/ClientState.v ===== *)
(** * The client's shared state

    [wsio-client/src/session.rs] and [runtime.rs]: the fields of the two
    structs, and the atomic accesses to them.  There is one runtime; sessions
    live in a heap, and so do cancellation tokens, since [connect] replaces the
    runtime's. *)

From S2P Require Import Prelude Text Async Spawner Extern ChannelCapacity Packet Codecs EventRegistry.
From S2P Require Import ClientConfig.

Inductive SessionState : Set :=
| AwaitingInit | AwaitingReady | Closed | Closing | Created | Initiating | SessionReady | Readying.

#[export] Instance session_state_eq_dec : EqDecision SessionState.
Proof. solve_decision. Defined.

(** [#[derive(Debug)]] *)
Definition show_session_state (s : SessionState) : string :=
  match s with
  | AwaitingInit => "AwaitingInit" | AwaitingReady => "AwaitingReady" | Closed => "Closed"
  | Closing => "Closing" | Created => "Created" | Initiating => "Initiating"
  | SessionReady => "Ready" | Readying => "Readying"
  end.

Inductive RuntimeStatus : Set := Running | Stopped | Stopping.

#[export] Instance client_status_eq_dec : EqDecision RuntimeStatus.
Proof. solve_decision. Defined.

Definition show_status (s : RuntimeStatus) : string :=
  match s with Running => "Running" | Stopped => "Stopped" | Stopping => "Stopping" end.

Section client_state.
Context `{T : Types} `{Cells : AtomicEnumCell} `{Chans : Mpsc} `{Nt : Notify} `{U : Urls}.

Record WsIoClientSession := {
  cancelled : bool; (* the state of [cancel_token], which a session never replaces *)
  init_timeout_task : option nat;
  message_tx : chan Message;
  ping_task : option nat;
  ready_timeout_task : option nat;
  state : cell SessionState;
}.
#[global] Instance eta_session : Eta WsIoClientSession := λ s,
  Build_WsIoClientSession (cancelled s) (init_timeout_task s) (message_tx s) (ping_task s)
    (ready_timeout_task s) (state s).

Record WsIoClientRuntime := {
  cancel_token : nat;
  config : WsIoClientConfig;
  connect_url : url;
  connection_loop_task : option nat;
  event_registry : WsIoEventRegistry nat string;
  operate_lock : bool;
  rx_lock : bool; (* the [Mutex] around [send_event_message_rx] *)
  send_event_message : chan Message; (* [send_event_message_tx] and [_rx] *)
  send_event_message_task : option nat;
  session : option nat;
  status : cell RuntimeStatus;
  wake_send_event_message_task_notify : notify;
}.
#[global] Instance eta_client_runtime : Eta WsIoClientRuntime := λ r,
  Build_WsIoClientRuntime (cancel_token r) (config r) (connect_url r) (connection_loop_task r)
    (event_registry r) (operate_lock r) (rx_lock r) (send_event_message r)
    (send_event_message_task r) (session r) (status r) (wake_send_event_message_task_notify r).

(** Tasks the client spawns.  A dispatched event and its handlers run under the
    token [t] the runtime had when they were spawned. *)
Inductive task : Type :=
| InitWatchdog (s : nat)
| ReadyWatchdog (s : nat)
| Ping (s : nat)
| OnSessionReadyTask (s : nat) (handler : string)
| DispatchEvent (t : nat) (s : nat) (entry : nat) (codec : WsIoPacketCodec) (data : option bytes)
| RunHandler (t : nat) (s : nat) (fut : string)
| ReadWsStream (s : nat)
| WriteWsStream (s : nat)
| ConnectionLoop
| SendEventMessages
| DisconnectTask.

Record Client := {
  runtime : WsIoClientRuntime;
  sessions : gmap nat WsIoClientSession;
  tokens : gmap nat bool; (* the cancellation tokens of the runtime: cancelled or not *)
  tasks : gmap nat task; (* spawned and not aborted *)
}.
#[global] Instance eta_client : Eta Client := λ c,
  Build_Client (runtime c) (sessions c) (tokens c) (tasks c).

(** What is awaited. *)
Inductive label : Type :=
| Handler (s : nat) (name : string) (arg : option any)
| ModifyRequest (name : string)
| Connect (u : url)
| Sleep (d : Duration)
| WsNext (s : nat)
| WsSend (s : nat) (m : Message)
| WsClose (s : nat)
| Select (ts : list nat)
| GracefulShutdown (d : Duration) (ts : list nat)
| Join (t : nat).

(** The answers; [RCancelled]: the token of a [select!] is cancelled;
    [RDropped]: the future is dropped by its caller. *)
Inductive reply : Type :=
| RUnit (r : result unit)
| RData (r : result (option any))
| RElapsed
| RFrame (m : option Message)
| REnded (t : nat)
| RCancelled
| RDropped.

Definition cli : Type → Type := prog Client label reply.

(** ** Access to the state *)
Definition rt_get {A} (f : WsIoClientRuntime → A) : cli A := gets (λ w, f (runtime w)).

Definition rt_set (f : WsIoClientRuntime → WsIoClientRuntime) (w : Client) : Client :=
  w .[ runtime := f (runtime w) ].

Definition rt_upd (f : WsIoClientRuntime → WsIoClientRuntime) : cli unit := modify (rt_set f).

Definition se_get {A} (s : nat) (f : WsIoClientSession → A) : cli A :=
  Atom Some (λ w, match sessions w !! s with
                  | Some x => Ret (f x) | None => Panic "dangling session" end).

Definition se_set (s : nat) (f : WsIoClientSession → WsIoClientSession) (w : Client) : Client :=
  w .[ sessions := alter f s (sessions w) ].

Definition se_upd (s : nat) (f : WsIoClientSession → WsIoClientSession) : cli unit :=
  modify (se_set s f).

(** [self.state.try_transition(from, to)?] *)
Definition try_transition (s : nat) (from to : SessionState) : cli unit :=
  Atom (λ w, Some (se_set s (λ x, x .[ state := (cell_try_transition (state x) from to).1 ]) w))
    (λ w, match sessions w !! s with
          | Some x => of_result (cell_try_transition (state x) from to).2
          | None => Panic "dangling session" end).

Definition state_store (s : nat) (st : SessionState) : cli unit :=
  se_upd s (λ x, x .[ state := cell_store (state x) st ]).

(** [tokio::spawn] *)
Definition spawn (t : task) : cli nat :=
  Atom (λ w, Some (w .[ tasks := <[fresh (dom (tasks w)) := t]> (tasks w) ]))
    (λ w, Ret (fresh (dom (tasks w)))).

(** [JoinHandle::abort] *)
Definition abort (i : nat) : cli unit := modify (λ w, w .[ tasks := delete i (tasks w) ]).

Definition abort_opt (t : option nat) : cli unit :=
  match t with Some i => abort i | None => Ret tt end.

(** [TaskSpawner::spawn_task]: [under_session s p] is the body of a task of the
    session [s], [under_runtime t p] of one of the runtime, whose token was [t]. *)
Definition is_cancel (r : reply) : bool := match r with RCancelled => true | _ => false end.
Definition session_cancelled (s : nat) (w : Client) : bool :=
  match sessions w !! s with Some x => cancelled x | None => false end.
Definition token_state (t : nat) (w : Client) : bool := default false (tokens w !! t).

Definition under_session (s : nat) (p : cli unit) : cli unit := until (session_cancelled s) is_cancel p.
Definition under_runtime (t : nat) (p : cli unit) : cli unit := until (token_state t) is_cancel p.

Definition spawn_task (t : task) : cli unit := _ <- spawn t ;; Ret tt.

(** A new runtime, with the client around it. *)
Definition runtime_new (log2 : f64 → f64) (cfg : WsIoClientConfig) (u : url) : WsIoClientRuntime := {|
  cancel_token := 0; config := cfg; connect_url := u; connection_loop_task := None;
  event_registry := registry_new; operate_lock := false; rx_lock := false;
  send_event_message :=
    channel (Z.to_nat (channel_capacity_from_websocket_config log2 (websocket_config cfg)));
  send_event_message_task := None; session := None; status := cell_new Stopped;
  wake_send_event_message_task_notify := notify_new;
|}.

(** [WsIoClientBuilder::build] *)
Definition client_build (log2 : f64 → f64) (b : WsIoClientBuilder) : Client := {|
  runtime := runtime_new log2 (ClientConfig.config b) (ClientConfig.connect_url b);
  sessions := ∅; tokens := {[0 := false]}; tasks := ∅ |}.
End client_state.
