(* ===== verification/Session.v ===== *)
(** * Client sessions ([wsio-client/src/session.rs])

    One program per method.  [self] is the address [s] of the session. *)

From S2P Require Import Prelude Text Async Extern ChannelCapacity Packet Codecs EventRegistry.
From S2P Require Import ClientConfig ClientState.

Section session.
Context `{T : Types} `{Cells : AtomicEnumCell} `{Chans : Mpsc} `{Nt : Notify} `{U : Urls} `{Crates : !SerdeCrates}.
Context (log2 : f64 → f64).

(** [WsIoClientSession::new] *)
Definition session_new : cli nat :=
  cfg <- rt_get (λ r, websocket_config (config r)) ;;
  let x := {|
    cancelled := false; init_timeout_task := None;
    message_tx := channel (Z.to_nat (channel_capacity_from_websocket_config log2 cfg));
    ping_task := None; ready_timeout_task := None; state := cell_new Created |} in
  Atom (λ w, Some (w .[ sessions := <[fresh (dom (sessions w)) := x]> (sessions w) ]))
    (λ w, Ret (fresh (dom (sessions w)))).

(** ** Handlers *)
Definition unit_reply (r : reply) : cli unit :=
  match r with
  | RUnit x => of_result x
  | RElapsed => Fail EElapsed
  | _ => Panic "not an answer of this handler"
  end.

Definition call_unit_handler (s : nat) (h : string) (arg : option any) : cli unit :=
  Await (Handler s h arg) unit_reply.

(** [with_init_handler]: the payload is decoded as [D], the answer encoded as [R]. *)
Definition call_init_handler (s : nat) (h : ty * ty * string) (packet_data : option bytes)
    (codec : WsIoPacketCodec) : cli (option bytes) :=
  let '(D, R, name) := h in
  data <- of_result (transpose (decode_data codec D <$> packet_data)) ;;
  Await (Handler s name (Any D <$> data)) (λ r,
    match r with
    | RData (Ok (Some a)) =>
        match downcast R a with
        | Some v => bytes <- of_result (encode_data codec R v) ;; Ret (Some bytes)
        | None => Panic "not an answer of this handler"
        end
    | RData (Ok None) => Ret None
    | RData (Err e) => Fail e
    | RElapsed => Fail EElapsed
    | _ => Panic "not an answer of this handler"
    end).

(** ** Messages *)
Definition encode_packet_to_message (packet : WsIoPacket) : cli Message :=
  codec <- rt_get (λ r, packet_codec (config r)) ;;
  bytes <- of_result (encode codec packet) ;;
  Ret (if is_text codec then Text bytes else Binary bytes).

Definition send_message (s : nat) (message : Message) : cli unit :=
  Atom (λ w, match sessions w !! s with
             | Some x =>
                 match chan_send (message_tx x) message with
                 | Some (ch, _) => Some (se_set s (λ x, x .[ message_tx := ch ]) w)
                 | None => None
                 end
             | None => Some w
             end)
       (λ w, match sessions w !! s with
             | Some x =>
                 match chan_send (message_tx x) message with
                 | Some (_, r) => of_result r | None => Ret tt
                 end
             | None => Panic "dangling session"
             end).

Definition send_packet (s : nat) (packet : WsIoPacket) : cli unit :=
  message <- encode_packet_to_message packet ;; send_message s message.

Definition try_send_close (s : nat) : cli unit :=
  se_upd s (λ x, x .[ message_tx := (chan_try_send (message_tx x) Close).1 ]).

Definition close (s : nat) : cli unit :=
  st <- se_get s (λ x, cell_get (state x)) ;;
  match st with
  | Closed | Closing => Ret tt
  | _ => state_store s Closing ;; try_send_close s
  end.

Definition emit_event_message (s : nat) (message : Message) : cli unit :=
  r <- se_get s (λ x, cell_ensure (state x) SessionReady
    (λ st, "Cannot emit event message in invalid state: " ++ show_session_state st)%string) ;;
  of_result r ;;
  send_message s message.

Definition is_ready (s : nat) : cli bool := se_get s (λ x, cell_is (state x) SessionReady).

(** ** Tasks kept in a field: [abort_locked_task] takes the handle out and
    aborts it. *)
Definition abort_init_timeout (s : nat) : cli unit :=
  t <- Atom (λ w, Some (se_set s (λ x, x .[ init_timeout_task := None ]) w))
         (λ w, Ret (sessions w !! s ≫= init_timeout_task)) ;;
  abort_opt t.

Definition abort_ping (s : nat) : cli unit :=
  t <- Atom (λ w, Some (se_set s (λ x, x .[ ping_task := None ]) w))
         (λ w, Ret (sessions w !! s ≫= ping_task)) ;;
  abort_opt t.

Definition abort_ready_timeout (s : nat) : cli unit :=
  t <- Atom (λ w, Some (se_set s (λ x, x .[ ready_timeout_task := None ]) w))
         (λ w, Ret (sessions w !! s ≫= ready_timeout_task)) ;;
  abort_opt t.

(** The two watchdogs close a session that is still waiting. *)
Definition watchdog (s : nat) (d : WsIoClientConfig → Duration) (waiting : SessionState) : cli unit :=
  d <- rt_get (λ r, d (config r)) ;;
  Await (Sleep d) (λ _,
    still <- se_get s (λ x, cell_is (state x) waiting) ;;
    if (still : bool) then close s else Ret tt).

Definition init_watchdog (s : nat) : cli unit := watchdog s init_packet_timeout AwaitingInit.
Definition ready_watchdog (s : nat) : cli unit := watchdog s ready_packet_timeout AwaitingReady.

(** The heartbeat, one byte; [fuel] bounds how many are sent. *)
Definition PING_MESSAGE : Message := Binary [Byte.x01].

Fixpoint ping_loop (fuel : nat) (s : nat) : cli unit :=
  match fuel with
  | 0 => Ret tt
  | S fuel =>
      d <- rt_get (λ r, ping_interval (config r)) ;;
      Await (Sleep d) (λ _,
        r <- attempt (send_message s PING_MESSAGE) ;;
        (if is_ok r then Ret tt else close s) ;;
        ping_loop fuel s)
  end.

Definition init (s : nat) : cli unit :=
  state_store s AwaitingInit ;;
  t <- spawn (InitWatchdog s) ;;
  se_upd s (λ x, x .[ init_timeout_task := Some t ]) ;;
  t <- spawn (Ping s) ;;
  se_upd s (λ x, x .[ ping_task := Some t ]).

(** ** Incoming packets *)
Definition handle_disconnect_packet : cli unit := _ <- spawn DisconnectTask ;; Ret tt.

(** The lookup is immediate, the rest is a task of the runtime. *)
Definition handle_event_packet (s : nat) (event : string) (packet_data : option bytes) : cli unit :=
  codec <- rt_get (λ r, packet_codec (config r)) ;;
  entry <- rt_get (λ r, event_entries (event_registry r) !! event) ;;
  match entry with
  | None => Ret tt
  | Some p => t <- rt_get cancel_token ;; spawn_task (DispatchEvent t s p codec packet_data)
  end.

(** The part of [handle_init_packet] after the state check. *)
Definition answer_init (s : nat) (packet_data : option bytes) : cli unit :=
  abort_init_timeout s ;;
  cfg <- rt_get config ;;
  response_data <- match init_handler cfg with
                   | Some h => call_init_handler s h packet_data (packet_codec cfg)
                   | None => Ret None
                   end ;;
  try_transition s Initiating AwaitingReady ;;
  t <- spawn (ReadyWatchdog s) ;;
  se_upd s (λ x, x .[ ready_timeout_task := Some t ]) ;;
  send_packet s (new_init response_data).

Definition handle_init_packet (s : nat) (packet_data : option bytes) : cli unit :=
  st <- se_get s (λ x, cell_get (state x)) ;;
  match st with
  | AwaitingInit => try_transition s st Initiating ;; answer_init s packet_data
  | _ => Fail (EMsg ("Received init packet in invalid state: " ++ show_session_state st)%string)
  end.

Definition handle_ready_packet (s : nat) : cli unit :=
  st <- se_get s (λ x, cell_get (state x)) ;;
  match st with
  | AwaitingReady =>
      try_transition s st SessionReady ;;
      abort_ready_timeout s ;;
      rt_upd (λ r, r .[ wake_send_event_message_task_notify :=
        notify_waiters (wake_send_event_message_task_notify r) ]) ;;
      h <- rt_get (λ r, on_session_ready_handler (config r)) ;;
      match h with
      | Some h => spawn_task (OnSessionReadyTask s h)
      | None => Ret tt
      end
  | _ => Fail (EMsg ("Received ready packet in invalid state: " ++ show_session_state st)%string)
  end.

(** The part of [handle_incoming_packet] after the decoding. *)
Definition handle_packet (s : nat) (packet : WsIoPacket) : cli unit :=
  match type packet with
  | Disconnect => handle_disconnect_packet
  | Event =>
      ready <- is_ready s ;;
      if (ready : bool) then
        match key packet with
        | Some event => handle_event_packet s event (data packet)
        | None => Fail (EMsg "Event packet missing key")
        end
      else Ret tt
  | Init => handle_init_packet s (data packet)
  | Ready => handle_ready_packet s
  end.

Definition handle_incoming_packet (s : nat) (encoded_packet : bytes) : cli unit :=
  codec <- rt_get (λ r, packet_codec (config r)) ;;
  packet <- of_result (decode codec encoded_packet) ;;
  handle_packet s packet.

Definition cleanup (s : nat) : cli unit :=
  state_store s Closing ;;
  abort_init_timeout s ;;
  abort_ping s ;;
  abort_ready_timeout s ;;
  se_upd s (λ x, x .[ cancelled := true ]) ;;
  h <- rt_get (λ r, on_session_close_handler (config r)) ;;
  match h with
  | Some h => ignore (call_unit_handler s h None)
  | None => Ret tt
  end ;;
  state_store s Closed.

(** The body of the task a dispatched event spawns. *)
Definition run_dispatch (s p : nat) (codec : WsIoPacketCodec) (packet_data : option bytes) : cli unit :=
  calls <- rt_get (λ r, dispatch_task p s codec packet_data (event_registry r)) ;;
  seq_all (λ call, match call with
    | Call fut => t <- rt_get cancel_token ;; spawn_task (RunHandler t s fut)
    | Skip => Ret tt
    | ExpectFailed => Panic "data type id matched handler registration but Arc::downcast failed"
    end) calls.
End session.
