(* ===== verification/ClientRuntime.v ===== *)
(** * The client runtime ([wsio-client/src/runtime.rs], [lib.rs]) *)

From S2P Require Import Prelude Text Async Extern ChannelCapacity Packet Codecs EventRegistry.
From S2P Require Import ClientConfig ClientState Session.

Section runtime.
Context `{T : Types} `{Cells : AtomicEnumCell} `{Chans : Mpsc} `{Nt : Notify} `{U : Urls} `{Crates : !SerdeCrates}.
Context (log2 : f64 → f64).

(** ** The reader and the writer of a session *)

(** One turn of the read loop; [false] leaves it. *)
Definition read_turn (s : nat) (message : option Message) : cli bool :=
  let result_of p := r <- attempt p ;; Ret (is_ok r) in
  match message with
  | Some (Binary bytes) => result_of (handle_incoming_packet s bytes)
  | Some Close | None => Ret false
  | Some (Text text) => result_of (handle_incoming_packet s text)
  | Some _ => Ret true
  end.

(** The loops run as long as frames arrive; [fuel] bounds how many. *)
Fixpoint read_ws_stream_task (fuel : nat) (s : nat) : cli unit :=
  match fuel with
  | 0 => Ret tt
  | S fuel =>
      Await (WsNext s) (λ r,
        match r with
        | RFrame message =>
            continue <- read_turn s message ;;
            if (continue : bool) then read_ws_stream_task fuel s else Ret tt
        | _ => Panic "not an answer of the stream"
        end)
  end.

Definition recv (s : nat) : cli (option Message) :=
  Atom (λ w, match sessions w !! s with
             | Some x =>
                 match (chan_try_recv (message_tx x)).2 with
                 | Some _ => Some (se_set s
                     (λ x, x .[ message_tx := (chan_try_recv (message_tx x)).1 ]) w)
                 | None => None
                 end
             | None => None
             end)
       (λ w, Ret (sessions w !! s ≫= λ x, (chan_try_recv (message_tx x)).2)).

(** [message_rx] is dropped with the writer. *)
Definition drop_receiver (s : nat) : cli unit :=
  se_upd s (λ x, x .[ message_tx := chan_close (message_tx x) ]).

Fixpoint write_ws_stream_task (fuel : nat) (s : nat) : cli unit :=
  match fuel with
  | 0 => Ret tt
  | S fuel =>
      m <- recv s ;;
      match m with
      | None => drop_receiver s
      | Some message =>
          Await (WsSend s message) (λ r,
            match r with
            | RUnit (Ok _) =>
                if decide (message = Close)
                then Await (WsClose s) (λ _, drop_receiver s)
                else write_ws_stream_task fuel s
            | _ => drop_receiver s
            end)
      end
  end.

(** ** One connection *)

(** A branch of a [select!] on the runtime's token is taken once it is
    cancelled. *)
Definition token_cancelled (t : nat) : cli unit :=
  block (λ w, match tokens w !! t with Some true => Some w | _ => None end).

(** What the [select!] of [run_connection] leads to. *)
Definition stop_tasks (s reader writer : nat) (r : reply) : cli unit :=
  match r with
  | REnded t =>
      if decide (t = reader) then abort writer ;; drop_receiver s else abort reader
  | _ => Panic "not an answer of select"
  end.

(** Awaiting a [JoinHandle]; one whose output has been taken panics. *)
Definition join_handle (taken : option nat) (t : nat) : cli unit :=
  if decide (taken = Some t) then Panic "JoinHandle polled after completion"
  else Await (Join t) (λ _, Ret tt).

Definition graceful_shutdown (s reader writer : nat) : cli unit :=
  close s ;;
  d <- rt_get (λ r, disconnect_timeout (config r)) ;;
  taken <- Await (GracefulShutdown d [reader; writer]) (λ r,
    match r with
    | RElapsed => abort reader ;; abort writer ;; drop_receiver s ;; Ret None
    | r => stop_tasks s reader writer r ;;
           Ret (match r with REnded t => Some t | _ => None end)
    end) ;;
  join_handle taken reader ;;
  join_handle taken writer.

Definition run_connection : cli unit :=
  u <- rt_get connect_url ;;
  of_result (into_client_request u) ;;
  cfg <- rt_get config ;;
  match request_modifier cfg with
  | Some h => Await (ModifyRequest h) unit_reply
  | None => Ret tt
  end ;;
  Await (Connect u) unit_reply ;;
  s <- session_new log2 ;;
  init s ;;
  reader <- spawn (ReadWsStream s) ;;
  writer <- spawn (WriteWsStream s) ;;
  rt_upd (λ r, r .[ session := Some s ]) ;;
  t <- rt_get cancel_token ;;
  Await (Select [reader; writer]) (λ r,
    match r with
    | RCancelled => token_cancelled t ;; graceful_shutdown s reader writer
    | r => stop_tasks s reader writer r
    end) ;;
  rt_upd (λ r, r .[ session := None ]) ;;
  cleanup s.

Definition is_running : cli bool := rt_get (λ r, cell_is (status r) Running).

(** The connection loop; [fuel] bounds the attempts. *)
Fixpoint connection_loop (fuel : nat) : cli unit :=
  match fuel with
  | 0 => Ret tt
  | S fuel =>
      running <- is_running ;;
      if (running : bool) then
        ignore run_connection ;;
        again <- is_running ;;
        (if (again : bool) then
           t <- rt_get cancel_token ;;
           d <- rt_get (λ r, reconnect_delay (config r)) ;;
           Await (Sleep d) (λ r, match r with RCancelled => token_cancelled t | _ => Ret tt end)
         else Ret tt) ;;
        connection_loop fuel
      else Ret tt
  end.

(** ** The task that sends event messages *)
Definition try_emit (message : Message) : cli bool :=
  s <- rt_get session ;;
  match s with
  | Some s => r <- attempt (emit_event_message s message) ;; Ret (is_ok r)
  | None => Ret false
  end.

(** [notified.await] *)
Definition wait_notified (t : ticket) : cli unit :=
  block (λ w, if woken (wake_send_event_message_task_notify (runtime w)) t then Some w else None).

(** The inner loop: until one session takes the message. *)
Fixpoint deliver (fuel : nat) (message : Message) : cli unit :=
  match fuel with
  | 0 => Ret tt
  | S fuel =>
      sent <- try_emit message ;;
      if (sent : bool) then Ret tt
      else
        ticket <- rt_get (λ r, notified (wake_send_event_message_task_notify r)) ;;
        sent <- try_emit message ;;
        if (sent : bool) then Ret tt
        else
          wait_notified ticket ;;
          deliver fuel message
  end.

Definition lock_rx : cli unit :=
  block (λ w, if rx_lock (runtime w) then None else Some (rt_set (λ r, r .[ rx_lock := true ]) w)).

Definition recv_event_message : cli (option Message) :=
  Atom (λ w, match (chan_try_recv (send_event_message (runtime w))).2 with
             | Some _ => Some (rt_set (λ r, r .[ send_event_message :=
                 (chan_try_recv (send_event_message r)).1 ]) w)
             | None => None
             end)
       (λ w, Ret (chan_try_recv (send_event_message (runtime w))).2).

Fixpoint send_event_messages (rounds fuel : nat) : cli unit :=
  match rounds with
  | 0 => Ret tt
  | S rounds =>
      m <- recv_event_message ;;
      match m with
      | Some message => deliver fuel message ;; send_event_messages rounds fuel
      | None => Ret tt
      end
  end.

Definition send_event_message_body (rounds fuel : nat) : cli unit :=
  lock_rx ;; send_event_messages rounds fuel.

(** ** Connecting and disconnecting *)
Definition lock_operate : cli unit :=
  block (λ w, if operate_lock (runtime w) then None
              else Some (rt_set (λ r, r .[ operate_lock := true ]) w)).

Definition unlock_operate : cli unit := rt_upd (λ r, r .[ operate_lock := false ]).

Definition new_token : cli unit :=
  modify (λ w, w .[ tokens := <[fresh (dom (tokens w)) := false]> (tokens w) ]
                 .[ runtime := (runtime w) .[ cancel_token := fresh (dom (tokens w)) ] ]).

Definition connect : cli unit :=
  lock_operate ;;
  st <- rt_get (λ r, cell_get (status r)) ;;
  match st with
  | Running => unlock_operate
  | Stopped =>
      rt_upd (λ r, r .[ status := cell_store (status r) Running ]) ;;
      new_token ;;
      t <- spawn ConnectionLoop ;;
      rt_upd (λ r, r .[ connection_loop_task := Some t ]) ;;
      t <- spawn SendEventMessages ;;
      rt_upd (λ r, r .[ send_event_message_task := Some t ]) ;;
      unlock_operate
  | Stopping => Panic "internal error: entered unreachable code"
  end.

(** The aborted task drops the guard of [send_event_message_rx] it holds. *)
Definition abort_send_task : cli unit :=
  t <- Atom (λ w, Some (rt_set (λ r, r .[ send_event_message_task := None ]) w))
         (λ w, Ret (send_event_message_task (runtime w))) ;;
  match t with
  | Some t => abort t ;; rt_upd (λ r, r .[ rx_lock := false ])
  | None => Ret tt
  end.

Definition cancel : cli unit :=
  modify (λ w, w .[ tokens := <[cancel_token (runtime w) := true]> (tokens w) ]).

(** [while send_event_message_rx.try_recv().is_ok() {}] *)
Definition drop_pending : cli unit :=
  rt_upd (λ r, r .[ send_event_message :=
    Nat.iter (length (chan_items (send_event_message r))) (λ ch, (chan_try_recv ch).1)
      (send_event_message r) ]).

Definition disconnect : cli unit :=
  lock_operate ;;
  st <- rt_get (λ r, cell_get (status r)) ;;
  match st with
  | Stopped => unlock_operate
  | Running =>
      rt_upd (λ r, r .[ status := cell_store (status r) Stopping ]) ;;
      abort_send_task ;;
      cancel ;;
      lock_rx ;;
      drop_pending ;;
      t <- Atom (λ w, Some (rt_set (λ r, r .[ connection_loop_task := None ]) w))
             (λ w, Ret (connection_loop_task (runtime w))) ;;
      let unlock := rt_upd (λ r, r .[ rx_lock := false ]) ;; unlock_operate in
      match t with
      | Some t =>
          Await (Join t) (λ r,
            match r with
            | RDropped => unlock (* the guards are dropped, nothing else is done *)
            | _ => rt_upd (λ r, r .[ status := cell_store (status r) Stopped ]) ;; unlock
            end)
      | None => rt_upd (λ r, r .[ status := cell_store (status r) Stopped ]) ;; unlock
      end
  | Stopping => Panic "internal error: entered unreachable code"
  end.

(** ** Events *)

(** [send_event_message_tx.send(..)]; the runtime holds the receiver too. *)
Definition enqueue (message : Message) : cli unit :=
  Atom (λ w, match chan_send (send_event_message (runtime w)) message with
             | Some (ch, _) => Some (rt_set (λ r, r .[ send_event_message := ch ]) w)
             | None => None
             end)
       (λ w, match chan_send (send_event_message (runtime w)) message with
             | Some (_, r) => of_result r | None => Ret tt
             end).

Definition encode_payload (codec : WsIoPacketCodec) (data : option any) : result (option bytes) :=
  transpose ((λ a, encode_data codec (type_id a) (value a)) <$> data).

Definition emit (event : string) (data : option any) : cli unit :=
  r <- rt_get (λ r, cell_ensure (status r) Running
    (λ st, "Cannot emit in invalid status: " ++ show_status st)%string) ;;
  of_result r ;;
  codec <- rt_get (λ r, packet_codec (config r)) ;;
  bytes <- of_result (encode_payload codec data) ;;
  message <- encode_packet_to_message (new_event event bytes) ;;
  enqueue message.

Definition is_session_ready : cli bool :=
  s <- rt_get session ;;
  match s with Some s => is_ready s | None => Ret false end.

Definition off (event : string) : cli unit :=
  rt_upd (λ r, r .[ event_registry := EventRegistry.off event (event_registry r) ]).

Definition off_by_handler_id (event : string) (handler_id : Z) : cli unit :=
  more <- Atom
    (λ w, Some (rt_set (λ r, r .[ event_registry :=
            (off_handler event handler_id (event_registry r)).1 ]) w))
    (λ w, Ret (off_handler event handler_id (event_registry (runtime w))).2) ;;
  if (more : bool) then Ret tt
  else rt_upd (λ r, r .[ event_registry := off_if_empty event (event_registry r) ]).

Definition on (event : string) (h : EventRegistry.Handler nat string) : cli Z :=
  Atom (λ w, Some (rt_set (λ r,
          match EventRegistry.on event h (event_registry r) with
          | Registered r' _ => r .[ event_registry := r' ] | TypeMismatch => r end) w))
       (λ w, match EventRegistry.on event h (event_registry (runtime w)) with
             | Registered _ i => Ret i
             | TypeMismatch => Panic "already registered with a different data type"
             end).
End runtime.
