(* ===== verification/RefClient.v ===== *)
(** * A concrete client

    The reference instances of [Extern], put together: a client of the
    namespace [/chat], with a session.  Examples and witnesses are evaluated on
    it. *)

From S2P Require Import Prelude Text Async Extern ChannelCapacity Packet Codecs EventRegistry.
From S2P Require Import ClientConfig ClientState Session ClientRuntime.

#[local] Existing Instances ref_types ref_cell ref_mpsc ref_notify ref_http ref_urls ref_crates.

Definition after {A} (rs : list reply) (p : cli A) (w : Client) : Client := final (run rs p w).2.

Definition chat_url : ref_url := RefUrl "ws" "//chat/" (Some "token=t"%string).

Definition chat_builder : WsIoClientBuilder :=
  match client_builder false (Ok (chat_url : url)) with
  | Ok b => client_configure [WithInitHandler false false "answer"; OnSessionReady "ready";
      OnSessionClose "bye"] b
  | Err _ => {| ClientConfig.config := default_config; ClientConfig.connect_url := (chat_url : url) |}
  end.

Definition chat_client : Client := client_build ref_log2 chat_builder.

Definition state_of (s : nat) (w : Client) : option SessionState :=
  (λ x, cell_get (state x)) <$> sessions w !! s.

Definition queue_of (s : nat) (w : Client) : option (list Message) :=
  (λ x, chan_items (message_tx x)) <$> sessions w !! s.

(** The client connects, and a session waits for the init packet. *)
Definition running_client : Client := after [] connect chat_client.

Definition waiting_client : Client :=
  after [] (s <- session_new ref_log2 ;; init s ;; rt_upd (λ r, r .[ session := Some s ])) running_client.

Definition hello : bytes := String.list_byte_of_string "hello".
Definition answer : reply := RData (Ok (Some (@Any ref_types false "secret"%string))).

(** It answers, and waits for the ready packet. *)
Definition answered_client : Client := after [answer] (handle_init_packet 0 (Some hello)) waiting_client.
Definition ready_client : Client := after [] (handle_ready_packet 0) answered_client.

Example client_handshake :
  state_of 0 waiting_client = Some AwaitingInit ∧ state_of 0 answered_client = Some AwaitingReady ∧
  state_of 0 ready_client = Some SessionReady ∧
  (length <$> queue_of 0 ready_client) = Some 1 ∧
  query_pairs (ClientConfig.connect_url chat_builder) = [("token", "t"); ("namespace", "/chat")]%string.
Proof. by vm_compute. Qed.
