(* ===== verification/RunClient.v ===== *)
(** * Running the client's operations

    What the primitive operations of a session do when they are run, the tactic
    [cstep] that walks down a program, and what the states of a session mean to
    its own methods. *)

From S2P Require Import Prelude Text Async Extern ChannelCapacity Packet Codecs EventRegistry.
From S2P Require Import ClientConfig ClientState Session ClientRuntime.

Section run.
Context `{T : Types} `{Cells : AtomicEnumCell} `{Chans : Mpsc} `{Nt : Notify} `{U : Urls} `{Crates : !SerdeCrates}.

(** ** Lookups *)
Lemma se_set_same s f w x :
  sessions w !! s = Some x → sessions (se_set s f w) !! s = Some (f x).
Proof. intros Hx. simpl. by rewrite lookup_alter_eq, Hx. Qed.

Lemma rt_set_se f w s x : sessions w !! s = Some x → sessions (rt_set f w) !! s = Some x.
Proof. done. Qed.

Lemma tasks_se t w s x : sessions w !! s = Some x → sessions (w .[ tasks := t ]) !! s = Some x.
Proof. done. Qed.

Lemma se_set_insert s f w h x :
  sessions w = <[s := x]> h → sessions (se_set s f w) = <[s := f x]> h.
Proof. intros Hx. simpl. by rewrite Hx, alter_insert_same. Qed.

Lemma se_set_first s f w x :
  sessions w !! s = Some x → sessions (se_set s f w) = <[s := f x]> (sessions w).
Proof. intros Hx. simpl. by apply alter_some. Qed.

(** ** Primitive operations, followed by the rest of the program *)
Section then_.
Context {B : Type}.
Implicit Types (r : result B) (tr : list (label * reply)).

Lemma goes_se_get {A} s (f : WsIoClientSession → A) (k : A → cli B) w x tr r w' :
  sessions w !! s = Some x → goes (k (f x)) w tr r w' → goes (bind (se_get s f) k) w tr r w'.
Proof. intros Hx Hk. eapply goes_then; [|done]. eapply goes_atom; [done|]. by rewrite Hx. Qed.

Lemma goes_rt_get {A} (f : WsIoClientRuntime → A) (k : A → cli B) w tr r w' :
  goes (k (f (runtime w))) w tr r w' → goes (bind (rt_get f) k) w tr r w'.
Proof. intros Hk. by eapply goes_then. Qed.

Lemma goes_se_upd s f (k : unit → cli B) w tr r w' :
  goes (k tt) (se_set s f w) tr r w' → goes (bind (se_upd s f) k) w tr r w'.
Proof. intros Hk. by eapply goes_then. Qed.

Lemma goes_cl_upd f (k : unit → cli B) w tr r w' :
  goes (k tt) (rt_set f w) tr r w' → goes (bind (rt_upd f) k) w tr r w'.
Proof. intros Hk. by eapply goes_then. Qed.

Lemma goes_se_transition s a b (k : unit → cli B) w x tr r w' :
  sessions w !! s = Some x → cell_get (state x) = a →
  goes (k tt) (se_set s (λ x, x .[ state := (cell_try_transition (state x) a b).1 ]) w) tr r w' →
  goes (bind (try_transition s a b) k) w tr r w'.
Proof.
  intros Hx Hs Hk. eapply goes_then; [|done]. eapply goes_atom; [done|].
  rewrite Hx. by destruct (cell_try_transition_hit (state x) a b Hs) as [_ ->].
Qed.

Lemma goes_cl_spawn t (k : nat → cli B) w tr r w' :
  goes (k (fresh (dom (tasks w)))) (w .[ tasks := <[fresh (dom (tasks w)) := t]> (tasks w) ]) tr r w' →
  goes (bind (spawn t) k) w tr r w'.
Proof. intros Hk. by eapply goes_then. Qed.
End then_.

Lemma goes_se_send s m w x :
  sessions w !! s = Some x → chan_closed (message_tx x) = false →
  length (chan_items (message_tx x)) < chan_cap (message_tx x) →
  ∃ ch, chan_items ch = chan_items (message_tx x) ++ [m] ∧ chan_cap ch = chan_cap (message_tx x) ∧
    chan_closed ch = false ∧
    goes (send_message s m) w [] (Ok tt) (se_set s (λ x, x .[ message_tx := ch ]) w).
Proof.
  intros Hx Hopen Hroom. pose proof (chan_send_spec (message_tx x) m) as Hs.
  destruct (chan_send (message_tx x) m) as [[ch res]|] eqn:E; [|lia].
  rewrite Hopen in Hs. destruct Hs as (Hcap & Hcl & _ & Hit & ->).
  exists ch. split_and!; [done | done | done |].
  eapply goes_atom; [by rewrite Hx, E|]. simpl. by rewrite Hx, E.
Qed.

Lemma goes_se_encode p w b :
  encode (packet_codec (config (runtime w))) p = Ok b →
  goes (encode_packet_to_message p) w [] (Ok (message_of (packet_codec (config (runtime w))) b)) w.
Proof. intros Hb. unfold encode_packet_to_message. apply goes_rt_get. rewrite Hb. by eapply goes_then. Qed.

Lemma goes_se_encode_err p w e :
  encode (packet_codec (config (runtime w))) p = Err e →
  goes (encode_packet_to_message p) w [] (Err e) w.
Proof. intros Hb. unfold encode_packet_to_message. apply goes_rt_get. rewrite Hb. by apply goes_bind_err. Qed.
End run.

(** Look a session up after updates. *)
Ltac clook :=
  lazymatch goal with
  | |- sessions (se_set _ _ _) !! _ = Some _ => apply se_set_same; clook
  | |- sessions (rt_set _ _) !! _ = Some _ => apply rt_set_se; clook
  | |- sessions (_ .[ tasks := _ ]) !! _ = Some _ => apply tasks_se; clook
  | |- _ => eassumption
  end.

(** One step of a program that is a sequence of primitive operations. *)
Ltac cstep :=
  lazymatch goal with
  | |- goes (bind (se_get _ _) _) _ _ _ _ => eapply goes_se_get; [clook|]; simpl
  | |- goes (bind (rt_get _) _) _ _ _ _ => apply goes_rt_get
  | |- goes (bind (se_upd _ _) _) _ _ _ _ => apply goes_se_upd
  | |- goes (bind (state_store _ _) _) _ _ _ _ => apply goes_se_upd
  | |- goes (bind (rt_upd _) _) _ _ _ _ => apply goes_cl_upd
  | |- goes (bind (spawn _) _) _ _ _ _ => apply goes_cl_spawn
  | |- goes (se_upd _ _) _ _ _ _ => apply goes_modify
  | |- goes (state_store _ _) _ _ _ _ => apply goes_modify
  | |- goes (rt_upd _) _ _ _ _ => apply goes_modify
  | |- goes (Ret _) _ _ _ _ => apply goes_ret
  | |- goes (Fail _) _ _ _ _ => apply goes_fail
  end.
