(* ===== verification/SessionRun.v ===== *)
(** * The handshake of the client

    What each packet of the server does to a session, run to its end, on every
    branch. *)

From S2P Require Import Prelude Text Async Extern ChannelCapacity Packet Codecs EventRegistry.
From S2P Require Import ClientConfig ClientState Session ClientRuntime RefClient RunClient.

Section session_run.
Context `{T : Types} `{Cells : AtomicEnumCell} `{Chans : Mpsc} `{Nt : Notify} `{U : Urls} `{Crates : !SerdeCrates}.

(** ** Aborting the tasks of a session *)
Definition without (t : option nat) (ts : gmap nat task) : gmap nat task :=
  match t with Some i => delete i ts | None => ts end.

Lemma goes_abort_opt {B} t (k : unit → cli B) w tr r w' :
  goes (k tt) (w .[ tasks := without t (tasks w) ]) tr r w' →
  goes (bind (abort_opt t) k) w tr r w'.
Proof. intros Hg. destruct t; [by eapply goes_then|]. by destruct w. Qed.

Lemma goes_take {B} (f : WsIoClientSession → option nat) g s (k : option nat → cli B) w x tr r w' :
  sessions w !! s = Some x → goes (k (f x)) (se_set s g w) tr r w' →
  goes (bind (Atom (λ w, Some (se_set s g w)) (λ w, Ret (sessions w !! s ≫= f))) k) w tr r w'.
Proof. intros Hx Hg. eapply goes_then; [|done]. eapply goes_atom; [done|]. by rewrite Hx. Qed.

Lemma goes_abort_init {B} s (k : unit → cli B) w x tr r w' :
  sessions w !! s = Some x →
  goes (k tt) ((se_set s (λ x, x .[ init_timeout_task := None ]) w)
    .[ tasks := without (init_timeout_task x) (tasks w) ]) tr r w' →
  goes (bind (abort_init_timeout s) k) w tr r w'.
Proof.
  intros Hx Hg. eapply goes_then; [|exact Hg]. unfold abort_init_timeout. eapply goes_take; [done|].
  destruct (init_timeout_task x) as [n|]; [exact (goes_modify (λ w, w .[ tasks := delete n (tasks w) ]) _) | by apply goes_ret].
Qed.

Lemma goes_abort_ping {B} s (k : unit → cli B) w x tr r w' :
  sessions w !! s = Some x →
  goes (k tt) ((se_set s (λ x, x .[ ping_task := None ]) w)
    .[ tasks := without (ping_task x) (tasks w) ]) tr r w' →
  goes (bind (abort_ping s) k) w tr r w'.
Proof.
  intros Hx Hg. eapply goes_then; [|exact Hg]. unfold abort_ping. eapply goes_take; [done|].
  destruct (ping_task x) as [n|]; [exact (goes_modify (λ w, w .[ tasks := delete n (tasks w) ]) _) | by apply goes_ret].
Qed.

Lemma goes_abort_ready {B} s (k : unit → cli B) w x tr r w' :
  sessions w !! s = Some x →
  goes (k tt) ((se_set s (λ x, x .[ ready_timeout_task := None ]) w)
    .[ tasks := without (ready_timeout_task x) (tasks w) ]) tr r w' →
  goes (bind (abort_ready_timeout s) k) w tr r w'.
Proof.
  intros Hx Hg. eapply goes_then; [|exact Hg]. unfold abort_ready_timeout. eapply goes_take; [done|].
  destruct (ready_timeout_task x) as [n|]; [exact (goes_modify (λ w, w .[ tasks := delete n (tasks w) ]) _) | by apply goes_ret].
Qed.

(** ** The init handler *)

(** [answered s cfg d tr r]: asking the init handler of [cfg] about the payload [d]
    awaits [tr] and gives [r]. *)
Inductive answered (s : nat) (cfg : WsIoClientConfig) (d : option bytes) :
    list (label * reply) → result (option bytes) → Prop :=
| answered_none : init_handler cfg = None → answered s cfg d [] (Ok None)
| answered_undecoded D R h e :
    init_handler cfg = Some (D, R, h) → transpose (decode_data (packet_codec cfg) D <$> d) = Err e →
    answered s cfg d [] (Err e)
| answered_data D R h v (a : denote R) :
    init_handler cfg = Some (D, R, h) → transpose (decode_data (packet_codec cfg) D <$> d) = Ok v →
    answered s cfg d [(Handler s h (Any D <$> v), RData (Ok (Some (Any R a))))]
      (result_map Some (encode_data (packet_codec cfg) R a))
| answered_nothing D R h v :
    init_handler cfg = Some (D, R, h) → transpose (decode_data (packet_codec cfg) D <$> d) = Ok v →
    answered s cfg d [(Handler s h (Any D <$> v), RData (Ok None))] (Ok None)
| answered_refused D R h v e :
    init_handler cfg = Some (D, R, h) → transpose (decode_data (packet_codec cfg) D <$> d) = Ok v →
    answered s cfg d [(Handler s h (Any D <$> v), RData (Err e))] (Err e)
| answered_late D R h v :
    init_handler cfg = Some (D, R, h) → transpose (decode_data (packet_codec cfg) D <$> d) = Ok v →
    answered s cfg d [(Handler s h (Any D <$> v), RElapsed)] (Err EElapsed).

Definition ask_init (s : nat) (cfg : WsIoClientConfig) (d : option bytes) : cli (option bytes) :=
  match init_handler cfg with
  | Some h => call_init_handler s h d (packet_codec cfg)
  | None => Ret None
  end.

Lemma goes_answered s cfg d tr r w : answered s cfg d tr r → goes (ask_init s cfg d) w tr r w.
Proof.
  unfold ask_init. intros [Hh | D R h e Hh Hv | D R h v a Hh Hv | D R h v Hh Hv | D R h v e Hh Hv | D R h v Hh Hv];
    rewrite Hh; simpl; rewrite ?Hv; simpl; try by apply goes_await.
  - done.
  - done.
  - apply goes_await. rewrite downcast_same. by destruct (encode_data _ _ _).
Qed.

(** ** The init packet *)
Section init_packet.
Context (s : nat) (d : option bytes) (w : Client) (x : WsIoClientSession).
Context (Hx : sessions w !! s = Some x) (Hst : cell_get (state x) = AwaitingInit).

(** After the watchdog has been aborted. *)
Definition initiating : Client :=
  let w1 := se_set s (λ x, x .[ state := (cell_try_transition (state x) AwaitingInit Initiating).1 ]) w in
  (se_set s (λ x, x .[ init_timeout_task := None ]) w1) .[ tasks := without (init_timeout_task x) (tasks w) ].

Lemma initiating_at :
  sessions initiating = <[s := x .[ state := (cell_try_transition (state x) AwaitingInit Initiating).1 ]
    .[ init_timeout_task := None ]]> (sessions w).
Proof. unfold initiating. simpl. by rewrite (alter_some _ _ _ _ Hx), alter_insert_same. Qed.

Lemma goes_init_packet tr resp r w' :
  answered s (config (runtime w)) d tr resp →
  goes (resp <- of_result resp ;;
        try_transition s Initiating AwaitingReady ;;
        t <- spawn (ReadyWatchdog s) ;;
        se_upd s (λ x, x .[ ready_timeout_task := Some t ]) ;;
        send_packet s (new_init resp)) initiating [] r w' →
  goes (handle_init_packet s d) w tr r w'.
Proof.
  intros Ha Hg. unfold handle_init_packet. eapply goes_se_get; [done|]. rewrite Hst.
  eapply goes_se_transition; [done..|]. unfold answer_init.
  eapply goes_abort_init; [by apply se_set_same|]. apply goes_rt_get.
  apply (goes_answered _ _ _ _ _ initiating) in Ha. destruct resp as [v|e].
  - rewrite <-(app_nil_r tr). eapply goes_bind; [exact Ha | exact Hg].
  - apply goes_fail_inv in Hg as (_ & -> & ->). by apply goes_bind_err.
Qed.

Lemma init_packet_answered_run tr v b (Ha : answered s (config (runtime w)) d tr (Ok v))
    (Hb : encode (packet_codec (config (runtime w))) (new_init v) = Ok b)
    (Hopen : chan_closed (message_tx x) = false)
    (Hroom : length (chan_items (message_tx x)) < chan_cap (message_tx x)) :
  ∃ w' x' t, goes (handle_init_packet s d) w tr (Ok tt) w' ∧
    sessions w' = <[s := x']> (sessions w) ∧ cell_get (state x') = AwaitingReady ∧
    cancelled x' = cancelled x ∧ ping_task x' = ping_task x ∧
    init_timeout_task x' = None ∧ ready_timeout_task x' = Some t ∧
    chan_items (message_tx x') =
      chan_items (message_tx x) ++ [message_of (packet_codec (config (runtime w))) b] ∧
    decode (packet_codec (config (runtime w))) b = Ok (new_init v) ∧
    without (init_timeout_task x) (tasks w) !! t = None ∧
    tasks w' = <[t := ReadyWatchdog s]> (without (init_timeout_task x) (tasks w)) ∧
    runtime w' = runtime w ∧ tokens w' = tokens w.
Proof.
  set (s1 := (cell_try_transition (state x) AwaitingInit Initiating).1).
  assert (Hs1 : cell_get s1 = Initiating) by by apply cell_try_transition_hit.
  set (s2 := (cell_try_transition s1 Initiating AwaitingReady).1).
  set (t := fresh (dom (tasks initiating))).
  set (x1 := x .[ state := s2 ] .[ init_timeout_task := None ] .[ ready_timeout_task := Some t ]).
  set (w1 := se_set s (λ x, x .[ ready_timeout_task := Some t ])
    ((se_set s (λ x, x .[ state := (cell_try_transition (state x) Initiating AwaitingReady).1 ]) initiating)
      .[ tasks := <[t := ReadyWatchdog s]> (tasks initiating) ])).
  assert (Hx1 : sessions w1 = <[s := x1]> (sessions w)).
  { unfold w1, initiating, x1, s2, s1. destruct x, w. simpl in *. by rewrite (alter_some _ _ _ _ Hx), !alter_insert_same. }
  destruct (goes_se_send s (message_of (packet_codec (config (runtime w))) b) w1 x1)
    as (ch & Hit & Hcap & Hcl & Hgo); [by rewrite Hx1, lookup_insert_eq | done..|].
  exists (se_set s (λ x, x .[ message_tx := ch ]) w1), (x1 .[ message_tx := ch ]), t. split_and!; try done.
  - eapply goes_init_packet; [done|]. eapply goes_then; [exact (goes_ret v initiating)|].
    eapply goes_se_transition; [by rewrite initiating_at, lookup_insert_eq | exact Hs1|].
    apply goes_cl_spawn. cstep. unfold send_packet. eapply goes_then; [by apply goes_se_encode|]. exact Hgo.
  - by apply se_set_insert.
  - by apply cell_try_transition_hit.
  - by apply decode_encode_ok.
  - unfold t. apply not_elem_of_dom, is_fresh.
Qed.

(** An init packet for a session that waits for it, with an init handler that
    answers in time or none: the init watchdog is aborted, the session waits for the
    ready packet under a new watchdog, and the init packet with the answer of the
    handler is the last of its queue; the server's side decodes it to that packet.
    Nothing else changes. *)
Theorem init_packet_answered tr v b (Ha : answered s (config (runtime w)) d tr (Ok v))
    (Hb : encode (packet_codec (config (runtime w))) (new_init v) = Ok b)
    (Hopen : chan_closed (message_tx x) = false)
    (Hroom : length (chan_items (message_tx x)) < chan_cap (message_tx x)) :
  ∃ w' x' t, goes (handle_init_packet s d) w tr (Ok tt) w' ∧
    sessions w' = <[s := x']> (sessions w) ∧ cell_get (state x') = AwaitingReady ∧
    cancelled x' = cancelled x ∧ ping_task x' = ping_task x ∧
    init_timeout_task x' = None ∧ ready_timeout_task x' = Some t ∧
    chan_items (message_tx x') =
      chan_items (message_tx x) ++ [message_of (packet_codec (config (runtime w))) b] ∧
    decode (packet_codec (config (runtime w))) b = Ok (new_init v) ∧
    without (init_timeout_task x) (tasks w) !! t = None ∧
    tasks w' = <[t := ReadyWatchdog s]> (without (init_timeout_task x) (tasks w)) ∧
    runtime w' = runtime w ∧ tokens w' = tokens w.
Proof. by apply init_packet_answered_run. Qed.

(** An init packet whose payload cannot be decoded, or whose handler fails or does not
    answer in time, is an error: the session stays initiating, its watchdog is aborted,
    and nothing is sent. *)
Theorem init_packet_failed tr e (Ha : answered s (config (runtime w)) d tr (Err e)) :
  ∃ x', goes (handle_init_packet s d) w tr (Err e) initiating ∧
    sessions initiating = <[s := x']> (sessions w) ∧ cell_get (state x') = Initiating ∧
    init_timeout_task x' = None ∧ message_tx x' = message_tx x ∧
    tasks initiating = without (init_timeout_task x) (tasks w) ∧ runtime initiating = runtime w.
Proof.
  eexists. split_and!; [eapply goes_init_packet; [exact Ha | apply goes_fail] | apply initiating_at | |
    done..].
  by apply cell_try_transition_hit.
Qed.
End init_packet.

(** ** The ready packet *)

Lemma ready_packet_run s w x (Hx : sessions w !! s = Some x) (Hst : cell_get (state x) = AwaitingReady) :
  ∃ w' x', goes (handle_ready_packet s) w [] (Ok tt) w' ∧
    sessions w' = <[s := x']> (sessions w) ∧ cell_get (state x') = SessionReady ∧
    ready_timeout_task x' = None ∧ message_tx x' = message_tx x ∧
    (∀ t, t = notified (wake_send_event_message_task_notify (runtime w)) ∨
          woken (wake_send_event_message_task_notify (runtime w)) t = true →
       woken (wake_send_event_message_task_notify (runtime w')) t = true) ∧
    session (runtime w') = session (runtime w) ∧ status (runtime w') = status (runtime w) ∧
    match on_session_ready_handler (config (runtime w)) with
    | None => tasks w' = without (ready_timeout_task x) (tasks w)
    | Some h => ∃ i, without (ready_timeout_task x) (tasks w) !! i = None ∧
        tasks w' = <[i := OnSessionReadyTask s h]> (without (ready_timeout_task x) (tasks w))
    end.
Proof.
  set (w1 := se_set s (λ x, x .[ state := (cell_try_transition (state x) AwaitingReady SessionReady).1 ]) w).
  set (w2 := rt_set (λ r, r .[ wake_send_event_message_task_notify :=
    notify_waiters (wake_send_event_message_task_notify r) ])
    ((se_set s (λ x, x .[ ready_timeout_task := None ]) w1)
      .[ tasks := without (ready_timeout_task x) (tasks w) ])).
  set (x1 := x .[ state := (cell_try_transition (state x) AwaitingReady SessionReady).1 ]
    .[ ready_timeout_task := None ]).
  assert (Hx2 : sessions w2 = <[s := x1]> (sessions w)).
  { unfold w2, w1, x1. simpl. by rewrite (alter_some _ _ _ _ Hx), alter_insert_same. }
  assert (Hwake : ∀ t, t = notified (wake_send_event_message_task_notify (runtime w)) ∨
    woken (wake_send_event_message_task_notify (runtime w)) t = true →
    woken (notify_waiters (wake_send_event_message_task_notify (runtime w))) t = true).
  { intros t [-> | Ht]; [apply woken_notify | by apply woken_mono]. }
  assert (Hgo : ∀ r w', goes (match on_session_ready_handler (config (runtime w)) with
      | Some h => spawn_task (OnSessionReadyTask s h) | None => Ret tt end) w2 [] r w' →
    goes (handle_ready_packet s) w [] r w').
  { intros r w' Hg. unfold handle_ready_packet. eapply goes_se_get; [done|]. rewrite Hst.
    eapply goes_se_transition; [done..|]. eapply goes_abort_ready; [by apply se_set_same|].
    apply goes_cl_upd, goes_rt_get. exact Hg. }
  destruct (on_session_ready_handler (config (runtime w))) as [h|].
  - set (i := fresh (dom (tasks w2))).
    exists (w2 .[ tasks := <[i := OnSessionReadyTask s h]> (tasks w2) ]), x1. split_and!; try done.
    + apply Hgo. unfold spawn_task. apply goes_cl_spawn, goes_ret.
    + by apply cell_try_transition_hit.
    + exists i. split; [|done]. unfold i. apply not_elem_of_dom. apply is_fresh.
  - exists w2, x1. split_and!; try done; [apply Hgo, goes_ret | by apply cell_try_transition_hit].
Qed.

(** A ready packet for a session that waits for it makes it ready, aborts the
    watchdog, wakes every sender that had registered before, and starts the
    on-ready handler if there is one; nothing else changes. *)
Theorem ready_packet s w x (Hx : sessions w !! s = Some x) (Hst : cell_get (state x) = AwaitingReady) :
  ∃ w' x', goes (handle_ready_packet s) w [] (Ok tt) w' ∧
    sessions w' = <[s := x']> (sessions w) ∧ cell_get (state x') = SessionReady ∧
    ready_timeout_task x' = None ∧ message_tx x' = message_tx x ∧
    (∀ t, t = notified (wake_send_event_message_task_notify (runtime w)) ∨
          woken (wake_send_event_message_task_notify (runtime w)) t = true →
       woken (wake_send_event_message_task_notify (runtime w')) t = true) ∧
    session (runtime w') = session (runtime w) ∧ status (runtime w') = status (runtime w) ∧
    match on_session_ready_handler (config (runtime w)) with
    | None => tasks w' = without (ready_timeout_task x) (tasks w)
    | Some h => ∃ i, without (ready_timeout_task x) (tasks w) !! i = None ∧
        tasks w' = <[i := OnSessionReadyTask s h]> (without (ready_timeout_task x) (tasks w))
    end.
Proof. by apply ready_packet_run. Qed.

End session_run.

(** ** Witnesses *)
#[local] Existing Instances ref_types ref_cell ref_mpsc ref_notify ref_http ref_urls ref_crates.

Lemma waiting_session :
  ∃ x, sessions waiting_client !! 0 = Some x ∧ cell_get (state x) = AwaitingInit ∧
    chan_closed (message_tx x) = false ∧ length (chan_items (message_tx x)) < chan_cap (message_tx x).
Proof.
  destruct (sessions waiting_client !! 0) as [x|] eqn:Hx; [|by vm_compute in Hx].
  exists x. split; [done|]. split; [|split].
  - apply (field_of (λ x, cell_get (state x)) _ x _ Hx). by vm_compute.
  - apply (field_of (λ x, chan_closed (message_tx x)) _ x _ Hx). by vm_compute.
  - apply Nat.ltb_lt.
    apply (field_of (λ x, length (chan_items (message_tx x)) <? chan_cap (message_tx x)) _ x _ Hx). by vm_compute.
Qed.

Definition answer_call : label := Handler 0 "answer" (Some (@Any ref_types false "hello"%string)).

Lemma hello_answered r v :
  result_map Some (encode_data SerdeJson (false : @ty ref_types) "secret"%string) = v → r = answer →
  answered 0 (config (runtime waiting_client)) (Some hello) [(answer_call, r)] v.
Proof.
  intros <- ->. apply (answered_data 0 (config (runtime waiting_client)) (Some hello) (false : @ty ref_types) (false : @ty ref_types)
    "answer" (Some "hello"%string) "secret"%string); by vm_compute.
Qed.

Lemma init_packet_answered_witness :
  ∃ w', goes (handle_init_packet 0 (Some hello)) waiting_client [(answer_call, answer)] (Ok tt) w'.
Proof.
  destruct waiting_session as (x & Hx & Hst & Hopen & Hroom).
  destruct (init_packet_answered 0 (Some hello) waiting_client x Hx Hst [(answer_call, answer)]
    (Some (String.list_byte_of_string "secret"))
    (Byte.x02 :: Byte.x00 :: put_opt (Some (String.list_byte_of_string "secret")))) as (w' & x' & t & Hg & _).
  - by apply hello_answered.
  - by vm_compute.
  - exact Hopen.
  - exact Hroom.
  - exists w'. exact Hg.
Defined.

Lemma init_packet_failed_witness :
  ∃ w', goes (handle_init_packet 0 (Some hello)) waiting_client [(answer_call, RElapsed)] (Err EElapsed) w'.
Proof.
  destruct waiting_session as (x & Hx & Hst & _).
  destruct (init_packet_failed 0 (Some hello) waiting_client x Hx Hst [(answer_call, RElapsed)] EElapsed)
    as (x' & Hg & _).
  - apply (answered_late 0 (config (runtime waiting_client)) (Some hello) (false : @ty ref_types) (false : @ty ref_types)
      "answer" (Some "hello"%string)); by vm_compute.
  - eexists. exact Hg.
Defined.

Lemma ready_packet_witness :
  ∃ w', goes (handle_ready_packet 0) answered_client [] (Ok tt) w' ∧ state_of 0 w' = Some SessionReady.
Proof.
  destruct (sessions answered_client !! 0) as [x|] eqn:Hx; [|by vm_compute in Hx].
  assert (cell_get (state x) = AwaitingReady) as Hst
    by (apply (field_of (λ x, cell_get (state x)) _ x _ Hx); by vm_compute).
  destruct (ready_packet 0 answered_client x Hx Hst) as (w' & x' & Hg & Hx' & Hst' & _).
  exists w'. split; [exact Hg|]. unfold state_of. rewrite Hx', lookup_insert_eq.
  exact (f_equal Some Hst').
Defined.

