(* ===== verification/ClientRun.v ===== *)
(** * The end of a session

    [close], the two watchdogs and [cleanup], run to their end. *)

From S2P Require Import Prelude Text Async Extern ChannelCapacity Packet Codecs EventRegistry.
From S2P Require Import ClientConfig ClientState Session ClientRuntime RefClient RunClient SessionRun.

Section client_run.
Context `{T : Types} `{Cells : AtomicEnumCell} `{Chans : Mpsc} `{Nt : Notify} `{U : Urls} `{Crates : !SerdeCrates}.

Section one.
Context (s : nat) (w : Client) (x : WsIoClientSession) (Hx : sessions w !! s = Some x).

(** What [close] does to a session that is not closing yet. *)
Definition closed_by_close (x' : WsIoClientSession) : Prop :=
  let full := bool_decide (chan_cap (message_tx x) ≤ length (chan_items (message_tx x))) in
  cell_get (state x') = Closing ∧
  chan_items (message_tx x') = chan_items (message_tx x) ++
    (if chan_closed (message_tx x) || full then [] else [Close]) ∧
  x' = x .[ state := state x' ] .[ message_tx := message_tx x' ].

Definition ending (st : SessionState) : bool :=
  match st with Closing | Closed => true | _ => false end.

Lemma goes_se_close :
  (ending (cell_get (state x)) = true ∧ goes (close s) w [] (Ok tt) w) ∨
  (ending (cell_get (state x)) = false ∧ ∃ x', closed_by_close x' ∧
    goes (close s) w [] (Ok tt) (w .[ sessions := <[s := x']> (sessions w) ])).
Proof.
  destruct (ending (cell_get (state x))) eqn:He; [left|right]; (split; [done|]).
  - eapply goes_se_get; [done|]. by destruct (cell_get (state x)).
  - exists (x .[ state := cell_store (state x) Closing ]
              .[ message_tx := (chan_try_send (message_tx x) Close).1 ]).
    split.
    + pose proof (chan_try_send_spec (message_tx x) Close) as Hc. cbv zeta in Hc.
      destruct (chan_try_send (message_tx x) Close) as [ch r] eqn:E.
      destruct Hc as (_ & _ & Hit & _). split_and!; simpl; rewrite ?E; [apply cell_get_store | | done].
      rewrite Hit. simpl. destruct (chan_closed (message_tx x) || _); by rewrite ?app_nil_r.
    + eapply goes_se_get; [done|].
      assert (goes (state_store s Closing ;; try_send_close s) w [] (Ok tt)
        (w .[ sessions := <[s := x .[ state := cell_store (state x) Closing ]
           .[ message_tx := (chan_try_send (message_tx x) Close).1 ]]> (sessions w) ])) as Hg.
      { apply goes_se_upd. eapply goes_atom; [|apply goes_ret]. f_equal.
        unfold se_set, update. simpl. by rewrite (alter_some _ _ _ _ Hx), alter_insert_same. }
      by destruct (cell_get (state x)).
Qed.

(** [close] takes a session to [Closing] and puts one close frame at the end of its
    queue if there is room; it does nothing to a session that is closing or closed, so
    a second call does nothing. *)
Theorem session_close :
  ∃ w', goes (close s) w [] (Ok tt) w' ∧ goes (close s) w' [] (Ok tt) w' ∧
    (ending (cell_get (state x)) = true → w' = w) ∧
    (ending (cell_get (state x)) = false → ∃ x', closed_by_close x' ∧
       w' = w .[ sessions := <[s := x']> (sessions w) ]).
Proof.
  destruct goes_se_close as [[He Hg]|(He & x' & Hx' & Hg)].
  - exists w. split_and!; [done..| |]; congruence.
  - eexists. split; [exact Hg|]. split; [|split; [congruence|by exists x']].
    eapply goes_se_get; [apply lookup_insert_eq|]. by rewrite (proj1 Hx').
Qed.

Lemma goes_watchdog d waiting :
  ending waiting = false →
  let timer := (Sleep (d (config (runtime w))), RUnit (Ok tt)) in
  (cell_get (state x) ≠ waiting → goes (watchdog s d waiting) w [timer] (Ok tt) w) ∧
  (cell_get (state x) = waiting → ∃ x', closed_by_close x' ∧
     goes (watchdog s d waiting) w [timer] (Ok tt) (w .[ sessions := <[s := x']> (sessions w) ])).
Proof.
  intros Hw. cbv zeta. split; intros Hs.
  - apply goes_rt_get, goes_await. eapply goes_se_get; [done|]. rewrite cell_is_spec. by rewrite bool_decide_false.
  - destruct goes_se_close as [[He Hg]|(He & x' & Hx' & Hg)]; [congruence|].
    exists x'. split; [done|].
    apply goes_rt_get, goes_await. eapply goes_se_get; [done|]. rewrite cell_is_spec. by rewrite bool_decide_true.
Qed.

(** When its time is over, the init watchdog closes a session that still waits for the
    init packet and the ready watchdog one that still waits for the ready packet; they
    leave a session in any other state alone. *)
Theorem session_watchdogs :
  let init_timer := (Sleep (init_packet_timeout (config (runtime w))), RUnit (Ok tt)) in
  let ready_timer := (Sleep (ready_packet_timeout (config (runtime w))), RUnit (Ok tt)) in
  ((cell_get (state x) ≠ AwaitingInit → goes (init_watchdog s) w [init_timer] (Ok tt) w) ∧
   (cell_get (state x) = AwaitingInit → ∃ x', closed_by_close x' ∧
      goes (init_watchdog s) w [init_timer] (Ok tt) (w .[ sessions := <[s := x']> (sessions w) ]))) ∧
  ((cell_get (state x) ≠ AwaitingReady → goes (ready_watchdog s) w [ready_timer] (Ok tt) w) ∧
   (cell_get (state x) = AwaitingReady → ∃ x', closed_by_close x' ∧
      goes (ready_watchdog s) w [ready_timer] (Ok tt) (w .[ sessions := <[s := x']> (sessions w) ]))).
Proof. split; by apply goes_watchdog. Qed.

(** ** [cleanup] *)
Definition released (st : cell SessionState) : WsIoClientSession :=
  x .[ state := st ] .[ init_timeout_task := None ] .[ ping_task := None ]
    .[ ready_timeout_task := None ] .[ cancelled := true ].

(** The close handler's call and its answer, an error and a time-out included. *)
Definition close_call (tr : list (label * reply)) : Prop :=
  match on_session_close_handler (config (runtime w)) with
  | None => tr = []
  | Some h => tr = [(Handler s h None, RElapsed)] ∨ ∃ r, tr = [(Handler s h None, RUnit r)]
  end.

(** [cleanup] of a session in any state aborts its watchdogs and its heartbeat, cancels
    its token, calls the close handler once if there is one, whatever it answers, and
    leaves the session closed; nothing else changes. *)
Theorem session_cleanup tr (Htr : close_call tr) :
  ∃ w' st, goes (cleanup s) w tr (Ok tt) w' ∧ cell_get st = Closed ∧
    sessions w' = <[s := released st]> (sessions w) ∧
    tasks w' = without (ready_timeout_task x) (without (ping_task x) (without (init_timeout_task x) (tasks w))) ∧
    runtime w' = runtime w ∧ tokens w' = tokens w.
Proof.
  set (x1 := x .[ state := cell_store (state x) Closing ]).
  set (ts := without (ready_timeout_task x) (without (ping_task x) (without (init_timeout_task x) (tasks w)))).
  set (x2 := x1 .[ init_timeout_task := None ] .[ ping_task := None ]
    .[ ready_timeout_task := None ] .[ cancelled := true ]).
  set (w1 := (w .[ sessions := <[s := x2]> (sessions w) ]) .[ tasks := ts ]).
  set (st := cell_store (cell_store (state x) Closing) Closed).
  exists (se_set s (λ x, x .[ state := cell_store (state x) Closed ]) w1), st. split_and!; try done.
  - assert (Hcall : goes (match on_session_close_handler (config (runtime w)) with
        | Some h => ignore (call_unit_handler s h None) | None => Ret tt end) w1 tr (Ok tt) w1).
    { unfold close_call in Htr. destruct (on_session_close_handler _) as [h|]; [|by subst].
      destruct Htr as [-> | [r ->]]; eapply goes_ignore, goes_await; [apply goes_fail | apply goes_of_result]. }
    unfold cleanup. apply goes_se_upd.
    eapply goes_abort_init; [by apply se_set_same|]. eapply goes_abort_ping; [by do 2 apply se_set_same|].
    eapply goes_abort_ready; [by do 3 apply se_set_same|]. apply goes_se_upd, goes_rt_get.
    match goal with |- goes _ ?w2 _ _ _ => assert (w2 = w1) as -> end.
    { unfold w1, ts, x2, x1, se_set, update. destruct w. simpl in *.
      by rewrite (alter_some _ _ _ _ Hx), !alter_insert_same. }
    rewrite <-(app_nil_r tr). eapply goes_bind; [exact Hcall|]. by apply goes_modify.
  - apply cell_get_store.
  - simpl. rewrite alter_insert_same. unfold x2, x1, released, st. by destruct x.
Qed.
End one.
End client_run.

(** ** Witnesses *)
#[local] Existing Instances ref_types ref_cell ref_mpsc ref_notify ref_http ref_urls ref_crates.

Lemma session_close_witness : ∃ w', goes (close 0) ready_client [] (Ok tt) w' ∧ goes (close 0) w' [] (Ok tt) w'.
Proof.
  destruct (sessions ready_client !! 0) as [x|] eqn:Hx; [|by vm_compute in Hx].
  destruct (session_close 0 ready_client x Hx) as (w' & H1 & H2 & _).
  exists w'. split; [exact H1 | exact H2].
Defined.

Lemma session_watchdogs_witness :
  ∃ w', goes (init_watchdog 0) waiting_client
    [(Sleep (init_packet_timeout (config (runtime waiting_client))), RUnit (Ok tt))] (Ok tt) w'.
Proof.
  destruct waiting_session as (x & Hx & Hst & _).
  destruct (proj2 (proj1 (session_watchdogs 0 waiting_client x Hx)) Hst) as (x' & _ & Hg).
  eexists. exact Hg.
Defined.

Lemma session_cleanup_witness :
  ∃ w', goes (cleanup 0) ready_client [(Handler 0 "bye" None, RElapsed)] (Ok tt) w'.
Proof.
  destruct (sessions ready_client !! 0) as [x|] eqn:Hx; [|by vm_compute in Hx].
  destruct (session_cleanup 0 ready_client x Hx [(Handler 0 "bye" None, RElapsed)]) as (w' & st & Hg & _).
  - unfold close_call. replace (on_session_close_handler (config (runtime ready_client)))
      with (Some "bye"%string) by by vm_compute. left. reflexivity.
  - exists w'. exact Hg.
Defined.
