(* ===== verification/ClientTasks.v ===== *)
(** * The tasks of a client

    What the client runs: the calls of the application, and the tasks it has
    spawned itself.  A task is started only from the table of spawned tasks. *)

From S2P Require Import Prelude Text Async Spawner Concurrent Owned Extern ChannelCapacity Packet Codecs.
From S2P Require Import EventRegistry ClientConfig ClientState Session ClientRuntime RefClient.

Section tasks.
Context `{T : Types} `{Cells : AtomicEnumCell} `{Chans : Mpsc} `{Nt : Notify} `{U : Urls} `{Crates : !SerdeCrates}.
Context (log2 : f64 → f64).

(** The program of a spawned task; [fuel] bounds its loops. *)
Definition body (fuel : nat) (t : task) : cli unit :=
  match t with
  | InitWatchdog s => init_watchdog s
  | ReadyWatchdog s => ready_watchdog s
  | Ping s => ping_loop fuel s
  | OnSessionReadyTask s h => under_session s (call_unit_handler s h None)
  | DispatchEvent t s p codec d => under_runtime t (run_dispatch s p codec d)
  | RunHandler t s fut => under_runtime t (call_unit_handler s fut None)
  | ReadWsStream s => read_ws_stream_task fuel s
  | WriteWsStream s => write_ws_stream_task fuel s
  | ConnectionLoop => connection_loop log2 fuel
  | SendEventMessages => send_event_message_body fuel fuel
  | DisconnectTask => disconnect
  end.

(** The calls of the application, and [Spawned i fuel]: the task [i] of the
    table gets to run. *)
Inductive client_call : Type :=
| CallConnect
| CallDisconnect
| CallEmit (event : string) (d : option any)
| CallOn (event : string) (h : EventRegistry.Handler nat string)
| CallOff (event : string)
| CallOffById (event : string) (i : Z)
| Spawned (i fuel : nat).

Definition client_code (c : client_call) (w : Client) : option (cli unit) :=
  match c with
  | CallConnect => Some connect
  | CallDisconnect => Some disconnect
  | CallEmit event d => Some (emit event d)
  | CallOn event h => Some (_ <- on event h ;; Ret tt)
  | CallOff event => Some (off event)
  | CallOffById event i => Some (off_by_handler_id event i)
  | Spawned i fuel => body fuel <$> tasks w !! i
  end.

Definition client_starts : Client → cli unit → Prop := may_start client_code.
End tasks.

(** ** Schedules of the concrete client *)
#[local] Existing Instances ref_types ref_cell ref_mpsc ref_notify ref_http ref_urls ref_crates.

Abbreviation client_schedule := (list (order (W := Client) (L := label) (R := reply) (C := client_call))).

(** [k] steps of the task [i], and an answer to it. *)
Definition go (i k : nat) : client_schedule := Go <$> steps i k.
Definition replied (i : nat) (r : reply) : client_schedule := [Go (MReply i r)].

Definition ok_reply : reply := RUnit (Ok tt).

(** The client connects; its loop is a task, and has connected. *)
Definition connect_moves : client_schedule :=
  [Start 0 CallConnect] ++ go 0 9 ++ [Start 1 (Spawned 0 1)] ++ go 1 3 ++
  replied 1 ok_reply.

(** The packets of the handshake. *)
Definition init_frame : Message := Text (Byte.x02 :: Byte.x00 :: put_opt (Some hello)).
Definition ready_frame : Message := Text [Byte.x03; Byte.x00; Byte.x00].

(** A session gets ready: its reader, task 4, handles the two packets. *)
Definition handshake_moves : client_schedule :=
  connect_moves ++ go 1 11 ++ [Start 4 (Spawned 4 3)] ++ replied 4 (RFrame (Some init_frame)) ++ go 4 6 ++
  replied 4 answer ++ go 4 5 ++ replied 4 (RFrame (Some ready_frame)) ++ go 4 8.

(** A [disconnect] is dropped while it waits for the loop, and [connect] is called. *)
Definition dropped_moves : client_schedule :=
  connect_moves ++ [Start 2 CallDisconnect] ++ go 2 10 ++ replied 2 RDropped ++ go 2 2 ++
  [Start 3 CallConnect] ++ go 3 2.

Example client_schedules :
  state_of 0 (shared (obeyed (client_code ref_log2) handshake_moves (idle chat_client))) = Some SessionReady ∧
  panicked 3 (obeyed (client_code ref_log2) dropped_moves (idle chat_client)) = true.
Proof. by vm_compute. Qed.
