(* ===== verification/ClientGuarantee.v ===== *)
(** * What the tasks of a client guarantee each other

    [client_ok] is what every step keeps to: sessions move along their state
    machine, and what a state says of the past stays true.  A session is private to
    the connection loop until it waits for the init packet, and [connect] and
    [disconnect] exclude each other by the [operate_lock]; both are parts that a
    task owns, in the sense of [Owned].  The operations that change no such part
    are [usual]. *)

From S2P Require Import Prelude Text Async Spawner Concurrent Owned Extern ChannelCapacity Packet Codecs.
From S2P Require Import EventRegistry ClientConfig ClientState Session ClientRuntime ClientTasks.

(** The state machine of a session.  [Readying] is never entered. *)
Inductive session_edge : SessionState → SessionState → Prop :=
| session_init : session_edge Created AwaitingInit
| session_packet : session_edge AwaitingInit Initiating
| session_answer : session_edge Initiating AwaitingReady
| session_ready : session_edge AwaitingReady SessionReady
| session_closing st : session_edge st Closing
| session_closed st : session_edge st Closed.

Definition session_rank (st : SessionState) : nat :=
  match st with
  | Created => 0 | AwaitingInit => 1 | Initiating => 2 | AwaitingReady => 3 | SessionReady => 4
  | Readying => 4 | Closing | Closed => 5
  end.

Lemma session_edges_rank a b : rtc session_edge a b → session_rank a ≤ session_rank b.
Proof.
  induction 1 as [|a b c H _ IH]; [done|].
  assert (session_rank a ≤ session_rank b); [|lia]. destruct H as [| | | |st|st]; simpl; try lia; destruct st; simpl; lia.
Qed.

Section lifecycle.
Context `{T : Types} `{Cells : AtomicEnumCell} `{Chans : Mpsc} `{Nt : Notify} `{U : Urls} `{Crates : !SerdeCrates}.
Context (log2 : f64 → f64).

Abbreviation view := (seen (W := Client) (L := label) (R := reply)).
Abbreviation st_of x := (cell_get (ClientState.state x)).

(** A session that its task has shown to the others. *)
Definition live (s : nat) (w : Client) : Prop :=
  ∃ x, sessions w !! s = Some x ∧ st_of x ≠ Created.

Definition task_session (t : task) : option nat :=
  match t with
  | InitWatchdog s | ReadyWatchdog s | Ping s | OnSessionReadyTask s _ | DispatchEvent _ s _ _ _
  | RunHandler _ s _ | ReadWsStream s | WriteWsStream s => Some s
  | ConnectionLoop | SendEventMessages | DisconnectTask => None
  end.

(** The session a task serves once it is ready. *)
Definition event_session (t : task) : option nat :=
  match t with
  | OnSessionReadyTask s _ | DispatchEvent _ s _ _ _ | RunHandler _ s _ => Some s
  | _ => None
  end.

Definition task_live (t : task) (w : Client) : Prop := ∀ s, task_session t = Some s → live s w.

(** ** What the state of a session says of the frames it has read and the
    answers its handler has given, the latest first. *)

Definition read_packet (s : nat) (cfg : WsIoClientConfig) (ty : WsIoPacketType) (p : WsIoPacket)
    (a : label * reply) : Prop :=
  ∃ m, a = (WsNext s, RFrame (Some m)) ∧ carries (packet_codec cfg) m p ∧ type p = ty.

(** The init handler was given the payload of the packet, and has answered. *)
Definition init_answered (s : nat) (cfg : WsIoClientConfig) (p : WsIoPacket) (l : list (label * reply)) : Prop :=
  match init_handler cfg with
  | None => l = []
  | Some (D, _, name) => ∃ d a,
      transpose (decode_data (packet_codec cfg) D <$> data p) = Ok d ∧
      l = [(Handler s name (Any D <$> d), RData (Ok a))]
  end.

Definition greeted (s : nat) (cfg : WsIoClientConfig) (h : list (label * reply)) : Prop :=
  ∃ p a l, read_packet s cfg Init p a ∧ init_answered s cfg p l ∧ l ++ [a] `sublist_of` h.

Definition told_ready (s : nat) (cfg : WsIoClientConfig) (h : list (label * reply)) : Prop :=
  ∃ p a, read_packet s cfg Ready p a ∧ a ∈ h.

Definition session_evidence (s : nat) (cfg : WsIoClientConfig) (st : SessionState)
    (h : list (label * reply)) : Prop :=
  match st with
  | AwaitingReady => greeted s cfg h
  | SessionReady => greeted s cfg h ∧ told_ready s cfg h
  | Readying => False
  | _ => True
  end.

(** The session may handle events. *)
Definition admitted (s : nat) (v : view) : Prop :=
  greeted s (config (runtime v.1)) v.2 ∧ told_ready s (config (runtime v.1)) v.2.

(** A [disconnect] was dropped while it waited for the connection loop. *)
Definition dropped (h : list (label * reply)) : Prop := ∃ t, (Join t, RDropped) ∈ h.

Record good (v : view) : Prop := {
  good_tasks i t : tasks v.1 !! i = Some t → task_live t v.1;
  good_session s : session (runtime v.1) = Some s → live s v.1;
  good_evidence s x : sessions v.1 !! s = Some x →
    session_evidence s (config (runtime v.1)) (st_of x) v.2;
  good_stop : operate_lock (runtime v.1) = false → cell_get (status (runtime v.1)) = Stopping →
    dropped v.2;
  good_events i t s : tasks v.1 !! i = Some t → event_session t = Some s → admitted s v;
}.

(** ** What every task guarantees *)
Definition session_ok (x y : WsIoClientSession) : Prop :=
  rtc session_edge (st_of x) (st_of y) ∧ (cancelled x = true → cancelled y = true).

Record client_ok (v v' : view) : Prop := {
  ok_sessions s x : sessions v.1 !! s = Some x → ∃ y, sessions v'.1 !! s = Some y ∧ session_ok x y;
  ok_config : config (runtime v'.1) = config (runtime v.1);
  ok_tokens t : tokens v.1 !! t = Some true → tokens v'.1 !! t = Some true;
  ok_answers : ∃ h, v'.2 = h ++ v.2;
  ok_good : good v → good v';
}.

#[export] Instance session_ok_preorder : PreOrder session_ok.
Proof.
  split; [intros x; by split|]. intros x y z [? ?] [? ?]. split; [by etrans | auto].
Qed.

#[export] Instance client_ok_preorder : PreOrder client_ok.
Proof.
  split.
  - intros v. split; try done; [intros s x Hx; by exists x | by exists []].
  - intros v1 v2 v3 [S1 C1 T1 (h1 & A1) G1] [S2 C2 T2 (h2 & A2) G2]. split.
    + intros s x Hx. destruct (S1 s x Hx) as (y & Hy & ?), (S2 s y Hy) as (z & Hz & ?).
      exists z. split; [done | by etrans].
    + congruence.
    + auto.
    + exists (h2 ++ h1). by rewrite A2, A1, app_assoc.
    + auto.
Qed.

(** ** What a task may own *)
Inductive part : Set := PSession (s : nat) | POperate.

#[export] Instance part_eq_dec : EqDecision part.
Proof. solve_decision. Defined.
#[export] Instance part_countable : Countable part.
Proof.
  refine (inj_countable' (λ p, match p with PSession s => Some s | POperate => None end)
    (λ o, match o with Some s => PSession s | None => POperate end) _). by intros [].
Defined.

Definition held (k : part) (w : Client) : Prop :=
  match k with
  | PSession s => ∃ x, sessions w !! s = Some x ∧ st_of x = Created
  | POperate => operate_lock (runtime w) = true
  end.

Definition same (k : part) (w w' : Client) : Prop :=
  match k with
  | PSession s => sessions w' !! s = sessions w !! s
  | POperate => operate_lock (runtime w') = operate_lock (runtime w) ∧
      cell_get (status (runtime w')) = cell_get (status (runtime w))
  end.

#[export] Instance same_preorder k : PreOrder (same k).
Proof.
  split.
  - intros w. by destruct k.
  - intros w1 w2 w3. destruct k; simpl; [congruence|]. intros [? ?] [? ?]. split; congruence.
Qed.

Lemma same_held k w w' : same k w w' → held k w → held k w'.
Proof. destruct k; simpl; [by intros ->|]. by intros [-> _]. Qed.

(** No task finds a session gone, no payload has another type than its handler, and the
    unreachable branch is reached only after a [disconnect] was dropped. *)
Definition bad (m : string) (v : view) : Prop :=
  m ≠ "dangling session"%string ∧
  m ≠ "data type id matched handler registration but Arc::downcast failed"%string ∧
  (m = "internal error: entered unreachable code"%string → dropped v.2).

Lemma bad_stable m v v' : bad m v → client_ok v v' → bad m v'.
Proof.
  intros (Hd & He & Hu) [_ _ _ (h & Hh) _]. split_and!; [done..|]. intros Hm. destruct (Hu Hm) as [t Ht].
  exists t. rewrite Hh. apply elem_of_app. by right.
Qed.

Lemma live_stable s v v' : live s v.1 → client_ok v v' → live s v'.1.
Proof.
  intros (x & Hx & Hst) [HS _ _ _ _]. destruct (HS s x Hx) as (y & Hy & He & _).
  exists y. split; [done|]. intros E. rewrite E in He. apply session_edges_rank in He.
  destruct (st_of x); simpl in *; (done || lia).
Qed.

Lemma greeted_more s cfg st h h' :
  session_evidence s cfg st h → session_evidence s cfg st (h' ++ h).
Proof.
  assert (Hg : greeted s cfg h → greeted s cfg (h' ++ h)).
  { intros (p & a & l & Hp & Ha & Hl). exists p, a, l. split_and!; [done..|]. by apply sublist_inserts_l. }
  destruct st; simpl; [done | by apply Hg | done..| |done]. intros [Hh (p & a & Hp & Ha)].
  split; [by apply Hg|]. exists p, a. split; [done|]. apply elem_of_app. by right.
Qed.

(** ** Steps that anybody may take *)

(** A session that is shown moves on, but not past what needs evidence. *)
Definition session_plain (x y : WsIoClientSession) : Prop :=
  session_ok x y ∧ (st_of y = st_of x ∨ st_of y = Initiating ∨ st_of y = Closing ∨ st_of y = Closed) ∧
  st_of y ≠ Created.

Record plain (w w' : Client) : Prop := {
  plain_sessions s x : sessions w !! s = Some x →
    ∃ y, sessions w' !! s = Some y ∧ (y = x ∨ (st_of x ≠ Created ∧ session_plain x y));
  plain_dom s : is_Some (sessions w' !! s) → is_Some (sessions w !! s);
  plain_config : config (runtime w') = config (runtime w);
  plain_tokens t : tokens w !! t = Some true → tokens w' !! t = Some true;
  plain_tasks i t : tasks w' !! i = Some t → tasks w !! i = Some t ∨ (task_live t w ∧ event_session t = None);
  plain_session : session (runtime w') = session (runtime w) ∨ session (runtime w') = None;
  plain_lock : operate_lock (runtime w') = operate_lock (runtime w) ∧
    cell_get (status (runtime w')) = cell_get (status (runtime w));
}.

#[export] Instance plain_refl : Reflexive plain.
Proof. intros w. split; try done; [intros s x Hx; exists x; auto | auto..]. Qed.

Lemma plain_live s w w' : plain w w' → live s w → live s w'.
Proof.
  intros Hp (x & Hx & Hst). destruct (plain_sessions _ _ Hp s x Hx) as (y & Hy & [->|[_ [_ [_ Hc]]]]).
  - by exists x.
  - by exists y.
Qed.

Lemma plain_ok w w' h : plain w w' → client_ok (w, h) (w', h).
Proof.
  intros Hp. split; simpl.
  - intros s x Hx. destruct (plain_sessions _ _ Hp s x Hx) as (y & Hy & Hxy). exists y. split; [done|].
    destruct Hxy as [->|[_ [? _]]]; done.
  - apply Hp.
  - intros t. apply Hp.
  - by exists [].
  - intros [GT GS GE GL GV]. split; simpl in *.
    + intros i t Ht s Hs. eapply plain_live; [done|].
      destruct (plain_tasks _ _ Hp i t Ht) as [Hi|[Hi _]]; [by eapply GT | by apply Hi].
    + intros s Hs. eapply plain_live; [done|]. apply GS.
      destruct (plain_session _ _ Hp) as [<-|E]; [done | by rewrite E in Hs].
    + intros s y Hy. destruct (plain_dom _ _ Hp s) as [x Hx]; [by eexists|].
      destruct (plain_sessions _ _ Hp s x Hx) as (y' & Hy' & Hxy). simplify_eq.
      rewrite (plain_config _ _ Hp). specialize (GE s x Hx).
      destruct Hxy as [->|[_ [_ [[->|[->|[->| ->]]] _]]]]; done.
    + intros Hl Hst. destruct (plain_lock _ _ Hp) as [E1 E2]. apply GL; congruence.
    + intros i t s Ht Hs. unfold admitted. simpl. rewrite (plain_config _ _ Hp).
      destruct (plain_tasks _ _ Hp i t Ht) as [Hi|[_ Hi]]; [by eapply GV | by rewrite Hi in Hs].
Qed.

Lemma answer_ok w h l r : client_ok (w, h) (w, (l, r) :: h).
Proof.
  split; simpl; try done.
  - intros s x Hx. by exists x.
  - by exists [(l, r)].
  - intros [GT GS GE GL GV]. split; simpl in *; [done..| | |].
    + intros s x Hx. apply (greeted_more _ _ _ _ [_]). by apply GE.
    + intros H1 H2. destruct (GL H1 H2) as [t Ht]. exists t. by right.
    + intros i t s Ht Hs. apply (greeted_more s (config (runtime w)) SessionReady h [_]). by eapply GV.
Qed.

Lemma plain_same k w w' : plain w w' → held k w → same k w w'.
Proof.
  intros Hp. destruct k; simpl; [|intros _; apply Hp]. intros (x & Hx & Hst).
  destruct (plain_sessions _ _ Hp s x Hx) as (y & Hy & [->|[Hne _]]); [|by destruct Hne]. by rewrite Hx.
Qed.

(** ** The primitive operations *)
Lemma plain_se_set s f w :
  (∀ x, sessions w !! s = Some x → f x = x ∨ (st_of x ≠ Created ∧ session_plain x (f x))) → plain w (se_set s f w).
Proof.
  intros Hf. split; simpl; auto.
  - intros i x Hx. rewrite lookup_alter. case_decide; [subst|by exists x; auto].
    rewrite Hx. simpl. exists (f x). split; [done | by apply Hf].
  - intros i. by rewrite lookup_alter_is_Some.
Qed.

(** Fields of a session other than its state. *)
Lemma plain_se_field s f w :
  live s w → (∀ x, st_of (f x) = st_of x ∧ (cancelled (f x) = cancelled x ∨ cancelled (f x) = true)) →
  plain w (se_set s f w).
Proof.
  intros (x & Hx & Hst) Hf. apply plain_se_set. intros x' Hx'. simplify_eq. right. split; [done|].
  destruct (Hf x) as [Hs Hc]. split; [split; [by rewrite Hs|]|rewrite Hs; auto].
  intros Ht. destruct Hc as [-> | ->]; auto.
Qed.

Definition rt_plain (r r' : WsIoClientRuntime) : Prop :=
  config r' = config r ∧ (session r' = session r ∨ session r' = None) ∧
  operate_lock r' = operate_lock r ∧ status r' = status r.

Lemma plain_rt_set f w : (∀ r, rt_plain r (f r)) → plain w (rt_set f w).
Proof.
  intros Hf. destruct (Hf (runtime w)) as (H1 & H2 & H3 & H4). split; simpl; auto.
  - intros s x Hx. exists x. auto.
  - by rewrite H4.
Qed.

Lemma plain_tasks_set ts w :
  (∀ i t, ts !! i = Some t → tasks w !! i = Some t ∨ (task_live t w ∧ event_session t = None)) → plain w (w .[ tasks := ts ]).
Proof. intros Ht. split; simpl; auto. intros s x Hx. exists x. auto. Qed.

(** ** Routine programs: nothing is claimed, every step is plain *)
Definition fine (m : string) : Prop :=
  m ≠ "dangling session"%string ∧
  m ≠ "data type id matched handler registration but Arc::downcast failed"%string ∧
  m ≠ "internal error: entered unreachable code"%string.

Abbreviation usual P p := (routine plain fine P p).

Lemma usual_rt_get P {A} (f : WsIoClientRuntime → A) : usual P (rt_get f).
Proof. split; [by intros w w' _ [= <-] | done]. Qed.

Lemma usual_se_get s {A} (f : WsIoClientSession → A) : usual (live s) (se_get s f).
Proof. split; [by intros w w' _ [= <-]|]. by intros w (x & -> & _). Qed.

Lemma usual_modify P f : (∀ w, P w → plain w (f w)) → usual P (modify f : cli unit).
Proof. intros Hf. split; [|done]. intros w w' Hw [= <-]. by apply Hf. Qed.

Lemma usual_block P f : (∀ w w', P w → f w = Some w' → plain w w') → usual P (block f : cli unit).
Proof. intros Hf. by split. Qed.

Lemma usual_rt_upd P f : (∀ r, rt_plain r (f r)) → usual P (rt_upd f).
Proof. intros Hf. apply usual_modify. intros w _. by apply plain_rt_set. Qed.

Lemma usual_se_upd s f :
  (∀ x, st_of (f x) = st_of x ∧ (cancelled (f x) = cancelled x ∨ cancelled (f x) = true)) →
  usual (live s) (se_upd s f).
Proof. intros Hf. apply usual_modify. intros w Hw. by apply plain_se_field. Qed.

Lemma usual_store s st : st = Closing ∨ st = Closed → usual (live s) (state_store s st).
Proof.
  intros Hst. apply usual_modify. intros w (x0 & Hx0 & Hc). apply plain_se_set. intros x Hx.
  simplify_eq. right. split; [done|]. unfold session_plain, session_ok. simpl. rewrite cell_get_store.
  split_and!; [|done|tauto|by destruct Hst as [-> | ->]].
  apply rtc_once. destruct Hst as [-> | ->]; constructor.
Qed.

Lemma usual_transition s : usual (live s) (try_transition s AwaitingInit Initiating).
Proof.
  split.
  - intros w w' (x0 & Hx0 & Hc) [= <-]. apply plain_se_set. intros x Hx. simplify_eq. right. split; [done|].
    unfold session_plain, session_ok. simpl.
    destruct (cell_try_transition_spec (state x0) AwaitingInit Initiating) as [-> _].
    case_decide as Hs; [rewrite Hs|split_and!; by auto]. split_and!; [apply rtc_once; constructor | done | tauto | done].
  - intros w (x & -> & _). apply routine_of_result.
Qed.

Lemma usual_spawn P t : event_session t = None → (∀ w, P w → task_live t w) → usual P (spawn t).
Proof.
  intros He Ht. split; [|done]. intros w w' Hw [= <-]. apply plain_tasks_set. intros i t'.
  rewrite lookup_insert. case_decide; [intros [= <-]; right; by split; [apply Ht|] | by left].
Qed.

Lemma usual_abort P i : usual P (abort i).
Proof.
  apply usual_modify. intros w _. apply plain_tasks_set. intros j t.
  rewrite lookup_delete_Some. by intros [_ ?]; left.
Qed.

(** Take a value out of the session or the runtime. *)
Lemma usual_se_take s {A} (f : WsIoClientSession → WsIoClientSession) (g : Client → A) :
  (∀ x, st_of (f x) = st_of x ∧ (cancelled (f x) = cancelled x ∨ cancelled (f x) = true)) →
  usual (live s) (Atom (λ w, Some (se_set s f w)) (λ w, Ret (g w)) : cli A).
Proof. intros Hf. split; [|done]. intros w w' Hw [= <-]. by apply plain_se_field. Qed.

Lemma usual_rt_take P {A} f (g : Client → A) :
  (∀ r, rt_plain r (f r)) → usual P (Atom (λ w, Some (rt_set f w)) (λ w, Ret (g w)) : cli A).
Proof. intros Hf. split; [|done]. intros w w' Hw [= <-]. by apply plain_rt_set. Qed.

Create HintDb usual.
#[local] Hint Resolve usual_rt_get usual_se_get usual_abort routine_of_result : usual.
#[local] Hint Extern 1 (routine _ _ _ (rt_upd _)) => apply usual_rt_upd; intros; repeat split; auto : usual.
#[local] Hint Extern 1 (routine _ _ _ (se_upd _ _)) => apply usual_se_upd; intros; auto : usual.
#[local] Hint Extern 1 (routine _ _ _ (Atom _ (λ _, Ret _))) =>
  first [apply usual_se_take; intros; auto | apply usual_rt_take; intros; repeat split; auto] : usual.
#[local] Hint Extern 1 (routine _ _ _ (state_store _ _)) => apply usual_store; tauto : usual.
#[local] Hint Extern 1 (routine _ _ _ (spawn _)) =>
  apply usual_spawn; [done|]; intros ? ? ? [= <-]; assumption : usual.
#[local] Hint Extern 1 (routine _ _ _ (Panic _)) => by split_and! : usual.

(** Walk down a program; [usual] has the operations already proved. *)
Ltac solve_usual :=
  repeat first
    [ solve [auto 2 with usual]
    | lazymatch goal with
      | |- routine _ _ _ (bind _ _) => apply routine_bind
      | |- routine _ _ _ (ignore _) => apply routine_ignore
      | |- routine _ _ _ (attempt _) => apply routine_attempt
      | |- routine _ _ _ (seq_all _ _) => apply routine_seq_all
      | |- routine _ _ _ (Await _ _) => intro
      | |- routine _ _ _ (Ret _) => exact I
      | |- routine _ _ _ (Fail _) => exact I
      | |- routine _ _ _ (match ?x with _ => _ end) => destruct x
      | |- ∀ _, _ => intro
      end ].

Lemma usual_handler P s h arg : usual P (call_unit_handler s h arg).
Proof. unfold call_unit_handler, unit_reply. solve_usual. Qed.

Lemma usual_init_handler P s h d codec : usual P (call_init_handler s h d codec).
Proof. unfold call_init_handler. solve_usual. Qed.

Lemma usual_encode P p : usual P (encode_packet_to_message p).
Proof. unfold encode_packet_to_message. solve_usual. Qed.

Lemma usual_send s m : usual (live s) (send_message s m).
Proof.
  split.
  - intros w w' Hw. destruct (sessions w !! s) as [x|]; [|by intros [= <-]].
    destruct (chan_send _ _) as [[ch r]|]; [|done]. intros [= <-]. apply plain_se_field; auto.
  - intros w (x & -> & _). destruct (chan_send _ _) as [[ch r]|]; [apply routine_of_result | done].
Qed.
#[local] Hint Resolve usual_handler usual_init_handler usual_encode usual_send : usual.

Lemma usual_send_packet s p : usual (live s) (send_packet s p).
Proof. unfold send_packet. solve_usual. Qed.
Lemma usual_close s : usual (live s) (close s).
Proof. unfold close, try_send_close. solve_usual. Qed.
Lemma usual_emit_event s m : usual (live s) (emit_event_message s m).
Proof. unfold emit_event_message. solve_usual. Qed.
Lemma usual_abort_opt P t : usual P (abort_opt t).
Proof. unfold abort_opt. solve_usual. Qed.
#[local] Hint Resolve usual_send_packet usual_close usual_emit_event usual_abort_opt : usual.

Lemma usual_abort_init s : usual (live s) (abort_init_timeout s).
Proof. unfold abort_init_timeout. solve_usual. Qed.
Lemma usual_abort_ping s : usual (live s) (abort_ping s).
Proof. unfold abort_ping. solve_usual. Qed.
Lemma usual_abort_ready s : usual (live s) (abort_ready_timeout s).
Proof. unfold abort_ready_timeout. solve_usual. Qed.
#[local] Hint Resolve usual_abort_init usual_abort_ping usual_abort_ready : usual.

Lemma usual_watchdog s d st : usual (live s) (watchdog s d st).
Proof. unfold watchdog. solve_usual. Qed.
Lemma usual_ping fuel s : usual (live s) (ping_loop fuel s).
Proof. induction fuel; cbn [ping_loop]; [done|]. solve_usual. Qed.
Lemma usual_disconnect_packet P : usual P handle_disconnect_packet.
Proof.
  unfold handle_disconnect_packet. apply routine_bind; [|done]. by apply usual_spawn.
Qed.
Lemma usual_cleanup s : usual (live s) (cleanup s).
Proof. unfold cleanup. solve_usual. Qed.
Lemma usual_recv s : usual (live s) (recv s).
Proof.
  split; [|done]. intros w w' Hw. destruct (sessions w !! s) as [x|]; [|done].
  destruct (chan_try_recv _).2; [|done]. intros [= <-]. apply plain_se_field; auto.
Qed.
Lemma usual_drop_receiver s : usual (live s) (drop_receiver s).
Proof. unfold drop_receiver. solve_usual. Qed.
#[local] Hint Resolve usual_watchdog usual_ping usual_disconnect_packet usual_cleanup
  usual_recv usual_drop_receiver : usual.

Lemma usual_write fuel s : usual (live s) (write_ws_stream_task fuel s).
Proof. induction fuel; cbn [write_ws_stream_task]; [done|]. solve_usual. Qed.
Lemma usual_stop_tasks s a b r : usual (live s) (stop_tasks s a b r).
Proof. unfold stop_tasks. solve_usual. Qed.
Lemma usual_join P t i : usual P (join_handle t i).
Proof. unfold join_handle. solve_usual. Qed.
#[local] Hint Resolve usual_write usual_stop_tasks usual_join : usual.
Lemma usual_graceful s a b : usual (live s) (graceful_shutdown s a b).
Proof. unfold graceful_shutdown. solve_usual. Qed.
Lemma usual_token P t : usual P (token_cancelled t).
Proof. apply usual_block. intros w w' _. destruct (tokens w !! t) as [[]|]; [|done..]. by intros [= <-]. Qed.
#[local] Hint Resolve usual_graceful usual_token : usual.

(** The runtime. *)
Lemma usual_enqueue P m : usual P (enqueue m).
Proof.
  split.
  - intros w w' _. destruct (chan_send _ _) as [[ch r]|]; [|done]. intros [= <-].
    apply plain_rt_set. intros r'. repeat split; auto.
  - intros w _. destruct (chan_send _ _) as [[ch r]|]; [apply routine_of_result | done].
Qed.
#[local] Hint Resolve usual_enqueue : usual.

Lemma usual_emit P event d : usual P (emit event d).
Proof. unfold emit. solve_usual. Qed.
Lemma usual_off P event : usual P (off event).
Proof. unfold off. solve_usual. Qed.
Lemma usual_off_by_id P event i : usual P (off_by_handler_id event i).
Proof. unfold off_by_handler_id. solve_usual. Qed.
Lemma usual_on P event h : usual P (on event h).
Proof.
  split.
  - intros w w' _ [= <-]. apply plain_rt_set. intros r. destruct (EventRegistry.on _ _ _); repeat split; auto.
  - intros w _. destruct (EventRegistry.on _ _ _); [done | by split].
Qed.
#[local] Hint Resolve usual_emit usual_off usual_off_by_id usual_on : usual.

Lemma usual_lock_rx P : usual P lock_rx.
Proof.
  apply usual_block. intros w w' _. destruct (rx_lock (runtime w)); [done|]. intros [= <-].
  apply plain_rt_set. intros r. repeat split; auto.
Qed.
Lemma usual_recv_event P : usual P recv_event_message.
Proof.
  split; [|done]. intros w w' _. destruct (chan_try_recv _).2; [|done]. intros [= <-].
  apply plain_rt_set. intros r. repeat split; auto.
Qed.
Lemma usual_wait P t : usual P (wait_notified t).
Proof. apply usual_block. intros w w' _. destruct (woken _ _); [|done]. by intros [= <-]. Qed.
Lemma usual_drop_pending P : usual P drop_pending.
Proof. unfold drop_pending. solve_usual. Qed.
Lemma usual_abort_send P : usual P abort_send_task.
Proof. unfold abort_send_task. solve_usual. Qed.
Lemma plain_tokens_set ts i w :
  (∀ t, tokens w !! t = Some true → ts !! t = Some true) →
  plain w (w .[ tokens := ts ] .[ runtime := (runtime w) .[ cancel_token := i ] ]).
Proof. intros Ht. split; simpl; auto. intros s x Hx. exists x. auto. Qed.

Lemma usual_cancel P : usual P cancel.
Proof.
  apply usual_modify. intros w _.
  pose proof (plain_tokens_set (<[cancel_token (runtime w) := true]> (tokens w)) (cancel_token (runtime w)) w) as Hp.
  destruct w as [[] ? ? ?]. apply Hp. intros t Ht. simpl in *. rewrite lookup_insert. by case_decide.
Qed.
Lemma usual_new_token P : usual P new_token.
Proof.
  apply usual_modify. intros w _. apply plain_tokens_set. intros t Ht. rewrite lookup_insert_ne; [done|].
  intros <-. apply (is_fresh (dom (tokens w))). by apply elem_of_dom_2 in Ht.
Qed.
#[local] Hint Resolve usual_lock_rx usual_recv_event usual_wait usual_drop_pending usual_abort_send
  usual_cancel usual_new_token : usual.

(** ** Safety of the others

    [ok p Q v]: [p] is safe from [v] on, owning [own], and ends with [Q]. *)
Abbreviation ok own p Q v := (osafe client_ok held same bad own p Q v).

Lemma fine_bad m v : fine m → bad m v.
Proof. intros (H1 & H2 & H3). by split_and!. Qed.

Abbreviation rely own := (others client_ok same own).

Lemma usual_ok P {A} (p : cli A) own v :
  (∀ v v', P v.1 → rely own v v' → P v'.1) → usual P p → P v.1 →
  ok own p (λ own' _ v', own' = own ∧ rely own v v') v.
Proof.
  apply (osafe_routine client_ok held same same_held bad plain fine);
    auto using plain_ok, answer_ok, plain_same, fine_bad.
Qed.

(** Go on after a routine program; what is known, [K], stays so. *)
Lemma usual_then (P : Client → Prop) (K : view → Prop) {A B} (p : cli A) (k : A → cli B) own Q v :
  (∀ v v', K v → rely own v v' → K v') → (∀ v, K v → P v.1) → (∀ v v', P v.1 → rely own v v' → P v'.1) →
  usual P p → K v → (∀ a v', K v' → ok own (k a) Q v') → (∀ e v', K v' → Q own (Err e) v') →
  ok own (bind p k) Q v.
Proof.
  intros HK HKP HP Hp Hv Hk HE. apply osafe_bind.
  eapply (osafe_mono client_ok held same bad); [|apply (usual_ok P); eauto]. intros o [a|e] v' _ [-> Hv'].
  - apply Hk. by eapply HK.
  - apply HE. by eapply HK.
Qed.

Lemma live_rely own s v v' : live s v.1 → rely own v v' → live s v'.1.
Proof. intros Hl [Hv _]. by eapply live_stable. Qed.

(** Reading the runtime. *)
Lemma ok_rt_get {A B} (f : WsIoClientRuntime → A) (k : A → cli B) own Q v :
  (∀ v', rely own v v' → ok own (k (f (runtime v'.1))) Q v') → ok own (bind (rt_get f) k) Q v.
Proof.
  intros Hk v1 H1 Hh w2 [= <-]. destruct v1 as [w1 h1]. exists own. split_and!.
  - intros q Hq. split; [by apply Hh | by left].
  - split; [done | reflexivity].
  - by apply Hk.
Qed.

(** An operation that changes the parts the task owns, [own'] being what it owns
    afterwards. *)
Lemma ok_atom {A} f (k : Client → cli A) own Q v :
  (∀ w h w', rely own v (w, h) → holds held own w → f w = Some w' → ∃ own',
     claimed held own own' w w' ∧ client_ok (w, h) (w', h) ∧
     (∀ q, q ∉ own → held q w → same q w w') ∧ ok own' (k w) Q (w', h)) →
  ok own (Atom f k) Q v.
Proof.
  intros Hf [w h] H1 Hh w' Hw. destruct (Hf w h w' H1 Hh Hw) as (own' & ? & ? & ? & ?).
  exists own'. split; [done|]. split; [by split | done].
Qed.

Lemma ok_await {A} l (k : reply → cli A) own Q v :
  (∀ w h r, rely own v (w, h) → rely own v (w, (l, r) :: h) → ok own (k r) Q (w, (l, r) :: h)) →
  ok own (Await l k) Q v.
Proof.
  intros Hk [w h] H1 Hh r. split; [split; [apply answer_ok | reflexivity]|].
  apply Hk; [done|]. etrans; [exact H1|]. split; [apply answer_ok | reflexivity].
Qed.
End lifecycle.
