(* ===== verification/ClientLifecycle.v ===== *)
(** * The life of a client session, whatever is interleaved

    The calls of the application and the client's own tasks, interleaved at every
    atomic operation: the state machine of a session, what a ready session means,
    and when [connect] and [disconnect] panic. *)

From S2P Require Import Prelude Text Async Spawner Concurrent Owned Extern ChannelCapacity Packet Codecs.
From S2P Require Import EventRegistry ClientConfig ClientState Session ClientRuntime RefClient.
From S2P Require Import ClientTasks ClientGuarantee.

Section lifecycle.
Context `{T : Types} `{Cells : AtomicEnumCell} `{Chans : Mpsc} `{Nt : Notify} `{U : Urls} `{Crates : !SerdeCrates}.
Context (log2 : f64 → f64).

Abbreviation view := (seen (W := Client) (L := label) (R := reply)).
Abbreviation st_of x := (cell_get (ClientState.state x)).
Abbreviation ok own p Q v := (osafe client_ok held same bad own p Q v).
Abbreviation usual P p := (routine plain fine P p).
Abbreviation rely own := (others client_ok same own).

(** ** The gates of the handshake *)
Definition moved (s : nat) (st : cell SessionState) (w : Client) : Client :=
  se_set s (λ x, x .[ state := st ]) w.

(** A session changes its state, with the evidence that the new one needs. *)
Lemma client_ok_state s st x w h :
  sessions w !! s = Some x → rtc session_edge (st_of x) (cell_get st) → cell_get st ≠ Created →
  (good (w, h) → session_evidence s (config (runtime w)) (cell_get st) h) →
  client_ok (w, h) (moved s st w, h).
Proof.
  intros Hx He Hst Hev.
  assert (Hget : ∀ i, sessions (moved s st w) !! i =
    if decide (s = i) then Some (x .[ state := st ]) else sessions w !! i).
  { intros i. simpl. rewrite lookup_alter. case_decide; [subst; by rewrite Hx | done]. }
  assert (Hlive : ∀ i, live i w → live i (moved s st w)).
  { intros i (y & Hy & Hc). unfold live. rewrite Hget. case_decide; [|by exists y].
    by exists (x .[ state := st ]). }
  split; [| done | done | by exists [] |].
  - intros i y Hy. simpl fst. rewrite Hget. case_decide; [|by exists y].
    subst. simpl in Hy. simplify_eq. eexists. split; [done|]. by split.
  - intros Hg. specialize (Hev Hg). destruct Hg as [GT GS GE GL GV]. split.
    + intros j t Ht i Hi. apply Hlive. by eapply GT.
    + intros i Hi. by apply Hlive, GS.
    + intros i y. simpl fst. rewrite Hget. case_decide; [|by apply GE].
      intros [= <-]. by subst.
    + done.
    + exact GV.
Qed.

Lemma ok_gate s a b (K : view → Prop) own Q v :
  session_edge a b → a ≠ Created → b ≠ Created → (∀ v v', K v → rely own v v' → K v') → K v →
  (∀ v, K v → live s v.1) →
  (∀ w h x, K (w, h) → good (w, h) → sessions w !! s = Some x → st_of x = a →
    session_evidence s (config (runtime w)) b h) →
  (∀ v, K v → Q own (Ok tt) v) → (∀ e v, K v → Q own (Err e) v) →
  ok own (try_transition s a b) Q v.
Proof.
  intros He Ha Hb HK Hv Hl Hev HQ HE. apply ok_atom. intros w h w' H1 Hh [= <-].
  assert (HK1 : K (w, h)) by by eapply HK. destruct (Hl _ HK1) as (x & Hx & Hc). simpl in Hx. rewrite Hx.
  destruct (cell_try_transition_spec (state x) a b) as [Hget Hres].
  assert (Hsame : ∀ q, held q w → same q w (moved s (cell_try_transition (state x) a b).1 w)).
  { intros [i|] Hq; [|done]. destruct Hq as (y & Hy & Hyc). simpl. rewrite lookup_alter_ne; [done|].
    intros ->. by simplify_eq. }
  assert (Hok : client_ok (w, h) (moved s (cell_try_transition (state x) a b).1 w, h)).
  { apply (client_ok_state _ _ x); [done|..]; rewrite Hget; case_decide as Hs.
    - rewrite Hs. by apply rtc_once.
    - done.
    - done.
    - done.
    - intros Hg. by eapply Hev.
    - intros Hg. by apply (good_evidence _ Hg). }
  assert (Heq : se_set s (λ x, x .[ state := (cell_try_transition (state x) a b).1 ]) w =
    moved s (cell_try_transition (state x) a b).1 w).
  { unfold moved, se_set. erewrite alter_ext; [done|]. intros y Hy. by simplify_eq/=. }
  rewrite Heq. exists own. split_and!; [|done | by intros q _; apply Hsame|].
  - intros q Hq. split; [|by left]. eapply same_held; [by apply Hsame, Hh | by apply Hh].
  - assert (K (moved s (cell_try_transition (state x) a b).1 w, h)) as HK2.
    { eapply HK; [exact HK1|]. split; [done|]. intros q Hq. by apply Hsame, Hh. }
    destruct (cell_try_transition (state x) a b).2 as [[]|e]; [by apply HQ | by apply HE].
Qed.

(** ** The reader *)
Record reading (s : nat) (cfg : WsIoClientConfig) (v : view) : Prop := {
  reading_good : good v;
  reading_live : live s v.1;
  reading_config : config (runtime v.1) = cfg;
}.

Lemma reading_rely own s cfg v v' : reading s cfg v → rely own v v' → reading s cfg v'.
Proof.
  intros [Hg Hl Hc] [Hv _]. split.
  - by apply (ok_good _ _ Hv).
  - by eapply live_stable.
  - by rewrite (ok_config _ _ Hv).
Qed.

(** An answer once given stays given. *)
Lemma answers_rely own v v' l : l `sublist_of` v.2 → rely own v v' → l `sublist_of` v'.2.
Proof. intros Hl [[_ _ _ (h & ->) _] _]. by apply sublist_inserts_l. Qed.

(** What a reader knows while it handles a packet. *)
Definition handling (s : nat) (cfg : WsIoClientConfig) (l : list (label * reply)) (v : view) : Prop :=
  reading s cfg v ∧ l `sublist_of` v.2.

Lemma handling_rely own s cfg l v v' : handling s cfg l v → rely own v v' → handling s cfg l v'.
Proof. intros [? ?] ?. split; [by eapply reading_rely | by eapply answers_rely]. Qed.

Definition reader_ends (s : nat) (cfg : WsIoClientConfig) {A} (own : gset part) (_ : result A) (v : view) : Prop :=
  own = ∅ ∧ reading s cfg v.

(** Go on, or end, after a routine part. *)
Lemma reader_then {A B} (p : cli A) (k : A → cli B) s cfg l v :
  usual (live s) p → handling s cfg l v →
  (∀ a v', handling s cfg l v' → ok ∅ (k a) (reader_ends s cfg) v') →
  ok ∅ (bind p k) (reader_ends s cfg) v.
Proof.
  intros Hp Hv Hk. apply (usual_then (live s) (handling s cfg l)); [|by intros ? [[]] | |done..|].
  - intros v1 v2. apply handling_rely.
  - intros v1 v2. apply live_rely.
  - intros e v' [Hr _]. by split.
Qed.

Lemma reader_usual {A} (p : cli A) s cfg v :
  usual (live s) p → reading s cfg v → ok ∅ p (reader_ends s cfg) v.
Proof.
  intros Hp Hv. eapply osafe_mono; [apply _| |apply (usual_ok (live s)); [|done|by destruct Hv]].
  - intros o r v' _ [-> Hr]. split; [done|]. by eapply reading_rely.
  - intros v1 v2. apply live_rely.
Qed.

Lemma reader_result {A} (r : result A) s cfg v : reading s cfg v → ok ∅ (of_result r) (reader_ends s cfg) v.
Proof. intros. by destruct r. Qed.

(** The init handler: it is given the payload, and its answer is on record. *)
Lemma ok_ask s cfg p a v :
  read_packet s cfg Init p a → handling s cfg [a] v →
  ok ∅ (match init_handler cfg with
        | Some h => call_init_handler s h (data p) (packet_codec cfg)
        | None => Ret None
        end)
    (λ own r v', own = ∅ ∧ match r with
       | Ok _ => ∃ l, init_answered s cfg p l ∧ handling s cfg (l ++ [a]) v'
       | Err _ => reading s cfg v' end) v.
Proof.
  intros Ha Hv. unfold init_answered. destruct (init_handler cfg) as [[[D R] name]|]; [|split; [done|by exists []]].
  unfold call_init_handler. destruct (transpose _) as [d|e] eqn:Hd; [|split; [done|apply Hv]].
  simpl bind. apply ok_await. intros w h r H1 H2.
  assert (Hv2 : handling s cfg [a] (w, (Handler s name (Any D <$> d), r) :: h)) by by eapply handling_rely.
  destruct r as [|[[x|]|e]| | | | |]; simpl; try (by split).
  - destruct (downcast R x) as [y|]; [|by split]. destruct (encode_data _ _ _); [|split; [done|apply Hv2]].
    split; [done|]. eexists. split; [by exists d, (Some x)|]. split; [apply Hv2|]. simpl.
    apply sublist_skip. by apply (answers_rely ∅ v (w, h) [a]); [apply Hv|].
  - split; [done|]. eexists. split; [by exists d, None|]. split; [apply Hv2|]. simpl.
    apply sublist_skip. by apply (answers_rely ∅ v (w, h) [a]); [apply Hv|].
  - split; [done|apply Hv2].
  - split; [done|apply Hv2].
Qed.

(** Events, of a session that has read a ready packet. *)
Definition serving (s : nat) (cfg : WsIoClientConfig) (v : view) : Prop :=
  reading s cfg v ∧ greeted s cfg v.2 ∧ told_ready s cfg v.2.

Lemma serving_rely own s cfg v v' : serving s cfg v → rely own v v' → serving s cfg v'.
Proof.
  intros (Hr & Hg & Ht) Hv. split; [by eapply reading_rely|]. destruct Hv as [[_ _ _ (h & ->) _] _].
  by apply (greeted_more s cfg SessionReady).
Qed.

Lemma serving_usual {A B} (p : cli A) (k : A → cli B) s cfg v :
  usual (live s) p → serving s cfg v →
  (∀ a v', serving s cfg v' → ok ∅ (k a) (reader_ends s cfg) v') → ok ∅ (bind p k) (reader_ends s cfg) v.
Proof.
  intros Hp Hv Hk. apply (usual_then (live s) (serving s cfg)); [|by intros ? [[]] | |done..|].
  - intros v1 v2. apply serving_rely.
  - intros v1 v2. apply live_rely.
  - intros e v' [Hr _]. by split.
Qed.

Lemma serving_get {A B} (f : WsIoClientRuntime → A) (k : A → cli B) s cfg v :
  serving s cfg v → (∀ v', serving s cfg v' → ok ∅ (k (f (runtime v'.1))) (reader_ends s cfg) v') →
  ok ∅ (bind (rt_get f) k) (reader_ends s cfg) v.
Proof. intros Hv Hk. apply ok_rt_get. intros v' Hr. apply Hk. by eapply serving_rely. Qed.

Lemma serving_spawn t s cfg v :
  event_session t = Some s → serving s cfg v → ok ∅ (spawn_task t) (λ own r v', own = ∅ ∧ serving s cfg v') v.
Proof.
  intros He Hv. apply ok_atom. intros w h w' H1 _ [= <-].
  assert (serving s cfg (w, h)) as Hv1 by by eapply serving_rely.
  assert (task_session t = Some s) as Hs by (destruct t; simpl in *; congruence).
  set (i := fresh (dom (tasks w))).
  assert (client_ok (w, h) (w .[ tasks := <[i := t]> (tasks w) ], h)) as Hok.
  { split; simpl; [intros j x Hx; by exists x | done | done | by exists [] |].
    intros [GT GS GE GL GV]. split; simpl in *; [|done..|].
    - intros j t'. rewrite lookup_insert. case_decide; [|by apply GT]. intros [= <-] s'. rewrite Hs.
      intros [= <-]. exact (reading_live _ _ _ (proj1 Hv1)).
    - intros j t' s'. rewrite lookup_insert. case_decide; [|by apply GV]. intros [= <-]. rewrite He. intros [= <-].
      destruct Hv1 as ([_ _ Hc] & Hg & Ht). unfold admitted. simpl in *. by rewrite Hc. }
  exists ∅. split_and!; [by intros q ?%not_elem_of_empty | done | by intros [] |].
  split; [done|]. eapply (serving_rely ∅); [exact Hv1|]. split; [done|]. by intros q ?%not_elem_of_empty.
Qed.

(** Reading a session. *)
Lemma ok_se_get {A B} s (f : WsIoClientSession → A) (k : A → cli B) own Q v :
  live s v.1 →
  (∀ x v', rely own v v' → sessions v'.1 !! s = Some x → ok own (k (f x)) Q v') → ok own (bind (se_get s f) k) Q v.
Proof.
  intros Hl Hk v1 H1 Hh w2 [= <-]. destruct v1 as [w1 h1]. exists own. split_and!.
  - intros q Hq. split; [by apply Hh | by left].
  - split; [done | reflexivity].
  - assert (live s w1) as (x & Hx & _) by by apply (live_rely own s v (w1, h1)).
    specialize (Hk x (w1, h1) H1 Hx). simpl in *. by rewrite Hx.
Qed.

Lemma ok_session_event s cfg event d v :
  serving s cfg v → ok ∅ (handle_event_packet s event d) (reader_ends s cfg) v.
Proof.
  intros Hv. unfold handle_event_packet. apply serving_get; [done|]. intros v1 H1.
  apply serving_get; [done|]. intros v2 H2. destruct (event_entries _ !! _) as [p|]; [|by split; [|apply H2]].
  apply serving_get; [done|]. intros v3 H3.
  eapply (osafe_mono client_ok held same bad _ _ (λ own _ v', own = ∅ ∧ serving s cfg v')); [|by apply serving_spawn].
  intros own r v' _ [-> Hv']. by split; [|apply Hv'].
Qed.

Lemma ok_dispatch s cfg p codec d v :
  serving s cfg v → ok ∅ (run_dispatch s p codec d) (reader_ends s cfg) v.
Proof.
  intros Hv. unfold run_dispatch. apply serving_get; [done|]. clear v Hv. intros v Hv.
  pose proof (dispatch_expect p s codec d (event_registry (runtime v.1))) as He.
  generalize dependent (dispatch_task p s codec d (event_registry (runtime v.1))). intros calls. revert v Hv.
  induction calls as [|call calls IH]; intros v Hv He; [by split; [|apply Hv]|].
  apply not_elem_of_cons in He as [Hc He]. cbn [seq_all]. apply osafe_bind.
  eapply (osafe_mono client_ok held same bad _ _ (λ own _ v', own = ∅ ∧ serving s cfg v')).
  { intros own [u|e] v' _ [-> Hv']; [by apply IH | by split; [|apply Hv']]. }
  destruct call; [|by split | done]. apply ok_rt_get. intros v1 H1.
  apply serving_spawn; [done | by eapply serving_rely].
Qed.

(** Through a gate, with the evidence for it. *)
Lemma reader_gate {B} (k : unit → cli B) s cfg l a b v :
  session_edge a b → a ≠ Created → b ≠ Created → handling s cfg l v →
  (∀ w h x, handling s cfg l (w, h) → good (w, h) → sessions w !! s = Some x → st_of x = a →
    session_evidence s cfg b h) →
  (∀ u v', handling s cfg l v' → ok ∅ (k u) (reader_ends s cfg) v') →
  ok ∅ (bind (try_transition s a b) k) (reader_ends s cfg) v.
Proof.
  intros He Ha Hb Hv Hev Hk. apply osafe_bind. apply (ok_gate s a b (handling s cfg l)); try done.
  - intros v1 v2. apply handling_rely.
  - by intros v1 [[]].
  - intros w h x Hh Hg Hx Hs. destruct Hh as [[? ? Hc] Hh]. simpl in Hc. rewrite Hc.
    by eapply (Hev w h x).
  - intros v1. apply Hk.
  - intros e v1 [Hr _]. by split.
Qed.

Lemma ok_answer_init s cfg p a v :
  read_packet s cfg Init p a → handling s cfg [a] v →
  ok ∅ (answer_init s (data p)) (reader_ends s cfg) v.
Proof.
  intros Ha Hv. unfold answer_init. eapply reader_then; [apply usual_abort_init | exact Hv|].
  intros _ v1 H1. apply ok_rt_get. intros v2 H2.
  assert (Hv2 : handling s cfg [a] v2) by by eapply handling_rely. rewrite (reading_config _ _ _ (proj1 Hv2)).
  apply osafe_bind. eapply osafe_mono; [apply _| |by apply ok_ask].
  intros o [x|e] v3 _ [-> H3]; [|by split]. destruct H3 as (l & Hl & H3).
  eapply reader_gate; [constructor | done | done | exact H3| |].
  { intros w h y [_ Hh] _ _ _. by exists p, a, l. }
  intros _ v4 H4. eapply reader_then; [|exact H4|].
  { apply usual_spawn; [done|]. by intros w Hw i [= <-]. }
  intros t v5 H5. eapply reader_then; [|exact H5|].
  { apply usual_se_upd. intros y. auto. }
  intros _ v6 H6. apply reader_usual; [apply usual_send_packet | apply H6].
Qed.

Lemma session_handle_init s cfg p a v :
  read_packet s cfg Init p a → handling s cfg [a] v →
  ok ∅ (handle_init_packet s (data p)) (reader_ends s cfg) v.
Proof.
  intros Ha Hv. unfold handle_init_packet. eapply reader_then; [apply usual_se_get | exact Hv|].
  intros st v1 H1. destruct st; try (split; [done | apply H1]).
  eapply reader_then; [apply usual_transition | exact H1|]. intros _ v2 H2. by eapply ok_answer_init.
Qed.

Lemma ok_handle_ready s cfg p a v :
  read_packet s cfg Ready p a → handling s cfg [a] v →
  ok ∅ (handle_ready_packet s) (reader_ends s cfg) v.
Proof.
  intros Ha Hv. unfold handle_ready_packet. apply ok_se_get; [by destruct Hv as [[]]|]. intros x v1 H1 Hx.
  apply (handling_rely ∅ _ _ _ _ v1) in Hv; [|done]. destruct (st_of x) eqn:Hst; try (by split; [|apply Hv]).
  assert (serving s cfg v1) as Hs.
  { destruct Hv as [Hr Hh]. split; [done|]. split.
    - pose proof (good_evidence _ (reading_good _ _ _ Hr) s x Hx) as He.
      by rewrite Hst, (reading_config _ _ _ Hr) in He.
    - exists p, a. split; [done|]. by apply (elem_of_sublist [a] v1.2 a); [apply list_elem_of_singleton|]. }
  apply osafe_bind. apply (ok_gate s _ _ (serving s cfg)); [constructor | done | done | | exact Hs | | | |].
  { intros v2 v3. apply serving_rely. }
  { by intros v2 [[]]. }
  { intros w h y ([_ _ Hc] & Hg & Ht) _ _ _. simpl in *. by rewrite Hc. }
  2: { intros e v2 [Hr _]. by split. }
  clear v v1 H1 Hv Hx Hs. intros v Hv. eapply serving_usual; [apply usual_abort_ready | exact Hv|]. clear v Hv. intros _ v Hv.
  eapply serving_usual; [apply usual_rt_upd; intros r; repeat split; auto | exact Hv|]. clear v Hv. intros _ v Hv.
  apply serving_get; [done|]. clear v Hv. intros v Hv. destruct (on_session_ready_handler _) as [h|]; [|by split; [|apply Hv]].
  eapply (osafe_mono client_ok held same bad _ _ (λ own _ v', own = ∅ ∧ serving s cfg v')); [|by apply serving_spawn].
  intros own r v' _ [-> Hv']. by split; [|apply Hv'].
Qed.

Lemma session_handle_packet s cfg p a v :
  read_packet s cfg (type p) p a → handling s cfg [a] v →
  ok ∅ (handle_packet s p) (reader_ends s cfg) v.
Proof.
  intros Ha Hv. unfold handle_packet. destruct (type p).
  - apply reader_usual; [apply usual_disconnect_packet | apply Hv].
  - apply ok_se_get; [by destruct Hv as [[]]|]. intros x v1 H1 Hx.
    assert (reading s cfg v1) as Hr by (eapply reading_rely; [apply Hv | done]).
    rewrite cell_is_spec. case_bool_decide as Hst; [|by split]. destruct (key p); [|by split].
    apply ok_session_event. split; [done|]. pose proof (good_evidence _ (reading_good _ _ _ Hr) s x Hx) as He.
    by rewrite Hst, (reading_config _ _ _ Hr) in He.
  - by eapply session_handle_init.
  - by eapply ok_handle_ready.
Qed.

(** A frame that was read is handled. *)
Lemma ok_incoming s cfg m b v :
  m = Binary b ∨ m = Text b → handling s cfg [(WsNext s, RFrame (Some m))] v →
  ok ∅ (handle_incoming_packet s b) (reader_ends s cfg) v.
Proof.
  intros Hm Hv. unfold handle_incoming_packet. apply ok_rt_get. intros v1 H1.
  assert (Hv1 : handling s cfg [(WsNext s, RFrame (Some m))] v1) by by eapply handling_rely.
  rewrite (reading_config _ _ _ (proj1 Hv1)).
  destruct (decode (packet_codec cfg) b) as [p|e] eqn:Hd; [|split; [done | apply Hv1]].
  simpl bind. eapply session_handle_packet; [|exact Hv1]. exists m. split; [done|]. split; [by exists b | done].
Qed.

Lemma ok_read fuel s cfg v : reading s cfg v → ok ∅ (read_ws_stream_task fuel s) (reader_ends s cfg) v.
Proof.
  revert v. induction fuel as [|fuel IH]; intros v Hv; [by split|]. cbn [read_ws_stream_task].
  apply ok_await. intros w h r H1 H2.
  assert (Hv2 : reading s cfg (w, (WsNext s, r) :: h)) by by eapply reading_rely.
  destruct r as [| | |message| | |]; try by split.
  apply osafe_bind. eapply osafe_mono; [apply _| |].
  - intros o r v3 _ H3. instantiate (1 := λ o r v3, reader_ends s cfg o r v3) in H3. destruct H3 as [-> H3].
    destruct r as [[|]|]; [by apply IH | by split | by split].
  - assert (Hin : ∀ m b, message = Some m → m = Binary b ∨ m = Text b →
      ok ∅ (r <- attempt (handle_incoming_packet s b) ;; Ret (is_ok r)) (λ o r v3, reader_ends s cfg o r v3)
        (w, (WsNext s, RFrame message) :: h)).
    { intros m b -> Hm. apply osafe_bind, osafe_attempt.
      eapply osafe_mono; [apply _| |eapply (ok_incoming s cfg m b); [done|]].
      - by intros o r v3 _ [-> H3].
      - split; [done|]. apply sublist_skip, sublist_nil_l. }
    destruct message as [[b|b| | | |]|]; simpl; try (by split); eapply Hin; eauto.
Qed.

(** ** The connection loop *)

(** A task that is done with every part, in a good state. *)
Definition free {A} (own : gset part) (_ : result A) (v : view) : Prop := own = ∅ ∧ good v.

Lemma good_rely own v v' : good v → rely own v v' → good v'.
Proof. intros Hg [Hv _]. by apply (ok_good _ _ Hv). Qed.

Lemma free_then {A B} (P : Client → Prop) (p : cli A) (k : A → cli B) v :
  (∀ v v', P v.1 → rely ∅ v v' → P v'.1) → usual P p → good v → P v.1 →
  (∀ a v', good v' → P v'.1 → ok ∅ (k a) free v') → ok ∅ (bind p k) free v.
Proof.
  intros HP Hp Hg Hv Hk. apply (usual_then P (λ v, good v ∧ P v.1)); [|by intros ? []|done..| |].
  - intros v1 v2 [? ?] H12. split; [by eapply good_rely | by eapply HP].
  - by intros a v' [? ?]; apply Hk.
  - by intros e v' [? ?].
Qed.

Lemma free_usual {A} (P : Client → Prop) (p : cli A) v :
  (∀ v v', P v.1 → rely ∅ v v' → P v'.1) → usual P p → good v → P v.1 → ok ∅ p free v.
Proof.
  intros HP Hp Hg Hv. eapply osafe_mono; [apply _| |by apply (usual_ok P)].
  intros o r v' _ [-> Hr]. split; [done | by eapply good_rely].
Qed.

Lemma free_bind {A B} (p : cli A) (k : A → cli B) v :
  ok ∅ p free v → (∀ a v', good v' → ok ∅ (k a) free v') → ok ∅ (bind p k) free v.
Proof.
  intros Hp Hk. apply osafe_bind. eapply osafe_mono; [apply _| |exact Hp].
  intros o [a|e] v' _ [-> Hg]; [by apply Hk | by split].
Qed.

Lemma free_ignore {A} (p : cli A) v : ok ∅ p free v → ok ∅ (ignore p) free v.
Proof. intros Hp. unfold ignore. by apply free_bind; [apply osafe_attempt|]. Qed.

(** A new session belongs to the task that made it, .. *)
Lemma ok_session_new v :
  good v → ok ∅ (session_new log2) (λ own r v, good v ∧ ∃ s, r = Ok s ∧ own = {[PSession s]}) v.
Proof.
  intros Hg. unfold session_new. apply ok_rt_get. intros v1 H1.
  assert (Hg1 : good v1) by by eapply good_rely. clear v Hg H1.
  apply ok_atom. intros w h w' H1 _ [= <-]. set (n := fresh (dom (sessions w))).
  assert (Hnew : sessions w !! n = None) by apply not_elem_of_dom, is_fresh.
  match goal with |- context [<[n := ?x]> _] => set (y := x) end.
  assert (Hhas : ∀ i x, sessions w !! i = Some x → <[n := y]> (sessions w) !! i = Some x).
  { intros i x Hx. rewrite lookup_insert_ne; [done|]. intros <-. by simplify_eq. }
  assert (Hlive : ∀ i, live i w → live i (w .[ sessions := <[n := y]> (sessions w) ])).
  { intros i (x & Hx & Hc). exists x. split; [by apply Hhas | done]. }
  assert (Hst : st_of y = Created) by apply cell_get_new.
  assert (Hok : client_ok (w, h) (w .[ sessions := <[n := y]> (sessions w) ], h)).
  { split; simpl; [|done|done|by exists []|].
    - intros i x Hx. exists x. split; [by apply Hhas | done].
    - intros [GT GS GE GL GV]. split; simpl in *; [|by auto| |done|exact GV].
      + intros j t Ht i Hi. apply Hlive. by eapply GT.
      + intros i x. rewrite lookup_insert. case_decide; [|apply GE]. intros Hx.
        assert (st_of x = Created) as -> by (injection Hx as <-; exact Hst). done. }
  exists {[PSession n]}. split_and!; [|done| |].
  - intros q ->%elem_of_singleton. split; [exists y; split; [|done]; apply lookup_insert_eq|]. right.
    intros (x & Hx & _). by simplify_eq.
  - intros [i|] _ Hq; [|done]. destruct Hq as (x & Hx & _). simpl. rewrite Hx. by apply Hhas.
  - split; [|by exists n]. apply (ok_good _ _ Hok). by eapply good_rely.
Qed.

(** .. until it waits for the init packet. *)
Definition shown (s : nat) {A} (own : gset part) (_ : result A) (v : view) : Prop :=
  own = ∅ ∧ good v ∧ live s v.1.

Lemma ok_show s v : good v → ok {[PSession s]} (state_store s AwaitingInit) (shown s) v.
Proof.
  intros Hg. apply ok_atom. intros w h w' H1 Hh [= <-].
  assert (Hg1 : good (w, h)) by by eapply good_rely.
  destruct (Hh (PSession s)) as (x & Hx & Hc); [by apply elem_of_singleton|].
  assert (Heq : se_set s (λ x, x .[ state := cell_store (state x) AwaitingInit ]) w =
    moved s (cell_store (state x) AwaitingInit) w).
  { unfold moved, se_set. erewrite alter_ext; [done|]. intros y Hy. by simplify_eq/=. }
  rewrite Heq.
  assert (Hok : client_ok (w, h) (moved s (cell_store (state x) AwaitingInit) w, h)).
  { apply (client_ok_state _ _ x); [done|..]; rewrite cell_get_store; [|done..].
    rewrite Hc. apply rtc_once. constructor. }
  exists ∅. split_and!; [by intros q ?%not_elem_of_empty | done | |].
  - intros [i|] Hq _; [|done]. simpl. rewrite lookup_alter_ne; [done|].
    intros ->. by apply Hq, elem_of_singleton.
  - split; [done|]. split; [by apply (ok_good _ _ Hok)|]. exists (x .[ state := cell_store (state x) AwaitingInit ]).
    split; [simpl; by rewrite lookup_alter_eq, Hx|]. simpl. by rewrite cell_get_store.
Qed.

(** A routine part of the loop, while the session [s] is shown. *)
Lemma shown_usual {A} (p : cli A) s v : usual (live s) p → good v → live s v.1 → ok ∅ p (shown s) v.
Proof.
  intros Hp Hg Hl. eapply osafe_mono; [apply _| |by apply (usual_ok (live s)); [intros ??; apply live_rely|..]].
  intros o r v' _ [-> Hr]. split; [done|]. split; [by eapply good_rely | by eapply live_rely].
Qed.

Lemma session_inits s v : good v → ok {[PSession s]} (init s) (shown s) v.
Proof.
  intros Hg. unfold init. apply osafe_bind. eapply osafe_mono; [apply _| |by apply ok_show].
  intros o [u|e] v1 _ (-> & G1 & L1); [|by split]. apply shown_usual; [|done..].
  apply routine_bind; [apply usual_spawn; [done|]; by intros w Hw i [= <-]|]. intros t.
  apply routine_bind; [apply usual_se_upd; auto|]. intros _.
  apply routine_bind; [apply usual_spawn; [done|]; by intros w Hw i [= <-]|]. intros t'.
  apply usual_se_upd; auto.
Qed.

(** The runtime is given the session. *)
Lemma ok_publish s v :
  good v → live s v.1 → ok ∅ (rt_upd (λ r, r .[ session := Some s ])) (shown s) v.
Proof.
  intros Hg Hl. apply ok_atom. intros w h w' H1 _ [= <-].
  assert (Hg1 : good (w, h)) by by eapply good_rely. assert (Hl1 : live s w) by by apply (live_rely ∅ s v (w, h)).
  assert (Hok : client_ok (w, h) (rt_set (λ r, r .[ session := Some s ]) w, h)).
  { split; simpl; [|done|done|by exists []|].
    - intros i x Hx. by exists x.
    - intros [GT GS GE GL GV]. split; simpl in *; [done| |done..]. by intros i [= <-]. }
  exists ∅. split_and!; [by intros q ?%not_elem_of_empty | done | by intros [] | ].
  split; [done|]. split; [|exact Hl1].
  by apply (ok_good _ _ Hok).
Qed.

(** What a connection does with the session once the runtime has it. *)
Lemma usual_serve s reader writer :
  usual (live s) (t <- rt_get cancel_token ;;
    Await (Select [reader; writer]) (λ r,
      match r with
      | RCancelled => token_cancelled t ;; graceful_shutdown s reader writer
      | r => stop_tasks s reader writer r
      end) ;;
    rt_upd (λ r, r .[ session := None ]) ;;
    cleanup s).
Proof.
  apply routine_bind; [apply usual_rt_get|]. intros t. apply routine_bind.
  - intros r. assert (usual (live s) (stop_tasks s reader writer r)) as Hs by apply usual_stop_tasks.
    destruct r; try exact Hs. apply routine_bind; [apply usual_token|]. intros _. apply usual_graceful.
  - intros _. apply routine_bind; [|intros _; apply usual_cleanup].
    apply usual_rt_upd. intros r. repeat split; auto.
Qed.

Lemma shown_then {A B} (p : cli A) (k : A → cli B) s own v :
  ok own p (shown s) v → (∀ a v', good v' → live s v'.1 → ok ∅ (k a) free v') →
  ok own (bind p k) free v.
Proof.
  intros Hp Hk. apply osafe_bind. eapply osafe_mono; [apply _| |exact Hp].
  intros o [a|e] v' _ (-> & Hg & Hl); [by apply Hk | by split].
Qed.

Lemma ok_run_connection v : good v → ok ∅ (run_connection log2) free v.
Proof.
  intros Hg. unfold run_connection.
  apply (free_then (λ _, True)); [done | apply usual_rt_get | done..|]. intros u v1 G1 _.
  apply (free_then (λ _, True)); [done | apply routine_of_result | done..|]. intros q v2 G2 _.
  apply (free_then (λ _, True)); [done | apply usual_rt_get | done..|]. intros cfg v3 G3 _.
  assert (Hu : ∀ r, usual (λ _, True) (unit_reply r)).
  { intros [[]| | | | | |]; try done; by split. }
  apply (free_then (λ _, True)); [done | by destruct (request_modifier cfg) | done..|]. intros _ v4 G4 _.
  apply (free_then (λ _, True)); [done | exact Hu | done..|]. intros _ v5 G5 _.
  apply osafe_bind. eapply osafe_mono; [apply _| |by apply ok_session_new].
  intros o r v6 _ (G6 & s & -> & ->). eapply shown_then; [by apply session_inits|]. intros _ v7 G7 L7.
  eapply shown_then; [apply shown_usual; [apply usual_spawn; [done|]; by intros w Hw i [= <-] | done..]|]. intros reader v8 G8 L8.
  eapply shown_then; [apply shown_usual; [apply usual_spawn; [done|]; by intros w Hw i [= <-] | done..]|]. intros writer v9 G9 L9.
  eapply shown_then; [by apply ok_publish|]. intros _ v10 G10 L10.
  apply (free_usual (live s)); [intros ??; apply live_rely | apply usual_serve | done..].
Qed.

Lemma ok_loop fuel v : good v → ok ∅ (connection_loop log2 fuel) free v.
Proof.
  revert v. induction fuel as [|fuel IH]; intros v Hg; [by split|]. cbn [connection_loop].
  apply (free_then (λ _, True)); [done | apply usual_rt_get | done..|]. intros [|] v1 G1 _; [|by split].
  apply free_bind; [by apply free_ignore, ok_run_connection|]. intros _ v2 G2.
  apply (free_then (λ _, True)); [done | apply usual_rt_get | done..|]. intros again v3 G3 _.
  apply (free_then (λ _, True)); [done | | done..|]; [|by intros _ v4 G4 _; apply IH].
  destruct again; [|done]. apply routine_bind; [apply usual_rt_get|]. intros t.
  apply routine_bind; [apply usual_rt_get|]. intros d r. destruct r; try done. apply usual_token.
Qed.

(** ** The task that sends event messages *)
Lemma ok_try_emit m v : good v → ok ∅ (try_emit m) free v.
Proof.
  intros Hg. unfold try_emit. apply ok_rt_get. intros v1 H1. assert (G1 : good v1) by by eapply good_rely.
  destruct (session (runtime v1.1)) as [s|] eqn:Hs; [|by split].
  apply (free_usual (live s)); [intros ??; apply live_rely | | done | by apply (good_session _ G1)].
  apply routine_bind; [|done]. apply routine_attempt, usual_emit_event.
Qed.

Lemma ok_deliver fuel m v : good v → ok ∅ (deliver fuel m) free v.
Proof.
  revert v. induction fuel as [|fuel IH]; intros v Hg; [by split|]. cbn [deliver].
  apply free_bind; [by apply ok_try_emit|]. intros [|] v1 G1; [by split|].
  apply (free_then (λ _, True)); [done | apply usual_rt_get | done..|]. intros t v2 G2 _.
  apply free_bind; [by apply ok_try_emit|]. intros [|] v3 G3; [by split|].
  apply (free_then (λ _, True)); [done | apply usual_wait | done..|]. intros _ v4 G4 _. by apply IH.
Qed.

Lemma ok_send_events rounds fuel v : good v → ok ∅ (send_event_messages rounds fuel) free v.
Proof.
  revert v. induction rounds as [|rounds IH]; intros v Hg; [by split|]. cbn [send_event_messages].
  apply (free_then (λ _, True)); [done | apply usual_recv_event | done..|]. intros [m|] v1 G1 _; [|by split].
  apply free_bind; [by apply ok_deliver|]. intros _ v2 G2. by apply IH.
Qed.

(** ** [connect] and [disconnect] *)
Abbreviation locked := ({[POperate]} : gset part).

(** What the holder of the [operate_lock] may find, and must leave. *)
Definition settled (v : view) : Prop :=
  good v ∧ (cell_get (status (runtime v.1)) = Stopping → dropped v.2).

Lemma dropped_rely own v v' : dropped v.2 → rely own v v' → dropped v'.2.
Proof.
  intros [t Ht] [[_ _ _ (h & ->) _] _]. exists t. apply elem_of_app. by right.
Qed.

Lemma status_rely v v' : rely locked v v' → cell_get (status (runtime v'.1)) = cell_get (status (runtime v.1)).
Proof. intros [_ Hs]. by destruct (Hs POperate) as [_ ->]; [apply elem_of_singleton|]. Qed.

Lemma settled_rely v v' : settled v → rely locked v v' → settled v'.
Proof.
  intros [Hg Hd] Hr. split; [by eapply good_rely|]. rewrite (status_rely _ _ Hr).
  intros Hs. by eapply dropped_rely; [apply Hd|].
Qed.

(** A change of the lock or the status: sessions and tasks are as before. *)
Lemma client_ok_rt f w h :
  (∀ r, config (f r) = config r ∧ session (f r) = session r) →
  (operate_lock (f (runtime w)) = false → cell_get (status (f (runtime w))) = Stopping → dropped h) →
  client_ok (w, h) (rt_set f w, h).
Proof.
  intros Hf Hd. destruct (Hf (runtime w)) as [Hc Hs].
  split; simpl; [intros s x Hx; by exists x | done | done | by exists [] |].
  intros [GT GS GE GL GV]. split; simpl in *; [done | by rewrite Hs | by rewrite Hc | done |].
  unfold admitted. simpl. by rewrite Hc.
Qed.

Lemma ok_lock v : good v → ok ∅ lock_operate (λ own r v, own = locked ∧ r = Ok tt ∧ settled v) v.
Proof.
  intros Hg. apply ok_atom. intros w h w' H1 _ Hw. destruct (operate_lock (runtime w)) eqn:Hl; [done|].
  injection Hw as <-. assert (Hg1 : good (w, h)) by by eapply good_rely.
  assert (Hok : client_ok (w, h) (rt_set (λ r, r .[ operate_lock := true ]) w, h)) by by apply client_ok_rt.
  exists locked. split_and!; [|done| |].
  - intros q ->%elem_of_singleton. split; [done|]. right. simpl. by rewrite Hl.
  - intros [s|] _; simpl; [done|]. by rewrite Hl.
  - split; [done|]. split; [done|]. split; [by apply (ok_good _ _ Hok)|]. by apply (good_stop _ Hg1).
Qed.

Lemma ok_unlock v : settled v → ok locked unlock_operate free v.
Proof.
  intros Hs. apply ok_atom. intros w h w' H1 _ [= <-].
  assert (settled (w, h)) as [Hg Hd] by by eapply settled_rely.
  assert (Hok : client_ok (w, h) (rt_set (λ r, r .[ operate_lock := false ]) w, h)) by by apply client_ok_rt.
  exists ∅. split_and!; [by intros q ?%not_elem_of_empty | done | |].
  - intros [s|] Hq; [done|]. by destruct Hq; apply elem_of_singleton.
  - split; [done|]. by apply (ok_good _ _ Hok).
Qed.

(** The rest of a call: nothing is left to say when it returns. *)
Definition ends {A} (own : gset part) (_ : result A) (v : view) : Prop := True.

Lemma ok_ends {A} (p : cli A) own v (Q : gset part → result A → view → Prop) :
  ok own p Q v → ok own p ends v.
Proof. intros Hp. eapply osafe_mono; [apply _| |exact Hp]. done. Qed.

(** Go on while the lock is held. *)
Lemma locked_then {A B} (K : view → Prop) (p : cli A) (k : A → cli B) v :
  (∀ v v', K v → rely locked v v' → K v') → usual (λ _, True) p → K v →
  (∀ a v', K v' → ok locked (k a) ends v') → ok locked (bind p k) ends v.
Proof. intros. by apply (usual_then (λ _, True) K). Qed.

Lemma ok_set_status {B} st (k : unit → cli B) Q v :
  good v → (∀ v', good v' → cell_get (status (runtime v'.1)) = st → ok locked (k tt) Q v') →
  ok locked (bind (rt_upd (λ r, r .[ status := cell_store (status r) st ])) k) Q v.
Proof.
  intros Hg Hk. simpl bind. apply ok_atom. intros w h w' H1 Hh [= <-].
  assert (Hl : operate_lock (runtime w) = true) by (apply (Hh POperate); by apply elem_of_singleton).
  assert (Hok : client_ok (w, h) (rt_set (λ r, r .[ status := cell_store (status r) st ]) w, h)).
  { apply client_ok_rt; [done|]. simpl. by rewrite Hl. }
  exists locked. split_and!; [|done| |].
  - intros q Hq. split; [|by left]. by apply elem_of_singleton in Hq as ->.
  - intros [s|] Hq; [done|]. by destruct Hq; apply elem_of_singleton.
  - apply Hk; [|simpl; by rewrite cell_get_store]. apply (ok_good _ _ Hok). by eapply good_rely.
Qed.

Lemma settled_status st v : good v → cell_get (status (runtime v.1)) = st → st ≠ Stopping → settled v.
Proof. intros Hg <- Hst. by split. Qed.

(** Both begin like this; only after a dropped [disconnect] do they find [Stopping]. *)
Lemma ok_locked (k : RuntimeStatus → cli unit) v :
  good v → (∀ st v', settled v' → (st = Stopping → dropped v'.2) → ok locked (k st) ends v') →
  ok ∅ (lock_operate ;; st <- rt_get (λ r, cell_get (status r)) ;; k st) ends v.
Proof.
  intros Hg Hk. apply osafe_bind. eapply osafe_mono; [apply _| |by apply ok_lock].
  intros o r v1 _ (-> & -> & H1). apply ok_rt_get. intros v2 H2.
  assert (settled v2) as Hs by by eapply settled_rely. apply Hk; [done | apply Hs].
Qed.

Lemma unreachable v : dropped v.2 → bad "internal error: entered unreachable code" v.
Proof. by split. Qed.

Lemma ok_connect v : good v → ok ∅ connect ends v.
Proof.
  intros Hg. apply ok_locked; [done|].
  intros [] v1 H1 Hd; [by apply (ok_ends _ _ _ free), ok_unlock | | by apply unreachable, Hd].
  apply ok_set_status; [apply H1|]. intros v2 G2 S2.
  assert (settled v2) as H2 by by eapply settled_status. clear -H2.
  assert (Hs : ∀ t, task_session t = None → usual (λ _, True) (spawn t)).
  { intros t Ht. apply usual_spawn; [by destruct t|]. intros w _ s Hs. by rewrite Ht in Hs. }
  apply (locked_then settled); [apply settled_rely | apply usual_new_token | done|]. intros _ v3 H3.
  apply (locked_then settled); [apply settled_rely | by apply Hs | done|]. intros t v4 H4.
  apply (locked_then settled); [apply settled_rely | apply usual_rt_upd; intros; repeat split; auto | done|]. intros _ v5 H5.
  apply (locked_then settled); [apply settled_rely | by apply Hs | done|]. intros t' v6 H6.
  apply (locked_then settled); [apply settled_rely | apply usual_rt_upd; intros; repeat split; auto | done|]. intros _ v7 H7.
  by apply (ok_ends _ _ _ free), ok_unlock.
Qed.

Lemma ok_release v : settled v → ok locked (rt_upd (λ r, r .[ rx_lock := false ]) ;; unlock_operate) ends v.
Proof.
  intros Hs. apply (locked_then settled); [apply settled_rely | apply usual_rt_upd; intros; repeat split; auto | done|].
  intros _ v1 H1. by apply (ok_ends _ _ _ free), ok_unlock.
Qed.

Lemma ok_stopped v : good v →
  ok locked (rt_upd (λ r, r .[ status := cell_store (status r) Stopped ]) ;;
    rt_upd (λ r, r .[ rx_lock := false ]) ;; unlock_operate) ends v.
Proof. intros Hg. apply ok_set_status; [done|]. intros v1 G1 S1. by apply ok_release; eapply settled_status. Qed.

Lemma session_disconnect v : good v → ok ∅ disconnect ends v.
Proof.
  intros Hg. apply ok_locked; [done|].
  intros [] v1 H1 Hd; [|by apply (ok_ends _ _ _ free), ok_unlock | by apply unreachable, Hd].
  apply ok_set_status; [apply H1|]. intros v2 G2 _. clear Hg H1 Hd.
  apply (locked_then good); [apply good_rely | apply usual_abort_send | done|]. intros _ v3 G3.
  apply (locked_then good); [apply good_rely | apply usual_cancel | done|]. intros _ v4 G4.
  apply (locked_then good); [apply good_rely | apply usual_lock_rx | done|]. intros _ v5 G5.
  apply (locked_then good); [apply good_rely | apply usual_drop_pending | done|]. intros _ v6 G6.
  apply (locked_then good); [apply good_rely | apply usual_rt_take; intros; repeat split; auto | done|]. intros t v7 G7.
  destruct t as [t|]; [|by apply ok_stopped]. apply ok_await. intros w h r H1 H2.
  assert (good (w, (Join t, r) :: h)) as G8 by by eapply good_rely.
  destruct r; try by apply ok_stopped. apply ok_release. split; [done|]. intros _. exists t. by left.
Qed.

(** ** All together *)
Lemma ok_started p v : client_starts log2 v.1 p → good v → ok ∅ p ends v.
Proof.
  intros [c Hc] Hg.
  assert (Hany : usual (λ _, True) p → ok ∅ p ends v) by (intros Hp; by apply (ok_ends _ _ _ free), (free_usual (λ _, True))).
  destruct c as [| |event d|event h|event|event i|i fuel]; simpl in Hc; simplify_eq.
  - by apply ok_connect.
  - by apply session_disconnect.
  - apply Hany, usual_emit.
  - apply Hany. by apply (routine_bind _ _ _ (on event h)); [apply usual_on|].
  - apply Hany, usual_off.
  - apply Hany, usual_off_by_id.
  - apply fmap_Some in Hc as (t & Ht & ->). pose proof (good_tasks _ Hg i t Ht) as Hl.
    assert (Hses : ∀ s (q : cli unit), task_session t = Some s → usual (live s) q → ok ∅ q ends v).
    { intros s q Hs Hq. apply (ok_ends _ _ _ free), (free_usual (live s)); [intros ??; apply live_rely | done..|].
      by apply Hl. }
    destruct t as [s|s|s|s h|t s e codec d|t s f|s|s| | |]; cbn [body].
    + by apply (Hses s); [|apply usual_watchdog].
    + by apply (Hses s); [|apply usual_watchdog].
    + by apply (Hses s); [|apply usual_ping].
    + apply (Hses s); [done|]. apply routine_until; [apply plain_refl | apply usual_handler].
    + apply osafe_until; [apply _..|]. apply (ok_ends _ _ _ (reader_ends s (config (runtime v.1)))), ok_dispatch.
      split; [split; [done | by apply Hl | done]|]. by apply (good_events _ Hg i _ s Ht).
    + apply (Hses s); [done|]. apply routine_until; [apply plain_refl | apply usual_handler].
    + apply (ok_ends _ _ _ (reader_ends s (config (runtime v.1)))), ok_read. split; [done | by apply Hl | done].
    + by apply (Hses s); [|apply usual_write].
    + by apply (ok_ends _ _ _ free), ok_loop.
    + apply (ok_ends _ _ _ free). apply (free_then (λ _, True)); [done | apply usual_lock_rx | done..|].
      intros _ v1 G1 _. by apply ok_send_events.
    + by apply session_disconnect.
Qed.

Abbreviation client_sys := (sys Client label reply).
Abbreviation runs := (reaches_in (client_starts log2)).
Abbreviation owned owns s := (pool_owned client_ok held same bad owns s).

Lemma good_new b : good (client_build log2 b, []).
Proof.
  split; simpl.
  - intros i t. by rewrite lookup_empty.
  - done.
  - intros i x. by rewrite lookup_empty.
  - intros _. by rewrite cell_get_new.
  - intros i t s. by rewrite lookup_empty.
Qed.

Lemma owned_idle w : owned (λ _, ∅) (idle w).
Proof.
  split.
  - by intros i j k ?%not_elem_of_empty.
  - by intros i k ?%not_elem_of_empty.
  - intros i p. simpl. by rewrite lookup_empty.
Qed.

Lemma client_reaches s s' :
  good (sys_view s) → (∃ owns, owned owns s) → runs s s' →
  client_ok (sys_view s) (sys_view s') ∧ good (sys_view s') ∧ ∃ owns, owned owns s'.
Proof.
  apply (reaches_owned client_ok held same same_held bad bad_stable good).
  - intros v v' Hg Hv. by apply (ok_good _ _ Hv).
  - intros p v Hp Hg. by apply ok_started.
Qed.

(** From a new client. *)
Lemma client_runs b s :
  runs (idle (client_build log2 b)) s →
  client_ok (client_build log2 b, []) (sys_view s) ∧ good (sys_view s) ∧ ∃ owns, owned owns s.
Proof.
  intros Hr. apply (client_reaches (idle (client_build log2 b))); [apply good_new | | done].
  eexists. apply owned_idle.
Qed.

(** C8: build a client and let the application make any calls while its own tasks run,
    interleaved at every atomic operation, with any answers.  From any moment to any
    later one a session is kept and has moved along the edges Created, AwaitingInit,
    Initiating, AwaitingReady, Ready, Closing, Closed only; a session that is closing or
    closed is never waiting or ready again; a cancelled token stays cancelled.  The
    session of the runtime, and every session that a spawned task works on, exists and
    has left Created; Readying is never entered. *)
Theorem session_lifecycle b s s' (H1 : runs (idle (client_build log2 b)) s) (H2 : runs s s') :
  (∀ i x, sessions (shared s) !! i = Some x → ∃ y, sessions (shared s') !! i = Some y ∧
     rtc session_edge (st_of x) (st_of y) ∧ (cancelled x = true → cancelled y = true) ∧
     (st_of x = Closing ∨ st_of x = Closed → st_of y = Closing ∨ st_of y = Closed)) ∧
  (∀ i, session (runtime (shared s')) = Some i → live i (shared s')) ∧
  (∀ j t, tasks (shared s') !! j = Some t → task_live t (shared s')) ∧
  (∀ i y, sessions (shared s') !! i = Some y → st_of y ≠ Readying).
Proof.
  destruct (client_runs _ _ H1) as (_ & Hg & Ho).
  destruct (client_reaches _ _ Hg Ho H2) as ([HS _ _ _ _] & [GT GS GE _ _] & _). split_and!; [|done|done|].
  - intros i x Hx. destruct (HS i x Hx) as (y & Hy & He & Hc). exists y. split_and!; [done..|].
    apply session_edges_rank in He. intros [E|E]; rewrite E in He.
    all: destruct (st_of y) eqn:Ey; simpl in He; auto; try lia; by specialize (GE i y Hy); simpl in GE; rewrite Ey in GE.
  - intros i y Hy E. specialize (GE i y Hy). by rewrite E in GE.
Qed.

(** C9: in every such run, a session that is ready has read an init packet of the server,
    its init handler, if there is one, has been given the payload of that packet and has
    answered Ok in time, and it has read a ready packet.  One that waits for the ready
    packet has got as far as the answer.  A task that dispatches an event, or runs a
    handler of an event or the session-ready handler, is one of a session that has read
    both packets: no event of the server is handled before. *)
Theorem ready_session_means b s i x (Hr : runs (idle (client_build log2 b)) s)
    (Hx : sessions (shared s) !! i = Some x) :
  let cfg := ClientConfig.config b in
  (st_of x = AwaitingReady ∨ st_of x = SessionReady → greeted i cfg (answers s)) ∧
  (st_of x = SessionReady → told_ready i cfg (answers s)) ∧
  ∀ j t, tasks (shared s) !! j = Some t → event_session t = Some i →
    greeted i cfg (answers s) ∧ told_ready i cfg (answers s).
Proof.
  destruct (client_runs _ _ Hr) as ([_ Hc _ _ _] & Hg & _). simpl in Hc.
  pose proof (good_evidence _ Hg i x Hx) as He. simpl in He. rewrite Hc in He.
  split_and!; [intros [E|E]; rewrite E in He; [exact He | apply He] | intros E; rewrite E in He; apply He|].
  intros j t Ht Hi. pose proof (good_events _ Hg j t i Ht Hi) as Ha. unfold admitted in Ha. simpl in Ha. by rewrite Hc in Ha.
Qed.

End lifecycle.

(** ** Witnesses *)
#[local] Existing Instances ref_types ref_cell ref_mpsc ref_notify ref_http ref_urls ref_crates.

Definition handshaken : sys Client label reply := obeyed (client_code ref_log2) handshake_moves (idle chat_client).

Lemma handshaken_reached : reaches_in (client_starts ref_log2) (idle chat_client) handshaken.
Proof. apply obeyed_reaches; by vm_compute. Qed.

Lemma session_lifecycle_witness :
  ∃ y, sessions (shared handshaken) !! 0 = Some y ∧ cell_get (ClientState.state y) = SessionReady ∧
    live 0 (shared handshaken).
Proof.
  destruct (session_lifecycle ref_log2 chat_builder (idle chat_client) handshaken) as (H1 & H2 & _).
  - apply star_refl.
  - exact handshaken_reached.
  - destruct (sessions (shared handshaken) !! 0) as [y|] eqn:Hy; [|by vm_compute in Hy].
    exists y. split; [reflexivity|]. split; [apply (field_of (λ y, cell_get (ClientState.state y)) _ y _ Hy); by vm_compute|].
    apply H2. reflexivity.
Defined.

Lemma ready_session_means_witness :
  let cfg := ClientConfig.config chat_builder in
  (greeted 0 cfg (answers handshaken) ∧ told_ready 0 cfg (answers handshaken)) ∧
  tasks (shared handshaken) !! 6 = Some (OnSessionReadyTask 0 "ready") ∧
  greeted 0 cfg (answers handshaken) ∧ told_ready 0 cfg (answers handshaken).
Proof.
  destruct (sessions (shared handshaken) !! 0) as [y|] eqn:Hy; [|by vm_compute in Hy].
  assert (cell_get (ClientState.state y) = SessionReady) as Hs
    by (apply (field_of (λ y, cell_get (ClientState.state y)) _ y _ Hy); by vm_compute).
  assert (tasks (shared handshaken) !! 6 = Some (OnSessionReadyTask 0 "ready")) as Ht by by vm_compute.
  destruct (ready_session_means ref_log2 chat_builder handshaken 0 y handshaken_reached Hy) as (H1 & H2 & H3).
  split; [split; [exact (H1 (or_intror Hs)) | exact (H2 Hs)]|]. split; [exact Ht | exact (H3 6 _ Ht eq_refl)].
Defined.

Definition after_drop : sys Client label reply := obeyed (client_code ref_log2) dropped_moves (idle chat_client).

