(* ===== verification/ClientRaces.v ===== *)
(** * Interleavings of a client's tasks that are possible

    Explicit schedules, evaluated on the concrete client of [RefClient], and the
    end of a connection that is cancelled. *)

From S2P Require Import Prelude Text Async Extern ChannelCapacity Packet Codecs EventRegistry.
From S2P Require Import ClientConfig ClientState Session ClientRuntime RefClient RunClient ClientRun ClientTasks.

#[local] Existing Instances ref_types ref_cell ref_mpsc ref_notify ref_http ref_urls ref_crates.

Abbreviation client_sys := (sys Client label reply).

Definition status_of (s : client_sys) : RuntimeStatus := cell_get (status (runtime (shared s))).

(** The close handler of a session has been called. *)
Definition close_handler_called (s : client_sys) : bool :=
  existsb (λ '(l, _), match l with Handler _ name _ => bool_decide (name = "bye"%string) | _ => false end)
    (answers s).

(** The heartbeat of the session [n] runs. *)
Definition heart_beats (n : nat) (s : client_sys) : bool :=
  existsb (λ '(_, t), match t with Ping m => m =? n | _ => false end) (map_to_list (tasks (shared s))).

(** ** [disconnect]

    The loop waits for the reader and the writer, tasks 4 and 5; [disconnect]
    cancels it and waits for its end. *)
Definition cancel_moves : client_schedule :=
  connect_moves ++ go 1 11 ++ [Start 2 CallDisconnect] ++ go 2 10 ++ replied 1 RCancelled ++ go 1 5.

Definition reader_first : client_schedule :=
  cancel_moves ++ replied 1 (REnded 4) ++ go 1 2 ++ replied 2 ok_reply ++ go 2 3.
Definition writer_first : client_schedule :=
  cancel_moves ++ replied 1 (REnded 5) ++ go 1 1 ++ replied 1 ok_reply ++ replied 2 ok_reply ++ go 2 3.
Definition none_in_time : client_schedule :=
  cancel_moves ++ replied 1 RElapsed ++ go 1 3 ++ replied 1 ok_reply ++ replied 1 ok_reply ++
  go 1 9 ++ replied 1 ok_reply ++ go 1 2 ++ replied 2 ok_reply ++ go 2 3.

(** The loop was told that the task [t] ended. *)
Definition ended_first (t : nat) (s : client_sys) : bool :=
  existsb (λ '(_, r), match r with REnded n => n =? t | _ => false end) (answers s).

(** The loop has panicked before the cleanup of the session, and the client is
    stopped: the session is kept, it never gets closed, its heartbeat goes on, and its
    close handler is not called. *)
Definition session_left (s : client_sys) : Prop :=
  panicked 1 s = true ∧ returned 2 s = true ∧ status_of s = Stopped ∧
  session (runtime (shared s)) = Some 0 ∧ state_of 0 (shared s) = Some Closing ∧
  (cancelled <$> sessions (shared s) !! 0) = Some false ∧
  heart_beats 0 s = true ∧ close_handler_called s = false.

Definition session_gone (s : client_sys) : Prop :=
  returned 1 s = true ∧ returned 2 s = true ∧ status_of s = Stopped ∧
  session (runtime (shared s)) = None ∧ state_of 0 (shared s) = Some Closed ∧
  (cancelled <$> sessions (shared s) !! 0) = Some true ∧
  heart_beats 0 s = false ∧ close_handler_called s = true.

(** The reader or the writer ends in time: [select!] takes the output of its handle, and
    awaiting the handle once more panics.  Or neither ends before the time limit. *)
Lemma graceful_disconnect_panics :
  (∃ s, reaches_in (client_starts ref_log2) (idle chat_client) s ∧ session_left s ∧ ended_first 4 s = true) ∧
  (∃ s, reaches_in (client_starts ref_log2) (idle chat_client) s ∧ session_left s ∧ ended_first 5 s = true) ∧
  (∃ s, reaches_in (client_starts ref_log2) (idle chat_client) s ∧ session_gone s).
Proof.
  split; [|split].
  - by_orders reader_first.
  - by_orders writer_first.
  - by_orders none_in_time.
Qed.

(** ** A lost wake-up *)
(** The reader handles the two packets of the handshake before the loop has
    stored the session. *)
Definition early_ready_moves : client_schedule :=
  connect_moves ++ go 1 9 ++ [Start 2 (CallEmit "hi" None)] ++ go 2 4 ++
  [Start 3 (Spawned 1 2)] ++ go 3 5 ++
  [Start 4 (Spawned 4 3)] ++ replied 4 (RFrame (Some init_frame)) ++ go 4 6 ++
  replied 4 answer ++ go 4 5 ++ replied 4 (RFrame (Some ready_frame)) ++ go 4 8 ++
  go 3 4 ++ go 1 2.

(** The sender waits with its event while a session is stored and ready. *)
Definition waits_in_vain (s : client_sys) : Prop :=
  returned 2 s = true ∧ waits 3 s = true ∧ status_of s = Running ∧
  session (runtime (shared s)) = Some 0 ∧ state_of 0 (shared s) = Some SessionReady ∧
  chan_items (send_event_message (runtime (shared s))) = [] ∧
  (length <$> queue_of 0 (shared s)) = Some 1.

Lemma lost_wakeup : ∃ s, reaches_in (client_starts ref_log2) (idle chat_client) s ∧ waits_in_vain s.
Proof. by_orders early_ready_moves. Qed.

(** ** A [disconnect] that its caller drops *)

(** The second [connect] has panicked, and the client stays stopping. *)
Definition stuck (s : client_sys) : Prop :=
  panicked 3 s = true ∧ panic_of 3 s = Some "internal error: entered unreachable code"%string ∧
  status_of s = Stopping.

Lemma dropped_disconnect_sticks :
  ∃ s, reaches_in (client_starts ref_log2) (idle chat_client) s ∧ stuck s.
Proof. by_orders dropped_moves. Qed.

(** ** All of them *)

