(* ===== verification/ClientCalls.v ===== *)
(** * The calls of a client

    [connect], [disconnect], [emit] and the task that sends events, run to
    their end. *)

From S2P Require Import Prelude Text Async Extern ChannelCapacity Packet Codecs EventRegistry.
From S2P Require Import ClientConfig ClientState Session ClientRuntime RefClient RunClient SessionRun.

Section calls.
Context `{T : Types} `{Cells : AtomicEnumCell} `{Chans : Mpsc} `{Nt : Notify} `{U : Urls} `{Crates : !SerdeCrates}.

Definition unreachable : string := "internal error: entered unreachable code".

(** Taking the lock of the operations. *)
Definition operating (w : Client) : Client := rt_set (λ r, r .[ operate_lock := true ]) w.

Lemma goes_lock {B} (k : unit → cli B) w tr r w' :
  operate_lock (runtime w) = false → goes (k tt) (operating w) tr r w' →
  goes (bind lock_operate k) w tr r w'.
Proof. intros Hl Hg. eapply goes_then; [|exact Hg]. apply goes_block. by rewrite Hl. Qed.

Lemma goes_status {B} (k : RuntimeStatus → cli B) st w tr r w' :
  cell_get (status (runtime w)) = st → goes (k st) (operating w) tr r w' →
  goes (bind (rt_get (λ r, cell_get (status r))) k) (operating w) tr r w'.
Proof. intros <- Hg. by apply goes_rt_get. Qed.

Lemma unlocked w : operate_lock (runtime w) = false →
  rt_set (λ r, r .[ operate_lock := false ]) (operating w) = w.
Proof. destruct w as [[]]. simpl. by intros ->. Qed.

(** ** [connect] *)
Definition connected (w : Client) : Client :=
  let t1 := fresh (dom (tasks w)) in
  let ts1 := <[t1 := ConnectionLoop]> (tasks w) in
  let t2 := fresh (dom ts1) in
  w .[ tokens := <[fresh (dom (tokens w)) := false]> (tokens w) ]
    .[ tasks := <[t2 := SendEventMessages]> ts1 ]
    .[ runtime := (runtime w) .[ cancel_token := fresh (dom (tokens w)) ]
         .[ status := cell_store (status (runtime w)) Running ]
         .[ connection_loop_task := Some t1 ] .[ send_event_message_task := Some t2 ] ].

Lemma goes_connect w :
  operate_lock (runtime w) = false → cell_get (status (runtime w)) = Stopped →
  goes connect w [] (Ok tt) (connected w).
Proof.
  intros Hl Hs. unfold connect. apply goes_lock; [done|]. apply (goes_status _ Stopped); [done|].
  apply goes_cl_upd. eapply goes_then; [apply goes_modify|].
  apply goes_cl_spawn, goes_cl_upd, goes_cl_spawn, goes_cl_upd.
  destruct w as [[] ss tk ts]. simpl in *. subst. exact (goes_modify _ _).
Qed.

(** A call of [connect] that gets the lock.  On a client that runs it changes
    nothing.  On one that is stopped it starts the connection loop and the task that
    sends events, as two new tasks whose handles it keeps, under a new token that is
    not cancelled; the client runs.  On one that is stopping it panics. *)
Theorem connect_starts w (Hl : operate_lock (runtime w) = false) :
  match cell_get (status (runtime w)) with
  | Running => goes connect w [] (Ok tt) w
  | Stopping => ∃ w', run [] connect w = ([], Panicked unreachable w')
  | Stopped => ∃ w' t1 t2 tok, goes connect w [] (Ok tt) w' ∧
      tasks w !! t1 = None ∧ tasks w !! t2 = None ∧ t1 ≠ t2 ∧ tokens w !! tok = None ∧
      tasks w' = <[t2 := SendEventMessages]> (<[t1 := ConnectionLoop]> (tasks w)) ∧
      tokens w' = <[tok := false]> (tokens w) ∧ sessions w' = sessions w ∧
      cell_get (status (runtime w')) = Running ∧
      runtime w' = (runtime w) .[ cancel_token := tok ] .[ status := status (runtime w') ]
        .[ connection_loop_task := Some t1 ] .[ send_event_message_task := Some t2 ]
  end.
Proof.
  destruct (cell_get (status (runtime w))) eqn:Hs.
  - unfold connect. apply goes_lock; [done|]. apply (goes_status _ Running); [done|].
    rewrite <-(unlocked w Hl) at 2. apply goes_modify.
  - exists (connected w), (fresh (dom (tasks w))),
      (fresh (dom (<[fresh (dom (tasks w)) := ConnectionLoop]> (tasks w)))), (fresh (dom (tokens w))).
    pose proof (is_fresh (dom (tasks w))) as H1.
    pose proof (is_fresh (dom (<[fresh (dom (tasks w)) := ConnectionLoop]> (tasks w)))) as H2.
    rewrite dom_insert_L, not_elem_of_union, not_elem_of_singleton in H2. destruct H2 as [H2 H3].
    split_and!; try done.
    + by apply goes_connect.
    + by apply not_elem_of_dom.
    + apply not_elem_of_dom. rewrite dom_insert_L. done.
    + rewrite dom_insert_L. congruence.
    + apply not_elem_of_dom, is_fresh.
    + apply cell_get_store.
  - exists (operating w). unfold connect, lock_operate, block. simpl. rewrite Hl. simpl. by rewrite Hs.
Qed.

(** ** [disconnect] *)
Definition drain {A} (ch : chan A) : chan A :=
  Nat.iter (length (chan_items ch)) (λ ch, (chan_try_recv ch).1) ch.

Lemma drain_spec {A} (ch : chan A) :
  chan_items (drain ch) = [] ∧ chan_cap (drain ch) = chan_cap ch ∧ chan_closed (drain ch) = chan_closed ch.
Proof.
  assert (∀ n, chan_items (Nat.iter n (λ ch, (chan_try_recv ch).1) ch) = drop n (chan_items ch) ∧
    chan_cap (Nat.iter n (λ ch, (chan_try_recv ch).1) ch) = chan_cap ch ∧
    chan_closed (Nat.iter n (λ ch, (chan_try_recv ch).1) ch) = chan_closed ch) as H'.
  { induction n as [|n (IH1 & IH2 & IH3)]; [done|]. rewrite Nat.iter_succ.
    set (c := Nat.iter n _ ch) in *. pose proof (chan_try_recv_spec c) as Hc.
    destruct (chan_try_recv c) as [c' o]. simpl. destruct Hc as (-> & -> & _ & ->).
    rewrite IH1, IH2, IH3. split; [|done]. clear. revert n. 
    induction (chan_items ch) as [|a l IHl]; intros [|n]; simpl; done. }
  unfold drain. destruct (H' (length (chan_items ch))) as (-> & -> & ->). by rewrite drop_all.
Qed.

(** The client once its loop has to end; [locks] are the two locks. *)
Definition ended (st : RuntimeStatus) (locks : bool) (w : Client) : Client :=
  w .[ tokens := <[cancel_token (runtime w) := true]> (tokens w) ]
    .[ tasks := without (send_event_message_task (runtime w)) (tasks w) ]
    .[ runtime := (runtime w) .[ status := cell_store (cell_store (status (runtime w)) Stopping) st ]
         .[ send_event_message_task := None ] .[ connection_loop_task := None ]
         .[ send_event_message := drain (send_event_message (runtime w)) ]
         .[ operate_lock := locks ] .[ rx_lock := locks ] ].

(** Up to the wait for the connection loop. *)
Definition ending_world (w : Client) : Client :=
  w .[ tokens := <[cancel_token (runtime w) := true]> (tokens w) ]
    .[ tasks := without (send_event_message_task (runtime w)) (tasks w) ]
    .[ runtime := (runtime w) .[ status := cell_store (status (runtime w)) Stopping ]
         .[ send_event_message_task := None ] .[ connection_loop_task := None ]
         .[ send_event_message := drain (send_event_message (runtime w)) ]
         .[ operate_lock := true ] .[ rx_lock := true ] ].

Definition release : cli unit := rt_upd (λ r, r .[ rx_lock := false ]) ;; unlock_operate.

Definition wait_loop (t : option nat) : cli unit :=
  match t with
  | Some t =>
      Await (Join t) (λ r,
        match r with
        | RDropped => release
        | _ => rt_upd (λ r, r .[ status := cell_store (status r) Stopped ]) ;; release
        end)
  | None => rt_upd (λ r, r .[ status := cell_store (status r) Stopped ]) ;; release
  end.

(** The send task either holds the lock of the queue or leaves it free. *)
Definition rx_available (w : Client) : Prop :=
  send_event_message_task (runtime w) = None → rx_lock (runtime w) = false.

Lemma goes_disconnect w tr r w' :
  operate_lock (runtime w) = false → cell_get (status (runtime w)) = Running → rx_available w →
  goes (wait_loop (connection_loop_task (runtime w))) (ending_world w) tr r w' →
  goes disconnect w tr r w'.
Proof.
  intros Hl Hs Hrx Hg. unfold disconnect. apply goes_lock; [done|].
  apply (goes_status _ Running); [done|]. apply goes_cl_upd.
  set (w1 := rt_set (λ r, r .[ status := cell_store (status r) Stopping ]) (operating w)).
  set (w2 := (rt_set (λ r, r .[ send_event_message_task := None ] .[ rx_lock := false ]) w1)
    .[ tasks := without (send_event_message_task (runtime w)) (tasks w) ]).
  assert (Ha : goes abort_send_task w1 [] (Ok tt) w2).
  { unfold abort_send_task. eapply goes_then; [eapply goes_atom; [done|]; apply goes_ret|].
    unfold w2, w1. destruct w as [[] ss tk ts]. unfold rx_available in Hrx. simpl in *.
    match goal with |- goes (match ?t with _ => _ end) _ _ _ _ => destruct t as [i|] end.
    - eapply goes_atom; [done|].
      exact (goes_modify (rt_set (λ r, r .[ ClientState.rx_lock := false ])) _).
    - rewrite Hrx by done. apply goes_ret. }
  eapply goes_then; [exact Ha|]. eapply goes_then; [exact (goes_modify _ _)|].
  unfold lock_rx. eapply goes_then; [by apply goes_block|].
  unfold drop_pending. apply goes_cl_upd.
  eapply goes_then; [eapply goes_atom; [done|]; apply goes_ret|].
  unfold wait_loop, ending_world in Hg. unfold w2, w1.
  destruct w as [[] ss tk ts]. exact Hg.
Qed.

Lemma goes_release st w :
  goes (rt_upd (λ r, r .[ status := cell_store (status r) Stopped ]) ;; release) (ending_world w) [] (Ok tt)
    (ended Stopped false w) ∧
  (st = Stopping → goes release (ending_world w) [] (Ok tt)
    (rt_set (λ r, r .[ status := cell_store (status (runtime w)) Stopping ]) (ended Stopped false w))).
Proof.
  split.
  - apply goes_cl_upd. unfold release. apply goes_cl_upd. exact (goes_modify _ _).
  - intros _. unfold release. apply goes_cl_upd. exact (goes_modify _ _).
Qed.

(** What a disconnection leaves of a client, apart from its status. *)
Definition wound_down (w w' : Client) : Prop :=
  tokens w' = <[cancel_token (runtime w) := true]> (tokens w) ∧
  tasks w' = without (send_event_message_task (runtime w)) (tasks w) ∧
  sessions w' = sessions w ∧
  chan_items (send_event_message (runtime w')) = [] ∧
  chan_cap (send_event_message (runtime w')) = chan_cap (send_event_message (runtime w)) ∧
  chan_closed (send_event_message (runtime w')) = chan_closed (send_event_message (runtime w)) ∧
  connection_loop_task (runtime w') = None ∧ send_event_message_task (runtime w') = None ∧
  operate_lock (runtime w') = false ∧ rx_lock (runtime w') = false ∧
  event_registry (runtime w') = event_registry (runtime w) ∧ config (runtime w') = config (runtime w).

Lemma wound_down_ended w : wound_down w (ended Stopped false w).
Proof. destruct (drain_spec (send_event_message (runtime w))) as (? & ? & ?). by split_and!. Qed.

(** C19: a call of [disconnect] that gets the lock.  On a client that is stopped it changes
    nothing, on one that is stopping it panics.  On one that runs it aborts the task that
    sends events, cancels the token, drops every event that waits to be sent, waits for
    the connection loop, and leaves the client stopped with both locks free. *)
Theorem disconnect_stops w (Hl : operate_lock (runtime w) = false) (Hrx : rx_available w) :
  match cell_get (status (runtime w)) with
  | Stopped => goes disconnect w [] (Ok tt) w
  | Stopping => ∃ w', run [] disconnect w = ([], Panicked unreachable w')
  | Running => ∀ r, r ≠ RDropped → ∃ w',
      goes disconnect w (match connection_loop_task (runtime w) with Some t => [(Join t, r)] | None => [] end)
        (Ok tt) w' ∧ cell_get (status (runtime w')) = Stopped ∧ wound_down w w'
  end.
Proof.
  destruct (cell_get (status (runtime w))) eqn:Hs.
  - intros r Hr. exists (ended Stopped false w). split_and!; [|apply cell_get_store | apply wound_down_ended].
    apply goes_disconnect; [done..|]. destruct (goes_release Stopped w) as [Hg _].
    unfold wait_loop. destruct (connection_loop_task (runtime w)); [|exact Hg].
    apply goes_await. by destruct r.
  - unfold disconnect. apply goes_lock; [done|]. apply (goes_status _ Stopped); [done|].
    rewrite <-(unlocked w Hl) at 2. apply goes_modify.
  - exists (operating w). unfold disconnect, lock_operate, block. simpl. rewrite Hl. simpl. by rewrite Hs.
Qed.

(** If the caller drops the future of [disconnect] while it waits for the connection
    loop, the client stays stopping with its locks free, and every later call of [connect]
    or [disconnect] panics. *)
Theorem dropped_disconnect w t (Hl : operate_lock (runtime w) = false) (Hrx : rx_available w)
    (Hs : cell_get (status (runtime w)) = Running) (Ht : connection_loop_task (runtime w) = Some t) :
  ∃ w', goes disconnect w [(Join t, RDropped)] (Ok tt) w' ∧
    cell_get (status (runtime w')) = Stopping ∧ wound_down w w' ∧
    (∃ w1, run [] connect w' = ([], Panicked unreachable w1)) ∧
    (∃ w1, run [] disconnect w' = ([], Panicked unreachable w1)).
Proof.
  set (w' := rt_set (λ r, r .[ status := cell_store (status (runtime w)) Stopping ]) (ended Stopped false w)).
  assert (Hst : cell_get (status (runtime w')) = Stopping) by apply cell_get_store.
  assert (Hl' : operate_lock (runtime w') = false) by done.
  exists w'. split_and!; [|done | |exists (operating w') | exists (operating w')].
  - apply goes_disconnect; [done..|]. rewrite Ht. apply goes_await.
    by apply (goes_release Stopping w).
  - exact (wound_down_ended w).
  - unfold connect, lock_operate, block. simpl. by rewrite cell_get_store.
  - unfold disconnect, lock_operate, block. simpl. by rewrite cell_get_store.
Qed.

(** A client that has been connected and disconnected can be connected again; its new token
    is not the one that was cancelled. *)
Theorem reconnects w r (Hl : operate_lock (runtime w) = false)
    (Hs : cell_get (status (runtime w)) = Stopped) (Hr : r ≠ RDropped) :
  ∃ w1 t w2 w3, goes connect w [] (Ok tt) w1 ∧ goes disconnect w1 [(Join t, r)] (Ok tt) w2 ∧
    goes connect w2 [] (Ok tt) w3 ∧
    cell_get (status (runtime w1)) = Running ∧ cell_get (status (runtime w2)) = Stopped ∧
    cell_get (status (runtime w3)) = Running ∧
    tokens w1 !! cancel_token (runtime w1) = Some false ∧
    tokens w3 !! cancel_token (runtime w1) = Some true ∧
    tokens w3 !! cancel_token (runtime w3) = Some false.
Proof.
  set (w1 := connected w). set (w2 := ended Stopped false w1). set (w3 := connected w2).
  exists w1, (fresh (dom (tasks w))), w2, w3.
  assert (Hs1 : cell_get (status (runtime w1)) = Running) by apply cell_get_store.
  assert (Hs2 : cell_get (status (runtime w2)) = Stopped) by apply cell_get_store.
  split_and!; [by apply goes_connect | | by apply goes_connect | done | done | apply cell_get_store | | |].
  - apply goes_disconnect; [done | done | done|]. apply goes_await.
    destruct (goes_release Stopped w1) as [Hg _]. by destruct r.
  - apply lookup_insert_eq.
  - change (<[fresh (dom (tokens w2)) := false]> (tokens w2) !! cancel_token (runtime w1) = Some true).
    assert (tokens w2 !! cancel_token (runtime w1) = Some true) as Ht by apply lookup_insert_eq.
    rewrite lookup_insert_ne; [done|]. intros E. apply elem_of_dom_2 in Ht. rewrite <-E in Ht.
    by apply (is_fresh (dom (tokens w2))) in Ht.
  - apply lookup_insert_eq.
Qed.

(** ** [emit] *)
Lemma goes_enqueue m w :
  chan_closed (send_event_message (runtime w)) = false →
  length (chan_items (send_event_message (runtime w))) < chan_cap (send_event_message (runtime w)) →
  ∃ ch, chan_items ch = chan_items (send_event_message (runtime w)) ++ [m] ∧
    goes (enqueue m) w [] (Ok tt) (rt_set (λ r, r .[ send_event_message := ch ]) w).
Proof.
  intros Hopen Hroom. pose proof (chan_send_spec (send_event_message (runtime w)) m) as Hs.
  destruct (chan_send (send_event_message (runtime w)) m) as [[ch res]|] eqn:E; [|lia].
  rewrite Hopen in Hs. destruct Hs as (_ & _ & _ & Hit & ->). exists ch. split; [done|].
  eapply goes_atom; [by rewrite E|]. by rewrite E.
Qed.

Lemma goes_emit event data d b w :
  let codec := packet_codec (config (runtime w)) in
  cell_get (status (runtime w)) = Running → encode_payload codec data = Ok d →
  encode codec (new_event event d) = Ok b → chan_closed (send_event_message (runtime w)) = false →
  length (chan_items (send_event_message (runtime w))) < chan_cap (send_event_message (runtime w)) →
  ∃ ch, chan_items ch = chan_items (send_event_message (runtime w)) ++ [message_of codec b] ∧
    goes (emit event data) w [] (Ok tt) (rt_set (λ r, r .[ send_event_message := ch ]) w).
Proof.
  intros codec Hs Hd Hb Hopen Hroom. destruct (goes_enqueue (message_of codec b) w Hopen Hroom) as (ch & Hit & Hg).
  exists ch. split; [done|]. unfold emit. apply goes_rt_get. rewrite cell_ensure_spec, decide_True by done.
  eapply goes_then; [exact (goes_ret tt w)|]. apply goes_rt_get. fold codec. rewrite Hd.
  eapply goes_then; [exact (goes_ret d w)|]. eapply goes_then; [by apply goes_se_encode | exact Hg].
Qed.

(** C34: [emit] is refused unless the client runs, and fails with the error of the codec if the
    payload or the packet cannot be encoded; neither changes anything.  Otherwise the
    event waits at the end of the client's queue, session or not, as bytes that decode
    to the event packet with this name and payload. *)
Theorem client_emit event data w :
  let codec := packet_codec (config (runtime w)) in
  (cell_get (status (runtime w)) ≠ Running →
   goes (emit event data) w [] (Err (EMsg
     ("Cannot emit in invalid status: " ++ show_status (cell_get (status (runtime w)))))) w) ∧
  (cell_get (status (runtime w)) = Running →
   (∀ e, encode_payload codec data = Err e → goes (emit event data) w [] (Err e) w) ∧
   (∀ d e, encode_payload codec data = Ok d → encode codec (new_event event d) = Err e →
      goes (emit event data) w [] (Err e) w) ∧
   (∀ d b, encode_payload codec data = Ok d → encode codec (new_event event d) = Ok b →
      chan_closed (send_event_message (runtime w)) = false →
      length (chan_items (send_event_message (runtime w))) < chan_cap (send_event_message (runtime w)) →
      ∃ ch, goes (emit event data) w [] (Ok tt) (rt_set (λ r, r .[ send_event_message := ch ]) w) ∧
        chan_items ch = chan_items (send_event_message (runtime w)) ++ [message_of codec b] ∧
        decode codec b = Ok (new_event event d))).
Proof.
  cbv zeta. set (codec := packet_codec (config (runtime w))).
  assert (Hr : ∀ r w', cell_get (status (runtime w)) = Running →
    goes (bytes <- of_result (encode_payload codec data) ;;
          message <- encode_packet_to_message (new_event event bytes) ;; enqueue message) w [] r w' →
    goes (emit event data) w [] r w').
  { intros r w' Hs Hg. unfold emit. apply goes_rt_get. rewrite cell_ensure_spec, decide_True by done.
    eapply goes_then; [exact (goes_ret tt w)|]. apply goes_rt_get. exact Hg. }
  split.
  - intros Hs. unfold emit. apply goes_rt_get. rewrite cell_ensure_spec, decide_False by done. apply goes_fail.
  - intros Hs. split_and!.
    + intros e He. apply Hr; [done|]. rewrite He. apply goes_fail.
    + intros d e Hd He. apply Hr; [done|]. rewrite Hd. eapply goes_then; [exact (goes_ret d w)|].
      by apply goes_bind_err, goes_se_encode_err.
    + intros d b Hd Hb Hopen Hroom.
      destruct (goes_emit event data d b w Hs Hd Hb Hopen Hroom) as (ch & Hit & Hg).
      exists ch. split; [done|]. split; [done | by apply decode_encode_ok].
Qed.

(** ** The task that sends events *)

(** The session of the client can take a message now. *)
Definition takes (w : Client) (s : nat) (x : WsIoClientSession) : Prop :=
  session (runtime w) = Some s ∧ sessions w !! s = Some x ∧ cell_get (state x) = SessionReady ∧
  chan_closed (message_tx x) = false ∧ length (chan_items (message_tx x)) < chan_cap (message_tx x).

Lemma goes_deliver n m w s x :
  takes w s x → ∃ ch, chan_items ch = chan_items (message_tx x) ++ [m] ∧
    goes (deliver (S n) m) w [] (Ok tt) (se_set s (λ x, x .[ message_tx := ch ]) w).
Proof.
  intros (Hs & Hx & Hst & Hopen & Hroom).
  destruct (goes_se_send s m w x Hx Hopen Hroom) as (ch & Hit & _ & _ & Hg).
  exists ch. split; [done|]. cbn [deliver]. eapply goes_then.
  - unfold try_emit. apply goes_rt_get. rewrite Hs.
    eapply goes_then; [apply goes_attempt; unfold emit_event_message|apply goes_ret].
    eapply goes_se_get; [done|]. rewrite cell_ensure_spec, decide_True by done. exact Hg.
  - apply goes_ret.
Qed.

(** No session, or one that is not ready. *)
Definition no_taker (w : Client) : Prop :=
  match session (runtime w) with
  | None => True
  | Some s => ∃ x, sessions w !! s = Some x ∧ cell_get (state x) ≠ SessionReady
  end.

Lemma goes_no_taker m w : no_taker w → goes (try_emit m) w [] (Ok false) w.
Proof.
  unfold no_taker. intros Hn. unfold try_emit. apply goes_rt_get.
  destruct (session (runtime w)) as [s|]; [|apply goes_ret]. destruct Hn as (x & Hx & Hs).
  eapply goes_then.
  - apply goes_attempt. unfold emit_event_message. eapply goes_se_get; [done|].
    rewrite cell_ensure_spec, decide_False by done. apply goes_fail.
  - apply goes_ret.
Qed.

Lemma run_then {A B} (p : cli A) (k : A → cli B) w a w1 :
  goes p w [] (Ok a) w1 → run [] (bind p k) w = run [] (k a) w1.
Proof.
  revert w. induction p as [b|e|msg|f c IH|l c IH]; intros w Hg.
  - by apply goes_ret_inv in Hg as (_ & [= ->] & ->).
  - by apply goes_fail_inv in Hg as (_ & ? & _).
  - done.
  - apply goes_atom_inv in Hg as (w2 & Hf & Hg). simpl. rewrite Hf. by apply IH.
  - by apply goes_await_inv in Hg as (? & ? & ? & _).
Qed.

End calls.

(** ** Witnesses *)
#[local] Existing Instances ref_types ref_cell ref_mpsc ref_notify ref_http ref_urls ref_crates.

Lemma connect_starts_witness :
  ∃ w' tok, goes connect chat_client [] (Ok tt) w' ∧ tokens chat_client !! tok = None.
Proof.
  pose proof (connect_starts chat_client eq_refl) as H.
  replace (cell_get (status (runtime chat_client))) with Stopped in H by by vm_compute.
  destruct H as (w' & t1 & t2 & tok & Hg & _ & _ & _ & Ht & _).
  exists w', tok. split; [exact Hg | exact Ht].
Defined.

Lemma disconnect_stops_witness :
  ∃ w', goes disconnect ready_client [(Join 0, RUnit (Ok tt))] (Ok tt) w' ∧
    cell_get (status (runtime w')) = Stopped.
Proof.
  assert (operate_lock (runtime ready_client) = false) as Hl by by vm_compute.
  assert (rx_available ready_client) as Hrx by (intros H; by vm_compute in H).
  pose proof (disconnect_stops ready_client Hl Hrx) as H.
  replace (cell_get (status (runtime ready_client))) with Running in H by by vm_compute.
  replace (connection_loop_task (runtime ready_client)) with (Some 0) in H by by vm_compute.
  destruct (H (RUnit (Ok tt))) as (w' & Hg & Hs & _); [discriminate|].
  exists w'. split; [exact Hg | exact Hs].
Defined.

Lemma dropped_disconnect_witness :
  ∃ w' w1, goes disconnect ready_client [(Join 0, RDropped)] (Ok tt) w' ∧
    run [] connect w' = ([], Panicked unreachable w1).
Proof.
  destruct (dropped_disconnect ready_client 0) as (w' & Hg & _ & _ & (w1 & Hp) & _).
  - by vm_compute.
  - intros H; by vm_compute in H.
  - by vm_compute.
  - by vm_compute.
  - exists w', w1. split; [exact Hg | exact Hp].
Defined.

Lemma reconnects_witness :
  ∃ w1 t w2 w3, goes connect chat_client [] (Ok tt) w1 ∧
    goes disconnect w1 [(Join t, RUnit (Ok tt))] (Ok tt) w2 ∧ goes connect w2 [] (Ok tt) w3.
Proof.
  destruct (reconnects chat_client (RUnit (Ok tt)) eq_refl) as (w1 & t & w2 & w3 & H1 & H2 & H3 & _).
  - by vm_compute.
  - discriminate.
  - exists w1, t, w2, w3. split; [exact H1|]. split; [exact H2 | exact H3].
Defined.

Lemma client_emit_witness :
  ∃ w', goes (emit "chat" None) running_client [] (Ok tt) w' ∧
    goes (emit "chat" None) chat_client [] (Err (EMsg "Cannot emit in invalid status: Stopped")) chat_client.
Proof.
  destruct (proj2 (client_emit "chat" None running_client)) as (_ & _ & H); [by vm_compute|].
  destruct (H None (Byte.x01 :: put_opt (Some (String.list_byte_of_string "chat")) ++ put_opt None))
    as (ch & Hg & _); [by vm_compute | by vm_compute | by vm_compute | apply Nat.ltb_lt; by vm_compute |].
  eexists. split; [exact Hg|].
  pose proof (proj1 (client_emit "chat" None chat_client)) as H'.
  replace (cell_get (status (runtime chat_client))) with Stopped in H' by by vm_compute.
  apply H'. discriminate.
Defined.

