(* ===== verification/EndToEnd.v ===== *)
(** * A client and a server together

    The handshake from both sides, frames and the heartbeat, and the namespace a
    client asks for. *)

From S2P Require Import Prelude Text Async Concurrent Extern ChannelCapacity Packet Codecs.
From S2P Require Import EventRegistry Extensions ServerConfig ServerState Connection Broadcast.
From S2P Require Import Namespace ServerRuntime RunServer RefServer Handshake Request.
From S2P Require Import ClientConfig ClientState Session ClientRuntime RefClient RunClient SessionRun ClientRun.

(** ** The handshake *)
Section handshake.
Context `{T : Types} `{Cells : AtomicEnumCell} `{Chans : Mpsc} `{Nt : Notify} `{U : Urls} `{Crates : !SerdeCrates}.

Abbreviation server_goes := (goes (W := Server) (L := ServerState.label) (R := ServerState.reply)).
Abbreviation client_goes := (goes (W := Client) (L := ClientState.label) (R := ClientState.reply)).

Lemma server_incoming c b w x y p tr r w' :
  connection_heap w !! c = Some x → namespace_heap w !! namespace x = Some y →
  decode (ns_packet_codec (ServerState.config y)) b = Ok p →
  server_goes (Connection.handle_packet c p) w tr r w' →
  server_goes (Connection.handle_incoming_packet c b) w tr r w'.
Proof.
  intros Hx Hy Hd Hg. eapply goes_conn_get; [done|]. eapply goes_ns_get; [done|]. by rewrite Hd.
Qed.

Lemma client_incoming s b w p tr r w' :
  decode (packet_codec (config (ClientState.runtime w))) b = Ok p →
  client_goes (Session.handle_packet s p) w tr r w' →
  client_goes (Session.handle_incoming_packet s b) w tr r w'.
Proof. intros Hd Hg. apply goes_rt_get. by rewrite Hd. Qed.

(** The two sides before the handshake. *)
Record meeting (c s : nat) (ws : Server) (wc : Client) (x : WsIoServerConnection)
    (y : WsIoServerNamespace) (z : WsIoClientSession) : Prop := {
  meet_conn : connection_heap ws !! c = Some x;
  meet_ns : namespace_heap ws !! namespace x = Some y;
  meet_session : sessions wc !! s = Some z;
  meet_created : cell_get (ServerState.state x) = ServerState.Created;
  meet_waiting : cell_get (ClientState.state z) = ClientState.AwaitingInit;
  meet_codec : packet_codec (config (ClientState.runtime wc)) = ns_packet_codec (ServerState.config y);
  meet_server_open : chan_closed (ServerState.message_tx x) = false;
  meet_server_room : length (chan_items (ServerState.message_tx x)) + 1 < chan_cap (ServerState.message_tx x);
  meet_client_open : chan_closed (message_tx z) = false;
  meet_client_room : length (chan_items (message_tx z)) < chan_cap (message_tx z);
}.

Definition server_state (c : nat) (w : Server) : option ConnectionState :=
  (λ x, cell_get (ServerState.state x)) <$> connection_heap w !! c.
Definition server_queue (c : nat) (w : Server) : option (list Message) :=
  (λ x, chan_items (ServerState.message_tx x)) <$> connection_heap w !! c.
Definition client_state (s : nat) (w : Client) : option SessionState :=
  (λ x, cell_get (ClientState.state x)) <$> sessions w !! s.
Definition client_queue (s : nat) (w : Client) : option (list Message) :=
  (λ x, chan_items (message_tx x)) <$> sessions w !! s.

(** C10: a server connection and a client session that use the same codec, with handlers that
    all succeed, exchange three packets and are both ready.  The server's init packet
    carries what its init-request handler answered, and the client's init handler gets
    it; the client's answer is what the server's init-response handler gets; the server
    is ready before the client is.  Each of the frames is the last one its sender has
    queued. *)
Theorem handshake_end_to_end c s ws wc x y z d1 d2 tr1 tr2 tr3 b1 b2 b3
    (M : meeting c s ws wc x y z)
    (H1 : request_passes c (ServerState.config y) tr1 d1)
    (H2 : answered s (config (ClientState.runtime wc)) d1 tr2 (Ok d2))
    (H3 : response_passes c (ServerState.config y) d2 tr3)
    (E1 : encode (ns_packet_codec (ServerState.config y)) (new_init d1) = Ok b1)
    (E2 : encode (ns_packet_codec (ServerState.config y)) (new_init d2) = Ok b2)
    (E3 : encode (ns_packet_codec (ServerState.config y)) new_ready = Ok b3) :
  let frame b := message_of (ns_packet_codec (ServerState.config y)) b in
  let q := chan_items (ServerState.message_tx x) in
  ∃ ws1 wc1 ws2 wc2,
    server_goes (Connection.init c) ws tr1 (Ok tt) ws1 ∧
    server_queue c ws1 = Some (q ++ [frame b1]) ∧
    client_goes (Session.handle_incoming_packet s b1) wc tr2 (Ok tt) wc1 ∧
    client_queue s wc1 = Some (chan_items (message_tx z) ++ [frame b2]) ∧
    client_state s wc1 = Some AwaitingReady ∧
    server_goes (Connection.handle_incoming_packet c b2) ws1
      (tr3 ++ passes c (middleware (ServerState.config y)) ++ passes c (on_connect_handler (ServerState.config y)))
      (Ok tt) ws2 ∧
    server_queue c ws2 = Some (q ++ [frame b1] ++ [frame b3]) ∧
    server_state c ws2 = Some ConnReady ∧
    client_goes (Session.handle_incoming_packet s b3) wc1 [] (Ok tt) wc2 ∧
    client_state s wc2 = Some SessionReady.
Proof.
  destruct M as [Hx Hy Hz Hcr Hw Hcodec So Sr Co Cr].
  cbv zeta. set (codec := ns_packet_codec (ServerState.config y)) in *.
  destruct (init_succeeds_run c ws x y tr1 d1 b1) as (ws1 & s1 & ch1 & G1 & Hs1 & Hit1 & Hcap1 & Hcl1 & D1 & Hws1);
    [done..|lia|]. cbv zeta in Hws1.
  set (x1 := x .[ ServerState.state := s1 ]
    .[ ServerState.init_timeout_task := Some (fresh (dom (ServerState.tasks ws))) ]
    .[ ServerState.message_tx := ch1 ]) in *.
  assert (Hx1 : connection_heap ws1 !! c = Some x1) by (rewrite Hws1; apply lookup_insert_eq).
  assert (Hn1 : namespace_heap ws1 = namespace_heap ws) by by rewrite Hws1.
  destruct (init_packet_answered_run s d1 wc z Hz Hw tr2 d2 b2) as
    (wc1 & z1 & t & G2 & Hz1 & Hs2 & _ & _ & _ & _ & Hit2 & D2 & _ & _ & Hrt1 & _); [done | by rewrite Hcodec | done..|].
  assert (Hzl : sessions wc1 !! s = Some z1) by (rewrite Hz1; apply lookup_insert_eq).
  destruct (handshake_succeeds_run c d2 ws1 x1 y) with (t := tr3) (b := b3)
    as (ws2 & s3 & ch3 & G3 & Hs3 & Hit3 & Hch3 & _);
    [exact Hx1 | exact Hs1 | by rewrite Hn1 | exact H3 | exact E3 | exact Hcl1 | |].
  { simpl. rewrite Hit1, Hcap1, length_app. simpl. lia. }
  destruct (ready_packet_run s wc1 z1 Hzl Hs2) as (wc2 & z2 & G4 & Hz2 & Hs4 & _).
  exists ws1, wc1, ws2, wc2. unfold server_queue, client_queue, client_state, server_state. split_and!.
  - exact G1.
  - rewrite Hx1. simpl. by rewrite Hit1.
  - eapply client_incoming; [rewrite Hcodec; exact D1|]. exact G2.
  - rewrite Hzl. simpl. by rewrite Hit2, Hcodec.
  - rewrite Hzl. simpl. by rewrite Hs2.
  - eapply server_incoming; [exact Hx1 | by rewrite Hn1 | rewrite Hcodec in D2; exact D2 | exact G3].
  - rewrite Hch3, lookup_insert_eq. simpl. rewrite Hit3. simpl. by rewrite Hit1, <-app_assoc.
  - rewrite Hch3, lookup_insert_eq. simpl. by rewrite Hs3.
  - apply (client_incoming _ _ _ new_ready); [|exact G4]. rewrite Hrt1, Hcodec. by eapply decode_encode_ok.
  - rewrite Hz2, lookup_insert_eq. simpl. by rewrite Hs4.
Qed.
End handshake.

(** ** Frames *)
Section frames.
Context `{T : Types} `{Cells : AtomicEnumCell} `{Chans : Mpsc} `{Nt : Notify} `{U : Urls} `{Crates : !SerdeCrates}.

Lemma attempted {W L R A} (p : prog W L R A) w tr r w' :
  goes p w tr r w' → goes (r <- attempt p ;; Ret (is_ok r)) w tr (Ok (is_ok r)) w'.
Proof. intros Hg. rewrite <-(app_nil_r tr). eapply goes_bind; [by apply goes_attempt | apply goes_ret]. Qed.

(** A frame and its reader. *)
Lemma server_reads codec c b ws tr r ws' :
  is_text codec = true ∨ length b ≠ 1 →
  goes (Connection.handle_incoming_packet c b) ws tr r ws' →
  goes (Namespace.read_turn c (Some (message_of codec b))) ws tr (Ok (is_ok r)) ws'.
Proof.
  intros Hb Hg. unfold message_of, Namespace.read_turn. destruct (is_text codec); [by apply attempted|].
  destruct Hb as [|Hb%Nat.eqb_neq]; [done|]. rewrite Hb. by apply attempted.
Qed.

Lemma client_reads codec s b wc tr r wc' :
  goes (Session.handle_incoming_packet s b) wc tr r wc' →
  goes (ClientRuntime.read_turn s (Some (message_of codec b))) wc tr (Ok (is_ok r)) wc'.
Proof. intros Hg. unfold message_of, ClientRuntime.read_turn. destruct (is_text codec); by apply attempted. Qed.

(** C17: what one side puts into a frame the other side reads.  If a packet is encoded,
    decoding gives the same packet, and the same for payloads; the frame is text exactly
    for the two JSON codecs; both readers hand the bytes of a text frame, and of a
    binary frame that is not of one byte, to their packet handler, and go on exactly if
    it succeeds.  Bytes whose packet type is not a number from 0 to 3 are an error. *)
Theorem frames_roundtrip codec :
  (∀ p b, encode codec p = Ok b → decode codec b = Ok p) ∧
  (∀ t v b, encode_data codec t v = Ok b → decode_data codec t b = Ok v) ∧
  (is_text codec = true ↔ codec = SerdeJson ∨ codec = SonicRs) ∧
  (∀ c b ws tr r ws', is_text codec = true ∨ length b ≠ 1 →
    goes (Connection.handle_incoming_packet c b) ws tr r ws' →
    goes (Namespace.read_turn c (Some (message_of codec b))) ws tr (Ok (is_ok r)) ws') ∧
  (∀ s b wc tr r wc', goes (Session.handle_incoming_packet s b) wc tr r wc' →
    goes (ClientRuntime.read_turn s (Some (message_of codec b))) wc tr (Ok (is_ok r)) wc') ∧
  (∀ (B : SerdeBackend) b n k d, from_slice b = Ok (n, k, d) → ¬ (0 ≤ n ≤ 3)%Z →
    (inner <-? from_slice b ;; from_inner inner) = Err ECodec).
Proof.
  split_and!.
  - apply decode_encode_ok.
  - apply decode_encode_data_ok.
  - destruct codec; simpl; naive_solver.
  - apply server_reads.
  - apply client_reads.
  - intros B b n k d -> Hn. simpl. destruct (packet_type_of_repr n) as [t|e] eqn:E.
    + apply packet_type_of_repr_inv in E as ->. destruct Hn. by destruct t.
    + revert E. unfold packet_type_of_repr. by repeat case_match; intros [= <-].
Qed.

Lemma goes_send_closed s m wc x :
  sessions wc !! s = Some x → chan_closed (message_tx x) = true →
  ∃ ch, goes (send_message s m) wc [] (Err ESend) (se_set s (λ x, x .[ message_tx := ch ]) wc).
Proof.
  intros Hx Hcl. pose proof (chan_send_spec (message_tx x) m) as Hs.
  destruct (chan_send (message_tx x) m) as [[ch res]|] eqn:E; [|destruct Hs; congruence].
  rewrite Hcl in Hs. destruct Hs as (_ & _ & _ & ->).
  exists ch. eapply goes_atom; [by rewrite Hx, E|]. rewrite Hx, E. apply goes_fail.
Qed.

Lemma se_set_over s f wc x x' :
  sessions wc !! s = Some x →
  wc .[ sessions := <[s := x']> (sessions wc) ] =
  (se_set s f wc) .[ sessions := <[s := x']> (sessions (se_set s f wc)) ].
Proof. intros Hx. unfold se_set, update. simpl. by rewrite (alter_some _ _ _ _ Hx), insert_insert_eq. Qed.

(** The client's heartbeat is one frame of one byte, appended to the session's queue each time
    the interval is over; once the writer is gone it closes the session instead.  The
    server ignores a binary frame of one byte in every state, whatever the byte. *)
Theorem heartbeat c s (ws : Server) wc x fuel (Hx : sessions wc !! s = Some x) :
  let beat := (ClientState.Sleep (ping_interval (config (ClientState.runtime wc))), ClientState.RUnit (Ok tt)) in
  (∀ b, goes (Namespace.read_turn c (Some (Binary [b]))) ws [] (Ok true) ws) ∧
  (chan_closed (message_tx x) = false → length (chan_items (message_tx x)) < chan_cap (message_tx x) →
   ∃ ch, chan_items ch = chan_items (message_tx x) ++ [Binary [Byte.x01]] ∧ chan_closed ch = false ∧
     ∀ tr r w', goes (ping_loop fuel s) (se_set s (λ x, x .[ message_tx := ch ]) wc) tr r w' →
       goes (ping_loop (S fuel) s) wc (beat :: tr) r w') ∧
  (chan_closed (message_tx x) = true → ending (cell_get (ClientState.state x)) = false →
   ∃ x', cell_get (ClientState.state x') = Closing ∧
     ∀ tr r w', goes (ping_loop fuel s) (wc .[ sessions := <[s := x']> (sessions wc) ]) tr r w' →
       goes (ping_loop (S fuel) s) wc (beat :: tr) r w').
Proof.
  cbv zeta. split_and!.
  - intros b. apply goes_ret.
  - intros Hopen Hroom. destruct (goes_se_send s PING_MESSAGE wc x Hx Hopen Hroom) as (ch & Hit & _ & Hcl & Hg).
    exists ch. split_and!; [done | done|]. intros tr r w' Hl. apply goes_rt_get, goes_await.
    eapply goes_then; [by apply goes_attempt in Hg|]. exact Hl.
  - intros Hcl He. destruct (goes_send_closed s PING_MESSAGE wc x Hx Hcl) as (ch & Hs).
    destruct (goes_se_close s (se_set s (λ x, x .[ message_tx := ch ]) wc) (x .[ message_tx := ch ]))
      as [[He' _]|(_ & x' & Hx' & Hg)]; [by apply se_set_same | unfold update in He'; simpl in He'; congruence|].
    exists x'. split; [apply Hx'|]. intros tr r w' Hl. apply goes_rt_get, goes_await.
    eapply goes_then; [by apply goes_attempt in Hs|]. cbn [is_ok].
    eapply goes_then; [exact Hg|]. rewrite <-(se_set_over s (λ x, x .[ message_tx := ch ]) wc x x' Hx). exact Hl.
Qed.
End frames.

(** ** The namespace a client asks for *)
Section asking.
Context `{T : Types} `{U : Urls}.

Lemma find_namespace pairs v :
  List.find (λ p, bool_decide (p.1 = "namespace"%string))
    (filter (λ p : string * string, p.1 ≠ "namespace"%string) pairs ++ [("namespace"%string, v)]) =
  Some ("namespace"%string, v).
Proof.
  induction pairs as [|[k u] pairs IH]; [done|]. destruct (decide (k = "namespace"%string)) as [->|Hk].
  - by rewrite filter_cons_False by (simpl; tauto).
  - rewrite filter_cons_True by done. simpl. by rewrite bool_decide_eq_false_2.
Qed.

(** C27: the URL of a client built from a [ws] or [wss] URL of unreserved characters,
    whatever settings follow, makes the server look up the normalised path of that URL:
    other pairs of the query, one named [namespace] included, do not matter.  So a
    namespace registered under a path that is not normalised is found by no such client. *)
Theorem namespace_reaches_server tls u b ss request
    (Hb : client_builder (T := T) tls (Ok u) = Ok b)
    (Hpairs : Forall plain_pair (query_pairs u)) (Hpath : plain (url_path u) = true)
    (Hq : Request.query request = raw_query (ClientConfig.connect_url (client_configure ss b))) :
  Request.namespace_path request = Some (normalize_url_path (url_path u)) ∧
  ∀ p, normalize_url_path p ≠ p → Request.namespace_path request ≠ Some p.
Proof.
  assert (Hn : Request.namespace_path request = Some (normalize_url_path (url_path u))).
  { apply client_builder_built in Hb as ->. destruct (built_query u Hpairs Hpath) as [Hr Hp].
    unfold Request.namespace_path. rewrite Hq.
    rewrite (proj1 (client_configure_query ss (built u))), Hr. simpl.
    rewrite Hp. unfold connect_pairs. by rewrite find_namespace. }
  split; [done|]. rewrite Hn. intros p Hp [= <-]. apply Hp.
  apply normalize_twice.
Qed.
End asking.

(** ** On the reference crates *)
#[local] Existing Instances ref_types ref_cell ref_mpsc ref_notify ref_http ref_urls ref_crates.

(** The request the client sends for its URL. *)
Definition request_of (u : ref_url) : Request := {|
  method := "GET"; uri := ru_path u; uri_path := ru_path u; Request.query := ru_query u;
  request_headers := request_headers upgrade_request; on_upgrade := true |}.

(** [ws://chat/?a=b%26namespace=/admin] and [ws://chat/a+b]. *)
Definition two_pairs : ref_url := RefUrl "ws" "/chat" (Some "a=b%26namespace%3D/admin"%string).
Definition plus_path : ref_url := RefUrl "ws" "/a+b" None.

Definition looked_up (u : ref_url) : option string :=
  match client_builder (T := ref_types) false (Ok (u : url)) with
  | Ok b => Request.namespace_path (request_of (ClientConfig.connect_url b))
  | Err _ => None
  end.

(** The builder joins decoded pairs without encoding them.  So a pair of the given URL
    whose value has an encoded ampersand becomes two, and the second can name another
    namespace than the path; and a path with a plus sign is looked up with a space. *)
Theorem query_not_encoded :
  query_pairs (two_pairs : url) = [("a", "b&namespace=/admin")]%string ∧
  looked_up two_pairs = Some "/admin"%string ∧
  looked_up plus_path = Some "/a b"%string.
Proof. by vm_compute. Qed.

Lemma namespace_reaches_server_witness :
  ∃ b, client_builder (T := ref_types) false (Ok (chat_url : @url ref_http ref_urls)) = Ok b ∧
    Request.namespace_path (request_of (ClientConfig.connect_url (client_configure [RequestPath "/other"] b))) =
      Some "/chat"%string.
Proof.
  eexists. split; [apply (client_builder_accepts false (chat_url : @url ref_http ref_urls)); by left|].
  apply (namespace_reaches_server false (chat_url : @url ref_http ref_urls) (built (chat_url : @url ref_http ref_urls)) [RequestPath "/other"]).
  - apply (client_builder_accepts false (chat_url : @url ref_http ref_urls)). by left.
  - by repeat constructor.
  - reflexivity.
  - reflexivity.
Defined.

Lemma frames_roundtrip_witness :
  decode SerdeJson [Byte.x03; Byte.x00; Byte.x00] = Ok new_ready.
Proof. apply (frames_roundtrip SerdeJson). by vm_compute. Defined.

Lemma heartbeat_witness :
  ∃ w', goes (ping_loop 1 0) waiting_client
    [(ClientState.Sleep (from_secs 25), ClientState.RUnit (Ok tt))] (Ok tt) w'.
Proof.
  destruct waiting_session as (x & Hx & _ & Hopen & Hroom).
  destruct (heartbeat 0 0 ready_server waiting_client x 0 Hx) as (_ & H & _).
  destruct (H Hopen Hroom) as (ch & _ & _ & Hg). eexists. exact (Hg _ _ _ (goes_ret _ _)).
Defined.

Lemma handshake_end_to_end_witness :
  ∃ ws2 wc2, server_state 0 ws2 = Some ConnReady ∧ client_state 0 wc2 = Some SessionReady.
Proof.
  destruct created_facts as (x & y & Hx & Hs & Hy & Hcfg & Hopen & Hcap & Hlen).
  destruct waiting_session as (z & Hz & Hst & Hzopen & Hzroom).
  destruct (handshake_end_to_end 0 0 (with_connections 2) waiting_client x y z
    (Some hello) (Some login_data) [(ServerState.Handler 0 "greet" None, greeting)]
    [(answer_call, RefClient.answer)] [(ServerState.Handler 0 "login" Handshake.secret, ok_unit)]
    (Byte.x02 :: Byte.x00 :: put_opt (Some hello)) (Byte.x02 :: Byte.x00 :: put_opt (Some login_data))
    [Byte.x03; Byte.x00; Byte.x00])
    as (ws1 & wc1 & ws2 & wc2 & _ & _ & _ & _ & _ & _ & _ & Hs2 & _ & Hc2).
  - split; [exact Hx | exact Hy | exact Hz | exact Hs | exact Hst | | exact Hopen | | exact Hzopen | exact Hzroom].
    + rewrite Hcfg. by vm_compute.
    + rewrite Hlen, Hcap. by apply Nat.ltb_lt.
  - rewrite Hcfg. apply (request_data _ _ (false : @ty ref_types)); by vm_compute.
  - apply hello_answered; by vm_compute.
  - rewrite Hcfg. by apply (response_some 0 chat_config _ (false : @ty ref_types) "login").
  - rewrite Hcfg. by vm_compute.
  - rewrite Hcfg. by vm_compute.
  - rewrite Hcfg. by vm_compute.
  - exists ws2, wc2. split; [exact Hs2 | exact Hc2].
Defined.
