(* ===== verification/EventFlow.v ===== *)
(** * An event, from the [emit] of one side to the handlers of the other

    The composition of [emit], the queues, the frames, the readers and the
    dispatch, in both directions. *)

From S2P Require Import Prelude Text Async Concurrent Extern ChannelCapacity Packet Codecs.
From S2P Require Import EventRegistry Extensions ServerConfig ServerState Connection Broadcast.
From S2P Require Import Namespace ServerRuntime RunServer RefServer ClientConfig ClientState Session.
From S2P Require Import ClientRuntime RefClient RunClient SessionRun ClientRun ClientCalls EndToEnd.

(** [m'] is [m] with a new entry for each of [ts]. *)
Fixpoint adds {A} (ts : list A) (m m' : gmap nat A) : Prop :=
  match ts with
  | [] => m' = m
  | t :: ts => ∃ i, m !! i = None ∧ adds ts (<[i := t]> m) m'
  end.

(** ** What a dispatch calls *)
Section calls.
Context `{T : Types} `{Crates : !SerdeCrates} {Ctx Fut : Type}.

(** What a handler is given; an event without payload carries [()]. *)
Definition payload (data : option any) : any := default (Any ty_unit unit_val) data.

Definition invokes (ctx : Ctx) (a : any) (h : Z * EventRegistry.Handler Ctx Fut) (fut : Fut) : Prop :=
  ∃ v, a = Any (handler_type_id h.2) v ∧ fut = handler_fn h.2 ctx v.

Lemma calls_invoke ctx a (l : list (Z * EventRegistry.Handler Ctx Fut)) :
  (∀ h, h ∈ l → handler_type_id h.2 = type_id a) →
  ∃ futs, Forall2 (invokes ctx a) l futs ∧ (λ '(_, h), call_handler h ctx a) <$> l = Call <$> futs.
Proof.
  induction l as [|[i h] l IH]; intros Ht; [by exists []|].
  destruct IH as (futs & Hf & He); [intros; apply Ht; by right|].
  pose proof (Ht (i, h) (list_elem_of_here _ _)) as E. destruct a as [t v]. simpl in E. subst t.
  exists (handler_fn h ctx v :: futs). split; [constructor; [by exists v | done]|].
  rewrite !fmap_cons. f_equal; [|exact He]. unfold call_handler.
  rewrite bool_decide_eq_false_2 by (simpl; tauto). by rewrite downcast_same.
Qed.

Lemma dispatch_invokes r p e ctx codec data d :
  registry_ok r → entry_heap r !! p = Some e → Connection.encode_payload codec data = Ok d →
  data_type_id e = type_id (payload data) →
  ∃ futs, Forall2 (invokes ctx (payload data)) (map_to_list (handlers e)) futs ∧
    dispatch_task p ctx codec d r = Call <$> futs.
Proof.
  intros Hok He Hd Ht. unfold dispatch_task. rewrite He.
  pose proof (ok_decoder r Hok p e He) as Hdec.
  destruct (calls_invoke ctx (payload data) (map_to_list (handlers e))) as (futs & Hf & Hc).
  { intros [i h] Hi%elem_of_map_to_list. rewrite <-Ht. by eapply ok_types. }
  exists futs. split; [exact Hf|]. rewrite <-Hc. unfold Connection.encode_payload in Hd.
  destruct data as [[t v]|]; simpl in *.
  - destruct (encode_data codec t v) as [b|] eqn:Hb; [|done]. injection Hd as <-.
    unfold decode_data_as_any_arc. rewrite Hdec, Ht. by rewrite (decode_encode_data_ok _ _ _ _ Hb).
  - by injection Hd as <-.
Qed.
End calls.

Section flow.
Context `{T : Types} `{Cells : AtomicEnumCell} `{Chans : Mpsc} `{Nt : Notify} `{U : Urls} `{Crates : !SerdeCrates}.

Abbreviation server_goes := (goes (W := Server) (L := ServerState.label) (R := ServerState.reply)).
Abbreviation client_goes := (goes (W := Client) (L := ClientState.label) (R := ClientState.reply)).

(** ** On the server *)
Lemma server_spawns c futs ws :
  ∃ ws', server_goes (seq_all (λ call, match call with
    | Call fut => ServerState.spawn_task (ServerState.RunHandler c fut)
    | Skip => Ret tt
    | ExpectFailed => Panic "data type id matched handler registration but Arc::downcast failed"
    end) (Call <$> futs)) ws [] (Ok tt) ws' ∧
    adds (ServerState.RunHandler c <$> futs) (ServerState.tasks ws) (ServerState.tasks ws').
Proof.
  revert ws. induction futs as [|fut futs IH]; intros ws; [by exists ws|].
  set (i := fresh (dom (ServerState.tasks ws))).
  destruct (IH (ws .[ ServerState.tasks := <[i := ServerState.RunHandler c fut]> (ServerState.tasks ws) ]))
    as (ws' & Hg & Ha).
  exists ws'. split; [|exists i; split; [apply not_elem_of_dom, is_fresh | exact Ha]].
  eapply goes_then; [|exact Hg]. apply goes_spawn, goes_ret.
Qed.

(** A connection that is ready handles the frame of an event. *)
Lemma server_handles c ws x y event d f p :
  connection_heap ws !! c = Some x → namespace_heap ws !! namespace x = Some y →
  cell_get (ServerState.state x) = ConnReady →
  encode (ns_packet_codec (ServerState.config y)) (new_event event d) = Ok f →
  event_entries (ServerState.event_registry x) !! event = Some p →
  let codec := ns_packet_codec (ServerState.config y) in
  server_goes (Connection.handle_incoming_packet c f) ws [] (Ok tt)
    (ws .[ ServerState.tasks := <[fresh (dom (ServerState.tasks ws)) :=
      ServerState.DispatchEvent c p codec d]> (ServerState.tasks ws) ]).
Proof.
  intros Hx Hy Hs Hf Hp codec. eapply server_incoming; [done | done | by eapply decode_encode_ok|].
  unfold Connection.handle_packet. simpl type. cbn iota. unfold Connection.is_ready.
  eapply goes_conn_get; [done|]. rewrite cell_is_spec, bool_decide_true by done. simpl key. cbn iota.
  unfold Connection.handle_event_packet. eapply goes_conn_get; [done|]. eapply goes_ns_get; [done|].
  eapply goes_conn_get; [done|]. rewrite Hp. apply goes_spawn, goes_ret.
Qed.

Lemma server_emits c ws x y event data d f :
  let codec := ns_packet_codec (ServerState.config y) in
  connection_heap ws !! c = Some x → namespace_heap ws !! namespace x = Some y →
  cell_get (ServerState.state x) = ConnReady → Connection.encode_payload codec data = Ok d →
  encode codec (new_event event d) = Ok f → chan_closed (ServerState.message_tx x) = false →
  length (chan_items (ServerState.message_tx x)) < chan_cap (ServerState.message_tx x) →
  ∃ ws', server_goes (Connection.emit c event data) ws [] (Ok tt) ws' ∧
    server_queue c ws' = Some (chan_items (ServerState.message_tx x) ++ [message_of codec f]).
Proof.
  intros codec Hx Hy Hs Hd Hf Hopen Hroom.
  destruct (goes_send_message c (message_of codec f) ws x Hx Hopen Hroom) as (ch & Hit & _ & _ & Hg).
  exists (conn_set c (λ x, x .[ ServerState.message_tx := ch ]) ws).
  split; [|unfold server_queue; simpl; by rewrite lookup_alter_eq, Hx; simpl; rewrite Hit].
  unfold Connection.emit. eapply goes_conn_get; [done|]. eapply goes_ns_get; [done|]. fold codec. rewrite Hd.
  eapply goes_then; [apply goes_ret|]. eapply goes_then; [by apply goes_encode|].
  eapply goes_ensure; [done..|]. exact Hg.
Qed.

(** ** On the client *)
Lemma client_spawns s futs wc :
  ∃ wc', client_goes (seq_all (λ call, match call with
    | Call fut => t <- rt_get cancel_token ;; spawn_task (RunHandler t s fut)
    | Skip => Ret tt
    | ExpectFailed => Panic "data type id matched handler registration but Arc::downcast failed"
    end) (Call <$> futs)) wc [] (Ok tt) wc' ∧
    adds (RunHandler (cancel_token (runtime wc)) s <$> futs) (tasks wc) (tasks wc').
Proof.
  revert wc. induction futs as [|fut futs IH]; intros wc; [by exists wc|].
  set (i := fresh (dom (tasks wc))).
  destruct (IH (wc .[ tasks := <[i := RunHandler (cancel_token (runtime wc)) s fut]> (tasks wc) ]))
    as (wc' & Hg & Ha).
  exists wc'. split; [|exists i; split; [apply not_elem_of_dom, is_fresh | exact Ha]].
  eapply goes_then; [|exact Hg]. apply goes_rt_get, goes_cl_spawn, goes_ret.
Qed.

Lemma client_handles s wc z event d f p :
  sessions wc !! s = Some z → cell_get (state z) = SessionReady →
  encode (packet_codec (config (runtime wc))) (new_event event d) = Ok f →
  event_entries (event_registry (runtime wc)) !! event = Some p →
  client_goes (Session.handle_incoming_packet s f) wc [] (Ok tt)
    (wc .[ tasks := <[fresh (dom (tasks wc)) :=
      DispatchEvent (cancel_token (runtime wc)) s p (packet_codec (config (runtime wc))) d]> (tasks wc) ]).
Proof.
  intros Hz Hs Hf Hp. eapply client_incoming; [by eapply decode_encode_ok|].
  unfold handle_packet. simpl type. cbn iota. unfold is_ready.
  eapply goes_se_get; [done|]. rewrite cell_is_spec, bool_decide_true by done. simpl key. cbn iota.
  unfold handle_event_packet. apply goes_rt_get, goes_rt_get. rewrite Hp.
  apply goes_rt_get, goes_cl_spawn, goes_ret.
Qed.
(** [emit], with nothing else waiting, and one turn of the sender. *)
Lemma client_emits s wc z event data d f :
  let codec := packet_codec (config (runtime wc)) in
  takes wc s z → cell_get (status (runtime wc)) = Running → Connection.encode_payload codec data = Ok d →
  encode codec (new_event event d) = Ok f → chan_closed (send_event_message (runtime wc)) = false →
  chan_items (send_event_message (runtime wc)) = [] → 0 < chan_cap (send_event_message (runtime wc)) →
  ∃ wc1 wc2, client_goes (emit event data) wc [] (Ok tt) wc1 ∧
    client_goes (send_event_messages 1 1) wc1 [] (Ok tt) wc2 ∧
    client_queue s wc2 = Some (chan_items (message_tx z) ++ [message_of codec f]).
Proof.
  intros codec Ht Hs Hd Hf Hopen Hempty Hcap.
  destruct (goes_emit event data d f wc Hs Hd Hf Hopen) as (ch & Hit & Hg); [by rewrite Hempty|].
  rewrite Hempty in Hit. pose proof (chan_try_recv_spec ch) as Hr.
  destruct (chan_try_recv ch) as [ch' o] eqn:E. rewrite Hit in Hr. destruct Hr as (_ & _ & -> & _).
  set (wc1 := rt_set (λ r, r .[ send_event_message := ch ]) wc) in *.
  set (wc2 := rt_set (λ r, r .[ send_event_message := ch' ]) wc1).
  destruct (goes_deliver 0 (message_of codec f) wc2 s z Ht) as (cz & Hcz & Hdel).
  exists wc1. eexists. split; [exact Hg|]. split.
  - cbn [send_event_messages]. eapply goes_then with (w1 := wc2) (a := Some (message_of codec f)).
    + apply (goes_atom _ _ _ wc2); simpl; [|rewrite E; apply goes_ret].
      unfold rt_set. simpl. by rewrite E.
    + eapply goes_then; [exact Hdel | apply goes_ret].
  - unfold client_queue. simpl. destruct Ht as (_ & Hz & _).
    by rewrite lookup_alter_eq, Hz; simpl; rewrite Hcz.
Qed.
(** ** Both directions *)

(** The two sides after the handshake, with nothing waiting to be sent by the client. *)
Record linked (c s : nat) (ws : Server) (wc : Client) (x : WsIoServerConnection)
    (y : WsIoServerNamespace) (z : WsIoClientSession) : Prop := {
  link_conn : connection_heap ws !! c = Some x;
  link_ns : namespace_heap ws !! namespace x = Some y;
  link_ready : cell_get (ServerState.state x) = ConnReady;
  link_codec : packet_codec (config (runtime wc)) = ns_packet_codec (ServerState.config y);
  link_open : chan_closed (ServerState.message_tx x) = false;
  link_room : length (chan_items (ServerState.message_tx x)) < chan_cap (ServerState.message_tx x);
  link_session : takes wc s z;
  link_running : cell_get (status (runtime wc)) = Running;
  link_events_open : chan_closed (send_event_message (runtime wc)) = false;
  link_events_none : chan_items (send_event_message (runtime wc)) = [];
  link_events_room : 0 < chan_cap (send_event_message (runtime wc));
}.

(** The event has the entry [p], whose handlers take this payload. *)
Record serves {Ctx Fut} (r : WsIoEventRegistry Ctx Fut) (event : string) (p : nat)
    (e : EventEntry Ctx Fut) (a : any) : Prop := {
  serves_ok : registry_ok r;
  serves_event : event_entries r !! event = Some p;
  serves_entry : entry_heap r !! p = Some e;
  serves_type : data_type_id e = type_id a;
}.

(** C11: an event that one side emits when both are ready is a frame at the end of its queue.
    Read by the other side, this frame starts one dispatch, and the dispatch spawns one
    task for every handler that is registered there for the event, and no other: the
    handler, called with the payload that was emitted, or with the unit value if there
    was none.  In both directions, with any of the codecs. *)
Theorem event_end_to_end c s ws wc x y z event data d f (L : linked c s ws wc x y z)
    (Hd : Connection.encode_payload (ns_packet_codec (ServerState.config y)) data = Ok d)
    (Hf : encode (ns_packet_codec (ServerState.config y)) (new_event event d) = Ok f) :
  let codec := ns_packet_codec (ServerState.config y) in
  let frame := message_of codec f in
  let token := cancel_token (runtime wc) in
  (∀ p e, serves (ServerState.event_registry x) event p e (payload data) →
     is_text codec = true ∨ length f ≠ 1 →
     ∃ wc1 wc2 ws1 ws2 futs,
       client_goes (emit event data) wc [] (Ok tt) wc1 ∧
       client_goes (send_event_messages 1 1) wc1 [] (Ok tt) wc2 ∧
       client_queue s wc2 = Some (chan_items (message_tx z) ++ [frame]) ∧
       server_goes (Namespace.read_turn c (Some frame)) ws [] (Ok true) ws1 ∧
       adds [ServerState.DispatchEvent c p codec d] (ServerState.tasks ws) (ServerState.tasks ws1) ∧
       server_goes (Connection.run_dispatch c p codec d) ws1 [] (Ok tt) ws2 ∧
       adds (ServerState.RunHandler c <$> futs) (ServerState.tasks ws1) (ServerState.tasks ws2) ∧
       Forall2 (invokes c (payload data)) (map_to_list (handlers e)) futs) ∧
  (∀ p e, serves (event_registry (runtime wc)) event p e (payload data) →
     ∃ ws1 wc1 wc2 futs,
       server_goes (Connection.emit c event data) ws [] (Ok tt) ws1 ∧
       server_queue c ws1 = Some (chan_items (ServerState.message_tx x) ++ [frame]) ∧
       client_goes (ClientRuntime.read_turn s (Some frame)) wc [] (Ok true) wc1 ∧
       adds [DispatchEvent token s p codec d] (tasks wc) (tasks wc1) ∧
       client_goes (Session.run_dispatch s p codec d) wc1 [] (Ok tt) wc2 ∧
       adds (RunHandler token s <$> futs) (tasks wc1) (tasks wc2) ∧
       Forall2 (invokes s (payload data)) (map_to_list (handlers e)) futs).
Proof.
  destruct L as [Hx Hy Hs Hcodec Ho Hr Ht Hrun Heo Hen Her]. intros codec frame token.
  assert (Hz : sessions wc !! s = Some z ∧ cell_get (state z) = SessionReady) by by destruct Ht as (_ & ? & ? & _).
  destruct Hz as [Hz Hzs]. split.
  - intros p e [Hok Hp He Hty] Hb.
    destruct (client_emits s wc z event data d f) as (wc1 & wc2 & G1 & G2 & Hq);
      [done | done | by rewrite Hcodec | by rewrite Hcodec | done..|]. rewrite Hcodec in Hq.
    destruct (dispatch_invokes _ p e c codec data d Hok He Hd Hty) as (futs & Hf2 & Hcalls).
    set (ws1 := ws .[ ServerState.tasks := <[fresh (dom (ServerState.tasks ws)) :=
      ServerState.DispatchEvent c p codec d]> (ServerState.tasks ws) ]).
    destruct (server_spawns c futs ws1) as (ws2 & G4 & Ha). exists wc1, wc2, ws1, ws2, futs. split_and!; try done.
    + by apply (server_reads codec c f ws [] (Ok tt) ws1), (server_handles c ws x y event).
    + eexists. split; [apply not_elem_of_dom, is_fresh | done].
    + unfold Connection.run_dispatch. eapply goes_conn_get; [exact Hx|]. by rewrite Hcalls.
  - intros p e [Hok Hp He Hty].
    destruct (server_emits c ws x y event data d f) as (ws1 & G1 & Hq); [done..|].
    destruct (dispatch_invokes _ p e s codec data d Hok He Hd Hty) as (futs & Hf2 & Hcalls).
    set (wc1 := wc .[ tasks := <[fresh (dom (tasks wc)) := DispatchEvent token s p codec d]> (tasks wc) ]).
    destruct (client_spawns s futs wc1) as (wc2 & G4 & Ha). exists ws1, wc1, wc2, futs. split_and!; try done.
    + apply (client_reads codec s f wc [] (Ok tt) wc1).
      unfold wc1, codec. rewrite <-Hcodec. apply (client_handles s wc z event); [done | done | by rewrite Hcodec | done].
    + eexists. split; [apply not_elem_of_dom, is_fresh | done].
    + unfold Session.run_dispatch. apply goes_rt_get.
      change (event_registry (runtime wc1)) with (event_registry (runtime wc)). by rewrite Hcalls.
Qed.
End flow.

(** ** Witness *)
#[local] Existing Instances ref_types ref_cell ref_mpsc ref_notify ref_http ref_urls ref_crates.

(** A handler that is told its name before the payload. *)
Definition echo (name : string) : EventRegistry.Handler nat string :=
  {| handler_type_id := (false : @ty ref_types); handler_fn := λ _ (v : string), (name ++ v)%string |}.

Definition listening_server : Server :=
  RefServer.after [] (_ <- Connection.on 0 "chat" (echo "a:") ;; Connection.on 0 "chat" (echo "b:")) ready_server.
Definition listening_client : Client := RefClient.after [] (ClientRuntime.on "chat" (echo "c:")) ready_client.

Definition greetings : any := @Any ref_types false "hello"%string.

Lemma server_listens x :
  connection_heap listening_server !! 0 = Some x →
  ServerState.event_registry x = exec_all [OpOn "chat" (echo "b:"); OpOn "chat" (echo "a:")].
Proof. intros Hx. apply (field_of ServerState.event_registry _ x _ Hx). by vm_compute. Qed.

Lemma client_listens : event_registry (runtime listening_client) = exec_all [OpOn "chat" (echo "c:")].
Proof. by vm_compute. Qed.

Lemma listening_linked :
  ∃ x y z, linked 0 0 listening_server listening_client x y z ∧ ServerState.config y = chat_config.
Proof.
  destruct (connection_heap listening_server !! 0) as [x|] eqn:Hx; [|by vm_compute in Hx].
  destruct (namespace_heap listening_server !! 0) as [y|] eqn:Hy; [|by vm_compute in Hy].
  destruct (sessions listening_client !! 0) as [z|] eqn:Hz; [|by vm_compute in Hz].
  assert (ServerState.config y = chat_config) as Hc by (apply (field_of ServerState.config _ y _ Hy); by vm_compute).
  assert (namespace x = 0) as Hn by (apply (field_of namespace _ x _ Hx); by vm_compute).
  exists x, y, z. split; [|exact Hc]. split.
  - exact Hx.
  - by rewrite Hn.
  - apply (field_of (λ x, cell_get (ServerState.state x)) _ x _ Hx). by vm_compute.
  - rewrite Hc. by vm_compute.
  - apply (field_of (λ x, chan_closed (ServerState.message_tx x)) _ x _ Hx). by vm_compute.
  - apply Nat.ltb_lt.
    apply (field_of (λ x, length (chan_items (ServerState.message_tx x)) <? chan_cap (ServerState.message_tx x)) _ x _ Hx).
    by vm_compute.
  - split; [by vm_compute|]. split; [exact Hz|]. split_and!.
    + apply (field_of (λ x, cell_get (state x)) _ z _ Hz). by vm_compute.
    + apply (field_of (λ x, chan_closed (message_tx x)) _ z _ Hz). by vm_compute.
    + apply Nat.ltb_lt.
      apply (field_of (λ x, length (chan_items (message_tx x)) <? chan_cap (message_tx x)) _ z _ Hz). by vm_compute.
  - by vm_compute.
  - by vm_compute.
  - by vm_compute.
  - apply Nat.ltb_lt. by vm_compute.
Qed.

Lemma event_end_to_end_witness :
  ∃ ws1 ws2 wc1 wc2 a b c,
    goes (Connection.run_dispatch 0 0 SerdeJson (Some hello)) ws1 [] (Ok tt) ws2 ∧
    adds [ServerState.RunHandler 0 a; ServerState.RunHandler 0 b] (ServerState.tasks ws1) (ServerState.tasks ws2) ∧
    goes (Session.run_dispatch 0 0 SerdeJson (Some hello)) wc1 [] (Ok tt) wc2 ∧
    adds [RunHandler (cancel_token (runtime listening_client)) 0 c] (tasks wc1) (tasks wc2).
Proof.
  destruct listening_linked as (x & y & z & L & Hc).
  pose proof (server_listens x (link_conn _ _ _ _ _ _ _ L)) as Hl.
  destruct (event_end_to_end 0 0 listening_server listening_client x y z "chat" (Some greetings) (Some hello)
    (Byte.x01 :: put_opt (Some (String.list_byte_of_string "chat")) ++ put_opt (Some hello)) L) as [H1 H2].
  - rewrite Hc. by vm_compute.
  - rewrite Hc. by vm_compute.
  - rewrite Hl, Hc in H1. rewrite client_listens, Hc in H2.
    destruct (entry_heap (exec_all [OpOn "chat" (echo "b:"); OpOn "chat" (echo "a:")]) !! 0) as [e|] eqn:He;
      [|by vm_compute in He].
    destruct (entry_heap (exec_all [OpOn "chat" (echo "c:")]) !! 0) as [e'|] eqn:He'; [|by vm_compute in He'].
    destruct (H1 0 e) as (_ & _ & ws1 & ws2 & futs & _ & _ & _ & _ & _ & G & Ha & Hf).
    { split; [apply exec_all_ok | by vm_compute | exact He |].
      apply (field_of data_type_id _ e _ He). by vm_compute. }
    { left. by vm_compute. }
    destruct (H2 0 e') as (_ & wc1 & wc2 & futs' & _ & _ & _ & _ & G' & Ha' & Hf').
    { split; [apply exec_all_ok | by vm_compute | exact He' |].
      apply (field_of data_type_id _ e' _ He'). by vm_compute. }
    apply Forall2_length in Hf, Hf'.
    assert (length (map_to_list (handlers e)) = 2) as Hn
      by (apply (field_of (λ e, length (map_to_list (handlers e))) _ e _ He); by vm_compute).
    assert (length (map_to_list (handlers e')) = 1) as Hn'
      by (apply (field_of (λ e, length (map_to_list (handlers e))) _ e' _ He'); by vm_compute).
    rewrite Hn in Hf. rewrite Hn' in Hf'.
    destruct futs as [|a [|b [|]]], futs' as [|c [|]]; try discriminate.
    exists ws1, ws2, wc1, wc2, a, b, c. split; [exact G|]. split; [exact Ha|]. split; [exact G' | exact Ha'].
Defined.
