(* ===== verification/Agreement.v ===== *)
(** * The two sides agree

    A server and a client side by side, each with all its tasks, and streams
    between them: what a session of the client reads is what its connection of the
    server has sent, in order.  What both sides know of their own past then says
    what one side's state means about the other. *)

From S2P Require Import Prelude Text Async Spawner Concurrent Owned Extern ChannelCapacity Packet Codecs.
From S2P Require Import EventRegistry Extensions ServerConfig ServerState Connection Broadcast.
From S2P Require Import Namespace ServerRuntime RefServer Lifecycle Frames Trust Approval.
From S2P Require Import ClientConfig ClientState Session ClientRuntime RefClient ClientTasks ClientGuarantee.
From S2P Require Import ClientLifecycle.

Section agreement.
Context `{T : Types} `{Cells : AtomicEnumCell} `{Chans : Mpsc} `{Nt : Notify} `{U : Urls} `{Crates : !SerdeCrates}.
Context (log2 : f64 → f64).

Abbreviation server_sys := (sys Server ServerState.label ServerState.reply).
Abbreviation client_sys := (sys Client ClientState.label ClientState.reply).

(** ** Streams *)

(** What has gone out on the connection [c], and what the session [i] has read,
    the latest first. *)
Definition sent (c : nat) : list (ServerState.label * ServerState.reply) → list Message :=
  omap (λ a, match a.1 with
    | ServerState.WsSend (Some d) m => if decide (d = c) then Some m else None | _ => None end).

Definition received (i : nat) : list (ClientState.label * ClientState.reply) → list Message :=
  omap (λ a, match a with
    | (ClientState.WsNext j, ClientState.RFrame (Some m)) => if decide (j = i) then Some m else None
    | _ => None end).

Record net := Net { server_side : server_sys; client_side : client_sys }.

(** [wires i]: the connection of the server at the other end of the session [i]. *)
Context (wires : nat → option nat).

Definition wired (n : net) : Prop := ∀ i c, wires i = Some c →
  received i (answers (client_side n)) `suffix_of` sent c (answers (server_side n)).

(** One side takes a step; nothing is read that was not sent. *)
Inductive net_step : net → net → Prop :=
| net_server s s' c : sys_step (server_task log2) s s' → net_step (Net s c) (Net s' c)
| net_client s c c' : sys_step_in (client_starts log2) c c' → wired (Net s c') → net_step (Net s c) (Net s c').

Definition net_new (cfg : WsIoServerConfig) (b : WsIoClientBuilder) : net :=
  Net (idle (server_new cfg)) (idle (client_build log2 b)).

Lemma sent_app c h h' : sent c (h' ++ h) = sent c h' ++ sent c h.
Proof. apply omap_app. Qed.

Lemma answers_grow {W L R} (starts : W → prog W L R unit → Prop) s s' :
  sys_step_in starts s s' → ∃ h, answers s' = h ++ answers s.
Proof. destruct 1; simpl; [by exists [] | by exists [] | by eexists [_] | by exists []]. Qed.

Lemma net_runs cfg b n :
  star net_step (net_new cfg b) n →
  reaches (server_task log2) (idle (server_new cfg)) (server_side n) ∧
  reaches_in (client_starts log2) (idle (client_build log2 b)) (client_side n) ∧ wired n.
Proof.
  intros Hr. cut (∀ n0, star net_step n0 n → wired n0 →
    reaches (server_task log2) (server_side n0) (server_side n) ∧
    reaches_in (client_starts log2) (client_side n0) (client_side n) ∧ wired n).
  { intros Hn. apply (Hn (net_new cfg b)); [done|]. intros i c _. apply suffix_nil. }
  clear. induction 1 as [n|n1 n2 n3 H12 _ IH]; intros Hw; [split_and!; [apply star_refl..|done]|].
  destruct H12 as [s s' c Hs|s c c' Hc Hw'].
  - destruct IH as (HS & HC & Hw3); [|split_and!; [by eapply star_step | done..]].
    destruct (answers_grow _ _ _ Hs) as [h Hh]. intros i k Hk. simpl. rewrite Hh, sent_app.
    by apply suffix_app_r, Hw.
  - destruct IH as (HS & HC & Hw3); [done|]. split_and!; [done | by eapply star_step | done].
Qed.

Lemma received_sent i m h : (ClientState.WsNext i, ClientState.RFrame (Some m)) ∈ h → m ∈ received i h.
Proof. intros Hin. apply list_elem_of_omap. eexists. split; [exact Hin|]. simpl. by rewrite decide_True. Qed.

Lemma sent_answer c m h : m ∈ sent c h → ∃ r, (ServerState.WsSend (Some c) m, r) ∈ h.
Proof.
  intros ([l r] & Hin & Hl)%list_elem_of_omap. destruct l as [| | | |[d|] m'| | | |]; try done.
  simpl in Hl. case_decide; [|done]. simplify_eq. by exists r.
Qed.

(** C7: a client and a server run side by side, every task of each interleaved, and the
    streams deliver to a session only what its connection has sent, in order.  If both
    use the same codec and the session is ready, then the connection has got ready,
    which it still is unless it is closing or closed, and the handlers of its namespace
    have all answered Ok for it in the order of the handshake; and on the client the init
    handler has answered Ok, given the payload of an init packet it has read. *)
Theorem ready_agreement cfg b n i c z (Hr : star net_step (net_new cfg b) n) (Hw : wires i = Some c)
    (Hcodec : ∀ x y, connection_heap (shared (server_side n)) !! c = Some x →
      namespace_heap (shared (server_side n)) !! namespace x = Some y →
      ns_packet_codec (ServerState.config y) = packet_codec (ClientConfig.config b))
    (Hz : sessions (shared (client_side n)) !! i = Some z)
    (Hready : cell_get (ClientState.state z) = SessionReady) :
  was_ready c (server_side n) ∧ greeted i (ClientConfig.config b) (answers (client_side n)).
Proof.
  destruct (net_runs _ _ _ Hr) as (HS & HC & Hwired).
  destruct (client_runs log2 b _ HC) as ([_ Hcfg _ _ _] & Hg & _). simpl in Hcfg.
  pose proof (good_evidence _ Hg i z Hz) as He. simpl in He. rewrite Hcfg, Hready in He.
  destruct He as [Hgreet (p & a & (m & -> & Hm & Hp) & Hin)]. split; [|done].
  apply received_sent in Hin. destruct (Hwired i c Hw) as [k Hk].
  destruct (sent_answer c m (answers (server_side n))) as [r Hsent].
  { rewrite Hk. apply elem_of_app. by right. }
  destruct (server_runs log2 _ _ HS) as [_ Hon]. apply cleared_ready.
  destruct (honest_sent _ Hon c m r Hsent) as [->|(x & y & Hx & Hy & Hc)].
  - by destruct Hm as (b' & [Hb|Hb] & _).
  - apply Hc. exists p. by rewrite (Hcodec x y Hx Hy).
Qed.

(** A run of each side is a run of both, if all that is read at the end was sent. *)
Lemma server_lift s s' c : reaches (server_task log2) s s' → star net_step (Net s c) (Net s' c).
Proof. induction 1; [apply star_refl | eapply star_step; [by apply net_server | done]]. Qed.

Lemma answers_grow_star {W L R} (starts : W → prog W L R unit → Prop) s s' :
  reaches_in starts s s' → ∃ h, answers s' = h ++ answers s.
Proof.
  induction 1 as [s|s1 s2 s3 H12 _ [h Hh]]; [by exists []|].
  destruct (answers_grow _ _ _ H12) as [h' Hh']. exists (h ++ h'). by rewrite Hh, Hh', app_assoc.
Qed.

Lemma wired_before s c c' h : answers c' = h ++ answers c → wired (Net s c') → wired (Net s c).
Proof.
  intros Hh Hw i k Hk. specialize (Hw i k Hk). simpl in *. rewrite Hh in Hw.
  unfold received in Hw. rewrite omap_app in Hw. by eapply suffix_app_l.
Qed.

Lemma client_lift s c c' :
  reaches_in (client_starts log2) c c' → wired (Net s c') → star net_step (Net s c) (Net s c').
Proof.
  induction 1 as [c|c c1 c' H12 H23 IH]; intros Hw; [apply star_refl|].
  destruct (answers_grow_star _ _ _ H23) as [h Hh].
  eapply star_step; [apply net_client; [done | by eapply wired_before] | by apply IH].
Qed.
End agreement.

(** ** Witness *)
#[local] Existing Instances ref_types ref_cell ref_mpsc ref_notify ref_http ref_urls ref_crates.

Definition one_wire (i : nat) : option nat := if i =? 0 then Some 0 else None.

(** The two handshakes, of [Approval] and of [ClientLifecycle], with one stream. *)
Lemma both_run :
  star (net_step ref_log2 one_wire) (net_new ref_log2 (ServerBuilder.build []) chat_builder) (Net shaken handshaken).
Proof.
  eapply star_app; [apply server_lift, handshake_reaches|]. apply client_lift; [apply handshaken_reached|].
  intros [|i] c; [|done]. intros [= <-]. simpl.
  assert (received 0 (answers handshaken) = sent 0 (answers shaken)) as -> by by vm_compute.
  done.
Qed.

Lemma ready_agreement_witness :
  was_ready 0 shaken ∧ greeted 0 (ClientConfig.config chat_builder) (answers handshaken).
Proof.
  destruct (sessions (shared handshaken) !! 0) as [z|] eqn:Hz; [|by vm_compute in Hz].
  assert (cell_get (ClientState.state z) = SessionReady) as Hs
    by (apply (field_of (λ y, cell_get (ClientState.state y)) _ z _ Hz); by vm_compute).
  refine (ready_agreement ref_log2 one_wire (ServerBuilder.build []) chat_builder (Net shaken handshaken) 0 0 z
    both_run eq_refl _ Hz Hs).
  intros x y Hx Hy. destruct shaken_state as (x' & y' & Hx' & Hy' & _ & Hn & Hc). simpl in Hx, Hy.
  assert (x = x') as -> by congruence. rewrite Hn in Hy. assert (y = y') as -> by congruence.
  rewrite Hc. reflexivity.
Defined.
